(* ===== verification/_CoqProject ===== *)
-Q . S2P
Prelude.v
Node.v
Version.v
Message.v
OutboundQueue.v
Channel.v
Mailbox.v
Task.v
Interceptor.v
Actor.v
Dispatch.v
Stream.v
RuntimeSupport.v
CircuitBreaker.v
Supervision.v
Throttle.v
DeadLetter.v
ActorLoop.v
Lifecycle.v
AdapterRef.v
Session.v
Client.v
WireInterceptor.v
TypeRegistry.v
ActorRef.v
Pool.v
VirtualPool.v
Broadcast.v
Group.v
SystemActors.v
Cluster.v
NativeActors.v
Proto.v
AdapterRuntime.v
RuntimeRuns.v
Persistence.v
Transport.v
RemoteRef.v
Float64.v
Metrics.v
Snapshot.v
TestRuntime.v
Conformance.v
ConformanceStreams.v
Clock.v
Timer.v
AzureDiscovery.v
CloudDiscovery.v
Mock.v
TestNode.v
TestCluster.v
CommandHandler.v
TaskQueue.v
Examples.v
