(* ===== verification/Prelude.v ===== *)
(** * dactor: a verification library

    dactor (https://github.com/Yaming-Hub/dactor, crate sources under src/) is
    a Rust library of distributed actors: a core crate (src/dactor/src) of
    actor references, interceptors, supervision, pools, streams, wire framing,
    persistence and system actors with a reference runtime, and adapters that
    run it on ractor, kameo and coerce (src/dactor-ractor, src/dactor-kameo,
    src/dactor-coerce). Around them are crates for discovery, a mock cluster
    and a test harness. This development models all of these as functions, and
    proves that the components do what they are for.

    ** The program's parts and the files that model them

    A message goes through the outbound interceptors of an actor reference
    (interceptor.rs, runtime_support.rs, runtime.rs of the adapters) into the
    mailbox of the actor. The actor's loop takes it out, runs the inbound
    interceptors, then the handler against the message's cancellation token,
    and answers. A message for another node is encoded by a remote reference
    (remote_ref.rs) and put into a [WireEnvelope] (remote.rs,
    type_registry.rs), waits in the outbound priority queue (outbound_queue.rs)
    or in a batch (batched_transport.rs), and is framed (proto.rs). At the
    other node the wire interceptors look at it (wire_interceptor.rs), its body
    is decoded by the type registry, and it goes into the mailbox of an actor,
    of a pool or of a group. System messages take the same road to the router
    of the runtime, which hands them to its native system actors.

    - Prelude: [result], machine integers, list, map and string lemmas, the
      tactics and the hint database [dactor].
    - Node: [NodeId], [ActorId] (node.rs), [SendMode], the error data
      (errors.rs, [ActorError] of actor.rs).
    - Version: [WireVersion] (version.rs).
    - Message: headers, wire headers, envelopes (message.rs, remote.rs).
    - OutboundQueue: [OutboundPriorityQueue] (outbound_queue.rs).
    - Channel: the interface of both ends of tokio's bounded channels, a
      library, and a queue that meets it.
    - Mailbox: mailbox.rs and the bounded sender of runtime_support.rs.
    - Task: [async] code, poll by poll, in an environment that changes the
      world between two polls; [select!] with [biased], [catch_unwind], and the
      rules by which the other files prove what a task does.
    - Interceptor, RuntimeSupport: interceptor.rs and runtime_support.rs.
    - Actor: the actor interface, its context, the ask reply (actor.rs).
    - Dispatch: the boxed messages of a mailbox (dispatch.rs).
    - Stream: [BatchWriter] and [BatchReader] (stream.rs).
    - CircuitBreaker, Throttle, WireInterceptor, Metrics: the built-in
      interceptors (circuit_breaker.rs, throttle.rs, wire_interceptor.rs,
      metrics.rs). Snapshot: what a snapshot of the metrics says of the
      recordings. Float64: [f64], as the Standard Library specifies IEEE 754.
    - Supervision: restart strategies (supervision.rs).
    - DeadLetter: dead-letter events and reasons (dead_letter.rs).
    - ActorLoop: the handling of a message and the stopping of an actor in the
      four runtimes (runtime.rs of the adapters, test_support/test_runtime.rs).
      The four copies are one definition, with a parameter where they differ.
    - AdapterRef: the four actor references (same files).
    - Session: an actor of the reference runtime with its callers, its mailbox
      of any kind and its task, in any interleaving, and the sequential object
      it implements. Client: the callers as programs. Conformance and
      ConformanceStreams: the actors and the tests of
      test_support/conformance.rs.
    - TypeRegistry: type_registry.rs and the envelope builders of remote.rs.
    - ActorRef: the interface of an actor reference (actor.rs) and [WorkerRef]
      (worker_ref.rs); Pool, VirtualPool, Broadcast, Group: pool.rs,
      virtual_pool.rs, broadcast.rs, group.rs and registry.rs, over it.
    - SystemActors: system_actors.rs and system_router.rs.
    - Cluster: cluster.rs, the emitters of the adapters, the cluster state and
      the discovery data of remote.rs.
    - NativeActors: system_actors.rs of the adapters.
    - Proto: proto.rs and the schema proto/system.proto.
    - AdapterRuntime: the runtime of an adapter, from spawning to routing
      (runtime.rs). RuntimeRuns: runs of it, and what they keep.
    - Persistence: persistence.rs.
    - Transport: transport.rs and batched_transport.rs.
    - RemoteRef: remote_ref.rs.
    - TestRuntime: the struct of the reference runtime
      (test_support/test_runtime.rs). Lifecycle: what it and the adapters
      share, the watcher map and the stop handles.
    - Timer, Clock: timer.rs; clock.rs and test_support/test_clock.rs.
    - TaskQueue: the application of examples/task_queue.rs, its four kinds of
      actors with their mailboxes, main and the timer, in any interleaving.
      Examples: seven smaller examples, as callers' programs or as runs over a
      storage.
    - AzureDiscovery, CloudDiscovery: the discovery crates (lib.rs of
      dactor-discover-azure, dactor-discover-aws, dactor-discover-k8s).
    - Mock: network.rs, node.rs and cluster.rs of dactor-mock.
    - TestNode, TestCluster: the control service of a test node and the cluster
      that launches nodes (dactor-test-harness/src). CommandHandler: the
      commands of the test nodes of the adapters (src/bin/test_node_*.rs).

    A definition has the name of the Rust item it translates, with the type as
    a prefix where two items share it ([OneForOne_on_child_failed]); a part of
    a function that is a loop or a shared step has a name of its own and the
    map names its lines. Where an adapter repeats the code of another, its copy
    is a definition of its own ([Kameo_connect_peer]) that applies the shared
    one.

    ** How the code is modelled

    - A struct is a [Record], an enum an [Inductive], a method that takes [&mut
      self] a function that returns the new state. What is behind a mutex or an
      atomic is explicit state. [HashMap] is [gmap]: where the code iterates
      over one, the order is that of [map_to_list], and no theorem depends on
      it.
    - [u32], [u64], [Instant] and [Duration] (nanoseconds) are [N], [usize] is
      [nat] where it counts things and [N] where it is computed with, [i64] is
      [Z]. Wrapping operations wrap explicitly; a plain operator that can leave
      its width takes the build [profile]: with overflow checks it panics,
      which is [None], otherwise it wraps.
    - [Result] is [result]. A function that can panic returns an [option].
    - The clock is an argument, one for each time the code reads it.
    - Library code is a parameter: tokio channels ([Channel.Sender] and
      [SenderLaws], [Transport.Channels]), atomics ([ActorRef.Atomics]), serde
      and prost codecs ([Proto.ProstMessage] and [ProstLaws]), uuid, the
      mailboxes of ractor, kameo and coerce, HTTP and the cloud SDKs
      ([AzureDiscovery.HttpWorld], [CloudDiscovery.AwsWorld],
      [CloudDiscovery.KubeWorld]), processes ([TestCluster.Processes]). User
      code behind a trait is a class: [ActorRef], [SupervisionStrategy],
      [JournalStorage], [SnapshotStorage], [EventSourced], [Transport]. A class
      of laws states what is promised, the clients' theorems are proved from
      it, and an instance shows that it can be met ([TestChan], [TestRef],
      [InMemoryStorage], [CountableCodec]).
    - Calls on other actors have effects: [ActorRef.RT] is the monad of
      world-passing functions that may panic.
    - Code with an [await] is a [Task]: a tree of polls. The theorems about it
      hold for every environment, that is for every interleaving with the other
      tasks. A native actor is a mailbox and a state; it takes its turns as
      steps of a run.

    ** What is proved (each file's Module [Spec])

    - The actor loop: how a message ends (C1), in which order messages are
      handled (C7), that the handler runs (C21), and what stopping does (C34).
    - The references: every branch of a send (C14) and of a remote send (C17,
      C19); batching a reply stream is invisible (C37).
    - The whole of an actor of the reference runtime, with any mailbox, refines
      a sequential object: whatever the interleaving of its callers, its task
      and the rest of the world, operations take effect one after the other in
      the order in which they entered the mailbox (C2), so a program can be
      judged against the object (C3); the counter of the conformance suite is
      an example (C25), and so is what a caller sees after a stop (C26).
    - A system of actors put together, the task queue: it comes to rest,
      settles every task and counts them right, if no worker's mailbox is full
      (C4); a task handed to a full one, as can happen in the example's own
      configuration, is lost for good (C27).
    - The runtimes, over any run of any of the three: ids are unique (C13), a
      routed system message reaches its manager (C12), is answered (C6) or
      refused for one of the listed reasons and no other (C35), events and
      directory agree (C23); remote spawning (C36) and stop handles
      ([stop_handles]). The reference runtime keeps track of its actors (C9)
      and cleans up after them (C8).
    - Nothing is lost or reordered: the outbound queue under any run in any
      mode (C10), batching in streams and in transports (C22, C15), the stream
      tasks (C32, C33); what fairness gives (C38) and does not
      ([pop_parity_starves]).
    - State machines: the circuit breaker (C16, C31), restart budgets (C18),
      the metrics of a window (C40), the watch manager as an implementation of
      a relation (C20), stopping a virtual pool (C39).
    - Persistence: recovery rebuilds the state (C5).
    - Round trips: system messages (C11), remote sends (C19).
    - Timers (C28), paged discovery (C30), membership in the mock cluster
      (C29), processes of the test harness (C24).
    - Theorems that are not in the list of properties: what the inbound hooks
      decide, asks through bounded mailboxes, broadcast receipts, the tests of
      the conformance suite, what the smaller examples print, that popping a
      queue empties it, the order of each queue mode, the rate limiters,
      versions and the handshake, the selection strategies, when least-loaded
      selection panics, that the virtual pool selects as the plain one, the
      wire round trip of headers, cluster events, stop signals, the calls of
      [test_concurrent_asks], cloud discovery, remote tells on every branch,
      the test clock, test nodes and their commands, groups, restart order, the
      wire pipeline, failed recoveries and retries, envelope bodies and frames.

    Where the code does not do what its documentation says, the theorem states
    what it does: C1, C21, C34, C36, C17, C16, C31, C39, C27, C12, C26, C8, the
    theorems [pop_parity_starves], [stop_handles], [least_loaded_panics] and
    [stop_signal] and the lemmas [Throttle.overflow_debug],
    [Throttle.overflow_release_rejects], [Broadcast.crate_error_reasons] and
    [TestRuntime.Spec.name_clash].

    ** Fuel and bounds

    Only [AzureDiscovery.follow_pages] has fuel, the number of pages it looks
    at: the server decides how many there are, and C30 shows that fuel for the
    server's pages is enough, and that only an endless listing has none that
    is. Every other loop of the modelled code is bounded by a list (items,
    buckets, batches, entries, the messages of a mailbox) or by a count
    ([retry_loop], [connect_retry] and [stop_loop], whose counts are the
    code's, the doubling of [pretty]) and is structural; a task is run poll by
    poll, and the tree of its polls is finite. Counters are assumed not to
    overflow only where a theorem says so ([2^64] recordings, envelopes or ids,
    [i64] sequence numbers), and the theorem then proves that nothing panics.

    ** What is not modelled

    Outside Task and its clients, futures run to completion one after the
    other: a run is a sequence of the operations under a lock, in any order the
    theorem quantifies over. Logging, and serde's and prost's byte formats are
    left out. The other examples, which show one operation each, and the
    crates' own tests are left out; starting the gRPC server and the main
    functions of the test nodes are start-up code. *)
From stdpp Require Export base tactics numbers list option strings gmap sets pretty.

(** ** Notations *)
Declare Scope dactor_scope.
Delimit Scope dactor_scope with dactor.
Open Scope dactor_scope.

(** ** Results: Rust's [Result<T, E>] *)
Inductive result (E A : Type) : Type :=
  | Ok (a : A)
  | Err (e : E).
Arguments Ok {E A} a.
Arguments Err {E A} e.

#[export] Instance result_eq_dec {E A} `{EqDecision E, EqDecision A} :
  EqDecision (result E A).
Proof. solve_decision. Defined.
#[export] Instance result_ret {E} : MRet (result E) := λ A a, Ok a.
#[export] Instance result_bind {E} : MBind (result E) := λ A B f r,
  match r with Ok a => f a | Err e => Err e end.
#[export] Instance result_fmap {E} : FMap (result E) := λ A B f r,
  match r with Ok a => Ok (f a) | Err e => Err e end.

Definition is_ok {E A} (r : result E A) : bool :=
  match r with Ok _ => true | Err _ => false end.
Definition is_err {E A} (r : result E A) : bool := negb (is_ok r).
(** [Result::map_err]. *)
Definition map_err {E F A} (f : E → F) (r : result E A) : result F A :=
  match r with Ok a => Ok a | Err e => Err (f e) end.
(** [Option::ok_or_else]. *)
Definition ok_or {E A} (o : option A) (e : E) : result E A :=
  match o with Some a => Ok a | None => Err e end.

Lemma result_bind_Ok {E A B} (f : A → result E B) a : (Ok a ≫= f) = f a.
Proof. done. Qed.
Lemma result_bind_Err {E A B} (f : A → result E B) e : (Err e ≫= f) = Err e.
Proof. done. Qed.
Lemma result_bind_Ok_inv {E A B} (f : A → result E B) r b :
  (r ≫= f) = Ok b → ∃ a, r = Ok a ∧ f a = Ok b.
Proof. destruct r; simpl; [eauto | done]. Qed.

(** ** Machine integers
    [u8], [u32], [u64], [usize] (64-bit) and [Duration]/[Instant] in
    nanoseconds are [N]; the width is written out where an operation can leave
    it. *)
Definition u32_max : N := 2 ^ 32 - 1.
Definition u64_max : N := 2 ^ 64 - 1.
Definition wrap32 (x : N) : N := x mod 2 ^ 32.
Definition wrap64 (x : N) : N := x mod 2 ^ 64.
(** [wrapping_add] / [fetch_add] and [wrapping_mul] on [u64]. *)
Definition wrapping_add64 (x y : N) : N := wrap64 (x + y).
Definition wrapping_mul64 (x y : N) : N := wrap64 (x * y).
(** [saturating_mul] on [u64]. *)
Definition saturating_mul64 (x y : N) : N := N.min (x * y) u64_max.

(** The plain operators of Rust panic on overflow in a build with overflow
    checks and wrap in one without. [None] is the panic. *)
Inductive profile := Debug | Release.
Definition checked64 (p : profile) (x : N) : option N :=
  if (x <=? u64_max)%N then Some x
  else match p with Debug => None | Release => Some (wrap64 x) end.
Definition add64 (p : profile) (x y : N) : option N := checked64 p (x + y).
Definition mul64 (p : profile) (x y : N) : option N := checked64 p (x * y).

Definition checked32 (p : profile) (x : N) : option N :=
  if (x <=? u32_max)%N then Some x
  else match p with Debug => None | Release => Some (wrap32 x) end.
Definition add32 (p : profile) (x y : N) : option N := checked32 p (x + y).

Lemma wrap64_small x : (x < 2 ^ 64)%N → wrap64 x = x.
Proof. apply N.mod_small. Qed.
Lemma wrap64_lt x : (wrap64 x < 2 ^ 64)%N.
Proof. by apply N.mod_lt. Qed.
Lemma wrap32_small x : (x < 2 ^ 32)%N → wrap32 x = x.
Proof. apply N.mod_small. Qed.
Lemma checked64_Some p x y : checked64 p x = Some y → y = wrap64 x ∧ (p = Debug → y = x).
Proof.
  unfold checked64, u64_max. destruct (N.leb_spec x (2 ^ 64 - 1)) as [Hx|_].
  - intros ->%(inj Some). rewrite wrap64_small; [done|lia].
  - destruct p; [done|]. by intros ->%(inj Some).
Qed.
Lemma checked64_small p x : (x <= u64_max)%N → checked64 p x = Some x.
Proof. intros H. unfold checked64. by apply N.leb_le in H as ->. Qed.
Lemma checked32_small p x : (x <= u32_max)%N → checked32 p x = Some x.
Proof. intros H. unfold checked32. by apply N.leb_le in H as ->. Qed.

(** [i64] is [Z]: what [as i64] makes of a number, and the plain [+]. *)
Definition i64_min : Z := - 2 ^ 63.
Definition i64_max : Z := 2 ^ 63 - 1.
Definition as_i64 (z : Z) : Z := ((z + 2 ^ 63) mod 2 ^ 64 - 2 ^ 63)%Z.
Definition add_i64 (p : profile) (x y : Z) : option Z :=
  if ((i64_min <=? x + y) && (x + y <=? i64_max))%Z then Some (x + y)%Z
  else match p with Debug => None | Release => Some (as_i64 (x + y)) end.
Lemma as_i64_small z : (i64_min <= z <= i64_max)%Z → as_i64 z = z.
Proof. unfold as_i64, i64_min, i64_max. intros Hz. rewrite Z.mod_small; lia. Qed.
Lemma add_i64_small p x y : (i64_min <= x + y <= i64_max)%Z → add_i64 p x y = Some (x + y)%Z.
Proof. intros [Hl Hu]. unfold add_i64. by apply Z.leb_le in Hl as ->, Hu as ->. Qed.

(** [Vec::len() as u32] and [len() as u64] of a list. *)
Definition len_u32 {A} (l : list A) : N := wrap32 (N.of_nat (length l)).
Definition len_N {A} (l : list A) : N := N.of_nat (length l).

(** [Instant::duration_since], which saturates at zero. *)
Definition duration_since (now earlier : N) : N := now - earlier.
Definition from_millis (ms : N) : N := ms * 1000000.
Definition from_secs (s : N) : N := s * 1000000000.

(** The largest [Duration], in nanoseconds; [+] on durations panics beyond it. *)
Definition duration_max : N := u64_max * 1000000000 + 999999999.
Definition duration_add (x y : N) : option N :=
  if (x + y <=? duration_max)%N then Some (x + y)%N else None.

(** ** Lists *)
(** [while let Some(front) = q.front() { if p(front) { q.pop_front() } else { break } }] *)
Fixpoint drop_while {A} (p : A → bool) (l : list A) : list A :=
  match l with
  | [] => []
  | x :: l' => if p x then drop_while p l' else l
  end.

(** [iter().position(p)]. *)
Fixpoint position {A} (p : A → bool) (l : list A) : option nat :=
  match l with
  | [] => None
  | x :: l' => if p x then Some 0 else S <$> position p l'
  end.

(** [Vec::retain(p)] / [iter().filter(p)] for a boolean predicate. *)
Fixpoint retain {A} (p : A → bool) (l : list A) : list A :=
  match l with
  | [] => []
  | x :: l' => if p x then x :: retain p l' else retain p l'
  end.

Lemma elem_of_concat {A} (ls : list (list A)) x :
  x ∈ concat ls ↔ ∃ l, l ∈ ls ∧ x ∈ l.
Proof.
  rewrite list_elem_of_In, in_concat. by setoid_rewrite list_elem_of_In.
Qed.

Section lists.
Context {A : Type} (p : A → bool).
Implicit Types l : list A.

Lemma drop_while_suffix l : ∃ k, l = k ++ drop_while p l ∧ Forall (λ x, p x = true) k.
Proof.
  induction l as [|x l (k & IH & Hk)]; [by exists []|]. simpl.
  destruct (p x) eqn:Hp; [exists (x :: k) | by exists []].
  split; [by rewrite <-app_comm_cons, <-IH | by constructor].
Qed.
Lemma drop_while_head l x l' : drop_while p l = x :: l' → p x = false.
Proof.
  induction l as [|y l IH]; simpl; [done|].
  destruct (p y) eqn:Hp; [done | by intros [= -> ->]].
Qed.
Lemma drop_while_length l : length (drop_while p l) ≤ length l.
Proof. induction l as [|x l IH]; simpl; [done|]. destruct (p x); simpl; lia. Qed.

Lemma elem_of_retain l x : x ∈ retain p l ↔ x ∈ l ∧ p x = true.
Proof.
  induction l as [|y l IH]; simpl; [rewrite elem_of_nil; tauto|].
  destruct (p y) eqn:Hp; rewrite ?elem_of_cons, IH;
    split; intuition (subst; auto; congruence).
Qed.
Lemma retain_app l l' : retain p (l ++ l') = retain p l ++ retain p l'.
Proof. induction l as [|y l IH]; simpl; [done|]. destruct (p y); by rewrite IH. Qed.
Lemma retain_length l : length (retain p l) ≤ length l.
Proof. induction l as [|x l IH]; simpl; [done|]. destruct (p x); simpl; lia. Qed.
Lemma retain_all l : Forall (λ x, p x = true) l → retain p l = l.
Proof. induction 1 as [|x l Hx _ IH]; simpl; [done|]. by rewrite Hx, IH. Qed.
Lemma retain_none l : Forall (λ x, p x = false) l → retain p l = [].
Proof. induction 1 as [|x l Hx _ IH]; simpl; [done|]. by rewrite Hx. Qed.
Lemma retain_Forall l : Forall (λ x, p x = true) (retain p l).
Proof. apply Forall_forall. intros x Hx. by apply elem_of_retain in Hx as [_ ?]. Qed.
Lemma retain_sublist l : retain p l `sublist_of` l.
Proof. induction l as [|x l IH]; simpl; [done|]. destruct (p x); by constructor. Qed.

Lemma Forall_retain (P : A → Prop) l : Forall P l → Forall P (retain p l).
Proof. induction 1 as [|x l Hx _ IH]; simpl; [done|]. destruct (p x); auto. Qed.

Lemma position_Some l i :
  position p l = Some i ↔
  ∃ x, l !! i = Some x ∧ p x = true ∧ Forall (λ y, p y = false) (take i l).
Proof.
  revert i. induction l as [|y l IH]; intros i; simpl.
  { split; [done | by intros (x & ? & _)]. }
  destruct (p y) eqn:Hp.
  - split; [intros [= <-]; exists y; by repeat (constructor || done) |].
    destruct i as [|i]; [done|]. simpl. intros (x & _ & _ & Hall).
    apply Forall_cons_1 in Hall as [? _]. congruence.
  - destruct i as [|i]; simpl.
    + split; [by destruct (position p l) |]. intros (x & [= ->] & ? & _). congruence.
    + rewrite fmap_Some. setoid_rewrite IH. split.
      * intros (j & (x & ? & ? & ?) & [= <-]). exists x. repeat split; eauto.
      * intros (x & ? & ? & [? ?]%Forall_cons_1). exists i. eauto 6.
Qed.
Lemma position_None l : position p l = None ↔ Forall (λ y, p y = false) l.
Proof.
  induction l as [|y l IH]; simpl; [done|]. rewrite Forall_cons.
  destruct (p y) eqn:Hp; [split; [done | intros [? _]; congruence]|].
  rewrite fmap_None, IH. intuition.
Qed.
Lemma position_lt l i : position p l = Some i → i < length l.
Proof. rewrite position_Some. intros (x & ? & _). by eapply lookup_lt_Some. Qed.
End lists.

Lemma retain_le {A} (p q : A → bool) l :
  (∀ x, p x = true → x ∈ l → q x = true) → length (retain p l) ≤ length (retain q l).
Proof.
  induction l as [|x l IH]; simpl; intros Hpq; [done|].
  assert (length (retain p l) ≤ length (retain q l)).
  { apply IH. intros y ??. apply Hpq; [done|by constructor]. }
  destruct (p x) eqn:Hp; [rewrite Hpq by (done || constructor); simpl; lia|].
  destruct (q x); simpl; lia.
Qed.

(** Filtering by a weaker test first changes nothing. *)
Lemma retain_retain {A} (p q : A → bool) l :
  (∀ x, p x = true → q x = true) → retain p (retain q l) = retain p l.
Proof.
  intros Hpq. induction l as [|x l IH]; simpl; [done|].
  destruct (q x) eqn:Hq; simpl; destruct (p x) eqn:Hp; rewrite ?IH; try done.
  by rewrite (Hpq x Hp) in Hq.
Qed.

(** ** Maps filled by a loop
    [for (k, v) in l { m.insert(k, v) }], the later entry winning, and the
    same loop with an [if let] around the insertion. *)
Section insert_loops.
Context {K V : Type} `{Countable K}.

Definition insert_all (l : list (K * V)) (m : gmap K V) : gmap K V :=
  foldl (λ m p, <[p.1 := p.2]> m) m l.
Definition insert_some {A} (f : A → option (K * V)) (l : list A) (m : gmap K V) : gmap K V :=
  foldl (λ m a, match f a with Some p => <[p.1 := p.2]> m | None => m end) m l.

Lemma sum_list_with_insert {A} (f : A → nat) l i x y :
  l !! i = Some x → sum_list_with f (<[i := y]> l) + f x = sum_list_with f l + f y.
Proof.
  revert i. induction l as [|z l IH]; intros [|i] Hi; simplify_eq/=; [lia|].
  specialize (IH i Hi). lia.
Qed.

Lemma insert_some_omap {A} (f : A → option (K * V)) l m :
  insert_some f l m = insert_all (omap f l) m.
Proof.
  revert m. induction l as [|a l IH]; intros m; simpl; [done|].
  destruct (f a) as [p|]; simpl; apply IH.
Qed.

Lemma insert_all_lookup_notin l m k :
  k ∉ l.*1 → insert_all l m !! k = m !! k.
Proof.
  revert m. induction l as [|[k' v] l IH]; intros m; simpl; [done|].
  intros [??]%not_elem_of_cons. rewrite IH by done. by apply lookup_insert_ne.
Qed.

(** Entries with the same key agree. *)
Definition functional (l : list (K * V)) : Prop :=
  ∀ k v v', (k, v) ∈ l → (k, v') ∈ l → v = v'.

Lemma NoDup_functional l : NoDup l.*1 → functional l.
Proof.
  induction l as [|[k0 v0] l IH]; simpl; intros Hnd k v v'.
  { by intros ?%elem_of_nil. }
  apply NoDup_cons in Hnd as [Hk Hnd].
  rewrite !elem_of_cons. intros [[= -> ->]|Hv] [[= ?]|Hv']; subst; try done.
  - destruct Hk. apply list_elem_of_fmap. by exists (k0, v').
  - destruct Hk. apply list_elem_of_fmap. by exists (k0, v).
  - by eapply IH.
Qed.

Lemma insert_all_lookup l m k v :
  functional l → (k, v) ∈ l → insert_all l m !! k = Some v.
Proof.
  revert m. induction l as [|[k' v'] l IH]; intros m Hf; simpl.
  { by intros ?%elem_of_nil. }
  assert (functional l) as Hf'.
  { intros k0 v1 v2 ??. apply (Hf k0); by constructor. }
  destruct (decide (k ∈ l.*1)) as [([k0 w] & -> & Hw)%list_elem_of_fmap|Hk].
  - intros Hin. simpl in *. apply IH; [done|].
    by rewrite (Hf k0 v w Hin ltac:(by constructor)).
  - intros [[= -> ->]|Hin]%elem_of_cons; [|by apply IH].
    rewrite insert_all_lookup_notin by done. apply lookup_insert_eq.
Qed.

Lemma insert_all_lookup_Some l m k v :
  functional l →
  insert_all l m !! k = Some v ↔ (k, v) ∈ l ∨ (k ∉ l.*1 ∧ m !! k = Some v).
Proof.
  intros Hf. destruct (decide (k ∈ l.*1)) as [Hk|Hk].
  - apply list_elem_of_fmap in Hk as ([k' v'] & -> & Hin). simpl in *.
    rewrite (insert_all_lookup l m k' v') by done. split; [naive_solver|].
    intros [Hin'|[Hn _]]; [by rewrite (Hf _ _ _ Hin' Hin)|].
    destruct Hn. apply list_elem_of_fmap. by exists (k', v').
  - rewrite insert_all_lookup_notin by done. split; [naive_solver|].
    intros [Hin|[_ ?]]; [|done]. destruct Hk. apply list_elem_of_fmap. by exists (k, v).
Qed.

Lemma insert_all_map (m1 m2 : gmap K V) : insert_all (map_to_list m2) m1 = m2 ∪ m1.
Proof.
  apply map_eq. intros k. apply option_eq. intros v.
  rewrite insert_all_lookup_Some
    by apply NoDup_functional, NoDup_fst_map_to_list.
  rewrite elem_of_map_to_list, lookup_union_Some_raw.
  split; intros [?|[Hn ?]]; (by left) || (right; split; [|done]).
  - destruct (m2 !! k) as [v'|] eqn:E; [|done]. destruct Hn.
    apply list_elem_of_fmap. exists (k, v'). by rewrite elem_of_map_to_list.
  - intros ([k' v'] & -> & Hin)%list_elem_of_fmap.
    apply elem_of_map_to_list in Hin. simpl in *. congruence.
Qed.
End insert_loops.

(** ** Strings *)
(** [str::starts_with]. *)
Fixpoint starts_with (pre s : string) : bool :=
  match pre, s with
  | EmptyString, _ => true
  | String c pre', String d s' => bool_decide (c = d) && starts_with pre' s'
  | String _ _, EmptyString => false
  end.
(** [str::contains]. *)
Fixpoint contains (pat s : string) : bool :=
  starts_with pat s ||
  match s with EmptyString => false | String _ s' => contains pat s' end.
(** [str::is_empty]. *)
Definition str_is_empty (s : string) : bool :=
  match s with EmptyString => true | _ => false end.
(** [str::split(c)]: at least one, possibly empty, piece. *)
Fixpoint split_on (c : Ascii.ascii) (s : string) : list string :=
  match s with
  | EmptyString => [EmptyString]
  | String d s' =>
      if decide (d = c) then EmptyString :: split_on c s'
      else match split_on c s' with
           | [] => [String d EmptyString]
           | w :: ws => String d w :: ws
           end
  end.

(** The inverse of [split_on]. *)
Fixpoint join_with (c : Ascii.ascii) (l : list string) : string :=
  match l with
  | [] => EmptyString
  | [w] => w
  | w :: l' => w +:+ String c (join_with c l')
  end.
Fixpoint has_char (c : Ascii.ascii) (s : string) : bool :=
  match s with
  | EmptyString => false
  | String d s' => bool_decide (d = c) || has_char c s'
  end.

(** [String.append] does not reduce by [simpl]. *)
Lemma str_app_cons c s t : String c s +:+ t = String c (s +:+ t).
Proof. done. Qed.
Lemma str_app_nil s : EmptyString +:+ s = s.
Proof. done. Qed.
Lemma str_app_assoc s1 s2 s3 : (s1 +:+ s2) +:+ s3 = s1 +:+ (s2 +:+ s3).
Proof. induction s1 as [|c s1 IH]; [done|]. by rewrite !str_app_cons, IH. Qed.
Lemma str_app_nil_r s : s +:+ EmptyString = s.
Proof. induction s as [|c s IH]; [done|]. by rewrite str_app_cons, IH. Qed.

Lemma split_on_not_nil c s : split_on c s ≠ [].
Proof. destruct s as [|d s]; simpl; [done|]. by repeat case_match. Qed.
Lemma split_on_no_char c s : has_char c s = false → split_on c s = [s].
Proof.
  induction s as [|d s IH]; simpl; [done|].
  intros [Hd%bool_decide_eq_false ?]%orb_false_iff.
  by rewrite decide_False, IH.
Qed.
Lemma split_on_app c a b :
  has_char c a = false → split_on c (a +:+ String c b) = a :: split_on c b.
Proof.
  induction a as [|d a IH]; rewrite ?str_app_cons, ?str_app_nil; simpl;
    [by rewrite decide_True|].
  intros [Hd%bool_decide_eq_false ?]%orb_false_iff.
  by rewrite decide_False, IH.
Qed.
Lemma join_split c s : join_with c (split_on c s) = s.
Proof.
  induction s as [|d s IH]; simpl; [done|].
  pose proof (split_on_not_nil c s) as Hn. case_decide as Hd.
  - subst. destruct (split_on c s) eqn:E; [done|].
    cbn [join_with]. by rewrite <-IH, str_app_nil.
  - destruct (split_on c s) as [|w [|w' ws]]; simpl in *; [done|..];
      by rewrite ?str_app_cons, <-IH.
Qed.

(** ** Tactics and hints *)
Create HintDb dactor.

#[export] Hint Resolve wrap64_lt drop_while_length retain_length retain_Forall : dactor.

(** Case analysis on every [match] and [if] of the goal, closing what it can. *)
Ltac case_all := repeat (case_match; simplify_eq/=; try done).
(** The same in a hypothesis about a successful run. *)
Ltac step_in H :=
  repeat (match type of H with
          | context [match ?x with _ => _ end] => destruct x eqn:?
          end; simplify_eq/=; try done).
(** Boolean comparisons on [N] to propositions. *)
Ltac bN :=
  repeat match goal with
  | H : (_ <=? _)%N = true |- _ => apply N.leb_le in H
  | H : (_ <=? _)%N = false |- _ => apply N.leb_gt in H
  | H : (_ <? _)%N = true |- _ => apply N.ltb_lt in H
  | H : (_ <? _)%N = false |- _ => apply N.ltb_ge in H
  | H : (_ =? _)%N = true |- _ => apply N.eqb_eq in H
  | H : (_ =? _)%N = false |- _ => apply N.eqb_neq in H
  | H : (_ <=? _)%nat = true |- _ => apply Nat.leb_le in H
  | H : (_ <=? _)%nat = false |- _ => apply Nat.leb_gt in H
  | H : (_ <? _)%nat = true |- _ => apply Nat.ltb_lt in H
  | H : (_ <? _)%nat = false |- _ => apply Nat.ltb_ge in H
  | H : (_ =? _)%nat = true |- _ => apply Nat.eqb_eq in H
  | H : (_ =? _)%nat = false |- _ => apply Nat.eqb_neq in H
  end.
