(* ===== verification/Node.v ===== *)
(** * Identities, send modes and errors

    [NodeId] and [ActorId] (dactor/src/node.rs), [SendMode]
    (dactor/src/interceptor.rs), the error types of dactor/src/errors.rs and
    [ActorError] (dactor/src/actor.rs): the data every other file shares. *)
From S2P Require Import Prelude.
From stdpp Require Import countable.

#[local] Open Scope string_scope.

(** ** Identities *)
Record NodeId := mkNodeId { node_str : string }.

#[export] Instance NodeId_eq_dec : EqDecision NodeId.
Proof. solve_decision. Defined.
#[export] Instance NodeId_countable : Countable NodeId.
Proof. by refine (inj_countable' node_str mkNodeId _); intros []. Defined.

Definition NodeId_display (n : NodeId) : string := "Node(" +:+ node_str n +:+ ")".

Record ActorId := mkActorId { node : NodeId; local : N }.

#[export] Instance ActorId_eq_dec : EqDecision ActorId.
Proof. solve_decision. Defined.
#[export] Instance ActorId_countable : Countable ActorId.
Proof.
  by refine (inj_countable' (λ i, (node i, local i)) (λ p, mkActorId p.1 p.2) _);
    intros [].
Defined.

Definition ActorId_display (a : ActorId) : string :=
  "Actor(" +:+ node_str (node a) +:+ "/" +:+ pretty (local a) +:+ ")".

(** ** How a message was sent *)
Inductive SendMode := Tell | Ask | Expand | Reduce | Transform.

#[export] Instance SendMode_eq_dec : EqDecision SendMode.
Proof. solve_decision. Defined.

(** ** Errors *)
Inductive ErrorCode :=
  | Internal | InvalidArgument | NotFound | Unavailable | TimeoutCode
  | PermissionDenied | FailedPrecondition | ResourceExhausted | Unimplemented
  | Unknown | CancelledCode.

#[export] Instance ErrorCode_eq_dec : EqDecision ErrorCode.
Proof. solve_decision. Defined.

(** The derived [Debug] of [ErrorCode]. *)
Definition ErrorCode_debug (c : ErrorCode) : string :=
  match c with
  | Internal => "Internal" | InvalidArgument => "InvalidArgument"
  | NotFound => "NotFound" | Unavailable => "Unavailable"
  | TimeoutCode => "Timeout" | PermissionDenied => "PermissionDenied"
  | FailedPrecondition => "FailedPrecondition"
  | ResourceExhausted => "ResourceExhausted"
  | Unimplemented => "Unimplemented" | Unknown => "Unknown"
  | CancelledCode => "Cancelled"
  end.

Inductive ActorError := mkActorError {
  code : ErrorCode;
  message : string;
  details : option string;
  cause : option ActorError
}.

Definition ActorError_new (c : ErrorCode) (msg : string) : ActorError :=
  mkActorError c msg None None.
Definition ActorError_internal (msg : string) : ActorError :=
  ActorError_new Internal msg.
Definition with_details (d : string) (e : ActorError) : ActorError :=
  mkActorError (code e) (message e) (Some d) (cause e).
Definition with_cause (c : ActorError) (e : ActorError) : ActorError :=
  mkActorError (code e) (message e) (details e) (Some c).

Fixpoint ActorError_display (e : ActorError) : string :=
  match e with
  | mkActorError c msg d k =>
      "[" +:+ ErrorCode_debug c +:+ "] " +:+ msg
        +:+ match d with Some d => " (" +:+ d +:+ ")" | None => "" end
        +:+ match k with
            | Some k => " caused by: " +:+ ActorError_display k
            | None => ""
            end
  end.

Record ActorSendError := mkActorSendError { send_error_msg : string }.

#[export] Instance ActorSendError_eq_dec : EqDecision ActorSendError.
Proof. solve_decision. Defined.

Definition ActorSendError_display (e : ActorSendError) : string :=
  "actor send failed: " +:+ send_error_msg e.

Record GroupError := mkGroupError { group_message : string }.
Definition GroupError_display (e : GroupError) : string := "group error: " +:+ group_message e.

Inductive ErrorAction := ResumeAction | RestartAction | StopAction | EscalateAction.

Record NotSupportedError := mkNotSupportedError { capability : string; ns_message : string }.

(** The em dash of the message is the UTF-8 sequence [E2 80 94] of the source. *)
Definition NotSupportedError_display (e : NotSupportedError) : string :=
  "not supported: " +:+ capability e +:+ " — " +:+ ns_message e.

Inductive RuntimeError :=
  | RSend (e : ActorSendError)
  | ActorNotFoundError (id : string)
  | RTimeout
  | RRejected (interceptor reason : string)
  | RRetryAfter (interceptor : string) (retry_after : N)
  | RActor (e : ActorError)
  | RCancelled
  | RNotSupported (e : NotSupportedError)
  | RSpawnFailed (msg : string).
(** [duration_debug] is the [{:?}] of a [Duration]. *)
Definition RuntimeError_display (duration_debug : N → string) (e : RuntimeError) : string :=
  match e with
  | RSend e => "send error: " +:+ ActorSendError_display e
  | ActorNotFoundError id => "actor not found: " +:+ id
  | RTimeout => "operation timed out"
  | RRejected interceptor reason => "rejected by '" +:+ interceptor +:+ "': " +:+ reason
  | RRetryAfter interceptor retry_after =>
      "retry after " +:+ duration_debug retry_after +:+ " (suggested by '" +:+ interceptor +:+ "')"
  | RActor e => "actor error: " +:+ ActorError_display e
  | RCancelled => "operation cancelled"
  | RNotSupported e => NotSupportedError_display e
  | RSpawnFailed msg => "spawn failed: " +:+ msg
  end.
