(* ===== verification/Version.v ===== *)
(** * Wire protocol version (dactor/src/version.rs)

    [WireVersion::from_str], [Display], [Ord] and the compatibility policy.
    The parser accepts exactly the strings [Display] prints. *)
From Stdlib Require Import Ascii.
From S2P Require Import Prelude.

#[local] Open Scope string_scope.

(** The double quote character. *)
Definition quote : string := String (Ascii.ascii_of_nat 34) EmptyString.

(** ** Data *)
Record WireVersion := mkWireVersion { major : N; minor : N; patch : N }.

#[export] Instance WireVersion_eq_dec : EqDecision WireVersion.
Proof. solve_decision. Defined.

(** The fields are [u32]. *)
Definition WireVersion_wf (v : WireVersion) : Prop :=
  (major v <= u32_max ∧ minor v <= u32_max ∧ patch v <= u32_max)%N.

Record ParseWireVersionError := mkParseError { input : string; reason : string }.

#[export] Instance ParseWireVersionError_eq_dec : EqDecision ParseWireVersionError.
Proof. solve_decision. Defined.

Definition ParseWireVersionError_display (e : ParseWireVersionError) : string :=
  "invalid wire version " +:+ quote +:+ input e +:+ quote +:+ ": " +:+ reason e.

(** ** Parsing *)
Definition digit_of (c : Ascii.ascii) : option N :=
  let n := Ascii.N_of_ascii c in
  if (48 <=? n)%N && (n <=? 57)%N then Some (n - 48)%N else None.

(** [checked_mul(10)] then [checked_add(digit)] on [u32], digit by digit. *)
Fixpoint parse_digits (acc : N) (s : string) : option N :=
  match s with
  | EmptyString => Some acc
  | String c s' =>
      d ← digit_of c;
      guard (acc * 10 <= u32_max)%N;;
      guard (acc * 10 + d <= u32_max)%N;;
      parse_digits (acc * 10 + d) s'
  end.

(** [str::parse::<u32>()]: an optional ["+"], then at least one digit. *)
Definition parse_u32 (s : string) : option N :=
  match s with
  | EmptyString => None
  | String "+"%char EmptyString => None
  | String "+"%char s' => parse_digits 0 s'
  | _ => parse_digits 0 s
  end.

Definition parse_segment (s seg : string) : result ParseWireVersionError N :=
  if str_is_empty seg then Err (mkParseError s "empty version segment")
  else if (1 <? String.length seg)%nat && starts_with "0" seg then
    Err (mkParseError s "leading zeros are not allowed")
  else if starts_with "+" seg then
    Err (mkParseError s "leading '+' sign is not allowed")
  else
    ok_or (parse_u32 seg)
      (mkParseError s "version segment is not a valid u32 integer").

Definition from_str (s : string) : result ParseWireVersionError WireVersion :=
  match split_on "." s with
  | [p0; p1; p2] =>
      ma ← parse_segment s p0;
      mi ← parse_segment s p1;
      pa ← parse_segment s p2;
      Ok (mkWireVersion ma mi pa)
  | _ =>
      Err (mkParseError s "expected exactly 3 dot-separated segments (MAJOR.MINOR.PATCH)")
  end.

Definition WireVersion_display (v : WireVersion) : string :=
  pretty (major v) +:+ "." +:+ pretty (minor v) +:+ "." +:+ pretty (patch v).

Definition is_compatible (self other : WireVersion) : bool :=
  (major self =? major other)%N.

(** [Ordering::then]. *)
Definition then_cmp (a b : comparison) : comparison :=
  match a with Eq => b | _ => a end.
Definition WireVersion_cmp (a b : WireVersion) : comparison :=
  then_cmp (then_cmp (major a ?= major b)%N (minor a ?= minor b)%N)
    (patch a ?= patch b)%N.

Definition DACTOR_WIRE_VERSION : string := "0.2.0".

(** ** Decimal rendering and its inverse *)
Lemma digit_of_char (d : N) : (d < 10)%N → digit_of (pretty_N_char d) = Some d.
Proof.
  intros. assert (d = 0 ∨ d = 1 ∨ d = 2 ∨ d = 3 ∨ d = 4 ∨ d = 5 ∨ d = 6 ∨ d = 7
    ∨ d = 8 ∨ d = 9)%N as Hd by lia.
  by repeat destruct Hd as [->|Hd]; [..|subst].
Qed.

Lemma char_of_digit c d : digit_of c = Some d → pretty_N_char d = c ∧ (d < 10)%N.
Proof.
  unfold digit_of. intros H.
  destruct c as [[] [] [] [] [] [] [] []]; vm_compute in H; try done;
    by injection H as <-.
Qed.

Lemma pretty_N_go_app x s : pretty_N_go x s = pretty_N_go x "" +:+ s.
Proof.
  revert s. induction (N.lt_wf_0 x) as [x _ IH]; intros s.
  destruct (decide (x = 0)%N) as [->|Hx]; [done|].
  rewrite !(pretty_N_go_step x) by lia.
  assert (x `div` 10 < x)%N by (apply N.div_lt; lia).
  rewrite IH by done. rewrite (IH _ ltac:(done) (String _ "")).
  by rewrite str_app_assoc.
Qed.

(** Reading the digits of [x] from zero leaves [x] as the accumulator. *)
Lemma parse_digits_pretty_go x s :
  (x <= u32_max)%N → parse_digits 0 (pretty_N_go x s) = parse_digits x s.
Proof.
  revert s. induction (N.lt_wf_0 x) as [x _ IH]; intros s Hmax.
  destruct (decide (x = 0)%N) as [->|Hx]; [done|].
  rewrite pretty_N_go_step by lia.
  pose proof (N.div_mod x 10 ltac:(done)) as Hdm.
  assert (x `mod` 10 < 10)%N by (by apply N.mod_lt).
  assert (x `div` 10 < x)%N by (apply N.div_lt; lia).
  rewrite IH by lia. cbn [parse_digits].
  rewrite digit_of_char by done. cbn [mbind option_bind].
  generalize dependent (x `div` 10)%N. generalize dependent (x `mod` 10)%N.
  intros r Hr q Hdm _. subst x. rewrite !option_guard_True by lia.
  cbn. by rewrite (N.mul_comm q).
Qed.

Lemma parse_digits_sound acc s n t :
  (0 < acc)%N → parse_digits acc s = Some n →
  pretty_N_go n t = pretty_N_go acc (s +:+ t).
Proof.
  revert acc. induction s as [|c s IH]; intros acc Hacc; simpl.
  { by intros [= ->]. }
  destruct (digit_of c) as [d|] eqn:Hd; [|done]. cbn [mbind option_bind].
  intros H. apply bind_Some in H as (? & _ & H). apply bind_Some in H as (? & _ & H).
  apply char_of_digit in Hd as [<- Hd].
  rewrite (IH (acc * 10 + d)%N) by (done || lia).
  rewrite pretty_N_go_step, str_app_cons by lia.
  by rewrite N.add_comm, N.div_add, N.Div0.mod_add, N.div_small, N.mod_small by lia.
Qed.

(** The first character of the rendering of a positive number. *)
Lemma pretty_N_go_digit d s : (0 < d < 10)%N → pretty_N_go d s = String (pretty_N_char d) s.
Proof.
  intros. rewrite pretty_N_go_step, N.div_small, N.mod_small by lia. done.
Qed.

Lemma pretty_N_go_pos n : (0 < n)%N → pretty n = pretty_N_go n "".
Proof. intros. unfold pretty, pretty_N. by rewrite decide_False by lia. Qed.

Lemma pretty_N_go_first n s :
  (0 < n)%N → ∃ d t, (0 < d < 10)%N ∧ pretty_N_go n s = String (pretty_N_char d) t.
Proof.
  revert s. induction (N.lt_wf_0 n) as [n _ IH]; intros s Hn.
  destruct (decide (n < 10)%N) as [?|Hge].
  { exists n, s. split; [lia|]. by apply pretty_N_go_digit. }
  rewrite pretty_N_go_step by done. apply IH; [apply N.div_lt; lia|].
  apply N.div_str_pos; lia.
Qed.

Lemma pretty_first (n : N) :
  ∃ d t, (d < 10)%N ∧ pretty n = String (pretty_N_char d) t ∧ (d = 0 → t = "")%N.
Proof.
  destruct (decide (n = 0)%N) as [->|Hn]; [by exists 0%N, ""|].
  rewrite pretty_N_go_pos by lia.
  destruct (pretty_N_go_first n "") as (d & t & Hd & ->); [lia|].
  exists d, t. repeat split; [lia|]. intros ->. lia.
Qed.

Lemma pretty_char_props d :
  (d < 10)%N → pretty_N_char d ≠ "+"%char ∧ pretty_N_char d ≠ "."%char
    ∧ (pretty_N_char d = "0"%char → d = 0%N).
Proof.
  intros. assert (d = 0 ∨ d = 1 ∨ d = 2 ∨ d = 3 ∨ d = 4 ∨ d = 5 ∨ d = 6 ∨ d = 7
    ∨ d = 8 ∨ d = 9)%N as Hd by lia.
  by repeat destruct Hd as [->|Hd]; [..|subst].
Qed.

Lemma has_dot_pretty_go n s :
  has_char "." s = false → has_char "." (pretty_N_go n s) = false.
Proof.
  revert s. induction (N.lt_wf_0 n) as [n _ IH]; intros s Hs.
  destruct (decide (n = 0)%N) as [->|Hn]; [done|].
  rewrite pretty_N_go_step by lia. apply IH; [apply N.div_lt; lia|]. simpl.
  rewrite Hs, orb_false_r. apply bool_decide_eq_false.
  by apply pretty_char_props, N.mod_lt.
Qed.
Lemma has_dot_pretty (n : N) : has_char "." (pretty n) = false.
Proof.
  destruct (decide (n = 0)%N) as [->|Hn]; [done|].
  rewrite pretty_N_go_pos by lia. by apply has_dot_pretty_go.
Qed.

(** ** Segments *)
Lemma parse_u32_pretty n : (n <= u32_max)%N → parse_u32 (pretty n) = Some n.
Proof.
  intros Hn. destruct (pretty_first n) as (d & t & Hd & Hp & _).
  assert (parse_u32 (pretty n) = parse_digits 0 (pretty n)) as ->.
  { rewrite Hp. destruct (pretty_char_props d Hd) as (Hplus & _ & _).
    unfold parse_u32. destruct (pretty_N_char d) as [[] [] [] [] [] [] [] []];
      try done; by destruct Hplus. }
  destruct (decide (n = 0)%N) as [->|?]; [done|].
  rewrite pretty_N_go_pos by lia. by rewrite parse_digits_pretty_go.
Qed.

Lemma parse_segment_pretty s n :
  (n <= u32_max)%N → parse_segment s (pretty n) = Ok n.
Proof.
  intros Hn. unfold parse_segment. rewrite parse_u32_pretty by done.
  destruct (pretty_first n) as (d & t & Hd & -> & Hz).
  destruct (pretty_char_props d Hd) as (Hplus & _ & Hzero). simpl.
  destruct (decide (d = 0)%N) as [->|Hd0].
  { by rewrite Hz. }
  rewrite (bool_decide_eq_false_2 ("0"%char = _)), andb_false_l, andb_false_r
    by (intros E; apply Hd0, Hzero; congruence).
  by rewrite bool_decide_eq_false_2 by congruence.
Qed.

Lemma parse_segment_sound s seg n : parse_segment s seg = Ok n → pretty n = seg.
Proof.
  unfold parse_segment. destruct seg as [|c seg]; [done|]. cbn [str_is_empty].
  destruct (_ && _) eqn:Hlead; [done|].
  destruct (starts_with "+" _) eqn:Hplus; [done|].
  destruct (parse_u32 (String c seg)) as [m|] eqn:Hp; [|done]. intros [= ->].
  simpl in Hlead, Hplus.
  assert (parse_digits 0 (String c seg) = Some n) as H.
  { rewrite <-Hp. unfold parse_u32. rewrite andb_true_r in Hplus.
    apply bool_decide_eq_false in Hplus.
    destruct c as [[] [] [] [] [] [] [] []]; try done; by destruct Hplus. }
  simpl in H. apply bind_Some in H as (d & Hc & H).
  apply bind_Some in H as (? & _ & H).
  change (0 * 10 + d)%N with d in H. apply char_of_digit in Hc as [<- Hd].
  destruct (decide (d = 0)%N) as [->|Hd0].
  - destruct seg as [|c2 seg]; [|done]. simpl in H. by injection H as <-.
  - pose proof (parse_digits_sound d seg n "" ltac:(lia) H) as Hn.
    rewrite str_app_nil_r, (pretty_N_go_digit d) in Hn by lia.
    rewrite <-Hn. apply pretty_N_go_pos.
    destruct (decide (n = 0)%N) as [->|?]; [|lia].
    by rewrite pretty_N_go_0 in Hn.
Qed.

Lemma parse_segment_bound s seg n : parse_segment s seg = Ok n → (n <= u32_max)%N.
Proof.
  assert (∀ acc t m, (acc <= u32_max)%N → parse_digits acc t = Some m → (m <= u32_max)%N)
    as Hpd.
  { intros acc t; revert acc; induction t as [|c t IH]; intros acc m; simpl; [naive_solver|].
    intros _ H. apply bind_Some in H as (? & _ & H).
    apply bind_Some in H as (? & _ & H). apply bind_Some in H as (? & _ & H).
    by eapply IH. }
  unfold parse_segment. repeat (case_match; [done|]).
  destruct (parse_u32 seg) as [m|] eqn:E; simpl; [|done]. intros [= ->].
  unfold parse_u32 in E. repeat (case_match; try done); by eapply Hpd; [|exact E].
Qed.

Lemma from_str_display v : WireVersion_wf v → from_str (WireVersion_display v) = Ok v.
Proof.
  destruct v as [ma mi pa]. intros (Hma & Hmi & Hpa). cbn [major minor patch] in *.
  unfold from_str, WireVersion_display. cbn [major minor patch].
  rewrite !str_app_cons, !str_app_nil, !split_on_app, split_on_no_char by apply has_dot_pretty.
  by rewrite !parse_segment_pretty.
Qed.
Lemma from_str_sound s v : from_str s = Ok v → WireVersion_display v = s ∧ WireVersion_wf v.
Proof.
  unfold from_str. pose proof (join_split "." s) as Hj.
  destruct (split_on "." s) as [|p0 [|p1 [|p2 [|]]]]; try done. intros H.
  apply result_bind_Ok_inv in H as (ma & H0 & H).
  apply result_bind_Ok_inv in H as (mi & H1 & H).
  apply result_bind_Ok_inv in H as (pa & H2 & H). injection H as <-.
  split; [|by repeat split; eapply parse_segment_bound].
  unfold WireVersion_display. simpl.
  by rewrite (parse_segment_sound _ _ _ H0), (parse_segment_sound _ _ _ H1),
    (parse_segment_sound _ _ _ H2).
Qed.
Lemma WireVersion_display_not_empty v : WireVersion_display v ≠ "".
Proof.
  unfold WireVersion_display. destruct (pretty (major v)); by rewrite ?str_app_cons, ?str_app_nil.
Qed.

(** ** Properties *)
Module Spec.

(** Parsing what [Display] prints gives the version back, for all [u32]
    components. *)
Theorem parse_display v :
  WireVersion_wf v → from_str (WireVersion_display v) = Ok v.
Proof. apply from_str_display. Qed.

Lemma parse_display_witness :
  from_str (WireVersion_display (mkWireVersion 0 42 u32_max)) = Ok (mkWireVersion 0 42 u32_max).
Proof. apply parse_display. vm_compute. repeat split; discriminate. Defined.

(** The parser accepts only the canonical rendering: an accepted string is
    what [Display] prints for the result, whose components fit [u32]. *)
Theorem parse_canonical s v :
  from_str s = Ok v → WireVersion_display v = s ∧ WireVersion_wf v.
Proof. apply from_str_sound. Qed.

Lemma parse_canonical_witness :
  WireVersion_display (mkWireVersion 0 2 0) = DACTOR_WIRE_VERSION
    ∧ WireVersion_wf (mkWireVersion 0 2 0).
Proof. apply (parse_canonical DACTOR_WIRE_VERSION). reflexivity. Defined.

End Spec.
