(* ===== verification/Message.v ===== *)
(** * Headers and wire envelopes

    [Headers] and [Priority] (dactor/src/message.rs); [WireHeaders],
    [HeaderRegistry], [WireEnvelope] and [SerializationError]
    (dactor/src/remote.rs). Typed headers cross the wire as named byte strings;
    the round trip is stated for a registry that inverts [to_bytes]. *)
From S2P Require Import Prelude Node.
From Stdlib Require Import Strings.Byte.

#[local] Open Scope string_scope.

Abbreviation bytes := (list Byte.byte).

#[export] Instance byte_eq_decision : EqDecision Byte.byte := Byte.byte_eq_dec.

(** ** Typed headers
    [TypeId::of::<H>()] is the name of [H]; a [Box<dyn HeaderValue>] is its
    dynamic type with the answers of its methods. *)
Record HeaderValue := mkHeaderValue {
  hv_type : string;
  header_name : string;
  to_bytes : option bytes
}.

#[export] Instance HeaderValue_eq_dec : EqDecision HeaderValue.
Proof. solve_decision. Defined.

Record Headers := mkHeaders { hmap : gmap string HeaderValue }.

Definition Headers_new : Headers := mkHeaders ∅.
Definition Headers_insert (value : HeaderValue) (h : Headers) : Headers :=
  mkHeaders (<[hv_type value := value]> (hmap h)).
(** [get] and then [downcast_ref::<H>()]. *)
Definition Headers_get (H : string) (h : Headers) : option HeaderValue :=
  v ← hmap h !! H; if decide (hv_type v = H) then Some v else None.
Definition Headers_remove (H : string) (h : Headers) : option HeaderValue * Headers :=
  (hmap h !! H, mkHeaders (delete H (hmap h))).
Definition insert_boxed (value : HeaderValue) (h : Headers) : Headers :=
  let type_id := hv_type value in mkHeaders (<[type_id := value]> (hmap h)).
Definition Headers_is_empty (h : Headers) : bool := bool_decide (hmap h = ∅).
Definition Headers_len (h : Headers) : nat := size (hmap h).

(** Each entry sits under the type of its value. *)
Definition Headers_wf (h : Headers) : Prop :=
  map_Forall (λ t v, hv_type v = t) (hmap h).

(** ** Wire headers *)
Record WireHeaders := mkWireHeaders { entries : gmap string bytes }.

#[export] Instance WireHeaders_eq_dec : EqDecision WireHeaders.
Proof. solve_decision. Defined.

Definition WireHeaders_new : WireHeaders := mkWireHeaders ∅.
Definition WireHeaders_insert (name : string) (value : bytes) (w : WireHeaders) : WireHeaders :=
  mkWireHeaders (<[name := value]> (entries w)).
Definition WireHeaders_get (name : string) (w : WireHeaders) : option bytes :=
  entries w !! name.
Definition WireHeaders_is_empty (w : WireHeaders) : bool := bool_decide (entries w = ∅).
Definition WireHeaders_len (w : WireHeaders) : nat := size (entries w).

(** The values of a [HashMap] in the order of its iteration. *)
Definition map_values {V} (m : gmap string V) : list V := (map_to_list m).*2.

(** [for value in self.map.values() { if let Some(bytes) = value.to_bytes() { wire.insert(..) } }] *)
Definition to_wire (h : Headers) : WireHeaders :=
  foldl (λ wire value,
    match to_bytes value with
    | Some b => WireHeaders_insert (header_name value) b wire
    | None => wire
    end) WireHeaders_new (map_values (hmap h)).

(** ** Header registry *)
Record HeaderRegistry := mkHeaderRegistry {
  deserializers : gmap string (bytes → option HeaderValue)
}.
Definition HeaderRegistry_new : HeaderRegistry := mkHeaderRegistry ∅.
Definition HeaderRegistry_register (name : string) (d : bytes → option HeaderValue)
    (r : HeaderRegistry) : HeaderRegistry :=
  mkHeaderRegistry (<[name := d]> (deserializers r)).
Definition HeaderRegistry_deserialize (r : HeaderRegistry) (name : string) (b : bytes) :
    option HeaderValue :=
  deser ← deserializers r !! name; deser b.
Definition HeaderRegistry_len (r : HeaderRegistry) : nat := size (deserializers r).

(** [for (name, bytes) in &self.entries { if let Some(v) = .. { headers.insert_boxed(v) } }] *)
Definition to_headers (w : WireHeaders) (registry : HeaderRegistry) : Headers :=
  foldl (λ headers p,
    match HeaderRegistry_deserialize registry p.1 p.2 with
    | Some v => insert_boxed v headers
    | None => headers
    end) Headers_new (map_to_list (entries w)).

(** ** Runtime headers
    A [MessageId] is a UUID; the fresh one and the clock are arguments. *)
Record MessageId := mkMessageId { message_uuid : N }.
Record RuntimeHeaders := mkRuntimeHeaders { message_id : MessageId; timestamp : N }.
Definition RuntimeHeaders_new (uuid now : N) : RuntimeHeaders :=
  mkRuntimeHeaders (mkMessageId uuid) now.

(** ** Priority: a [u8], lower is more urgent *)
Record Priority := mkPriority { priority_value : Byte.byte }.
Definition CRITICAL : Priority := mkPriority x00.
Definition HIGH : Priority := mkPriority x40.
Definition NORMAL : Priority := mkPriority x80.
Definition LOW : Priority := mkPriority xc0.
Definition BACKGROUND : Priority := mkPriority xff.
Definition PRIORITY_HEADER_NAME : string := "dactor.Priority".
Definition Priority_header (p : Priority) : HeaderValue :=
  mkHeaderValue "dactor::message::Priority" PRIORITY_HEADER_NAME (Some [priority_value p]).

(** ** Errors and envelopes *)
Record SerializationError := mkSerializationError { ser_message : string }.

#[export] Instance SerializationError_eq_dec : EqDecision SerializationError.
Proof. solve_decision. Defined.

Definition SerializationError_display (e : SerializationError) : string :=
  "serialization error: " +:+ ser_message e.

(** A [Uuid] is a 128-bit value, used only for equality. *)
Abbreviation Uuid := N.

Record WireEnvelope := mkWireEnvelope {
  target : ActorId;
  target_name : string;
  message_type : string;
  send_mode : SendMode;
  headers : WireHeaders;
  body : bytes;
  request_id : option Uuid;
  version : option N
}.

#[export] Instance WireEnvelope_eq_dec : EqDecision WireEnvelope.
Proof. solve_decision. Defined.

(** ** Lemmas *)
Lemma Headers_insert_wf v h : Headers_wf h → Headers_wf (Headers_insert v h).
Proof. intros Hwf. by apply map_Forall_insert_2. Qed.
Lemma insert_boxed_wf v h : Headers_wf h → Headers_wf (insert_boxed v h).
Proof. apply Headers_insert_wf. Qed.
Lemma Headers_get_wf T h : Headers_wf h → Headers_get T h = hmap h !! T.
Proof.
  intros Hwf. unfold Headers_get. destruct (hmap h !! T) as [v|] eqn:E; [|done].
  simpl. by rewrite decide_True by (by eapply Hwf in E).
Qed.

Definition wire_entry (v : HeaderValue) : option (string * bytes) :=
  b ← to_bytes v; Some (header_name v, b).

Lemma to_wire_entries h :
  entries (to_wire h) = insert_some wire_entry (map_values (hmap h)) ∅.
Proof.
  unfold to_wire, insert_some. change ∅ with (entries WireHeaders_new).
  generalize WireHeaders_new as w.
  induction (map_values (hmap h)) as [|v l IH]; intros w; simpl; [done|].
  rewrite IH. f_equal. unfold wire_entry. by destruct (to_bytes v).
Qed.

Definition header_entry (r : HeaderRegistry) (p : string * bytes) : option (string * HeaderValue) :=
  v ← HeaderRegistry_deserialize r p.1 p.2; Some (hv_type v, v).

Lemma to_headers_hmap w r :
  hmap (to_headers w r) = insert_some (header_entry r) (map_to_list (entries w)) ∅.
Proof.
  unfold to_headers, insert_some. change ∅ with (hmap Headers_new).
  generalize Headers_new as h.
  induction (map_to_list (entries w)) as [|p l IH]; intros h; simpl; [done|].
  rewrite IH. f_equal. unfold header_entry.
  by destruct (HeaderRegistry_deserialize r p.1 p.2).
Qed.

Lemma elem_of_map_values {V} (m : gmap string V) v :
  v ∈ map_values m ↔ ∃ k, m !! k = Some v.
Proof.
  unfold map_values. rewrite list_elem_of_fmap. split.
  - intros ([k v'] & -> & Hin). exists k. by apply elem_of_map_to_list.
  - intros [k Hk]. exists (k, v). split; [done|]. by apply elem_of_map_to_list.
Qed.

Lemma elem_of_wire_entries h n b :
  (n, b) ∈ omap wire_entry (map_values (hmap h)) ↔
  ∃ t v, hmap h !! t = Some v ∧ header_name v = n ∧ to_bytes v = Some b.
Proof.
  rewrite list_elem_of_omap. setoid_rewrite elem_of_map_values. unfold wire_entry. split.
  - intros (v & [t Ht] & Hv). destruct (to_bytes v) as [b'|] eqn:Hb; [|done].
    injection Hv as <- <-. eauto.
  - intros (t & v & Ht & <- & Hb). exists v. split; [eauto|]. by rewrite Hb.
Qed.

(** ** Properties *)
Module Spec.

(** No two headers that go on the wire share a wire name. *)
Definition wire_names_unique (h : Headers) : Prop :=
  ∀ t1 t2 v1 v2, hmap h !! t1 = Some v1 → hmap h !! t2 = Some v2 →
    is_Some (to_bytes v1) → is_Some (to_bytes v2) →
    header_name v1 = header_name v2 → t1 = t2.

(** The registry reads back the bytes of each header of [h] that has some. *)
Definition registry_inverts (r : HeaderRegistry) (h : Headers) : Prop :=
  ∀ t v b, hmap h !! t = Some v → to_bytes v = Some b →
    HeaderRegistry_deserialize r (header_name v) b = Some v.

(** Sending headers over the wire and rebuilding them with a registry that
    inverts [to_bytes] keeps exactly the headers that are serialisable:
    local-only ones are lost, no other one is altered or added. *)
Theorem headers_wire_roundtrip h r t v :
  Headers_wf h → wire_names_unique h → registry_inverts r h →
  hmap (to_headers (to_wire h) r) !! t = Some v ↔
  hmap h !! t = Some v ∧ is_Some (to_bytes v).
Proof.
  intros Hwf Hu Hinv. rewrite to_headers_hmap, insert_some_omap.
  assert (∀ n b, entries (to_wire h) !! n = Some b ↔
    ∃ t v, hmap h !! t = Some v ∧ header_name v = n ∧ to_bytes v = Some b) as Hw.
  { intros n b. rewrite to_wire_entries, insert_some_omap.
    rewrite insert_all_lookup_Some.
    { rewrite elem_of_wire_entries, lookup_empty. naive_solver. }
    intros n' b1 b2 (t1 & v1 & H1 & <- & Hb1)%elem_of_wire_entries
      (t2 & v2 & H2 & Hn & Hb2)%elem_of_wire_entries.
    assert (t1 = t2) as -> by (by eapply Hu). congruence. }
  assert (∀ t v, (t, v) ∈ omap (header_entry r) (map_to_list (entries (to_wire h))) ↔
    hmap h !! t = Some v ∧ is_Some (to_bytes v)) as Hl.
  { intros t' v'. rewrite list_elem_of_omap. unfold header_entry. split.
    - intros ([n b] & Hin & Hd). apply elem_of_map_to_list, Hw in Hin as (t0 & v0 & H0 & <- & Hb).
      simpl in Hd. rewrite (Hinv _ _ _ H0 Hb) in Hd. injection Hd as <- <-.
      pose proof (Hwf _ _ H0) as E. simpl in E. rewrite E. eauto.
    - intros [Ht [b Hb]]. exists (header_name v', b). split.
      + apply elem_of_map_to_list, Hw. eauto.
      + simpl. rewrite (Hinv _ _ _ Ht Hb). simpl. by rewrite (Hwf _ _ Ht). }
  rewrite insert_all_lookup_Some, Hl, lookup_empty; [naive_solver|].
  intros t' v1 v2 [H1 _]%Hl [H2 _]%Hl. congruence.
Qed.

(** A registry and headers with one local-only and two serialisable entries. *)
Definition demo_headers : Headers :=
  Headers_insert (Priority_header HIGH)
    (Headers_insert (mkHeaderValue "Trace" "x-trace" (Some [x01; x02]))
      (Headers_insert (mkHeaderValue "Local" "local" None) Headers_new)).
Definition demo_registry : HeaderRegistry :=
  HeaderRegistry_register PRIORITY_HEADER_NAME
    (λ b, match b with [p] => Some (Priority_header (mkPriority p)) | _ => None end)
    (HeaderRegistry_register "x-trace"
      (λ b, Some (mkHeaderValue "Trace" "x-trace" (Some b))) HeaderRegistry_new).

Lemma headers_wire_roundtrip_witness :
  hmap (to_headers (to_wire demo_headers) demo_registry) !! "Trace"
    = Some (mkHeaderValue "Trace" "x-trace" (Some [x01; x02])).
Proof.
  assert (∀ t v, hmap demo_headers !! t = Some v →
    (t = "dactor::message::Priority" ∧ v = Priority_header HIGH)
    ∨ (t = "Trace" ∧ v = mkHeaderValue "Trace" "x-trace" (Some [x01; x02]))
    ∨ (t = "Local" ∧ v = mkHeaderValue "Local" "local" None)) as Hc.
  { intros t v. unfold demo_headers. simpl.
    rewrite !lookup_insert. repeat case_decide; try set_solver. }
  apply headers_wire_roundtrip.
  - repeat apply Headers_insert_wf. apply map_Forall_empty.
  - intros t1 t2 v1 v2 H1%Hc H2%Hc Hs1 Hs2. 
    destruct H1 as [[-> ->]|[[-> ->]|[-> ->]]], H2 as [[-> ->]|[[-> ->]|[-> ->]]];
      simpl in *; try done; by destruct Hs1, Hs2.
  - intros t v b Ht%Hc Hb. destruct Ht as [[-> ->]|[[-> ->]|[-> ->]]];
      simpl in *; simplify_eq; reflexivity.
  - split; [reflexivity | by eexists].
Defined.

End Spec.
