(* ===== verification/OutboundQueue.v ===== *)
(** * Outbound priority queue (dactor/src/outbound_queue.rs)

    The per-destination queue of wire envelopes: five priority lanes or a
    pluggable comparer, with a FIFO of its own for stream and feed items. Every
    operation takes the queue and returns the new one; [now] is the value of
    [Instant::now()]. Envelope counts ([usize]) are [nat]. *)
From S2P Require Import Prelude Node Message.
From Stdlib Require Import Strings.Byte.

(** ** Data *)
Definition LANE_COUNT : nat := 5.

Record EnvelopeMetadata := mkMetadata { priority : N; enqueued_at : N }.

(** [WireEnvelopeComparer::compare]. *)
Definition WireEnvelopeComparer := EnvelopeMetadata → EnvelopeMetadata → N → comparison.

Definition StrictPriorityWireComparer : WireEnvelopeComparer :=
  λ a b _now, (priority a ?= priority b)%N.

Definition AgingWireComparer (max_age : N) : WireEnvelopeComparer := λ a b now,
  let a_aged := (max_age <=? duration_since now (enqueued_at a))%N in
  let b_aged := (max_age <=? duration_since now (enqueued_at b))%N in
  match a_aged, b_aged with
  | true, false => Lt
  | false, true => Gt
  | true, true => (enqueued_at a ?= enqueued_at b)%N
  | false, false => (priority a ?= priority b)%N
  end.

Definition extract_priority (envelope : WireEnvelope) : N :=
  match WireHeaders_get PRIORITY_HEADER_NAME (headers envelope) with
  | Some (b :: _) => Byte.to_N b
  | _ => Byte.to_N (priority_value NORMAL)
  end.

Definition lane_index_from_priority (p : N) : nat :=
  if (p <=? 63)%N then 0
  else if (p <=? 127)%N then 1
  else if (p <=? 191)%N then 2
  else if (p <=? 254)%N then 3
  else 4.

Record QueuedEnvelope := mkQueued { envelope : WireEnvelope; metadata : EnvelopeMetadata }.

Record OutboundPriorityQueue := mkQueue {
  lanes : list (list WireEnvelope);
  max_consecutive : nat;
  consecutive_from_lane : nat;
  current_lane : nat;
  comparer : option WireEnvelopeComparer;
  sorted : list QueuedEnvelope;
  stream_fifo : list WireEnvelope;
  total : nat;
  capacity : nat
}.

(** ** Constructors *)
Definition new : OutboundPriorityQueue :=
  mkQueue (replicate LANE_COUNT []) 0 0 0 None [] [] 0 0.
Definition with_config (cap maxc : nat) : OutboundPriorityQueue :=
  mkQueue (replicate LANE_COUNT []) maxc 0 0 None [] [] 0 cap.
Definition with_comparer (c : WireEnvelopeComparer) (cap : nat) : OutboundPriorityQueue :=
  mkQueue (replicate LANE_COUNT []) 0 0 0 (Some c) [] [] 0 cap.

(** ** Field updates *)
Definition set_lanes l q := mkQueue l (max_consecutive q) (consecutive_from_lane q)
  (current_lane q) (comparer q) (sorted q) (stream_fifo q) (total q) (capacity q).
Definition set_consecutive n q := mkQueue (lanes q) (max_consecutive q) n
  (current_lane q) (comparer q) (sorted q) (stream_fifo q) (total q) (capacity q).
Definition set_current n q := mkQueue (lanes q) (max_consecutive q)
  (consecutive_from_lane q) n (comparer q) (sorted q) (stream_fifo q) (total q) (capacity q).
Definition set_sorted s q := mkQueue (lanes q) (max_consecutive q)
  (consecutive_from_lane q) (current_lane q) (comparer q) s (stream_fifo q) (total q)
  (capacity q).
Definition set_stream s q := mkQueue (lanes q) (max_consecutive q)
  (consecutive_from_lane q) (current_lane q) (comparer q) (sorted q) s (total q)
  (capacity q).
Definition set_total n q := mkQueue (lanes q) (max_consecutive q)
  (consecutive_from_lane q) (current_lane q) (comparer q) (sorted q) (stream_fifo q) n
  (capacity q).

Definition is_comparer_mode (q : OutboundPriorityQueue) : bool :=
  match comparer q with Some _ => true | None => false end.
Definition is_nil {A} (l : list A) : bool := match l with [] => true | _ => false end.
Definition lane (q : OutboundPriorityQueue) (i : nat) : list WireEnvelope :=
  default [] (lanes q !! i).

(** [matches!(send_mode, SendMode::Expand | SendMode::Reduce)]. *)
Definition is_stream (e : WireEnvelope) : bool :=
  match send_mode e with Expand | Reduce => true | _ => false end.

(** ** Enqueue: [Err] hands the envelope back and leaves the queue as it was *)
Definition push (now : N) (e : WireEnvelope) (q : OutboundPriorityQueue) :
    result WireEnvelope OutboundPriorityQueue :=
  if (0 <? capacity q)%nat && (capacity q <=? total q)%nat then Err e
  else
    let q' :=
      if is_stream e then set_stream (stream_fifo q ++ [e]) q
      else if is_comparer_mode q then
        set_sorted (sorted q ++ [mkQueued e (mkMetadata (extract_priority e) now)]) q
      else
        let i := lane_index_from_priority (extract_priority e) in
        set_lanes (<[i := lane q i ++ [e]]> (lanes q)) q in
    Ok (set_total (total q' + 1) q').

(** ** Dequeue *)
Definition pop_stream (q : OutboundPriorityQueue) :
    option WireEnvelope * OutboundPriorityQueue :=
  match stream_fifo q with
  | [] => (None, q)
  | e :: rest => (Some e, set_total (total q - 1) (set_stream rest q))
  end.

(** The scan [for i in 1..len { if compare(s[i], s[best]) == Less { best = i } }]. *)
Fixpoint scan_best (less : QueuedEnvelope → QueuedEnvelope → bool)
    (i best : nat) (b : QueuedEnvelope) (rest : list QueuedEnvelope) : nat * QueuedEnvelope :=
  match rest with
  | [] => (best, b)
  | x :: rest' => if less x b then scan_best less (S i) i x rest' else scan_best less (S i) best b rest'
  end.

Definition less_by (c : WireEnvelopeComparer) (now : N) (x b : QueuedEnvelope) : bool :=
  match c (metadata x) (metadata b) now with Lt => true | _ => false end.

Definition pop_comparer (now : N) (q : OutboundPriorityQueue) :
    option WireEnvelope * OutboundPriorityQueue :=
  match comparer q, sorted q with
  | None, _ => (None, q)
  | _, [] => (None, q)
  | Some c, s0 :: rest =>
      let '(best, entry) := scan_best (less_by c now) 1 0 s0 rest in
      (Some (envelope entry), set_total (total q - 1) (set_sorted (delete best (sorted q)) q))
  end.

(** The first non-empty lane gives up its front. *)
Fixpoint pop_first (ls : list (list WireEnvelope)) : option (WireEnvelope * list (list WireEnvelope)) :=
  match ls with
  | [] => None
  | (e :: l) :: ls' => Some (e, l :: ls')
  | [] :: ls' => '(e, ls'') ← pop_first ls'; Some (e, [] :: ls'')
  end.

Definition pop_strict (q : OutboundPriorityQueue) : option WireEnvelope * OutboundPriorityQueue :=
  match pop_first (lanes q) with
  | Some (e, ls) => (Some e, set_total (total q - 1) (set_lanes ls q))
  | None => (None, q)
  end.

(** [for i in 0..LANE_COUNT { let idx = (start + i) % LANE_COUNT; .. }]. *)
Definition next_non_empty_lane (q : OutboundPriorityQueue) (start : nat) : option nat :=
  head (filter (λ idx, lane q idx ≠ [])
    ((λ i, (start + i) mod LANE_COUNT) <$> seq 0 LANE_COUNT)).

(** The part of [pop_fair] after the lane is chosen. *)
Definition pop_current (q : OutboundPriorityQueue) : option WireEnvelope * OutboundPriorityQueue :=
  match lane q (current_lane q) with
  | [] => (None, q)
  | e :: l =>
      (Some e,
       set_consecutive (consecutive_from_lane q + 1)
         (set_total (total q - 1) (set_lanes (<[current_lane q := l]> (lanes q)) q)))
  end.

Definition pop_fair (q : OutboundPriorityQueue) : option WireEnvelope * OutboundPriorityQueue :=
  if (max_consecutive q <=? consecutive_from_lane q)%nat then
    let q := set_consecutive 0 q in
    match next_non_empty_lane q (current_lane q + 1) with
    | None => (None, q)
    | Some l => pop_current (set_current l q)
    end
  else if is_nil (lane q (current_lane q)) then
    let q := set_consecutive 0 q in
    match next_non_empty_lane q 0 with
    | None => (None, q)
    | Some l => pop_current (set_current l q)
    end
  else pop_current q.

Definition pop_priority (now : N) (q : OutboundPriorityQueue) :
    option WireEnvelope * OutboundPriorityQueue :=
  match comparer q with
  | Some _ => pop_comparer now q
  | None => if (max_consecutive q =? 0)%nat then pop_strict q else pop_fair q
  end.

(** [a.or_else(|| b)] on operations that change the queue. *)
Definition or_else (r : option WireEnvelope * OutboundPriorityQueue)
    (k : OutboundPriorityQueue → option WireEnvelope * OutboundPriorityQueue) :=
  match r with (Some e, q) => (Some e, q) | (None, q) => k q end.

Definition pop (now : N) (q : OutboundPriorityQueue) :
    option WireEnvelope * OutboundPriorityQueue :=
  if (total q =? 0)%nat then (None, q)
  else
    let has_stream := negb (is_nil (stream_fifo q)) in
    let has_priority :=
      if is_comparer_mode q then negb (is_nil (sorted q))
      else existsb (λ l, negb (is_nil l)) (lanes q) in
    if has_stream && negb has_priority then pop_stream q
    else if negb has_stream && has_priority then pop_priority now q
    else if (total q mod 2 =? 0)%nat then or_else (pop_stream q) (pop_priority now)
    else or_else (pop_priority now q) pop_stream.

(** ** Peek, drain, clear and the counters *)
Definition peek (q : OutboundPriorityQueue) : option WireEnvelope :=
  match stream_fifo q with
  | e :: _ => Some e
  | [] =>
      if is_comparer_mode q then
        match sorted q with
        | [] => None
        | s0 :: rest =>
            Some (envelope (scan_best (λ x b, priority (metadata x) <? priority (metadata b))%N
              1 0 s0 rest).2)
        end
      else fst <$> pop_first (lanes q)
  end.

(** [slice::sort_by], which is stable. *)
Definition drain_cmp (a b : QueuedEnvelope) : comparison :=
  match (priority (metadata a) ?= priority (metadata b))%N with
  | Eq => (enqueued_at (metadata a) ?= enqueued_at (metadata b))%N
  | other => other
  end.
Fixpoint sort_insert (x : QueuedEnvelope) (l : list QueuedEnvelope) : list QueuedEnvelope :=
  match l with
  | [] => [x]
  | y :: l' => match drain_cmp x y with Gt => y :: sort_insert x l' | _ => x :: l end
  end.
Definition sort_by_priority (l : list QueuedEnvelope) : list QueuedEnvelope :=
  foldr sort_insert [] l.

Definition drain_ordered (q : OutboundPriorityQueue) : list WireEnvelope * OutboundPriorityQueue :=
  let result := stream_fifo q in
  let '(result, q) :=
    if is_comparer_mode q then
      (result ++ (envelope <$> sort_by_priority (sorted q)), set_sorted [] (set_stream [] q))
    else
      (result ++ concat (lanes q),
       set_lanes (replicate (length (lanes q)) []) (set_stream [] q)) in
  (result, set_consecutive 0 (set_total 0 q)).

Definition len (q : OutboundPriorityQueue) : nat := total q.
Definition is_empty (q : OutboundPriorityQueue) : bool := (total q =? 0)%nat.
Definition lane_counts (q : OutboundPriorityQueue) : list nat := length <$> lanes q.
Definition comparer_count (q : OutboundPriorityQueue) : nat := length (sorted q).
Definition fifo_count (q : OutboundPriorityQueue) : nat := length (stream_fifo q).
Definition clear (q : OutboundPriorityQueue) : OutboundPriorityQueue :=
  set_consecutive 0 (set_total 0 (set_stream [] (set_sorted []
    (set_lanes ((λ _, []) <$> lanes q) q)))).

(** ** Contents and invariant *)
(** Everything the queue holds. *)
Definition contents (q : OutboundPriorityQueue) : list WireEnvelope :=
  concat (lanes q) ++ (envelope <$> sorted q) ++ stream_fifo q.

Definition lane_of (e : WireEnvelope) : nat := lane_index_from_priority (extract_priority e).

Record wf (q : OutboundPriorityQueue) : Prop := {
  wf_lanes : length (lanes q) = LANE_COUNT;
  wf_current : current_lane q < LANE_COUNT;
  wf_total : total q = length (contents q);
  wf_mode : if is_comparer_mode q then concat (lanes q) = [] else sorted q = [];
  wf_lane : ∀ i l e, lanes q !! i = Some l → e ∈ l → lane_of e = i ∧ is_stream e = false;
  wf_sorted : ∀ x, x ∈ sorted q →
    is_stream (envelope x) = false ∧ priority (metadata x) = extract_priority (envelope x);
  wf_stream : ∀ e, e ∈ stream_fifo q → is_stream e = true;
  wf_capacity : 0 < capacity q → total q ≤ capacity q;
  wf_consecutive : 0 < max_consecutive q → consecutive_from_lane q ≤ max_consecutive q
}.

Lemma lane_of_lt e : lane_of e < LANE_COUNT.
Proof. unfold lane_of, lane_index_from_priority, LANE_COUNT. repeat case_match; lia. Qed.

Lemma concat_insert_snoc {A} (ls : list (list A)) i l x :
  ls !! i = Some l → concat (<[i := l ++ [x]]> ls) ≡ₚ x :: concat ls.
Proof.
  revert i. induction ls as [|l0 ls IH]; intros [|i]; simpl; try done.
  - intros [= ->]. rewrite <-app_assoc. simpl. by rewrite Permutation_middle.
  - intros H. rewrite IH by done. by rewrite Permutation_middle.
Qed.

Lemma concat_insert_tail {A} (ls : list (list A)) i l x :
  ls !! i = Some (x :: l) → concat ls ≡ₚ x :: concat (<[i := l]> ls).
Proof.
  revert i. induction ls as [|l0 ls IH]; intros [|i]; simpl; try done.
  - by intros [= ->].
  - intros H. rewrite (IH i) by done. by rewrite Permutation_middle.
Qed.

(** [q'] is [q] with [e] taken out of the place it was kept in. *)
Record same_config (q q' : OutboundPriorityQueue) : Prop := {
  same_max : max_consecutive q' = max_consecutive q;
  same_comparer : comparer q' = comparer q;
  same_capacity : capacity q' = capacity q
}.
Inductive taken (q : OutboundPriorityQueue) (e : WireEnvelope) (q' : OutboundPriorityQueue) : Prop :=
  | taken_stream :
      stream_fifo q = e :: stream_fifo q' → lanes q' = lanes q → sorted q' = sorted q →
      taken q e q'
  | taken_lane i l :
      lanes q !! i = Some (e :: l) → lanes q' = <[i := l]> (lanes q) →
      sorted q' = sorted q → stream_fifo q' = stream_fifo q → taken q e q'
  | taken_sorted i x :
      sorted q !! i = Some x → e = envelope x → sorted q' = delete i (sorted q) →
      lanes q' = lanes q → stream_fifo q' = stream_fifo q → taken q e q'.

Lemma taken_contents q e q' : taken q e q' → contents q ≡ₚ e :: contents q'.
Proof.
  unfold contents. intros [Hs -> ->|i l Hl -> -> ->|i x Hx -> -> -> ->].
  - rewrite Hs. by rewrite <-!Permutation_middle.
  - by rewrite (concat_insert_tail _ _ _ _ Hl).
  - rewrite (delete_Permutation _ _ _ Hx) at 1. csimpl. by rewrite <-Permutation_middle.
Qed.

(** A removal keeps the invariant, if the counters are updated with it. *)
Lemma taken_wf q e q' :
  wf q → taken q e q' → same_config q q' → total q' = total q - 1 →
  current_lane q' < LANE_COUNT →
  (0 < max_consecutive q → consecutive_from_lane q' ≤ max_consecutive q) → wf q'.
Proof.
  intros Hwf Ht [Hm Hc Hcap] Htot Hcur Hcons.
  pose proof (taken_contents _ _ _ Ht) as Hlen. apply Permutation_length in Hlen.
  destruct Hwf. simpl in Hlen.
  assert (total q' = length (contents q')) by lia.
  assert (is_comparer_mode q' = is_comparer_mode q) as Hcm.
  { unfold is_comparer_mode. by rewrite Hc. }
  destruct Ht as [Hs El Es|i l Hl El Es Ef|i x Hx -> Es El Ef];
    constructor; rewrite ?El, ?Es, ?Ef, ?Hm, ?Hcm, ?Hcap; try assumption; try lia.
  - intros e' He'. apply wf_stream0. rewrite Hs. by constructor.
  - by rewrite length_insert.
  - destruct (is_comparer_mode q); [|done]. apply (f_equal length) in wf_mode0. simpl in *.
    pose proof (Permutation_length (concat_insert_tail _ _ _ _ Hl)). simpl in *. lia.
  - intros j l' e' Hj He'. destruct (decide (i = j)) as [<-|].
    + apply (wf_lane0 i (e :: l)); [done|]. constructor.
      rewrite list_lookup_insert_eq in Hj by (by eapply lookup_lt_Some). by simplify_eq.
    + rewrite list_lookup_insert_ne in Hj by done. by eapply wf_lane0.
  - destruct (is_comparer_mode q); [done|]. by rewrite wf_mode0 in Hx.
  - intros y Hy. apply wf_sorted0.
    rewrite (delete_Permutation _ _ _ Hx). by constructor.
Qed.

(** What every dequeue function promises. *)
Definition dequeues (q : OutboundPriorityQueue)
    (r : option WireEnvelope * OutboundPriorityQueue) : Prop :=
  match r with
  | (Some e, q') => taken q e q' ∧ same_config q q' ∧ wf q'
  | (None, _) => False
  end.

Lemma pop_stream_spec q :
  wf q → stream_fifo q ≠ [] → dequeues q (pop_stream q).
Proof.
  intros Hwf Hne. unfold pop_stream. destruct (stream_fifo q) as [|e s] eqn:Hs; [done|].
  assert (taken q e (set_total (total q - 1) (set_stream s q))) as Ht.
  { by apply taken_stream. }
  assert (same_config q (set_total (total q - 1) (set_stream s q))) as Hc by done.
  split; [done|]. split; [done|].
  eapply taken_wf; [exact Hwf|exact Ht|exact Hc|done|apply Hwf|apply Hwf].
Qed.

Lemma pop_first_spec ls :
  match pop_first ls with
  | Some (e, ls') => ∃ i l, ls !! i = Some (e :: l) ∧ ls' = <[i := l]> ls
      ∧ ∀ j, j < i → ls !! j = Some []
  | None => concat ls = []
  end.
Proof.
  induction ls as [|[|e l] ls IH]; simpl; [done| |].
  - destruct (pop_first ls) as [[e ls']|]; simpl; [|done].
    destruct IH as (i & l & ? & -> & Hj). exists (S i), l. split_and!; [done..|].
    intros [|j] ?; simpl; [done|]. apply Hj. lia.
  - exists 0, l. split_and!; [done..|]. lia.
Qed.

(** A removal that leaves the other fields alone. *)
Lemma dequeues_intro q e q' :
  wf q → taken q e q' → same_config q q' → total q' = total q - 1 →
  current_lane q' < LANE_COUNT →
  (0 < max_consecutive q → consecutive_from_lane q' ≤ max_consecutive q) →
  dequeues q (Some e, q').
Proof. intros. split; [done|]. split; [done|]. by eapply taken_wf. Qed.

Lemma concat_nil_lookup {A} (ls : list (list A)) i x l :
  concat ls = [] → ls !! i = Some (x :: l) → False.
Proof.
  intros Hc Hi. pose proof (concat_insert_tail _ _ _ _ Hi) as Hp.
  rewrite Hc in Hp. by apply Permutation_nil_cons in Hp.
Qed.

(** The scan returns the index and the value of a least element, the first one
    among equals. *)
Section scan.
Context (less : QueuedEnvelope → QueuedEnvelope → bool).

Lemma scan_best_lookup pre b rest best i :
  i = length pre → pre !! best = Some b →
  (pre ++ rest) !! (scan_best less i best b rest).1 = Some (scan_best less i best b rest).2.
Proof.
  revert pre b best i. induction rest as [|x rest IH]; intros pre b best i -> Hb; simpl.
  { by rewrite app_nil_r. }
  assert (pre ++ x :: rest = (pre ++ [x]) ++ rest) as -> by by rewrite <-app_assoc.
  case_match; apply IH; rewrite ?length_app; simpl; try lia.
  - by rewrite lookup_app_r, Nat.sub_diag by lia.
  - by apply lookup_app_l_Some.
Qed.

Context (Htrans : ∀ x y z, less x y = true → less y z = true → less x z = true)
  (Hneg : ∀ x y z, less x y = false → less y z = false → less x z = false).

(** Nothing in the list is less than the result. *)
Lemma scan_best_min i best b rest x :
  x ∈ b :: rest → less b b = false → (∀ y, less y y = false) →
  less x (scan_best less i best b rest).2 = false.
Proof.
  intros Hx _ Hirr. revert i best b x Hx.
  induction rest as [|y rest IH]; intros i best b x Hx; simpl.
  { apply list_elem_of_singleton in Hx as ->. apply Hirr. }
  assert (∀ i' best' b', less b' (scan_best less i' best' b' rest).2 = false) as Hb.
  { intros. apply IH. by constructor. }
  destruct (less y b) eqn:Hy.
  - apply elem_of_cons in Hx as [->|Hx]; [|by apply IH].
    assert (less b y = false) as Hby.
    { destruct (less b y) eqn:E; [|done]. pose proof (Htrans _ _ _ E Hy). by rewrite Hirr in *. }
    eapply Hneg; [exact Hby|apply Hb].
  - apply elem_of_cons in Hx as [->|Hx]; [apply Hb|].
    apply elem_of_cons in Hx as [->|Hx]; [|by apply IH, elem_of_cons; right].
    eapply Hneg; [exact Hy|apply Hb].
Qed.
End scan.

Lemma pop_comparer_spec now q :
  wf q → is_comparer_mode q = true → sorted q ≠ [] → dequeues q (pop_comparer now q).
Proof.
  intros Hwf Hm Hne. unfold pop_comparer, is_comparer_mode in *.
  destruct (comparer q) as [c|]; [|done].
  destruct (sorted q) as [|s0 rest] eqn:Hs; [done|].
  destruct (scan_best (less_by c now) 1 0 s0 rest) as [best entry] eqn:Hb.
  pose proof (scan_best_lookup (less_by c now) [s0] s0 rest 0 1 eq_refl eq_refl) as Hl.
  rewrite Hb in Hl. simpl in Hl.
  apply dequeues_intro; [done| |done|done|apply Hwf|apply Hwf].
  eapply (taken_sorted _ _ _ best entry); simpl; by rewrite ?Hs.
Qed.

Lemma pop_strict_spec q : wf q → concat (lanes q) ≠ [] → dequeues q (pop_strict q).
Proof.
  intros Hwf Hne. unfold pop_strict. pose proof (pop_first_spec (lanes q)) as Hp.
  destruct (pop_first (lanes q)) as [[e ls]|]; [|done].
  destruct Hp as (i & l & Hi & -> & _).
  apply dequeues_intro; [done| |done|done|apply Hwf|apply Hwf].
  by apply (taken_lane _ _ _ i l).
Qed.

Lemma next_non_empty_lane_Some q start i :
  next_non_empty_lane q start = Some i → i < LANE_COUNT ∧ lane q i ≠ [].
Proof.
  unfold next_non_empty_lane. intros H%head_Some_elem_of.
  apply list_elem_of_filter in H as [? (j & -> & _)%list_elem_of_fmap].
  split; [|done]. by apply Nat.mod_upper_bound.
Qed.
Lemma next_non_empty_lane_None q start i :
  next_non_empty_lane q start = None → i < LANE_COUNT → lane q i = [].
Proof.
  unfold next_non_empty_lane. intros H Hi.
  destruct (filter _ _) as [|? ?] eqn:Hf; [|done].
  destruct (decide (lane q i = [])) as [|Hn]; [done|].
  assert (i ∈ ([] : list nat)) as Hx; [|by apply elem_of_nil in Hx].
  rewrite <-Hf. apply list_elem_of_filter. split; [done|].
  apply list_elem_of_fmap. unfold LANE_COUNT in *.
  exists ((i + 5 - start mod 5) mod 5).
  assert (start mod 5 < 5) by by apply Nat.mod_upper_bound.
  split; [|apply elem_of_seq; split; [lia|by apply Nat.mod_upper_bound]].
  rewrite Nat.Div0.add_mod_idemp_r.
  rewrite (Nat.div_mod_eq start 5) at 1.
  replace (5 * (start / 5) + start mod 5 + (i + 5 - start mod 5))
    with (i + (1 + start / 5) * 5) by lia.
  rewrite Nat.Div0.mod_add. by rewrite Nat.mod_small.
Qed.

Lemma lanes_nil q : length (lanes q) = LANE_COUNT →
  (∀ i, i < LANE_COUNT → lane q i = []) → concat (lanes q) = [].
Proof.
  intros Hl Hi. unfold lane in Hi. apply concat_nil_Forall, Forall_lookup.
  intros i l Hil. pose proof (lookup_lt_Some _ _ _ Hil). specialize (Hi i).
  rewrite Hil in Hi. simpl in Hi. apply Hi. lia.
Qed.

Lemma lane_lookup q i e l : lane q i = e :: l → lanes q !! i = Some (e :: l).
Proof. unfold lane. destruct (lanes q !! i); simpl; congruence. Qed.

(** The lane [pop_fair] has chosen is not empty. *)
Lemma pop_current_spec q q0 :
  wf q0 → lanes q = lanes q0 → sorted q = sorted q0 → stream_fifo q = stream_fifo q0 →
  same_config q0 q → total q = total q0 → current_lane q < LANE_COUNT →
  consecutive_from_lane q < max_consecutive q0 → lane q (current_lane q) ≠ [] →
  dequeues q0 (pop_current q).
Proof.
  intros Hwf El Es Ef [Hm Hc Hcap] Et Hcur Hcons Hne. unfold pop_current.
  destruct (lane q (current_lane q)) as [|e l] eqn:Hl; [done|].
  apply lane_lookup in Hl. rewrite El in Hl.
  apply dequeues_intro; simpl; [done| |done|lia|done|lia].
  apply (taken_lane _ _ _ (current_lane q) l); simpl; congruence.
Qed.

Lemma pop_fair_spec q :
  wf q → 0 < max_consecutive q → concat (lanes q) ≠ [] → dequeues q (pop_fair q).
Proof.
  intros Hwf Hmax Hne.
  assert (∀ start, next_non_empty_lane (set_consecutive 0 q) start ≠ None) as Hnn.
  { intros start Hn. apply Hne, lanes_nil; [apply Hwf|]. intros i Hi.
    by eapply (next_non_empty_lane_None (set_consecutive 0 q)). }
  unfold pop_fair. case_match; bN; [|case_match].
  - destruct (next_non_empty_lane _ _) as [i|] eqn:Hi; [|by edestruct Hnn].
    apply next_non_empty_lane_Some in Hi as [??]. by apply pop_current_spec.
  - destruct (next_non_empty_lane _ _) as [i|] eqn:Hi; [|by edestruct Hnn].
    apply next_non_empty_lane_Some in Hi as [??]. by apply pop_current_spec.
  - apply pop_current_spec; try done; [apply Hwf|]. intros Hx. by rewrite Hx in *.
Qed.

Lemma existsb_non_nil (ls : list (list WireEnvelope)) :
  existsb (λ l, negb (is_nil l)) ls = false ↔ concat ls = [].
Proof.
  induction ls as [|[|e l] ls IH]; simpl; [done|exact IH|done].
Qed.

(** The priority part of the queue: empty or not, as [pop] tests it. *)
Definition has_priority (q : OutboundPriorityQueue) : bool :=
  if is_comparer_mode q then negb (is_nil (sorted q))
  else existsb (λ l, negb (is_nil l)) (lanes q).

Lemma pop_priority_spec now q :
  wf q → has_priority q = true → dequeues q (pop_priority now q).
Proof.
  intros Hwf. unfold has_priority, pop_priority.
  destruct (is_comparer_mode q) eqn:Hm.
  - intros Hs. unfold is_comparer_mode in Hm. destruct (comparer q) eqn:Hc; [|done].
    apply pop_comparer_spec; [done|unfold is_comparer_mode; by rewrite Hc|].
    intros Hx. by rewrite Hx in Hs.
  - unfold is_comparer_mode in Hm. destruct (comparer q); [done|]. intros Hex.
    assert (concat (lanes q) ≠ []) by (intros ?%existsb_non_nil; congruence).
    case_match; bN; [by apply pop_strict_spec|]. apply pop_fair_spec; [done|lia|done].
Qed.

Lemma contents_nil q :
  wf q → stream_fifo q = [] → has_priority q = false → contents q = [].
Proof.
  intros Hwf Hs Hp. destruct Hwf. unfold contents, has_priority in *. rewrite Hs.
  destruct (is_comparer_mode q).
  - rewrite wf_mode0. by destruct (sorted q).
  - apply existsb_non_nil in Hp. by rewrite Hp, wf_mode0.
Qed.

Lemma or_else_Some e q k : or_else (Some e, q) k = (Some e, q).
Proof. done. Qed.

(** [pop] on a well-formed queue: nothing from an empty one, and otherwise an
    envelope, which the queue loses, and a well-formed queue. *)
Lemma pop_cases now q :
  wf q →
  (contents q = [] ∧ pop now q = (None, q)) ∨ dequeues q (pop now q).
Proof.
  intros Hwf. unfold pop. fold (has_priority q). destruct (total q =? 0)%nat eqn:Ht; bN.
  { left. split; [|done]. apply nil_length_inv. by rewrite <-(wf_total q Hwf). }
  assert (dequeues q (pop_stream q) ∨ stream_fifo q = []) as Hs.
  { destruct (stream_fifo q) eqn:E; [by right|left].
    apply pop_stream_spec; [done|by rewrite E]. }
  pose proof (pop_priority_spec now q Hwf) as Hp. right.
  destruct Hs as [Hs|Hs].
  - assert (is_nil (stream_fifo q) = false) as ->.
    { unfold pop_stream in Hs. by destruct (stream_fifo q). }
    destruct (has_priority q); cbn [negb andb]; [|done]. specialize (Hp eq_refl).
    destruct (total q mod 2 =? 0)%nat.
    + destruct (pop_stream q) as [[?|] ?]; [exact Hs|done].
    + destruct (pop_priority now q) as [[?|] ?]; [exact Hp|done].
  - rewrite Hs. simpl. destruct (has_priority q) eqn:Hhp; simpl; [by apply Hp|].
    destruct Ht. rewrite (wf_total q Hwf).
    by rewrite contents_nil.
Qed.

(** ** The operations preserve the invariant *)
Lemma push_spec now e q :
  wf q →
  match push now e q with
  | Ok q' => wf q' ∧ same_config q q' ∧ contents q' ≡ₚ e :: contents q
      ∧ (0 < capacity q → total q < capacity q)
      ∧ stream_fifo q' = stream_fifo q ++ (if is_stream e then [e] else [])
  | Err e' => e' = e ∧ 0 < capacity q ∧ capacity q ≤ total q
  end.
Proof.
  intros Hwf. unfold push.
  destruct ((0 <? capacity q)%nat && (capacity q <=? total q)%nat) eqn:Hcap.
  { apply andb_true_iff in Hcap as [?%Nat.ltb_lt ?%Nat.leb_le]; done. }
  assert (0 < capacity q → total q < capacity q) as Hlt.
  { intros Hc. apply andb_false_iff in Hcap as [?%Nat.ltb_ge|?%Nat.leb_gt]; lia. }
  assert (∀ q', total q' = total q → same_config q q' → contents q' ≡ₚ e :: contents q →
    current_lane q' = current_lane q → consecutive_from_lane q' = consecutive_from_lane q →
    length (lanes q') = LANE_COUNT →
    (if is_comparer_mode q' then concat (lanes q') = [] else sorted q' = []) →
    (∀ i l e, lanes q' !! i = Some l → e ∈ l → lane_of e = i ∧ is_stream e = false) →
    (∀ x, x ∈ sorted q' →
      is_stream (envelope x) = false ∧ priority (metadata x) = extract_priority (envelope x)) →
    (∀ e, e ∈ stream_fifo q' → is_stream e = true) →
    wf (set_total (total q' + 1) q')) as Hmk.
  { intros q' Ht [Hm Hc Hcp] Hp Hcl Hco Hll Hmd H1 H2 H3. constructor; simpl; try done.
    - rewrite Hcl. apply Hwf.
    - change (contents (set_total (total q' + 1) q')) with (contents q').
      rewrite (Permutation_length Hp), Ht, (wf_total q Hwf). simpl. lia.
    - rewrite Hcp. intros. specialize (Hlt ltac:(lia)). lia.
    - rewrite Hm, Hco. apply Hwf. }
  destruct Hwf. destruct (is_stream e) eqn:He; [|destruct (is_comparer_mode q) eqn:Hm].
  - assert (contents (set_stream (stream_fifo q ++ [e]) q) ≡ₚ e :: contents q) as Hp.
    { unfold contents. simpl. rewrite !app_assoc. symmetry. by apply Permutation_cons_append. }
    split_and!; [|done..]. apply Hmk; try done.
    intros e' [?| ->%list_elem_of_singleton]%elem_of_app; auto.
  - assert (contents (set_sorted (sorted q ++
      [mkQueued e (mkMetadata (extract_priority e) now)]) q) ≡ₚ e :: contents q) as Hp.
    { unfold contents. simpl. rewrite fmap_app, <-!app_assoc. simpl.
      by rewrite <-!Permutation_middle. }
    split_and!; [|done..|by rewrite app_nil_r]. apply Hmk; try done.
    + unfold is_comparer_mode in *. simpl. by rewrite Hm.
    + intros x [?| ->%list_elem_of_singleton]%elem_of_app; auto.
  - pose proof (lane_of_lt e) as Hl. fold (lane_of e).
    assert (lanes q !! lane_of e = Some (lane q (lane_of e))) as Hlk.
    { unfold lane. destruct (lookup_lt_is_Some_2 (lanes q) (lane_of e)) as [l ->];
        [by rewrite wf_lanes0|done]. }
    assert (contents (set_lanes (<[lane_of e := lane q (lane_of e) ++ [e]]> (lanes q)) q)
      ≡ₚ e :: contents q) as Hp.
    { unfold contents. simpl. by rewrite (concat_insert_snoc _ _ _ _ Hlk). }
    split_and!; [|done..|by rewrite app_nil_r]. apply Hmk; try done; simpl.
    + by rewrite length_insert.
    + unfold is_comparer_mode in *. simpl. by rewrite Hm.
    + intros i l e' Hi He'. destruct (decide (i = lane_of e)) as [->|].
      * rewrite list_lookup_insert_eq in Hi by (by rewrite wf_lanes0). simplify_eq.
        apply elem_of_app in He' as [?| ->%list_elem_of_singleton]; eauto.
      * rewrite list_lookup_insert_ne in Hi by done. eauto.
Qed.

Lemma wf_empty q :
  length (lanes q) = LANE_COUNT → current_lane q < LANE_COUNT → concat (lanes q) = [] →
  sorted q = [] → stream_fifo q = [] → total q = 0 → consecutive_from_lane q = 0 → wf q.
Proof.
  intros Hl Hcl Hc Hs Hf Ht Hco.
  assert (contents q = []) as Hn by (unfold contents; by rewrite Hc, Hs, Hf).
  constructor; rewrite ?Hn, ?Ht, ?Hs, ?Hf, ?Hco; try done; try lia.
  - by destruct (is_comparer_mode q).
  - intros i [|e' l] e Hi He; [by apply elem_of_nil in He|]. by edestruct @concat_nil_lookup.
  - by intros x ?%elem_of_nil.
  - by intros e ?%elem_of_nil.
Qed.
Lemma wf_new : wf new.
Proof. apply wf_empty; unfold LANE_COUNT; simpl; lia || done. Qed.
Lemma wf_with_config cap maxc : wf (with_config cap maxc).
Proof. apply wf_empty; unfold LANE_COUNT; simpl; lia || done. Qed.
Lemma wf_with_comparer c cap : wf (with_comparer c cap).
Proof. apply wf_empty; unfold LANE_COUNT; simpl; lia || done. Qed.

Lemma concat_replicate_nil {A} n : concat (replicate n ([] : list A)) = [].
Proof. by induction n. Qed.

Lemma wf_clear q : wf q → wf (clear q).
Proof.
  intros [Hl Hcl _ _ _ _ _ _ _]. apply wf_empty; simpl; try done.
  - by rewrite length_fmap.
  - clear. by induction (lanes q).
Qed.

Lemma drain_ordered_eq q :
  drain_ordered q =
  if is_comparer_mode q then
    (stream_fifo q ++ (envelope <$> sort_by_priority (sorted q)),
     set_consecutive 0 (set_total 0 (set_sorted [] (set_stream [] q))))
  else (stream_fifo q ++ concat (lanes q),
     set_consecutive 0 (set_total 0 (set_lanes (replicate (length (lanes q)) []) (set_stream [] q)))).
Proof. unfold drain_ordered. by destruct (is_comparer_mode q). Qed.

Lemma sort_insert_perm x l : sort_insert x l ≡ₚ x :: l.
Proof.
  induction l as [|y l IH]; simpl; [done|]. case_match; try done.
  rewrite IH. by constructor.
Qed.
Lemma sort_by_priority_perm l : sort_by_priority l ≡ₚ l.
Proof.
  induction l as [|x l IH]; simpl; [done|]. rewrite sort_insert_perm. by constructor.
Qed.

Lemma wf_drain q : wf q → wf (drain_ordered q).2.
Proof.
  intros [Hl Hcl _ Hm _ _ _ _ _]. rewrite drain_ordered_eq.
  destruct (is_comparer_mode q); apply wf_empty; simpl; try done.
  - by rewrite length_replicate.
  - by apply concat_replicate_nil.
Qed.
Lemma drain_contents q : wf q → (drain_ordered q).1 ≡ₚ contents q.
Proof.
  intros [_ _ _ Hm _ _ _ _ _]. rewrite drain_ordered_eq. unfold contents.
  destruct (is_comparer_mode q); simpl; rewrite Hm; simpl; [|by rewrite Permutation_app_comm].
  by rewrite sort_by_priority_perm, Permutation_app_comm.
Qed.

(** ** Runs of the queue *)
Inductive op :=
  | OpPush (now : N) (e : WireEnvelope)
  | OpPop (now : N)
  | OpDrain.

(** A queue with the envelopes it has accepted and handed out so far. *)
Record trace := mkTrace {
  queue : OutboundPriorityQueue;
  accepted : list WireEnvelope;
  delivered : list WireEnvelope
}.
Definition step (o : op) (t : trace) : trace :=
  match o with
  | OpPush now e =>
      match push now e (queue t) with
      | Ok q => mkTrace q (accepted t ++ [e]) (delivered t)
      | Err _ => t
      end
  | OpPop now =>
      match pop now (queue t) with
      | (Some e, q) => mkTrace q (accepted t) (delivered t ++ [e])
      | (None, q) => mkTrace q (accepted t) (delivered t)
      end
  | OpDrain =>
      let '(es, q) := drain_ordered (queue t) in mkTrace q (accepted t) (delivered t ++ es)
  end.
Definition run (ops : list op) (q : OutboundPriorityQueue) : trace :=
  foldl (λ t o, step o t) (mkTrace q [] []) ops.

Definition streams (l : list WireEnvelope) : list WireEnvelope := retain is_stream l.

(** Nothing is lost or invented, and streams keep their order. *)
Record trace_ok (t : trace) : Prop := {
  trace_wf : wf (queue t);
  trace_perm : accepted t ≡ₚ delivered t ++ contents (queue t);
  trace_fifo : streams (accepted t) = streams (delivered t) ++ stream_fifo (queue t)
}.

Lemma streams_app l k : streams (l ++ k) = streams l ++ streams k.
Proof. apply retain_app. Qed.
Lemma streams_single e : streams [e] = if is_stream e then [e] else [].
Proof. unfold streams. simpl. by destruct (is_stream e). Qed.

(** How a removal shows in the stream FIFO. *)
Lemma taken_fifo q e q' :
  wf q → taken q e q' → stream_fifo q = streams [e] ++ stream_fifo q'.
Proof.
  intros Hwf [Hs _ _|i l Hl _ _ ->|i x Hx -> _ _ ->]; rewrite streams_single.
  - rewrite Hs. assert (is_stream e = true) as ->; [|done].
    apply (wf_stream q Hwf). rewrite Hs. by constructor.
  - assert (is_stream e = false) as ->; [|done].
    apply (wf_lane q Hwf i (e :: l) e); [done|]. by constructor.
  - assert (is_stream (envelope x) = false) as ->; [|done].
    apply (wf_sorted q Hwf). by eapply list_elem_of_lookup_2.
Qed.

Lemma streams_none l : (∀ e, e ∈ l → is_stream e = false) → streams l = [].
Proof. intros H. apply retain_none, Forall_forall. exact H. Qed.

(** What the drain hands out besides the FIFO is no stream item. *)
Lemma drain_streams q : wf q →
  streams (drain_ordered q).1 = stream_fifo q ∧ stream_fifo (drain_ordered q).2 = []
  ∧ contents (drain_ordered q).2 = [].
Proof.
  intros [Hl _ _ Hm Hla Hso Hst _ _]. rewrite drain_ordered_eq.
  assert (streams (stream_fifo q) = stream_fifo q) as Hfi.
  { apply retain_all, Forall_forall. exact Hst. }
  destruct (is_comparer_mode q) eqn:Hcm; unfold contents; simpl;
    rewrite streams_app, Hfi, streams_none; rewrite ?app_nil_r, ?concat_replicate_nil, ?Hm; try done.
  - intros e (x & -> & Hx)%list_elem_of_fmap. apply Hso.
    by rewrite <-sort_by_priority_perm.
  - intros e (l & [i Hi]%list_elem_of_lookup_1 & He)%elem_of_concat. by eapply Hla.
Qed.

Lemma step_ok o t : trace_ok t → trace_ok (step o t).
Proof.
  destruct t as [q acc del]. intros [Hwf Hp Hf]. simpl in *.
  destruct o as [now e|now|]; simpl.
  - pose proof (push_spec now e q Hwf) as Hs. destruct (push now e q) as [q'|e']; [|done].
    destruct Hs as (? & _ & Hc & _ & Hs). constructor; simpl; [done| |].
    + rewrite Hc, Hp. solve_Permutation.
    + by rewrite streams_app, Hf, Hs, streams_single, app_assoc.
  - destruct (pop_cases now q Hwf) as [[_ ->]|Hd]; [done|].
    destruct (pop now q) as [[e|] q']; [|done]. destruct Hd as (Ht & _ & ?).
    constructor; simpl; [done| |].
    + rewrite Hp, (taken_contents _ _ _ Ht), <-app_assoc. done.
    + rewrite streams_app, Hf, (taken_fifo _ _ _ Hwf Ht). by rewrite app_assoc.
  - pose proof (drain_streams q Hwf) as (Hs & Hn & Hc). pose proof (drain_contents q Hwf) as Hd.
    pose proof (wf_drain q Hwf). destruct (drain_ordered q) as [es q']. simpl in *.
    constructor; simpl; [done| |].
    + by rewrite Hc, app_nil_r, Hd, Hp.
    + by rewrite streams_app, Hs, Hn, app_nil_r, Hf.
Qed.

Lemma run_ok ops q : wf q → contents q = [] → trace_ok (run ops q).
Proof.
  intros Hwf Hn. unfold run. assert (trace_ok (mkTrace q [] [])) as H.
  { constructor; simpl; [done|by rewrite Hn|]. unfold contents in Hn.
    apply app_nil in Hn as [_ [_ ?]%app_nil]. done. }
  revert H. generalize (mkTrace q [] []). induction ops as [|o ops IH]; [done|].
  intros t Ht. simpl. by apply IH, step_ok.
Qed.

(** The queues the program can hold. *)
Inductive initial : OutboundPriorityQueue → Prop :=
  | initial_new : initial new
  | initial_config cap maxc : initial (with_config cap maxc)
  | initial_comparer c cap : initial (with_comparer c cap).
Inductive reachable : OutboundPriorityQueue → Prop :=
  | reachable_run q ops : initial q → reachable (queue (run ops q))
  | reachable_clear q : reachable q → reachable (clear q).

Lemma initial_wf q : initial q → wf q ∧ contents q = [].
Proof.
  destruct 1; (split; [|done]);
    [apply wf_new | apply wf_with_config | apply wf_with_comparer].
Qed.
Lemma reachable_wf q : reachable q → wf q.
Proof.
  induction 1 as [q ops [Hwf Hn]%initial_wf|]; [|by apply wf_clear].
  by apply trace_wf, run_ok.
Qed.

(** [pop] called again and again with the given clock values. *)
Fixpoint pops (nows : list N) (q : OutboundPriorityQueue) :
    list WireEnvelope * OutboundPriorityQueue :=
  match nows with
  | [] => ([], q)
  | now :: nows' =>
      match pop now q with
      | (Some e, q') => let '(es, q'') := pops nows' q' in (e :: es, q'')
      | (None, q') => pops nows' q'
      end
  end.

Lemma pops_all nows q :
  wf q → length nows = length (contents q) →
  (pops nows q).1 ≡ₚ contents q ∧ total (pops nows q).2 = 0.
Proof.
  revert q. induction nows as [|now nows IH]; intros q Hwf Hl; simpl in *.
  { rewrite (wf_total q Hwf), <-Hl. by destruct (contents q). }
  destruct (pop_cases now q Hwf) as [[Hn _]|Hd]; [by rewrite Hn in Hl|].
  destruct (pop now q) as [[e|] q1]; [|done]. destruct Hd as (Ht & _ & Hwf1).
  apply taken_contents in Ht. pose proof (Permutation_length Ht). simpl in *.
  destruct (IH q1 Hwf1 ltac:(lia)) as [Hp ?].
  destruct (pops nows q1) as [es q2]. simpl in *. by rewrite Ht, Hp.
Qed.

Lemma pop_only_priority now q :
  wf q → stream_fifo q = [] → contents q ≠ [] → pop now q = pop_priority now q.
Proof.
  intros Hwf Hs Hne. unfold pop. fold (has_priority q). rewrite Hs.
  destruct (total q =? 0)%nat eqn:Ht; bN.
  { destruct Hne. apply nil_length_inv. by rewrite <-(wf_total q Hwf). }
  destruct (has_priority q) eqn:Hp; [done|]. by rewrite contents_nil in Hne.
Qed.

Lemma pop_Some_contents now q e q' : wf q → pop now q = (Some e, q') → contents q ≠ [].
Proof.
  intros Hwf Hp. unfold pop in Hp. destruct (total q =? 0)%nat eqn:Ht; [done|]; bN.
  intros Hn. by rewrite (wf_total q Hwf), Hn in Ht.
Qed.

Lemma elem_of_contents_lane q e :
  wf q → comparer q = None → stream_fifo q = [] → e ∈ contents q →
  e ∈ lane q (lane_of e).
Proof.
  intros Hwf Hm Hs. unfold contents. pose proof (wf_mode q Hwf) as Hso.
  unfold is_comparer_mode in Hso. rewrite Hm in Hso. rewrite Hso, Hs, !app_nil_r.
  intros (l & [i Hi]%list_elem_of_lookup_1 & He)%elem_of_concat.
  destruct (wf_lane q Hwf i l e Hi He) as [-> _]. unfold lane. by rewrite Hi.
Qed.

Lemma lane_insert_eq q i l :
  i < length (lanes q) → lane (set_lanes (<[i := l]> (lanes q)) q) i = l.
Proof. intros. unfold lane. simpl. by rewrite list_lookup_insert_eq. Qed.
Lemma lane_insert_ne q i j l :
  i ≠ j → lane (set_lanes (<[i := l]> (lanes q)) q) j = lane q j.
Proof. intros. unfold lane. simpl. by rewrite list_lookup_insert_ne. Qed.

(** [pop_strict] takes the front of the first lane that has one. *)
Lemma pop_strict_order q e q' :
  wf q → comparer q = None → stream_fifo q = [] → pop_strict q = (Some e, q') →
  (∀ e', e' ∈ contents q → lane_of e ≤ lane_of e')
  ∧ lane q (lane_of e) = e :: lane q' (lane_of e).
Proof.
  intros Hwf Hc Hs. unfold pop_strict. pose proof (pop_first_spec (lanes q)) as Hp.
  destruct (pop_first (lanes q)) as [[e1 ls]|]; [|done]. intros [= -> <-].
  destruct Hp as (i & l & Hi & -> & Hj).
  destruct (wf_lane q Hwf i _ e Hi) as [-> _]; [by constructor|]. split.
  - intros e' He'. apply elem_of_contents_lane in He'; [|done..].
    destruct (decide (i ≤ lane_of e')) as [|]; [done|]. unfold lane in He'.
    rewrite Hj in He' by lia. by apply elem_of_nil in He'.
  - unfold lane. rewrite Hi. simpl.
    by rewrite list_lookup_insert_eq by by eapply lookup_lt_Some.
Qed.

(** The aging comparer is a weak order. *)
Definition aging_less (max_age now : N) := less_by (AgingWireComparer max_age) now.
Ltac aging :=
  unfold aging_less, less_by, AgingWireComparer;
  repeat case_match; bN; try done; intros; rewrite ?N.compare_lt_iff, ?N.compare_eq_iff, ?N.compare_gt_iff in *;
  lia.
Lemma aging_irrefl m now y : aging_less m now y y = false.
Proof. aging. Qed.
Lemma aging_trans m now x y z :
  aging_less m now x y = true → aging_less m now y z = true → aging_less m now x z = true.
Proof. aging. Qed.
Lemma aging_neg m now x y z :
  aging_less m now x y = false → aging_less m now y z = false → aging_less m now x z = false.
Proof. aging. Qed.

Definition aged (max_age now : N) (x : QueuedEnvelope) : Prop :=
  (max_age <= duration_since now (enqueued_at (metadata x)))%N.

Lemma aging_min m now x y :
  aging_less m now y x = false →
  (aged m now y → aged m now x ∧ (enqueued_at (metadata x) <= enqueued_at (metadata y))%N)
  ∧ (¬ aged m now x → (priority (metadata x) <= priority (metadata y))%N).
Proof. unfold aged. aging. Qed.

Lemma pop_comparer_aging m now q e q' :
  wf q → comparer q = Some (AgingWireComparer m) → pop_comparer now q = (Some e, q') →
  ∃ x, x ∈ sorted q ∧ e = envelope x
    ∧ ∀ y, y ∈ sorted q → aging_less m now y x = false.
Proof.
  intros Hwf Hc. unfold pop_comparer. rewrite Hc.
  destruct (sorted q) as [|s0 rest] eqn:Hs; [done|].
  pose proof (scan_best_lookup (aging_less m now) [s0] s0 rest 0 1 eq_refl eq_refl) as Hl.
  fold (aging_less m now) in *.
  pose proof (scan_best_min _ (aging_trans m now) (aging_neg m now) 1 0 s0 rest) as Hmin.
  destruct (scan_best _ _ _ _ _) as [best entry]. intros [= <- _].
  exists entry. split_and!; [by eapply list_elem_of_lookup_2|done|].
  intros y Hy. apply Hmin; [done|apply aging_irrefl..].
Qed.

(** *** Fair mode *)
(** The search from [c + 1] tries lane [c] last. *)
Lemma next_non_empty_lane_last q c j :
  c < LANE_COUNT → next_non_empty_lane q (c + 1) = Some c → j ≠ c → j < LANE_COUNT →
  lane q j = [].
Proof.
  intros Hc Hn Hne Hj. unfold next_non_empty_lane in Hn.
  assert (∃ pre, ((λ i, (c + 1 + i) mod LANE_COUNT) <$> seq 0 LANE_COUNT) = pre ++ [c]
    ∧ j ∈ pre ∧ c ∉ pre) as (pre & Hpre & Hin & Hout).
  { exists ((λ i, (c + 1 + i) mod LANE_COUNT) <$> seq 0 4). unfold LANE_COUNT in *.
    do 5 (destruct c as [|c]; [do 5 (destruct j as [|j];
      [first [done | split; [reflexivity|];
         split; apply (bool_decide_unpack _); vm_compute; exact I]|]); lia|]). lia. }
  rewrite Hpre in Hn. destruct (decide (lane q j = [])) as [|Hlj]; [done|].
  rewrite filter_app in Hn.
  assert (j ∈ filter (λ idx, lane q idx ≠ []) pre) as Hf by by apply list_elem_of_filter.
  destruct (filter _ pre) as [|k l] eqn:E; [by apply elem_of_nil in Hf|].
  simpl in Hn. simplify_eq. destruct Hout.
  assert (c ∈ filter (λ idx, lane q idx ≠ []) pre) as Hk by (rewrite E; by constructor).
  by apply list_elem_of_filter in Hk as [_ ?].
Qed.

(** What one step of [pop_fair] does to the cursor and to the lanes. *)
Lemma pop_fair_step q e q' :
  wf q → 0 < max_consecutive q → pop_fair q = (Some e, q') →
  lane_of e = current_lane q'
  ∧ (∀ j, j ≠ lane_of e → lane q' j = lane q j)
  ∧ (if bool_decide (lane_of e = current_lane q ∧
                     consecutive_from_lane q < max_consecutive q)
     then consecutive_from_lane q' = consecutive_from_lane q + 1
     else consecutive_from_lane q' = 1)
  ∧ (max_consecutive q ≤ consecutive_from_lane q →
     lane_of e = current_lane q → ∀ j, j ≠ current_lane q → j < LANE_COUNT → lane q j = []).
Proof.
  intros Hwf Hmax.
  assert (∀ q0, lanes q0 = lanes q → pop_current q0 = (Some e, q') →
    lane_of e = current_lane q' ∧ current_lane q' = current_lane q0
    ∧ (∀ j, j ≠ lane_of e → lane q' j = lane q j)
    ∧ consecutive_from_lane q' = consecutive_from_lane q0 + 1) as Hcur.
  { intros q0 Hl. unfold pop_current. destruct (lane q0 (current_lane q0)) eqn:Hlk; [done|].
    intros [= -> <-]. apply lane_lookup in Hlk. rewrite Hl in Hlk.
    destruct (wf_lane q Hwf _ _ e Hlk) as [He _]; [by constructor|]. rewrite He. simpl.
    split_and!; [done..| |done]. intros j Hj. unfold lane. simpl.
    by rewrite list_lookup_insert_ne, Hl. }
  unfold pop_fair. case_match eqn:Hc; bN; [|case_match eqn:Hn].
  - destruct (next_non_empty_lane _ _) as [i|] eqn:Hi; [|done].
    intros (He & Hq & Hj & Hco)%Hcur; [|done]. simpl in Hq, Hco.
    rewrite bool_decide_eq_false_2 by lia. split_and!; try done.
    intros _ Heq j Hne Hlt. rewrite He, Hq in Heq. subst i.
    apply (next_non_empty_lane_last (set_consecutive 0 q) (current_lane q)); try done.
    + apply Hwf.
    + rewrite Heq in Hi. exact Hi.
  - destruct (next_non_empty_lane _ _) as [i|] eqn:Hi; [|done].
    apply next_non_empty_lane_Some in Hi as [_ Hi].
    intros (He & Hq & Hj & Hco)%Hcur; [|done]. simpl in Hq, Hco.
    assert (lane_of e ≠ current_lane q).
    { intros Heq. rewrite He, Hq in Heq. rewrite Heq in Hi.
      apply Hi. change (lane q (current_lane q) = []). by destruct (lane q (current_lane q)). }
    rewrite bool_decide_eq_false_2 by tauto. split_and!; try done; intros; lia.
  - intros (He & Hq & Hj & Hco)%Hcur; [|done].
    rewrite bool_decide_eq_true_2 by (split; [congruence|lia]). split_and!; try done; intros; lia.
Qed.

Lemma pop_wf now q e q' : wf q → pop now q = (Some e, q') →
  taken q e q' ∧ same_config q q' ∧ wf q'.
Proof.
  intros Hwf Hp. destruct (pop_cases now q Hwf) as [[_ Hn]|Hd]; [congruence|]. by rewrite Hp in Hd.
Qed.

(** Popping an empty queue goes on giving nothing. *)
Lemma pops_none nows q : wf q → contents q = [] → pops nows q = ([], q).
Proof.
  intros Hwf Hn. induction nows as [|now nows IH]; simpl; [done|].
  destruct (pop_cases now q Hwf) as [[_ ->]|Hd]; [done|].
  destruct (pop now q) as [[e|] q1] eqn:Hp; [|done]. by apply pop_Some_contents in Hp.
Qed.

(** [pop] in fair mode: a stream item, and the lanes and the cursor stay, or what
    [pop_fair] serves. *)
Lemma pop_stream_item q e q' :
  wf q → pop_stream q = (Some e, q') →
  is_stream e = true ∧ lanes q' = lanes q ∧ current_lane q' = current_lane q
  ∧ consecutive_from_lane q' = consecutive_from_lane q.
Proof.
  intros Hwf. unfold pop_stream. destruct (stream_fifo q) as [|x rest] eqn:Hs; [done|]. intros [= <- <-].
  split_and!; try done. apply (wf_stream q Hwf). rewrite Hs. by left.
Qed.
Lemma pop_fair_item q e q' : wf q → pop_fair q = (Some e, q') → is_stream e = false.
Proof.
  intros Hwf.
  assert (∀ q0, lanes q0 = lanes q → pop_current q0 = (Some e, q') → is_stream e = false) as Hcur.
  { intros q0 Hl. unfold pop_current. destruct (lane q0 (current_lane q0)) as [|x l] eqn:Hlk; [done|].
    intros [= -> _]. apply lane_lookup in Hlk. rewrite Hl in Hlk.
    by apply (wf_lane q Hwf _ _ e Hlk); left. }
  unfold pop_fair. case_match; [|case_match].
  - destruct (next_non_empty_lane _ _); [by apply Hcur|done].
  - destruct (next_non_empty_lane _ _); [by apply Hcur|done].
  - by apply Hcur.
Qed.
Lemma pop_fair_mode now q e q' :
  wf q → comparer q = None → 0 < max_consecutive q → pop now q = (Some e, q') →
  if is_stream e
  then lanes q' = lanes q ∧ current_lane q' = current_lane q
       ∧ consecutive_from_lane q' = consecutive_from_lane q
  else pop_fair q = (Some e, q').
Proof.
  intros Hwf Hc Hmax.
  assert (pop_priority now q = pop_fair q) as Hprio.
  { unfold pop_priority. rewrite Hc. by rewrite (proj2 (Nat.eqb_neq _ _)) by lia. }
  assert (∀ r, pop_stream q = (Some e, r) → q' = r →
    if is_stream e then lanes q' = lanes q ∧ current_lane q' = current_lane q
       ∧ consecutive_from_lane q' = consecutive_from_lane q else pop_fair q = (Some e, q')) as Hst
    by (intros r (-> & ?)%pop_stream_item -> ; done).
  assert (∀ r, pop_fair q = (Some e, r) → q' = r →
    if is_stream e then lanes q' = lanes q ∧ current_lane q' = current_lane q
       ∧ consecutive_from_lane q' = consecutive_from_lane q else pop_fair q = (Some e, q')) as Hfa
    by (intros r Hr ->; by rewrite (pop_fair_item _ _ _ Hwf Hr)).
  unfold pop. fold (has_priority q). destruct (total q =? 0)%nat eqn:Ht; [done|]. rewrite Hprio.
  pose proof (pop_priority_spec now q Hwf) as Hp. rewrite Hprio in Hp.
  destruct (has_priority q) eqn:Hhp; destruct (stream_fifo q) as [|x rest] eqn:Hs; cbn [is_nil negb andb].
  - intros Hr. by eapply Hfa.
  - specialize (Hp eq_refl). destruct (pop_fair q) as [[y|] qf] eqn:Hf; [|done].
    destruct (total q mod 2 =? 0)%nat; cbn [or_else].
    + unfold pop_stream at 1. rewrite Hs. cbn [or_else]. intros [= <- <-]. eapply Hst; [|done].
      unfold pop_stream. by rewrite Hs.
    + intros [= -> ->]. by eapply Hfa.
  - exfalso. bN. apply Ht. by rewrite (wf_total q Hwf), contents_nil.
  - intros Hr. by eapply Hst.
Qed.

(** Runs from any queue. *)
Lemma run_from ops q acc del :
  foldl (λ t o, step o t) (mkTrace q acc del) ops
  = mkTrace (queue (run ops q)) (acc ++ accepted (run ops q)) (del ++ delivered (run ops q)).
Proof.
  unfold run. revert q acc del. induction ops as [|o ops IH]; intros q acc del; [by rewrite !app_nil_r|].
  assert (∀ acc del, step o (mkTrace q acc del)
    = mkTrace (queue (step o (mkTrace q [] []))) (acc ++ accepted (step o (mkTrace q [] [])))
        (del ++ delivered (step o (mkTrace q [] [])))) as Hstep.
  { clear. intros acc del. destruct o as [now e|now|]; simpl.
    - destruct (push now e q); by rewrite ?app_nil_r.
    - destruct (pop now q) as [[e|] q']; by rewrite ?app_nil_r.
    - destruct (drain_ordered q). by rewrite app_nil_r. }
  assert (∀ t, foldl (λ t o, step o t) t (o :: ops) = foldl (λ t o, step o t) (step o t) ops) as Hcons by done.
  rewrite !Hcons, Hstep. clear Hcons. destruct (step o (mkTrace q [] [])) as [q1 acc1 del1]. cbn [queue accepted delivered].
  rewrite (IH q1 acc1 del1), (IH q1 (acc ++ acc1) (del ++ del1)). cbn [queue accepted delivered].
  by rewrite !app_assoc.
Qed.
(** What a run serves from the lanes. *)
Definition served (ops : list op) (q : OutboundPriorityQueue) : list WireEnvelope :=
  retain (λ e, negb (is_stream e)) (delivered (run ops q)).
Lemma run_cons o ops q :
  queue (run (o :: ops) q) = queue (run ops (queue (run [o] q)))
  ∧ served (o :: ops) q = served [o] q ++ served ops (queue (run [o] q)).
Proof.
  unfold served. change (run (o :: ops) q) with (foldl (λ t o, step o t) (run [o] q) ops).
  destruct (run [o] q) as [q1 acc del]. rewrite run_from. cbn [queue delivered]. split; [done|].
  apply retain_app.
Qed.

(** The run of lane [k] so far. *)
Definition level (k : nat) q : nat := if decide (current_lane q = k) then consecutive_from_lane q else 0.
Lemma fair_op o q j k :
  wf q → comparer q = None → 0 < max_consecutive q → j ≠ k → j < LANE_COUNT →
  lane q j ≠ [] → lane (queue (run [o] q)) j ≠ [] → Forall (λ e, lane_of e = k) (served [o] q) →
  let q' := queue (run [o] q) in
  wf q' ∧ comparer q' = None ∧ max_consecutive q' = max_consecutive q
  ∧ level k q + length (served [o] q) ≤ level k q'.
Proof.
  intros Hwf Hc Hmax Hne Hj Hlj Hlj' Hall. unfold served in *. cbn [run foldl] in *. unfold level.
  destruct o as [now e|now|]; cbn [step queue] in *.
  - pose proof (push_spec now e q Hwf) as Hs. unfold push in *. destruct (_ && _); [cbn; split_and!; done || lia|].
    destruct Hs as (Hwf' & [Hm Hcm _] & _). cbn [queue delivered retain length] in *.
    split; [exact Hwf'|]. split; [congruence|]. split; [exact Hm|].
    destruct (is_stream e), (is_comparer_mode q); simpl; lia.
  - destruct (pop now q) as [[e|] q1] eqn:Hpop; cbn [queue delivered app retain] in *; last first.
    { destruct (pop_cases now q Hwf) as [[_ Hn]|Hd]; [|by rewrite Hpop in Hd].
      assert (q1 = q) as -> by congruence. cbn. split_and!; done || lia. }
    destruct (pop_wf _ _ _ _ Hwf Hpop) as (_ & [Hm Hcm _] & Hwf1).
    split; [exact Hwf1|]. split; [congruence|]. split; [exact Hm|].
    pose proof (pop_fair_mode _ _ _ _ Hwf Hc Hmax Hpop) as Hf. destruct (is_stream e); cbn [negb length] in *.
    { destruct Hf as (_ & -> & ->). lia. }
    apply Forall_cons in Hall as [He _].
    destruct (pop_fair_step _ _ _ Hwf Hmax Hf) as (Hcur & _ & Hcons & Hbound).
    assert (current_lane q1 = k) as Hk1 by congruence. rewrite (decide_True _ _ Hk1).
    destruct (decide (current_lane q = k)) as [Hk|Hk]; case_bool_decide as Hb; try lia.
    destruct Hlj. apply Hbound; [|congruence|congruence|done].
    apply Nat.nlt_ge. intros ?. apply Hb. split; [congruence|done].
  - exfalso. apply Hlj'. rewrite drain_ordered_eq. unfold is_comparer_mode. rewrite Hc. cbn [queue lanes lane].
    unfold lane. cbn. destruct (replicate (length (lanes q)) [] !! j) as [l|] eqn:Hl; [|done].
    by apply lookup_replicate in Hl as [-> _].
Qed.
Lemma fair_level ops q j k :
  wf q → comparer q = None → 0 < max_consecutive q → j ≠ k → j < LANE_COUNT →
  (∀ n, lane (queue (run (take n ops) q)) j ≠ []) → Forall (λ e, lane_of e = k) (served ops q) →
  level k q + length (served ops q) ≤ max_consecutive q.
Proof.
  intros Hwf Hc Hmax Hne Hj. revert q Hwf Hc Hmax. induction ops as [|o ops IH]; intros q Hwf Hc Hmax Hwait Hall.
  { cbn. unfold level. pose proof (wf_consecutive q Hwf Hmax). case_decide; lia. }
  destruct (run_cons o ops q) as [_ Hs]. rewrite Hs in Hall |- *. apply Forall_app in Hall as [Ho Hops].
  destruct (fair_op o q j k Hwf Hc Hmax Hne Hj (Hwait 0) (Hwait 1) Ho) as (Hwf' & Hc' & Hm & Hl).
  assert (level k (queue (run [o] q)) + length (served ops (queue (run [o] q))) ≤ max_consecutive q).
  { rewrite <-Hm. apply IH; try done; [lia|]. intros n. specialize (Hwait (S n)). cbn [take] in Hwait.
    by rewrite (proj1 (run_cons o (take n ops) q)) in Hwait. }
  rewrite length_app. lia.
Qed.

(** *** Rounds of one push and one pop *)
Fixpoint rounds (es : list WireEnvelope) (now : N) (q : OutboundPriorityQueue) :
    list WireEnvelope * OutboundPriorityQueue :=
  match es with
  | [] => ([], q)
  | e :: es' =>
      match push now e q with
      | Err _ => ([], q)
      | Ok q1 =>
          match pop now q1 with
          | (None, q2) => ([], q2)
          | (Some d, q2) => let '(ds, q3) := rounds es' now q2 in (d :: ds, q3)
          end
      end
  end.

(** The priority side is not empty iff the FIFO does not hold everything. *)
Lemma has_priority_total q :
  wf q → has_priority q = true ↔ length (stream_fifo q) < total q.
Proof.
  intros Hwf. rewrite (wf_total q Hwf). unfold contents, has_priority.
  rewrite !length_app, length_fmap. pose proof (wf_mode q Hwf) as Hm.
  destruct (is_comparer_mode q); rewrite Hm; simpl.
  - destruct (sorted q); simpl; (split; [try done|]); lia.
  - destruct (existsb _ (lanes q)) eqn:Hex.
    + destruct (concat (lanes q)) eqn:Hc; simpl; [|split; [lia|done]].
      by apply existsb_non_nil in Hc; rewrite Hc in Hex.
    + apply existsb_non_nil in Hex. rewrite Hex. simpl. split; [done|lia].
Qed.

Lemma pop_priority_fifo now q : stream_fifo (pop_priority now q).2 = stream_fifo q.
Proof.
  unfold pop_priority, pop_comparer, pop_strict, pop_fair, pop_current.
  repeat (case_match; simplify_eq/=; try done).
Qed.

(** Both sides non-empty: the parity of [total] decides. *)
Lemma pop_odd now q :
  wf q → stream_fifo q ≠ [] → has_priority q = true → total q mod 2 = 1 →
  ∃ d q', pop now q = (Some d, q') ∧ wf q' ∧ total q' + 1 = total q
    ∧ stream_fifo q' = stream_fifo q ∧ capacity q' = capacity q ∧ is_stream d = false.
Proof.
  intros Hwf Hs Hp Hodd. unfold pop. fold (has_priority q).
  destruct (total q =? 0)%nat eqn:Ht; bN; [by rewrite Ht in Hodd|].
  assert (is_nil (stream_fifo q) = false) as -> by by destruct (stream_fifo q).
  rewrite Hp, Hodd. cbn [negb andb Nat.eqb].
  pose proof (pop_priority_spec now q Hwf Hp) as Hd. pose proof (pop_priority_fifo now q) as Hf.
  destruct (pop_priority now q) as [[d|] q']; [|done]. simpl in Hf.
  destruct Hd as (Hta & Hc & Hwf'). exists d, q'.
  pose proof (Permutation_length (taken_contents _ _ _ Hta)) as Hl. simpl in Hl.
  pose proof (taken_fifo _ _ _ Hwf Hta) as Hx. rewrite Hf, streams_single in Hx.
  rewrite (wf_total q Hwf), (wf_total q' Hwf').
  split_and!; [done|done|lia|done|apply Hc|]. destruct (is_stream d); [|done].
  apply (f_equal length) in Hx. simpl in Hx. lia.
Qed.

Lemma pop_even now q :
  wf q → stream_fifo q ≠ [] → has_priority q = true → total q mod 2 = 0 →
  ∃ d q', pop now q = (Some d, q') ∧ wf q' ∧ total q' + 1 = total q
    ∧ stream_fifo q = d :: stream_fifo q' ∧ capacity q' = capacity q
    ∧ lanes q' = lanes q ∧ sorted q' = sorted q.
Proof.
  intros Hwf Hs Hp Heven. unfold pop. fold (has_priority q).
  destruct (total q =? 0)%nat eqn:Ht; bN.
  { apply has_priority_total in Hp; [lia|done]. }
  assert (is_nil (stream_fifo q) = false) as -> by by destruct (stream_fifo q).
  rewrite Hp, Heven. cbn [negb andb Nat.eqb]. pose proof (pop_stream_spec q Hwf Hs) as Hd.
  unfold pop_stream in *. destruct (stream_fifo q) as [|d s]; [done|].
  destruct Hd as (_ & _ & ?). exists d. eexists. split; [done|]. split; [done|]. simpl.
  split_and!; try done. lia.
Qed.

Lemma push_total now e q q' : push now e q = Ok q' → total q' = total q + 1.
Proof. unfold push. case_match; [done|]. intros [= <-]. by repeat case_match. Qed.

Lemma push_unbounded now e q : capacity q = 0 → ∃ q', push now e q = Ok q'.
Proof. intros Hc. unfold push. rewrite Hc. simpl. eauto. Qed.

Lemma mod2_succ n : n mod 2 = 0 → (n + 1) mod 2 = 1.
Proof. intros H. by rewrite <-Nat.Div0.add_mod_idemp_l, H. Qed.

(** The stream side waits while tell traffic keeps [total] odd at each pop. *)
Lemma rounds_starve_streams es now q :
  wf q → capacity q = 0 → stream_fifo q ≠ [] → has_priority q = true → total q mod 2 = 0 →
  Forall (λ e, is_stream e = false) es →
  length (rounds es now q).1 = length es ∧ streams (rounds es now q).1 = []
  ∧ stream_fifo (rounds es now q).2 = stream_fifo q.
Proof.
  revert q. induction es as [|e es IH]; intros q Hwf Hcap Hs Hp Hpar Hall; simpl; [done|].
  apply Forall_cons in Hall as [He Hall].
  destruct (push_unbounded now e q Hcap) as [q1 Hq1]. rewrite Hq1.
  pose proof (push_total _ _ _ _ Hq1) as Ht1. pose proof (push_spec now e q Hwf) as Hps.
  rewrite Hq1, He, app_nil_r in Hps. destruct Hps as (Hwf1 & [_ _ Hc1] & _ & _ & Hf1).
  apply has_priority_total in Hp; [|done].
  destruct (pop_odd now q1) as (d & q2 & -> & Hwf2 & Ht2 & Hf2 & Hc2 & Hd); [done|congruence| | |].
  { apply has_priority_total; [done|]. rewrite Hf1. lia. }
  { rewrite Ht1. by apply mod2_succ. }
  destruct (IH q2) as (Hl & Hst & Hf); try congruence; try done.
  { apply has_priority_total; [done|]. rewrite Hf2, Hf1. lia. }
  { assert (total q2 = total q) as -> by lia. done. }
  destruct (rounds es now q2) as [ds q3]. simpl in *. unfold streams in *. simpl.
  rewrite Hd. split_and!; [lia|done|congruence].
Qed.

(** And the other way round: tell traffic waits while stream traffic keeps it even. *)
Lemma rounds_starve_priority es now q :
  wf q → capacity q = 0 → stream_fifo q ≠ [] → has_priority q = true → total q mod 2 = 1 →
  Forall (λ e, is_stream e = true) es →
  length (rounds es now q).1 = length es
  ∧ lanes (rounds es now q).2 = lanes q ∧ sorted (rounds es now q).2 = sorted q.
Proof.
  revert q. induction es as [|e es IH]; intros q Hwf Hcap Hs Hp Hpar Hall; simpl; [done|].
  apply Forall_cons in Hall as [He Hall].
  pose proof (push_spec now e q Hwf) as Hps.
  assert (push now e q = Ok (set_total (total q + 1) (set_stream (stream_fifo q ++ [e]) q))) as Hq1.
  { unfold push. by rewrite Hcap, He. }
  rewrite Hq1, He in *. clear Hq1. destruct Hps as (Hwf1 & _ & _ & _ & _).
  set (q1 := set_total _ _) in *. apply has_priority_total in Hp; [|done].
  destruct (pop_even now q1) as (d & q2 & -> & Hwf2 & Ht2 & Hf2 & Hc2 & Hla & Hso); [done| | | |].
  { simpl. by destruct (stream_fifo q). }
  { apply has_priority_total; [done|]. simpl. rewrite length_app. simpl. lia. }
  { change (total q1) with (total q + 1). by rewrite <-Nat.Div0.add_mod_idemp_l, Hpar. }
  simpl in Ht2, Hf2, Hc2, Hla, Hso. assert (length (stream_fifo q2) = length (stream_fifo q)) as Hlen.
  { apply (f_equal length) in Hf2. rewrite length_app in Hf2. simpl in Hf2. lia. }
  destruct (IH q2) as (Hl & Hl2 & Hs2); try congruence; try done.
  { intros Hn. rewrite Hn in Hlen. by destruct (stream_fifo q). }
  { apply has_priority_total; [done|]. rewrite Hlen. lia. }
  { assert (total q2 = total q) as -> by lia. done. }
  destruct (rounds es now q2) as [ds q3]. simpl in *. split_and!; [lia|congruence..].
Qed.

(** *** Two lanes that take turns, one envelope at a time *)
Fixpoint alternates (c : nat) (es : list WireEnvelope) : Prop :=
  match es with
  | [] => True
  | e :: es' => lane_of e = c ∧ is_stream e = false ∧ alternates (1 - c) es'
  end.
(** A fair queue whose cursor is on the empty lane [c], with a backlog in the
    background lane. *)
Definition backlog (maxc c : nat) (bs : list WireEnvelope) : OutboundPriorityQueue :=
  mkQueue [[]; []; []; []; bs] maxc 1 c None [] [] (length bs) 0.

Lemma backlog_round maxc c b bs e now :
  2 ≤ maxc → c ≤ 1 → lane_of e = 1 - c → is_stream e = false →
  ∃ q1, push now e (backlog maxc c (b :: bs)) = Ok q1 ∧
        pop now q1 = (Some e, backlog maxc (1 - c) (b :: bs)).
Proof.
  intros Hm Hc Hl Hs. unfold push. rewrite Hs. simpl.
  fold (lane_of e). rewrite Hl. eexists. split; [done|].
  unfold pop. simpl. rewrite Nat.add_1_r. simpl.
  destruct maxc as [|[|maxc]]; [lia..|].
  destruct c as [|[|c]]; [| |lia]; reflexivity.
Qed.

Lemma backlog_rounds maxc c b bs es now :
  2 ≤ maxc → c ≤ 1 → alternates (1 - c) es →
  ∃ c', rounds es now (backlog maxc c (b :: bs)) = (es, backlog maxc c' (b :: bs)).
Proof.
  revert c. induction es as [|e es IH]; intros c Hm Hc; cbn [alternates rounds];
    [by exists c|].
  intros (Hl & Hs & Halt).
  destruct (backlog_round maxc c b bs e now Hm Hc Hl Hs) as (q1 & -> & ->).
  destruct (IH (1 - c)) as [c' ->]; [done|lia|done|]. by exists c'.
Qed.

(** ** The properties *)
Module Spec.

(** A message with a priority header, and a stream item, for the witnesses. *)
Definition tell (p : Byte.byte) (b : bytes) : WireEnvelope :=
  mkWireEnvelope (mkActorId (mkNodeId "n") 1) "a" "M" Tell
    (WireHeaders_insert PRIORITY_HEADER_NAME [p] WireHeaders_new) b None None.
Definition item (b : bytes) : WireEnvelope :=
  mkWireEnvelope (mkActorId (mkNodeId "n") 1) "a" "M" Expand WireHeaders_new b None None.

(** C10. Over any sequence of pushes, pops and drains from a fresh queue, in
    every mode: what was accepted is what was handed out plus what the queue
    still holds (nothing lost, invented or duplicated); stream and feed items
    come out in exactly the order in which they went in; [len] counts the
    contents; and a bounded queue never exceeds its capacity. *)
Theorem queue_trace ops q :
  initial q →
  let t := run ops q in
  accepted t ≡ₚ delivered t ++ contents (queue t)
  ∧ streams (accepted t) = streams (delivered t) ++ stream_fifo (queue t)
  ∧ len (queue t) = length (contents (queue t))
  ∧ (0 < capacity (queue t) → len (queue t) ≤ capacity (queue t)).
Proof.
  intros [Hwf Hn]%initial_wf t. destruct (run_ok ops q Hwf Hn) as [Hw Hp Hf].
  split_and!; [done|done|apply Hw|apply Hw].
Qed.
Lemma queue_trace_witness :
  let t := run [OpPush 0 (tell x40 []); OpPush 1 (item [x01]); OpPush 2 (item [x02]);
                OpPop 3; OpDrain] (with_config 2 0) in
  accepted t ≡ₚ delivered t ++ contents (queue t)
  ∧ streams (accepted t) = streams (delivered t) ++ stream_fifo (queue t)
  ∧ len (queue t) = length (contents (queue t))
  ∧ (0 < capacity (queue t) → len (queue t) ≤ capacity (queue t)).
Proof. apply queue_trace. constructor. Defined.

(** Every envelope comes out: popping a reachable queue as many times as it
    has envelopes, at any clock values, hands out exactly its contents and
    leaves it empty; no pop in between fails. *)
Theorem pop_delivers_everything q nows :
  reachable q → length nows = len q →
  (pops nows q).1 ≡ₚ contents q ∧ is_empty (pops nows q).2 = true.
Proof.
  intros Hwf%reachable_wf Hl. unfold is_empty. unfold len in Hl.
  rewrite (wf_total q Hwf) in Hl. destruct (pops_all nows q Hwf Hl) as [? ->]. done.
Qed.
Definition busy : OutboundPriorityQueue :=
  queue (run [OpPush 0 (tell xff [x01]); OpPush 0 (item [x02]); OpPush 0 (tell x00 [x03])]
    (with_config 0 2)).
Lemma pop_delivers_everything_witness :
  (pops [5; 6; 7]%N busy).1 ≡ₚ contents busy ∧ is_empty (pops [5; 6; 7]%N busy).2 = true.
Proof.
  apply pop_delivers_everything; [apply reachable_run; constructor|reflexivity].
Defined.

(** Strict lane mode: with no stream item waiting, [pop] takes an envelope
    of the most urgent non-empty lane, and the oldest one of that lane. *)
Theorem strict_pop_order q now e q' :
  reachable q → comparer q = None → max_consecutive q = 0 → stream_fifo q = [] →
  pop now q = (Some e, q') →
  (∀ e', e' ∈ contents q → lane_of e ≤ lane_of e')
  ∧ lane q (lane_of e) = e :: lane q' (lane_of e).
Proof.
  intros Hwf%reachable_wf Hc Hm Hs Hp. pose proof (pop_Some_contents _ _ _ _ Hwf Hp).
  rewrite pop_only_priority in Hp by done. unfold pop_priority in Hp.
  rewrite Hc, Hm in Hp. by apply pop_strict_order.
Qed.
Definition two_lanes : OutboundPriorityQueue :=
  queue (run [OpPush 0 (tell xff [x01]); OpPush 0 (tell x40 [x02]); OpPush 0 (tell x50 [x03])] new).
Lemma strict_pop_order_witness :
  (∀ e', e' ∈ contents two_lanes → 1 ≤ lane_of e')
  ∧ lane two_lanes 1 = tell x40 [x02] :: lane (pop 9 two_lanes).2 1.
Proof.
  apply (strict_pop_order two_lanes 9 (tell x40 [x02])); try reflexivity.
  apply reachable_run. constructor.
Defined.

(** Age-aware comparer mode: with no stream item waiting, [pop] takes an
    envelope of the queue such that, if any waiting envelope has reached
    [max_age], the taken one has too and is the oldest; otherwise none waiting
    is more urgent. *)
Theorem aging_pop_order max_age q now e q' :
  reachable q → comparer q = Some (AgingWireComparer max_age) → stream_fifo q = [] →
  pop now q = (Some e, q') →
  ∃ x, x ∈ sorted q ∧ e = envelope x ∧ ∀ y, y ∈ sorted q →
    (aged max_age now y →
      aged max_age now x ∧ (enqueued_at (metadata x) <= enqueued_at (metadata y))%N)
    ∧ (¬ aged max_age now x → (priority (metadata x) <= priority (metadata y))%N).
Proof.
  intros Hwf%reachable_wf Hc Hs Hp. pose proof (pop_Some_contents _ _ _ _ Hwf Hp).
  rewrite pop_only_priority in Hp by done. unfold pop_priority in Hp. rewrite Hc in Hp.
  destruct (pop_comparer_aging _ _ _ _ _ Hwf Hc Hp) as (x & Hx & -> & Hmin).
  exists x. split_and!; [done..|]. intros y Hy. by apply aging_min, Hmin.
Qed.
Definition aging_queue : OutboundPriorityQueue :=
  queue (run [OpPush 0 (tell xff [x01]); OpPush 8 (tell x00 [x02])]
    (with_comparer (AgingWireComparer 10) 0)).
Lemma aging_pop_order_witness :
  ∃ x, x ∈ sorted aging_queue ∧ tell xff [x01] = envelope x ∧ ∀ y, y ∈ sorted aging_queue →
    (aged 10 12 y →
      aged 10 12 x ∧ (enqueued_at (metadata x) <= enqueued_at (metadata y))%N)
    ∧ (¬ aged 10 12 x → (priority (metadata x) <= priority (metadata y))%N).
Proof.
  apply (aging_pop_order 10 aging_queue 12 (tell xff [x01]) (pop 12 aging_queue).2);
    try reflexivity.
  apply reachable_run. constructor.
Defined.

(** C38. Fair lane mode, with stream items or without: over any operations on a
    queue during which one lane has something waiting all along, another lane
    is not served more than [max_consecutive] times in a row. What is served from
    the lanes is what is handed out less the stream items, which may come in
    between. *)
Theorem fair_mode_bound q ops j k :
  reachable q → comparer q = None → 0 < max_consecutive q → j ≠ k → j < LANE_COUNT →
  (∀ n, lane (queue (run (take n ops) q)) j ≠ []) →
  Forall (λ e, lane_of e = k) (served ops q) → length (served ops q) ≤ max_consecutive q.
Proof.
  intros Hwf%reachable_wf Hc Hmax Hne Hj Hwait Hall.
  pose proof (fair_level ops q j k Hwf Hc Hmax Hne Hj Hwait Hall). lia.
Qed.
(** Two lanes and stream items: the background envelope waits for two others. *)
Definition fair_queue : OutboundPriorityQueue :=
  queue (run [OpPush 0 (tell x00 [x01]); OpPush 0 (tell x00 [x02]); OpPush 0 (tell x00 [x03]);
              OpPush 0 (item [x04]); OpPush 0 (tell xff [x05])] (with_config 0 2)).
Lemma fair_mode_bound_witness :
  let ops := [OpPop 1; OpPop 2; OpPush 3 (item [x06]); OpPop 3; OpPop 4] in
  delivered (run ops fair_queue) = [tell x00 [x01]; item [x04]; item [x06]; tell x00 [x02]]
  ∧ length (served ops fair_queue) ≤ 2.
Proof.
  cbn zeta. split; [vm_compute; reflexivity|].
  apply (fair_mode_bound fair_queue _ 4 0); try done.
  - apply reachable_run. constructor.
  - vm_compute. lia.
  - vm_compute. lia.
  - intros n. destruct n as [|[|[|[|[|n]]]]]; [by vm_compute..|]. rewrite take_ge by (simpl; lia). by vm_compute.
  - vm_compute. by repeat constructor.
Defined.

(** The parity rule of [pop] does not keep one side from starving the
    other: as long as each pop is preceded by one push of a tell, an even
    queue hands out tells only, for ever, and the stream items stay where they
    are; and each pop preceded by one push of a stream item keeps an odd queue
    on the stream side, and the priority side stays where it is. *)
Theorem pop_parity_starves q now es :
  reachable q → capacity q = 0 → stream_fifo q ≠ [] → has_priority q = true →
  (total q mod 2 = 0 → Forall (λ e, is_stream e = false) es →
    length (rounds es now q).1 = length es ∧ streams (rounds es now q).1 = []
    ∧ stream_fifo (rounds es now q).2 = stream_fifo q)
  ∧ (total q mod 2 = 1 → Forall (λ e, is_stream e = true) es →
    length (rounds es now q).1 = length es
    ∧ lanes (rounds es now q).2 = lanes q ∧ sorted (rounds es now q).2 = sorted q).
Proof.
  intros Hwf%reachable_wf Hc Hs Hp. split; intros;
    [by apply rounds_starve_streams | by apply rounds_starve_priority].
Qed.
Definition mixed : OutboundPriorityQueue :=
  queue (run [OpPush 0 (item [x01]); OpPush 0 (tell x00 [x02])] new).
Lemma pop_parity_starves_witness :
  let es := replicate 20 (tell x80 []) in
  length (rounds es 0 mixed).1 = length es ∧ streams (rounds es 0 mixed).1 = []
  ∧ stream_fifo (rounds es 0 mixed).2 = stream_fifo mixed.
Proof.
  apply pop_parity_starves; try reflexivity; try done.
  - apply reachable_run. constructor.
  - by apply Forall_replicate.
Defined.

(** The bound of fair mode is on one lane only: two lanes that receive one
    envelope each in turn are served for ever, before a background lane whose
    backlog never moves, whatever the bound (two or more). *)
Theorem fair_mode_starves maxc b bs es now :
  2 ≤ maxc → alternates 1 es →
  ∃ c, rounds es now (backlog maxc 0 (b :: bs)) = (es, backlog maxc c (b :: bs)).
Proof. intros. apply backlog_rounds; [done|lia|done]. Qed.
Lemma fair_mode_starves_witness :
  (∃ c, rounds [tell x40 []; tell x00 []; tell x40 []] 0 (backlog 2 0 [tell xff []])
      = ([tell x40 []; tell x00 []; tell x40 []], backlog 2 c [tell xff []]))
  ∧ (** the backlog queue is one the operations produce *)
  (run [OpPush 0 (tell x00 []); OpPop 0; OpPush 0 (tell xff [])] (with_config 0 2)).(queue)
    = backlog 2 0 [tell xff []].
Proof.
  split; [|reflexivity].
  apply (fair_mode_starves 2 (tell xff []) []); [lia|]. by vm_compute.
Defined.
End Spec.
