(* ===== verification/Channel.v ===== *)
(** * Channels

    The bounded channels of tokio ([tokio::sync::mpsc]) are library code: the
    sending end is an interface, [Sender], with the documented behaviour the
    program relies on as the class [SenderLaws]. [sent] is the sequence of the
    values that have gone into the channel; it arrives in that order. The
    receiving end is the list of the values it will yield before the channel
    closes. [TestChan] is an instance. Where both ends are at work, [Receiver] is
    the other end of the same channel, and [BoundedQueue] an instance. *)
From S2P Require Import Prelude.

Inductive TrySendError := Full | Closed.

#[export] Instance TrySendError_eq_dec : EqDecision TrySendError.
Proof. solve_decision. Defined.

(** [mpsc_send] is [send(x).await] when it completes: [true] for [Ok(())].
    The receiver may go away at any time: this shows in the state a send
    returns. *)
Class Sender (T C : Type) := {
  mpsc_try_send : T → C → result TrySendError unit * C;
  mpsc_send : T → C → bool * C;
  mpsc_is_closed : C → bool;
  mpsc_max_capacity : C → nat;
  mpsc_capacity : C → nat;
  sent : C → list T
}.

Class SenderLaws (T C : Type) `{Sender T C} := {
  try_send_ok x c c' : mpsc_try_send x c = (Ok (), c') → sent c' = sent c ++ [x];
  try_send_err x c e c' : mpsc_try_send x c = (Err e, c') →
    c' = c ∧ match e with
             | Full => mpsc_capacity c = 0 ∧ mpsc_is_closed c = false
             | Closed => mpsc_is_closed c = true
             end;
  send_ok x c c' : mpsc_send x c = (true, c') → sent c' = sent c ++ [x];
  send_err x c c' : mpsc_send x c = (false, c') →
    sent c' = sent c ∧ mpsc_is_closed c' = true;
  send_closed x c : mpsc_is_closed c = true → mpsc_send x c = (false, c);
  send_open x c : mpsc_is_closed c = false → (mpsc_send x c).1 = true;
  capacity_le c : mpsc_capacity c ≤ mpsc_max_capacity c
}.

(** A sender that accepts everything, as long as the receiver lives. *)
Definition never_closes {T C} `{Sender T C} (c : C) (n : nat) : Prop :=
  ∀ xs : list T, length xs ≤ n →
    mpsc_is_closed (foldl (λ c x, (mpsc_send x c).2) c xs) = false.

Section never_closes.
Context {T C : Type} `{SenderLaws T C}.
Lemma never_closes_le (c : C) n k : n ≤ k → never_closes c k → never_closes c n.
Proof. intros ? Hc xs ?. apply Hc. lia. Qed.
Lemma never_closes_send x (c : C) n :
  never_closes c (S n) →
  ∃ c', mpsc_send x c = (true, c') ∧ sent c' = sent c ++ [x] ∧ never_closes c' n.
Proof.
  intros Hopen. pose proof (send_open x c (Hopen [] ltac:(simpl; lia))) as Ht.
  destruct (mpsc_send x c) as [b c'] eqn:Hx. simpl in Ht. subst b. exists c'.
  split_and!; [done|by apply send_ok|]. intros xs Hxs.
  pose proof (Hopen (x :: xs) ltac:(simpl; lia)) as Hy. simpl in Hy. by rewrite Hx in Hy.
Qed.
End never_closes.

(** ** An instance: the receiver takes [tc_accepts] more values and is dropped *)
Record TestChan (T : Type) := mkTestChan {
  tc_sent : list T; tc_queued : nat; tc_max : nat; tc_accepts : nat
}.
Arguments mkTestChan {T}.
Arguments tc_sent {T}.
Arguments tc_queued {T}.
Arguments tc_max {T}.
Arguments tc_accepts {T}.

#[export] Instance TestChan_Sender T : Sender T (TestChan T) := {|
  mpsc_try_send x c :=
    match tc_accepts c with
    | 0 => (Err Closed, c)
    | S n =>
        if (tc_queued c <? tc_max c)%nat
        then (Ok (), mkTestChan (tc_sent c ++ [x]) (S (tc_queued c)) (tc_max c) n)
        else (Err Full, c)
    end;
  mpsc_send x c :=
    match tc_accepts c with
    | 0 => (false, c)
    | S n => (true, mkTestChan (tc_sent c ++ [x]) (tc_queued c) (tc_max c) n)
    end;
  mpsc_is_closed c := (tc_accepts c =? 0)%nat;
  mpsc_max_capacity c := tc_max c;
  mpsc_capacity c := tc_max c - tc_queued c;
  sent := tc_sent
|}.

#[export] Instance TestChan_laws T : SenderLaws T (TestChan T).
Proof.
  split; intros; simpl in *; repeat (case_match; simplify_eq/=); try done; bN; try lia.
  - split_and!; [done|lia|done].
  - split; [done|]. by apply Nat.eqb_eq.
Qed.

(** ** Unbounded channels
    [tokio::sync::mpsc::unbounded_channel]: [unbounded_recv] is one poll of
    [recv()], [None] when nothing is there yet; [unbounded_drop] drops the
    receiver, and with it the values that wait. [queued] are the values sent and
    not received. *)
Class UnboundedChannel (X U : Type) := {
  unbounded_send : X → U → bool * U;
  unbounded_closed : U → bool;
  unbounded_recv : U → option X * U;
  unbounded_drop : U → U;
  queued : U → list X
}.

Class UnboundedLaws (X U : Type) `{UnboundedChannel X U} := {
  unbounded_send_open x u : unbounded_closed u = false →
    ∃ u', unbounded_send x u = (true, u') ∧ queued u' = queued u ++ [x]
      ∧ unbounded_closed u' = false;
  unbounded_send_closed x u : unbounded_closed u = true → unbounded_send x u = (false, u);
  unbounded_recv_queued u :
    match queued u with
    | [] => unbounded_recv u = (None, u)
    | x :: q => ∃ u', unbounded_recv u = (Some x, u') ∧ queued u' = q
        ∧ unbounded_closed u' = unbounded_closed u
    end;
  unbounded_dropped u : unbounded_closed (unbounded_drop u) = true
}.

(** An instance: the values that wait, and whether the receiver lives. *)
Record TestQueue (X : Type) := mkTestQueue { tq_values : list X; tq_open : bool }.
Arguments mkTestQueue {X}.
Arguments tq_values {X}.
Arguments tq_open {X}.

#[export] Instance TestQueue_channel X : UnboundedChannel X (TestQueue X) := {|
  unbounded_send x u := if tq_open u then (true, mkTestQueue (tq_values u ++ [x]) true) else (false, u);
  unbounded_closed u := negb (tq_open u);
  unbounded_recv u :=
    match tq_values u with
    | [] => (None, u)
    | x :: q => (Some x, mkTestQueue q (tq_open u))
    end;
  unbounded_drop u := mkTestQueue [] false;
  queued := tq_values
|}.
#[export] Instance TestQueue_laws X : UnboundedLaws X (TestQueue X).
Proof.
  split; try intros x [q []]; try done.
  - intros _. by exists (mkTestQueue (q ++ [x]) true).
  - intros [[|x q] o]; [done|]. by exists (mkTestQueue q o).
Qed.

(** ** The receiving end of a bounded channel
    As for the unbounded ones: [waiting] are the values sent and not received. *)
Class Receiver (X C : Type) := {
  mpsc_recv : C → option X * C;
  mpsc_drop : C → C;
  waiting : C → list X
}.

Class ReceiverLaws (X C : Type) `{Sender X C} `{Receiver X C} := {
  try_send_waiting x c c' : mpsc_try_send x c = (Ok (), c') →
    mpsc_is_closed c = false ∧ mpsc_is_closed c' = false ∧ waiting c' = waiting c ++ [x];
  mpsc_recv_waiting c :
    match waiting c with
    | [] => mpsc_recv c = (None, c)
    | x :: q => ∃ c', mpsc_recv c = (Some x, c') ∧ waiting c' = q
        ∧ mpsc_is_closed c' = mpsc_is_closed c
    end;
  mpsc_dropped c : mpsc_is_closed (mpsc_drop c) = true
}.

(** An instance with both ends: a queue of at most [bq_max] values. *)
Record BoundedQueue (X : Type) := mkBoundedQueue {
  bq_sent : list X; bq_values : list X; bq_max : nat; bq_open : bool
}.
Arguments mkBoundedQueue {X}.
Arguments bq_sent {X}.
Arguments bq_values {X}.
Arguments bq_max {X}.
Arguments bq_open {X}.

#[export] Instance BoundedQueue_Sender X : Sender X (BoundedQueue X) := {|
  mpsc_try_send x c :=
    if negb (bq_open c) then (Err Closed, c)
    else if (length (bq_values c) <? bq_max c)%nat
         then (Ok (), mkBoundedQueue (bq_sent c ++ [x]) (bq_values c ++ [x]) (bq_max c) true)
         else (Err Full, c);
  mpsc_send x c :=
    if bq_open c
    then (true, mkBoundedQueue (bq_sent c ++ [x]) (bq_values c ++ [x]) (bq_max c) true)
    else (false, c);
  mpsc_is_closed c := negb (bq_open c);
  mpsc_max_capacity c := bq_max c;
  mpsc_capacity c := bq_max c - length (bq_values c);
  sent := bq_sent
|}.
#[export] Instance BoundedQueue_Receiver X : Receiver X (BoundedQueue X) := {|
  mpsc_recv c :=
    match bq_values c with
    | [] => (None, c)
    | x :: q => (Some x, mkBoundedQueue (bq_sent c) q (bq_max c) (bq_open c))
    end;
  mpsc_drop c := mkBoundedQueue (bq_sent c) [] (bq_max c) false;
  waiting := bq_values
|}.
#[export] Instance BoundedQueue_laws X : SenderLaws X (BoundedQueue X).
Proof.
  split; try intros x [s q n []]; try intros [s q n o]; simpl; try done; try lia; intros;
    try (case_match; bN); simplify_eq/=; try done; split_and?; done || lia.
Qed.
#[export] Instance BoundedQueue_receiver_laws X : ReceiverLaws X (BoundedQueue X).
Proof.
  split; [intros x [s q n []]|intros [s [|x q] n o]|done]; simpl; intros; try case_match;
    simplify_eq/=; eauto.
Qed.
