(* ===== verification/Mailbox.v ===== *)
(** * Mailboxes (dactor/src/mailbox.rs, dactor/src/runtime_support.rs)

    The capacity configuration, the priority comparer and the bounded sender
    that adapters put in front of an actor's mailbox. *)
From S2P Require Import Prelude Node Channel.

#[local] Open Scope string_scope.
#[local] Open Scope list_scope.
#[local] Open Scope nat_scope.

Inductive OverflowStrategy := Block | RejectWithError | DropNewest.

#[export] Instance OverflowStrategy_eq_dec : EqDecision OverflowStrategy.
Proof. solve_decision. Defined.

Inductive MailboxConfig := Unbounded | Bounded (capacity : nat) (overflow : OverflowStrategy).

Definition MailboxConfig_default : MailboxConfig := Unbounded.
(** [None] is the panic of the assertion. *)
Definition bounded (capacity : nat) (overflow : OverflowStrategy) : option MailboxConfig :=
  if (0 <? capacity)%nat then Some (Bounded capacity overflow) else None.

(** [MessageComparer::compare]. *)
Definition MessageComparer := N → N → comparison.
Definition StrictPriorityComparer : MessageComparer := λ a_priority b_priority,
  (a_priority ?= b_priority)%N.

(** ** Bounded mailbox sender *)
Section sender.
Context {T C : Type} `{Sender T C}.

Record BoundedMailboxSender := mkBoundedMailboxSender { tx : C; overflow : OverflowStrategy }.

Definition BoundedMailboxSender_new (c : C) (o : OverflowStrategy) : BoundedMailboxSender :=
  mkBoundedMailboxSender c o.

Definition try_send (msg : T) (s : BoundedMailboxSender) :
    result ActorSendError unit * BoundedMailboxSender :=
  let '(r, c) := mpsc_try_send msg (tx s) in
  (match r with
   | Ok _ => Ok ()
   | Err Full =>
       match overflow s with
       | RejectWithError => Err (mkActorSendError "mailbox full")
       | DropNewest => Ok ()
       | Block => Err (mkActorSendError "mailbox full (Block not supported in sync tell)")
       end
   | Err Closed => Err (mkActorSendError "actor stopped")
   end, mkBoundedMailboxSender c (overflow s)).

Definition mailbox_is_closed (s : BoundedMailboxSender) : bool := mpsc_is_closed (tx s).
Definition pending (s : BoundedMailboxSender) : nat :=
  mpsc_max_capacity (tx s) - mpsc_capacity (tx s).
End sender.
Arguments BoundedMailboxSender C : clear implicits.

(** ** Lemmas *)
Section sender_lemmas.
Context {T C : Type} `{SenderLaws T C}.

(** [BoundedMailboxSender::try_send], every branch: an accepted message is
    at the end of the channel; the only accepted message that is not there is
    one dropped because the mailbox is full under [DropNewest]; every error
    leaves the channel as it was, and its text tells a stopped actor from a
    full mailbox. *)
Lemma try_send_cases (msg : T) (s s' : BoundedMailboxSender C) r :
  try_send msg s = (r, s') →
  overflow s' = overflow s ∧
  match r with
  | Ok _ =>
      sent (tx s') = (sent (tx s) ++ [msg])%list
      ∨ (s' = s ∧ overflow s = DropNewest ∧ mpsc_capacity (tx s) = 0 ∧ mailbox_is_closed s = false)
  | Err e =>
      s' = s ∧
      if mailbox_is_closed s then e = mkActorSendError "actor stopped"
      else mpsc_capacity (tx s) = 0 ∧ overflow s ≠ DropNewest
           ∧ e = mkActorSendError (if decide (overflow s = Block)
                   then "mailbox full (Block not supported in sync tell)" else "mailbox full")
  end.
Proof.
  unfold try_send, mailbox_is_closed. destruct s as [c o]. simpl.
  destruct (mpsc_try_send msg c) as [[[]|e] c'] eqn:Ht; simpl.
  - intros [= <- <-]. split; [done|]. left. by apply try_send_ok in Ht.
  - apply try_send_err in Ht as [-> He]. destruct e; [destruct He as [Hc ->]|rewrite He].
    + destruct o; intros [= <- <-]; simpl; naive_solver.
    + intros [= <- <-]. naive_solver.
Qed.
End sender_lemmas.
