(* ===== verification/Task.v ===== *)
(** * Asynchronous tasks

    Rust's futures, for the code that awaits, catches panics and races a future
    against a cancellation token. A [Task] owns a local state [L] (what the
    [async fn] borrows mutably) and runs on a shared world [W]; polled once it
    is ready, it panics, or it is pending with the rest of the work. Between
    two polls the environment changes the world ([env n] at the [n]-th
    suspension): other tasks run, messages arrive, a token is cancelled. A task
    is finite, so running it terminates. [catch_unwind] and [select_biased] are
    the combinators of the futures crate and of tokio that the adapters use. *)
From S2P Require Import Prelude.

#[local] Open Scope list_scope.
#[local] Open Scope nat_scope.

(** ** Tasks *)
Inductive Poll (K X : Type) :=
  | Ready (x : X)
  | Panicked
  | Pending (k : K).
Arguments Ready {K X} x.
Arguments Panicked {K X}.
Arguments Pending {K X} k.

Inductive Task (L W X : Type) :=
  | Await (f : L → W → L * W * Poll (Task L W X) X).
Arguments Await {L W X} f.

Section task.
Context {L W : Type}.

Definition poll_task {X} (t : Task L W X) : L → W → L * W * Poll (Task L W X) X :=
  match t with Await f => f end.

Definition ret {X} (x : X) : Task L W X := Await (λ l w, (l, w, Ready x)).
Definition panic_now {X} : Task L W X := Await (λ l w, (l, w, Panicked)).
(** A synchronous step. *)
Definition sync {X} (f : L → W → L * W * X) : Task L W X :=
  Await (λ l w, let '(l, w, x) := f l w in (l, w, Ready x)).
(** Return to the executor once. *)
Definition yield_now : Task L W () := Await (λ l w, (l, w, Pending (ret ()))).

Fixpoint bind {X Y} (t : Task L W X) (g : X → Task L W Y) : Task L W Y :=
  match t with
  | Await f => Await (λ l w,
      match f l w with
      | (l, w, Ready x) => poll_task (g x) l w
      | (l, w, Panicked) => (l, w, Panicked)
      | (l, w, Pending k) => (l, w, Pending (bind k g))
      end)
  end.

(** [AssertUnwindSafe(fut).catch_unwind()]: [None] is the panic. *)
Fixpoint catch_unwind {X} (t : Task L W X) : Task L W (option X) :=
  match t with
  | Await f => Await (λ l w,
      match f l w with
      | (l, w, Ready x) => (l, w, Ready (Some x))
      | (l, w, Panicked) => (l, w, Ready None)
      | (l, w, Pending k) => (l, w, Pending (catch_unwind k))
      end)
  end.

(** [select! { biased; r = fut => Some(r), _ = token.cancelled() => None }]: at
    every poll the future goes first; the token is looked at only when the
    future is pending, and a future that loses is dropped where it is. *)
Fixpoint select_biased {X} (token : W → bool) (t : Task L W X) : Task L W (option X) :=
  match t with
  | Await f => Await (λ l w,
      match f l w with
      | (l, w, Ready x) => (l, w, Ready (Some x))
      | (l, w, Panicked) => (l, w, Panicked)
      | (l, w, Pending k) =>
          if token w then (l, w, Ready None) else (l, w, Pending (select_biased token k))
      end)
  end.
End task.
Arguments Task : clear implicits.

#[export] Instance Task_ret {L W} : MRet (Task L W) := λ X x, ret x.
#[export] Instance Task_bind {L W} : MBind (Task L W) := λ X Y g t, bind t g.

(** A task on part of the local state. *)
Fixpoint on_fst {L E W X} (t : Task L W X) : Task (L * E) W X :=
  match t with
  | Await f => Await (λ l w,
      match f l.1 w with
      | (l1, w, Ready x) => ((l1, l.2), w, Ready x)
      | (l1, w, Panicked) => ((l1, l.2), w, Panicked)
      | (l1, w, Pending k) => ((l1, l.2), w, Pending (on_fst k))
      end)
  end.

(** ** Running a task *)
Section run.
Context {L W : Type} (env : nat → W → W).

(** The number of suspensions so far, the states, and the value unless the
    task panicked. *)
Record ran (X : Type) := mkRan { tick : nat; loc : L; world : W; out : option X }.
#[global] Arguments mkRan {X}.
#[global] Arguments tick {X}.
#[global] Arguments loc {X}.
#[global] Arguments world {X}.
#[global] Arguments out {X}.

Fixpoint run {X} (n : nat) (t : Task L W X) (l : L) (w : W) : ran X :=
  match t with
  | Await f =>
      match f l w with
      | (l, w, Ready x) => mkRan n l w (Some x)
      | (l, w, Panicked) => mkRan n l w None
      | (l, w, Pending k) => run (S n) k l (env n w)
      end
  end.

(** Continue a run with a task. *)
Definition run_then {X Y} (r : ran X) (g : X → Task L W Y) : ran Y :=
  match out r with
  | Some x => run (tick r) (g x) (loc r) (world r)
  | None => mkRan (tick r) (loc r) (world r) None
  end.

Lemma run_poll {X} n (t : Task L W X) l w :
  run n t l w = match poll_task t l w with
                | (l, w, Ready x) => mkRan n l w (Some x)
                | (l, w, Panicked) => mkRan n l w None
                | (l, w, Pending k) => run (S n) k l (env n w)
                end.
Proof. by destruct t. Qed.

Lemma run_ret {X} n (x : X) l w : run n (ret x) l w = mkRan n l w (Some x).
Proof. done. Qed.
Lemma run_mret {X} n (x : X) l w : run n (mret x) l w = mkRan n l w (Some x).
Proof. done. Qed.
Lemma run_panic {X} n l w : run n (@panic_now _ _ X) l w = mkRan n l w None.
Proof. done. Qed.
Lemma run_yield n l w : run n yield_now l w = mkRan (S n) l (env n w) (Some ()).
Proof. done. Qed.
Lemma run_sync {X} n (f : L → W → L * W * X) l w :
  run n (sync f) l w = let '(l, w, x) := f l w in mkRan n l w (Some x).
Proof. simpl. by destruct (f l w) as [[??]?]. Qed.
End run.
Arguments ran : clear implicits.

(** A case analysis on what one poll does, for tasks that follow another. *)
Ltac poll_cases f l w :=
  let l1 := fresh "l" in let w1 := fresh "w" in
  let x := fresh "x" in let k := fresh "k" in
  destruct (f l w) as [[l1 w1] [x| |k]].

Section run_lemmas.
Context {L W : Type} (env : nat → W → W).

(** Induction on a task: the continuations a poll can leave are smaller. *)
Lemma Task_poll_ind {X} (P : Task L W X → Prop) :
  (∀ f, (∀ l w l' w' k, f l w = (l', w', Pending k) → P k) → P (Await f)) → ∀ t, P t.
Proof.
  intros Hstep. fix IH 1. intros [f]. apply Hstep. intros l w l' w' k Hk.
  pose proof (match f l w as r return
    match r.2 with Pending k => P k | _ => True end with
    | (_, _, Pending k) => IH k | _ => I end) as HP.
  by rewrite Hk in HP.
Qed.

Lemma run_bind {X Y} n (t : Task L W X) (g : X → Task L W Y) l w :
  run env n (t ≫= g) l w = run_then env (run env n t l w) g.
Proof.
  revert n l w. induction t as [f IH] using Task_poll_ind. intros n l w.
  unfold mbind, Task_bind in *. simpl. destruct (f l w) as [[l1 w1] [x| |k]] eqn:Hf; [|done|].
  - unfold run_then. simpl. by rewrite run_poll.
  - exact (IH _ _ _ _ _ Hf (S n) l1 (env n w1)).
Qed.

Lemma run_catch {X} n (t : Task L W X) l w :
  run env n (catch_unwind t) l w
  = let r := run env n t l w in mkRan (tick r) (loc r) (world r) (Some (out r)).
Proof.
  revert n l w. induction t as [f IH] using Task_poll_ind. intros n l w. simpl.
  destruct (f l w) as [[l1 w1] [x| |k]] eqn:Hf; [done..|]. by rewrite (IH _ _ _ _ _ Hf).
Qed.

Lemma run_on_fst {E X} n (t : Task L W X) (l : L * E) w :
  run env n (on_fst t) l w
  = let r := run env n t l.1 w in mkRan (tick r) (loc r, l.2) (world r) (out r).
Proof.
  revert n l w. induction t as [f IH] using Task_poll_ind. intros n l w. simpl.
  destruct (f l.1 w) as [[l1 w1] [x| |k]] eqn:Hf; [done..|]. by rewrite (IH _ _ _ _ _ Hf).
Qed.

(** A race whose token is never set is the future itself. *)
Lemma run_select_never {X} n (t : Task L W X) (token : W → bool) l w :
  (∀ w, token w = false) →
  run env n (select_biased token t) l w
  = let r := run env n t l w in mkRan (tick r) (loc r) (world r) (Some <$> out r).
Proof.
  intros Hn. revert n l w. induction t as [f IH] using Task_poll_ind. intros n l w. simpl.
  destruct (f l w) as [[l1 w1] [x| |k]] eqn:Hf; [done..|].
  rewrite Hn. by rewrite (IH _ _ _ _ _ Hf).
Qed.

(** A task that loses the race has been run for some polls and is dropped. The
    relation is a run of the task that stops at a suspension. *)
Inductive suspends {X} : nat → Task L W X → L → W → nat → L → W → Prop :=
  | suspends_here n f l w l' w' k :
      f l w = (l', w', Pending k) → suspends n (Await f) l w n l' w'
  | suspends_later n f l w l' w' k m l'' w'' :
      f l w = (l', w', Pending k) → suspends (S n) k l' (env n w') m l'' w'' →
      suspends n (Await f) l w m l'' w''.

Lemma run_select {X} n (t : Task L W X) (token : W → bool) l w :
  let r := run env n (select_biased token t) l w in
  let r0 := run env n t l w in
  match out r with
  | Some (Some x) => r = mkRan (tick r0) (loc r0) (world r0) (Some (Some x)) ∧ out r0 = Some x
  | Some None => token (world r) = true ∧ suspends n t l w (tick r) (loc r) (world r)
  | None => r = mkRan (tick r0) (loc r0) (world r0) None ∧ out r0 = None
  end.
Proof.
  revert n l w. induction t as [f IH] using Task_poll_ind. intros n l w. simpl.
  destruct (f l w) as [[l1 w1] [x| |k]] eqn:Hf; simpl; [done..|].
  destruct (token w1) eqn:Ht; simpl.
  { split; [done|]. by eapply suspends_here. }
  specialize (IH _ _ _ _ _ Hf (S n) l1 (env n w1)). simpl in IH.
  destruct (out (run env (S n) (select_biased token k) l1 (env n w1))) as [[x|]|]; try done.
  destruct IH as [??]. split; [done|]. by eapply suspends_later.
Qed.


Lemma suspends_catch {X} n (t : Task L W X) l w m l' w' :
  suspends n (catch_unwind t) l w m l' w' → suspends n t l w m l' w'.
Proof.
  revert n l w. induction t as [f IH] using Task_poll_ind. intros n l w Hs.
  inversion Hs as [? ? ? ? ? ? ? Hf|? ? ? ? l1 w1 k' ? ? ? Hf Hk]; subst; clear Hs;
    destruct (f l w) as [[l2 w2] [x| |kk]] eqn:Hfl; simplify_eq.
  - by eapply suspends_here.
  - eapply suspends_later; [exact Hfl|]. by eapply IH.
Qed.
End run_lemmas.

Lemma suspends_on_fst {L W E X} (env : nat → W → W) n (t : Task L W X) (l : L * E) w m l' w' :
  suspends env n (on_fst t) l w m l' w' → suspends env n t l.1 w m l'.1 w' ∧ l'.2 = l.2.
Proof.
  revert n l w. induction t as [f IH] using Task_poll_ind. intros n l w Hs.
  inversion Hs as [? ? ? ? ? ? ? Hf|? ? ? ? l1 w1 k' ? ? ? Hf Hk]; subst; clear Hs;
    destruct (f l.1 w) as [[l2 w2] [x| |kk]] eqn:Hfl; simplify_eq.
  - split; [|done]. by eapply suspends_here.
  - destruct (IH _ _ _ _ _ Hfl _ _ _ Hk) as [? ->]. split; [|done].
    by eapply suspends_later.
Qed.


(** ** A Hoare logic
    [hoare P I Q t]: polled first where [P] holds, and later wherever [I] does,
    [t] suspends and panics where [I] holds and ends with a value and a state in
    [Q]. The environment may do at a suspension whatever preserves [I]. *)
Section hoare.
Context {L W : Type}.
Implicit Types P I : L → W → Prop.

Fixpoint keeps {X} I (Q : X → L → W → Prop) (t : Task L W X) : Prop :=
  match t with
  | Await f => ∀ l w, I l w →
      match f l w with
      | (l, w, Ready x) => Q x l w
      | (l, w, Panicked) => I l w
      | (l, w, Pending k) => I l w ∧ keeps I Q k
      end
  end.
Definition hoare {X} P I (Q : X → L → W → Prop) (t : Task L W X) : Prop :=
  ∀ l w, P l w →
    match poll_task t l w with
    | (l, w, Ready x) => Q x l w
    | (l, w, Panicked) => I l w
    | (l, w, Pending k) => I l w ∧ keeps I Q k
    end.

Lemma hoare_keeps {X} I Q (t : Task L W X) : hoare I I Q t ↔ keeps I Q t.
Proof. by destruct t. Qed.

Lemma hoare_ret {X} P I (Q : X → L → W → Prop) x :
  (∀ l w, P l w → Q x l w) → hoare P I Q (mret x).
Proof. intros HQ l w HP. by apply HQ. Qed.
Lemma hoare_panic {X} P I (Q : X → L → W → Prop) :
  (∀ l w, P l w → I l w) → hoare P I Q panic_now.
Proof. intros HQ l w HP. by apply HQ. Qed.
Lemma hoare_sync {X} P I (Q : X → L → W → Prop) (f : L → W → L * W * X) :
  (∀ l w, P l w → match f l w with (l, w, x) => Q x l w end) → hoare P I Q (sync f).
Proof.
  intros HQ l w HP. specialize (HQ l w HP). simpl. by destruct (f l w) as [[??]?].
Qed.
Lemma hoare_yield P I (Q : () → L → W → Prop) :
  (∀ l w, P l w → I l w) → (∀ l w, I l w → Q () l w) → hoare P I Q yield_now.
Proof. intros HI HQ l w HP. simpl. split; [by apply HI|]. exact HQ. Qed.

Lemma keeps_mono {X} I (Q Q' : X → L → W → Prop) t :
  (∀ x l w, Q x l w → Q' x l w) → keeps I Q t → keeps I Q' t.
Proof.
  intros HQ. induction t as [f IH] using Task_poll_ind. simpl. intros Hk l w HI.
  specialize (Hk l w HI). destruct (f l w) as [[l1 w1] [x| |k]] eqn:Hf; [by apply HQ|done|].
  destruct Hk as [? Hk]. split; [done|]. by eapply IH.
Qed.
Lemma hoare_mono {X} P P' I (Q Q' : X → L → W → Prop) t :
  (∀ l w, P' l w → P l w) → (∀ x l w, Q x l w → Q' x l w) →
  hoare P I Q t → hoare P' I Q' t.
Proof.
  intros HP HQ Ht l w HP'. specialize (Ht l w (HP _ _ HP')).
  destruct (poll_task t l w) as [[l1 w1] [x| |k]]; [by apply HQ|done|].
  destruct Ht as [? Hk]. split; [done|]. by eapply keeps_mono.
Qed.

Lemma keeps_bind {X Y} I (Rx : X → L → W → Prop) (Q : Y → L → W → Prop) t g :
  keeps I Rx t → (∀ x, hoare (Rx x) I Q (g x)) → keeps I Q (bind t g).
Proof.
  intros Ht Hg. induction t as [f IH] using Task_poll_ind. simpl. intros l w HI.
  specialize (Ht l w HI). destruct (f l w) as [[l1 w1] [x| |k]] eqn:Hf; [by apply Hg|done|].
  destruct Ht as [? Hk]. split; [done|]. by eapply IH.
Qed.
Lemma hoare_bind {X Y} P I (Rx : X → L → W → Prop) (Q : Y → L → W → Prop) t (g : X → Task L W Y) :
  hoare P I Rx t → (∀ x, hoare (Rx x) I Q (g x)) → hoare P I Q (t ≫= g).
Proof.
  intros Ht Hg l w HP. specialize (Ht l w HP). unfold mbind, Task_bind. destruct t as [f].
  simpl in *. destruct (f l w) as [[l1 w1] [x| |k]]; [by apply Hg|done|].
  destruct Ht as [? Hk]. split; [done|]. by eapply keeps_bind.
Qed.

(** What a combinator makes of a value, a panic or a lost race. *)
Definition caught {X} I (Q : X → L → W → Prop) (o : option X) : L → W → Prop :=
  match o with Some x => Q x | None => I end.

Lemma hoare_catch {X} P I (Q : X → L → W → Prop) t :
  hoare P I Q t → hoare P I (caught I Q) (catch_unwind t).
Proof.
  assert (∀ t, keeps I Q t → keeps I (caught I Q) (catch_unwind t)) as Hkeeps.
  { clear t. intros t. induction t as [f IH] using Task_poll_ind. simpl. intros Hk l w HI.
    specialize (Hk l w HI). destruct (f l w) as [[l1 w1] [x| |k]] eqn:Hf; [done..|].
    destruct Hk as [? Hk]. split; [done|]. by eapply IH. }
  intros Ht l w HP. specialize (Ht l w HP). destruct t as [f]. simpl in *.
  destruct (f l w) as [[l1 w1] [x| |k]]; [done..|]. destruct Ht as [? Hk]. auto.
Qed.
Lemma hoare_select {X} P I (Q : X → L → W → Prop) token t :
  hoare P I Q t → hoare P I (caught I Q) (select_biased token t).
Proof.
  assert (∀ t, keeps I Q t → keeps I (caught I Q) (select_biased token t)) as Hkeeps.
  { clear t. intros t. induction t as [f IH] using Task_poll_ind. simpl. intros Hk l w HI.
    specialize (Hk l w HI). destruct (f l w) as [[l1 w1] [x| |k]] eqn:Hf; [done..|].
    destruct Hk as [? Hk]. destruct (token w1); [done|]. split; [done|]. by eapply IH. }
  intros Ht l w HP. specialize (Ht l w HP). destruct t as [f]. simpl in *.
  destruct (f l w) as [[l1 w1] [x| |k]]; [done..|]. destruct Ht as [? Hk].
  destruct (token w1); auto.
Qed.

Lemma run_hoare {X} (env : nat → W → W) P I (Q : X → L → W → Prop) n t l w :
  (∀ n l w, I l w → I l (env n w)) → hoare P I Q t → P l w →
  let r := run env n t l w in caught I Q (out r) (loc r) (world r).
Proof.
  intros Henv. assert (∀ t n l w, keeps I Q t → I l w →
    caught I Q (out (run env n t l w)) (loc (run env n t l w)) (world (run env n t l w))) as Hk.
  { clear t n l w. intros t. induction t as [f IH] using Task_poll_ind. simpl.
    intros n l w Hk HI. specialize (Hk l w HI).
    destruct (f l w) as [[l1 w1] [x| |k]] eqn:Hf; [done..|]. destruct Hk as [? Hk].
    eapply IH; eauto. }
  intros Ht HP. simpl. specialize (Ht l w HP). rewrite run_poll.
  destruct (poll_task t l w) as [[l1 w1] [x| |k]]; [done..|]. destruct Ht as [? ?]. by apply Hk; auto.
Qed.
End hoare.

(** The part of the local state that a task cannot touch. *)
Lemma hoare_on_fst {L E W X} (P I : L → W → Prop) (Q : X → L → W → Prop) (J : E → Prop) t :
  hoare P I Q t →
  hoare (λ (l : L * E) w, P l.1 w ∧ J l.2) (λ l w, I l.1 w ∧ J l.2)
    (λ x l w, Q x l.1 w ∧ J l.2) (on_fst t).
Proof.
  assert (∀ t, keeps I Q t → keeps (λ (l : L * E) w, I l.1 w ∧ J l.2)
    (λ x l w, Q x l.1 w ∧ J l.2) (on_fst t)) as Hkeeps.
  { clear t. intros t. induction t as [f IH] using Task_poll_ind. simpl. intros Hk l w [HI HJ].
    specialize (Hk _ w HI). destruct (f l.1 w) as [[l1 w1] [x| |k]] eqn:Hf; [done..|].
    destruct Hk as [? Hk]. split; [done|]. by eapply IH. }
  intros Ht l w [HP HJ]. specialize (Ht _ w HP). destruct t as [f]. simpl in *.
  destruct (f l.1 w) as [[l1 w1] [x| |k]]; [done..|]. destruct Ht as [? Hk]. auto.
Qed.

(** ** Total correctness, poll by poll
    [settles K Q t l]: polled from [l] in any world, [t] panics or is ready with
    a value and a change of the world in [Q], or it is pending after a change in
    [K] and settles from where it is. Since a task is finite, it gets there. *)
Section settles.
Context {L W : Type} (K : W → W → Prop).

Fixpoint settles {X} (Q : option X → L → W → W → Prop) (t : Task L W X) (l : L) : Prop :=
  match t with
  | Await f => ∀ w,
      match f l w with
      | (l, w', Ready x) => Q (Some x) l w w'
      | (l, w', Panicked) => Q None l w w'
      | (l, w', Pending k) => K w w' ∧ settles Q k l
      end
  end.

(** One poll of [t] in [w], when the poll of the whole began in [w0]. *)
Definition resumes {X} (Q : option X → L → W → W → Prop) (t : Task L W X) (l : L) (w0 w : W) : Prop :=
  match poll_task t l w with
  | (l, w', Ready x) => Q (Some x) l w0 w'
  | (l, w', Panicked) => Q None l w0 w'
  | (l, w', Pending k) => K w0 w' ∧ settles Q k l
  end.
Lemma settles_poll {X} (Q : option X → L → W → W → Prop) t l :
  settles Q t l ↔ ∀ w, resumes Q t l w w.
Proof. by destruct t. Qed.

(** [Q] says nothing about what happened before the last poll. *)
Definition absorbs {X} (Q : option X → L → W → W → Prop) : Prop :=
  ∀ o l w w1 w2, K w w1 → Q o l w1 w2 → Q o l w w2.
Lemma resumes_settles {X} (Q : option X → L → W → W → Prop) t l w0 w :
  absorbs Q → transitive W K → K w0 w → settles Q t l → resumes Q t l w0 w.
Proof.
  intros Hab Htr HK Ht. rewrite settles_poll in Ht. specialize (Ht w). unfold resumes in *.
  destruct (poll_task t l w) as [[l1 w1] [x| |k]]; [by eapply Hab..|].
  destruct Ht. split; [by eapply Htr|done].
Qed.

Lemma settles_mono {X} (Q Q' : option X → L → W → W → Prop) t l :
  (∀ o l w w', Q o l w w' → Q' o l w w') → settles Q t l → settles Q' t l.
Proof.
  intros HQ. revert l. induction t as [f IH] using Task_poll_ind. simpl. intros l Ht w.
  specialize (Ht w). destruct (f l w) as [[l1 w1] [x| |k]] eqn:Hf; [by apply HQ..|].
  destruct Ht as [? Ht]. split; [done|]. by eapply IH.
Qed.
Lemma settles_bind {X Y} (Q1 : option X → L → W → W → Prop) (Q : option Y → L → W → W → Prop)
    t (g : X → Task L W Y) l :
  settles Q1 t l →
  (∀ x l w0 w, Q1 (Some x) l w0 w → resumes Q (g x) l w0 w) →
  (∀ l w0 w, Q1 None l w0 w → Q None l w0 w) →
  settles Q (t ≫= g) l.
Proof.
  intros Ht Hg Hp. revert l Ht. unfold mbind, Task_bind.
  induction t as [f IH] using Task_poll_ind. simpl. intros l Ht w.
  specialize (Ht w). destruct (f l w) as [[l1 w1] [x| |k]] eqn:Hf.
  - by apply Hg.
  - by apply Hp.
  - destruct Ht as [? Ht]. split; [done|]. by eapply IH.
Qed.
Lemma resumes_bind {X Y} (Q1 : option X → L → W → W → Prop) (Q : option Y → L → W → W → Prop)
    t (g : X → Task L W Y) l w0 w :
  resumes Q1 t l w0 w →
  (∀ x l w0 w, Q1 (Some x) l w0 w → resumes Q (g x) l w0 w) →
  (∀ l w0 w, Q1 None l w0 w → Q None l w0 w) →
  resumes Q (t ≫= g) l w0 w.
Proof.
  intros Ht Hg Hp. unfold resumes in Ht. unfold mbind, Task_bind, resumes. destruct t as [f]. simpl in *.
  destruct (f l w) as [[l1 w1] [x| |k]]; [by apply Hg|by apply Hp|].
  destruct Ht as [? Ht]. split; [done|]. by apply (settles_bind Q1).
Qed.
(** A synchronous step is part of the poll. *)
Lemma resumes_sync {X} (Q : option X → L → W → W → Prop) (f : L → W → L * W * X) l w0 w :
  resumes Q (sync f) l w0 w = Q (Some (f l w).2) (f l w).1.1 w0 (f l w).1.2.
Proof. unfold resumes. simpl. by destruct (f l w) as [[??]?]. Qed.
Lemma resumes_sync_bind {X Y} (Q : option Y → L → W → W → Prop) (f : L → W → L * W * X)
    (g : X → Task L W Y) l w0 w :
  resumes Q (sync f ≫= g) l w0 w = resumes Q (g (f l w).2) (f l w).1.1 w0 (f l w).1.2.
Proof. unfold resumes. simpl. by destruct (f l w) as [[??]?]. Qed.
Lemma resumes_mret {X} (Q : option X → L → W → W → Prop) (x : X) l w0 w :
  resumes Q (mret x) l w0 w = Q (Some x) l w0 w.
Proof. done. Qed.
Lemma resumes_mret_bind {X Y} (Q : option Y → L → W → W → Prop) (x : X) (g : X → Task L W Y) l w0 w :
  resumes Q (mret x ≫= g) l w0 w = resumes Q (g x) l w0 w.
Proof. done. Qed.

Lemma settles_catch {X} (Q : option (option X) → L → W → W → Prop) t l :
  settles (λ o, Q (Some o)) t l → settles Q (catch_unwind t) l.
Proof.
  revert l. induction t as [f IH] using Task_poll_ind. simpl. intros l Ht w.
  specialize (Ht w). destruct (f l w) as [[l1 w1] [x| |k]] eqn:Hf; [done..|].
  destruct Ht as [? Ht]. split; [done|]. by eapply IH.
Qed.
End settles.

Lemma settles_on_fst {L W E X} (K : W → W → Prop) (Q : option X → L * E → W → W → Prop)
    (t : Task L W X) (l : L * E) :
  settles K (λ o l1, Q o (l1, l.2)) t l.1 → settles K Q (on_fst t) l.
Proof.
  revert l. induction t as [f IH] using Task_poll_ind. simpl. intros l Ht w.
  specialize (Ht w). destruct (f l.1 w) as [[l1 w1] [x| |k]] eqn:Hf; [done..|].
  destruct Ht as [? Ht]. split; [done|]. by eapply IH.
Qed.
