(* ===== verification/Interceptor.v ===== *)
(** * Interceptors (dactor/src/interceptor.rs)

    The decisions of the message pipeline, the hooks of inbound and outbound
    interceptors and the loops that run them. Interceptors are [&self] objects
    with interior state (counters behind a mutex, a log): a hook takes the
    world [W] and returns the new one. *)
From S2P Require Import Prelude Node Message.

#[local] Open Scope string_scope.
#[local] Open Scope list_scope.
#[local] Open Scope nat_scope.

(** ** Contexts and decisions *)
Record InboundContext := mkInboundContext {
  actor_id : ActorId;
  actor_name : string;
  in_message_type : string;
  in_send_mode : SendMode;
  in_remote : bool;
  origin_node : option NodeId
}.
Record OutboundContext := mkOutboundContext {
  target_id : ActorId;
  out_target_name : string;
  out_message_type : string;
  out_send_mode : SendMode;
  out_remote : bool
}.

Inductive Disposition :=
  | Continue
  | Delay (d : N)
  | Drop
  | Reject (reason : string)
  | Retry (d : N).

#[export] Instance Disposition_eq_dec : EqDecision Disposition.
Proof. solve_decision. Defined.

Record InterceptResult := mkInterceptResult {
  disposition : Disposition;
  interceptor_name : string
}.
Definition continued : InterceptResult := mkInterceptResult Continue "".
Definition is_continue (r : InterceptResult) : bool :=
  match disposition r with Continue => true | _ => false end.

Inductive Outcome (R : Type) :=
  | TellSuccess
  | AskSuccess (reply : R)
  | HandlerError (error : ActorError)
  | StreamCompleted (items_emitted : N)
  | StreamCancelled (items_emitted : N).
Arguments TellSuccess {R}.
Arguments AskSuccess {R} reply.
Arguments HandlerError {R} error.
Arguments StreamCompleted {R} items_emitted.
Arguments StreamCancelled {R} items_emitted.

(** ** Drops *)
Record DropNotice := mkDropNotice {
  dn_target_name : string;
  dn_message_type : string;
  dn_interceptor_name : string;
  dn_send_mode : SendMode;
  dn_context : string;
  dn_seq : option N
}.

Section interceptors.
(** [W] is the world, [M] what a message hook sees ([&dyn Any]), [T] a stream
    item, [R] a reply, [F] a handler future. *)
Context {W M T R F : Type}.

Definition DropObserver := DropNotice → W → W.

Definition notify_drop (observer : option DropObserver) (notice : DropNotice) (w : W) : W :=
  match observer with Some obs => obs notice w | None => w end.

(** ** Outbound interceptors *)
Record OutboundInterceptor := mkOutbound {
  out_name : string;
  on_send : OutboundContext → Headers → M → W → Disposition * Headers * W;
  on_reply : OutboundContext → Headers → Outcome R → W → W;
  on_expand_item : OutboundContext → Headers → N → T → W → Disposition * W
}.

Fixpoint intercept_outbound_stream_item (interceptors : list OutboundInterceptor)
    (ctx : OutboundContext) (headers : Headers) (seq : N) (item : T) (w : W) :
    InterceptResult * W :=
  match interceptors with
  | [] => (continued, w)
  | interceptor :: rest =>
      let '(d, w) := on_expand_item interceptor ctx headers seq item w in
      match d with
      | Continue => intercept_outbound_stream_item rest ctx headers seq item w
      | d => (mkInterceptResult d (out_name interceptor), w)
      end
  end.

(** ** Inbound interceptors
    A wrapper turns the future that runs the handler into the outer one. *)
Definition HandlerWrapper := F → F.

Record InboundInterceptor := mkInbound {
  in_name : string;
  in_on_receive : InboundContext → RuntimeHeaders → Headers → M → W → Disposition * Headers * W;
  in_on_complete : InboundContext → RuntimeHeaders → Headers → Outcome R → W → W;
  in_on_expand_item : InboundContext → Headers → N → T → W → Disposition * W;
  wrap_handler : InboundContext → Headers → option HandlerWrapper
}.

Definition collect_handler_wrappers (interceptors : list InboundInterceptor)
    (ctx : InboundContext) (headers : Headers) : list (option HandlerWrapper) :=
  (λ i, wrap_handler i ctx headers) <$> interceptors.

Definition apply_handler_wrappers (wrappers : list (option HandlerWrapper)) (inner : F) : F :=
  foldl (λ next wrapper, match wrapper with Some w => w next | None => next end)
    inner (reverse wrappers).

(** ** Lemmas *)
(** A pipeline continues iff every hook did. *)
Inductive continues (ctx : OutboundContext) (h : Headers) (seq : N) (item : T) :
    list OutboundInterceptor → W → W → Prop :=
  | continues_nil w : continues ctx h seq item [] w w
  | continues_cons i ics w w' w'' :
      on_expand_item i ctx h seq item w = (Continue, w') →
      continues ctx h seq item ics w' w'' → continues ctx h seq item (i :: ics) w w''.

Lemma intercept_cases ics ctx h seq item w :
  let '(r, w') := intercept_outbound_stream_item ics ctx h seq item w in
  (r = continued ∧ continues ctx h seq item ics w w')
  ∨ ∃ pre i post w1 d, ics = pre ++ i :: post ∧ continues ctx h seq item pre w w1
      ∧ on_expand_item i ctx h seq item w1 = (d, w') ∧ d ≠ Continue
      ∧ r = mkInterceptResult d (out_name i).
Proof.
  revert w. induction ics as [|i ics IH]; intros w; simpl; [left; split; [done|constructor]|].
  destruct (on_expand_item i ctx h seq item w) as [d w1] eqn:Hd.
  destruct d; try (right; exists [], i, ics, w; eexists; split_and!;
    [done|constructor|exact Hd|done|done]).
  specialize (IH w1). destruct (intercept_outbound_stream_item ics ctx h seq item w1) as [r w'].
  destruct IH as [[-> Hc]|(pre & j & post & w2 & d & -> & Hc & Hj & Hne & ->)].
  - left. split; [done|]. by econstructor.
  - right. exists (i :: pre), j, post, w2, d. split_and!; try done. by econstructor.
Qed.

Lemma apply_wrappers_cons o os inner :
  apply_handler_wrappers (o :: os) inner
  = match o with Some w => w | None => λ next, next end (apply_handler_wrappers os inner).
Proof.
  unfold apply_handler_wrappers. rewrite reverse_cons, foldl_app. simpl. by destruct o.
Qed.
End interceptors.
Arguments OutboundInterceptor : clear implicits.
Arguments InboundInterceptor : clear implicits.
Arguments DropObserver : clear implicits.
Arguments HandlerWrapper : clear implicits.

(** ** The properties *)
Module Spec.

(** The wrappers nest in pipeline order: the first interceptor that has one
    is the outermost scope, those without one cost nothing, and the handler is
    innermost. *)
Theorem wrappers_nest {W M T R F} (ics : list (InboundInterceptor W M T R F)) ctx h inner :
  apply_handler_wrappers (collect_handler_wrappers ics ctx h) inner
  = foldr (λ i next, match wrap_handler i ctx h with Some w => w next | None => next end)
      inner ics.
Proof.
  induction ics as [|i ics IH]; [done|]. unfold collect_handler_wrappers in *. csimpl.
  rewrite apply_wrappers_cons, IH. by destruct (wrap_handler i ctx h).
Qed.
End Spec.
