(* ===== verification/Actor.v ===== *)
(** * Actors (dactor/src/actor.rs)

    The actor's context, what an actor implements (the lifecycle hooks and the
    four kinds of handler), the future an [ask] returns and the spawn
    configuration. Message types are collected in one type [M] with the Rust
    name of each, stream items in [T], replies in [R]. A handler owns the actor
    and its context and runs on the world [W]. *)
From S2P Require Import Prelude Node Message Mailbox Task.

#[local] Open Scope string_scope.
#[local] Open Scope list_scope.
#[local] Open Scope nat_scope.

(** ** The context *)
Section context.
Context {W : Type}.

(** A [CancellationToken] is whether it has been cancelled in the world. *)
Definition CancelToken := W → bool.

Record ActorContext := mkActorContext {
  ctx_actor_id : ActorId;
  ctx_actor_name : string;
  ctx_send_mode : option SendMode;
  ctx_headers : Headers;
  cancellation_token : option CancelToken
}.

Definition ActorContext_new (actor_id : ActorId) (actor_name : string) : ActorContext :=
  mkActorContext actor_id actor_name None Headers_new None.
Definition set_cancellation_token (token : option CancelToken) (c : ActorContext) : ActorContext :=
  mkActorContext (ctx_actor_id c) (ctx_actor_name c) (ctx_send_mode c) (ctx_headers c) token.
(** The public fields are assigned by the runtimes. *)
Definition set_send_mode (m : option SendMode) (c : ActorContext) : ActorContext :=
  mkActorContext (ctx_actor_id c) (ctx_actor_name c) m (ctx_headers c) (cancellation_token c).
Definition set_headers (h : Headers) (c : ActorContext) : ActorContext :=
  mkActorContext (ctx_actor_id c) (ctx_actor_name c) (ctx_send_mode c) h (cancellation_token c).
(** Whether a poll of [ctx.cancelled()] is ready. *)
Definition cancelled_ready (c : ActorContext) (w : W) : bool :=
  match cancellation_token c with Some token => token w | None => false end.
End context.
Arguments CancelToken : clear implicits.
Arguments ActorContext : clear implicits.

(** ** What an actor implements
    [Snd] is the sending end of an output stream. A [StreamReceiver] is what its
    polls will yield: [None] is a poll that finds the channel empty and open. *)
Abbreviation StreamReceiver T := (list (option T)).

(** A handler's task borrows the actor and the context. *)
Abbreviation HTask A W X := (Task (A * ActorContext W) W X).

Class Actor (A W M T Snd R : Type) := {
  type_name : M → string;
  item_type_name : string;
  on_start : HTask A W ();
  on_stop : Task A W ();
  on_error : ActorError → A → W → ErrorAction * A * W;
  handle : M → HTask A W R;
  handle_expand : M → Snd → HTask A W ();
  handle_reduce : StreamReceiver T → HTask A W R;
  handle_transform : T → Snd → HTask A W ();
  on_transform_complete : Snd → HTask A W ()
}.

(** The default of [Actor::on_error]. *)
Definition default_on_error {A W} (_ : ActorError) (a : A) (w : W) : ErrorAction * A * W :=
  (StopAction, a, w).

(** ** The reply of an ask
    A oneshot channel, as its receiver sees it. *)
Inductive oneshot (X : Type) := Waiting | Sent (x : X) | SenderDropped.
Arguments Waiting {X}.
Arguments Sent {X} x.
Arguments SenderDropped {X}.

(** [AskReply::poll]: [None] is [Poll::Pending]. *)
Definition AskReply_poll {R} (rx : oneshot (result RuntimeError R)) :
    option (result RuntimeError R) :=
  match rx with
  | Sent (Ok reply) => Some (Ok reply)
  | Sent (Err error) => Some (Err error)
  | SenderDropped => Some (Err (ActorNotFoundError
      "reply channel closed — actor may have stopped, panicked, or the request was cancelled"))
  | Waiting => None
  end.

(** What the receiver of a dispatch that has been consumed sees: the answer
    that was sent, or a closed channel. *)
Definition consumed {R} (answers : list (result RuntimeError R)) :
    oneshot (result RuntimeError R) :=
  match answers with [] => SenderDropped | a :: _ => Sent a end.

(** ** Spawning *)
Record SpawnConfig := mkSpawnConfig { mailbox : MailboxConfig; target_node : option NodeId }.
Definition SpawnConfig_default : SpawnConfig := mkSpawnConfig MailboxConfig_default None.
