(* ===== verification/Dispatch.v ===== *)
(** * Dispatch envelopes (dactor/src/dispatch.rs)

    A type-erased message with what it takes to run the right handler and to
    answer the caller. The sending half of a caller's oneshot channel is the
    effect a send has on the world. A reply is boxed and unboxed inside one
    envelope, so the downcast always succeeds and is left out. *)
From S2P Require Import Prelude Node Message Mailbox Interceptor Task Actor.

#[local] Open Scope string_scope.
#[local] Open Scope list_scope.
#[local] Open Scope nat_scope.

Section dispatch.
Context {A W M T Snd R : Type} `{Actor A W M T Snd R}.

Definition ReplyTx := result RuntimeError R → W → W.

(** ** The envelopes *)
Inductive Dispatch :=
  | TypedDispatch (msg : M)
  | AskDispatch (msg : M) (reply_tx : ReplyTx) (cancel : option (CancelToken W))
  | ExpandDispatch (msg : M) (sender : Snd) (cancel : option (CancelToken W))
  | ReduceDispatch (receiver : StreamReceiver T) (reply_tx : ReplyTx)
      (cancel : option (CancelToken W))
  | TransformDispatch (receiver : StreamReceiver T) (sender : Snd)
      (cancel : option (CancelToken W)).

Definition ReplySender := R → W → W.
Record DispatchResult := mkDispatchResult {
  reply : option R;
  reply_sender : option ReplySender
}.
Definition DispatchResult_tell : DispatchResult := mkDispatchResult None None.
Definition send_reply (r : DispatchResult) (w : W) : W :=
  match reply r, reply_sender r with
  | Some reply, Some sender => sender reply w
  | _, _ => w
  end.

(** ** Handling
    The [while let] of a transform; [true] when it was cancelled. *)
Fixpoint transform_loop (receiver : StreamReceiver T) (sender : Snd)
    (cancel : option (CancelToken W)) : HTask A W bool :=
  match receiver with
  | [] => mret false
  | None :: receiver =>
      Await (λ l w, (l, w, Pending (transform_loop receiver sender cancel)))
  | Some item :: receiver =>
      stop ← sync (λ l w, (l, w, match cancel with Some token => token w | None => false end));
      if (stop : bool) then mret true else
      _ ← handle_transform item sender;
      transform_loop receiver sender cancel
  end.

Definition TypedDispatch_dispatch (msg : M) : HTask A W DispatchResult :=
  _ ← handle msg; mret DispatchResult_tell.
Definition AskDispatch_dispatch (msg : M) (reply_tx : ReplyTx) : HTask A W DispatchResult :=
  reply ← handle msg;
  mret (mkDispatchResult (Some reply) (Some (λ boxed_reply, reply_tx (Ok boxed_reply)))).
Definition ExpandDispatch_dispatch (msg : M) (sender : Snd) : HTask A W DispatchResult :=
  _ ← handle_expand msg sender; mret DispatchResult_tell.
Definition ReduceDispatch_dispatch (receiver : StreamReceiver T) (reply_tx : ReplyTx) :
    HTask A W DispatchResult :=
  reply ← handle_reduce receiver;
  mret (mkDispatchResult (Some reply) (Some (λ boxed_reply, reply_tx (Ok boxed_reply)))).
Definition TransformDispatch_dispatch (receiver : StreamReceiver T) (sender : Snd)
    (cancel : option (CancelToken W)) : HTask A W DispatchResult :=
  cancelled ← transform_loop receiver sender cancel;
  _ ← (if (cancelled : bool) then mret () else on_transform_complete sender);
  mret DispatchResult_tell.
Definition dispatch (d : Dispatch) : HTask A W DispatchResult :=
  match d with
  | TypedDispatch msg => TypedDispatch_dispatch msg
  | AskDispatch msg reply_tx _ => AskDispatch_dispatch msg reply_tx
  | ExpandDispatch msg sender _ => ExpandDispatch_dispatch msg sender
  | ReduceDispatch receiver reply_tx _ => ReduceDispatch_dispatch receiver reply_tx
  | TransformDispatch receiver sender cancel => TransformDispatch_dispatch receiver sender cancel
  end.

(** ** Inspection. [None] is the unit value of the streaming envelopes. *)
Definition message_any (d : Dispatch) : option M :=
  match d with
  | TypedDispatch msg | AskDispatch msg _ _ | ExpandDispatch msg _ _ => Some msg
  | ReduceDispatch _ _ _ | TransformDispatch _ _ _ => None
  end.
Definition send_mode (d : Dispatch) : SendMode :=
  match d with
  | TypedDispatch _ => Tell
  | AskDispatch _ _ _ => Ask
  | ExpandDispatch _ _ _ => Expand
  | ReduceDispatch _ _ _ => Reduce
  | TransformDispatch _ _ _ => Transform
  end.
Definition message_type_name (d : Dispatch) : string :=
  match d with
  | TypedDispatch msg | AskDispatch msg _ _ | ExpandDispatch msg _ _ => type_name msg
  | ReduceDispatch _ _ _ | TransformDispatch _ _ _ => item_type_name
  end.
Definition cancel_token (d : Dispatch) : option (CancelToken W) :=
  match d with
  | TypedDispatch _ => None
  | AskDispatch _ _ cancel | ExpandDispatch _ _ cancel | ReduceDispatch _ _ cancel
  | TransformDispatch _ _ cancel => cancel
  end.

(** ** Rejection and cancellation *)
Definition rejection_error (d : Disposition) (interceptor_name : string) : option RuntimeError :=
  match d with
  | Reject reason => Some (RRejected interceptor_name reason)
  | Retry retry_after => Some (RRetryAfter interceptor_name retry_after)
  | Drop => Some (ActorNotFoundError ("dropped by interceptor '" +:+ interceptor_name +:+ "'"))
  | _ => None
  end.
(** The envelopes with a reply channel: [if let Some(error) = .. { send }]. *)
Definition AskDispatch_reject (reply_tx : ReplyTx) (disposition : Disposition)
    (interceptor_name : string) (w : W) : W :=
  match rejection_error disposition interceptor_name with
  | Some error => reply_tx (Err error) w
  | None => w
  end.
Definition ReduceDispatch_reject (reply_tx : ReplyTx) (disposition : Disposition)
    (interceptor_name : string) (w : W) : W :=
  match rejection_error disposition interceptor_name with
  | Some error => reply_tx (Err error) w
  | None => w
  end.
Definition reject (d : Dispatch) (disposition : Disposition) (interceptor_name : string) (w : W) :
    W :=
  match d with
  | AskDispatch _ reply_tx _ => AskDispatch_reject reply_tx disposition interceptor_name w
  | ReduceDispatch _ reply_tx _ => ReduceDispatch_reject reply_tx disposition interceptor_name w
  | TypedDispatch _ | ExpandDispatch _ _ _ | TransformDispatch _ _ _ => w
  end.
Definition cancel (d : Dispatch) (w : W) : W :=
  match d with
  | AskDispatch _ reply_tx _ | ReduceDispatch _ reply_tx _ => reply_tx (Err RCancelled) w
  | TypedDispatch _ | ExpandDispatch _ _ _ | TransformDispatch _ _ _ => w
  end.
End dispatch.
Arguments Dispatch : clear implicits.
Arguments DispatchResult : clear implicits.
Arguments ReplyTx : clear implicits.

(** The envelopes, kind by kind. *)
Ltac unfold_envelope :=
  unfold TypedDispatch_dispatch, AskDispatch_dispatch, ExpandDispatch_dispatch,
    ReduceDispatch_dispatch, TransformDispatch_dispatch, AskDispatch_reject, ReduceDispatch_reject in *.

(** ** Lemmas *)
Section lemmas.
Context {A W M T Snd R : Type} `{Actor A W M T Snd R}.
Abbreviation D := (Dispatch W M T Snd R).
Implicit Types d : D.

(** The caller's channel, of the envelopes that have one. *)
Definition caller (d : D) : option (ReplyTx W R) :=
  match d with
  | AskDispatch _ reply_tx _ | ReduceDispatch _ reply_tx _ => Some reply_tx
  | _ => None
  end.
Definition answer (d : D) (a : result RuntimeError R) (w : W) : W :=
  match caller d with Some tx => tx a w | None => w end.

Lemma reject_answers d disp name w :
  reject d disp name w
  = match rejection_error disp name with Some e => answer d (Err e) w | None => w end.
Proof. unfold answer. destruct d; simpl; unfold_envelope; destruct (rejection_error disp name) eqn:He; simpl; by rewrite ?He. Qed.
Lemma cancel_answers d w : cancel d w = answer d (Err RCancelled) w.
Proof. by destruct d. Qed.

(** The part of a dispatch that runs user code. *)
Definition body (d : D) : HTask A W (option R) :=
  match d with
  | TypedDispatch msg => _ ← handle msg; mret None
  | AskDispatch msg _ _ => r ← handle msg; mret (Some r)
  | ExpandDispatch msg sender _ => _ ← handle_expand msg sender; mret None
  | ReduceDispatch receiver _ _ => r ← handle_reduce receiver; mret (Some r)
  | TransformDispatch receiver sender cancel =>
      cancelled ← transform_loop receiver sender cancel;
      _ ← (if (cancelled : bool) then mret () else on_transform_complete sender);
      mret None
  end.
Definition result_of (d : D) (r : option R) : DispatchResult W R :=
  match caller d, r with
  | Some tx, Some r => mkDispatchResult (Some r) (Some (λ boxed, tx (Ok boxed)))
  | _, _ => DispatchResult_tell
  end.

Lemma run_dispatch (env : nat → W → W) n d l w :
  run env n (dispatch d) l w
  = let r := run env n (body d) l w in
    mkRan (tick r) (loc r) (world r) (result_of d <$> out r).
Proof.
  destruct d; simpl; unfold_envelope; rewrite !run_bind; unfold run_then;
    match goal with |- context [out (run ?env ?n ?t ?l ?w)] => destruct (out (run env n t l w)) eqn:Ho end;
    simpl; rewrite ?run_mret, ?Ho; simpl; try done.
  all: rewrite !run_bind; unfold run_then;
    match goal with |- context [out (run ?env ?n ?t ?l ?w)] => destruct (out (run env n t l w)) eqn:Ho2 end;
    simpl; by rewrite ?run_mret, ?Ho2.
Qed.

(** A reply is there exactly when the envelope has a caller. *)
Lemma body_reply (env : nat → W → W) n d l w r :
  out (run env n (body d) l w) = Some r → (is_Some r ↔ is_Some (caller d)).
Proof.
  destruct d; simpl; rewrite !run_bind; unfold run_then.
  all: destruct (out (run env n _ l w)); [|done].
  all: rewrite ?run_mret; cbn [out].
  1-4: intros [= <-]; split; intros [??]; eauto; done.
  rewrite run_bind. unfold run_then. destruct (out (run env _ _ _ _)); [|done].
  rewrite run_mret. cbn [out]. intros [= <-]. split; intros [??]; done.
Qed.
Lemma result_of_inj d x y :
  (is_Some x ↔ is_Some (caller d)) → (is_Some y ↔ is_Some (caller d)) →
  result_of d x = result_of d y → x = y.
Proof.
  unfold result_of. destruct (caller d) as [tx|]; intros Hx Hy.
  - destruct (proj2 Hx) as [r ->]; [by eexists|]. destruct (proj2 Hy) as [r' ->]; [by eexists|].
    by intros [= ->].
  - destruct x; [by destruct (proj1 Hx); [eexists|]|]. by destruct y; [destruct (proj1 Hy); [eexists|]|].
Qed.
End lemmas.
