(* ===== verification/Stream.v ===== *)
(** * Streams and batching (dactor/src/stream.rs)

    [StreamSender], and the batch writer and reader. The writer's channel
    carries whole batches; a clock value is passed where the code reads it. *)
From S2P Require Import Prelude Channel.

#[local] Open Scope string_scope.
#[local] Open Scope list_scope.
#[local] Open Scope nat_scope.

Inductive StreamSendError := ConsumerDropped | StreamFull.

#[export] Instance StreamSendError_eq_dec : EqDecision StreamSendError.
Proof. solve_decision. Defined.

Definition StreamSendError_display (e : StreamSendError) : string :=
  match e with
  | ConsumerDropped => "stream consumer dropped"
  | StreamFull => "stream buffer full"
  end.

(** ** StreamSender *)
Section stream_sender.
Context {T C : Type} `{Sender T C}.

Definition StreamSender_send (item : T) (c : C) : result StreamSendError unit * C :=
  let '(ok, c) := mpsc_send item c in
  (if ok then Ok () else Err ConsumerDropped, c).
Definition StreamSender_try_send (item : T) (c : C) : result StreamSendError unit * C :=
  let '(r, c) := mpsc_try_send item c in
  (map_err (λ e, match e with Full => StreamFull | Closed => ConsumerDropped end) r, c).
Definition StreamSender_is_closed (c : C) : bool := mpsc_is_closed c.
End stream_sender.

(** ** Batching *)
Record BatchConfig := mkBatchConfig { max_items : nat; max_delay : N }.

Definition BatchConfig_default : BatchConfig := mkBatchConfig 64 (from_millis 5).
Definition BatchConfig_new (items : nat) (delay : N) : BatchConfig :=
  mkBatchConfig (items `max` 1) delay.

Section writer.
Context {T C : Type} `{Sender (list T) C}.

Record BatchWriter := mkBatchWriter {
  sender : C;
  config : BatchConfig;
  buffer : list T;
  flush_deadline : option N
}.

Definition BatchWriter_new (c : C) (cfg : BatchConfig) : BatchWriter :=
  mkBatchWriter c cfg [] None.

Definition flush (w : BatchWriter) : result StreamSendError unit * BatchWriter :=
  match buffer w with
  | [] => (Ok (), w)
  | batch =>
      let '(ok, c) := mpsc_send batch (sender w) in
      (if ok then Ok () else Err ConsumerDropped, mkBatchWriter c (config w) [] None)
  end.

Definition push (now : N) (item : T) (w : BatchWriter) :
    result StreamSendError unit * BatchWriter :=
  let deadline :=
    match flush_deadline w with
    | None => Some (now + max_delay (config w))%N
    | Some d => Some d
    end in
  let w := mkBatchWriter (sender w) (config w) (buffer w ++ [item])%list deadline in
  if (max_items (config w) <=? length (buffer w))%nat then flush w else (Ok (), w).

Definition check_deadline (now : N) (w : BatchWriter) :
    result StreamSendError unit * BatchWriter :=
  match flush_deadline w with
  | Some deadline => if (deadline <=? now)%N then flush w else (Ok (), w)
  | None => (Ok (), w)
  end.

Definition buffered_count (w : BatchWriter) : nat := length (buffer w).
Definition writer_max_delay (w : BatchWriter) : N := max_delay (config w).
End writer.
Arguments BatchWriter : clear implicits.

(** The reader: [receiver] is what the channel will yield before it closes. *)
Section reader.
Context {T : Type}.

Record BatchReader := mkBatchReader { receiver : list (list T); current_batch : list T }.

Definition BatchReader_new (rx : list (list T)) : BatchReader := mkBatchReader rx [].

(** The loop goes round once per batch taken. *)
Fixpoint recv_from (rx : list (list T)) (cur : list T) : option T * BatchReader :=
  match cur with
  | item :: rest => (Some item, mkBatchReader rx rest)
  | [] =>
      match rx with
      | batch :: rx' => recv_from rx' batch
      | [] => (None, mkBatchReader [] [])
      end
  end.
Definition recv (r : BatchReader) : option T * BatchReader :=
  recv_from (receiver r) (current_batch r).

(** What the reader will still yield. *)
Definition pending_items (r : BatchReader) : list T := current_batch r ++ concat (receiver r).

(** [into_stream]: [recv] until it returns [None]; the fuel is an upper bound
    on the number of items. *)
Fixpoint unfold_reader (fuel : nat) (r : BatchReader) : list T :=
  match fuel with
  | 0 => []
  | S n =>
      match recv r with
      | (Some item, r') => item :: unfold_reader n r'
      | (None, _) => []
      end
  end.
Definition into_stream (r : BatchReader) : list T :=
  unfold_reader (S (length (pending_items r))) r.

Lemma recv_spec r :
  match recv r with
  | (Some x, r') => pending_items r = x :: pending_items r'
  | (None, r') => pending_items r = [] ∧ pending_items r' = []
  end.
Proof.
  destruct r as [rx cur]. unfold recv, pending_items. simpl.
  revert cur. induction rx as [|b rx IH]; intros [|x cur]; simpl; try done.
  specialize (IH b). by destruct (recv_from rx b) as [[y|] r'].
Qed.

Lemma into_stream_pending r : into_stream r = pending_items r.
Proof.
  unfold into_stream. assert (length (pending_items r) < S (length (pending_items r))) as Hf by lia.
  revert Hf. generalize (S (length (pending_items r))) as fuel. intros fuel. revert r.
  induction fuel as [|n IH]; intros r Hf; [lia|]. simpl.
  pose proof (recv_spec r) as Hr. destruct (recv r) as [[x|] r']; [|by destruct Hr].
  rewrite Hr in *. simpl in Hf. f_equal. apply IH. lia.
Qed.
End reader.
Arguments BatchReader : clear implicits.

(** ** The writer's invariant *)
Section writer_lemmas.
Context {T C : Type} `{SenderLaws (list T) C}.
Implicit Types w : BatchWriter T C.

(** Between operations fewer than [max_items] items are buffered, the deadline
    is set exactly while something is, and no batch is empty or too long. *)
Record writer_wf w : Prop := {
  wf_buffer : length (buffer w) < max_items (config w);
  wf_deadline : flush_deadline w = None ↔ buffer w = [];
  wf_batches : Forall (λ b, b ≠ [] ∧ length b ≤ max_items (config w)) (sent (sender w))
}.

(** Everything pushed, sent or not. *)
Definition written w : list T := concat (sent (sender w)) ++ buffer w.

Lemma flush_spec w r w' :
  flush w = (r, w') →
  length (buffer w) ≤ max_items (config w) → (flush_deadline w = None ↔ buffer w = []) →
  0 < max_items (config w) →
  Forall (λ b, b ≠ [] ∧ length b ≤ max_items (config w)) (sent (sender w)) →
  writer_wf w' ∧ buffer w' = [] ∧ config w' = config w
  ∧ (r = Ok () → written w' = written w)
  ∧ (r = Err ConsumerDropped → sent (sender w') = sent (sender w)
      ∧ mpsc_is_closed (sender w') = true ∧ buffer w' = [])
  ∧ (r = Ok () ∨ r = Err ConsumerDropped).
Proof.
  intros Hf Hl Hd Hpos Hall. unfold flush, written in *.
  destruct (buffer w) as [|x b] eqn:Hb.
  - injection Hf as <- <-. rewrite Hb. split_and!; auto; try done.
    by constructor; rewrite ?Hb.
  - destruct (mpsc_send (x :: b) (sender w)) as [[] c] eqn:Hs; injection Hf as <- <-;
      simpl; split_and!; auto; try done.
    + apply send_ok in Hs. constructor; simpl; [done|done|].
      rewrite Hs. apply Forall_app. split; [done|]. by repeat constructor.
    + intros _. apply send_ok in Hs. rewrite Hs, concat_app. simpl. by rewrite !app_nil_r.
    + apply send_err in Hs as [Hs _]. constructor; simpl; [done|done|]. by rewrite Hs.
    + intros _. by apply send_err in Hs as [? ?].
Qed.

Lemma writer_new_wf (c : C) cfg :
  0 < max_items cfg → sent c = [] → writer_wf (BatchWriter_new c cfg).
Proof. intros Hm Hs. constructor; simpl; [done|done|]. by rewrite Hs. Qed.

Lemma writer_push_spec now x w r w' :
  writer_wf w → push now x w = (r, w') →
  writer_wf w' ∧ config w' = config w
  ∧ (r = Ok () → written w' = written w ++ [x])
  ∧ (r = Err ConsumerDropped → sent (sender w') = sent (sender w)
      ∧ mpsc_is_closed (sender w') = true ∧ buffer w' = [])
  ∧ (r = Ok () ∨ r = Err ConsumerDropped).
Proof.
  intros [Hb Hd Hall] Hp. unfold push in Hp. simpl in Hp.
  assert (∀ o : option N, (match o with None => Some (now + max_delay (config w))%N
    | Some d => Some d end) ≠ None) as Hne by by intros [].
  case_match; bN; rewrite length_app in *; simpl in *.
  - apply flush_spec in Hp as (? & Hbuf & Hc & Hok & Herr & Hr); simpl in *;
      [| |split; [intros Hx; by apply Hne in Hx|by intros [_ ?]%app_nil] |lia|done].
    + split_and!; [done..| |done|done]. intros Hx. rewrite (Hok Hx).
      unfold written. simpl. by rewrite app_assoc.
    + rewrite length_app. simpl. lia.
  - injection Hp as <- <-. unfold written. simpl. rewrite app_assoc.
    split_and!; auto; try done. constructor; simpl; [|split|done].
    + rewrite length_app. simpl. lia.
    + intros Hx. by apply Hne in Hx.
    + by intros [_ ?]%app_nil.
Qed.

Lemma check_deadline_spec now w r w' :
  writer_wf w → check_deadline now w = (r, w') →
  writer_wf w' ∧ config w' = config w
  ∧ (r = Ok () → written w' = written w)
  ∧ (r = Err ConsumerDropped → sent (sender w') = sent (sender w)
      ∧ mpsc_is_closed (sender w') = true ∧ buffer w' = [])
  ∧ (r = Ok () ∨ r = Err ConsumerDropped)
  ∧ (∀ d, r = Ok () → flush_deadline w' = Some d → (now < d)%N).
Proof.
  intros Hwf Hc. pose proof Hwf as [Hb Hd Hall]. unfold check_deadline in Hc.
  destruct (flush_deadline w) as [d|] eqn:Hdl; [case_match; bN|].
  - apply flush_spec in Hc as (Hwf' & Hbuf & ? & ? & ? & ?); [|lia|by rewrite Hdl|lia|done].
    split_and!; try done. intros d' _ Hd'. apply (wf_deadline w' Hwf') in Hbuf. congruence.
  - injection Hc as <- <-. split_and!; auto; try done. intros d' _ Hd'. by simplify_eq.
  - injection Hc as <- <-. split_and!; auto; try done. intros d' _ Hd'. by simplify_eq.
Qed.
End writer_lemmas.

(** ** Runs of a writer *)
Section runs.
Context {T C : Type} `{SenderLaws (list T) C}.

Inductive writer_op := WPush (now : N) (item : T) | WFlush | WCheck (now : N).
Definition writer_step (o : writer_op) (w : BatchWriter T C) :
    result StreamSendError unit * BatchWriter T C :=
  match o with
  | WPush now item => push now item w
  | WFlush => flush w
  | WCheck now => check_deadline now w
  end.
(** The callers stop at the first error. *)
Fixpoint writer_run (ops : list writer_op) (w : BatchWriter T C) :
    result StreamSendError unit * BatchWriter T C :=
  match ops with
  | [] => (Ok (), w)
  | o :: ops' =>
      match writer_step o w with
      | (Ok _, w') => writer_run ops' w'
      | (Err e, w') => (Err e, w')
      end
  end.
Definition pushed (ops : list writer_op) : list T :=
  omap (λ o, match o with WPush _ x => Some x | _ => None end) ops.

Lemma writer_step_spec o w r w' :
  writer_wf w → writer_step o w = (r, w') →
  writer_wf w' ∧ config w' = config w
  ∧ (r = Ok () → written w' = written w ++ pushed [o])
  ∧ (r = Err ConsumerDropped → sent (sender w') = sent (sender w) ∧ buffer w' = [])
  ∧ (r = Ok () ∨ r = Err ConsumerDropped).
Proof.
  intros Hwf Hs. destruct o as [now x| |now]; simpl in *.
  - apply writer_push_spec in Hs; [|done]. naive_solver.
  - pose proof Hwf as [Hb Hd Hall]. apply flush_spec in Hs; [|lia|done|lia|done].
    rewrite app_nil_r. naive_solver.
  - apply check_deadline_spec in Hs; [|done]. rewrite app_nil_r. naive_solver.
Qed.

Lemma writer_run_spec ops w r w' :
  writer_wf w → writer_run ops w = (r, w') →
  writer_wf w' ∧ config w' = config w
  ∧ written w' `prefix_of` written w ++ pushed ops
  ∧ (r = Ok () → written w' = written w ++ pushed ops).
Proof.
  revert w. induction ops as [|o ops IH]; intros w Hwf; cbn [writer_run].
  { intros [= <- <-]. rewrite app_nil_r. by split_and!. }
  destruct (writer_step o w) as [[[]|e] w1] eqn:Hs.
  - intros Hr. apply writer_step_spec in Hs as (Hwf1 & Hc & Hok & _ & _); [|done].
    destruct (IH w1 Hwf1 Hr) as (? & ? & Hp & Hw). rewrite (Hok eq_refl) in Hp, Hw.
    assert (pushed (o :: ops) = pushed [o] ++ pushed ops) as -> by by destruct o.
    rewrite app_assoc. split_and!; try done. congruence.
  - intros [= <- <-]. apply writer_step_spec in Hs as (? & ? & _ & Herr & Hr); [|done].
    split_and!; try done. destruct Hr as [|[= ->]]; [done|].
    destruct Herr as [Hse Hbu]; [done|]. unfold written.
    rewrite Hse, Hbu, app_nil_r, <-app_assoc. by eexists.
Qed.

(** While the reader takes a batch for every operation, nothing fails. *)
Lemma flush_open w n :
  never_closes (sender w) (S n) → (flush w).1 = Ok () ∧ never_closes (sender (flush w).2) n.
Proof.
  intros Hopen. unfold flush. destruct (buffer w) as [|x b]; cbn [fst snd].
  { split; [done|]. eapply never_closes_le; [|exact Hopen]. lia. }
  destruct (never_closes_send (x :: b) (sender w) n Hopen) as (c' & -> & _ & Hc). done.
Qed.
Lemma writer_step_open o w n :
  never_closes (sender w) (S n) →
  (writer_step o w).1 = Ok () ∧ never_closes (sender (writer_step o w).2) n.
Proof.
  intros Hopen. pose proof (never_closes_le _ n (S n) ltac:(lia) Hopen) as Hle.
  destruct o as [now x| |now]; cbn [writer_step].
  - unfold push. case_match; [by apply flush_open|done].
  - by apply flush_open.
  - unfold check_deadline. destruct (flush_deadline w) as [d|]; [|done].
    destruct (d <=? now)%N; [by apply flush_open|done].
Qed.
Lemma writer_run_open ops w n :
  never_closes (sender w) (length ops + n) →
  (writer_run ops w).1 = Ok () ∧ never_closes (sender (writer_run ops w).2) n.
Proof.
  revert w. induction ops as [|o ops IH]; intros w Hopen; cbn [writer_run]; [done|].
  destruct (writer_step_open o w _ Hopen) as [Hr Hc].
  destruct (writer_step o w) as [r w']. cbn [fst snd] in *. subst r. by apply IH.
Qed.
End runs.
Arguments writer_op : clear implicits.

(** ** The properties *)
Module Spec.
Section spec.
Context {T C : Type} `{SenderLaws (list T) C}.

(** C22. Batching is transparent. Whatever pushes, flushes and deadline checks
    happen up to the first error: no batch is empty or longer than
    [max_items]; what the reader yields from the batches is a prefix of the
    items pushed, in order; and if no operation failed, a final successful
    [flush] makes the reader yield exactly the pushed items. *)
Theorem batching_transparent cfg (c : C) (ops : list (writer_op T)) r w :
  0 < max_items cfg → sent c = [] → writer_run ops (BatchWriter_new c cfg) = (r, w) →
  Forall (λ b, b ≠ [] ∧ length b ≤ max_items cfg) (sent (sender w))
  ∧ into_stream (BatchReader_new (sent (sender w))) `prefix_of` pushed ops
  ∧ (r = Ok () → ∀ w', flush w = (Ok (), w') →
      into_stream (BatchReader_new (sent (sender w'))) = pushed ops).
Proof.
  intros Hm Hc Hr. pose proof (writer_new_wf c cfg Hm Hc) as Hwf.
  apply writer_run_spec in Hr as (Hwf' & Hcfg & Hp & Hok); [|done].
  unfold written in Hp, Hok. simpl in Hp, Hok, Hcfg. rewrite Hc in Hp, Hok.
  split_and!; [rewrite <-Hcfg; apply Hwf'| |].
  { rewrite into_stream_pending. etrans; [|exact Hp]. by eexists. }
  intros Hrok w' Hf. rewrite into_stream_pending. unfold pending_items. simpl.
  pose proof Hwf' as [Hb Hd Hall]. apply flush_spec in Hf as (_ & Hbuf & _ & Hw & _);
    [|lia|done|lia|done].
  specialize (Hw eq_refl). unfold written in Hw. rewrite (Hok Hrok) in Hw.
  by rewrite Hbuf, app_nil_r in Hw.
Qed.
End spec.

Definition sample_ops : list (writer_op nat) :=
  [WPush 0 1; WPush 1 2; WPush 2 3; WCheck 3; WPush 4 4; WCheck 9].
Lemma batching_transparent_witness :
  let w := (writer_run sample_ops
    (BatchWriter_new (mkTestChan [] 0 8 9) (mkBatchConfig 2 5))).2 in
  sent (sender w) = [[1; 2]; [3; 4]] ∧
  (Forall (λ b, b ≠ [] ∧ length b ≤ 2) (sent (sender w))
  ∧ into_stream (BatchReader_new (sent (sender w))) `prefix_of` pushed sample_ops).
Proof.
  split; [reflexivity|].
  destruct (batching_transparent (mkBatchConfig 2 5) (mkTestChan [] 0 8 9) sample_ops
    (Ok ()) _ ltac:(simpl; lia) eq_refl eq_refl) as (? & ? & _).
  by split.
Defined.
End Spec.
