(* ===== verification/RuntimeSupport.v ===== *)
(** * The outbound pipeline (dactor/src/runtime_support.rs)

    [OutboundPipeline]: the [on_send] and [on_reply] loops, and the tasks that
    pass a stream through the per-item hooks and into a channel. The tasks
    differ in the send mode they report, in the context of the drop notice and
    in cancellation; [drain] is the loop they share. A stream is the list of
    its items; [tokio::time::sleep] is recorded. The cancellation token is the
    function that tells whether it is set when the [select!] of the [n]-th
    round resolves; the [select!]s are biased, so it is looked at first. *)
From S2P Require Import Prelude Node Message Interceptor Channel Stream.

#[local] Open Scope string_scope.
#[local] Open Scope list_scope.
#[local] Open Scope nat_scope.

Section pipeline.
Context {W M T R : Type}.

Record OutboundPipeline := mkOutboundPipeline {
  interceptors : list (OutboundInterceptor W M T R);
  drop_observer : option (DropObserver W);
  pl_target_id : ActorId;
  pl_target_name : string
}.

(** ** Messages *)
Definition send_context (p : OutboundPipeline) (message_type : string) (send_mode : SendMode) :
    OutboundContext :=
  mkOutboundContext (pl_target_id p) (pl_target_name p) message_type send_mode false.

(** The loop of [run_on_send]; [headers] is the [&mut Headers] the hooks share. *)
Fixpoint run_on_send_loop (p : OutboundPipeline) (octx : OutboundContext) (msg : M)
    (ics : list (OutboundInterceptor W M T R)) (headers : Headers) (w : W) :
    InterceptResult * W :=
  match ics with
  | [] => (continued, w)
  | interceptor :: rest =>
      let '(d, headers, w) := on_send interceptor octx headers msg w in
      match d with
      | Continue => run_on_send_loop p octx msg rest headers w
      | Drop =>
          (mkInterceptResult Drop (out_name interceptor),
           notify_drop (drop_observer p)
             (mkDropNotice (pl_target_name p) (out_message_type octx) (out_name interceptor)
                (out_send_mode octx) "outbound on_send" None) w)
      | d => (mkInterceptResult d (out_name interceptor), w)
      end
  end.
(** [message_type] is [std::any::type_name::<M>()]. *)
Definition run_on_send (p : OutboundPipeline) (message_type : string) (send_mode : SendMode)
    (msg : M) (w : W) : InterceptResult * W :=
  run_on_send_loop p (send_context p message_type send_mode) msg (interceptors p)
    Headers_new w.

Definition notify_item_drop (p : OutboundPipeline) (message_type : string)
    (send_mode : SendMode) (context interceptor_name : string) (seq : N) (w : W) : W :=
  notify_drop (drop_observer p)
    (mkDropNotice (pl_target_name p) message_type interceptor_name send_mode context (Some seq)) w.

Definition run_on_reply (p : OutboundPipeline) (message_type : string) (outcome : Outcome R)
    (w : W) : W :=
  match interceptors p with
  | [] => w
  | ics =>
      let octx := send_context p message_type Ask in
      foldl (λ w i, on_reply i octx Headers_new outcome w) w ics
  end.

(** ** Streams *)
Context {C : Type} `{Sender T C}.

Definition CancellationToken := N → bool.
Definition is_cancelled (cancel : option CancellationToken) (round : N) : bool :=
  match cancel with Some token => token round | None => false end.

(** Why a task stopped, for the theorems. *)
Inductive stop := Exhausted | CancelledAt (seq : N) | Rejected (seq : N) | ConsumerGone.

(** The channel, the world and the pauses after the loop. *)
Record drained := mkDrained { dr_chan : C; dr_world : W; dr_slept : list N; dr_stop : stop }.

(** [ctx_mode] is the mode the hooks see, [note_mode] the one in the notice. *)
Fixpoint drain (p : OutboundPipeline) (message_type : string) (ctx_mode note_mode : SendMode)
    (context : string) (cancel : option CancellationToken) (seq : N) (items : list T)
    (c : C) (w : W) (slept : list N) : drained :=
  if is_cancelled cancel seq then mkDrained c w slept (CancelledAt seq) else
  match items with
  | [] => mkDrained c w slept Exhausted
  | item :: rest =>
      let octx := send_context p message_type ctx_mode in
      let '(r, w) :=
        intercept_outbound_stream_item (interceptors p) octx Headers_new seq item w in
      let next := drain p message_type ctx_mode note_mode context cancel (seq + 1)%N rest in
      match disposition r with
      | Continue =>
          let '(ok, c) := mpsc_send item c in
          if ok then next c w slept else mkDrained c w slept ConsumerGone
      | Drop | Retry _ =>
          next c (notify_item_drop p message_type note_mode context
                    (interceptor_name r) (seq + 1 - 1)%N w) slept
      | Delay d =>
          let slept := slept ++ [d] in
          let '(ok, c) := mpsc_send item c in
          if ok then next c w slept else mkDrained c w slept ConsumerGone
      | Reject _ => mkDrained c w slept (Rejected seq)
      end
  end.

Definition wrap_stream_with_interception (rx : list T) (p : OutboundPipeline)
    (message_type : string) (send_mode : SendMode) (out_tx : C) (w : W) : drained :=
  drain p message_type send_mode Expand "stream reply" None 0 rx out_tx w [].

Definition wrap_batched_stream_with_interception (reader : BatchReader T)
    (p : OutboundPipeline) (message_type : string) (send_mode : SendMode) (out_tx : C) (w : W) :
    drained :=
  drain p message_type send_mode send_mode "stream reply (batched)" None 0
    (into_stream reader) out_tx w [].

Definition spawn_reduce_drain (input : list T) (item_tx : C)
    (cancel : option CancellationToken) (p : OutboundPipeline) (message_type : string) (w : W) :
    drained :=
  drain p message_type Reduce Reduce "feed item" cancel 0 input item_tx w [].

Definition spawn_transform_drain (input : list T) (item_tx : C)
    (cancel : option CancellationToken) (p : OutboundPipeline) (message_type : string) (w : W) :
    drained :=
  drain p message_type Transform Transform "transform input item" cancel 0 input item_tx w [].

(** Stage 3 of the batched feed: forward until the actor is gone. *)
Fixpoint forward_batch (batch : list T) (c : C) : bool * C :=
  match batch with
  | [] => (true, c)
  | item :: rest =>
      let '(ok, c) := mpsc_send item c in if ok then forward_batch rest c else (false, c)
  end.
Fixpoint forward_batches (batches : list (list T)) (c : C) : C :=
  match batches with
  | [] => c
  | batch :: rest =>
      let '(ok, c) := forward_batch batch c in if ok then forward_batches rest c else c
  end.

(** The stages run as tasks of their own. Stage 1 sends the items it lets
    through to [intercepted_tx]; the writer of stage 2 takes those, in order,
    with deadline checks at any time in between ([ops]), and flushes when it
    stops, for whatever reason; stage 3 takes the batches. *)
Definition spawn_reduce_batched_drain {B} `{Sender (list T) B} (input : list T) (item_tx : C)
    (intercepted_tx : C) (batch_tx : B) (batch_config : BatchConfig)
    (cancel : option CancellationToken) (p : OutboundPipeline) (message_type : string)
    (ops : list (writer_op T)) (w : W) : drained * BatchWriter T B * C :=
  let stage1 :=
    drain p message_type Reduce Reduce "feed item (batched)" cancel 0 input intercepted_tx w [] in
  let '(_, writer) := writer_run ops (BatchWriter_new batch_tx batch_config) in
  let '(_, writer) := flush writer in
  (stage1, writer, forward_batches (sent (sender writer)) item_tx).
End pipeline.
Arguments OutboundPipeline : clear implicits.

(** ** Lemmas *)
Section pipeline_lemmas.
Context {W M T R C : Type} `{SenderLaws T C}.
Implicit Types p : OutboundPipeline W M T R.

(** Hooks that depend on the sequence number and the item only. *)
Definition stateless p (message_type : string) (mode : SendMode)
    (dec : N → T → InterceptResult) : Prop :=
  ∀ seq item w, intercept_outbound_stream_item (interceptors p)
    (send_context p message_type mode) Headers_new seq item w = (dec seq item, w).

(** What the loop lets through, and what it reports, as lists. *)
Section verdicts.
Context (dec : N → T → InterceptResult).

(** The items with their numbers, up to the first rejected one. *)
Fixpoint considered (seq : N) (items : list T) : list (N * T) :=
  match items with
  | [] => []
  | x :: rest =>
      match disposition (dec seq x) with
      | Reject _ => []
      | _ => (seq, x) :: considered (seq + 1)%N rest
      end
  end.
Definition passes (q : N * T) : bool :=
  match disposition (dec q.1 q.2) with Continue | Delay _ => true | _ => false end.
Definition passed (seq : N) (items : list T) : list T :=
  (retain passes (considered seq items)).*2.
Definition pauses (seq : N) (items : list T) : list N :=
  omap (λ q, match disposition (dec q.1 q.2) with Delay d => Some d | _ => None end)
    (considered seq items).
Definition dropped (seq : N) (items : list T) : list (N * string) :=
  (λ q, (q.1, interceptor_name (dec q.1 q.2)))
    <$> retain (λ q, negb (passes q)) (considered seq items).

Lemma passed_sublist seq items : passed seq items `sublist_of` items.
Proof.
  unfold passed. revert seq. induction items as [|x items IH]; intros seq; simpl; [done|].
  destruct (disposition (dec seq x)) eqn:Hd; try apply sublist_nil_l;
    simpl; unfold passes at 1; simpl; rewrite Hd; simpl; by constructor.
Qed.
End verdicts.

(** The loop without cancellation, for a channel that stays open. *)
Lemma drain_stateless p mt m1 m2 ctx dec seq items (c : C) w slept r :
  stateless p mt m1 dec → never_closes c (length items) →
  drain p mt m1 m2 ctx None seq items c w slept = r →
  sent (dr_chan r) = sent c ++ passed dec seq items
  ∧ dr_slept r = slept ++ pauses dec seq items
  ∧ dr_world r = foldl (λ w q, notify_item_drop p mt m2 ctx q.2 q.1 w) w
                   (dropped dec seq items)
  ∧ (dr_stop r = Exhausted ∨ ∃ k, dr_stop r = Rejected k).
Proof.
  intros Hs. revert seq c w slept. induction items as [|x items IH]; intros seq c w slept Hopen.
  { intros <-. simpl. rewrite !app_nil_r. auto. }
  assert (never_closes c (length items)) as Hopen' by (intros xs ?; apply Hopen; simpl; lia).
  cbn [drain is_cancelled]. rewrite Hs. unfold passed, pauses, dropped. cbn [considered].
  destruct (never_closes_send x c _ Hopen) as (c' & Hx & Hsx & Hc'). rewrite Hx.
  destruct (disposition (dec seq x)) eqn:Hd; cbn [retain omap list_omap];
    unfold passes; cbn [fst snd]; rewrite ?Hd; cbn [fst snd negb fmap list_fmap]; rewrite ?Hd; intros Hr.
  - apply IH in Hr; [|done]. by rewrite Hsx, <-app_assoc in Hr.
  - apply IH in Hr; [|done]. by rewrite Hsx, <-!app_assoc in Hr.
  - rewrite N.add_sub in Hr. by apply IH in Hr.
  - subst r. simpl. rewrite !app_nil_r. eauto 6.
  - rewrite N.add_sub in Hr. by apply IH in Hr.
Qed.

(** In any case the channel gets a sublist of the input, in order. *)
Lemma drain_sublist p mt m1 m2 ctx cancel seq items (c : C) w slept :
  ∃ l, sent (dr_chan (drain p mt m1 m2 ctx cancel seq items c w slept)) = sent c ++ l
    ∧ l `sublist_of` items.
Proof.
  revert seq c w slept. induction items as [|x items IH]; intros seq c w slept; cbn [drain].
  { exists []. rewrite app_nil_r. case_match; split; done. }
  assert (∃ l, sent c = sent c ++ l ∧ l `sublist_of` x :: items) as Hnil.
  { exists []. rewrite app_nil_r. split; [done|apply sublist_nil_l]. }
  destruct (is_cancelled cancel seq); [done|].
  destruct (intercept_outbound_stream_item _ _ _ _ _ _) as [r w'].
  assert (∀ w slept, ∃ l, sent (dr_chan (let '(ok, c) := mpsc_send x c in
    if ok then drain p mt m1 m2 ctx cancel (seq + 1)%N items c w slept
    else mkDrained c w slept ConsumerGone)) = sent c ++ l ∧ l `sublist_of` x :: items) as Hgo.
  { intros w1 s1. destruct (mpsc_send x c) as [[] c'] eqn:Hx.
    - apply send_ok in Hx. destruct (IH (seq + 1)%N c' w1 s1) as (l & -> & ?).
      exists (x :: l). rewrite Hx, <-app_assoc. split; [done|by constructor].
    - apply send_err in Hx as [Hx _]. simpl. by rewrite Hx. }
  destruct (disposition r); [apply Hgo|apply Hgo| |done|];
    (destruct (IH (seq + 1)%N c (notify_item_drop p mt m2 ctx (interceptor_name r)
       (seq + 1 - 1)%N w') slept) as (l & -> & ?); exists l; split; [done|by constructor]).
Qed.

(** The forwarding stage sends a prefix of the concatenation. *)
Lemma forward_batch_spec (b : list T) (c : C) :
  match forward_batch b c with
  | (true, c') => sent c' = sent c ++ b
  | (false, c') => ∃ l, sent c' = sent c ++ l ∧ l `prefix_of` b
  end.
Proof.
  revert c. induction b as [|x b IH]; intros c; simpl; [by rewrite app_nil_r|].
  destruct (mpsc_send x c) as [[] c'] eqn:Hx.
  - apply send_ok in Hx. specialize (IH c'). destruct (forward_batch b c') as [[] c2].
    + by rewrite IH, Hx, <-app_assoc.
    + destruct IH as (l & -> & [k ->]). exists (x :: l). rewrite Hx, <-app_assoc.
      split; [done|]. by exists k.
  - apply send_err in Hx as [-> _]. exists []. rewrite app_nil_r. split; [done|apply prefix_nil].
Qed.
Lemma forward_batches_spec (bs : list (list T)) (c : C) :
  ∃ l, sent (forward_batches bs c) = sent c ++ l ∧ l `prefix_of` concat bs.
Proof.
  revert c. induction bs as [|b bs IH]; intros c; simpl.
  { exists []. rewrite app_nil_r. split; [done|apply prefix_nil]. }
  pose proof (forward_batch_spec b c) as Hb. destruct (forward_batch b c) as [[] c'].
  - destruct (IH c') as (l & -> & [k ->]). exists (b ++ l). rewrite Hb, <-!app_assoc.
    split; [done|]. exists k. by rewrite <-?app_assoc.
  - destruct Hb as (l & -> & Hl). exists l. split; [done|]. by apply prefix_app_r.
Qed.
Lemma forward_batch_open (b : list T) (c : C) n :
  never_closes c (length b + n) →
  ∃ c', forward_batch b c = (true, c') ∧ sent c' = sent c ++ b ∧ never_closes c' n.
Proof.
  revert c. induction b as [|x b IH]; intros c Hopen; simpl.
  { exists c. by rewrite app_nil_r. }
  cbn [length] in Hopen. destruct (never_closes_send x c _ Hopen) as (c' & -> & Hx & Ho').
  destruct (IH c' Ho') as (c2 & Hf & Hs & Ho). exists c2. by rewrite Hf, Hs, Hx, <-app_assoc.
Qed.
Lemma forward_batches_open (bs : list (list T)) (c : C) :
  never_closes c (length (concat bs)) → sent (forward_batches bs c) = sent c ++ concat bs.
Proof.
  revert c. induction bs as [|b bs IH]; intros c Hopen; simpl; [by rewrite app_nil_r|].
  simpl in Hopen. rewrite length_app in Hopen.
  destruct (forward_batch_open b c _ Hopen) as (c' & -> & Hs & Ho).
  by rewrite IH, Hs, <-app_assoc.
Qed.

(** The three stages of the batched feed. *)
Lemma batched_feed {B} `{SenderLaws (list T) B} p mt input (item_tx itx : C) (btx : B)
    cfg cancel ops w stage1 writer item_tx' :
  0 < max_items cfg → sent itx = [] → sent btx = [] → sent item_tx = [] →
  spawn_reduce_batched_drain input item_tx itx btx cfg cancel p mt ops w
    = (stage1, writer, item_tx') →
  pushed ops = sent (dr_chan stage1) →
  sent item_tx' `prefix_of` sent (dr_chan stage1)
  ∧ sent (dr_chan stage1) `sublist_of` input
  ∧ (never_closes item_tx (length input) →
     (writer_run ops (BatchWriter_new btx cfg)).1 = Ok () →
     (flush (writer_run ops (BatchWriter_new btx cfg)).2).1 = Ok () →
     sent item_tx' = sent (dr_chan stage1)).
Proof.
  intros Hm Hitx Hbtx Hit Hrun Hops. unfold spawn_reduce_batched_drain in Hrun.
  destruct (writer_run ops (BatchWriter_new btx cfg)) as [r1 w1] eqn:Hw1. simpl.
  destruct (flush w1) as [r2 w2] eqn:Hw2. injection Hrun as Hd <- <-. simpl.
  destruct (drain_sublist p mt Reduce Reduce "feed item (batched)" cancel 0 input itx w [])
    as (l & Hl & Hsub). rewrite Hd, Hitx in Hl. simpl in Hl. rewrite Hl in *. clear Hl Hd.
  pose proof (writer_new_wf btx cfg Hm Hbtx) as Hwf.
  apply writer_run_spec in Hw1 as (Hwf1 & Hc1 & Hp1 & Hok1); [|done].
  unfold written in Hp1, Hok1. simpl in *. rewrite Hbtx in *. simpl in *.
  pose proof Hwf1 as [Hb Hdl Hall].
  apply flush_spec in Hw2 as (_ & Hbuf & _ & Hok2 & Herr2 & Hr2); [|lia|done|lia|done].
  unfold written in Hok2.
  destruct (forward_batches_spec (sent (sender w2)) item_tx) as (k & Hk & Hpre).
  rewrite Hit in Hk. simpl in Hk.
  split_and!; [|done|].
  - rewrite Hk. etrans; [done|]. rewrite <-Hops. destruct Hr2 as [->| ->].
    + specialize (Hok2 eq_refl). rewrite Hbuf, app_nil_r in Hok2. by rewrite Hok2.
    + destruct (Herr2 eq_refl) as [-> _]. etrans; [|exact Hp1]. by eexists.
  - intros Hopen -> ->. specialize (Hok2 eq_refl). rewrite Hbuf, app_nil_r in Hok2.
    rewrite (Hok1 eq_refl) in Hok2. rewrite forward_batches_open, Hit; simpl; [congruence|].
    rewrite Hok2, Hops. intros xs Hxs. apply Hopen.
    apply sublist_length in Hsub. lia.
Qed.
End pipeline_lemmas.

(** ** The properties *)
Module Spec.
Section spec.
Context {W M T R C : Type} `{SenderLaws T C}.
Implicit Types p : OutboundPipeline W M T R.

(** C32. The stream tasks, for hooks that look at the sequence number and the
    item only and a consumer that stays: the consumer gets, in order, exactly
    the items up to the first rejected one whose verdict is to continue or to
    delay; the task sleeps exactly the delays; and the observer is told of
    every dropped (or retried) item once, with its sequence number and the
    interceptor that dropped it. The four tasks are this one loop, whatever
    modes and contexts they report. *)
Theorem stream_tasks_filter p mt m1 m2 ctx dec items (c : C) w r :
  stateless p mt m1 dec → never_closes c (length items) →
  drain p mt m1 m2 ctx None 0 items c w [] = r →
  sent (dr_chan r) = sent c ++ passed dec 0 items
  ∧ passed dec 0 items `sublist_of` items
  ∧ dr_slept r = pauses dec 0 items
  ∧ dr_world r = foldl (λ w q, notify_item_drop p mt m2 ctx q.2 q.1 w) w (dropped dec 0 items).
Proof.
  intros Hs Ho Hr. apply (drain_stateless p mt m1 m2 ctx dec) in Hr as (? & ? & ? & _); try done.
  split_and!; [done|apply passed_sublist|done..].
Qed.

(** C33. The batched feed, hooks with any state, any interleaving of deadline
    checks, any cancellation and any of the three channels closing at any
    point: if the writer takes what stage 1 let through, the actor receives a
    sublist of the input in order (a prefix of what passed the interceptors);
    and all of what passed, if no batch operation failed and the actor stays. *)
Theorem reduce_batched_feed {B} `{SenderLaws (list T) B} p mt input (item_tx itx : C) (btx : B)
    cfg cancel ops w stage1 writer item_tx' :
  0 < max_items cfg → sent itx = [] → sent btx = [] → sent item_tx = [] →
  spawn_reduce_batched_drain input item_tx itx btx cfg cancel p mt ops w
    = (stage1, writer, item_tx') →
  pushed ops = sent (dr_chan stage1) →
  sent item_tx' `prefix_of` sent (dr_chan stage1)
  ∧ sent (dr_chan stage1) `sublist_of` input
  ∧ (never_closes item_tx (length input) →
     (writer_run ops (BatchWriter_new btx cfg)).1 = Ok () →
     (flush (writer_run ops (BatchWriter_new btx cfg)).2).1 = Ok () →
     sent item_tx' = sent (dr_chan stage1)).
Proof. apply batched_feed. Qed.
End spec.

(** Items below 10 pass, multiples of ten are dropped, 99 is rejected; the world
    is the log of the notices. *)
Definition gate : OutboundInterceptor (list DropNotice) nat nat nat :=
  mkOutbound "gate" (λ _ h _ w, (Continue, h, w)) (λ _ _ _ w, w)
    (λ _ _ _ x w, (if (x =? 99)%nat then Reject "no"
                   else if (x =? 7)%nat then Delay 3
                   else if (x mod 10 =? 0)%nat then Drop else Continue, w)).
Definition gate_pipeline : OutboundPipeline (list DropNotice) nat nat nat :=
  mkOutboundPipeline [gate] (Some (λ n w, w ++ [n])) (mkActorId (mkNodeId "n") 1) "a".
Definition gate_dec (seq : N) (x : nat) : InterceptResult :=
  if (x =? 99)%nat then mkInterceptResult (Reject "no") "gate"
  else if (x =? 7)%nat then mkInterceptResult (Delay 3) "gate"
  else if (x mod 10 =? 0)%nat then mkInterceptResult Drop "gate" else continued.

Lemma stream_tasks_filter_witness :
  let r := wrap_stream_with_interception [1; 20; 7; 2; 99; 3] gate_pipeline "M" Ask
    (mkTestChan [] 0 4 9) [] in
  sent (dr_chan r) = [1; 7; 2] ∧ dr_slept r = [3%N]
  ∧ dr_world r = [mkDropNotice "a" "M" "gate" Expand "stream reply" (Some 1%N)].
Proof.
  destruct (stream_tasks_filter gate_pipeline "M" Ask Expand "stream reply" gate_dec
    [1; 20; 7; 2; 99; 3] (mkTestChan [] 0 4 9) []
    (wrap_stream_with_interception [1; 20; 7; 2; 99; 3] gate_pipeline "M" Ask
      (mkTestChan [] 0 4 9) [])) as (H1 & _ & H2 & H3).
  - intros seq x w. unfold gate_dec. cbn -[Nat.modulo Nat.eqb].
    destruct (x =? 99)%nat, (x =? 7)%nat, (x mod 10 =? 0)%nat; done.
  - intros xs Hxs. assert (∀ n l k, length xs < n →
      mpsc_is_closed (foldl (λ c x, (mpsc_send x c).2) (mkTestChan l k 4 n) xs) = false) as Ho.
    { clear. induction xs as [|x xs IH]; intros [|n] l k Hn; simpl in *; try done; try lia.
      apply IH. lia. }
    apply Ho. simpl in Hxs. lia.
  - reflexivity.
  - cbv zeta. rewrite H1, H2, H3. by vm_compute.
Defined.

Lemma reduce_batched_feed_witness :
  let '(stage1, writer, actor) := spawn_reduce_batched_drain [1; 20; 2; 3] (mkTestChan [] 0 4 9)
    (mkTestChan [] 0 4 9) (mkTestChan [] 0 4 9) (mkBatchConfig 2 5) None gate_pipeline "M"
    [WPush 0 1; WCheck 1; WPush 2 2; WPush 3 3] [] in
  sent (sender writer) = [[1; 2]; [3]] ∧ sent actor = [1; 2; 3]
  ∧ sent actor `prefix_of` sent (dr_chan stage1).
Proof.
  split; [reflexivity|]. split; [reflexivity|].
  apply (reduce_batched_feed gate_pipeline "M" [1; 20; 2; 3] (mkTestChan [] 0 4 9)
    (mkTestChan [] 0 4 9) (mkTestChan [] 0 4 9) (mkBatchConfig 2 5) None
    [WPush 0 1; WCheck 1; WPush 2 2; WPush 3 3] []) with (writer :=
      (flush (writer_run [WPush 0 1; WCheck 1; WPush 2 2; WPush 3 3]
        (BatchWriter_new (mkTestChan [] 0 4 9) (mkBatchConfig 2 5))).2).2);
    try reflexivity. simpl. lia.
Defined.
End Spec.
