(* ===== verification/CircuitBreaker.v ===== *)
(** * Circuit breaker (dactor/src/circuit_breaker.rs)

    The per-actor state machine behind [CircuitBreakerInterceptor]. The mutex
    serialises the two hooks, so each takes the map of states and returns the
    new one; [now] is the [Instant] read under the lock. *)
From S2P Require Import Prelude Node Interceptor.
From stdpp Require Import sorting.

#[local] Open Scope string_scope.
#[local] Open Scope list_scope.
#[local] Open Scope nat_scope.

(** ** State *)
Inductive CircuitState := ClosedState | OpenState | HalfOpen.

#[export] Instance CircuitState_eq_dec : EqDecision CircuitState.
Proof. solve_decision. Defined.

Record CircuitBreakerState := mkState {
  state : CircuitState;
  error_timestamps : list N;
  opened_at : option N;
  probe_in_flight : bool
}.
Definition CircuitBreakerState_new : CircuitBreakerState := mkState ClosedState [] None false.

Definition prune_errors (window now : N) (s : CircuitBreakerState) : CircuitBreakerState :=
  mkState (state s)
    (drop_while (λ front, (window <? duration_since now front)%N) (error_timestamps s))
    (opened_at s) (probe_in_flight s).

Record CircuitBreakerInterceptor := mkBreaker {
  error_threshold : N;
  error_window : N;
  cooldown : N;
  states : gmap ActorId CircuitBreakerState
}.
Definition new (threshold window cool : N) : CircuitBreakerInterceptor :=
  mkBreaker threshold window cool ∅.

Definition state_for (b : CircuitBreakerInterceptor) (a : ActorId) : CircuitState :=
  match states b !! a with Some s => state s | None => ClosedState end.

(** [entry(a).or_insert_with(CircuitBreakerState::new)]. *)
Definition entry (b : CircuitBreakerInterceptor) (a : ActorId) : CircuitBreakerState :=
  default CircuitBreakerState_new (states b !! a).
Definition set_entry (a : ActorId) (s : CircuitBreakerState) (b : CircuitBreakerInterceptor) :=
  mkBreaker (error_threshold b) (error_window b) (cooldown b) (<[a := s]> (states b)).

(** ** Hooks *)
(** The [match entry.state] of [on_receive]. *)
Definition receive_entry (cool now : N) (name : string) (s : CircuitBreakerState) :
    Disposition * CircuitBreakerState :=
  let reject := Reject ("circuit breaker open: " +:+ name) in
  match state s with
  | ClosedState => (Continue, s)
  | OpenState =>
      match opened_at s with
      | Some t =>
          if (cool <=? duration_since now t)%N
          then (Continue, mkState HalfOpen (error_timestamps s) (opened_at s) true)
          else (reject, s)
      | None => (reject, s)
      end
  | HalfOpen =>
      if probe_in_flight s then (reject, s)
      else (Continue, mkState HalfOpen (error_timestamps s) (opened_at s) true)
  end.
Definition on_receive (now : N) (ctx : InboundContext) (b : CircuitBreakerInterceptor) :
    Disposition * CircuitBreakerInterceptor :=
  let '(d, s) := receive_entry (cooldown b) now (actor_name ctx) (entry b (actor_id ctx)) in
  (d, set_entry (actor_id ctx) s b).

Definition is_handler_error {R} (o : Outcome R) : bool :=
  match o with HandlerError _ => true | _ => false end.

(** [error_timestamps.push_back(now)]. *)
Definition push_error (now : N) (s : CircuitBreakerState) : CircuitBreakerState :=
  mkState (state s) (error_timestamps s ++ [now]) (opened_at s) (probe_in_flight s).

Definition complete_entry (threshold window now : N) (is_error : bool)
    (s : CircuitBreakerState) : CircuitBreakerState :=
  match state s with
  | ClosedState =>
      if is_error then
        let s := prune_errors window now (push_error now s) in
        if (threshold <=? len_u32 (error_timestamps s))%N
        then mkState OpenState (error_timestamps s) (Some now) (probe_in_flight s)
        else s
      else s
  | HalfOpen =>
      let s := mkState (state s) (error_timestamps s) (opened_at s) false in
      if is_error then
        prune_errors window now
          (push_error now (mkState OpenState (error_timestamps s) (Some now) (probe_in_flight s)))
      else mkState ClosedState [] None (probe_in_flight s)
  | OpenState => if is_error then prune_errors window now (push_error now s) else s
  end.
Definition on_complete {R} (now : N) (ctx : InboundContext) (outcome : Outcome R)
    (b : CircuitBreakerInterceptor) : CircuitBreakerInterceptor :=
  set_entry (actor_id ctx)
    (complete_entry (error_threshold b) (error_window b) now (is_handler_error outcome)
       (entry b (actor_id ctx))) b.

(** ** Runs
    The events of a run carry the clock, which never goes back. *)
Inductive event :=
  | EvReceive (now : N) (ctx : InboundContext)
  | EvComplete (now : N) (ctx : InboundContext) (outcome : Outcome unit).
Definition ev_now (e : event) : N :=
  match e with EvReceive now _ => now | EvComplete now _ _ => now end.
Definition ev_step (e : event) (b : CircuitBreakerInterceptor) : CircuitBreakerInterceptor :=
  match e with
  | EvReceive now ctx => (on_receive now ctx b).2
  | EvComplete now ctx o => on_complete now ctx o b
  end.
(** [reachable b now]: after some events up to [now]. *)
Inductive reachable : CircuitBreakerInterceptor → N → Prop :=
  | reachable_new threshold window cool now : reachable (new threshold window cool) now
  | reachable_step b now e :
      reachable b now → (now <= ev_now e)%N → reachable (ev_step e b) (ev_now e).

(** ** Invariant *)
Record wf (now : N) (s : CircuitBreakerState) : Prop := {
  wf_sorted : StronglySorted N.le (error_timestamps s);
  wf_past : Forall (λ t, (t <= now)%N) (error_timestamps s);
  wf_opened : match state s, opened_at s with
              | ClosedState, Some _ => False
              | ClosedState, None => True
              | _, None => False
              | _, Some t => (t <= now)%N
              end;
  wf_probe : probe_in_flight s = bool_decide (state s = HalfOpen)
}.

Lemma circuit_wf_new now : wf now CircuitBreakerState_new.
Proof. split; simpl; done || constructor. Qed.

Lemma wf_mono now now' s : (now <= now')%N → wf now s → wf now' s.
Proof.
  intros Hle [Hs Hp Ho Hpr]. split; try done.
  - eapply Forall_impl; [done|]. intros t ?. simpl in *. lia.
  - destruct (state s), (opened_at s); try done; lia.
Qed.

Lemma StronglySorted_snoc l x :
  StronglySorted N.le l → Forall (λ t, (t <= x)%N) l → StronglySorted N.le (l ++ [x]).
Proof.
  induction 1 as [|y l Hs IH Hy]; simpl; intros Hall; [repeat constructor|].
  apply Forall_cons in Hall as [Hyx Hall]. constructor; [by apply IH|].
  apply Forall_app. split; [done|]. by repeat constructor.
Qed.
Lemma StronglySorted_suffix {A} (R : relation A) k l :
  StronglySorted R (k ++ l) → StronglySorted R l.
Proof. induction k as [|x k IH]; [done|]. intros [? _]%StronglySorted_inv. by apply IH. Qed.

(** On sorted timestamps, pruning the front keeps exactly the recent ones. *)
Lemma prune_retain window now l :
  StronglySorted N.le l →
  drop_while (λ front, (window <? duration_since now front)%N) l
  = retain (λ t, (duration_since now t <=? window)%N) l.
Proof.
  induction 1 as [|x l Hs IH Hx]; simpl; [done|].
  unfold duration_since in *. rewrite (N.leb_antisym window).
  destruct (window <? now - x)%N eqn:E; simpl; [done|]. bN. f_equal. symmetry.
  apply retain_all. eapply Forall_impl; [done|]. intros t Ht. simpl in *.
  apply N.leb_le. lia.
Qed.

Lemma prune_wf window now s : wf now s → wf now (prune_errors window now s).
Proof.
  intros [Hs Hp Ho Hpr].
  destruct (drop_while_suffix (λ front, (window <? duration_since now front)%N)
    (error_timestamps s)) as (k & Hk & _).
  split; simpl; try done.
  - eapply StronglySorted_suffix. by rewrite <-Hk.
  - rewrite Hk in Hp. by apply Forall_app in Hp as [_ ?].
Qed.
Lemma push_wf now s : wf now s → wf now (push_error now s).
Proof.
  intros [Hs Hp Ho Hpr]. split; simpl; try done; [by apply StronglySorted_snoc|].
  apply Forall_app. split; [done|]. repeat constructor. done.
Qed.

Lemma receive_wf cool now name s : wf now s → wf now (receive_entry cool now name s).2.
Proof.
  intros Hwf. pose proof Hwf as [Hs Hp Ho Hpr]. unfold receive_entry.
  destruct (state s) eqn:Hst; [done| |].
  - destruct (opened_at s) eqn:Hop; [|done]. case_match; [|done]. by split.
  - rewrite Hpr. done.
Qed.
Lemma complete_wf threshold window now b s :
  wf now s → wf now (complete_entry threshold window now b s).
Proof.
  intros Hwf. pose proof Hwf as [Hs Hp Ho Hpr]. unfold complete_entry.
  destruct (state s) eqn:Hst, b; try done.
  - assert (wf now (prune_errors window now (push_error now s))) as Hw by
      by apply prune_wf, push_wf.
    cbv zeta. destruct (threshold <=? _)%N; [|done]. destruct Hw. split; simpl in *; try done; lia.
  - by apply prune_wf, push_wf.
  - apply prune_wf, push_wf. split; simpl; try done; lia.
  - split; simpl; done || constructor.
Qed.

Lemma entry_set_eq a s b : entry (set_entry a s b) a = s.
Proof. unfold entry, set_entry. simpl. by rewrite lookup_insert_eq. Qed.
Lemma entry_set_ne a a' s b : a ≠ a' → entry (set_entry a s b) a' = entry b a'.
Proof. intros. unfold entry, set_entry. simpl. by rewrite lookup_insert_ne. Qed.

Lemma entry_on_receive now ctx b :
  entry (on_receive now ctx b).2 (actor_id ctx)
  = (receive_entry (cooldown b) now (actor_name ctx) (entry b (actor_id ctx))).2
  ∧ (on_receive now ctx b).1
  = (receive_entry (cooldown b) now (actor_name ctx) (entry b (actor_id ctx))).1.
Proof.
  unfold on_receive. destruct (receive_entry _ _ _ _). simpl. by rewrite entry_set_eq.
Qed.
Lemma entry_on_receive_ne now ctx b a :
  a ≠ actor_id ctx → entry (on_receive now ctx b).2 a = entry b a.
Proof.
  intros. unfold on_receive. destruct (receive_entry _ _ _ _). by apply entry_set_ne.
Qed.

(** Every actor's state is well-formed, and so are the parameters kept. *)
Lemma circuit_reachable_wf b now a : reachable b now → wf now (entry b a).
Proof.
  intros Hr. revert a. induction Hr as [th w c now|b now e Hr IH Hle]; intros a; [apply circuit_wf_new|].
  specialize (IH a). apply (wf_mono _ _ _ Hle) in IH. destruct e as [t ctx|t ctx o]; simpl in *;
    (destruct (decide (a = actor_id ctx)) as [->|Hne]).
  - destruct (entry_on_receive t ctx b) as [-> _]. by apply receive_wf.
  - by rewrite entry_on_receive_ne.
  - unfold on_complete. rewrite entry_set_eq. by apply complete_wf.
  - unfold on_complete. by rewrite entry_set_ne.
Qed.

(** *** Messages that arrive while the circuit is not closed *)
Fixpoint receives (arrivals : list N) (ctx : InboundContext) (b : CircuitBreakerInterceptor) :
    list Disposition * CircuitBreakerInterceptor :=
  match arrivals with
  | [] => ([], b)
  | now :: rest =>
      let '(d, b) := on_receive now ctx b in
      let '(ds, b) := receives rest ctx b in (d :: ds, b)
  end.
Definition open_reject (ctx : InboundContext) : Disposition :=
  Reject ("circuit breaker open: " +:+ actor_name ctx).

Lemma receives_half_open arrivals ctx b :
  state (entry b (actor_id ctx)) = HalfOpen → probe_in_flight (entry b (actor_id ctx)) = true →
  (receives arrivals ctx b).1 = replicate (length arrivals) (open_reject ctx).
Proof.
  revert b. induction arrivals as [|now rest IH]; intros b Hst Hp; simpl; [done|].
  destruct (entry_on_receive now ctx b) as [He Hd]. unfold receive_entry in *.
  rewrite Hst, Hp in He, Hd. destruct (on_receive now ctx b) as [d b']. simpl in *. subst d.
  specialize (IH b'). rewrite He in IH. specialize (IH Hst Hp).
  destruct (receives rest ctx b'). simpl in *. by rewrite IH.
Qed.

Lemma cooldown_on_receive now ctx b : cooldown (on_receive now ctx b).2 = cooldown b.
Proof. unfold on_receive. by destruct (receive_entry _ _ _ _). Qed.

Lemma receives_open arrivals ctx b t :
  state (entry b (actor_id ctx)) = OpenState → opened_at (entry b (actor_id ctx)) = Some t →
  (receives arrivals ctx b).1
  = match position (λ now, (cooldown b <=? duration_since now t)%N) arrivals with
    | None => replicate (length arrivals) (open_reject ctx)
    | Some i => replicate i (open_reject ctx) ++ [Continue]
                ++ replicate (length arrivals - S i) (open_reject ctx)
    end.
Proof.
  revert b. induction arrivals as [|now rest IH]; intros b Hst Ht; simpl; [done|].
  destruct (entry_on_receive now ctx b) as [He Hd]. unfold receive_entry in *.
  rewrite Hst, Ht in He, Hd. pose proof (cooldown_on_receive now ctx b) as Hcool.
  destruct (on_receive now ctx b) as [d b'] eqn:Hrec. simpl in *.
  destruct (cooldown b <=? duration_since now t)%N eqn:Hc; simpl in *; subst d.
  - pose proof (receives_half_open rest ctx b') as Hh. rewrite He in Hh.
    specialize (Hh eq_refl eq_refl). destruct (receives rest ctx b'). simpl in *.
    by rewrite Hh, Nat.sub_0_r.
  - specialize (IH b'). rewrite He, Hcool in IH. specialize (IH Hst Ht).
    destruct (receives rest ctx b') as [ds b2]. simpl in *. rewrite IH.
    by destruct (position _ rest).
Qed.

(** ** The properties *)
Module Spec.

(** C16. When a closed circuit trips: in any run with a clock that never goes
    back, a handler error leaves exactly the errors that are at most
    [error_window] old (this one included), in order, and the circuit opens,
    with this instant as [opened_at], iff there are at least [error_threshold]
    of them (counted as the code does, as a [u32]); any other outcome changes
    nothing; and no other actor's circuit is touched. *)
Theorem trips_at_threshold b now t ctx (o : Outcome unit) :
  reachable b now → (now <= t)%N → state_for b (actor_id ctx) = ClosedState →
  let old := entry b (actor_id ctx) in
  let b' := on_complete t ctx o b in
  let recent := retain (λ e, (duration_since t e <=? error_window b)%N)
                  (error_timestamps old ++ [t]) in
  entry b' (actor_id ctx)
  = (if is_handler_error o then
       if (error_threshold b <=? len_u32 recent)%N
       then mkState OpenState recent (Some t) false
       else mkState ClosedState recent None false
     else old)
  ∧ ∀ a, a ≠ actor_id ctx → entry b' a = entry b a.
Proof.
  intros Hr Hle Hst old b' recent.
  assert (wf t old) as [Hs Hp Ho Hpr] by by eapply wf_mono; [|eapply circuit_reachable_wf].
  assert (state old = ClosedState) as Hcl.
  { unfold old, entry, state_for in *. by destruct (states b !! actor_id ctx). }
  rewrite Hcl in *. rewrite bool_decide_eq_false_2 in Hpr by done.
  assert (opened_at old = None) as Hop by by destruct (opened_at old).
  split; [|intros a Ha; by apply entry_set_ne].
  unfold b', on_complete. rewrite entry_set_eq. fold old. unfold complete_entry.
  rewrite Hcl. destruct (is_handler_error o); [|done]. cbv zeta.
  unfold prune_errors, push_error. simpl.
  rewrite prune_retain by by apply StronglySorted_snoc. fold recent.
  by rewrite Hpr, Hop, Hcl.
Qed.
Definition sample_ctx : InboundContext :=
  mkInboundContext (mkActorId (mkNodeId "n") 1) "a" "M" Tell false None.
Definition one_error : CircuitBreakerInterceptor :=
  ev_step (EvComplete 5 sample_ctx (HandlerError (ActorError_internal "x"))) (new 2 10 7).
Lemma trips_at_threshold_witness :
  entry (on_complete 9 sample_ctx (HandlerError (ActorError_internal "y") : Outcome unit) one_error)
    (actor_id sample_ctx) = mkState OpenState [5%N; 9%N] (Some 9%N) false.
Proof.
  destruct (trips_at_threshold one_error 5 9 sample_ctx (HandlerError (ActorError_internal "y")))
    as [-> _]; [|done|by vm_compute|by vm_compute].
  apply (reachable_step _ 0 (EvComplete 5 sample_ctx _)); [constructor|done].
Defined.

(** C31. An open circuit admits one probe. Of the messages that arrive before
    anything completes, at any times, an open circuit rejects those before the
    cooldown is over, lets the first one after it through, and rejects all the
    rest; a half-open one, which always has its probe in flight, rejects every
    message (so an actor whose probe never completes stays cut off). *)
Theorem open_admits_one_probe b now ctx arrivals :
  reachable b now →
  match state_for b (actor_id ctx) with
  | ClosedState => True
  | OpenState => ∃ t, opened_at (entry b (actor_id ctx)) = Some t ∧
      (receives arrivals ctx b).1
      = match position (λ now, (cooldown b <=? duration_since now t)%N) arrivals with
        | None => replicate (length arrivals) (open_reject ctx)
        | Some i => replicate i (open_reject ctx) ++ [Continue]
                    ++ replicate (length arrivals - S i) (open_reject ctx)
        end
  | HalfOpen => (receives arrivals ctx b).1 = replicate (length arrivals) (open_reject ctx)
  end.
Proof.
  intros Hr. pose proof (circuit_reachable_wf b now (actor_id ctx) Hr) as [_ _ Ho Hp].
  assert (state_for b (actor_id ctx) = state (entry b (actor_id ctx))) as ->.
  { unfold state_for, entry. by destruct (states b !! actor_id ctx). }
  destruct (state (entry b (actor_id ctx))) eqn:Hst; [done| |].
  - destruct (opened_at (entry b (actor_id ctx))) as [t|] eqn:Ht; [|done].
    exists t. split; [done|]. by apply receives_open.
  - apply receives_half_open; [done|]. rewrite Hp. by rewrite bool_decide_eq_true_2.
Qed.
Definition tripped : CircuitBreakerInterceptor :=
  ev_step (EvComplete 9 sample_ctx (HandlerError (ActorError_internal "y"))) one_error.
Lemma open_admits_one_probe_witness :
  (receives [10; 15; 16; 17]%N sample_ctx tripped).1
  = [open_reject sample_ctx; open_reject sample_ctx; Continue; open_reject sample_ctx].
Proof.
  assert (reachable tripped 9) as Hr.
  { apply (reachable_step _ 5 (EvComplete 9 sample_ctx _)); [|done].
    apply (reachable_step _ 0 (EvComplete 5 sample_ctx _)); [constructor|done]. }
  destruct (open_admits_one_probe tripped 9 sample_ctx [10; 15; 16; 17]%N Hr) as (t & Ht & ->).
  vm_compute in Ht. injection Ht as <-. by vm_compute.
Defined.
End Spec.
