(* ===== verification/Supervision.v ===== *)
(** * Supervision (dactor/src/supervision.rs)

    The restart-rate tracker and the three strategies built on it. *)
From S2P Require Import Prelude Node.

#[local] Open Scope string_scope.
#[local] Open Scope list_scope.
#[local] Open Scope nat_scope.

Record ChildTerminated := mkChildTerminated {
  child_id : ActorId; child_name : string; ct_reason : option string
}.

#[export] Instance ChildTerminated_eq_dec : EqDecision ChildTerminated.
Proof. solve_decision. Defined.

Inductive SupervisionAction := Restart | Stop | Escalate.

#[export] Instance SupervisionAction_eq_dec : EqDecision SupervisionAction.
Proof. solve_decision. Defined.

(** ** Restart-rate tracking *)
Record RestartTracker := mkTracker {
  max_restarts : N;
  within : N;
  timestamps : gmap ActorId (list N)
}.
Definition RestartTracker_new (max within : N) : RestartTracker := mkTracker max within ∅.

Definition in_window (tr : RestartTracker) (now t : N) : bool :=
  (duration_since now t <=? within tr)%N.

Definition record (now : N) (child : ActorId) (tr : RestartTracker) : bool * RestartTracker :=
  let entries := default [] (timestamps tr !! child) in
  let entries := retain (in_window tr now) entries in
  if (max_restarts tr <=? len_u32 entries)%N
  then (false, mkTracker (max_restarts tr) (within tr) (<[child := entries]> (timestamps tr)))
  else (true, mkTracker (max_restarts tr) (within tr)
                (<[child := entries ++ [now]]> (timestamps tr))).

Definition sentinel : ActorId := mkActorId (mkNodeId "__supervision_group__") 0.
Definition record_global (now : N) (tr : RestartTracker) : bool * RestartTracker :=
  record now sentinel tr.

Definition action_of (allowed : bool) : SupervisionAction := if allowed then Restart else Stop.

(** ** Strategies: the [SupervisionStrategy] trait as an interface *)
Class SupervisionStrategy (S : Type) := {
  on_child_failed : N → ActorId → string → ActorError → S → SupervisionAction * S
}.

Record OneForOne := mkOneForOne { ofo_tracker : RestartTracker }.
Definition OneForOne_new (max within : N) : OneForOne :=
  mkOneForOne (RestartTracker_new max within).
Definition OneForOne_on_child_failed (now : N) (child : ActorId) (_name : string)
    (_error : ActorError) (s : OneForOne) : SupervisionAction * OneForOne :=
  let '(ok, tr) := record now child (ofo_tracker s) in (action_of ok, mkOneForOne tr).

Record AllForOne := mkAllForOne { afo_tracker : RestartTracker }.
Definition AllForOne_new (max within : N) : AllForOne :=
  mkAllForOne (RestartTracker_new max within).
Definition AllForOne_on_child_failed (now : N) (_child : ActorId) (_name : string)
    (_error : ActorError) (s : AllForOne) : SupervisionAction * AllForOne :=
  let '(ok, tr) := record_global now (afo_tracker s) in (action_of ok, mkAllForOne tr).

Record RestForOne := mkRestForOne { rfo_tracker : RestartTracker; children : list ActorId }.
Definition RestForOne_new (max within : N) : RestForOne :=
  mkRestForOne (RestartTracker_new max within) [].
Definition register_child (child : ActorId) (s : RestForOne) : RestForOne :=
  mkRestForOne (rfo_tracker s) (children s ++ [child]).
Definition children_to_restart (failed : ActorId) (s : RestForOne) : list ActorId :=
  match position (λ id, bool_decide (id = failed)) (children s) with
  | Some pos => drop pos (children s)
  | None => [failed]
  end.
Definition RestForOne_on_child_failed (now : N) (_child : ActorId) (_name : string)
    (_error : ActorError) (s : RestForOne) : SupervisionAction * RestForOne :=
  let '(ok, tr) := record_global now (rfo_tracker s) in
  (action_of ok, mkRestForOne tr (children s)).

#[export] Instance OneForOne_strategy : SupervisionStrategy OneForOne :=
  {| on_child_failed := OneForOne_on_child_failed |}.
#[export] Instance AllForOne_strategy : SupervisionStrategy AllForOne :=
  {| on_child_failed := AllForOne_on_child_failed |}.
#[export] Instance RestForOne_strategy : SupervisionStrategy RestForOne :=
  {| on_child_failed := RestForOne_on_child_failed |}.

(** ** Runs of a strategy
    The failures of a run are stamped by a clock that never goes back; [log]
    is what was answered, oldest first. *)
Record failure := mkFailure { f_now : N; f_child : ActorId }.

Section runs.
Context {S : Type} `{SupervisionStrategy S} (name : string) (error : ActorError).

Fixpoint run_failures (fs : list failure) (s : S) : list (failure * SupervisionAction) * S :=
  match fs with
  | [] => ([], s)
  | f :: fs' =>
      let '(a, s) := on_child_failed (f_now f) (f_child f) name error s in
      let '(log, s) := run_failures fs' s in ((f, a) :: log, s)
  end.
End runs.

(** The restarts granted against one counter. *)
Definition granted (counter : failure → bool) (log : list (failure * SupervisionAction)) : list N :=
  omap (λ p, if counter p.1 && bool_decide (p.2 = Restart) then Some (f_now p.1) else None) log.

(** ** What the strategies have in common
    The interface a strategy meets: each failure is charged to the counter
    [key] gives it, and answered by the tracker. *)
Class Budgeted (S : Type) `{SupervisionStrategy S} := {
  budget : S → RestartTracker;
  key : ActorId → ActorId;
  charged now child name error s :
    let '(a, s') := on_child_failed now child name error s in
    let '(ok, tr) := record now (key child) (budget s) in
    a = action_of ok ∧ budget s' = tr
}.
#[export] Instance OneForOne_budgeted : Budgeted OneForOne.
Proof.
  refine (Build_Budgeted _ _ ofo_tracker (λ c, c) _). intros. simpl. unfold OneForOne_on_child_failed. by destruct (record _ _ _). Defined.
#[export] Instance AllForOne_budgeted : Budgeted AllForOne.
Proof.
  refine (Build_Budgeted _ _ afo_tracker (λ _, sentinel) _). intros. simpl. unfold AllForOne_on_child_failed, record_global. by destruct (record _ _ _).
Defined.
#[export] Instance RestForOne_budgeted : Budgeted RestForOne.
Proof.
  refine (Build_Budgeted _ _ rfo_tracker (λ _, sentinel) _). intros. simpl. unfold RestForOne_on_child_failed, record_global. by destruct (record _ _ _).
Defined.

(** Restarts of the log that are in the window of [now]. *)
Definition recent (w now : N) (l : list N) : list N :=
  retain (λ t, (t <=? now)%N && (duration_since now t <=? w)%N) l.

Lemma recent_app w now l k : recent w now (l ++ k) = recent w now l ++ recent w now k.
Proof. apply retain_app. Qed.

Lemma retain_ext {A} (p q : A → bool) l :
  Forall (λ x, p x = q x) l → retain p l = retain q l.
Proof. induction 1 as [|x l Hx _ IH]; simpl; [done|]. by rewrite Hx, IH. Qed.

Section budget.
Context {S : Type} `{Budgeted S} (name : string) (error : ActorError).

(** The tracker's list for one counter holds, at least, the granted restarts
    that can still count. *)
Record tracks (w : N) (last : N) (gs : list N) (entries : list N) : Prop := {
  tracks_past : Forall (λ t, (t <= last)%N) gs;
  tracks_recent : ∀ now, (last <= now)%N → recent w now gs = recent w now entries;
  tracks_entries : Forall (λ t, (t <= last)%N) entries
}.

Lemma tracks_mono w last last' gs es :
  (last <= last')%N → tracks w last gs es → tracks w last' gs es.
Proof.
  intros Hle [Hp Hr He]. split.
  - eapply Forall_impl; [done|]. simpl. lia.
  - intros now ?. apply Hr. lia.
  - eapply Forall_impl; [done|]. simpl. lia.
Qed.

(** Evicting what is out of the window at [now] loses nothing. *)
Lemma tracks_evict w now gs es :
  tracks w now gs es →
  tracks w now gs (retain (λ t, (duration_since now t <=? w)%N) es)
  ∧ retain (λ t, (duration_since now t <=? w)%N) es = recent w now gs.
Proof.
  intros [Hp Hr He]. split; [split; [done| |]|].
  - intros now' Hle. rewrite (Hr now' Hle). unfold recent. symmetry. apply retain_retain.
    intros t [Ht%N.leb_le Hw%N.leb_le]%andb_true_iff. apply N.leb_le.
    unfold duration_since in *. lia.
  - eapply Forall_retain; done.
  - rewrite (Hr now) by done. apply retain_ext. eapply Forall_impl; [exact He|].
    intros t Ht. simpl in *. by apply N.leb_le in Ht as ->.
Qed.

Lemma tracks_grant w now gs es :
  tracks w now gs es → tracks w now (gs ++ [now]) (es ++ [now]).
Proof.
  intros [Hp Hr He]. split.
  - apply Forall_app. split; [done|]. by repeat constructor.
  - intros now' Hle. by rewrite !recent_app, (Hr now' Hle).
  - apply Forall_app. split; [done|]. by repeat constructor.
Qed.
End budget.

(** The answer the restart budget prescribes, given the log so far. *)
Definition charged_to {S} `{Budgeted S} (k : ActorId) (f : failure) : bool :=
  bool_decide (key (S:=S) (f_child f) = k).
Definition used (S : Type) `{Budgeted S} (w : N) (pre : list (failure * SupervisionAction))
    (f : failure) : list N :=
  recent w (f_now f) (granted (charged_to (S:=S) (key (S:=S) (f_child f))) pre).

Fixpoint clock_ok (last : N) (fs : list failure) : Prop :=
  match fs with [] => True | f :: fs' => (last <= f_now f)%N ∧ clock_ok (f_now f) fs' end.

Section runs_lemmas.
Context {S : Type} `{Budgeted S} (name : string) (error : ActorError).

Record budget_inv (max w last : N) (pre : list (failure * SupervisionAction)) (s : S) : Prop := {
  inv_max : max_restarts (budget s) = max;
  inv_within : within (budget s) = w;
  inv_tracks k : tracks w last (granted (charged_to (S:=S) k) pre)
    (default [] (timestamps (budget s) !! k));
  inv_length k : (len_N (default [] (timestamps (budget s) !! k)) <= max)%N
}.

Lemma granted_snoc c pre f a :
  granted c (pre ++ [(f, a)])
  = granted c pre ++ (if c f && bool_decide (a = Restart) then [f_now f] else []).
Proof. unfold granted. rewrite omap_app. simpl. by destruct (c f && _). Qed.

Lemma len_retain_le (p : N → bool) (l : list N) : (len_N (retain p l) <= len_N l)%N.
Proof. unfold len_N. pose proof (retain_length p l). lia. Qed.

(** One failure: the answer is the prescribed one, and the invariant goes on. *)
Lemma failure_step max w last pre s f :
  (max <= u32_max)%N → budget_inv max w last pre s → (last <= f_now f)%N →
  let '(a, s') := on_child_failed (f_now f) (f_child f) name error s in
  a = action_of (len_N (used S w pre f) <? max)%N
  ∧ budget_inv max w (f_now f) (pre ++ [(f, a)]) s'.
Proof.
  intros Hmax [Hm Hw Ht Hl] Hle. set (k := key (S:=S) (f_child f)).
  pose proof (charged (f_now f) (f_child f) name error s) as Hc. fold k in Hc.
  destruct (on_child_failed _ _ _ _ s) as [a s']. unfold record in Hc. rewrite Hm, Hw in Hc.
  pose proof (tracks_mono _ _ _ _ _ Hle (Ht k)) as Htk.
  set (es := default [] (timestamps (budget s) !! k)) in *.
  destruct (tracks_evict _ _ _ _ Htk) as [Hev Hused].
  assert (retain (in_window (budget s) (f_now f)) es = used S w pre f) as Hes.
  { unfold in_window. rewrite Hw. exact Hused. }
  rewrite Hes in Hc. unfold in_window in *. rewrite Hused in Hev. fold (used S w pre f) in *.
  assert (len_u32 (used S w pre f) = len_N (used S w pre f)) as Hcast.
  { unfold len_u32, len_N. apply wrap32_small. specialize (Hl k). fold es in Hl.
    rewrite <-Hes. pose proof (len_retain_le (in_window (budget s) (f_now f)) es).
    unfold len_N, u32_max in *. unfold in_window in *. lia. }
  rewrite Hcast in Hc.
  assert (∀ k', k' ≠ k → charged_to (S:=S) k' f = false) as Hother.
  { intros k' Hne. unfold charged_to. by apply bool_decide_eq_false. }
  assert (charged_to (S:=S) k f = true) as Hown by by apply bool_decide_eq_true.
  assert (∀ k', k' ≠ k → tracks w (f_now f) (granted (charged_to (S:=S) k') pre)
    (default [] (timestamps (budget s) !! k'))) as Hot.
  { intros k' _. eapply tracks_mono; [exact Hle|apply Ht]. }
  destruct (max <=? len_N (used S w pre f))%N eqn:Hfull; destruct Hc as [-> Hb]; bN.
  - assert ((len_N (used S w pre f) <? max)%N = false) as -> by by apply N.ltb_ge.
    split; [done|]. split; rewrite ?Hb; simpl; try done; intros k'; rewrite ?granted_snoc;
      (destruct (decide (k' = k)) as [->|Hne];
       [rewrite lookup_insert_eq|rewrite lookup_insert_ne by done]); simpl.
    + rewrite andb_false_r, app_nil_r. exact Hev.
    + rewrite Hother, app_nil_r by done. by apply Hot.
    + rewrite <-Hes. etrans; [apply len_retain_le|apply Hl].
    + apply Hl.
  - assert ((len_N (used S w pre f) <? max)%N = true) as -> by by apply N.ltb_lt.
    split; [done|]. split; rewrite ?Hb; simpl; try done; intros k'; rewrite ?granted_snoc;
      (destruct (decide (k' = k)) as [->|Hne];
       [rewrite lookup_insert_eq|rewrite lookup_insert_ne by done]); simpl.
    + rewrite Hown. simpl. by apply tracks_grant.
    + rewrite Hother, app_nil_r by done. by apply Hot.
    + unfold len_N in *. rewrite length_app. simpl. lia.
    + apply Hl.
Qed.

Lemma run_failures_spec max w fs last pre s log s' :
  (max <= u32_max)%N → budget_inv max w last pre s → clock_ok last fs →
  run_failures name error fs s = (log, s') →
  log.*1 = fs ∧
  ∀ pre' f a post, log = pre' ++ (f, a) :: post →
    a = action_of (len_N (used S w (pre ++ pre') f) <? max)%N.
Proof.
  intros Hmax. revert last pre s log. induction fs as [|f fs IH];
    intros last pre s log Hinv Hck; simpl.
  { intros [= <- <-]. split; [done|]. by intros [|? ?]. }
  destruct Hck as [Hle Hck]. pose proof (failure_step max w last pre s f Hmax Hinv Hle) as Hs.
  destruct (on_child_failed _ _ _ _ s) as [a s1]. destruct Hs as [Ha Hinv1].
  destruct (run_failures name error fs s1) as [log1 s2] eqn:Hrun. intros [= <- <-].
  destruct (IH _ _ _ _ Hinv1 Hck Hrun) as [Hfst Hall]. split; [csimpl; by rewrite Hfst|].
  intros [|p pre'] f' a' post Heq; simpl in Heq; injection Heq.
  - intros _ <- <-. by rewrite app_nil_r.
  - intros Hlog <-. rewrite (Hall _ _ _ _ Hlog). by rewrite <-app_assoc.
Qed.

Lemma budget_inv_new max w s :
  budget s = RestartTracker_new max w → budget_inv max w 0 [] s.
Proof.
  intros Hb. split; rewrite ?Hb; simpl; try done; intros k; rewrite lookup_empty; simpl.
  unfold len_N. simpl. lia.
Qed.
End runs_lemmas.

(** The sliding bound follows from the prescribed answers. *)
Section bound.
Context (S : Type) `{Budgeted S}.

Lemma granted_past k log last :
  Forall (λ p, (f_now p.1 <= last)%N) log →
  Forall (λ t, (t <= last)%N) (granted (charged_to (S:=S) k) log).
Proof.
  intros Hall. unfold granted. apply Forall_forall. intros t (p & Hp & Ht)%list_elem_of_omap.
  rewrite Forall_forall in Hall. specialize (Hall p Hp). by case_match; simplify_eq.
Qed.

Lemma clock_ok_past last fs f post :
  clock_ok last (fs ++ f :: post) → Forall (λ g, (f_now g <= f_now f)%N) fs.
Proof.
  revert last. induction fs as [|g fs IH]; intros last; simpl; [done|].
  intros [_ Hck]. constructor; [|by eapply IH]. clear IH. revert Hck. generalize (f_now g) as l.
  induction fs as [|h fs IH]; intros l; simpl; [by intros [? _]|].
  intros [? Hck]. etrans; [done|by apply IH].
Qed.

Lemma sliding_bound max w log last :
  clock_ok last log.*1 →
  (∀ pre f a post, log = pre ++ (f, a) :: post →
     a = action_of (len_N (used S w pre f) <? max)%N) →
  ∀ k t, (len_N (recent w t (granted (charged_to (S:=S) k) log)) <= max)%N.
Proof.
  induction log as [|[f a] log IH] using rev_ind; intros Hck Hall k t; [unfold len_N; simpl; lia|].
  assert (∀ k t, (len_N (recent w t (granted (charged_to (S:=S) k) log)) <= max)%N) as IH'.
  { apply IH.
    - rewrite fmap_app in Hck. simpl in Hck. clear -Hck. revert last Hck.
      induction log as [|[g b] log IH]; intros last; simpl; [done|]. naive_solver.
    - intros pre g b post ->. apply (Hall pre g b (post ++ [(f, a)])).
      by rewrite <-app_assoc. }
  specialize (Hall log f a [] eq_refl). rewrite granted_snoc, recent_app.
  destruct (charged_to (S:=S) k f && bool_decide (a = Restart)) eqn:Hg;
    [|unfold recent at 2; simpl; rewrite app_nil_r; apply IH'].
  apply andb_true_iff in Hg as [Hk%bool_decide_eq_true ->%bool_decide_eq_true].
  unfold used in Hall. rewrite Hk in Hall.
  destruct (len_N (recent w (f_now f) (granted (charged_to (S:=S) k) log)) <? max)%N eqn:Hlt;
    [|done]. bN. simpl.
  destruct ((f_now f <=? t)%N && (duration_since t (f_now f) <=? w)%N) eqn:Hin;
    [|unfold recent at 2; simpl; rewrite Hin, app_nil_r; apply IH'].
  unfold recent at 2. simpl. rewrite Hin.
  apply andb_true_iff in Hin as [Hft Hw]. bN.
  assert (length (recent w t (granted (charged_to (S:=S) k) log))
    ≤ length (recent w (f_now f) (granted (charged_to (S:=S) k) log))) as Hle.
  { apply retain_le. intros g [Hg1 Hg2]%andb_true_iff Hgin.
    assert (g <= f_now f)%N as Hgf.
    { assert (Forall (λ t, (t <= f_now f)%N) (granted (charged_to (S:=S) k) log)) as Hp.
      { apply granted_past. rewrite fmap_app in Hck. apply clock_ok_past in Hck.
        by rewrite Forall_fmap in Hck. }
      rewrite Forall_forall in Hp. by apply Hp. }
    bN. unfold duration_since in *. apply andb_true_iff. split; apply N.leb_le; lia. }
  unfold len_N in *. rewrite length_app. simpl. lia.
Qed.
End bound.

(** ** The properties *)
Module Spec.

(** C18. Restart budgets, for every strategy that meets the interface (one
    counter per child for [OneForOne], one for the whole group for the other
    two): in any run from a new strategy with a clock that never goes back,
    each failure is answered [Restart] iff fewer than [max_restarts] restarts
    were granted against its counter within the last [within], and [Stop]
    otherwise; so at no instant do more than [max_restarts] granted restarts
    fall into one window. *)
Theorem restart_budget {S} `{Budgeted S} name error max w (s : S) fs log s' :
  (max <= u32_max)%N → budget s = RestartTracker_new max w → clock_ok 0 fs →
  run_failures name error fs s = (log, s') →
  log.*1 = fs
  ∧ (∀ pre f a post, log = pre ++ (f, a) :: post →
       a = if (len_N (used S w pre f) <? max)%N then Restart else Stop)
  ∧ ∀ k t, (len_N (recent w t (granted (charged_to (S:=S) k) log)) <= max)%N.
Proof.
  intros Hmax Hb Hck Hrun.
  destruct (run_failures_spec name error max w fs 0 [] s log s' Hmax
    (budget_inv_new _ _ _ Hb) Hck Hrun) as [Hfst Hall].
  split_and!; [done|exact Hall|]. intros k t.
  eapply (sliding_bound S max w log 0); [by rewrite Hfst|exact Hall].
Qed.
Definition child (n : N) : ActorId := mkActorId (mkNodeId "n") n.
Lemma restart_budget_witness :
  (run_failures "c" (ActorError_internal "x")
     [mkFailure 1 (child 1); mkFailure 2 (child 2); mkFailure 3 (child 1); mkFailure 12 (child 2)]
     (AllForOne_new 2 10)).1.*2 = [Restart; Restart; Stop; Restart]
  ∧ ∀ k t, (len_N (recent 10 t (granted (charged_to (S:=AllForOne) k)
     (run_failures "c" (ActorError_internal "x")
       [mkFailure 1 (child 1); mkFailure 2 (child 2); mkFailure 3 (child 1);
        mkFailure 12 (child 2)] (AllForOne_new 2 10)).1)) <= 2)%N.
Proof.
  split; [by vm_compute|].
  destruct (restart_budget "c" (ActorError_internal "x") 2 10 (AllForOne_new 2 10)
     [mkFailure 1 (child 1); mkFailure 2 (child 2); mkFailure 3 (child 1); mkFailure 12 (child 2)]
     _ _ ltac:(done) eq_refl ltac:(simpl; lia) (surjective_pairing _)) as (_ & _ & Hb).
  exact Hb.
Defined.

(** [RestForOne::children_to_restart]: for a registered child, the failed
    child and everything registered after its first registration, in spawn
    order, and nothing registered before; for an unknown one, itself alone. *)
Theorem rest_for_one_order s failed :
  (failed ∉ children s → children_to_restart failed s = [failed])
  ∧ (failed ∈ children s → ∃ before after,
       children s = before ++ failed :: after ∧ failed ∉ before
       ∧ children_to_restart failed s = failed :: after).
Proof.
  unfold children_to_restart. split; intros Hin.
  - assert (position (λ id, bool_decide (id = failed)) (children s) = None) as ->; [|done].
    apply position_None, Forall_forall. intros x Hx. apply bool_decide_eq_false. by intros ->.
  - destruct (position _ (children s)) as [pos|] eqn:Hpos.
    + apply position_Some in Hpos as (x & Hx & ->%bool_decide_eq_true & Hbefore).
      exists (take pos (children s)), (drop (Datatypes.S pos) (children s)).
      rewrite <-(drop_S _ _ _ Hx), take_drop. split_and!; [done| |done].
      intros Hf. rewrite Forall_forall in Hbefore. apply Hbefore in Hf.
      by apply bool_decide_eq_false in Hf.
    + apply position_None in Hpos. rewrite Forall_forall in Hpos. apply Hpos in Hin.
      by apply bool_decide_eq_false in Hin.
Qed.
End Spec.
