(* ===== verification/Throttle.v ===== *)
(** * Rate limiter (dactor/src/throttle.rs)

    [ActorRateLimiter]: a counter per target in a tumbling window. The [u64]
    arithmetic is the code's: [None] is the panic of an overflow in a build
    with overflow checks. *)
From S2P Require Import Prelude Node Interceptor.

#[local] Open Scope string_scope.
#[local] Open Scope list_scope.
#[local] Open Scope nat_scope.

Record ActorRateLimiter := mkLimiter {
  max_rate : N;
  window : N;
  counts : gmap ActorId (N * N)
}.
Definition new (rate window : N) : ActorRateLimiter := mkLimiter rate window ∅.

(** The two-byte sign of the message is the multiplication sign of the source. *)
Definition reject_text (name : string) (count limit : N) : string :=
  "actor " +:+ name +:+ " exceeded 2× rate limit (" +:+ pretty count
    +:+ " messages, limit " +:+ pretty limit +:+ ")".

(** The verdict on the [count]-th message of a window. *)
Definition verdict (p : profile) (name : string) (rate count : N) : option Disposition :=
  twice ← mul64 p rate 2;
  if (twice <? count)%N then Some (Reject (reject_text name count rate))
  else if (rate <? count)%N then
    ms ← mul64 p (count - rate) 10;
    Some (Delay (from_millis (N.min ms 1000)))
  else Some Continue.

Definition on_send (p : profile) (now : N) (ctx : OutboundContext) (l : ActorRateLimiter) :
    option (Disposition * ActorRateLimiter) :=
  let entry := default (0%N, now) (counts l !! target_id ctx) in
  entry ←
    (if (window l <? duration_since now entry.2)%N then Some (1%N, now)
     else count ← add64 p entry.1 1; Some (count, entry.2));
  let l := mkLimiter (max_rate l) (window l) (<[target_id ctx := entry]> (counts l)) in
  d ← verdict p (out_target_name ctx) (max_rate l) entry.1;
  Some (d, l).

(** A sequence of sends to one target. *)
Fixpoint sends (p : profile) (ctx : OutboundContext) (nows : list N) (l : ActorRateLimiter) :
    option (list Disposition * ActorRateLimiter) :=
  match nows with
  | [] => Some ([], l)
  | now :: rest =>
      '(d, l) ← on_send p now ctx l;
      '(ds, l) ← sends p ctx rest l;
      Some (d :: ds, l)
  end.

(** The documented bands, in exact arithmetic. *)
Definition band (name : string) (rate k : N) : Disposition :=
  if (k <=? rate)%N then Continue
  else if (k <=? 2 * rate)%N then Delay (from_millis (N.min (10 * (k - rate)) 1000))
  else Reject (reject_text name k rate).

Lemma verdict_band p name rate k :
  (rate < 2 ^ 63)%N → (k < 2 ^ 60)%N → verdict p name rate k = Some (band name rate k).
Proof.
  intros Hr Hk. unfold verdict, band, mul64.
  rewrite (checked64_small p (rate * 2)) by (unfold u64_max; lia). simpl.
  replace (rate * 2)%N with (2 * rate)%N by lia.
  destruct (2 * rate <? k)%N eqn:E1; destruct (rate <? k)%N eqn:E2; bN; try lia.
  - assert ((k <=? rate)%N = false) as -> by (apply N.leb_gt; lia).
    by assert ((k <=? 2 * rate)%N = false) as -> by (apply N.leb_gt; lia).
  - assert ((k <=? rate)%N = false) as -> by (apply N.leb_gt; lia).
    assert ((k <=? 2 * rate)%N = true) as -> by (apply N.leb_le; lia).
    rewrite checked64_small by (unfold u64_max; lia). simpl. do 3 f_equal. lia.
  - by assert ((k <=? rate)%N = true) as -> by (apply N.leb_le; lia).
Qed.

Lemma on_send_counts p now ctx l k t0 :
  (max_rate l < 2 ^ 63)%N → (k + 1 < 2 ^ 60)%N →
  (now - t0 <= window l)%N → counts l !! target_id ctx = Some (k, t0) →
  on_send p now ctx l = Some (band (out_target_name ctx) (max_rate l) (k + 1),
    mkLimiter (max_rate l) (window l) (<[target_id ctx := (k + 1, t0)%N]> (counts l))).
Proof.
  intros Hr Hk Hw Hc. unfold on_send. rewrite Hc. simpl.
  assert ((window l <? duration_since now t0)%N = false) as ->
    by (apply N.ltb_ge; unfold duration_since; lia).
  unfold add64. rewrite checked64_small by (unfold u64_max; lia). simpl.
  rewrite verdict_band by lia. done.
Qed.

(** The verdicts on the messages [k + 1], [k + 2], ... of a window. *)
Fixpoint bands (name : string) (rate k : N) (n : nat) : list Disposition :=
  match n with
  | 0 => []
  | S n => band name rate (k + 1) :: bands name rate (k + 1) n
  end.

Lemma sends_in_window p ctx nows l k t0 :
  (max_rate l < 2 ^ 63)%N → (k + len_N nows < 2 ^ 60)%N →
  Forall (λ now, (now - t0 <= window l)%N) nows →
  counts l !! target_id ctx = Some (k, t0) →
  ∃ l', sends p ctx nows l
    = Some (bands (out_target_name ctx) (max_rate l) k (length nows), l')
    ∧ counts l' !! target_id ctx = Some (k + len_N nows, t0)%N
    ∧ ∀ a, a ≠ target_id ctx → counts l' !! a = counts l !! a.
Proof.
  unfold len_N. revert l k. induction nows as [|now nows IH]; intros l k Hr Hk Hall Hc; simpl.
  { exists l. by rewrite N.add_0_r. }
  apply Forall_cons in Hall as [Hnow Hall]. simpl in Hk.
  rewrite (on_send_counts p now ctx l k t0) by (done || lia). simpl.
  destruct (IH (mkLimiter (max_rate l) (window l)
    (<[target_id ctx := (k + 1, t0)%N]> (counts l))) (k + 1)%N)
    as (l' & Hs & Hc' & Ho); simpl; [done|lia|done|by rewrite lookup_insert_eq|].
  exists l'. rewrite Hs. simpl. split_and!; [done| |].
  - rewrite Hc'. do 2 f_equal. lia.
  - intros a Ha. rewrite Ho by done. simpl. by rewrite lookup_insert_ne.
Qed.

(** ** The properties *)
Module Spec.

(** One window of the limiter, either build, for a rate below 2^63 and fewer
    than 2^60 messages: of the messages that start a window (the target is new,
    or its window is over) and fall into it, the [k]-th continues up to the
    rate, is delayed by 10 ms per message over it (1 s at most) up to twice the
    rate, and is rejected beyond; no arithmetic overflows; and no other
    target's counter changes. *)
Theorem window_bands p ctx now nows l :
  (max_rate l < 2 ^ 63)%N → (len_N nows + 1 < 2 ^ 60)%N →
  match counts l !! target_id ctx with
  | None => True | Some (_, t0) => (window l < duration_since now t0)%N
  end →
  Forall (λ t, (t - now <= window l)%N) nows →
  ∃ l', sends p ctx (now :: nows) l
    = Some (bands (out_target_name ctx) (max_rate l) 0 (length (now :: nows)), l')
    ∧ ∀ a, a ≠ target_id ctx → counts l' !! a = counts l !! a.
Proof.
  intros Hr Hk Hfresh Hall.
  assert (on_send p now ctx l = Some (band (out_target_name ctx) (max_rate l) 1,
    mkLimiter (max_rate l) (window l) (<[target_id ctx := (1, now)%N]> (counts l)))) as Hfirst.
  { unfold on_send. destruct (counts l !! target_id ctx) as [[c t0]|]; simpl.
    - apply N.ltb_lt in Hfresh as ->. simpl. by rewrite verdict_band by lia.
    - unfold duration_since. rewrite N.sub_diag.
      assert ((window l <? 0)%N = false) as -> by (apply N.ltb_ge; lia). simpl.
      by rewrite verdict_band by lia. }
  cbn [sends]. rewrite Hfirst. simpl.
  destruct (sends_in_window p ctx nows (mkLimiter (max_rate l) (window l)
    (<[target_id ctx := (1, now)%N]> (counts l))) 1 now) as (l' & Hs & _ & Ho);
    simpl; [done|lia|done|by rewrite lookup_insert_eq|].
  exists l'. rewrite Hs. split; [done|]. intros a Ha. rewrite Ho by done. simpl.
  by rewrite lookup_insert_ne.
Qed.
Definition sample_ctx : OutboundContext :=
  mkOutboundContext (mkActorId (mkNodeId "n") 1) "a" "M" Tell false.
Lemma window_bands_witness :
  ∃ l', sends Debug sample_ctx [10; 11; 12]%N (new 1 5)
    = Some ([Continue; Delay 10000000; Reject (reject_text "a" 3 1)], l')
    ∧ ∀ a, a ≠ target_id sample_ctx → counts l' !! a = counts (new 1 5) !! a.
Proof.
  apply (window_bands Debug sample_ctx 10 [11; 12]%N (new 1 5)); [done|done|done|].
  by repeat constructor.
Defined.
End Spec.

(** ** The rate at which doubling overflows
    From 2^63 on, [max_rate * 2] does not fit a [u64]: a checked build panics
    on the first message, an unchecked one compares with a wrapped bound. *)
Lemma overflow_debug now ctx rate win :
  (2 ^ 63 <= rate)%N → on_send Debug now ctx (new rate win) = None.
Proof.
  intros Hr. unfold on_send, new. simpl. unfold duration_since. rewrite N.sub_diag.
  assert ((win <? 0)%N = false) as -> by (apply N.ltb_ge; lia). simpl.
  unfold verdict, mul64, checked64.
  by assert ((rate * 2 <=? u64_max)%N = false) as -> by (apply N.leb_gt; unfold u64_max; lia).
Qed.
Lemma overflow_release_rejects now ctx win :
  ∃ l, on_send Release now ctx (new (2 ^ 63) win)
       = Some (Reject (reject_text (out_target_name ctx) 1 (2 ^ 63)), l).
Proof.
  unfold on_send, new. simpl. unfold duration_since. rewrite N.sub_diag.
  assert ((win <? 0)%N = false) as -> by (apply N.ltb_ge; lia).
  eexists. reflexivity.
Qed.
