(* ===== verification/DeadLetter.v ===== *)
(** * Dead letters (dactor/src/dead_letter.rs)

    Why a message could not be delivered, and the handler that collects them. *)
From S2P Require Import Prelude Node.

#[local] Open Scope string_scope.
#[local] Open Scope list_scope.
#[local] Open Scope nat_scope.

Inductive DeadLetterReason :=
  | ActorStopped
  | ActorNotFound
  | MailboxFull
  | DroppedByInterceptor (interceptor : string)
  | WireInterceptorDrop (interceptor : string)
  | WireInterceptorReject (interceptor reason : string).

#[export] Instance DeadLetterReason_eq_dec : EqDecision DeadLetterReason.
Proof. solve_decision. Defined.

Definition DeadLetterReason_display (r : DeadLetterReason) : string :=
  match r with
  | ActorStopped => "actor stopped"
  | ActorNotFound => "actor not found"
  | MailboxFull => "mailbox full"
  | DroppedByInterceptor i => "dropped by interceptor '" +:+ i +:+ "'"
  | WireInterceptorDrop i => "dropped by wire interceptor '" +:+ i +:+ "'"
  | WireInterceptorReject i why =>
      "rejected by wire interceptor '" +:+ i +:+ "': " +:+ why
  end.

(** The type-erased message body is not part of the model. *)
Record DeadLetterEvent := mkDeadLetterEvent {
  dl_target_id : ActorId;
  dl_target_name : option string;
  dl_message_type : string;
  dl_send_mode : SendMode;
  dl_reason : DeadLetterReason
}.

#[export] Instance DeadLetterEvent_eq_dec : EqDecision DeadLetterEvent.
Proof. solve_decision. Defined.

(** [DeadLetterHandler::on_dead_letter], on a world [W]. *)
Definition DeadLetterHandler (W : Type) := DeadLetterEvent → W → W.

(** [DeadLetterInfo] has the fields of the event without the body. *)
Definition DeadLetterInfo := DeadLetterEvent.
Record CollectingDeadLetterHandler := mkCollecting { dl_events : list DeadLetterInfo }.
Definition Collecting_new : CollectingDeadLetterHandler := mkCollecting [].
Definition Collecting_count (h : CollectingDeadLetterHandler) : nat := length (dl_events h).
Definition Collecting_clear (h : CollectingDeadLetterHandler) : CollectingDeadLetterHandler :=
  mkCollecting [].
Definition Collecting_on_dead_letter : DeadLetterHandler CollectingDeadLetterHandler :=
  λ event h, mkCollecting (dl_events h ++ [event]).
