(* ===== verification/ActorLoop.v ===== *)
(** * The actor loop

    What a runtime does with one dispatch envelope, and when an actor stops:
    the [handle] and [post_stop] of the adapters (dactor-ractor, dactor-kameo
    and dactor-coerce, each src/runtime.rs) and the loop of the reference
    runtime (dactor/src/test_support/test_runtime.rs). The four share their
    text; they differ in how a fatal error stops the actor ([Ractor_handle],
    [Kameo_handle], [Coerce_handle], [TestRuntime_loop]) and in three details of
    stopping ([StopPolicy]).

    The task of a message owns the actor, its context and the stop reason. The
    world holds what is shared: the watcher map, the timers, the other actors'
    mailboxes. A hook that panics is not modelled. *)
From S2P Require Import Prelude Node Message Mailbox Interceptor Task Actor Dispatch.
From S2P Require Import Supervision DeadLetter.

#[local] Open Scope string_scope.
#[local] Open Scope list_scope.
#[local] Open Scope nat_scope.

(** ** Watchers
    [notify] is the closure of an entry: it tells the watcher it captures. *)
Record WatchEntry (Rf : Type) := mkWatchEntry { watcher_id : ActorId; notify : Rf }.
Arguments mkWatchEntry {Rf}.
Arguments watcher_id {Rf}.
Arguments notify {Rf}.

Abbreviation WatcherMap Rf := (gmap ActorId (list (WatchEntry Rf))).

(** What the loop needs of the world: [tokio::time::sleep] was called, the map
    behind [Arc<Mutex<..>>], a call of an entry's closure. *)
Class LoopWorld (W Rf : Type) := {
  start_timer : N → W → W;
  watcher_map : W → WatcherMap Rf;
  set_watcher_map : WatcherMap Rf → W → W;
  run_notify : Rf → ChildTerminated → W → W
}.

Section loop.
Context {A W M T Snd R Rf : Type} `{Actor A W M T Snd R} `{LoopWorld W Rf}.

(** What a task of the loop owns. *)
Abbreviation Local := ((A * ActorContext W) * option string)%type.
Abbreviation LTask X := (Task Local W X).
(** The future a wrapper sees also owns the oneshot slot of the result. *)
Abbreviation HandlerFuture :=
  (Task ((A * ActorContext W) * option (option (DispatchResult W R))) W ()).
Abbreviation Inbound := (InboundInterceptor W (option M) T R HandlerFuture).

Context (interceptors : list Inbound) (dead_letter_handler : option (DeadLetterHandler W)).

Definition modify_ctx (f : ActorContext W → ActorContext W) : LTask () :=
  sync (λ l w, (((l.1.1, f l.1.2), l.2), w, ())).
Definition set_stop_reason (r : option string) : LTask () :=
  sync (λ l w, ((l.1, r), w, ())).
(** [tokio::time::sleep(d).await]. *)
Definition sleep (d : N) : LTask () :=
  _ ← sync (λ l w, (l, start_timer d w, ())); yield_now.

Definition inbound_context (c : ActorContext W) (message_type : string) (mode : SendMode) :
    InboundContext :=
  mkInboundContext (ctx_actor_id c) (ctx_actor_name c) message_type mode false None.

(** ** Before the handler
    The [for] over [on_receive]: the headers, the sum of the delays, and who
    rejected; [None] is the overflow of [total_delay += d]. *)
Fixpoint receive_loop (ictx : InboundContext) (rh : RuntimeHeaders) (msg : option M)
    (ics : list Inbound) (headers : Headers) (total_delay : N) (w : W) :
    option (Headers * N * option (string * Disposition)) * W :=
  match ics with
  | [] => (Some (headers, total_delay, None), w)
  | interceptor :: rest =>
      let '(disp, headers, w) := in_on_receive interceptor ictx rh headers msg w in
      match disp with
      | Continue => receive_loop ictx rh msg rest headers total_delay w
      | Delay d =>
          match duration_add total_delay d with
          | Some total_delay => receive_loop ictx rh msg rest headers total_delay w
          | None => (None, w)
          end
      | disp => (Some (headers, total_delay, Some (in_name interceptor, disp)), w)
      end
  end.

(** The dead letter of a drop; the handler runs under [catch_unwind]. *)
Definition loop_dead_letter (c : ActorContext W) (message_type : string) (mode : SendMode)
    (interceptor_name : string) (disp : Disposition) (w : W) : W :=
  match disp, dead_letter_handler with
  | Drop, Some handler =>
      handler (mkDeadLetterEvent (ctx_actor_id c) (Some (ctx_actor_name c)) message_type mode
        (DroppedByInterceptor interceptor_name)) w
  | _, _ => w
  end.

(** ** Running the handler *)
Definition race {X} (cancel : option (CancelToken W)) (t : LTask X) : LTask (option X) :=
  match cancel with
  | Some token => select_biased token t
  | None => x ← t; mret (Some x)
  end.

(** The fast path. The outer [None] lost the race, the inner one is a panic. *)
Definition dispatch_direct (d : Dispatch W M T Snd R) (cancel : option (CancelToken W)) :
    LTask (option (option (DispatchResult W R))) :=
  race cancel (on_fst (catch_unwind (dispatch d))).

(** [let (result_tx, mut result_rx) = oneshot::channel()] around a task. *)
Fixpoint with_slot {E X} (slot : option E)
    (t : Task ((A * ActorContext W) * option E) W X) : Task (A * ActorContext W) W (X * option E) :=
  match t with
  | Await f => Await (λ l w,
      match f (l, slot) w with
      | (l', w, Ready x) => (l'.1, w, Ready (x, l'.2))
      | (l', w, Panicked) => (l'.1, w, Panicked)
      | (l', w, Pending k) => (l'.1, w, Pending (with_slot l'.2 k))
      end)
  end.

(** The inner future: dispatch, then [result_tx.send(r)]. *)
Definition wrapped_inner (d : Dispatch W M T Snd R) : HandlerFuture :=
  r ← on_fst (catch_unwind (dispatch d));
  sync (λ l w, ((l.1, Some r), w, ())).

(** The wrapped path: whatever the wrappers do, the result is the one in the
    slot; an empty slot counts as a panic. *)
Definition dispatch_wrapped (wrappers : list (option (HandlerWrapper HandlerFuture)))
    (d : Dispatch W M T Snd R) (cancel : option (CancelToken W)) :
    LTask (option (option (DispatchResult W R))) :=
  x ← race cancel
        (on_fst (with_slot None (catch_unwind (apply_handler_wrappers wrappers (wrapped_inner d)))));
  mret (match x with
        | None => None
        | Some (_, Some r) => Some r
        | Some (_, None) => Some None
        end).

(** ** After the handler *)
Definition complete_all (ictx : InboundContext) (rh : RuntimeHeaders) (headers : Headers)
    (outcome : Outcome R) (w : W) : W :=
  foldl (λ w i, in_on_complete i ictx rh headers outcome w) w interceptors.

Definition success_outcome (r : DispatchResult W R) (mode : SendMode) : Outcome R :=
  match reply r, mode with
  | Some reply, Ask => AskSuccess reply
  | _, _ => TellSuccess
  end.

Definition handler_panicked : ActorError := ActorError_internal "handler panicked".

(** What the runtime has to do about the actor. *)
Inductive Flow := KeepGoing | Fatal.

(** The [match result]. *)
Definition complete (rh : RuntimeHeaders) (message_type : string) (mode : SendMode)
    (result : option (DispatchResult W R)) : LTask Flow :=
  match result with
  | Some dispatch_result =>
      sync (λ l w,
        let ictx := inbound_context l.1.2 message_type mode in
        let w := complete_all ictx rh (ctx_headers l.1.2)
                   (success_outcome dispatch_result mode) w in
        (l, send_reply dispatch_result w, KeepGoing))
  | None =>
      action ← sync (λ l w,
        let ictx := inbound_context l.1.2 message_type mode in
        let '(action, a, w) := on_error handler_panicked l.1.1 w in
        (((a, l.1.2), l.2),
         complete_all ictx rh (ctx_headers l.1.2) (HandlerError handler_panicked) w, action));
      match action with
      | ResumeAction | RestartAction => mret KeepGoing
      | StopAction | EscalateAction =>
          _ ← set_stop_reason (Some "handler panicked"); mret Fatal
      end
  end.

(** From the wrappers on, for a message the interceptors let through. *)
Definition deliver (rh : RuntimeHeaders) (d : Dispatch W M T Snd R) (headers : Headers) :
    LTask Flow :=
  let mode := send_mode d in
  let message_type := message_type_name d in
  wrappers ← sync (λ l w,
    (l, w, collect_handler_wrappers interceptors (inbound_context l.1.2 message_type mode) headers));
  let needs_wrap := existsb (λ o, match o with Some _ => true | None => false end) wrappers in
  _ ← modify_ctx (set_headers headers);
  let cancel_token := cancel_token d in
  _ ← modify_ctx (set_cancellation_token cancel_token);
  already ← sync (λ l w, (l, w, match cancel_token with Some token => token w | None => false end));
  if (already : bool) then
    _ ← sync (λ l w, (l, cancel d w, ()));
    _ ← modify_ctx (set_cancellation_token None);
    mret KeepGoing
  else
    result ← (if needs_wrap then dispatch_wrapped wrappers d cancel_token
              else dispatch_direct d cancel_token);
    _ ← modify_ctx (set_cancellation_token None);
    match result with
    | None => mret KeepGoing
    | Some result => complete rh message_type mode result
    end.

(** One message, from the mailbox to the reply. *)
Definition handle_message (rh : RuntimeHeaders) (d : Dispatch W M T Snd R) : LTask Flow :=
  let mode := send_mode d in
  let message_type := message_type_name d in
  _ ← modify_ctx (λ c, set_headers Headers_new (set_send_mode (Some mode) c));
  received ← sync (λ l w,
    let ictx := inbound_context l.1.2 message_type mode in
    let '(r, w) := receive_loop ictx rh (message_any d) interceptors Headers_new 0 w in
    (l, w, r));
  match received with
  | None => panic_now
  | Some (headers, total_delay, Some (interceptor_name, disp)) =>
      sync (λ l w,
        let w := loop_dead_letter l.1.2 message_type mode interceptor_name disp w in
        (l, reject d disp interceptor_name w, KeepGoing))
  | Some (headers, total_delay, None) =>
      _ ← (if (total_delay =? 0)%N then mret () else sleep total_delay);
      deliver rh d headers
  end.

(** ** The adapters
    [request_stop] is [myself.stop(None)] of ractor and [ctx.stop(None)] of
    coerce. The kameo adapter panics again, so that kameo stops the actor. *)
Context (request_stop : W → W).

Definition Ractor_handle (rh : RuntimeHeaders) (d : Dispatch W M T Snd R) : LTask () :=
  flow ← handle_message rh d;
  match flow with
  | KeepGoing => mret ()
  | Fatal => sync (λ l w, (l, request_stop w, ()))
  end.
Definition Kameo_handle (rh : RuntimeHeaders) (d : Dispatch W M T Snd R) : LTask () :=
  flow ← handle_message rh d;
  match flow with KeepGoing => mret () | Fatal => panic_now end.
(** The envelope is taken out of the [Mutex<Option<..>>] of the message. *)
Definition Coerce_handle (rh : RuntimeHeaders) (msg : option (Dispatch W M T Snd R)) : LTask () :=
  match msg with
  | None => mret ()
  | Some d =>
      flow ← handle_message rh d;
      match flow with
      | KeepGoing => mret ()
      | Fatal => sync (λ l w, (l, request_stop w, ()))
      end
  end.

(** The reference runtime has its own loop: a [None] in the mailbox is the stop
    signal. [mailbox] is what the polls of [rx.recv()] yield, each message with
    the runtime headers made for it. *)
Fixpoint TestRuntime_loop
    (mailbox : StreamReceiver (option (RuntimeHeaders * Dispatch W M T Snd R))) : LTask () :=
  match mailbox with
  | [] => mret ()
  | None :: mailbox => Await (λ l w, (l, w, Pending (TestRuntime_loop mailbox)))
  | Some None :: _ => mret ()
  | Some (Some (rh, d)) :: mailbox =>
      flow ← handle_message rh d;
      match flow with KeepGoing => TestRuntime_loop mailbox | Fatal => mret () end
  end.

(** ** Stopping *)
Record StopPolicy := mkStopPolicy {
  clears_token : bool;        (* resets the cancellation token of the context *)
  reason_on_panic : bool;     (* a panic in on_stop becomes the stop reason *)
  cleans_watcher : bool       (* removes the entries where the actor watches *)
}.
Definition on_stop_panic : string := "actor panicked in on_stop".

(** The watcher map without the actor: as a target and, in the adapters, as a
    watcher; empty lists go. *)
Definition remove_watchers (p : StopPolicy) (actor_id : ActorId) (m : WatcherMap Rf) :
    list (WatchEntry Rf) * WatcherMap Rf :=
  let target_entries := default [] (m !! actor_id) in
  let m := delete actor_id m in
  (target_entries,
   if cleans_watcher p
   then filter (λ kv, kv.2 ≠ [])
          (retain (λ e, negb (bool_decide (watcher_id e = actor_id))) <$> m)
   else m).

Definition notify_all (entries : list (WatchEntry Rf)) (notification : ChildTerminated) (w : W) : W :=
  foldl (λ w entry, run_notify (notify entry) notification w) w entries.

(** [stop_notifier] is the sender of [await_stop]'s channel, if it is there. *)
Definition post_stop (p : StopPolicy) (stop_notifier : option (result string () → W → W)) :
    LTask () :=
  _ ← modify_ctx (λ c,
    let c := set_headers Headers_new (set_send_mode None c) in
    if clears_token p then set_cancellation_token None c else c);
  stopped ← on_fst (on_fst (catch_unwind on_stop));
  let on_stop_panicked := match stopped with Some _ => false | None => true end in
  sync (λ l w,
    let stop_reason :=
      if reason_on_panic p && on_stop_panicked
      then match l.2 with Some r => Some r | None => Some on_stop_panic end
      else l.2 in
    let actor_id := ctx_actor_id l.1.2 in
    let '(entries, m) := remove_watchers p actor_id (watcher_map w) in
    let w := set_watcher_map m w in
    let w := notify_all entries
               (mkChildTerminated actor_id (ctx_actor_name l.1.2) stop_reason) w in
    let w := match stop_notifier with
             | Some tx => tx (if on_stop_panicked then Err on_stop_panic else Ok ()) w
             | None => w
             end in
    ((l.1, stop_reason), w, ())).

Definition Ractor_stop_policy : StopPolicy := mkStopPolicy true true true.
Definition Kameo_stop_policy : StopPolicy := mkStopPolicy true false true.
Definition Coerce_stop_policy : StopPolicy := mkStopPolicy true false true.
Definition TestRuntime_stop_policy : StopPolicy := mkStopPolicy false false false.

Definition Ractor_post_stop := post_stop Ractor_stop_policy.
Definition Kameo_on_stop := post_stop Kameo_stop_policy.
Definition Coerce_stopped := post_stop Coerce_stop_policy.

(** ** The copies of the loop
    kameo, coerce and the reference runtime repeat the code of ractor. *)
Definition Kameo_receive_loop := receive_loop.
Definition Kameo_dead_letter := loop_dead_letter.
Definition Kameo_deliver := deliver.
Definition Kameo_complete := complete.
Definition Coerce_receive_loop := receive_loop.
Definition Coerce_dead_letter := loop_dead_letter.
Definition Coerce_deliver := deliver.
Definition Coerce_complete := complete.
Definition TestRuntime_receive_loop := receive_loop.
Definition TestRuntime_dead_letter := loop_dead_letter.
Definition TestRuntime_deliver := deliver.
Definition TestRuntime_complete := complete.

(** ** Starting: the state an actor begins with, and its [on_start] *)
Definition spawned (actor_id : ActorId) (actor_name : string) (a : A) : Local :=
  ((a, ActorContext_new actor_id actor_name), None).
Definition start : LTask () := on_fst on_start.

(** ** A whole life in the reference runtime *)
(** [mark_dead] is [alive.store(false)], [unregister] the registry's. *)
Definition TestRuntime_task (mark_dead unregister : W → W)
    (stop_tx : result string () → W → W)
    (mailbox : StreamReceiver (option (RuntimeHeaders * Dispatch W M T Snd R))) : LTask () :=
  _ ← start;
  _ ← TestRuntime_loop mailbox;
  _ ← sync (λ l w, (l, mark_dead w, ()));
  _ ← post_stop TestRuntime_stop_policy (Some stop_tx);
  sync (λ l w, (l, unregister w, ())).
End loop.

(** ** Lemmas *)
Lemma run_modify_ctx {A W} (env : nat → W → W) n f (l : (A * ActorContext W) * option string) w :
  run env n (modify_ctx f) l w = mkRan n ((l.1.1, f l.1.2), l.2) w (Some ()).
Proof. done. Qed.

(** The slot of the wrapped path keeps what every step of the task keeps. *)
Lemma hoare_with_slot {A W E X} (P I : A * ActorContext W → W → Prop) (K : option E → Prop)
    (Q : X → A * ActorContext W → W → Prop) slot t :
  K slot →
  hoare (λ l w, P l.1 w ∧ K l.2) (λ l w, I l.1 w ∧ K l.2) (λ x l w, Q x l.1 w ∧ K l.2) t →
  hoare P I (λ x l w, Q x.1 l w ∧ K x.2) (with_slot slot t).
Proof.
  assert (∀ t slot, K slot →
    keeps (λ l w, I l.1 w ∧ K l.2) (λ x l w, Q x l.1 w ∧ K l.2) t →
    keeps I (λ x l w, Q x.1 l w ∧ K x.2) (with_slot slot t)) as Hkeeps.
  { clear t slot. intros t. induction t as [f IH] using Task_poll_ind. simpl.
    intros slot HK Hk l w HI. specialize (Hk (l, slot) w (conj HI HK)).
    destruct (f (l, slot) w) as [[l1 w1] [x| |k]] eqn:Hf; [done|by destruct Hk|].
    destruct Hk as [[? ?] Hk]. split; [done|]. by eapply IH. }
  intros HK Ht l w HP. specialize (Ht (l, slot) w (conj HP HK)). destruct t as [f]. simpl in *.
  destruct (f (l, slot) w) as [[l1 w1] [x| |k]]; [done|by destruct Ht|].
  destruct Ht as [[? ?] Hk]. auto.
Qed.

Section receive.
Context {A W M T Snd R Rf : Type} `{Actor A W M T Snd R}.
Context (ictx : InboundContext) (rh : RuntimeHeaders) (msg : option M).
Abbreviation Ic := (InboundInterceptor W (option M) T R
  (Task ((A * ActorContext W) * option (option (DispatchResult W R))) W ())).
Implicit Types ics : list Ic.

(** The hooks that let a message pass, with the delays they ask for. *)
Inductive received : list Ic → Headers → W → list N → Headers → W → Prop :=
  | received_nil h w : received [] h w [] h w
  | received_continue i ics h w h1 w1 ds h2 w2 :
      in_on_receive i ictx rh h msg w = (Continue, h1, w1) →
      received ics h1 w1 ds h2 w2 → received (i :: ics) h w ds h2 w2
  | received_delay i ics h w d h1 w1 ds h2 w2 :
      in_on_receive i ictx rh h msg w = (Delay d, h1, w1) →
      received ics h1 w1 ds h2 w2 → received (i :: ics) h w (d :: ds) h2 w2.

Fixpoint total (ds : list N) : N :=
  match ds with [] => 0 | d :: ds => d + total ds end.

Definition refuses (disp : Disposition) : Prop :=
  match disp with Continue | Delay _ => False | _ => True end.

Lemma duration_add_cases x y :
  (duration_add x y = Some (x + y)%N ∧ (x + y <= duration_max)%N)
  ∨ (duration_add x y = None ∧ (duration_max < x + y)%N).
Proof. unfold duration_add. case_match; bN; [left|right]; split; try done; lia. Qed.

Lemma receive_cases ics h td w :
  (td <= duration_max)%N →
  match receive_loop ictx rh msg ics h td w with
  | (Some (h', t, None), w') =>
      ∃ ds, received ics h w ds h' w' ∧ t = (td + total ds)%N ∧ (t <= duration_max)%N
  | (Some (h', t, Some (name, disp)), w') =>
      ∃ pre i post ds h1 w1, ics = pre ++ i :: post ∧ received pre h w ds h1 w1
        ∧ in_on_receive i ictx rh h1 msg w1 = (disp, h', w')
        ∧ refuses disp ∧ name = in_name i
  | (None, _) =>
      ∃ pre post ds h1 w1, ics = pre ++ post ∧ received pre h w ds h1 w1
        ∧ (duration_max < td + total ds)%N
  end.
Proof.
  revert h td w. induction ics as [|i ics IH]; intros h td w Htd; cbn [receive_loop].
  { exists []. split; [constructor|]. simpl. lia. }
  destruct (in_on_receive i ictx rh h msg w) as [[disp h1] w1] eqn:Hi.
  destruct disp as [|d| | |];
    try (exists [], i, ics, [], h, w; split_and!; [done|constructor|exact Hi|done|done]).
  - specialize (IH h1 td w1 Htd).
    destruct (receive_loop ictx rh msg ics h1 td w1) as [[[[h' t] [[name disp]|]]|] w'].
    + destruct IH as (pre & j & post & ds & h2 & w2 & -> & Hr & ?).
      exists (i :: pre), j, post, ds, h2, w2. split_and!; try done; [by econstructor|tauto..].
    + destruct IH as (ds & Hr & ?). exists ds. split; [by econstructor|done].
    + destruct IH as (pre & post & ds & h2 & w2 & -> & Hr & ?).
      exists (i :: pre), post, ds, h2, w2. split_and!; try done. by econstructor.
  - destruct (duration_add_cases td d) as [[-> Hd]|[-> Hd]].
    + specialize (IH h1 (td + d)%N w1 Hd).
      destruct (receive_loop ictx rh msg ics h1 (td + d)%N w1) as [[[[h' t] [[name disp]|]]|] w'].
      * destruct IH as (pre & j & post & ds & h2 & w2 & -> & Hr & ?).
        exists (i :: pre), j, post, (d :: ds), h2, w2.
        split_and!; try done; [by eapply received_delay|tauto..].
      * destruct IH as (ds & Hr & ? & ?). exists (d :: ds). simpl.
        split_and!; [by eapply received_delay|lia|done].
      * destruct IH as (pre & post & ds & h2 & w2 & -> & Hr & ?).
        exists (i :: pre), post, (d :: ds), h2, w2. simpl.
        split_and!; [done|by eapply received_delay|lia].
    + exists [i], ics, [d], h1, w1. simpl.
      split_and!; [done|eapply received_delay; [exact Hi|constructor]|lia].
Qed.
End receive.

(** ** What a message leaves behind
    A trace of the world records the answers the caller gets and the calls of
    [on_complete]; nothing else that runs writes to it. *)
Inductive LoopEvent (R : Type) :=
  | Answered (a : result RuntimeError R)
  | Completed (name : string) (outcome : Outcome R).
Arguments Answered {R} a.
Arguments Completed {R} name outcome.

Section traced.
Context {A W M T Snd R Rf : Type} `{Actor A W M T Snd R} `{LoopWorld W Rf}.
Abbreviation Inbounds := (list (InboundInterceptor W (option M) T R
  (Task ((A * ActorContext W) * option (option (DispatchResult W R))) W ()))).
Context (interceptors : Inbounds) (dead_letter_handler : option (DeadLetterHandler W)).
Context (env : nat → W → W) (trace : W → list (LoopEvent R)).

Definition traces (a : list (LoopEvent R)) : A * ActorContext W → W → Prop :=
  λ _ w, trace w = a.

(** What the slot of a wrapped dispatch may hold. *)
Definition genuine (d : Dispatch W M T Snd R) (res : DispatchResult W R) : Prop :=
  ∃ r, res = result_of d r ∧ (is_Some r ↔ is_Some (caller d)).
Definition slot_ok (d : Dispatch W M T Snd R) (s : option (option (DispatchResult W R))) : Prop :=
  match s with Some (Some res) => genuine d res | _ => True end.

Record quiet (d : Dispatch W M T Snd R) : Prop := {
  q_receive : ∀ i ctx rh h m w, i ∈ interceptors →
    trace (in_on_receive i ctx rh h m w).2 = trace w;
  q_complete : ∀ i ctx rh h o w, i ∈ interceptors →
    trace (in_on_complete i ctx rh h o w) = trace w ++ [Completed (in_name i) o];
  q_dead_letter : ∀ f ev w, dead_letter_handler = Some f → trace (f ev w) = trace w;
  q_timer : ∀ x w, trace (start_timer x w) = trace w;
  q_env : ∀ n w, trace (env n w) = trace w;
  q_on_error : ∀ e a w, trace (on_error e a w).2 = trace w;
  q_handle : ∀ msg a, hoare (traces a) (traces a) (λ _, traces a) (handle msg);
  q_expand : ∀ msg s a, hoare (traces a) (traces a) (λ _, traces a) (handle_expand msg s);
  q_reduce : ∀ rx a, hoare (traces a) (traces a) (λ _, traces a) (handle_reduce rx);
  q_transform : ∀ x s a, hoare (traces a) (traces a) (λ _, traces a) (handle_transform x s);
  q_transformed : ∀ s a, hoare (traces a) (traces a) (λ _, traces a) (on_transform_complete s);
  q_wrap : ∀ i ctx h wr a t, i ∈ interceptors → wrap_handler i ctx h = Some wr →
    let I := λ l w, traces a l.1 w ∧ slot_ok d l.2 in
    hoare I I (λ _, I) t → hoare I I (λ _, I) (wr t);
  q_caller : ∀ tx a w, caller d = Some tx → trace (tx a w) = trace w ++ [Answered a]
}.

(** How a message can end. *)
Inductive Ending :=
  | Refused (e : RuntimeError)      (* by an interceptor *)
  | Unstarted                       (* its token was set before the handler *)
  | Finished (r : option R)         (* the handler returned *)
  | Failed                          (* the handler panicked *)
  | Abandoned.                      (* the handler lost to the token *)

Definition answers (d : Dispatch W M T Snd R) (a : result RuntimeError R) : list (LoopEvent R) :=
  match caller d with Some _ => [Answered a] | None => [] end.
Definition completions (outcome : Outcome R) : list (LoopEvent R) :=
  (λ i, Completed (in_name i) outcome) <$> interceptors.
Definition ending_trace (d : Dispatch W M T Snd R) (e : Ending) : list (LoopEvent R) :=
  match e with
  | Refused err => answers d (Err err)
  | Unstarted => answers d (Err RCancelled)
  | Finished r =>
      completions (success_outcome (result_of d r) (send_mode d))
        ++ match r with Some r => answers d (Ok r) | None => [] end
  | Failed => completions (HandlerError handler_panicked)
  | Abandoned => []
  end.
Definition answered (es : list (LoopEvent R)) : list (result RuntimeError R) :=
  omap (λ e, match e with Answered a => Some a | Completed _ _ => None end) es.

Lemma answered_ending d e : length (answered (ending_trace d e)) ≤ 1.
Proof.
  assert (∀ o, answered (completions o) = []) as Hc.
  { intros o. unfold completions, answered. induction interceptors; simpl; auto. }
  assert (∀ a, length (answered (answers d a)) ≤ 1) as Ha
    by (intros a; unfold answers; destruct (caller d); simpl; lia).
  destruct e as [err| |r| |]; simpl; try apply Ha; [|by rewrite Hc; simpl; lia|lia].
  unfold answered in *. rewrite omap_app, Hc. simpl. destruct r; [apply Ha|simpl; lia].
Qed.

Section message.
Context (rh : RuntimeHeaders) (d : Dispatch W M T Snd R) (Hq : quiet d).
Abbreviation LState := ((A * ActorContext W) * option string)%type.

(** The trace so far and the stop reason. *)
Definition at_ (a : list (LoopEvent R)) (s : option string) : LState → W → Prop :=
  λ l w, traces a l.1 w ∧ l.2 = s.

Lemma answer_trace a w : trace (answer d a w) = trace w ++ answers d a.
Proof.
  unfold answer, answers. destruct (caller d) as [tx|] eqn:Hc; [|by rewrite app_nil_r].
  by apply (q_caller _ Hq).
Qed.

Lemma complete_all_trace ictx h o w :
  trace (complete_all interceptors ictx rh h o w) = trace w ++ completions o.
Proof.
  unfold complete_all, completions.
  pose proof (λ i w Hi, q_complete _ Hq i ictx rh h o w Hi) as Hcomp. clear Hq.
  revert w Hcomp. induction interceptors as [|i ics IH]; intros w Hcomp; simpl.
  { by rewrite app_nil_r. }
  rewrite IH by (intros; apply Hcomp; by constructor).
  rewrite Hcomp by constructor. by rewrite <-app_assoc.
Qed.

Lemma receive_trace ictx h td w :
  trace (receive_loop ictx rh (message_any d) interceptors h td w).2 = trace w.
Proof.
  pose proof (λ i h w Hi, q_receive _ Hq i ictx rh h (message_any d) w Hi) as Hrec. clear Hq.
  revert h td w Hrec. induction interceptors as [|i ics IH]; intros h td w Hrec; simpl; [done|].
  pose proof (Hrec i h w ltac:(constructor)) as Hi.
  destruct (in_on_receive i ictx rh h (message_any d) w) as [[disp h1] w1]. simpl in Hi.
  destruct disp as [|x| | |]; simpl; try done; [|destruct (duration_add td x); [|done]];
    rewrite IH; auto; intros; apply Hrec; by constructor.
Qed.

(** The dispatch itself. *)
Lemma dispatch_quiet a :
  hoare (traces a) (traces a) (λ res l w, traces a l w ∧ genuine d res) (dispatch d).
Proof.
  assert (∀ rx s c, hoare (traces a) (traces a) (λ _, traces a) (transform_loop rx s c)) as Hloop.
  { intros rx s c. induction rx as [|[x|] rx IH]; cbn [transform_loop].
    - by apply hoare_ret.
    - apply (hoare_bind _ _ (λ _, traces a)); [by apply hoare_sync|]. intros [].
      + by apply hoare_ret.
      + eapply hoare_bind; [apply (q_transform _ Hq)|]. intros ?. exact IH.
    - intros l w HI. simpl. split; [done|]. by apply hoare_keeps. }
  assert (∀ r, is_Some r ↔ is_Some (caller d) → genuine d (result_of d r)) as Hgen
    by (intros r Hr; by exists r).
  unfold genuine, result_of in *. destruct d as [msg|msg tx c|msg s c|rx tx c|rx s c];
    cbn [dispatch caller] in *; unfold_envelope.
  - eapply hoare_bind; [apply (q_handle _ Hq)|]. intros r. apply hoare_ret. intros l w HI.
    split; [done|]. by apply (Hgen None).
  - eapply hoare_bind; [apply (q_handle _ Hq)|]. intros r. apply hoare_ret. intros l w HI.
    split; [done|]. apply (Hgen (Some r)). split; eauto.
  - eapply hoare_bind; [apply (q_expand _ Hq)|]. intros r. apply hoare_ret. intros l w HI.
    split; [done|]. by apply (Hgen None).
  - eapply hoare_bind; [apply (q_reduce _ Hq)|]. intros r. apply hoare_ret. intros l w HI.
    split; [done|]. apply (Hgen (Some r)). split; eauto.
  - eapply hoare_bind; [apply Hloop|]. intros b.
    eapply (hoare_bind _ _ (λ _, traces a)).
    { destruct b; [by apply hoare_ret|apply (q_transformed _ Hq)]. }
    intros ?. apply hoare_ret. intros l w HI. split; [done|]. by apply (Hgen None).
Qed.

Lemma hoare_race {X} a s c (Q : X → LState → W → Prop) t :
  hoare (at_ a s) (at_ a s) Q t → hoare (at_ a s) (at_ a s) (caught (at_ a s) Q) (race c t).
Proof.
  intros Ht. destruct c as [token|]; [by apply hoare_select|].
  eapply hoare_bind; [exact Ht|]. intros x. by apply hoare_ret.
Qed.

(** The dispatch on either path: nothing is written yet, and a result is the
    envelope's own. *)
Definition raced (a : list (LoopEvent R)) (s : option string)
    (o : option (option (DispatchResult W R))) : LState → W → Prop :=
  λ l w, at_ a s l w ∧ match o with Some (Some res) => genuine d res | _ => True end.

Lemma dispatch_direct_quiet a s c :
  hoare (at_ a s) (at_ a s) (raced a s) (dispatch_direct d c).
Proof.
  pose proof (hoare_on_fst _ _ _ (λ e, e = s) _ (hoare_catch _ _ _ _ (dispatch_quiet a))) as Hd.
  eapply hoare_mono; [done| |apply hoare_race; exact Hd].
  intros [[res|]|] l w; unfold raced, at_; simpl; tauto.
Qed.

Lemma wrapped_inner_quiet a :
  let I := λ l w, traces a l.1 w ∧ slot_ok d l.2 in
  hoare I I (λ _, I) (wrapped_inner d).
Proof.
  intros I. unfold wrapped_inner. eapply hoare_bind.
  { exact (hoare_on_fst _ _ _ (slot_ok d) _ (hoare_catch _ _ _ _ (dispatch_quiet a))). }
  intros [res|]; apply hoare_sync; intros l w; unfold I; simpl; tauto.
Qed.

Lemma wrappers_quiet ictx h a :
  let I := λ l w, traces a l.1 w ∧ slot_ok d l.2 in
  hoare I I (λ _, I) (apply_handler_wrappers
    (collect_handler_wrappers interceptors ictx h) (wrapped_inner d)).
Proof.
  intros I. pose proof (λ i wr t Hi, q_wrap _ Hq i ictx h wr a t Hi) as Hwrap.
  pose proof (wrapped_inner_quiet a) as Hinner. clear Hq.
  unfold collect_handler_wrappers. induction interceptors as [|i ics IH]; [exact Hinner|].
  csimpl. rewrite apply_wrappers_cons.
  assert (hoare I I (λ _, I) (apply_handler_wrappers
    ((λ i, wrap_handler i ictx h) <$> ics) (wrapped_inner d))) as Hrest.
  { apply IH. intros j wr t Hj. apply Hwrap. by constructor. }
  destruct (wrap_handler i ictx h) as [wr|] eqn:Hw; [|exact Hrest].
  apply (Hwrap i); [by constructor|done|exact Hrest].
Qed.

Lemma dispatch_wrapped_quiet ictx h a s c :
  hoare (at_ a s) (at_ a s) (raced a s)
    (dispatch_wrapped (collect_handler_wrappers interceptors ictx h) d c).
Proof.
  unfold dispatch_wrapped. eapply hoare_bind.
  { apply hoare_race. refine (hoare_on_fst (traces a) (traces a)
      (λ x l w, traces a l w ∧ slot_ok d x.2) (λ e, e = s) _ _).
    apply (hoare_with_slot (traces a) (traces a) (slot_ok d) (λ _, traces a)); [done|].
    eapply hoare_mono; [| |apply hoare_catch, wrappers_quiet]; [done|]. by intros [[]|]. }
  intros [[[u|] [res|]]|]; apply hoare_ret; intros l w; unfold raced, at_, slot_ok; simpl;
    try tauto; destruct res; tauto.
Qed.

Lemma send_reply_genuine r w :
  is_Some r ↔ is_Some (caller d) →
  trace (send_reply (result_of d r) w)
  = trace w ++ match r with Some r => answers d (Ok r) | None => [] end.
Proof.
  intros Hr. unfold result_of, answers, send_reply.
  destruct (caller d) as [tx|] eqn:Hc, r as [r|]; simpl; rewrite ?app_nil_r; try done.
  by apply (q_caller _ Hq).
Qed.

End message.

End traced.

(** ** Delivery *)
Section delivery.
Context {A W M T Snd R Rf : Type} `{Actor A W M T Snd R} `{LoopWorld W Rf}.
Abbreviation Future := (Task ((A * ActorContext W) * option (option (DispatchResult W R))) W ()).
Abbreviation Inbounds := (list (InboundInterceptor W (option M) T R Future)).
Abbreviation LState := ((A * ActorContext W) * option string)%type.
Context (interceptors : Inbounds) (env : nat → W → W).

Lemma run_with_slot {E X} n slot (t : Task ((A * ActorContext W) * option E) W X) l w :
  run env n (with_slot slot t) l w
  = let r := run env n t (l, slot) w in
    mkRan (tick r) (loc r).1 (world r) ((λ x, (x, (loc r).2)) <$> out r).
Proof.
  revert n slot l w. induction t as [f IH] using Task_poll_ind. intros n slot l w. simpl.
  destruct (f (l, slot) w) as [[l1 w1] [x| |k]] eqn:Hf; [done..|].
  rewrite (IH _ _ _ _ _ Hf). cbn zeta. by rewrite <-surjective_pairing.
Qed.

Lemma no_wrappers ictx h :
  (∀ i, i ∈ interceptors → wrap_handler i ictx h = None) →
  existsb (λ o, match o with Some _ => true | None => false end)
    (collect_handler_wrappers interceptors ictx h) = false.
Proof.
  unfold collect_handler_wrappers. induction interceptors as [|i ics IH]; intros Hw; [done|].
  simpl. rewrite Hw by constructor. simpl. apply IH. intros j Hj. apply Hw. by constructor.
Qed.
(** Wrappers that only run what they wrap. *)
Definition transparent ictx h : Prop :=
  ∀ i wr, i ∈ interceptors → wrap_handler i ictx h = Some wr →
    ∀ n (t : Future) l w, run env n (wr t) l w = run env n t l w.
Lemma run_transparent ictx h n (t : Future) l w :
  transparent ictx h →
  run env n (apply_handler_wrappers (collect_handler_wrappers interceptors ictx h) t) l w = run env n t l w.
Proof.
  unfold collect_handler_wrappers, transparent. induction interceptors as [|i ics IH]; intros Ht; [done|].
  csimpl. rewrite apply_wrappers_cons.
  assert (∀ (o : option (HandlerWrapper Future)) t', wrap_handler i ictx h = o →
    run env n (match o with Some wr => wr | None => λ next, next end t') l w = run env n t' l w) as Hi
    by (intros [wr|] t' Ho; [apply (Ht i); [constructor|done]|done]).
  rewrite Hi by done. apply IH. intros j wr Hj. apply Ht. by constructor.
Qed.

(** The handler's state when the interceptors' headers are in. *)
Definition handler_state (d : Dispatch W M T Snd R) (h : Headers) (l : LState) : A * ActorContext W :=
  (l.1.1, set_cancellation_token (cancel_token d) (set_headers h l.1.2)).
Definition cleared (l : A * ActorContext W) (s : option string) : LState :=
  ((l.1, set_cancellation_token None l.2), s).
Definition token_set (d : Dispatch W M T Snd R) (w : W) : bool :=
  match cancel_token d with Some token => token w | None => false end.

(** The two ways to run the handler, and what follows. *)
Definition dispatch_on (wrappers : list (option (HandlerWrapper Future))) (d : Dispatch W M T Snd R) :
    Task LState W (option (option (DispatchResult W R))) :=
  if existsb (λ o, match o with Some _ => true | None => false end) wrappers
  then dispatch_wrapped wrappers d (cancel_token d) else dispatch_direct d (cancel_token d).
Definition after_handler rh (d : Dispatch W M T Snd R) (r : option (option (DispatchResult W R))) :
    Task LState W Flow :=
  _ ← modify_ctx (set_cancellation_token None);
  match r with
  | None => mret KeepGoing
  | Some o => complete interceptors rh (message_type_name d) (send_mode d) o
  end.
Lemma run_deliver rh d h n l w :
  run env n (deliver interceptors rh d h) l w
  = if token_set d w then mkRan n (cleared (handler_state d h l) l.2) (cancel d w) (Some KeepGoing)
    else run_then env (run env n (dispatch_on (collect_handler_wrappers interceptors
           (inbound_context l.1.2 (message_type_name d) (send_mode d)) h) d) (handler_state d h l, l.2) w)
           (after_handler rh d).
Proof.
  unfold deliver, dispatch_on, token_set.
  rewrite run_bind, run_sync. unfold run_then at 1. cbn [out tick loc world].
  rewrite run_bind, run_modify_ctx. unfold run_then at 1. cbn [out tick loc world].
  rewrite run_bind, run_modify_ctx. unfold run_then at 1. cbn [out tick loc world fst snd].
  rewrite run_bind, run_sync. unfold run_then at 1. cbn [out tick loc world].
  destruct (match cancel_token d with Some token => token w | None => false end); [|by rewrite run_bind].
  rewrite run_bind, run_sync. unfold run_then at 1. cbn [out tick loc world].
  rewrite run_bind, run_modify_ctx. reflexivity.
Qed.

(** The handler runs to its end, or it is dropped at a suspension at which its
    token is set. *)
Lemma direct_outcome (d : Dispatch W M T Snd R) c n st (s : option string) w :
  let b := run env n (dispatch d) st w in
  let r := run env n (dispatch_direct d c) (st, s) w in
  r = mkRan (tick b) (loc b, s) (world b) (Some (Some (out b)))
  ∨ ∃ token l', c = Some token ∧ token (world r) = true
      ∧ suspends env n (dispatch d) st w (tick r) l' (world r)
      ∧ r = mkRan (tick r) (l', s) (world r) (Some None).
Proof.
  cbn zeta. unfold dispatch_direct, race. destruct c as [token|].
  - pose proof (run_select env n (on_fst (catch_unwind (dispatch d))) token (st, s) w) as Hsel. cbn zeta in Hsel.
    destruct (run env n (select_biased token _) _ w) as [m l1 w1 [[o|]|]]; cbn [out] in Hsel.
    + destruct Hsel as [Heq Ho]. rewrite run_on_fst, run_catch in Heq, Ho. cbn zeta in Heq, Ho.
      cbn [fst snd tick loc world out] in Heq, Ho. injection Ho as <-. by left.
    + destruct Hsel as [Htok Hsus]. cbn [tick loc world] in *.
      apply suspends_on_fst in Hsus as [Hsus Hl]. apply suspends_catch in Hsus. right.
      exists token, l1.1. split_and!; try done. simpl in Hl. by rewrite <-Hl, <-surjective_pairing.
    + destruct Hsel as [_ Hsel]. by rewrite run_on_fst, run_catch in Hsel.
  - left. by rewrite run_bind, run_on_fst, run_catch.
Qed.
Lemma run_deliver_direct rh d h n l w :
  (∀ i ictx, i ∈ interceptors → wrap_handler i ictx h = None) → token_set d w = false →
  run env n (deliver interceptors rh d h) l w
  = run_then env (run env n (dispatch_direct d (cancel_token d)) (handler_state d h l, l.2) w)
      (after_handler rh d).
Proof. intros Hw Ht. rewrite run_deliver, Ht. unfold dispatch_on. by rewrite no_wrappers by auto. Qed.

(** With wrappers the slot decides. *)
Lemma wrapped_outcome ictx h (d : Dispatch W M T Snd R) n st (s : option string) w :
  let wrappers := collect_handler_wrappers interceptors ictx h in
  let b := run env n (dispatch d) st w in
  let r := run env n (dispatch_wrapped wrappers d (cancel_token d)) (st, s) w in
  (∃ o, out r = Some o
    ∧ (o = None → ∃ token, cancel_token d = Some token ∧ token (world r) = true))
  ∧ (cancel_token d = None → transparent ictx h →
       r = mkRan (tick b) (loc b, s) (world b) (Some (Some (out b)))).
Proof.
  cbn zeta. unfold dispatch_wrapped, race.
  set (inner := apply_handler_wrappers _ (wrapped_inner d)).
  rewrite run_bind. split.
  - destruct (cancel_token d) as [token|].
    + pose proof (run_select env n (on_fst (with_slot None (catch_unwind inner))) token (st, s) w) as Hsel.
      cbn zeta in Hsel. destruct (run env n (select_biased token _) _ w) as [m l1 w1 [[[x o]|]|]];
        cbn [out] in Hsel; unfold run_then; cbn [out tick loc world]; rewrite ?run_mret; cbn [out tick loc world].
      * exists (Some match o with Some r => r | None => None end). split; [by destruct o|done].
      * eexists. split; [done|]. intros _. exists token. split; [done|apply Hsel].
      * destruct Hsel as [_ Hsel]. by rewrite run_on_fst, run_with_slot, run_catch in Hsel.
    + rewrite run_bind, run_on_fst, run_with_slot, run_catch. unfold run_then. cbn.
      destruct (loc _).2 as [r|]; by eexists.
  - intros -> Htr. rewrite run_bind, run_on_fst, run_with_slot, run_catch. unfold inner.
    rewrite (run_transparent _ _ _ _ _ _ Htr). unfold wrapped_inner.
    rewrite run_bind, run_on_fst, run_catch. unfold run_then. by cbn.
Qed.

(** What becomes of the actor when its message is completed. *)
Lemma run_complete_result rh mt mode res n l w :
  run env n (complete interceptors rh mt mode (Some res)) l w
  = mkRan n l (send_reply res (complete_all interceptors (inbound_context l.1.2 mt mode) rh
      (ctx_headers l.1.2) (success_outcome res mode) w)) (Some KeepGoing).
Proof. done. Qed.
Lemma run_complete_panic rh mt mode n l w :
  run env n (complete interceptors rh mt mode None) l w
  = let '(action, a, w') := on_error handler_panicked l.1.1 w in
    let stops := match action with StopAction | EscalateAction => true | _ => false end in
    mkRan n ((a, l.1.2), if stops then Some "handler panicked" else l.2)
      (complete_all interceptors (inbound_context l.1.2 mt mode) rh (ctx_headers l.1.2)
         (HandlerError handler_panicked) w')
      (Some (if stops then Fatal else KeepGoing)).
Proof.
  unfold complete. rewrite run_bind, run_sync. destruct (on_error _ _ _) as [[action a] w'].
  unfold run_then. cbn [out tick loc world]. by destruct action.
Qed.
End delivery.

(** ** How a message ends
    What the code promises of one message, without the code: [how_ended] is read
    off the hooks, the token and a run of the handler alone ([body]). *)
Section ends.
Context {A W M T Snd R Rf : Type} `{Actor A W M T Snd R} `{LoopWorld W Rf}.
Abbreviation Future := (Task ((A * ActorContext W) * option (option (DispatchResult W R))) W ()).
Abbreviation Inbounds := (list (InboundInterceptor W (option M) T R Future)).
Abbreviation LState := ((A * ActorContext W) * option string)%type.
Context (interceptors : Inbounds) (dead_letter_handler : option (DeadLetterHandler W)).
Context (env : nat → W → W) (trace : W → list (LoopEvent R)).

(** The error of a refusal, for the caller. *)
Inductive refusal (name : string) : Disposition → RuntimeError → Prop :=
  | refusal_reject reason : refusal name (Reject reason) (RRejected name reason)
  | refusal_retry after : refusal name (Retry after) (RRetryAfter name after)
  | refusal_drop : refusal name Drop (ActorNotFoundError ("dropped by interceptor '" +:+ name +:+ "'")).

Section one.
Context (rh : RuntimeHeaders) (d : Dispatch W M T Snd R) (n : nat) (l : LState) (w : W).

(** What the hooks are shown, and the context the handler runs on. *)
Definition shown : InboundContext :=
  mkInboundContext (ctx_actor_id l.1.2) (ctx_actor_name l.1.2) (message_type_name d) (send_mode d) false None.
Definition message_context (h : Headers) : ActorContext W :=
  set_cancellation_token (cancel_token d) (set_headers h (set_send_mode (Some (send_mode d)) l.1.2)).

(** All hooks let the message pass, with the headers [h]; after the delays they
    asked for the handler may start at [m], in [w1]. *)
Inductive let_through (h : Headers) (m : nat) (w1 : W) : Prop :=
  | let_through_at_once ds :
      received shown rh (message_any d) interceptors Headers_new w ds h w1 →
      total ds = 0%N → m = n → let_through h m w1
  | let_through_late ds w' :
      received shown rh (message_any d) interceptors Headers_new w ds h w' →
      (0 < total ds <= duration_max)%N → m = S n → w1 = env n (start_timer (total ds) w') →
      let_through h m w1.

(** No wrapper is in the way: there are none, or they only run what they wrap
    and there is no race they could change. *)
Definition plain (h : Headers) : Prop :=
  (∀ i, i ∈ interceptors → wrap_handler i shown h = None)
  ∨ cancel_token d = None ∧ transparent interceptors env shown h.

(** What the handler did, started at [m] in [w1]; [r] is where the message ends. *)
Inductive handler_end (h : Headers) (m : nat) (w1 : W) (r : ran LState W Flow) : Ending → Prop :=
  | handler_finished x :
      (plain h → let b := run env m (body d) (l.1.1, message_context h) w1 in
         out b = Some x ∧ loc r = cleared (loc b) l.2) →
      handler_end h m w1 r (Finished x)
  | handler_failed :
      (plain h → let b := run env m (body d) (l.1.1, message_context h) w1 in
         out b = None
         ∧ let '(action, a, _) := on_error handler_panicked (loc b).1 (world b) in
           (loc r).1.1 = a
           ∧ out r = Some match action with StopAction | EscalateAction => Fatal | _ => KeepGoing end) →
      handler_end h m w1 r Failed
  | handler_dropped token :
      cancel_token d = Some token → token (world r) = true →
      (plain h → ∃ l', suspends env m (dispatch d) (l.1.1, message_context h) w1 (tick r) l' (world r)
         ∧ loc r = cleared l' l.2) →
      handler_end h m w1 r Abandoned.

Inductive how_ended (r : ran LState W Flow) : Ending → Prop :=
  | how_refused pre i post ds h1 w1 disp h2 w2 err :
      interceptors = pre ++ i :: post →
      received shown rh (message_any d) pre Headers_new w ds h1 w1 →
      in_on_receive i shown rh h1 (message_any d) w1 = (disp, h2, w2) →
      refusal (in_name i) disp err →
      world r = answer d (Err err)
        match disp, dead_letter_handler with
        | Drop, Some handler =>
            handler (mkDeadLetterEvent (ctx_actor_id l.1.2) (Some (ctx_actor_name l.1.2))
              (message_type_name d) (send_mode d) (DroppedByInterceptor (in_name i))) w2
        | _, _ => w2
        end →
      how_ended r (Refused err)
  | how_unstarted h m w1 :
      let_through h m w1 → token_set d w1 = true → world r = answer d (Err RCancelled) w1 →
      how_ended r Unstarted
  | how_handled h m w1 e :
      let_through h m w1 → token_set d w1 = false → handler_end h m w1 r e → how_ended r e.

(** A message that ended as [e]. *)
Record ends_with (r : ran LState W Flow) (flow : Flow) (e : Ending) : Prop := {
  ew_how : how_ended r e;
  ew_trace : trace (world r) = trace w ++ ending_trace interceptors d e;
  ew_once : length (answered (ending_trace interceptors d e)) ≤ 1;
  ew_replies : match e with Finished x => is_Some x ↔ is_Some (caller d) | _ => True end;
  ew_token : cancellation_token (loc r).1.2 = None;
  ew_flow : match flow with
            | KeepGoing => (loc r).2 = l.2
            | Fatal => e = Failed ∧ (loc r).2 = Some "handler panicked"
            end
}.
(** The delays left the range of [Duration]. *)
Definition overflowed (r : ran LState W Flow) : Prop :=
  (∃ pre post ds h1 w1, interceptors = pre ++ post
     ∧ received shown rh (message_any d) pre Headers_new w ds h1 w1 ∧ (duration_max < total ds)%N)
  ∧ trace (world r) = trace w ∧ (loc r).2 = l.2.
Definition message_end (r : ran LState W Flow) : Prop :=
  match out r with Some flow => ∃ e, ends_with r flow e | None => overflowed r end.
End one.

(** The handler's part, on any path. *)
Lemma dispatch_on_outcome ictx h d n st s w :
  quiet interceptors dead_letter_handler env trace d →
  let b := run env n (dispatch d) st w in
  let r := run env n (dispatch_on (collect_handler_wrappers interceptors ictx h) d) (st, s) w in
  ∃ o, out r = Some o ∧ (loc r).2 = s ∧ trace (world r) = trace w
    ∧ match o with Some (Some res) => genuine d res | _ => True end
    ∧ (o = None → ∃ token, cancel_token d = Some token ∧ token (world r) = true)
    ∧ ((∀ i, i ∈ interceptors → wrap_handler i ictx h = None)
       ∨ cancel_token d = None ∧ transparent interceptors env ictx h →
       match o with
       | Some x => x = out b ∧ loc r = (loc b, s) ∧ world r = world b ∧ tick r = tick b
       | None => ∃ l', suspends env n (dispatch d) st w (tick r) l' (world r) ∧ loc r = (l', s)
       end).
Proof.
  intros Hq. cbn zeta.
  assert (hoare (at_ trace (trace w) s) (at_ trace (trace w) s) (raced trace d (trace w) s)
    (dispatch_on (collect_handler_wrappers interceptors ictx h) d)) as Hh.
  { unfold dispatch_on. destruct (existsb _ _).
    - by eapply dispatch_wrapped_quiet.
    - by eapply dispatch_direct_quiet. }
  pose proof (run_hoare env _ _ _ n _ (st, s) w
    (λ n l' w' HI, conj (eq_trans (q_env _ _ _ _ _ Hq n w') (proj1 HI)) (proj2 HI))
    Hh (conj eq_refl eq_refl)) as Hr. cbn zeta in Hr. clear Hh.
  set (r := run env n (dispatch_on _ d) (st, s) w) in *.
  assert (∃ o, out r = Some o
    ∧ (o = None → ∃ token, cancel_token d = Some token ∧ token (world r) = true)
    ∧ ((∀ i, i ∈ interceptors → wrap_handler i ictx h = None)
       ∨ cancel_token d = None ∧ transparent interceptors env ictx h →
       match o with
       | Some x => x = out (run env n (dispatch d) st w) ∧ loc r = (loc (run env n (dispatch d) st w), s)
           ∧ world r = world (run env n (dispatch d) st w) ∧ tick r = tick (run env n (dispatch d) st w)
       | None => ∃ l', suspends env n (dispatch d) st w (tick r) l' (world r) ∧ loc r = (l', s)
       end)) as (o & Ho & Hnone & Hplain).
  { clear Hr. subst r. unfold dispatch_on. destruct (existsb _ _) eqn:Hex.
    - destruct (wrapped_outcome interceptors env ictx h d n st s w) as [(o & Ho & Hn) Htr]. exists o.
      split; [exact Ho|]. split; [exact Hn|]. intros [Hw|[Hc Ht]]; [by rewrite no_wrappers in Hex|].
      specialize (Htr Hc Ht). destruct o as [x|]; [|by destruct (Hn eq_refl) as (? & ? & _); congruence].
      rewrite Htr in Ho |- *. cbn in Ho |- *. by injection Ho as <-.
    - destruct (direct_outcome env d (cancel_token d) n st s w) as [Heq|(token & l' & Hc & Ht & Hs & Heq)].
      + rewrite Heq. cbn. eexists. split; [done|]. split; [done|]. done.
      + exists None. split; [by rewrite Heq|]. split; [by exists token|]. intros _. exists l'.
        split; [exact Hs|]. by rewrite Heq. }
  exists o. rewrite Ho in Hr. destruct Hr as [[Ht Hs] Hg]. done.
Qed.
Lemma run_sleep_for x n (l : LState) w :
  run env n (sleep x) l w = mkRan (S n) l (env n (start_timer x w)) (Some ()).
Proof. done. Qed.
Lemma refusal_total name disp : refuses disp → ∃ err, refusal name disp err ∧ rejection_error disp name = Some err.
Proof. destruct disp; simpl; intros []; eexists; split; constructor. Qed.
Lemma received_trace ictx rh d ics h w ds h' w' :
  quiet interceptors dead_letter_handler env trace d →
  (∀ i, i ∈ ics → i ∈ interceptors) →
  received ictx rh (message_any d) ics h w ds h' w' → trace w' = trace w.
Proof.
  intros Hq Hin Hr. induction Hr as [|i ics h w h1 w1 ds h2 w2 Hi _ IH|i ics h w x h1 w1 ds h2 w2 Hi _ IH]; [done|..].
  all: rewrite IH by (intros j Hj; apply Hin; by constructor);
    pose proof (q_receive _ _ _ _ _ Hq i ictx rh h (message_any d) w ltac:(apply Hin; by constructor)) as Hw;
    by rewrite Hi in Hw.
Qed.
Lemma answered_once rh d n l w r flow e :
  how_ended rh d n l w r e → trace (world r) = trace w ++ ending_trace interceptors d e →
  match e with Finished x => is_Some x ↔ is_Some (caller d) | _ => True end →
  cancellation_token (loc r).1.2 = None →
  match flow with
  | KeepGoing => (loc r).2 = l.2
  | Fatal => e = Failed ∧ (loc r).2 = Some "handler panicked"
  end → ends_with rh d n l w r flow e.
Proof. intros. split; try done. apply answered_ending. Qed.

(** A message the hooks let through. *)
Lemma deliver_ends rh d n l w h m w1 :
  quiet interceptors dead_letter_handler env trace d → let_through rh d n l w h m w1 → trace w1 = trace w →
  let r := run env m (deliver interceptors rh d h)
    ((l.1.1, set_headers Headers_new (set_send_mode (Some (send_mode d)) l.1.2)), l.2) w1 in
  message_end rh d n l w r.
Proof.
  intros Hq Hlet Hw1. cbn zeta. rewrite run_deliver. cbn [fst snd].
  destruct (token_set d w1) eqn:Htok.
  { exists Unstarted. apply answered_once; cbn; try done; [by eapply how_unstarted; rewrite ?cancel_answers|].
    unfold answer. rewrite cancel_answers. erewrite answer_trace by done. by rewrite Hw1. }
  set (st := handler_state d h _).
  assert (st = (l.1.1, message_context d l h)) as Hst by done.
  pose proof (dispatch_on_outcome (shown d l) h d m st l.2 w1 Hq) as Hout. cbn zeta in Hout.
  change (inbound_context _ _ _) with (shown d l).
  destruct Hout as (o & Ho & Hs & Ht & Hgen & Hnone & Hplain).
  set (r := run env m (dispatch_on _ d) (st, l.2) w1) in *. clearbody r.
  unfold run_then. rewrite Ho. unfold after_handler. rewrite run_bind, run_modify_ctx.
  unfold run_then. cbn [out tick loc world]. rewrite Hst in Hplain. fold (plain d l h) in Hplain.
  rewrite run_dispatch in Hplain. cbn zeta in Hplain. cbn [out tick loc world] in Hplain.
  destruct o as [[res|]|].
  - destruct Hgen as (x & -> & Hx). rewrite run_complete_result. exists (Finished x).
    apply answered_once; cbn [out tick loc world]; [|..|done|exact Hs]; [|..|exact Hx].
    + eapply how_handled; [done|done|]. constructor. intros Hp. destruct (Hplain Hp) as (Hx' & Hl & _).
      destruct (out (run env m (body d) _ w1)) as [y|] eqn:Hb; [|done]. cbn in Hx'. split.
      * injection Hx' as Hres. rewrite Hb. f_equal. symmetry. by eapply (result_of_inj d), Hres; [|eapply body_reply].
      * by rewrite Hl.
    + erewrite send_reply_genuine by done. erewrite complete_all_trace by done. rewrite Ht, Hw1. cbn.
      by rewrite <-app_assoc.
  - rewrite run_complete_panic. cbn [fst snd].
    pose proof (q_on_error _ _ _ _ _ Hq handler_panicked (loc r).1.1 (world r)) as Herr.
    destruct (on_error handler_panicked (loc r).1.1 (world r)) as [[action a] w'] eqn:He. cbn in Herr.
    exists Failed. apply answered_once; cbn [out tick loc world fst snd]; [| |done|done|by destruct action].
    + eapply how_handled; [done|done|]. constructor. intros Hp. destruct (Hplain Hp) as (Hx & Hl & Hw & _).
      split; [by destruct (out (run env m (body d) _ w1))|]. rewrite Hl, Hw in He. cbn in He. rewrite He.
      by destruct action.
    + erewrite complete_all_trace by done. cbn. by rewrite Herr, Ht, Hw1.
  - rewrite run_mret. exists Abandoned. apply answered_once; cbn [out tick loc world fst snd]; [| |done..].
    + destruct (Hnone eq_refl) as (token & Hc & Hset). eapply how_handled; [done|done|].
      eapply handler_dropped; [exact Hc|exact Hset|]. intros Hp.
      destruct (Hplain Hp) as (l' & Hsus & Hl). exists l'. split; [exact Hsus|]. by rewrite Hl.
    + by rewrite Ht, Hw1, app_nil_r.
Qed.
Lemma handle_message_ends rh d n l w :
  quiet interceptors dead_letter_handler env trace d → cancellation_token l.1.2 = None →
  message_end rh d n l w (run env n (handle_message interceptors dead_letter_handler rh d) l w).
Proof.
  intros Hq Htok. unfold handle_message.
  rewrite run_bind, run_modify_ctx. unfold run_then at 1. cbn [out tick loc world fst snd].
  rewrite run_bind, run_sync. cbn [fst snd].
  set (lS := (((l.1.1, set_headers Headers_new (set_send_mode (Some (send_mode d)) l.1.2)), l.2) : LState)).
  change (inbound_context _ _ _) with (shown d l).
  pose proof (receive_cases (shown d l) rh (message_any d) interceptors Headers_new 0 w ltac:(apply N.le_0_l)) as Hc.
  pose proof (receive_trace _ _ _ _ rh d Hq (shown d l) Headers_new 0 w) as Hr.
  destruct (receive_loop (shown d l) rh (message_any d) interceptors Headers_new 0 w)
    as [[[[h t] [[name disp]|]]|] w']; unfold run_then; cbn [out tick loc world]; cbn [snd] in Hr.
  - destruct Hc as (pre & i & post & ds & h1 & w1 & Hics & Hrec & Hi & Hdisp & ->).
    destruct (refusal_total (in_name i) disp Hdisp) as (err & Href & Herr).
    rewrite run_sync, reject_answers, Herr. exists (Refused err).
    assert (trace (loop_dead_letter dead_letter_handler lS.1.2 (message_type_name d) (send_mode d) (in_name i) disp w')
      = trace w) as Hdl.
    { unfold loop_dead_letter. destruct disp; try exact Hr.
      destruct dead_letter_handler as [f|] eqn:Hf; [|exact Hr]. by rewrite (q_dead_letter _ _ _ _ _ Hq f _ _ eq_refl). }
    apply answered_once; cbn [out tick loc world]; [|by erewrite answer_trace, Hdl by done|done..].
    eapply how_refused; [exact Hics|exact Hrec|exact Hi|exact Href|done].
  - destruct Hc as (ds & Hrec & -> & Hle). rewrite N.add_0_l in *.
    rewrite run_bind. destruct (N.eqb_spec (total ds) 0) as [Hz|Hnz]; unfold run_then.
    + rewrite run_mret. cbn [out tick loc world]. apply deliver_ends; [done| |exact Hr]. by econstructor 1.
    + rewrite run_sleep_for. cbn [out tick loc world]. apply deliver_ends; [done| |].
      * eapply let_through_late; [exact Hrec|lia|done..].
      * by rewrite (q_env _ _ _ _ _ Hq), (q_timer _ _ _ _ _ Hq).
  - rewrite run_panic. split; [|done]. destruct Hc as (pre & post & ds & h1 & w1 & Hics & Hrec & Hlt).
    by exists pre, post, ds, h1, w1.
Qed.

(** ** Messages in mailbox order
    The messages the loop of the reference runtime will get to: those before the
    first stop signal. *)
Abbreviation Mailbox := (StreamReceiver (option (RuntimeHeaders * Dispatch W M T Snd R))).
Fixpoint before_stop (mailbox : Mailbox) : list (Dispatch W M T Snd R) :=
  match mailbox with
  | [] => []
  | None :: mailbox => before_stop mailbox
  | Some None :: _ => []
  | Some (Some (_, d)) :: mailbox => d :: before_stop mailbox
  end.

(** The messages of [mailbox] are handled one after the other, from [n], [l] and
    [w] on, and end as [es]; the loop ends at [r]. Each begins where the one
    before ended; nothing is handled behind a stop signal or a fatal panic. *)
Inductive handles : Mailbox → nat → LState → W → list Ending → ran LState W () → Prop :=
  | handles_closed n l w : handles [] n l w [] (mkRan n l w (Some ()))
  | handles_stop mailbox n l w : handles (Some None :: mailbox) n l w [] (mkRan n l w (Some ()))
  | handles_wait mailbox n l w es r :
      handles mailbox (S n) l (env n w) es r → handles (None :: mailbox) n l w es r
  | handles_next rh d mailbox n l w r1 e es r :
      ends_with rh d n l w r1 KeepGoing e → out r1 = Some KeepGoing →
      handles mailbox (tick r1) (loc r1) (world r1) es r →
      handles (Some (Some (rh, d)) :: mailbox) n l w (e :: es) r
  | handles_fatal rh d mailbox n l w r1 :
      ends_with rh d n l w r1 Fatal Failed → out r1 = Some Fatal →
      handles (Some (Some (rh, d)) :: mailbox) n l w [Failed] (mkRan (tick r1) (loc r1) (world r1) (Some ()))
  | handles_overflow rh d mailbox n l w r1 :
      overflowed rh d l w r1 → out r1 = None →
      handles (Some (Some (rh, d)) :: mailbox) n l w [] (mkRan (tick r1) (loc r1) (world r1) None).

(** What they leave in the trace, in order. *)
Fixpoint ending_traces (ds : list (Dispatch W M T Snd R)) (es : list Ending) : list (LoopEvent R) :=
  match ds, es with
  | d :: ds, e :: es => ending_trace interceptors d e ++ ending_traces ds es
  | _, _ => []
  end.
Lemma ending_traces_nil ds : ending_traces ds [] = [].
Proof. by destruct ds. Qed.
(** After the messages [ds], of which [length es] were handled: all of them and
    the actor goes on, or the last one handled was fatal. *)
Definition looped (ds : list (Dispatch W M T Snd R)) (es : list (Ending (R := R))) (stop_reason : option string) : Prop :=
  (length es = length ds ∧ stop_reason = None)
  ∨ (length es ≤ length ds ∧ last es = Some Failed ∧ stop_reason = Some "handler panicked").

Lemma loop_handles mailbox n l w :
  Forall (quiet interceptors dead_letter_handler env trace) (before_stop mailbox) →
  cancellation_token l.1.2 = None →
  ∃ es, handles mailbox n l w es (run env n (TestRuntime_loop interceptors dead_letter_handler mailbox) l w).
Proof.
  revert n l w. induction mailbox as [|[[[rh d]|]|] mailbox IH]; intros n l w Hall Htok.
  - exists []. constructor.
  - cbn [TestRuntime_loop before_stop] in *. apply Forall_cons in Hall as [Hq Hall].
    rewrite run_bind. pose proof (handle_message_ends rh d n l w Hq Htok) as Hr.
    unfold message_end, run_then in *.
    destruct (run env n (handle_message interceptors dead_letter_handler rh d) l w)
      as [n1 l1 w1 [[]|]]; cbn [out loc world tick] in *.
    + destruct Hr as [e He]. destruct (IH n1 l1 w1 Hall (ew_token _ _ _ _ _ _ _ _ He)) as [es Hes].
      exists (e :: es). by eapply handles_next.
    + destruct Hr as [e He]. destruct (ew_flow _ _ _ _ _ _ _ _ He) as [-> _]. exists [Failed].
      rewrite run_mret. by eapply (handles_fatal _ _ _ _ _ _ (mkRan n1 l1 w1 (Some Fatal))).
    + exists []. by eapply (handles_overflow _ _ _ _ _ _ (mkRan n1 l1 w1 None)).
  - exists []. constructor.
  - cbn [TestRuntime_loop before_stop run] in *. destruct (IH (S n) l (env n w) Hall Htok) as [es Hes].
    exists es. by constructor.
Qed.
Lemma handles_trace mailbox n l w es r :
  handles mailbox n l w es r → (∀ n w, trace (env n w) = trace w) → l.2 = None →
  trace (world r) = trace w ++ ending_traces (before_stop mailbox) es
  ∧ match out r with
    | Some _ => looped (before_stop mailbox) es (loc r).2
    | None => length es < length (before_stop mailbox) ∧ (loc r).2 = None
    end.
Proof.
  intros Hh Henv. induction Hh as [n l w|mailbox n l w|mailbox n l w es r _ IH|rh d mailbox n l w r1 e es r He _ _ IH
    |rh d mailbox n l w r1 He _|rh d mailbox n l w r1 Ho _]; intros Hs; cbn [before_stop].
  - cbn. rewrite app_nil_r. split; [done|]. by left.
  - cbn. rewrite app_nil_r. split; [done|]. by left.
  - rewrite Henv in IH. by apply IH.
  - destruct He as [_ Ht _ _ _ Hf]. rewrite Hs in Hf. destruct (IH Hf) as [Htr Hr].
    split; [by rewrite Htr, Ht, <-app_assoc|]. destruct (out r); [|simpl; split; [lia|apply Hr]].
    destruct Hr as [[? ?]|(? & Hl & ?)]; [left; simpl; auto|right]. split_and!; [simpl; lia| |done].
    by destruct es.
  - destruct He as [_ Ht _ _ _ [_ Hf]]. cbn [out loc world ending_traces length last].
    rewrite ending_traces_nil, app_nil_r. split; [done|]. right. split_and!; [simpl; lia|done|done].
  - destruct Ho as (_ & Ht & Hf). cbn [out loc world]. rewrite ending_traces_nil, app_nil_r.
    split_and!; [done|simpl; lia|congruence].
Qed.
End ends.

(** The four runtimes around a message. *)
Lemma run_adapters {A W M T Snd R Rf : Type} `{Actor A W M T Snd R} `{LoopWorld W Rf} env interceptors
    dead_letter_handler (request_stop : W → W) rh (d : Dispatch W M T Snd R) n l w :
  let r := run env n (handle_message interceptors dead_letter_handler rh d) l w in
  let stopping := match out r with
    | Some Fatal => mkRan (tick r) (loc r) (request_stop (world r)) (Some ())
    | o => mkRan (tick r) (loc r) (world r) ((λ _, ()) <$> o)
    end in
  run env n (Ractor_handle interceptors dead_letter_handler request_stop rh d) l w = stopping
  ∧ run env n (Coerce_handle interceptors dead_letter_handler request_stop rh (Some d)) l w = stopping
  ∧ run env n (Kameo_handle interceptors dead_letter_handler rh d) l w
    = mkRan (tick r) (loc r) (world r) match out r with Some KeepGoing => Some () | _ => None end.
Proof.
  cbn zeta. unfold Ractor_handle, Coerce_handle, Kameo_handle. rewrite !run_bind. unfold run_then.
  by destruct (run env n (handle_message interceptors dead_letter_handler rh d) l w) as [n1 l1 w1 [[]|]].
Qed.

(** ** Stopping *)
Section stopping.
Context {A W M T Snd R Rf : Type} `{Actor A W M T Snd R} `{LoopWorld W Rf}.
Context (env : nat → W → W).

Lemma remove_watchers_spec p id (wm : WatcherMap Rf) :
  match remove_watchers p id wm with
  | (entries, m) =>
      entries = default [] (wm !! id) ∧ m !! id = None
      ∧ ∀ target, target ≠ id →
          default [] (m !! target)
          = (if cleans_watcher p
             then retain (λ e, negb (bool_decide (watcher_id e = id))) (default [] (wm !! target))
             else default [] (wm !! target))
  end.
Proof.
  unfold remove_watchers. destruct (cleans_watcher p).
  - split_and!; [done| |].
    + apply map_lookup_filter_None_2. left. by rewrite lookup_fmap, lookup_delete_eq.
    + intros target Hne. rewrite map_lookup_filter, lookup_fmap, lookup_delete_ne by done.
      destruct (wm !! target) as [es|]; [|done]. simpl. destruct (retain _ es); [|by rewrite option_guard_True].
      by rewrite option_guard_False by auto.
  - split_and!; [done|by rewrite lookup_delete_eq|]. intros target Hne.
    by rewrite lookup_delete_ne.
Qed.

(** The context on which [on_stop] runs. *)
Definition stop_context (p : StopPolicy) (c : ActorContext W) : ActorContext W :=
  let c := set_headers Headers_new (set_send_mode None c) in
  if clears_token p then set_cancellation_token None c else c.

Lemma run_post_stop p tx n l w :
  let b := run env n on_stop l.1.1 w in
  let id := ctx_actor_id l.1.2 in
  let reason := if reason_on_panic p && bool_decide (out b = None)
                then Some (default on_stop_panic l.2) else l.2 in
  run env n (post_stop p (Some tx)) l w
  = let '(entries, m) := remove_watchers p id (watcher_map (world b)) in
    mkRan (tick b) ((loc b, stop_context p l.1.2), reason)
      (tx (if decide (out b = None) then Err on_stop_panic else Ok ())
        (notify_all entries (mkChildTerminated id (ctx_actor_name l.1.2) reason)
          (set_watcher_map m (world b)))) (Some ()).
Proof.
  cbn zeta. unfold post_stop. rewrite run_bind, run_modify_ctx. unfold run_then at 1.
  cbn [out tick loc world]. rewrite run_bind, run_on_fst, run_on_fst, run_catch. cbn zeta.
  unfold run_then. cbn [out tick loc world fst snd]. rewrite run_sync. cbn [fst snd].
  fold (stop_context p l.1.2).
  assert (ctx_actor_id (stop_context p l.1.2) = ctx_actor_id l.1.2) as ->
    by (unfold stop_context; by destruct (clears_token p)).
  assert (ctx_actor_name (stop_context p l.1.2) = ctx_actor_name l.1.2) as ->
    by (unfold stop_context; by destruct (clears_token p)).
  destruct (remove_watchers p _ _) as [entries m].
  destruct (out _); simpl; rewrite ?andb_false_r, ?andb_true_r; [done|].
  destruct (reason_on_panic p); [by destruct l.2|done].
Qed.
End stopping.

(** ** A concrete actor, for the witnesses
    The world keeps the trace and counts the suspensions; the token is set after
    the second. The actor adds, panics, or awaits a number of times. *)
Module Demo.
Record World := mkWorld {
  events : list (LoopEvent nat); ticks : nat; slept : list N;
  watched : WatcherMap ActorId; told : list (ActorId * ChildTerminated)
}.
Definition w0 : World := mkWorld [] 0 [] ∅ [].
Definition write (e : LoopEvent nat) (w : World) : World :=
  mkWorld (events w ++ [e]) (ticks w) (slept w) (watched w) (told w).
Definition env (_ : nat) (w : World) : World :=
  mkWorld (events w) (S (ticks w)) (slept w) (watched w) (told w).
Definition token (w : World) : bool := 2 <=? ticks w.

#[export] Instance demo_world : LoopWorld World ActorId := {|
  start_timer d w := mkWorld (events w) (ticks w) (slept w ++ [d]) (watched w) (told w);
  watcher_map := watched;
  set_watcher_map m w := mkWorld (events w) (ticks w) (slept w) m (told w);
  run_notify id n w := mkWorld (events w) (ticks w) (slept w) (watched w) (told w ++ [(id, n)])
|}.

Inductive Msg := Add (n : nat) | Boom | Nap (n : nat).
Fixpoint nap {L} (n : nat) : Task L World () :=
  match n with 0 => mret () | S n => Await (λ l w, (l, w, Pending (nap n))) end.
Definition add (n : nat) : HTask nat World nat :=
  sync (λ l w, ((l.1 + n, l.2), w, l.1 + n)).

#[export] Instance demo_actor : Actor nat World Msg nat () nat := {|
  type_name m := match m with Add _ => "Add" | Boom => "Boom" | Nap _ => "Nap" end;
  item_type_name := "u64";
  on_start := mret ();
  on_stop := mret ();
  on_error := default_on_error;
  handle m :=
    match m with
    | Add n => add n
    | Boom => panic_now
    | Nap n => _ ← nap n; add 0
    end;
  handle_expand _ _ := mret ();
  handle_reduce _ := add 0;
  handle_transform n _ := _ ← add n; mret ();
  on_transform_complete _ := mret ()
|}.

Abbreviation Future := (Task ((nat * ActorContext World) * option (option (DispatchResult World nat))) World ()).
(** It delays by [d], or rejects when [d] is zero, and wraps if asked. *)
Definition hook (name : string) (d : N) (wraps : bool) :
    InboundInterceptor World (option Msg) nat nat Future :=
  mkInbound name
    (λ _ _ h _ w, (if (d =? 0)%N then Reject "no" else Delay d, h, w))
    (λ _ _ _ o w, write (Completed name o) w)
    (λ _ _ _ _ w, (Continue, w))
    (λ _ _, if wraps then Some (λ next, _ ← yield_now; next) else None).

Definition rh : RuntimeHeaders := RuntimeHeaders_new 1 0.
Definition ask (m : Msg) (cancel : option (CancelToken World)) : Dispatch World Msg nat () nat :=
  AskDispatch m (λ a, write (Answered a)) cancel.
Definition me : ActorId := mkActorId (mkNodeId "n") 1.
Definition l0 : (nat * ActorContext World) * option string := spawned me "counter" 5.

Lemma nap_quiet a n : hoare (traces events a) (traces events a) (λ _, traces events a)
  (nap (L := nat * ActorContext World) n).
Proof.
  induction n as [|n IH]; [by apply hoare_ret|]. intros l w HI. simpl. split; [done|].
  by apply hoare_keeps.
Qed.
Lemma demo_quiet ics d :
  (∀ i, i ∈ ics → ∃ name x b, i = hook name x b) →
  (∀ tx a w, caller d = Some tx → events (tx a w) = events w ++ [Answered a]) →
  quiet ics None env events d.
Proof.
  intros Hics Hd. split; try done.
  - intros i ctx rh h m w (name & x & b & ->)%Hics. done.
  - intros i ctx rh h o w (name & x & b & ->)%Hics. done.
  - intros [n| |n] a; [by apply hoare_sync|by apply hoare_panic|].
    eapply hoare_bind; [apply nap_quiet|]. intros ?. by apply hoare_sync.
  - intros. by apply hoare_ret.
  - intros. by apply hoare_sync.
  - intros x s a. apply (hoare_bind _ _ (λ _, traces events a)); [by apply hoare_sync|].
    intros ?. by apply hoare_ret.
  - intros. by apply hoare_ret.
  - intros i ctx h wr a t (name & x & b & ->)%Hics Hw I Ht.
    destruct b; [|done].
    assert (wr = λ next : Future, _ ← yield_now; next) as -> by by injection Hw.
    apply (hoare_bind _ _ (λ _, I)); [by apply hoare_yield|]. intros ?. exact Ht.
Qed.
Definition hooks := [hook "a" 3 true; hook "b" 4 false].
Lemma hooks_quiet m c : quiet hooks None env events (ask m c).
Proof.
  apply demo_quiet.
  - intros i Hi. unfold hooks in Hi. rewrite !elem_of_cons in Hi.
    destruct Hi as [->|[->|Hi]]; [eauto..|by apply elem_of_nil in Hi].
  - intros tx a w [= <-]. done.
Qed.
End Demo.

(** ** The properties *)
Module Spec.
Import Demo.
Section spec.
Context {A W M T Snd R Rf : Type} `{Actor A W M T Snd R} `{LoopWorld W Rf}.
Abbreviation Inbounds := (list (InboundInterceptor W (option M) T R
  (Task ((A * ActorContext W) * option (option (DispatchResult W R))) W ()))).
Context (interceptors : Inbounds) (dead_letter_handler : option (DeadLetterHandler W)).
Context (env : nat → W → W).

(** C1. One message, whatever the handlers, the hooks, the wrappers and the
    environment do short of writing to the trace themselves. It ends in one of
    five ways. The first hook that refuses it ends it with that hook's error, a
    drop also with a dead letter. Otherwise it waits as long as the hooks asked
    for; if its token is then set, it ends with [Cancelled]. Otherwise its handler
    runs, on the headers the hooks made and with the token in the context: as it
    would alone, when no wrapper is in the way, and then the message ends with
    the handler's value, or its panic and what [on_error] decides; only a handler
    whose token is set can be dropped. What the message leaves in the trace, in
    this order, is every [on_complete] once, in pipeline order, and then the reply, or
    the error alone, or nothing for a dropped handler. The cancellation token is
    gone from the context, and the stop reason is set exactly when the actor is to
    stop. Only delays that leave the range of [Duration] panic the runtime. The
    adapters add to this what each does when the actor is to stop: ractor and
    coerce request it, kameo panics. *)
Theorem message_ends trace request_stop rh d n l w :
  quiet interceptors dead_letter_handler env trace d →
  cancellation_token l.1.2 = None →
  let r := run env n (handle_message interceptors dead_letter_handler rh d) l w in
  let stopping := match out r with
    | Some Fatal => mkRan (tick r) (loc r) (request_stop (world r)) (Some ())
    | o => mkRan (tick r) (loc r) (world r) ((λ _, ()) <$> o)
    end in
  match out r with
  | Some flow => ∃ e, ends_with interceptors dead_letter_handler env trace rh d n l w r flow e
  | None => overflowed interceptors trace rh d l w r
  end
  ∧ run env n (Ractor_handle interceptors dead_letter_handler request_stop rh d) l w = stopping
  ∧ run env n (Coerce_handle interceptors dead_letter_handler request_stop rh (Some d)) l w = stopping
  ∧ run env n (Kameo_handle interceptors dead_letter_handler rh d) l w
    = mkRan (tick r) (loc r) (world r) match out r with Some KeepGoing => Some () | _ => None end.
Proof.
  intros Hq Htok. split; [by apply handle_message_ends|]. apply run_adapters.
Qed.

(** C7. The reference runtime's loop handles the messages before the first stop
    signal one after the other, in mailbox order: each begins in the state in
    which the one before it ended, and ends as a single message does; it goes
    on to the next unless a handler panicked and the actor chose to stop, and then
    it is the last one. Messages behind a stop signal or a fatal panic are never
    handled. What the callers and the hooks see is the messages' traces, in that
    order. *)
Theorem mailbox_order trace mailbox n l w :
  Forall (quiet interceptors dead_letter_handler env trace) (before_stop mailbox) →
  (∀ n w, trace (env n w) = trace w) → l.2 = None → cancellation_token l.1.2 = None →
  let r := run env n (TestRuntime_loop interceptors dead_letter_handler mailbox) l w in
  ∃ es, handles interceptors dead_letter_handler env trace mailbox n l w es r
    ∧ trace (world r) = trace w ++ ending_traces interceptors (before_stop mailbox) es
    ∧ match out r with
      | Some _ => looped (before_stop mailbox) es (loc r).2
      | None => length es < length (before_stop mailbox) ∧ (loc r).2 = None
      end.
Proof.
  intros Hall Henv Hs Htok. destruct (loop_handles interceptors dead_letter_handler env trace mailbox n l w Hall Htok)
    as [es Hes]. exists es. split; [exact Hes|]. by eapply handles_trace.
Qed.

(** C21. Without wrappers, a message whose token is not yet set runs its handler
    once, on the headers the interceptors made and with its token in the
    context. Either the handler goes through to its end, as if there were no
    token, and the result is completed on the state it leaves; or it was
    suspended when the token was seen set: it is dropped there, what it has done
    so far stays, and nothing is completed or answered. *)
Theorem deliver_runs_handler rh d h n l w :
  (∀ i ictx, i ∈ interceptors → wrap_handler i ictx h = None) →
  match cancel_token d with Some token => token w | None => false end = false →
  let b := run env n (dispatch d) (handler_state d h l) w in
  let r := run env n (deliver interceptors rh d h) l w in
  r = run env (tick b) (complete interceptors rh (message_type_name d) (send_mode d) (out b))
        (cleared (loc b) l.2) (world b)
  ∨ ∃ token l', cancel_token d = Some token ∧ token (world r) = true
      ∧ suspends env n (dispatch d) (handler_state d h l) w (tick r) l' (world r)
      ∧ r = mkRan (tick r) (cleared l' l.2) (world r) (Some KeepGoing).
Proof.
  intros Hw Ht. cbn zeta. rewrite run_deliver_direct by done.
  pose proof (direct_outcome env d (cancel_token d) n (handler_state d h l) l.2 w) as [Heq|Hdrop]; cbn zeta in *.
  - left. rewrite Heq. unfold run_then. cbn [out tick loc world]. unfold after_handler.
    rewrite run_bind, run_modify_ctx. reflexivity.
  - right. destruct Hdrop as (token & l' & Hc & Htok & Hsus & Heq). exists token, l'. revert Htok Hsus.
    rewrite Heq. cbn [tick world]. intros Htok Hsus. unfold run_then. cbn [out tick loc world].
    unfold after_handler. rewrite run_bind, run_modify_ctx. split_and!; done.
Qed.

(** The inbound hooks decide in order: the first that answers with
    anything but [Continue] or [Delay] refuses the message under its name, and
    those after it never see it; otherwise the message passes with the sum of
    the delays, each hook having seen the headers the ones before it left. The
    only other outcome is that sum leaving the range of [Duration]. *)
Theorem hooks_decide ictx rh msg (ics : Inbounds) w :
  match receive_loop ictx rh msg ics Headers_new 0 w with
  | (Some (h', t, None), w') =>
      ∃ ds, received ictx rh msg ics Headers_new w ds h' w' ∧ t = total ds ∧ (t <= duration_max)%N
  | (Some (h', t, Some (name, disp)), w') =>
      ∃ pre i post ds h1 w1, ics = pre ++ i :: post
        ∧ received ictx rh msg pre Headers_new w ds h1 w1
        ∧ in_on_receive i ictx rh h1 msg w1 = (disp, h', w')
        ∧ refuses disp ∧ name = in_name i
  | (None, _) =>
      ∃ pre post ds h1 w1, ics = pre ++ post
        ∧ received ictx rh msg pre Headers_new w ds h1 w1 ∧ (duration_max < total ds)%N
  end.
Proof. by apply (receive_cases ictx rh msg ics Headers_new 0 w). Qed.

(** C34. When an actor stops, [on_stop] runs once, on a context without a
    message; then every entry of its watcher list is told once, in order, of the
    termination with the stop reason ([heard] is any record of who was told what),
    and at last [await_stop] gets the outcome. The actor is gone from the map as a
    target; where the runtime cleans up (the three adapters) no list mentions it as
    a watcher either, and every other entry is still there; where it does not (the
    reference runtime) all the other lists are as they were. *)
Theorem stop_notifies_watchers p tx (heard : W → list (Rf * ChildTerminated)) n l w :
  (∀ f c w, heard (run_notify f c w) = heard w ++ [(f, c)]) →
  (∀ m w, heard (set_watcher_map m w) = heard w) →
  (∀ m w, watcher_map (set_watcher_map m w) = m) →
  (∀ f c w, watcher_map (run_notify f c w) = watcher_map w) →
  let b := run env n on_stop l.1.1 w in
  let r := run env n (post_stop p (Some tx)) l w in
  let id := ctx_actor_id l.1.2 in
  let reason := if reason_on_panic p && bool_decide (out b = None)
                then Some (default on_stop_panic l.2) else l.2 in
  let notification := mkChildTerminated id (ctx_actor_name l.1.2) reason in
  let entries := default [] (watcher_map (world b) !! id) in
  ∃ m w', loc r = ((loc b, stop_context p l.1.2), reason) ∧ tick r = tick b ∧ out r = Some ()
    ∧ world r = tx (if decide (out b = None) then Err on_stop_panic else Ok ()) w'
    ∧ w' = foldl (λ w e, run_notify (notify e) notification w) (set_watcher_map m (world b)) entries
    ∧ heard w' = heard (world b) ++ ((λ e, (notify e, notification)) <$> entries)
    ∧ watcher_map w' !! id = None
    ∧ ∀ target, target ≠ id →
        default [] (watcher_map w' !! target)
        = (if cleans_watcher p then retain (λ e, negb (bool_decide (watcher_id e = id)))
             (default [] (watcher_map (world b) !! target))
           else default [] (watcher_map (world b) !! target)).
Proof.
  intros Htold Hset Hget Hkeep. cbn zeta. rewrite run_post_stop. cbn zeta.
  set (b := run env n on_stop l.1.1 w). set (reason := if _ && _ then _ else _).
  pose proof (remove_watchers_spec p (ctx_actor_id l.1.2) (watcher_map (world b))) as Hrm.
  destruct (remove_watchers p _ _) as [entries m]. destruct Hrm as (-> & Hnone & Hrest).
  set (entries := default [] _). set (c := mkChildTerminated _ _ _).
  exists m, (foldl (λ w e, run_notify (notify e) c w) (set_watcher_map m (world b)) entries).
  do 5 (split; [done|]).
  assert (∀ w, heard (foldl (λ w e, run_notify (notify e) c w) w entries)
      = heard w ++ ((λ e, (notify e, c)) <$> entries)
    ∧ watcher_map (foldl (λ w e, run_notify (notify e) c w) w entries) = watcher_map w) as Hall.
  { induction entries as [|e es IH]; intros w1; cbn; [by rewrite app_nil_r|].
    destruct (IH (run_notify (notify e) c w1)) as [-> ->]. by rewrite Htold, Hkeep, <-app_assoc. }
  destruct (Hall (set_watcher_map m (world b))) as [-> ->]. rewrite Hset, Hget. done.
Qed.
End spec.

(** Two delays, a wrapper, a reply; and a panic under the same hooks. *)
Lemma message_ends_witness :
  let r := run env 0 (handle_message hooks None rh (ask (Add 2) (Some token))) l0 w0 in
  let p := run env 0 (handle_message hooks None rh (ask Boom None)) l0 w0 in
  (events (world r), slept (world r), out p, (loc p).2)
  = ([Completed "a" (AskSuccess 7); Completed "b" (AskSuccess 7); Answered (Ok 7)], [7%N],
     Some Fatal, Some "handler panicked")
  ∧ match out r with
    | Some flow => ∃ e, ends_with hooks None env events rh (ask (Add 2) (Some token)) 0 l0 w0 r flow e
    | None => overflowed hooks events rh (ask (Add 2) (Some token)) l0 w0 r
    end.
Proof.
  split; [vm_compute; reflexivity|].
  exact (proj1 (message_ends hooks None env events (λ w, w) rh (ask (Add 2) (Some token)) 0 l0 w0
    (hooks_quiet _ _) eq_refl)).
Defined.

Definition sample_box : StreamReceiver (option (RuntimeHeaders * Dispatch World Msg nat () nat)) :=
  [Some (Some (rh, ask (Add 1) None)); None; Some (Some (rh, ask Boom None));
   Some (Some (rh, ask (Add 9) None))].
Lemma mailbox_order_witness :
  let r := run env 0 (TestRuntime_loop hooks None sample_box) l0 w0 in
  (answered (events (world r)), (loc r).2) = ([Ok 6], Some "handler panicked")
  ∧ ∃ es, handles hooks None env events sample_box 0 l0 w0 es r
    ∧ events (world r) = [] ++ ending_traces hooks (before_stop sample_box) es
    ∧ match out r with
      | Some _ => looped (before_stop sample_box) es (loc r).2
      | None => length es < length (before_stop sample_box) ∧ (loc r).2 = None
      end.
Proof.
  split; [vm_compute; reflexivity|].
  refine (mailbox_order hooks None env events sample_box 0 l0 w0 _ _ eq_refl eq_refl).
  - repeat (apply Forall_cons; split; [apply hooks_quiet|]). by apply Forall_nil.
  - reflexivity.
Defined.

(** The handler naps three times, the token is set after two. *)
Lemma deliver_runs_handler_witness :
  let d := ask (Nap 3) (Some token) in
  let b := run env 0 (dispatch d) (handler_state d Headers_new l0) w0 in
  let r := run env 0 (deliver [hook "b" 4 false] rh d Headers_new) l0 w0 in
  (tick r, events (world r)) = (2, [])
  ∧ (r = run env (tick b) (complete [hook "b" 4 false] rh "Nap" Ask (out b))
           (cleared (loc b) None) (world b)
     ∨ ∃ tok l', Some token = Some tok ∧ tok (world r) = true
         ∧ suspends env 0 (dispatch d) (handler_state d Headers_new l0) w0 (tick r) l' (world r)
         ∧ r = mkRan (tick r) (cleared l' None) (world r) (Some KeepGoing)).
Proof.
  split; [vm_compute; reflexivity|].
  refine (deliver_runs_handler [hook "b" 4 false] env rh (ask (Nap 3) (Some token)) Headers_new
    0 l0 w0 _ eq_refl).
  intros i ictx Hi. apply list_elem_of_singleton in Hi as ->. reflexivity.
Defined.

(** Two watchers, one of which is watched itself. *)
Definition watched_twice : WatcherMap ActorId :=
  let entry k := mkWatchEntry (mkActorId (mkNodeId "n") k) (mkActorId (mkNodeId "n") k) in
  {[ me := [entry 2; entry 3]; mkActorId (mkNodeId "n") 2 := [mkWatchEntry me me; entry 3] ]}%N.
Lemma stop_notifies_watchers_witness :
  let r := run env 0 (post_stop Ractor_stop_policy (Some (λ _ w, w))) l0 (mkWorld [] 0 [] watched_twice []) in
  let c := mkChildTerminated me "counter" None in
  told (world r) = [(mkActorId (mkNodeId "n") 2, c); (mkActorId (mkNodeId "n") 3, c)]%N
  ∧ watched (world r) !! me = None.
Proof.
  pose proof (stop_notifies_watchers env Ractor_stop_policy (λ _ w, w) told 0 l0
    (mkWorld [] 0 [] watched_twice [])) as Hstop.
  destruct (Hstop ltac:(done) ltac:(done) ltac:(done) ltac:(done))
    as (m & w' & _ & _ & _ & Hw & _ & Hheard & Hgone & _).
  cbn zeta. rewrite Hw. split; [exact Hheard|exact Hgone].
Defined.
End Spec.
