(* ===== verification/Lifecycle.v ===== *)
(** * Watchers and stop handles, as the four runtimes keep them

    The operations on the watcher map and on the stop notifiers that
    src/runtime.rs of dactor-ractor, dactor-kameo and dactor-coerce and
    test_support/test_runtime.rs repeat. The oneshot channels of the stop
    notifiers are a list, in the order of spawning; a receiver is a position in
    it. AdapterRuntime.v and TestRuntime.v apply these to their own state. *)
From S2P Require Import Prelude Node Task Actor ActorLoop.

#[local] Open Scope string_scope.
#[local] Open Scope list_scope.
#[local] Open Scope nat_scope.

(** ** Watchers *)
Section watchers.
Context {Rf : Type}.
Implicit Types m : WatcherMap Rf.

Definition add_watcher (watcher : ActorId) (notify : Rf) (target_id : ActorId) m : WatcherMap Rf :=
  <[target_id := default [] (m !! target_id) ++ [mkWatchEntry watcher notify]]> m.
Definition drop_watcher (watcher target_id : ActorId) m : WatcherMap Rf :=
  match m !! target_id with
  | Some entries =>
      let entries := retain (λ e, negb (bool_decide (watcher_id e = watcher))) entries in
      if decide (length entries = 0) then delete target_id m else <[target_id := entries]> m
  | None => m
  end.
End watchers.

(** ** Stop handles *)
Abbreviation StopChannels := (list (oneshot (result string ()))).
Implicit Types chs : StopChannels.

(** The actor's side: the notifier sends once, or is dropped. *)
Definition settle (stop : nat) (o : oneshot (result string ())) chs : StopChannels :=
  match chs !! stop with
  | Some Waiting => <[stop := o]> chs
  | _ => chs
  end.
(** A poll of a receiver; a channel that closes gives the text of the caller. *)
Definition poll_stop (dropped : string) chs (stop : nat) : option (result string ()) :=
  match chs !! stop with
  | Some (Sent res) => Some res
  | Some Waiting => None
  | _ => Some (Err dropped)
  end.
(** The [for] of [await_all] over the receivers. *)
Definition dropped_text : string := "stop notifier dropped: channel closed".
Fixpoint poll_all (receivers : list nat) (first_error : option string) chs :
    option (result string ()) :=
  match receivers with
  | [] => Some (match first_error with Some e => Err e | None => Ok () end)
  | rx :: receivers =>
      res ← poll_stop dropped_text chs rx;
      poll_all receivers
        (match res, first_error with Err e, None => Some e | _, _ => first_error end) chs
  end.
(** [try_recv]: [Empty] is a channel that is open and has nothing. *)
Definition is_pending chs (stop : nat) : bool :=
  match chs !! stop with Some Waiting => true | _ => false end.
Definition keep_pending chs (receivers : gmap ActorId nat) : gmap ActorId nat :=
  filter (λ kv, is_pending chs kv.2 = true) receivers.

(** ** Lemmas *)
Lemma settle_other stop o chs stop' : stop' ≠ stop → settle stop o chs !! stop' = chs !! stop'.
Proof.
  intros Hne. unfold settle. destruct (chs !! stop) as [[]|]; try done. by apply list_lookup_insert_ne.
Qed.
Lemma settle_waiting stop o chs : chs !! stop = Some Waiting → settle stop o chs !! stop = Some o.
Proof.
  intros Hw. unfold settle. rewrite Hw. apply list_lookup_insert_eq. by eapply lookup_lt_Some.
Qed.
(** What a channel says once it is settled, it says for ever. *)
Lemma settle_settled stop o chs stop' :
  is_pending chs stop' = false → settle stop o chs !! stop' = chs !! stop'.
Proof.
  intros Hp. destruct (decide (stop' = stop)) as [->|]; [|by apply settle_other].
  unfold settle. unfold is_pending in Hp. by destruct (chs !! stop) as [[]|] eqn:Hs.
Qed.
Lemma settle_lookup stop o chs i :
  settle stop o chs !! i
  = if decide (i = stop) then (λ ch, match ch with Waiting => o | ch => ch end) <$> chs !! i else chs !! i.
Proof.
  case_decide as Hi; [subst i|by apply settle_other]. unfold settle.
  destruct (chs !! stop) as [[]|] eqn:Hs; rewrite ?Hs; try done.
  apply list_lookup_insert_eq. by eapply lookup_lt_Some.
Qed.
Lemma settle_length stop o chs : length (settle stop o chs) = length chs.
Proof. unfold settle. destruct (chs !! stop) as [[]|]; by rewrite ?length_insert. Qed.

Lemma keep_pending_lookup chs receivers id stop :
  keep_pending chs receivers !! id = Some stop ↔
  receivers !! id = Some stop ∧ is_pending chs stop = true.
Proof. unfold keep_pending. by rewrite map_lookup_filter_Some. Qed.

(** What a receiver that is done reports. *)
Definition stop_failure chs (stop : nat) (e : string) : Prop :=
  match chs !! stop with
  | Some (Sent res) => res = Err e
  | Some Waiting => False
  | _ => e = dropped_text
  end.
Lemma poll_stop_cases chs stop :
  match poll_stop dropped_text chs stop with
  | None => is_pending chs stop = true
  | Some (Ok _) => chs !! stop = Some (Sent (Ok ()))
  | Some (Err e) => is_pending chs stop = false ∧ stop_failure chs stop e
  end.
Proof.
  unfold poll_stop, is_pending, stop_failure. by destruct (chs !! stop) as [[|[[]|e]|]|].
Qed.
Lemma poll_all_cases rx first chs :
  match poll_all rx first chs with
  | None => ∃ stop, stop ∈ rx ∧ is_pending chs stop = true
  | Some (Ok _) => first = None ∧ ∀ stop, stop ∈ rx → chs !! stop = Some (Sent (Ok ()))
  | Some (Err e) =>
      (∀ stop, stop ∈ rx → is_pending chs stop = false)
      ∧ (first = Some e ∨ ∃ stop, stop ∈ rx ∧ stop_failure chs stop e)
  end.
Proof.
  revert first. induction rx as [|stop rx IH]; intros first; cbn [poll_all].
  { destruct first; [split; [set_solver|by left]|split; [done|set_solver]]. }
  pose proof (poll_stop_cases chs stop) as Hs.
  destruct (poll_stop _ chs stop) as [res|]; cbn; [|exists stop; set_solver].
  assert (is_pending chs stop = false) as Hset.
  { destruct res as [u|e]; [unfold is_pending; by rewrite Hs|by destruct Hs]. }
  match goal with |- context [poll_all rx ?first' chs] => specialize (IH first') end.
  destruct (poll_all rx _ chs) as [[u|e]|].
  - destruct IH as [Hf Hall]. destruct res as [u'|e']; [|by destruct first].
    split; [done|]. intros s [->|?]%elem_of_cons; auto.
  - destruct IH as [Hall Hex]. split; [intros s [->|?]%elem_of_cons; auto|].
    destruct Hex as [Hf|(s & ? & ?)]; [|right; exists s; set_solver].
    destruct res as [u'|e']; [by left|]. destruct first; [by left|right]. simplify_eq.
    exists stop. split; [by left|by destruct Hs].
  - destruct IH as (s & ? & ?). exists s. set_solver.
Qed.
