(* ===== verification/AdapterRef.v ===== *)
(** * The references of the runtimes

    [RactorActorRef], [KameoActorRef], [CoerceActorRef] (dactor-ractor,
    dactor-kameo and dactor-coerce, each src/runtime.rs) and [TestActorRef]
    (dactor/src/test_support/test_runtime.rs): the outbound pipeline, the
    envelope, the mailbox, and what the caller gets back. The four are one text;
    they differ in the mailbox behind [send_dispatch], in the text that tells a
    full mailbox from a stopped actor and in the error the caller gets
    ([RefKind]), and the reference runtime passes replies through [on_reply].

    Channels are made by the world ([RefWorld]); spawned tasks are recorded
    there with what they close over, and [run_stream_reply] and [relay_reply]
    say what they do. *)
From S2P Require Import Prelude Node Message Channel Mailbox Interceptor Task Actor Dispatch.
From S2P Require Import Stream RuntimeSupport DeadLetter.

#[local] Open Scope string_scope.
#[local] Open Scope list_scope.
#[local] Open Scope nat_scope.

(** What a stream reply closes over: [rx], the buffer, the batching. *)
Record StreamReply (Rx : Type) := mkStreamReply {
  sr_rx : Rx; sr_buffer : nat; sr_batch : option BatchConfig;
  sr_message_type : string; sr_mode : SendMode
}.
Arguments mkStreamReply {Rx}.
Arguments sr_rx {Rx}.
Arguments sr_buffer {Rx}.
Arguments sr_batch {Rx}.
Arguments sr_message_type {Rx}.
Arguments sr_mode {Rx}.

(** What a drain of an input stream closes over: [spawn_reduce_drain] without
    batching, [spawn_reduce_batched_drain] with it, [spawn_transform_drain]. *)
Record DrainTask (W Str Snd : Type) := mkDrainTask {
  dt_input : Str; dt_item_tx : Snd; dt_buffer : nat; dt_batch : option BatchConfig;
  dt_cancel : option (CancelToken W); dt_message_type : string; dt_mode : SendMode
}.
Arguments mkDrainTask {W Str Snd}.

(** Channels and tasks. [inner_send] hands an envelope to the underlying actor
    ([cast], [tell(..).try_send()], [notify]); its error is the text. A receiver
    stands for what its polls will yield. *)
Class RefWorld (W D R Snd Rx Str T : Type) := {
  inner_send : D → W → result string () * W;
  inner_alive : W → bool;
  inner_stop : W → W;
  new_oneshot : W → N * W;
  oneshot_send : N → result RuntimeError R → W → W;
  new_mpsc : nat → W → Snd * Rx * W;
  polls : Rx → StreamReceiver T;
  spawn_drain : DrainTask W Str Snd → W → W;
  spawn_relay : N → N → string → W → W
}.

Section refs.
Context {A W M T Snd R Rx Str C : Type} `{Actor A W M T Snd R}.
Abbreviation D := (Dispatch W M T Snd R).
Context `{RefWorld W D R Snd Rx Str T} `{Sender D C}.
Abbreviation Pipeline := (OutboundPipeline W M T R).

(** ** The struct *)
Record ActorRefData := mkActorRefData {
  rf_id : ActorId;
  rf_name : string;
  rf_interceptors : list (OutboundInterceptor W M T R);
  rf_drop_observer : option (DropObserver W);
  rf_dead_letter_handler : option (DeadLetterHandler W)
}.
Definition outbound_pipeline (r : ActorRefData) : Pipeline :=
  mkOutboundPipeline (rf_interceptors r) (rf_drop_observer r) (rf_id r) (rf_name r).
Definition notify_dead_letter (r : ActorRefData) (message_type : string) (mode : SendMode)
    (reason : DeadLetterReason) (w : W) : W :=
  match rf_dead_letter_handler r with
  | Some handler =>
      handler (mkDeadLetterEvent (rf_id r) (Some (rf_name r)) message_type mode reason) w
  | None => w
  end.

(** ** The mailboxes
    The adapters put a bounded channel in front of the actor when configured. *)
Abbreviation BoundedTx := (option (BoundedMailboxSender C)).
Definition adapter_send (d : D) (b : BoundedTx) (w : W) :
    result ActorSendError () * BoundedTx * W :=
  match b with
  | Some btx => let '(r, btx) := try_send d btx in (r, Some btx, w)
  | None => let '(r, w) := inner_send d w in (map_err mkActorSendError r, None, w)
  end.
Definition adapter_is_alive (b : BoundedTx) (w : W) : bool :=
  match b with
  | Some btx => negb (mailbox_is_closed btx) && inner_alive w
  | None => inner_alive w
  end.
Definition adapter_pending_messages (b : BoundedTx) : nat :=
  match b with Some btx => pending btx | None => 0 end.
Definition adapter_stop (w : W) : W := inner_stop w.

(** ** How the runtimes differ *)
Record RefKind := mkRefKind {
  full_text : string;                             (* marks a full mailbox *)
  caller_error : ActorSendError → ActorSendError  (* the error of tell and ask *)
}.
Definition Ractor_ref : RefKind := mkRefKind "full" id.
(** [ActorSendError(e.to_string())] on an [ActorSendError]. *)
Definition Kameo_ref : RefKind :=
  mkRefKind "full" (λ e, mkActorSendError (ActorSendError_display e)).
Definition Coerce_ref : RefKind := mkRefKind "full" id.
Definition TestRuntime_ref : RefKind := mkRefKind "mailbox full" id.

(** ** Sending
    [B] is the mailbox and [send_dispatch] puts an envelope into it. *)
Section operations.
Context {B : Type} (kind : RefKind).
Context (send_dispatch : D → B → W → result ActorSendError () * B * W).

Definition dead_letter_reason (e : ActorSendError) : DeadLetterReason :=
  if contains (full_text kind) (send_error_msg e) then MailboxFull else ActorStopped.

(** [send_dispatch(..).map_err(|e| { notify_dead_letter(..); e })]. *)
Definition send_or_dead_letter (r : ActorRefData) (message_type : string) (mode : SendMode)
    (d : D) (b : B) (w : W) : result ActorSendError () * B * W :=
  match send_dispatch d b w with
  | (Ok u, b, w) => (Ok u, b, w)
  | (Err e, b, w) =>
      (Err (caller_error kind e), b,
       notify_dead_letter r message_type mode (dead_letter_reason e) w)
  end.

Definition ref_tell (r : ActorRefData) (msg : M) (b : B) (w : W) :
    result ActorSendError () * B * W :=
  let '(res, w) := run_on_send (outbound_pipeline r) (type_name msg) Tell msg w in
  match disposition res with
  | Continue | Delay _ =>
      send_or_dead_letter r (type_name msg) Tell (TypedDispatch msg) b w
  | Drop | Reject _ | Retry _ => (Ok (), b, w)
  end.

(** A reply channel that already holds the answer. *)
Definition answered_reply (error : RuntimeError) (b : B) (w : W) :
    result ActorSendError N * B * W :=
  let '(ch, w) := new_oneshot w in (Ok ch, b, oneshot_send ch (Err error) w).

Definition ref_ask (r : ActorRefData) (msg : M) (cancel : option (CancelToken W)) (b : B) (w : W) :
    result ActorSendError N * B * W :=
  let '(res, w) := run_on_send (outbound_pipeline r) (type_name msg) Ask msg w in
  match disposition res with
  | Drop => answered_reply (ActorNotFoundError "message dropped by outbound interceptor") b w
  | Reject reason => answered_reply (RRejected (interceptor_name res) reason) b w
  | Retry retry_after => answered_reply (RRetryAfter (interceptor_name res) retry_after) b w
  | Continue | Delay _ =>
      let '(ch, w) := new_oneshot w in
      match send_or_dead_letter r (type_name msg) Ask (AskDispatch msg (oneshot_send ch) cancel) b w with
      | (Ok _, b, w) => (Ok ch, b, w)
      | (Err e, b, w) => (Err e, b, w)
      end
  end.

(** The reference runtime relays the reply through the outbound hooks. *)
Definition TestRuntime_ask (r : ActorRefData) (msg : M) (cancel : option (CancelToken W)) (b : B)
    (w : W) : result ActorSendError N * B * W :=
  let '(res, w) := run_on_send (outbound_pipeline r) (type_name msg) Ask msg w in
  match disposition res with
  | Drop => answered_reply (ActorNotFoundError "message dropped by outbound interceptor") b w
  | Reject reason => answered_reply (RRejected (interceptor_name res) reason) b w
  | Retry retry_after => answered_reply (RRetryAfter (interceptor_name res) retry_after) b w
  | Continue | Delay _ =>
      let '(ch, w) := new_oneshot w in
      match send_or_dead_letter r (type_name msg) Ask (AskDispatch msg (oneshot_send ch) cancel) b w with
      | (Err e, b, w) => (Err e, b, w)
      | (Ok _, b, w) =>
          match rf_interceptors r with
          | [] => (Ok ch, b, w)
          | _ =>
              let '(wrapped, w) := new_oneshot w in
              (Ok wrapped, b, spawn_relay ch wrapped (type_name msg) w)
          end
      end
  end.
(** The relay's task, once [rx] has resolved; [None] is a dropped sender. *)
Definition relay_reply (r : ActorRefData) (message_type : string) (wrapped : N)
    (rx : option (result RuntimeError R)) (w : W) : W :=
  match rx with
  | Some (Ok reply) =>
      let w := run_on_reply (outbound_pipeline r) message_type (AskSuccess reply) w in
      oneshot_send wrapped (Ok reply) w
  | Some (Err e) => oneshot_send wrapped (Err e) w
  | None => oneshot_send wrapped (Err (ActorNotFoundError "reply channel closed")) w
  end.

Definition ref_expand (r : ActorRefData) (msg : M) (buffer : nat) (batch : option BatchConfig)
    (cancel : option (CancelToken W)) (b : B) (w : W) :
    result ActorSendError (StreamReply Rx) * B * W :=
  let '(res, w) := run_on_send (outbound_pipeline r) (type_name msg) Expand msg w in
  match disposition res with
  | Drop => (Err (mkActorSendError "stream dropped by outbound interceptor"), b, w)
  | Reject reason => (Err (mkActorSendError ("stream rejected: " +:+ reason)), b, w)
  | Retry _ => (Err (mkActorSendError "stream retry requested by interceptor"), b, w)
  | Continue | Delay _ =>
      let buffer := buffer `max` 1 in
      let '(sender, rx, w) := new_mpsc buffer w in
      match send_dispatch (ExpandDispatch msg sender cancel) b w with
      | (Err e, b, w) => (Err e, b, w)
      | (Ok _, b, w) => (Ok (mkStreamReply rx buffer batch (type_name msg) Expand), b, w)
      end
  end.

Definition ref_reduce (r : ActorRefData) (input : Str) (buffer : nat) (batch : option BatchConfig)
    (cancel : option (CancelToken W)) (b : B) (w : W) : result ActorSendError N * B * W :=
  let buffer := buffer `max` 1 in
  let '(item_tx, item_rx, w) := new_mpsc buffer w in
  let '(ch, w) := new_oneshot w in
  match send_dispatch (ReduceDispatch (polls item_rx) (oneshot_send ch) cancel) b w with
  | (Err e, b, w) => (Err e, b, w)
  | (Ok _, b, w) =>
      (Ok ch, b, spawn_drain (mkDrainTask input item_tx buffer batch cancel item_type_name Reduce) w)
  end.

Definition ref_transform (r : ActorRefData) (input : Str) (buffer : nat)
    (batch : option BatchConfig) (cancel : option (CancelToken W)) (b : B) (w : W) :
    result ActorSendError (StreamReply Rx) * B * W :=
  let buffer := buffer `max` 1 in
  let '(item_tx, item_rx, w) := new_mpsc buffer w in
  let '(output_tx, output_rx, w) := new_mpsc buffer w in
  match send_dispatch (TransformDispatch (polls item_rx) output_tx cancel) b w with
  | (Err e, b, w) => (Err e, b, w)
  | (Ok _, b, w) =>
      (Ok (mkStreamReply output_rx buffer batch item_type_name Transform), b,
       spawn_drain (mkDrainTask input item_tx buffer None cancel item_type_name Transform) w)
  end.
End operations.

(** ** The methods of each runtime's reference *)
Definition Ractor_tell := ref_tell Ractor_ref adapter_send.
Definition Ractor_ask := ref_ask Ractor_ref adapter_send.
Definition Ractor_expand := ref_expand adapter_send.
Definition Ractor_reduce := ref_reduce adapter_send.
Definition Ractor_transform := ref_transform adapter_send.

Definition Kameo_tell := ref_tell Kameo_ref adapter_send.
Definition Kameo_ask := ref_ask Kameo_ref adapter_send.
Definition Kameo_expand := ref_expand adapter_send.
Definition Kameo_reduce := ref_reduce adapter_send.
Definition Kameo_transform := ref_transform adapter_send.

Definition Coerce_tell := ref_tell Coerce_ref adapter_send.
Definition Coerce_ask := ref_ask Coerce_ref adapter_send.
Definition Coerce_expand := ref_expand adapter_send.
Definition Coerce_reduce := ref_reduce adapter_send.
Definition Coerce_transform := ref_transform adapter_send.

(** The small operations, copied. *)
Definition Kameo_outbound_pipeline := outbound_pipeline.
Definition Kameo_notify_dead_letter := notify_dead_letter.
Definition Kameo_send_dispatch := adapter_send.
Definition Kameo_is_alive := adapter_is_alive.
Definition Kameo_pending_messages := adapter_pending_messages.
Definition Kameo_stop := adapter_stop.
Definition Coerce_outbound_pipeline := outbound_pipeline.
Definition Coerce_notify_dead_letter := notify_dead_letter.
Definition Coerce_send_dispatch := adapter_send.
Definition Coerce_is_alive := adapter_is_alive.
Definition Coerce_pending_messages := adapter_pending_messages.
Definition Coerce_stop := adapter_stop.
Definition TestActorRef_outbound_pipeline := outbound_pipeline.
Definition TestActorRef_notify_dead_letter := notify_dead_letter.

(** The error a refusing hook stands for, in an ask. *)
Definition outbound_refusal (res : InterceptResult) : option RuntimeError :=
  match disposition res with
  | Continue | Delay _ => None
  | Drop => Some (ActorNotFoundError "message dropped by outbound interceptor")
  | Reject reason => Some (RRejected (interceptor_name res) reason)
  | Retry retry_after => Some (RRetryAfter (interceptor_name res) retry_after)
  end.

(** ** The stream replies
    The forwarding task of a batched reply: [ops] are its pushes of what the
    handler emits, with deadline checks in between; it stops at the first error
    and flushes in any case. *)
Definition batch_forward {Bt} `{Sender (list T) Bt} (batch_tx : Bt) (cfg : BatchConfig)
    (ops : list (writer_op T)) : BatchWriter T Bt :=
  let '(_, writer) := writer_run ops (BatchWriter_new batch_tx cfg) in
  (flush writer).2.
Definition run_stream_reply {Bt Out} `{Sender (list T) Bt, Sender T Out} (r : ActorRefData)
    (sr : StreamReply Rx) (emitted : list T) (ops : list (writer_op T)) (batch_tx : Bt)
    (out_tx : Out) (w : W) : drained :=
  match sr_batch sr with
  | None =>
      wrap_stream_with_interception emitted (outbound_pipeline r) (sr_message_type sr)
        (sr_mode sr) out_tx w
  | Some cfg =>
      wrap_batched_stream_with_interception
        (BatchReader_new (sent (sender (batch_forward batch_tx cfg ops))))
        (outbound_pipeline r) (sr_message_type sr) (sr_mode sr) out_tx w
  end.
End refs.

(** ** The mailbox of the reference runtime (test_runtime.rs)
    It carries an option: [None] is the stop signal. *)
Section test_mailbox.
Context {X C U : Type} `{Sender (option X) C}.
(** [unbounded_send] is [UnboundedSender::send]; it fails when the receiver is
    gone. *)
Context (unbounded_send : option X → U → bool * U) (unbounded_closed : U → bool).

Inductive MailboxSender :=
  | MUnbounded (tx : U)
  | MBounded (sender : C) (overflow : OverflowStrategy).

Definition MailboxSender_send (msg : option X) (m : MailboxSender) :
    result ActorSendError () * MailboxSender :=
  match m with
  | MUnbounded tx =>
      let '(ok, tx) := unbounded_send msg tx in
      (if (ok : bool) then Ok () else Err (mkActorSendError "actor stopped"), MUnbounded tx)
  | MBounded sender overflow =>
      let '(r, sender) := mpsc_try_send msg sender in
      (match overflow with
       | RejectWithError =>
           map_err (λ e, match e with
             | Full => mkActorSendError "mailbox full"
             | Closed => mkActorSendError "actor stopped"
             end) r
       | DropNewest =>
           match r with
           | Ok _ => Ok ()
           | Err Full => Ok ()
           | Err Closed => Err (mkActorSendError "actor stopped")
           end
       | Block =>
           map_err (λ e, match e with
             | Full => mkActorSendError "mailbox full (Block not supported in sync tell)"
             | Closed => mkActorSendError "actor stopped"
             end) r
       end, MBounded sender overflow)
  end.
Definition force_send (msg : option X) (m : MailboxSender) : MailboxSender :=
  match m with
  | MUnbounded tx => MUnbounded (unbounded_send msg tx).2
  | MBounded sender overflow => MBounded (mpsc_try_send msg sender).2 overflow
  end.
Definition MailboxSender_is_closed (m : MailboxSender) : bool :=
  match m with
  | MUnbounded tx => unbounded_closed tx
  | MBounded sender _ => mpsc_is_closed sender
  end.
Definition MailboxSender_pending (m : MailboxSender) : nat :=
  match m with
  | MUnbounded _ => 0
  | MBounded sender _ => mpsc_max_capacity sender - mpsc_capacity sender
  end.

(** A mailbox as [send_dispatch] sees it; the world is not involved. *)
Definition TestRuntime_send {W} (d : X) (m : MailboxSender) (w : W) :
    result ActorSendError () * MailboxSender * W :=
  let '(r, m) := MailboxSender_send (Some d) m in (r, m, w).

(** [TestActorRef]'s [is_alive] and [stop]; [alive] is the atomic flag. *)
Definition TestActorRef_is_alive (alive : bool) (m : MailboxSender) : bool :=
  alive && negb (MailboxSender_is_closed m).
Definition TestActorRef_stop (m : MailboxSender) : bool * MailboxSender :=
  (false, force_send None m).

(** On a bounded channel it sends as the adapters' [BoundedMailboxSender]. *)
Lemma MailboxSender_send_bounded msg (sender : C) overflow :
  MailboxSender_send msg (MBounded sender overflow)
  = let '(r, s) := try_send msg (mkBoundedMailboxSender sender overflow) in
    (r, MBounded (tx s) (Mailbox.overflow s)).
Proof.
  unfold MailboxSender_send, try_send. simpl.
  by destruct (mpsc_try_send msg sender) as [[[]|[]] c], overflow.
Qed.
End test_mailbox.

(** ** The receiving end: [MailboxReceiver]
    A [MailboxSender] is the channel, with both ends. *)
Section receiver.
Context {X C U : Type} `{Sender (option X) C} `{Receiver (option X) C} `{UnboundedChannel (option X) U}.
Abbreviation Box := (MailboxSender (C := C) (U := U)).
Implicit Types m : Box.

(** One poll of [recv()]. *)
Definition MailboxReceiver_recv (m : Box) : option (option X) * Box :=
  match m with
  | MUnbounded rx => let '(x, rx) := unbounded_recv rx in (x, MUnbounded rx)
  | MBounded rx overflow => let '(x, rx) := mpsc_recv rx in (x, MBounded rx overflow)
  end.
Definition receiver_dropped (m : Box) : Box :=
  match m with
  | MUnbounded rx => MUnbounded (unbounded_drop rx)
  | MBounded rx overflow => MBounded (mpsc_drop rx) overflow
  end.

Definition box_waiting (m : Box) : list (option X) :=
  match m with MUnbounded u => queued u | MBounded c _ => waiting c end.
Abbreviation box_closed := (MailboxSender_is_closed unbounded_closed).
Definition is_bounded (m : Box) : bool :=
  match m with MUnbounded _ => false | MBounded _ _ => true end.
(** What [send] says of a full mailbox. *)
Definition full_answer (o : OverflowStrategy) : result ActorSendError () :=
  match o with
  | RejectWithError => Err (mkActorSendError "mailbox full")
  | DropNewest => Ok ()
  | Block => Err (mkActorSendError "mailbox full (Block not supported in sync tell)")
  end.
Definition full_mailbox (m : Box) (o : OverflowStrategy) : Prop :=
  ∃ c, m = MBounded c o ∧ mpsc_capacity c = 0.
(** Whether an operation that made [m'] of [m] put something in. *)
Definition entered (m m' : Box) : bool := length (box_waiting m) <? length (box_waiting m').

Lemma entered_snoc m m' x : box_waiting m' = box_waiting m ++ [x] → entered m m' = true.
Proof. unfold entered. intros ->. apply Nat.ltb_lt. rewrite length_app. simpl. lia. Qed.
Lemma entered_same m : entered m m = false.
Proof. apply Nat.ltb_irrefl. Qed.

Context `{!SenderLaws (option X) C} `{!ReceiverLaws (option X) C} `{!UnboundedLaws (option X) U}.

(** Every branch of [send]: into the mailbox, or refused by a closed or a full
    one, which stays as it was. *)
Lemma MailboxSender_send_cases msg m :
  let '(res, m') := MailboxSender_send unbounded_send msg m in
  if box_closed m then res = Err (mkActorSendError "actor stopped") ∧ m' = m
  else (res = Ok () ∧ box_waiting m' = box_waiting m ++ [msg] ∧ box_closed m' = false
        ∧ is_bounded m' = is_bounded m)
       ∨ (m' = m ∧ ∃ o, full_mailbox m o ∧ res = full_answer o).
Proof.
  destruct m as [u|c o]; simpl.
  - destruct (unbounded_closed u) eqn:Hu; [by rewrite unbounded_send_closed|].
    destruct (unbounded_send_open msg u Hu) as (u' & -> & Hq & Hc). by left.
  - destruct (mpsc_try_send msg c) as [[[]|e] c'] eqn:Ht.
    + apply try_send_waiting in Ht as (-> & Hc & Hw). left. by destruct o.
    + apply try_send_err in Ht as [-> He]. destruct e; [destruct He as [Hcap ->]|rewrite He].
      * right. split; [done|]. exists o. split; [by exists c|]. by destruct o.
      * by destruct o.
Qed.
Lemma force_send_cases msg m :
  let m' := force_send unbounded_send msg m in
  if box_closed m then m' = m
  else (box_waiting m' = box_waiting m ++ [msg] ∧ box_closed m' = false ∧ is_bounded m' = is_bounded m)
       ∨ (m' = m ∧ ∃ o, full_mailbox m o).
Proof.
  destruct m as [u|c o]; simpl.
  - destruct (unbounded_closed u) eqn:Hu; [by rewrite unbounded_send_closed|].
    destruct (unbounded_send_open msg u Hu) as (u' & -> & Hq & Hc). by left.
  - destruct (mpsc_try_send msg c) as [[[]|e] c'] eqn:Ht; simpl.
    + apply try_send_waiting in Ht as (-> & Hc & Hw). by left.
    + apply try_send_err in Ht as [-> He]. destruct e; [destruct He as [Hcap ->]|by rewrite He].
      right. split; [done|]. by exists o, c.
Qed.
Lemma MailboxReceiver_recv_waiting m :
  match box_waiting m with
  | [] => MailboxReceiver_recv m = (None, m)
  | x :: q => ∃ m', MailboxReceiver_recv m = (Some x, m') ∧ box_waiting m' = q
      ∧ box_closed m' = box_closed m ∧ is_bounded m' = is_bounded m
  end.
Proof.
  destruct m as [u|c o]; simpl.
  - pose proof (unbounded_recv_queued u) as Hr. destruct (queued u) as [|x q]; [by rewrite Hr|].
    destruct Hr as (u' & -> & ? & ?). by exists (MUnbounded u').
  - pose proof (mpsc_recv_waiting c) as Hr. destruct (waiting c) as [|x q]; [by rewrite Hr|].
    destruct Hr as (c' & -> & ? & ?). by exists (MBounded c' o).
Qed.
Lemma receiver_dropped_closed m : box_closed (receiver_dropped m) = true.
Proof. destruct m; [apply unbounded_dropped|apply mpsc_dropped]. Qed.
Lemma receiver_dropped_kind m : is_bounded (receiver_dropped m) = is_bounded m.
Proof. by destruct m. Qed.
(** Only a bounded mailbox is ever full. *)
Lemma full_bounded m o : full_mailbox m o → is_bounded m = true.
Proof. by intros (c & -> & _). Qed.
End receiver.
Abbreviation box_closed := (MailboxSender_is_closed unbounded_closed).

(** ** Lemmas *)
Section send_lemmas.
Context {A W M T Snd R Rx Str C : Type} `{Actor A W M T Snd R}.
Abbreviation D := (Dispatch W M T Snd R).
Context `{RefWorld W D R Snd Rx Str T} `{SenderLaws D C}.

Definition kinds : list RefKind := [Ractor_ref; Kameo_ref; Coerce_ref].

(** The text of the bounded mailbox tells the two failures apart. *)
Lemma reason_of_text kind : kind ∈ kinds →
  dead_letter_reason kind (mkActorSendError "actor stopped") = ActorStopped
  ∧ dead_letter_reason kind (mkActorSendError "mailbox full") = MailboxFull
  ∧ dead_letter_reason kind
      (mkActorSendError "mailbox full (Block not supported in sync tell)") = MailboxFull.
Proof.
  unfold kinds. rewrite !elem_of_cons, elem_of_nil. by intros [->|[->|[->|[]]]].
Qed.

Lemma send_bounded kind (r : ActorRefData (W := W) (M := M) (T := T) (R := R)) mt mode (d : D)
    (s : BoundedMailboxSender C) w :
  kind ∈ kinds →
  match send_or_dead_letter kind adapter_send r mt mode d (Some s) w with
  | (Ok _, b, w') =>
      w' = w ∧ ∃ s', b = Some s' ∧
      (sent (tx s') = sent (tx s) ++ [d]
       ∨ (s' = s ∧ overflow s = DropNewest ∧ mpsc_capacity (tx s) = 0))
  | (Err e, b, w') =>
      b = Some s
      ∧ w' = notify_dead_letter r mt mode
               (if mailbox_is_closed s then ActorStopped else MailboxFull) w
      ∧ (mailbox_is_closed s = true ∨ (mpsc_capacity (tx s) = 0 ∧ overflow s ≠ DropNewest))
  end.
Proof.
  intros (Hstop & Hfull & Hblock)%reason_of_text. unfold send_or_dead_letter, adapter_send.
  pose proof (try_send_cases d s) as Ht. destruct (try_send d s) as [[u|e] s'].
  - destruct (Ht _ _ eq_refl) as [_ [?|(? & ? & ? & _)]]; (split; [done|]); exists s'; eauto.
  - destruct (Ht _ _ eq_refl) as (_ & -> & He). split; [done|].
    destruct (mailbox_is_closed s); [subst e; rewrite Hstop; auto|].
    destruct He as (? & ? & ->). case_decide; rewrite ?Hfull, ?Hblock; auto.
Qed.
End send_lemmas.

(** Batched or not, a stream reply is what the hooks let through. *)
Section stream_replies.
Context {A W M T Snd R Rx : Type} `{Actor A W M T Snd R}.

Lemma stream_reply_same {Bt Out} `{SenderLaws (list T) Bt, SenderLaws T Out}
    (r : ActorRefData (W := W) (M := M) (T := T) (R := R)) (rx : Rx) buffer cfg mt mode emitted ops (batch_tx : Bt) (out_tx : Out) dec w :
  stateless (outbound_pipeline r) mt mode dec →
  never_closes out_tx (length emitted) → 0 < max_items cfg → sent batch_tx = [] →
  pushed ops = emitted →
  (writer_run ops (BatchWriter_new batch_tx cfg)).1 = Ok () →
  (flush (writer_run ops (BatchWriter_new batch_tx cfg)).2).1 = Ok () →
  let plain := mkStreamReply rx buffer None mt mode in
  let batched := mkStreamReply rx buffer (Some cfg) mt mode in
  sent (dr_chan (run_stream_reply r batched emitted ops batch_tx out_tx w))
  = sent (dr_chan (run_stream_reply r plain emitted ops batch_tx out_tx w))
  ∧ sent (dr_chan (run_stream_reply r plain emitted ops batch_tx out_tx w))
    = sent out_tx ++ passed dec 0 emitted.
Proof.
  intros Hm Hopen Hcfg Hnil Hpush Hrun Hflush. cbn zeta.
  assert (into_stream (BatchReader_new (sent (sender (batch_forward batch_tx cfg ops)))) = emitted) as Hin.
  { unfold batch_forward. destruct (writer_run ops (BatchWriter_new batch_tx cfg)) as [r1 wr] eqn:Hwr.
    cbn [fst snd] in *. subst r1.
    pose proof (writer_new_wf batch_tx cfg Hcfg Hnil) as Hwf.
    apply writer_run_spec in Hwr as (Hwf' & Hc & _ & Hok); [|done].
    destruct (flush wr) as [r2 wr2] eqn:Hfl. cbn [fst snd] in *. subst r2.
    pose proof Hwf' as [Hb Hd Hall]. apply flush_spec in Hfl as (_ & Hbuf & _ & Hw & _);
      [|lia|done|lia|done].
    specialize (Hw eq_refl). specialize (Hok eq_refl). unfold written in *. simpl in Hok.
    rewrite Hnil in Hok. simpl in Hok. rewrite into_stream_pending. unfold pending_items. simpl.
    rewrite Hbuf, app_nil_r, Hok in Hw. congruence. }
  unfold run_stream_reply, wrap_batched_stream_with_interception, wrap_stream_with_interception.
  cbn [sr_batch sr_message_type sr_mode]. rewrite Hin.
  destruct (drain_stateless _ mt mode mode "stream reply (batched)" dec 0 emitted out_tx w [] _
    Hm Hopen eq_refl) as [-> _].
  destruct (drain_stateless _ mt mode Expand "stream reply" dec 0 emitted out_tx w [] _
    Hm Hopen eq_refl) as [-> _].
  done.
Qed.
End stream_replies.

(** ** The methods of the reference runtime's reference *)
Section test_refs.
Context {A W M T Snd R Rx Str C U : Type} `{Actor A W M T Snd R}.
Context `{RefWorld W (Dispatch W M T Snd R) R Snd Rx Str T}.
Context `{Sender (option (Dispatch W M T Snd R)) C}.
Context (us : option (Dispatch W M T Snd R) → U → bool * U).

Definition TestActorRef_tell := ref_tell (B := MailboxSender (C := C)) TestRuntime_ref (TestRuntime_send us).
Definition TestActorRef_ask := TestRuntime_ask (B := MailboxSender (C := C)) TestRuntime_ref (TestRuntime_send us).
Definition TestActorRef_expand := ref_expand (B := MailboxSender (C := C)) (TestRuntime_send us).
Definition TestActorRef_reduce := ref_reduce (B := MailboxSender (C := C)) (TestRuntime_send us).
Definition TestActorRef_transform := ref_transform (B := MailboxSender (C := C)) (TestRuntime_send us).
End test_refs.

(** ** A concrete world, for the witnesses *)
Module Demo.
Record World := mkWorld {
  next_chan : N; replies : list (N * result RuntimeError nat); dead : list DeadLetterEvent
}.
Definition w0 : World := mkWorld 0 [] [].
#[export] Instance demo_actor : Actor nat World string nat nat nat := {|
  type_name m := m; item_type_name := "u64"; on_start := mret (); on_stop := mret ();
  on_error := default_on_error; handle _ := mret 0; handle_expand _ _ := mret ();
  handle_reduce _ := mret 0; handle_transform _ _ := mret (); on_transform_complete _ := mret ()
|}.
Abbreviation Envelope := (Dispatch World string nat nat nat).
#[export] Instance demo_refs : RefWorld World Envelope nat nat nat (list nat) nat := {|
  inner_send _ w := (Ok (), w); inner_alive _ := true; inner_stop w := w;
  new_oneshot w := (next_chan w, mkWorld (next_chan w + 1) (replies w) (dead w));
  oneshot_send ch a w := mkWorld (next_chan w) (replies w ++ [(ch, a)]) (dead w);
  new_mpsc _ w := (0, 0, w); polls _ := []; spawn_drain _ w := w; spawn_relay _ _ _ w := w
|}.
Definition id1 : ActorId := mkActorId (mkNodeId "n") 1.
Definition pass (_ : N) (_ : nat) : InterceptResult := continued.
Definition ref (ics : list (OutboundInterceptor World string nat nat)) : ActorRefData :=
  mkActorRefData id1 "counter" ics None
    (Some (λ ev w, mkWorld (next_chan w) (replies w) (dead w ++ [ev]))).
Definition limiter : OutboundInterceptor World string nat nat :=
  mkOutbound "limiter" (λ _ h _ w, (Retry 5, h, w)) (λ _ _ _ w, w) (λ _ _ _ _ w, (Continue, w)).
Definition box (queued max : nat) (o : OverflowStrategy) :
    BoundedMailboxSender (TestChan Envelope) :=
  mkBoundedMailboxSender (mkTestChan [] queued max 9) o.
End Demo.

(** ** The properties *)
Module Spec.
Import Demo.
Section spec.
Context {A W M T Snd R Rx Str C : Type} `{Actor A W M T Snd R}.
Abbreviation D := (Dispatch W M T Snd R).
Context `{RefWorld W D R Snd Rx Str T}.

Definition lets_through (d : Disposition) : Prop :=
  match d with Continue | Delay _ => True | _ => False end.

(** C14. A [tell] through a bounded mailbox, in the three adapters. [Err] means that
    the hooks let the message through and the mailbox is closed, or full and not
    configured to drop; the mailbox is as it was and exactly one dead letter is
    reported, whose reason (found by searching the error text) is right. [Ok]
    means that the message is at the end of the mailbox, or that it is lost
    without an error and without a dead letter: a hook refused it, or the
    mailbox is full and drops the newest. *)
Theorem tell_bounded `{SenderLaws D C} kind (r : ActorRefData) msg (s : BoundedMailboxSender C) w :
  kind ∈ kinds →
  let '(res, w1) := run_on_send (outbound_pipeline r) (type_name msg) Tell msg w in
  match ref_tell kind adapter_send r msg (Some s) w with
  | (Ok _, b, w') =>
      w' = w1 ∧ ∃ s', b = Some s' ∧
      ((lets_through (disposition res) ∧ sent (tx s') = sent (tx s) ++ [TypedDispatch msg])
       ∨ (s' = s ∧ (¬ lets_through (disposition res)
                    ∨ (overflow s = DropNewest ∧ mpsc_capacity (tx s) = 0))))
  | (Err e, b, w') =>
      b = Some s ∧ lets_through (disposition res)
      ∧ w' = notify_dead_letter r (type_name msg) Tell
               (if mailbox_is_closed s then ActorStopped else MailboxFull) w1
      ∧ (mailbox_is_closed s = true ∨ (mpsc_capacity (tx s) = 0 ∧ overflow s ≠ DropNewest))
  end.
Proof.
  intros Hk. destruct (run_on_send _ _ _ _ _) as [res w1] eqn:Hres. unfold ref_tell. rewrite Hres.
  assert (Hsend := send_bounded kind r (type_name msg) Tell (TypedDispatch msg) s w1 Hk).
  destruct (disposition res) eqn:Hd;
    try (split; [done|]; exists s; split; [done|]; right; split; [done|]; by left).
  all: destruct (send_or_dead_letter _ _ _ _ _ _ _ _) as [[[u|e] b] w']; naive_solver.
Qed.

(** An [ask] through a bounded mailbox, in the three adapters. A refusing
    hook gives the caller a channel that already holds the error it stands for,
    and nothing is sent. Otherwise [Ok] gives the channel the envelope answers
    to, and the envelope is at the end of the mailbox unless a full mailbox that
    drops the newest swallowed it; [Err] leaves the mailbox as it was, and one
    dead letter with the right reason is reported. *)
Theorem ask_bounded `{SenderLaws D C} kind (r : ActorRefData) msg cancel
    (s : BoundedMailboxSender C) w :
  kind ∈ kinds →
  let '(res, w1) := run_on_send (outbound_pipeline r) (type_name msg) Ask msg w in
  let ch := (new_oneshot w1).1 in
  let w2 := (new_oneshot w1).2 in
  match ref_ask kind adapter_send r msg cancel (Some s) w with
  | (Ok ch', b, w') =>
      ch' = ch ∧
      match outbound_refusal res with
      | Some e => b = Some s ∧ w' = oneshot_send ch (Err e) w2
      | None =>
          w' = w2 ∧ ∃ s', b = Some s' ∧
          (sent (tx s') = sent (tx s) ++ [AskDispatch msg (oneshot_send ch) cancel]
           ∨ (s' = s ∧ overflow s = DropNewest ∧ mpsc_capacity (tx s) = 0))
      end
  | (Err e, b, w') =>
      b = Some s ∧ outbound_refusal res = None
      ∧ w' = notify_dead_letter r (type_name msg) Ask
               (if mailbox_is_closed s then ActorStopped else MailboxFull) w2
      ∧ (mailbox_is_closed s = true ∨ (mpsc_capacity (tx s) = 0 ∧ overflow s ≠ DropNewest))
  end.
Proof.
  intros Hk. destruct (run_on_send _ _ _ _ _) as [res w1] eqn:Hres.
  unfold ref_ask, answered_reply, outbound_refusal. rewrite Hres. cbn zeta.
  destruct (new_oneshot w1) as [ch w2]. cbn [fst snd].
  pose proof (send_bounded kind r (type_name msg) Ask (AskDispatch msg (oneshot_send ch) cancel) s
    w2 Hk) as Hsend.
  destruct (disposition res); try (split_and!; done).
  all: destruct (send_or_dead_letter _ _ _ _ _ _ _ _) as [[[u|e] b] w']; naive_solver.
Qed.

(** C37. Batching a stream reply changes nothing for the caller. For hooks that
    look at the sequence number and the item only, a consumer that stays and a
    forwarding task that pushed what the handler emitted without an error, the
    caller receives the same items in the same order with batching and without:
    those the hooks let through, up to the first they reject. *)
Theorem batching_invisible {Bt Out} `{SenderLaws (list T) Bt, SenderLaws T Out}
    (r : ActorRefData (W := W) (M := M) (T := T) (R := R)) (rx : Rx) buffer cfg mt mode emitted ops (batch_tx : Bt) (out_tx : Out) dec w :
  stateless (outbound_pipeline r) mt mode dec →
  never_closes out_tx (length emitted) → 0 < max_items cfg → sent batch_tx = [] →
  pushed ops = emitted →
  (writer_run ops (BatchWriter_new batch_tx cfg)).1 = Ok () →
  (flush (writer_run ops (BatchWriter_new batch_tx cfg)).2).1 = Ok () →
  let plain := mkStreamReply rx buffer None mt mode in
  let batched := mkStreamReply rx buffer (Some cfg) mt mode in
  sent (dr_chan (run_stream_reply r batched emitted ops batch_tx out_tx w))
  = sent (dr_chan (run_stream_reply r plain emitted ops batch_tx out_tx w))
  ∧ sent (dr_chan (run_stream_reply r plain emitted ops batch_tx out_tx w))
    = sent out_tx ++ passed dec 0 emitted.
Proof.
  apply stream_reply_same.
Qed.
End spec.

(** Stopping an actor of the reference runtime marks its reference dead,
    whatever its mailbox. On a bounded mailbox the stop signal goes in only as a
    message would: where the channel takes no more it is lost, the mailbox stays
    as it was, and the actor goes on with it. *)
Theorem stop_signal {X C U} `{SenderLaws (option X) C} (us : option X → U → bool * U) (c : C) o
    alive m :
  TestActorRef_stop us (MBounded c o) = (alive, m) →
  alive = false ∧ ∃ c', m = MBounded c' o
  ∧ ((sent c' = sent c ++ [None])
     ∨ (c' = c ∧ (mpsc_is_closed c = true ∨ mpsc_capacity c = 0))).
Proof.
  unfold TestActorRef_stop, force_send. intros [= <- <-]. split; [done|].
  destruct (mpsc_try_send None c) as [[[]|e] c'] eqn:Ht; exists c'; split; try done.
  - left. by apply try_send_ok in Ht.
  - right. apply try_send_err in Ht as [-> He]. split; [done|]. destruct e; [right|left]; tauto.
Qed.

(** A full mailbox of the kameo adapter. *)
Lemma tell_bounded_witness :
  let '(r, _, w) := ref_tell Kameo_ref adapter_send (ref []) "Ping" (Some (box 1 1 RejectWithError)) w0 in
  (r, dl_reason <$> dead w)
  = (Err (mkActorSendError "actor send failed: mailbox full"), [MailboxFull])
  ∧ Kameo_ref ∈ kinds
  ∧ w = notify_dead_letter (ref []) "Ping" Tell MailboxFull w0.
Proof.
  assert (Kameo_ref ∈ kinds) as Hk by (unfold kinds; rewrite !elem_of_cons; auto).
  pose proof (tell_bounded Kameo_ref (ref []) "Ping" (box 1 1 RejectWithError) w0 Hk)
    as (_ & _ & Hw & _).
  split_and!; [vm_compute; reflexivity|exact Hk|exact Hw].
Defined.

Lemma ask_bounded_witness :
  let '(r, b, w) := ref_ask Ractor_ref adapter_send (ref [limiter]) "Get" None (Some (box 0 4 Block)) w0 in
  (r, replies w) = (Ok 0%N, [(0%N, Err (RRetryAfter "limiter" 5))])
  ∧ Ractor_ref ∈ kinds ∧ b = Some (box 0 4 Block).
Proof.
  assert (Ractor_ref ∈ kinds) as Hk by (unfold kinds; rewrite !elem_of_cons; auto).
  pose proof (ask_bounded Ractor_ref (ref [limiter]) "Get" None (box 0 4 Block) w0 Hk)
    as (_ & Hb & _).
  split_and!; [vm_compute; reflexivity|exact Hk|exact Hb].
Defined.

Lemma batching_invisible_witness :
  let emitted := [1; 2; 3] in
  let ops := [WPush 0 1; WPush 1 2; WCheck 3; WPush 4 3] in
  let cfg := mkBatchConfig 2 5 in
  let batched := mkStreamReply 0 8 (Some cfg) "u64" Expand in
  let bt := mkTestChan (T := list nat) [] 0 8 9 in
  let out := mkTestChan (T := nat) [] 0 8 9 in
  sent (dr_chan (run_stream_reply (ref []) batched emitted ops bt out w0)) = [1; 2; 3]
  ∧ sent (dr_chan (run_stream_reply (ref []) batched emitted ops bt out w0))
    = sent (dr_chan (run_stream_reply (ref []) (mkStreamReply 0 8 None "u64" Expand)
        emitted ops bt out w0)).
Proof.
  split; [vm_compute; reflexivity|].
  refine (proj1 (batching_invisible (ref []) 0 8 (mkBatchConfig 2 5) "u64" Expand [1; 2; 3]
    [WPush 0 1; WPush 1 2; WCheck 3; WPush 4 3] (mkTestChan [] 0 8 9) (mkTestChan [] 0 8 9)
    pass w0 _ _ _ eq_refl eq_refl eq_refl eq_refl)).
  - intros seq item w. reflexivity.
  - intros [|a [|b [|c [|? ?]]]] Hl; try reflexivity. simpl in Hl. lia.
  - simpl. lia.
Defined.

(** Two messages wait in a mailbox of two. *)
Lemma stop_signal_witness :
  let c := mkTestChan [Some 1; Some 2] 2 2 9 in
  let us := λ (_ : option nat) (u : ()), (true, u) in
  TestActorRef_stop us (MBounded c Block) = (false, MBounded c Block)
  ∧ (false = false ∧ ∃ c', MBounded c Block = MBounded (U := ()) c' Block
     ∧ ((sent c' = sent c ++ [None])
        ∨ (c' = c ∧ (mpsc_is_closed c = true ∨ mpsc_capacity c = 0)))).
Proof.
  split; [reflexivity|].
  exact (stop_signal (λ (_ : option nat) (u : ()), (true, u)) (mkTestChan [Some 1; Some 2] 2 2 9)
    Block false (MBounded (mkTestChan [Some 1; Some 2] 2 2 9) Block) eq_refl).
Defined.
End Spec.
