(* ===== verification/Session.v ===== *)
(** * Sessions with an actor of the reference runtime

    The parts of a runtime put together: callers with a reference
    ([TestActorRef] of AdapterRef.v), the mailbox between them and the actor's
    task (Channel.v), and that task (ActorLoop.v), polled a step at a time while
    the callers go on and the rest of the world changes. A session is any
    interleaving of these steps. Its specification is a sequential object:
    [serve] runs the accepted operations one after the other, in the order in
    which they entered the mailbox.

    The mailbox is unbounded, or bounded with any overflow strategy; the actor is
    spawned without interceptors and without a dead-letter handler
    (dactor/src/test_support/test_runtime.rs, [spawn_with_options]). *)
From S2P Require Import Prelude Node Message Channel Mailbox Interceptor Task Actor Dispatch.
From S2P Require Import RuntimeSupport Supervision DeadLetter ActorLoop AdapterRef.

#[local] Open Scope string_scope.
#[local] Open Scope list_scope.
#[local] Open Scope nat_scope.

(** ** What a session sees of the world
    [reply_of] is the content of a oneshot channel that was made: [Some None]
    while it is empty. [shared] is what the actor shares with its callers besides
    the mailbox, an [Arc] of its arguments. The flag is [TestActorRef::alive]. *)
Class SessionWorld (W R V : Type) := {
  reply_of : N → W → option (option (result RuntimeError R));
  shared : W → V;
  alive_flag : W → bool;
  store_dead : W → W;
  unregister_self : W → W;
  notify_stop : result string () → W → W
}.

Section world.
Context {W R V : Type} `{SessionWorld W R V}.

(** Nothing that is the session's has changed. *)
Definition keeps_world (w w' : W) : Prop :=
  (∀ ch o, reply_of ch w = Some o → reply_of ch w' = Some o)
  ∧ shared w' = shared w ∧ alive_flag w' = alive_flag w.

#[export] Instance keeps_world_preorder : PreOrder keeps_world.
Proof.
  split; [intros w; by split_and!|]. intros w1 w2 w3 (Hr & Hs & Hf) (Hr' & Hs' & Hf').
  split_and!; [by auto|congruence..].
Qed.
End world.

Class SessionLaws (W D R V Snd Rx Str T Rf : Type) `{LoopWorld W Rf}
    `{RefWorld W D R Snd Rx Str T} `{SessionWorld W R V} := {
  new_oneshot_fresh w : reply_of (new_oneshot w).1 w = None
    ∧ reply_of (new_oneshot w).1 (new_oneshot w).2 = Some None
    ∧ keeps_world w (new_oneshot w).2;
  oneshot_send_once ch a w : reply_of ch w = Some None →
    reply_of ch (oneshot_send ch a w) = Some (Some a)
    ∧ (∀ ch', ch' ≠ ch → reply_of ch' (oneshot_send ch a w) = reply_of ch' w)
    ∧ shared (oneshot_send ch a w) = shared w
    ∧ alive_flag (oneshot_send ch a w) = alive_flag w;
  store_dead_flag w : alive_flag (store_dead w) = false ∧ shared (store_dead w) = shared w
    ∧ (∀ ch, reply_of ch (store_dead w) = reply_of ch w);
  unregister_keeps w : keeps_world w (unregister_self w);
  notify_stop_keeps res w : keeps_world w (notify_stop res w);
  watcher_map_keeps m w : keeps_world w (set_watcher_map m w);
  run_notify_keeps n c w : keeps_world w (run_notify n c w)
}.

(** ** The system *)
Section system.
Context {A W M T Snd R Rf Rx Str C U V : Type} `{Actor A W M T Snd R} `{LoopWorld W Rf}.
Abbreviation D := (Dispatch W M T Snd R).
Context `{RefWorld W D R Snd Rx Str T} `{Sender (option D) C} `{Receiver (option D) C}.
Context `{UnboundedChannel (option D) U} `{SessionWorld W R V}.
Abbreviation Box := (MailboxSender (C := C) (U := U)).
Abbreviation Local := ((A * ActorContext W) * option string)%type.
Abbreviation LTask X := (Task Local W X).
Context (ref : ActorRefData (W := W) (M := M) (T := T) (R := R)).

(** What is left of the task once its loop is over and the flag is down. *)
Definition wind_up : LTask () :=
  _ ← post_stop TestRuntime_stop_policy (Some notify_stop);
  sync (λ l w, (l, unregister_self w, ())).

(** Where the actor's task is: in [on_start], at [rx.recv()], in a message, past
    the loop, over; or it has panicked. *)
Inductive Activity :=
  | Starting (t : LTask ()) (l : Local)
  | Receiving (l : Local)
  | Handling (t : LTask Flow) (l : Local)
  | Ending (t : LTask ()) (l : Local)
  | Over (l : Local)
  | Crashed (l : Local).

Record Sys := mkSys { sy_world : W; sy_box : Box; sy_act : Activity }.

(** One step of the actor's task: a poll of what it awaits, or a message taken
    out of the mailbox, with the runtime headers [rh] made for it. The receiver
    is dropped with the task. [None]: there is nothing to do. *)
Definition actor_turn (rh : RuntimeHeaders) (s : Sys) : option Sys :=
  let w := sy_world s in
  let u := sy_box s in
  match sy_act s with
  | Starting t l =>
      Some match poll_task t l w with
           | (l, w, Ready _) => mkSys w u (Receiving l)
           | (l, w, Panicked) => mkSys w (receiver_dropped u) (Crashed l)
           | (l, w, Pending k) => mkSys w u (Starting k l)
           end
  | Receiving l =>
      match MailboxReceiver_recv u with
      | (None, _) => None
      | (Some None, u) => Some (mkSys (store_dead w) u (Ending wind_up l))
      | (Some (Some d), u) => Some (mkSys w u (Handling (handle_message [] None rh d) l))
      end
  | Handling t l =>
      Some match poll_task t l w with
           | (l, w, Ready KeepGoing) => mkSys w u (Receiving l)
           | (l, w, Ready Fatal) => mkSys (store_dead w) u (Ending wind_up l)
           | (l, w, Panicked) => mkSys w (receiver_dropped u) (Crashed l)
           | (l, w, Pending k) => mkSys w u (Handling k l)
           end
  | Ending t l =>
      Some match poll_task t l w with
           | (l, w, Ready _) => mkSys w (receiver_dropped u) (Over l)
           | (l, w, Panicked) => mkSys w (receiver_dropped u) (Crashed l)
           | (l, w, Pending k) => mkSys w u (Ending k l)
           end
  | Over _ | Crashed _ => None
  end.

(** The callers, through the methods of the reference. *)
Definition do_tell (m : M) (s : Sys) : result ActorSendError () * Sys :=
  let '(r, b, w) := TestActorRef_tell unbounded_send ref m (sy_box s) (sy_world s) in
  (r, mkSys w b (sy_act s)).
Definition do_ask (m : M) (cancel : option (CancelToken W)) (s : Sys) :
    result ActorSendError N * Sys :=
  let '(r, b, w) := TestActorRef_ask unbounded_send ref m cancel (sy_box s) (sy_world s) in
  (r, mkSys w b (sy_act s)).
Definition do_stop (s : Sys) : Sys :=
  let '(alive, b) := TestActorRef_stop unbounded_send (sy_box s) in
  mkSys (if (alive : bool) then sy_world s else store_dead (sy_world s)) b (sy_act s).
Definition session_is_alive (s : Sys) : bool :=
  TestActorRef_is_alive unbounded_closed (alive_flag (sy_world s)) (sy_box s).

(** ** Sessions
    The log has the accepted operations in the order in which they entered the
    mailbox, an [ask] with its channel; [rn_taken] counts those the actor has
    taken out. [rn_lost] has the channels of the asks that a full mailbox
    dropped without an error. A token is missing, or cancelled before the [ask]. *)
Inductive Entry := ETell (m : M) | EAsk (m : M) (ch : N) (cancelled : bool) | EStop.
Record Run := mkRun { rn_sys : Sys; rn_log : list Entry; rn_taken : nat; rn_lost : list N }.

Definition token_is (cancel : option (CancelToken W)) (cancelled : bool) : Prop :=
  match cancel with None => cancelled = false | Some token => cancelled = true ∧ ∀ w, token w = true end.

(** The entry of an operation that took the mailbox from [s] to [s']. *)
Definition logged (s s' : Sys) (e : Entry) : list Entry :=
  if entered (sy_box s) (sy_box s') then [e] else [].
Definition after_tell (m : M) (r : Run) : result ActorSendError () * Run :=
  let '(res, s) := do_tell m (rn_sys r) in
  (res, mkRun s (rn_log r ++ logged (rn_sys r) s (ETell m)) (rn_taken r) (rn_lost r)).
Definition after_ask (m : M) (cancel : option (CancelToken W)) (cancelled : bool) (r : Run) :
    result ActorSendError N * Run :=
  let '(res, s) := do_ask m cancel (rn_sys r) in
  match res with
  | Ok ch =>
      (res, mkRun s (rn_log r ++ logged (rn_sys r) s (EAsk m ch cancelled)) (rn_taken r)
              (rn_lost r ++ if entered (sy_box (rn_sys r)) (sy_box s) then [] else [ch]))
  | Err _ => (res, mkRun s (rn_log r) (rn_taken r) (rn_lost r))
  end.
Definition after_stop (r : Run) : Run :=
  let s := do_stop (rn_sys r) in
  mkRun s (rn_log r ++ logged (rn_sys r) s EStop) (rn_taken r) (rn_lost r).
Definition after_turn (rh : RuntimeHeaders) (r : Run) : option Run :=
  s ← actor_turn rh (rn_sys r);
  Some (mkRun s (rn_log r)
    (match sy_act (rn_sys r) with Receiving _ => S (rn_taken r) | _ => rn_taken r end) (rn_lost r)).
Definition with_world (w : W) (r : Run) : Run :=
  mkRun (mkSys w (sy_box (rn_sys r)) (sy_act (rn_sys r))) (rn_log r) (rn_taken r) (rn_lost r).

Inductive session_step : Run → Run → Prop :=
  | ss_tell m r : session_step r (after_tell m r).2
  | ss_ask m cancel cancelled r : token_is cancel cancelled →
      session_step r (after_ask m cancel cancelled r).2
  | ss_stop r : session_step r (after_stop r)
  | ss_turn rh r r' : after_turn rh r = Some r' → session_step r r'
  | ss_others w r : keeps_world (sy_world (rn_sys r)) w → session_step r (with_world w r).

(** What the caller's [AskReply] sees: the envelope of a dropped or handled
    message takes its sender with it. *)
Definition entry_handled (r : Run) (i : nat) : bool :=
  match sy_act (rn_sys r) with
  | Over _ | Crashed _ => true
  | Handling _ _ => S i <? rn_taken r
  | _ => i <? rn_taken r
  end.
Definition caller_sees (r : Run) (i : nat) (ch : N) : oneshot (result RuntimeError R) :=
  match reply_of ch (sy_world (rn_sys r)) with
  | Some (Some a) => Sent a
  | _ => if entry_handled r i then SenderDropped else Waiting
  end.

(** A new session: [tokio::spawn] of the task of an actor. *)
Definition session_start (w : W) (u : Box) (l : Local) : Run :=
  mkRun (mkSys w u (Starting start l)) [] 0 [].
End system.
Arguments Entry : clear implicits.

(** ** The sequential object
    [step] is what a message does to the actor and to what it shares, and the
    reply, [None] when the handler panics; [resume] tells whether the actor goes
    on after a panic; the hooks are those of its start and its stop. *)
Section object.
Context {A M R V : Type}.

Record Behaviour := mkBehaviour {
  step : M → A * V → (A * V) * option R;
  resume : A * V → bool * (A * V);
  start_hook : A * V → A * V;
  stop_hook : A * V → V
}.
Inductive Serving := Alive (st : A * V) | Dead (v : V).
Abbreviation Answer := (result RuntimeError R).
Context (b : Behaviour).

Definition serve_message (m : M) (st : A * V) : Serving * option R :=
  match step b m st with
  | (st, Some r) => (Alive st, Some r)
  | (st, None) =>
      let '(goes_on, st) := resume b st in
      (if (goes_on : bool) then Alive st else Dead (stop_hook b st), None)
  end.
(** An operation, and the answer to its caller if there is one. *)
Definition serve1 (s : Serving) (e : Entry M) : Serving * option Answer :=
  match s with
  | Dead v => (Dead v, None)
  | Alive st =>
      match e with
      | ETell m => ((serve_message m st).1, None)
      | EAsk m _ false => let '(s, r) := serve_message m st in (s, Ok <$> r)
      | EAsk _ _ true => (Alive st, Some (Err RCancelled))
      | EStop => (Dead (stop_hook b st), None)
      end
  end.
Fixpoint serve (s : Serving) (log : list (Entry M)) : Serving * list (option Answer) :=
  match log with
  | [] => (s, [])
  | e :: log =>
      let '(s, a) := serve1 s e in
      let '(s, answers) := serve s log in (s, a :: answers)
  end.

Lemma serve_app s log log' :
  serve s (log ++ log')
  = let '(s1, as1) := serve s log in let '(s2, as2) := serve s1 log' in (s2, as1 ++ as2).
Proof.
  revert s. induction log as [|e log IH]; intros s; cbn [serve app]; [by destruct (serve s log')|].
  destruct (serve1 s e) as [s1 a]. rewrite IH. destruct (serve s1 log) as [s2 as2].
  by destruct (serve s2 log') as [s3 as3].
Qed.
Lemma serve_length s log : length (serve s log).2 = length log.
Proof.
  revert s. induction log as [|e log IH]; intros s; [done|]. cbn [serve].
  destruct (serve1 s e) as [s1 a]. specialize (IH s1). destruct (serve s1 log). simpl in *. lia.
Qed.
Lemma serve_dead v log : (serve (Dead v) log).1 = Dead v.
Proof. induction log as [|e log IH]; [done|]. cbn. by destruct (serve (Dead v) log). Qed.
Lemma serve_dead_answers v log i a : (serve (Dead v) log).2 !! i = Some a → a = None.
Proof.
  revert i. induction log as [|e log IH]; intros i; [done|]. cbn.
  destruct (serve (Dead v) log) as [s as_]. simpl in *. destruct i; [naive_solver|apply IH].
Qed.
(** An answer depends on the operations up to its own. *)
Lemma serve_answer s log i e :
  log !! i = Some e → (serve s log).2 !! i = Some (serve1 (serve s (take i log)).1 e).2.
Proof.
  intros Hi. rewrite <-(take_drop_middle log i e Hi) at 1. rewrite serve_app.
  pose proof (serve_length s (take i log)) as Hl.
  rewrite length_take_le in Hl by (apply lookup_lt_Some in Hi; lia).
  destruct (serve s (take i log)) as [s1 as1]. simpl in *.
  destruct (serve1 s1 e) as [s2 a]. destruct (serve s2 (drop (S i) log)) as [s3 as3]. simpl.
  by apply list_lookup_middle.
Qed.
Lemma serve_snoc s log e :
  serve s (log ++ [e]) = let '(s1, as1) := serve s log in
                         let '(s2, a) := serve1 s1 e in (s2, as1 ++ [a]).
Proof. rewrite serve_app. destruct (serve s log) as [s1 as1]. cbn. by destruct (serve1 s1 e). Qed.
End object.
Arguments Behaviour : clear implicits.
Arguments Serving : clear implicits.

(** ** An actor that behaves so
    Its handlers may suspend, whatever the world does meanwhile; what they share
    changes with their last poll. *)
Section implements.
Context {A W M T Snd R V : Type} `{Actor A W M T Snd R} `{SessionWorld W R V}.

Definition keeps_replies (w w' : W) : Prop :=
  (∀ ch o, reply_of ch w = Some o → reply_of ch w' = Some o) ∧ alive_flag w' = alive_flag w.
(** From where [v] is shared, to a value, a state and what is shared then. *)
Definition moves {L X} (v : V) (P : option X → L → V → Prop) (o : option X) (l : L) (w w' : W) : Prop :=
  shared w = v → P o l (shared w') ∧ keeps_replies w w'.

Record implements (b : Behaviour A M R V) : Prop := {
  imp_handle m a v c : settles keeps_world
    (moves v (λ o l v', step b m (a, v) = ((l.1, v'), o))) (handle m) (a, c);
  imp_error a w : let '(action, a', w') := on_error handler_panicked a w in
    resume b (a, shared w)
    = (match action with ResumeAction | RestartAction => true | _ => false end, (a', shared w'))
    ∧ keeps_replies w w';
  imp_start a v c : settles keeps_world
    (moves v (λ o l v', o = Some () ∧ start_hook b (a, v) = (l.1, v'))) on_start (a, c);
  imp_stop a v : settles keeps_world
    (moves v (λ _ l v', stop_hook b (a, v) = v')) on_stop a
}.
End implements.

(** ** One message settles *)
Section message.
Context {A W M T Snd R Rf Rx Str V : Type} `{Actor A W M T Snd R} `{LoopWorld W Rf}.
Abbreviation D := (Dispatch W M T Snd R).
Context `{RefWorld W D R Snd Rx Str T} `{SessionWorld W R V}.
Context `{!SessionLaws W D R V Snd Rx Str T Rf}.
Abbreviation Local := ((A * ActorContext W) * option string)%type.
Context (b : Behaviour A M R V) (Hb : implements b).

Lemma keeps_world_replies w w' : keeps_world w w' → keeps_replies w w'.
Proof. by intros (? & _ & ?). Qed.
Lemma keeps_replies_trans w w1 w2 : keeps_replies w w1 → keeps_replies w1 w2 → keeps_replies w w2.
Proof. intros [Hr Hf] [Hr' Hf']. split; [by auto|congruence]. Qed.
Lemma absorbs_moves {L X} v (P : option X → L → V → Prop) : absorbs keeps_world (moves (R := R) v P).
Proof.
  intros o l w w1 w2 HK HQ Hs. pose proof HK as (_ & Hsh & _).
  destruct HQ as [HP Hr]; [congruence|]. split; [done|].
  by eapply keeps_replies_trans; [apply keeps_world_replies|].
Qed.
Hint Resolve absorbs_moves : core.
Lemma keeps_world_trans : transitive W keeps_world.
Proof. intros ???. apply PreOrder_Transitive. Qed.
Hint Resolve keeps_world_trans : core.

(** The envelope of an operation, and whether its channel is still empty. *)
Definition envelope (e : Entry M) (x : option D) : Prop :=
  match e with
  | ETell m => x = Some (TypedDispatch m)
  | EAsk m ch cancelled => ∃ cancel, token_is cancel cancelled
      ∧ x = Some (AskDispatch m (oneshot_send ch) cancel)
  | EStop => x = None
  end.
Definition unanswered (e : Entry M) (w : W) : Prop :=
  match e with EAsk _ ch _ => reply_of ch w = Some None | _ => True end.
(** What the answer of an operation does to the channels. *)
Definition replied (e : Entry M) (ans : option (result RuntimeError R)) (w w' : W) : Prop :=
  match e, ans with
  | EAsk _ ch _, Some a =>
      reply_of ch w' = Some (Some a)
      ∧ ∀ ch' o, ch' ≠ ch → reply_of ch' w = Some o → reply_of ch' w' = Some o
  | _, _ => ∀ ch o, reply_of ch w = Some o → reply_of ch w' = Some o
  end.
(** A message served from [(a, v)]; [Fatal] leaves [on_stop] to be run. *)
Definition served (e : Entry M) (st : A * V) (o : option Flow) (l : Local) (w w' : W) : Prop :=
  unanswered e w → shared w = st.2 →
  let '(s, ans) := serve1 b (Alive st) e in
  replied e ans w w' ∧ alive_flag w' = alive_flag w
  ∧ match o with
    | None => False
    | Some KeepGoing => s = Alive (l.1.1, shared w')
    | Some Fatal => s = Dead (stop_hook b (l.1.1, shared w'))
    end.

Lemma absorbs_served e st : absorbs keeps_world (served e st).
Proof.
  intros o l w w1 w2 (Hr & Hs & Hf) HQ Hu Hsh.
  assert (unanswered e w1) as Hu1 by (destruct e; simpl in *; auto).
  specialize (HQ Hu1 ltac:(congruence)). destruct (serve1 b (Alive st) e) as [s ans].
  destruct HQ as (Hrep & Hfl & Ho). split_and!; [|congruence|done].
  unfold replied in *. destruct e as [m|m ch c|], ans as [a|]; try by auto.
  destruct Hrep as [? Hrep]. split; [done|]. auto.
Qed.

(** What a dispatch gives, of a reply of the handler. *)
Definition boxed (d : D) (r : R) : DispatchResult W R :=
  result_of d (match caller d with Some _ => Some r | None => None end).
Definition carries (m : M) (d : D) : Prop :=
  d = TypedDispatch m ∨ ∃ tx cancel, d = AskDispatch m tx cancel.
Lemma dispatch_settles m d a v c :
  carries m d →
  settles keeps_world (moves v (λ o l v', ∃ r, step b m (a, v) = ((l.1, v'), r) ∧ o = boxed d <$> r))
    (dispatch d) (a, c).
Proof.
  intros Hd. pose proof (imp_handle b Hb m a v c) as Hh.
  destruct Hd as [->|(tx & tok & ->)]; cbn [dispatch]; unfold_envelope;
    (eapply settles_bind; [exact Hh| |]; [intros x l w0 w HQ; rewrite resumes_mret|intros l w0 w HQ];
     intros Hs; destruct (HQ Hs) as [HP Hr]; (split; [|exact Hr])).
  1,3: by exists (Some x). all: by exists None.
Qed.

(** The reply of a handled message goes to its caller; a panic is the actor's
    to judge. *)
Lemma complete_resumes rh mt e d m a v l s w0 w (o : option (DispatchResult W R)) :
  (e = ETell m ∧ d = TypedDispatch m)
    ∨ (∃ ch, e = EAsk m ch false ∧ d = AskDispatch m (oneshot_send ch) None) →
  moves v (λ o l v', ∃ r, step b m (a, v) = ((l.1, v'), r) ∧ o = boxed d <$> r) o l w0 w →
  resumes keeps_world (served e (a, v)) (complete [] rh mt (send_mode d) o) (l, s) w0 w.
Proof.
  intros Hd HQ. destruct o as [res|]; cbn [complete].
  - rewrite resumes_sync. cbn [fst snd complete_all foldl]. intros Hu Hs.
    destruct (HQ Hs) as [([r|] & Hst & Ho) [Hk Hf]]; [|done]. simpl in Ho. injection Ho as ->.
    destruct Hd as [[-> ->]|(ch & -> & ->)]; cbn [serve1]; unfold serve_message; rewrite Hst;
      cbn; [by split_and!|].
    cbn in Hu. destruct (oneshot_send_once ch (Ok r) w (Hk _ _ Hu)) as (Hr & Hne & Hsh & Hfl).
    split_and!; [done| |congruence|by rewrite Hsh].
    intros ch' o' Hch Ho'. rewrite Hne by done. by apply Hk.
  - rewrite resumes_sync_bind. cbn [fst snd].
    pose proof (imp_error b Hb l.1 w) as He.
    destruct (on_error handler_panicked l.1 w) as [[action a'] w'] eqn:Herr. cbn [fst snd complete_all foldl].
    assert (∀ flow, unanswered e w0 → shared w0 = v →
      (match flow with KeepGoing => true | Fatal => false end)
        = match action with ResumeAction | RestartAction => true | _ => false end →
      let '(s', ans) := serve1 b (Alive (a, v)) e in
      replied e ans w0 w' ∧ alive_flag w' = alive_flag w0
      ∧ match flow with
        | KeepGoing => s' = Alive (a', shared w')
        | Fatal => s' = Dead (stop_hook b (a', shared w'))
        end) as Hflow.
    { intros flow Hu Hs Haction. destruct (HQ Hs) as [([r|] & Hst & Ho) [Hk Hf]]; [done|].
      destruct He as [Hres [Hk' Hf']].
      destruct Hd as [[-> ->]|(ch & -> & ->)]; cbn [serve1]; unfold serve_message; rewrite Hst, Hres;
        rewrite <-Haction; destruct flow; cbn; (split_and!; [by auto|congruence|done]). }
    destruct action; rewrite ?resumes_mret, ?resumes_sync_bind; intros Hu Hs;
      first [exact (Hflow KeepGoing Hu Hs eq_refl)|exact (Hflow Fatal Hu Hs eq_refl)].
Qed.

(** From the dispatch on, for a message without a token. *)
Lemma dispatch_runs rh e d m (l : Local) v :
  (e = ETell m ∧ d = TypedDispatch m)
    ∨ (∃ ch, e = EAsk m ch false ∧ d = AskDispatch m (oneshot_send ch) None) →
  settles keeps_world (served e (l.1.1, v))
    (dispatch_direct d None ≫= λ o,
       modify_ctx (set_cancellation_token None) ≫= λ _,
       match o with
       | Some result => complete [] rh (message_type_name d) (send_mode d) result
       | None => mret KeepGoing
       end) l.
Proof.
  intros Hd. assert (carries m d) as Hm by (unfold carries; naive_solver).
  set (P := λ o (l' : A * ActorContext W) v', ∃ r, step b m (l.1.1, v) = ((l'.1, v'), r)
    ∧ o = boxed d <$> r).
  unfold dispatch_direct, race.
  apply (settles_bind _ (λ o l' w w', match o with
    | Some (Some o) => moves v P o l'.1 w w' | _ => False end)); [|intros [o|]|done].
  - apply (settles_bind _ (λ o l' w w', match o with
      | Some o => moves v P o l'.1 w w' | None => False end)); [|done..].
    apply settles_on_fst, settles_catch. destruct l as [[a c] s]. by apply (dispatch_settles m d a v c).
  - intros [l1 s] w0 w HQ. unfold modify_ctx. rewrite resumes_sync_bind.
    apply (complete_resumes _ _ _ _ m); [done|exact HQ].
  - done.
Qed.

Lemma message_settles rh e d l v :
  envelope e (Some d) → settles keeps_world (served e (l.1.1, v)) (handle_message [] None rh d) l.
Proof.
  intros He. rewrite settles_poll. intros w. unfold handle_message, modify_ctx.
  rewrite !resumes_sync_bind. cbn [receive_loop fst snd]. rewrite N.eqb_refl, resumes_mret_bind.
  unfold deliver, modify_ctx. rewrite !resumes_sync_bind.
  cbn [fst snd collect_handler_wrappers fmap list_fmap existsb].
  destruct e as [m|m ch cancelled|]; simpl in He; [|destruct He as (cancel & Htok & He)|done];
    injection He as ->; cbn [cancel_token].
  - refine (proj1 (settles_poll _ _ _ _) (dispatch_runs rh (ETell m) _ m (_, _) v _) w). by left.
  - destruct cancel as [token|]; cbn in Htok.
    + destruct Htok as [-> Htok]. rewrite Htok, !resumes_sync_bind, resumes_mret.
      intros Hu Hs. cbn in Hu. destruct (oneshot_send_once ch (Err RCancelled) w Hu) as (Hr & Hne & Hsh & Hfl).
      cbn. split_and!; [done| |done|by rewrite Hsh, Hs].
      intros ch' o Hch Ho. by rewrite Hne.
    + subst cancelled.
      refine (proj1 (settles_poll _ _ _ _) (dispatch_runs rh (EAsk m ch false) _ m (_, _) v _) w).
      right. by exists ch.
Qed.

(** ** The end of the task *)
Lemma moves_keeps {L L' X Y} v (P : option X → L → V → Prop) (P' : option Y → L' → V → Prop)
    o o' l l' w0 w w' :
  moves (R := R) v P o l w0 w → keeps_world w w' → (∀ v', P o l v' → P' o' l' v') →
  moves v P' o' l' w0 w'.
Proof.
  intros HQ HK HP Hs. destruct (HQ Hs) as [Ho Hr]. pose proof HK as (_ & -> & _).
  split; [by apply HP|]. by eapply keeps_replies_trans, keeps_world_replies.
Qed.
Lemma notify_all_keeps (entries : list (WatchEntry Rf)) c w : keeps_world w (notify_all entries c w).
Proof.
  revert w. unfold notify_all. induction entries as [|e es IH]; intros w; [done|]. cbn [foldl].
  etrans; [apply run_notify_keeps|apply IH].
Qed.

Lemma wind_up_settles l v :
  settles keeps_world
    (moves v (λ o _ v', o = Some () ∧ stop_hook b (l.1.1, v) = v')) wind_up l.
Proof.
  unfold wind_up.
  apply (settles_bind _ (moves v (λ o _ v', o = Some () ∧ stop_hook b (l.1.1, v) = v')));
    [|intros [] l1 w0 w HQ; rewrite resumes_sync;
      eapply moves_keeps; [exact HQ|apply unregister_keeps|done]|done].
  rewrite settles_poll. intros w. unfold post_stop, modify_ctx. rewrite resumes_sync_bind.
  revert w. cbn [fst snd].
  match goal with |- ∀ w, resumes _ ?Q ?t ?l w w => apply (settles_poll keeps_world Q t l) end.
  eapply (settles_bind _ (λ o _ w w', is_Some o
    ∧ moves v (λ (_ : option ()) (_ : ()) v', stop_hook b (l.1.1, v) = v') None () w w')).
  - do 2 apply settles_on_fst. apply settles_catch.
    eapply settles_mono; [|apply (imp_stop b Hb l.1.1 v)]. intros o l1 w w' HQ. split; [by eexists|exact HQ].
  - intros stopped l1 w0 w [_ HQ]. rewrite resumes_sync. cbn [fst snd].
    destruct (remove_watchers _ _ _) as [entries m]. cbn [fst snd].
    refine (moves_keeps _ _ _ _ _ _ _ _ _ _ HQ _ _); [|by intros v'].
    etrans; [apply watcher_map_keeps|]. etrans; [apply notify_all_keeps|apply notify_stop_keeps].
  - by intros ? ? ? [[??] _].
Qed.
End message.

(** ** The invariant of a session *)
Section session.
Context {A W M T Snd R Rf Rx Str C U V : Type} `{Actor A W M T Snd R} `{LoopWorld W Rf}.
Abbreviation D := (Dispatch W M T Snd R).
Context `{RefWorld W D R Snd Rx Str T} `{SenderLaws (option D) C} `{Receiver (option D) C}.
Context `{!ReceiverLaws (option D) C} `{UnboundedLaws (option D) U}.
Context `{SessionWorld W R V} `{!SessionLaws W D R V Snd Rx Str T Rf}.
Abbreviation Local := ((A * ActorContext W) * option string)%type.
Abbreviation Box := (MailboxSender (C := C) (U := U)).
Abbreviation SysOf := (Sys (A := A) (W := W) (C := C) (U := U)).
Abbreviation RunOf := (Run (A := A) (W := W) (M := M) (C := C) (U := U)).
Context (b : Behaviour A M R V) (Hb : implements b) (a0 : A) (v0 : V).
(** A reference as [spawn] makes it. *)
Context (ref : ActorRefData (W := W) (M := M) (T := T) (R := R)).
Context (Hics : rf_interceptors ref = []) (Hdead : rf_dead_letter_handler ref = None).
Implicit Types r : RunOf.

Definition object_start : Serving A V := Alive (start_hook b (a0, v0)).
Abbreviation object log := (serve b object_start log).

Definition runs (act : Activity (A := A) (W := W)) : bool :=
  match act with Ending _ _ | Over _ | Crashed _ => false | _ => true end.
Definition no_stop (log : list (Entry M)) : bool :=
  forallb (λ e, match e with EStop => false | _ => true end) log.

(** Where the task is, [taken] operations on. *)
Definition act_ok (act : Activity) (log : list (Entry M)) (taken : nat) (w : W) : Prop :=
  match act with
  | Starting t l => taken = 0 ∧ shared w = v0 ∧
      settles keeps_world
        (moves v0 (λ o l' v', o = Some () ∧ start_hook b (a0, v0) = (l'.1.1, v'))) t l
  | Receiving l => (object (take taken log)).1 = Alive (l.1.1, shared w)
  | Handling t l => ∃ k e st, taken = S k ∧ log !! k = Some e
      ∧ (object (take k log)).1 = Alive st ∧ shared w = st.2 ∧ settles keeps_world (served b e st) t l
  | Ending t l => ∃ st, (object (take taken log)).1 = Dead (stop_hook b st) ∧ shared w = st.2
      ∧ settles keeps_world (moves st.2 (λ o _ v', o = Some () ∧ stop_hook b st = v')) t l
  | Over _ => (object (take taken log)).1 = Dead (shared w)
  | Crashed _ => False
  end.
Definition box_ok (act : Activity (A := A) (W := W)) (log : list (Entry M)) (taken : nat) (u : Box) : Prop :=
  match act with
  | Over _ | Crashed _ => box_closed u = true
  | _ => box_closed u = false ∧ Forall2 envelope (drop taken log) (box_waiting u)
  end.
(** The flag falls with [stop()] and with the end of the loop; with a bounded
    mailbox it may fall without a stop in the log. *)
Definition flag_ok (u : Box) (log : list (Entry M)) (act : Activity (A := A) (W := W)) (w : W) : Prop :=
  alive_flag w = no_stop log && runs act ∨ (alive_flag w = false ∧ is_bounded u = true).

Lemma flag_same u u' log act act' w w' :
  flag_ok u log act w → alive_flag w' = alive_flag w → runs act' = runs act →
  is_bounded u' = is_bounded u → flag_ok u' log act' w'.
Proof. unfold flag_ok. by intros ? -> -> ->. Qed.
Lemma flag_down u log act w : alive_flag w = false → runs act = false → flag_ok u log act w.
Proof. intros Hw Ha. left. by rewrite Hw, Ha, andb_false_r. Qed.

Record Inv r : Prop := mkInv {
  inv_taken : rn_taken r ≤ length (rn_log r);
  inv_channels : ∀ i j m m' ch c c', rn_log r !! i = Some (EAsk m ch c) →
    rn_log r !! j = Some (EAsk m' ch c') → i = j;
  inv_act : act_ok (sy_act (rn_sys r)) (rn_log r) (rn_taken r) (sy_world (rn_sys r));
  inv_box : box_ok (sy_act (rn_sys r)) (rn_log r) (rn_taken r) (sy_box (rn_sys r));
  inv_flag : flag_ok (sy_box (rn_sys r)) (rn_log r) (sy_act (rn_sys r)) (sy_world (rn_sys r));
  inv_lost ch : ch ∈ rn_lost r → reply_of ch (sy_world (rn_sys r)) = Some None
    ∧ ∀ i m c, rn_log r !! i ≠ Some (EAsk m ch c);
  inv_replies i m ch c : rn_log r !! i = Some (EAsk m ch c) →
    reply_of ch (sy_world (rn_sys r))
    = Some (if entry_handled r i then mjoin ((object (rn_log r)).2 !! i) else None)
}.

(** *** Steps of the task *)
Lemma act_ok_world act log taken w w' :
  shared w' = shared w → act_ok act log taken w → act_ok act log taken w'.
Proof.
  intros Hs. destruct act; simpl; rewrite ?Hs; try done.
Qed.
Lemma inv_world r w : Inv r → keeps_world (sy_world (rn_sys r)) w → Inv (with_world w r).
Proof.
  intros [Ht Hc Ha Hq Hf Hl Hr] (Hk & Hs & Hfl). split; try done; simpl.
  - by eapply act_ok_world.
  - by eapply flag_same.
  - intros ch [Hch Hno]%Hl. split; [by apply Hk|done].
  - intros i m ch c Hi. by apply Hk, (Hr i m ch c).
Qed.
(** A step that answers nobody. *)
Lemma inv_silent r w u act taken :
  Inv r → (∀ ch o, reply_of ch (sy_world (rn_sys r)) = Some o → reply_of ch w = Some o) →
  taken ≤ length (rn_log r) → act_ok act (rn_log r) taken w → box_ok act (rn_log r) taken u →
  flag_ok u (rn_log r) act w →
  (∀ i m ch c, rn_log r !! i = Some (EAsk m ch c) →
     entry_handled (mkRun (mkSys w u act) (rn_log r) taken (rn_lost r)) i = entry_handled r i
     ∨ mjoin ((object (rn_log r)).2 !! i) = None) →
  Inv (mkRun (mkSys w u act) (rn_log r) taken (rn_lost r)).
Proof.
  intros [Ht Hc Ha Hq Hf Hl Hr] Hk ? ? ? ? Hh. split; try done.
  { intros ch [Hch Hno]%Hl. split; [by apply Hk|done]. }
  intros i m ch c Hi. cbn [rn_log rn_sys sy_world] in *. rewrite (Hk ch _ (Hr i m ch c Hi)).
  destruct (Hh i m ch c Hi) as [->| ->]; [done|]. by destruct (entry_handled r i), (entry_handled _ i).
Qed.

Lemma object_taken log i e :
  log !! i = Some e → object (take (S i) log)
  = let '(s, as_) := object (take i log) in let '(s, a) := serve1 b s e in (s, as_ ++ [a]).
Proof. intros Hi. by erewrite take_S_r, serve_snoc by done. Qed.
Lemma object_answer log i e s :
  log !! i = Some e → (object (take i log)).1 = s → mjoin ((object log).2 !! i) = (serve1 b s e).2.
Proof. intros Hi <-. by rewrite (serve_answer _ _ _ _ e). Qed.
(** Behind the last operation nobody is answered. *)
Lemma object_over log taken v i :
  (object (take taken log)).1 = Dead v → taken ≤ i → mjoin ((object log).2 !! i) = None.
Proof.
  intros Hd Hi. rewrite <-(take_drop taken log), serve_app.
  pose proof (serve_length b object_start (take taken log)) as Hl.
  destruct (object (take taken log)) as [s as1]. simpl in Hd, Hl. subst s.
  pose proof (serve_dead_answers b v (drop taken log)) as Ha.
  destruct (serve b (Dead v) (drop taken log)) as [s2 as2]. cbn [snd] in *.
  assert (length as1 ≤ i) by (rewrite length_take in Hl; lia).
  rewrite lookup_app_r by done. destruct (as2 !! (i - length as1)) as [x|] eqn:Hx; [|done].
  by rewrite (Ha _ _ Hx).
Qed.

Lemma object_dead log taken v : (object (take taken log)).1 = Dead v → (object log).1 = Dead v.
Proof.
  intros Hd. rewrite <-(take_drop taken log), serve_app.
  destruct (object (take taken log)) as [s1 as1]. simpl in Hd. subst s1.
  pose proof (serve_dead b v (drop taken log)) as Hv. by destruct (serve b (Dead v) (drop taken log)).
Qed.

Lemma inv_starting rh r t l r' :
  Inv r → sy_act (rn_sys r) = Starting t l → after_turn rh r = Some r' → Inv r'.
Proof.
  intros HI Hact Hturn. pose proof HI as [Ht Hc Ha Hq Hf Hl Hr].
  unfold after_turn, actor_turn in Hturn. rewrite Hact in *. destruct Ha as (Hz & Hs & Hset).
  pose proof (proj1 (settles_poll _ _ _ _) Hset (sy_world (rn_sys r))) as Hp. unfold resumes in Hp.
  destruct (poll_task t l _) as [[l1 w1] [[]| |k]]; simplify_eq/=.
  - destruct (Hp Hs) as [[_ Hst] [Hk Hfl]]. apply inv_silent; try done.
    + simpl. rewrite Hz. cbn. unfold object_start. by rewrite Hst.
    + by eapply flag_same.
    + intros i m ch c Hi. left. unfold entry_handled. by rewrite Hact.
  - by destruct (Hp Hs) as [[? _] _].
  - destruct Hp as [(Hk & Hsh & Hfl) Hk']. apply inv_silent; try done.
    + simpl. split_and!; [done|congruence|done].
    + by eapply flag_same.
    + intros i m ch c Hi. left. unfold entry_handled. by rewrite Hact.
Qed.

Lemma inv_receiving rh r l r' :
  Inv r → sy_act (rn_sys r) = Receiving l → after_turn rh r = Some r' → Inv r'.
Proof.
  intros HI Hact Hturn. pose proof HI as [Ht Hc Ha Hq Hf Hl Hr].
  unfold after_turn, actor_turn in Hturn. rewrite Hact in *. destruct Hq as [Hopen Hq].
  pose proof (MailboxReceiver_recv_waiting (sy_box (rn_sys r))) as Hrecv.
  destruct (box_waiting (sy_box (rn_sys r))) as [|x q]; [by rewrite Hrecv in Hturn|].
  destruct Hrecv as (u & Hrecv & Hqu & Hcl & Hkind). rewrite Hrecv in Hturn.
  apply Forall2_cons_inv_r in Hq as (e & rest & He & Hrest & Hdrop).
  assert (rn_log r !! rn_taken r = Some e) as Hlog.
  { rewrite <-(Nat.add_0_r (rn_taken r)), <-lookup_drop, Hdrop. done. }
  assert (drop (S (rn_taken r)) (rn_log r) = rest) as Hdrop'.
  { rewrite <-Nat.add_1_r, <-drop_drop, Hdrop. done. }
  pose proof (object_taken _ _ _ Hlog) as Hobj. cbn [act_ok] in Ha.
  destruct (object (take (rn_taken r) (rn_log r))) as [s as_] eqn:Hpre. simpl in Ha. subst s.
  destruct x as [d|]; simplify_eq/=.
  - apply inv_silent; try done.
    + by apply lookup_lt_Some in Hlog.
    + exists (rn_taken r), e, (l.1.1, shared (sy_world (rn_sys r))). rewrite Hpre.
      split_and!; try done. apply message_settles; [done|exact He].
    + simpl. rewrite Hcl. by split.
    + by eapply flag_same.
    + intros i m ch c Hi. left. unfold entry_handled. rewrite Hact. done.
  - assert (e = EStop) as -> by (destruct e; [done|by destruct He as (? & _ & ?)|done]).
    destruct (store_dead_flag (sy_world (rn_sys r))) as (Hfl & Hsh & Hk).
    apply inv_silent; try done.
    + intros ch o. by rewrite Hk.
    + by apply lookup_lt_Some in Hlog.
    + exists (l.1.1, shared (sy_world (rn_sys r))). rewrite Hobj. split_and!; [done|done|].
      apply wind_up_settles. done.
    + simpl. rewrite Hcl. by split.
    + by apply flag_down.
    + intros i m ch c Hi. left. unfold entry_handled. rewrite Hact. cbn [rn_sys rn_taken sy_act].
      assert (i ≠ rn_taken r) by (intros ->; congruence).
      destruct (Nat.ltb_spec i (S (rn_taken r))), (Nat.ltb_spec i (rn_taken r)); lia || done.
Qed.

(** A step that ends a message. *)
Lemma inv_served r t l w u act k e st :
  Inv r → sy_act (rn_sys r) = Handling t l → rn_taken r = S k → rn_log r !! k = Some e →
  (object (take k (rn_log r))).1 = Alive st →
  replied e (serve1 b (Alive st) e).2 (sy_world (rn_sys r)) w →
  act_ok act (rn_log r) (S k) w → box_ok act (rn_log r) (S k) u →
  match act with Receiving _ | Ending _ _ => True | _ => False end →
  flag_ok u (rn_log r) act w →
  Inv (mkRun (mkSys w u act) (rn_log r) (S k) (rn_lost r)).
Proof.
  intros [Ht Hc Ha Hq Hf Hl Hr] Hact Htk He Hst Hrep Hok Hbox Hkind Hfl.
  split; try done; cbn [rn_sys rn_log rn_taken rn_lost sy_world]; [by rewrite <-Htk| |].
  { intros ch [Hch Hno]%Hl. split; [|done]. unfold replied in Hrep.
    destruct e as [m|m ch' c'|]; [by apply Hrep| |by apply Hrep].
    destruct (serve1 b (Alive st) (EAsk m ch' c')).2; [|by apply Hrep].
    apply Hrep; [|done]. intros ->. by destruct (Hno _ _ _ He). }
  assert (∀ i, entry_handled (mkRun (mkSys w u act) (rn_log r) (S k) (rn_lost r)) i = (i <? S k)) as Hh
    by (intros i; by destruct act).
  intros i m ch c Hi. rewrite Hh. specialize (Hr i m ch c Hi). unfold entry_handled in Hr.
  rewrite Hact, Htk in Hr.
  pose proof (object_answer _ _ _ _ He Hst) as Hans.
  destruct (decide (i = k)) as [->|Hne].
  - simplify_eq. rewrite Nat.ltb_irrefl in Hr. rewrite (proj2 (Nat.ltb_lt k (S k))) by lia.
    rewrite Hans. unfold replied in Hrep. destruct (serve1 b (Alive st) (EAsk m ch c)).2 as [a|] eqn:Ha1;
      [by destruct Hrep|by apply Hrep].
  - assert ((S i <? S k) = (i <? S k)) as Hlt.
    { destruct (Nat.ltb_spec (S i) (S k)), (Nat.ltb_spec i (S k)); lia || done. }
    rewrite <-Hlt. unfold replied in Hrep. destruct e as [m'|m' ch' c'|]; [by apply Hrep| |by apply Hrep].
    destruct (serve1 b (Alive st) (EAsk m' ch' c')).2; [|by apply Hrep]. apply Hrep; [|done].
    intros ->. by destruct Hne, (Hc _ _ _ _ _ _ _ Hi He).
Qed.

Lemma inv_handling rh r t l r' :
  Inv r → sy_act (rn_sys r) = Handling t l → after_turn rh r = Some r' → Inv r'.
Proof.
  intros HI Hact Hturn. pose proof HI as [Ht Hc Ha Hq Hf Hl Hr].
  unfold after_turn, actor_turn in Hturn. rewrite Hact in *.
  destruct Ha as (k & e & st & Htk & He & Hobj & Hs & Hset).
  pose proof (proj1 (settles_poll _ _ _ _) Hset (sy_world (rn_sys r))) as Hp. unfold resumes in Hp.
  assert (unanswered e (sy_world (rn_sys r))) as Hun.
  { destruct e as [|m ch c|]; try done. simpl. rewrite (Hr k m ch c He). unfold entry_handled.
    by rewrite Hact, Htk, Nat.ltb_irrefl. }
  assert (∀ s a, serve1 b (Alive st) e = (s, a) → (object (take (S k) (rn_log r))).1 = s) as Hnext.
  { intros s a Hsv. rewrite (object_taken _ _ _ He). destruct (object (take k (rn_log r))) as [s' as_].
    simpl in Hobj. subst s'. by rewrite Hsv. }
  rewrite Htk in *.
  destruct (poll_task t l _) as [[l1 w1] [flow| |k']]; simplify_eq/=.
  - specialize (Hp Hun Hs). destruct (serve1 b (Alive st) e) as [s a] eqn:Hserve.
    destruct Hp as (Hrep & Hfl & Hflow). destruct flow.
    + cbn. rewrite ?Htk. eapply inv_served; try done.
      * by rewrite Hserve.
      * simpl. by rewrite (Hnext _ _ Hserve).
      * by eapply flag_same.
    + cbn. rewrite ?Htk. destruct (store_dead_flag w1) as (Hfl' & Hsh & Hk).
      eapply inv_served; try done.
      * rewrite Hserve. unfold replied in *. cbn [snd]. destruct e, a; setoid_rewrite Hk; exact Hrep.
      * exists (l1.1.1, shared w1). rewrite (Hnext _ _ Hserve). split_and!; [exact Hflow|exact Hsh|].
        apply wind_up_settles. done.
      * by apply flag_down.
  - specialize (Hp Hun Hs). destruct (serve1 b (Alive st) e) as [s a]. tauto.
  - destruct Hp as [(Hk & Hsh & Hfl) Hk']. rewrite ?Htk. apply inv_silent; try done.
    + exists k, e, st. split_and!; try done. congruence.
    + by eapply flag_same.
    + intros i m ch c Hi. left. unfold entry_handled. by rewrite Hact, Htk.
Qed.

Lemma inv_ending rh r t l r' :
  Inv r → sy_act (rn_sys r) = Ending t l → after_turn rh r = Some r' → Inv r'.
Proof.
  intros HI Hact Hturn. pose proof HI as [Ht Hc Ha Hq Hf Hl Hr].
  unfold after_turn, actor_turn in Hturn. rewrite Hact in *.
  destruct Ha as (st & Hobj & Hs & Hset).
  pose proof (proj1 (settles_poll _ _ _ _) Hset (sy_world (rn_sys r))) as Hp. unfold resumes in Hp.
  destruct (poll_task t l _) as [[l1 w1] [[]| |k]]; simplify_eq/=.
  - destruct (Hp Hs) as [[_ Hst] [Hk Hfl]]. apply inv_silent; try done.
    + simpl. by rewrite Hobj, Hst.
    + simpl. apply receiver_dropped_closed.
    + eapply flag_same; [done|done|done|apply receiver_dropped_kind].
    + intros i m ch c Hi. destruct (Nat.ltb_spec i (rn_taken r)) as [Hlt|Hge].
      * left. unfold entry_handled. rewrite Hact. cbn [rn_sys rn_taken sy_act]. symmetry. by apply Nat.ltb_lt.
      * right. by eapply object_over.
  - by destruct (Hp Hs) as [[? _] _].
  - destruct Hp as [(Hk & Hsh & Hfl) Hk']. apply inv_silent; try done.
    + exists st. split_and!; [done|congruence|done].
    + by eapply flag_same.
    + intros i m ch c Hi. left. unfold entry_handled. by rewrite Hact.
Qed.

(** *** The callers *)
Abbreviation tell_ := (do_tell ref).
Abbreviation ask_ := (do_ask (Rx := Rx) (Str := Str) ref).
Abbreviation stop_ := (do_stop (T := T) (Snd := Snd) (M := M)).

(** Into the mailbox; or refused, by a closed or a full one. *)
Definition accepted (x : option D) (u u' : Box) : Prop :=
  box_closed u = false ∧ box_waiting u' = box_waiting u ++ [x] ∧ box_closed u' = false
  ∧ is_bounded u' = is_bounded u.
Definition refused (u : Box) (res : result ActorSendError ()) : Prop :=
  (box_closed u = true ∧ res = Err (mkActorSendError "actor stopped"))
  ∨ (box_closed u = false ∧ ∃ o, full_mailbox u o ∧ res = full_answer o).
Lemma send_effect x (u : Box) :
  let '(res, u') := MailboxSender_send unbounded_send x u in
  (res = Ok () ∧ accepted x u u') ∨ (u' = u ∧ refused u res).
Proof.
  pose proof (MailboxSender_send_cases x u) as Hs. unfold accepted, refused.
  destruct (MailboxSender_send unbounded_send x u) as [res u'].
  destruct (box_closed u); naive_solver.
Qed.
Lemma accepted_entered x u u' : accepted x u u' → entered u u' = true.
Proof. intros (_ & Hw & _). by eapply entered_snoc. Qed.

Lemma do_tell_effect m (s : SysOf) : ∃ res u,
  tell_ m s = (res, mkSys (sy_world s) u (sy_act s))
  ∧ ((res = Ok () ∧ accepted (Some (TypedDispatch m)) (sy_box s) u) ∨ (u = sy_box s ∧ refused (sy_box s) res)).
Proof.
  destruct s as [w u act]. unfold do_tell, TestActorRef_tell, ref_tell, run_on_send, outbound_pipeline.
  simpl. rewrite Hics. simpl. unfold send_or_dead_letter, TestRuntime_send, notify_dead_letter.
  simpl. rewrite Hdead. pose proof (send_effect (Some (TypedDispatch m)) u) as He.
  destruct (MailboxSender_send _ _ u) as [res u']. exists res, u'. by destruct res as [[]|e].
Qed.
Lemma do_ask_effect m cancel (s : SysOf) :
  let ch := (new_oneshot (sy_world s)).1 in ∃ res u,
  ask_ m cancel s = (match res with Ok _ => Ok ch | Err e => Err e end,
                     mkSys (new_oneshot (sy_world s)).2 u (sy_act s))
  ∧ ((res = Ok () ∧ accepted (Some (AskDispatch m (oneshot_send ch) cancel)) (sy_box s) u)
     ∨ (u = sy_box s ∧ refused (sy_box s) res)).
Proof.
  destruct s as [w u act]. unfold do_ask, TestActorRef_ask, TestRuntime_ask, run_on_send, outbound_pipeline.
  simpl. rewrite Hics. simpl. unfold send_or_dead_letter, TestRuntime_send, notify_dead_letter.
  simpl. destruct (new_oneshot w) as [ch w']. simpl. rewrite Hdead.
  pose proof (send_effect (Some (AskDispatch m (oneshot_send ch) cancel)) u) as He.
  destruct (MailboxSender_send _ _ u) as [res u']. exists res, u'. by destruct res as [[]|e].
Qed.
Lemma do_stop_effect (s : SysOf) : ∃ u,
  stop_ s = mkSys (store_dead (sy_world s)) u (sy_act s)
  ∧ (accepted None (sy_box s) u
     ∨ (u = sy_box s ∧ (box_closed (sy_box s) = true ∨ is_bounded (sy_box s) = true))).
Proof.
  destruct s as [w u act]. unfold do_stop, TestActorRef_stop. simpl. eexists. split; [done|].
  pose proof (force_send_cases None u) as He. cbn zeta in He. unfold accepted.
  destruct (box_closed u) eqn:Hu; [by right; split; [|left]|].
  destruct He as [He|(-> & o & Hfull)]; [by left|]. right. split; [done|]. right. by eapply full_bounded.
Qed.

(** An operation goes to the end of the mailbox. *)
Lemma inv_accept r w u e :
  Inv r →
  (∀ ch o, reply_of ch (sy_world (rn_sys r)) = Some o → reply_of ch w = Some o) →
  shared w = shared (sy_world (rn_sys r)) →
  alive_flag w = alive_flag (sy_world (rn_sys r)) && no_stop [e] →
  (∀ m ch c, e = EAsk m ch c → reply_of ch (sy_world (rn_sys r)) = None ∧ reply_of ch w = Some None) →
  (∃ x, envelope e x ∧ accepted x (sy_box (rn_sys r)) u) →
  Inv (mkRun (mkSys w u (sy_act (rn_sys r))) (rn_log r ++ [e]) (rn_taken r) (rn_lost r)).
Proof.
  intros [Ht Hc Ha Hq Hf Hl Hr] Hk Hsh Hfl Hfresh (x & He & Hopen & Hqu & Hcl & Hkind).
  assert (∀ i e', (rn_log r ++ [e]) !! i = Some e' →
    rn_log r !! i = Some e' ∨ i = length (rn_log r) ∧ e' = e) as Hnew.
  { intros i e' [?|[Hi [? <-]%list_lookup_singleton_Some]]%lookup_app_Some; [by left|right].
    split; [lia|done]. }
  split; cbn [rn_sys rn_log rn_taken rn_lost sy_world sy_box sy_act].
  - rewrite length_app. lia.
  - intros i j m m' ch c c' [Hi|[-> <-]]%Hnew [Hj|[-> Hj]]%Hnew; [by eapply Hc|..|done].
    + destruct (Hfresh _ _ _ (eq_sym Hj)) as [Hno _]. by rewrite (Hr _ _ _ _ Hi) in Hno.
    + destruct (Hfresh _ _ _ eq_refl) as [Hno _]. by rewrite (Hr _ _ _ _ Hj) in Hno.
  - apply (act_ok_world _ _ _ (sy_world (rn_sys r))); [done|].
    destruct (sy_act (rn_sys r)); simpl in *; rewrite ?take_app_le by done; try done.
    destruct Ha as (k & e' & st & Htk & Hlog & Hrest). exists k, e', st.
    assert (k < length (rn_log r)) by by eapply lookup_lt_Some.
    rewrite take_app_le by lia. rewrite lookup_app_l by done. done.
  - assert (Forall2 envelope (drop (rn_taken r) (rn_log r)) (box_waiting (sy_box (rn_sys r))) →
      Forall2 envelope (drop (rn_taken r) (rn_log r ++ [e])) (box_waiting u)) as Happ.
    { intros Hall. rewrite drop_app_le, Hqu by done. apply Forall2_app; [done|]. by repeat constructor. }
    destruct (sy_act (rn_sys r)); simpl in *; first [congruence|destruct Hq; split; [done|by apply Happ]].
  - unfold flag_ok, no_stop in *. rewrite forallb_app, Hfl, Hkind.
    destruct Hf as [->|[-> Hb']]; [left|by right]. by destruct (forallb _ _), (forallb _ _), (runs _).
  - intros ch [Hch Hno]%Hl. split; [by apply Hk|]. intros i m c [Hi|[_ <-]]%Hnew; [by eapply Hno|].
    destruct (Hfresh _ _ _ eq_refl) as [Hnone _]. congruence.
  - intros i m ch c Hi.
    assert (entry_handled (mkRun (mkSys w u (sy_act (rn_sys r))) (rn_log r ++ [e]) (rn_taken r) (rn_lost r)) i
            = entry_handled r i) as -> by done.
    rewrite serve_snoc. pose proof (serve_length b object_start (rn_log r)) as Hlen.
    destruct (object (rn_log r)) as [s1 as1]. destruct (serve1 b s1 e) as [s2 a]. cbn [snd] in *.
    apply Hnew in Hi as [Hi|[-> <-]].
    + rewrite lookup_app_l by (rewrite Hlen; by eapply lookup_lt_Some). by apply Hk, (Hr i m ch c).
    + assert (entry_handled r (length (rn_log r)) = false) as ->.
      { unfold entry_handled. destruct (sy_act (rn_sys r)); simpl in Hq; try (apply Nat.ltb_ge; lia); congruence. }
      by destruct (Hfresh _ _ _ eq_refl).
Qed.

(** A refused operation leaves the mailbox alone; an [ask] may leave a channel. *)
Lemma inv_lose r ch :
  Inv r → reply_of ch (sy_world (rn_sys r)) = Some None →
  (∀ i m c, rn_log r !! i ≠ Some (EAsk m ch c)) →
  Inv (mkRun (rn_sys r) (rn_log r) (rn_taken r) (rn_lost r ++ [ch])).
Proof.
  intros [Ht Hc Ha Hq Hf Hl Hr] Hch Hno. split; try done.
  intros ch' [Hin|Hin]%elem_of_app; [by apply Hl|]. by apply list_elem_of_singleton in Hin as ->.
Qed.
Lemma run_eta r : mkRun (rn_sys r) (rn_log r) (rn_taken r) (rn_lost r) = r.
Proof. by destruct r. Qed.
Lemma sys_eta (s : SysOf) : mkSys (sy_world s) (sy_box s) (sy_act s) = s.
Proof. by destruct s. Qed.

Lemma inv_tell m r : Inv r → Inv (after_tell ref m r).2.
Proof.
  intros HI. unfold after_tell, logged. destruct (do_tell_effect m (rn_sys r)) as (res & b' & -> & He).
  cbn [snd sy_box]. destruct He as [[_ Hacc]|[-> _]].
  - rewrite (accepted_entered _ _ _ Hacc). apply inv_accept; try done.
    + by rewrite andb_true_r.
    + by eexists.
  - rewrite entered_same, app_nil_r, sys_eta, run_eta. done.
Qed.
Lemma inv_ask m cancel cancelled r :
  token_is cancel cancelled → Inv r →
  Inv (after_ask (Rx := Rx) (Str := Str) ref m cancel cancelled r).2.
Proof.
  intros Htok HI. unfold after_ask, logged.
  destruct (do_ask_effect m cancel (rn_sys r)) as (res & b' & -> & He).
  destruct (new_oneshot_fresh (sy_world (rn_sys r))) as (Hno & Hnew & Hk).
  destruct He as [[-> Hacc]|[-> Href]]; cbn [snd sy_box].
  - rewrite (accepted_entered _ _ _ Hacc), app_nil_r. destruct Hk as (Hk & Hs & Hfl). apply inv_accept; try done.
    + cbn. by rewrite andb_true_r.
    + intros m' ch c [= <- <- <-]. done.
    + eexists. split; [|exact Hacc]. by exists cancel.
  - pose proof (inv_world r _ HI Hk) as HI'. destruct res as [[]|e]; cbn [snd]; [|exact HI'].
    rewrite entered_same, app_nil_r. apply (inv_lose (with_world _ r) _ HI'); [done|].
    intros i m' c Hi. by rewrite (inv_replies r HI _ _ _ _ Hi) in Hno.
Qed.
Lemma inv_stop r : Inv r → Inv (after_stop (T := T) (Snd := Snd) r).
Proof.
  intros HI. unfold after_stop, logged. cbn zeta.
  destruct (do_stop_effect (rn_sys r)) as (b' & -> & He). cbn [sy_box].
  destruct (store_dead_flag (sy_world (rn_sys r))) as (Hfl & Hs & Hk).
  destruct He as [Hacc|[-> Hwhy]].
  - rewrite (accepted_entered _ _ _ Hacc). apply inv_accept; try done.
    + intros ch o. by rewrite Hk.
    + by rewrite Hfl, andb_false_r.
    + by eexists.
  - rewrite entered_same, app_nil_r. apply inv_silent; try done.
    + intros ch o. by rewrite Hk.
    + apply HI.
    + eapply act_ok_world; [done|apply HI].
    + apply HI.
    + destruct Hwhy as [Hu|Hu]; [apply flag_down; [done|]|by right].
      pose proof (inv_box r HI) as Hq. destruct (sy_act (rn_sys r)); simpl in Hq |- *; try done; destruct Hq; congruence.
    + intros i m ch c Hi. by left.
Qed.

(** *** Reachable states *)
Lemma inv_turn rh r r' : Inv r → after_turn rh r = Some r' → Inv r'.
Proof.
  intros HI Hturn. destruct (sy_act (rn_sys r)) as [t l|l|t l|t l|l|l] eqn:Hact.
  - by eapply inv_starting.
  - by eapply inv_receiving.
  - by eapply inv_handling.
  - by eapply inv_ending.
  - unfold after_turn, actor_turn in Hturn. by rewrite Hact in Hturn.
  - unfold after_turn, actor_turn in Hturn. by rewrite Hact in Hturn.
Qed.
Lemma turn_kind rh r r' :
  after_turn rh r = Some r' → is_bounded (sy_box (rn_sys r')) = is_bounded (sy_box (rn_sys r)).
Proof.
  destruct r as [[w u act] log k lost]. unfold after_turn, actor_turn. cbn [rn_sys sy_act sy_box sy_world].
  pose proof (MailboxReceiver_recv_waiting u) as Hr.
  destruct act as [t l|l|t l|t l|l|l]; [|destruct (box_waiting u) as [|x q]|..]; cbn; try done.
  2: by rewrite Hr.
  2: destruct Hr as (u' & -> & _ & _ & Hk); destruct x; by intros [= <-].
  all: destruct (poll_task t l w) as [[??] [x| |?]]; try destruct x; intros [= <-]; simpl;
    by rewrite ?receiver_dropped_kind.
Qed.
Lemma inv_step r r' : session_step (Rx := Rx) (Str := Str) ref r r' → Inv r → Inv r'.
Proof.
  destruct 1; intros HI.
  - by apply inv_tell.
  - by apply inv_ask.
  - by apply inv_stop.
  - by eapply inv_turn.
  - by apply inv_world.
Qed.

(** The world, the mailbox and the actor when the task is spawned. *)
Record spawned_with (w : W) (u : Box) (l : Local) : Prop := {
  sp_shared : shared w = v0;
  sp_flag : alive_flag w = true;
  sp_open : box_closed u = false;
  sp_empty : box_waiting u = [];
  sp_actor : l.1.1 = a0
}.
Lemma inv_start w u l : spawned_with w u l → Inv (session_start w u l).
Proof.
  intros [Hs Hf Hc Hq Ha]. split; try done; cbn [session_start rn_sys rn_log rn_taken sy_act sy_world sy_box].
  - simpl. split_and!; [done|done|]. unfold start. apply settles_on_fst. destruct l as [[a c] s]. simpl in Ha. subst a.
    apply (imp_start b Hb a0 v0 c).
  - simpl. by rewrite Hq.
  - by left.
  - by intros ch Hch%elem_of_nil.
Qed.
Lemma inv_reachable w u l r :
  spawned_with w u l → rtc (session_step (Rx := Rx) (Str := Str) ref) (session_start w u l) r →
  Inv r.
Proof.
  intros Hsp%inv_start Hr. induction Hr as [r|r r1 r2 Hst _ IH]; [done|].
  apply IH. by eapply inv_step.
Qed.

(** *** Coming to rest *)
Definition at_rest r : Prop :=
  match sy_act (rn_sys r) with
  | Receiving _ => box_waiting (sy_box (rn_sys r)) = []
  | Over _ | Crashed _ => True
  | _ => False
  end.
Lemma at_rest_no_turn r rh : at_rest r ↔ after_turn rh r = None.
Proof.
  unfold at_rest, after_turn, actor_turn. destruct (sy_act (rn_sys r)) as [t l|l|t l|t l|l|l]; try done.
  pose proof (MailboxReceiver_recv_waiting (sy_box (rn_sys r))) as Hr.
  destruct (box_waiting (sy_box (rn_sys r))) as [|[d|] q]; [by rewrite Hr|..];
    destruct Hr as (u & -> & _); done.
Qed.

(** A turn of the actor, after whatever the others did. *)
Definition turns r' r : Prop :=
  ∃ w rh, keeps_world (sy_world (rn_sys r)) w ∧ after_turn rh (with_world w r) = Some r'.

Lemma acc_idle r :
  match sy_act (rn_sys r) with Over _ | Crashed _ => True | _ => False end → Acc turns r.
Proof.
  intros Hact. constructor. intros r' (w & rh & _ & Hturn). unfold after_turn, actor_turn in Hturn.
  simpl in Hturn. by destruct (sy_act (rn_sys r)).
Qed.
(** A task that is polled comes to an end. *)
Lemma acc_poll {X} (mk : Task Local W X → Local → Activity) (P : Box → RunOf → Prop) u t :
  (∀ t l w log k lost rh r', after_turn rh (mkRun (mkSys w u (mk t l)) log k lost) = Some r' →
     (∃ l' w' t', poll_task t l w = (l', w', Pending t') ∧ r' = mkRun (mkSys w' u (mk t' l')) log k lost)
     ∨ P u r') →
  (∀ r', P u r' → Acc turns r') →
  ∀ l w log k lost, Acc turns (mkRun (mkSys w u (mk t l)) log k lost).
Proof.
  intros Hmk HP. induction t as [f IH] using Task_poll_ind. intros l w log k lost. constructor.
  intros r' (w1 & rh & _ & Hturn). apply Hmk in Hturn as [(l' & w' & t' & Hf & ->)|Hr'].
  - by eapply IH.
  - by apply HP.
Qed.
Lemma acc_ending u t l w log k lost : Acc turns (mkRun (mkSys w u (Ending t l)) log k lost).
Proof.
  apply (acc_poll Ending (λ _ r, match sy_act (rn_sys r) with Over _ | Crashed _ => True | _ => False end)).
  - intros t' l' w' log' k' lost' rh r' Hturn. unfold after_turn, actor_turn in Hturn. simpl in Hturn.
    destruct (poll_task t' l' w') as [[l1 w1] [x| |t1]]; injection Hturn as <-; [by right..|left; by eauto].
  - intros r'. apply acc_idle.
Qed.
(** Where a message or [on_start] leaves the task. *)
Definition left_at u r : Prop :=
  ∃ w l log k lost, r = mkRun (mkSys w u (Receiving l)) log k lost
    ∨ r = mkRun (mkSys w u (Ending wind_up l)) log k lost
    ∨ r = mkRun (mkSys w (receiver_dropped u) (Crashed l)) log k lost.
Lemma left_receiving u w l log k lost : left_at u (mkRun (mkSys w u (Receiving l)) log k lost).
Proof. exists w, l, log, k, lost. by left. Qed.
Lemma left_ending u w l log k lost : left_at u (mkRun (mkSys w u (Ending wind_up l)) log k lost).
Proof. exists w, l, log, k, lost. by right; left. Qed.
Lemma left_crashed u w l log k lost : left_at u (mkRun (mkSys w (receiver_dropped u) (Crashed l)) log k lost).
Proof. exists w, l, log, k, lost. by right; right. Qed.
Hint Resolve left_receiving left_ending left_crashed : core.

Lemma acc_handling u t :
  (∀ l w log k lost, Acc turns (mkRun (mkSys w u (Receiving l)) log k lost)) →
  ∀ l w log k lost, Acc turns (mkRun (mkSys w u (Handling t l)) log k lost).
Proof.
  intros Hrec. apply (acc_poll Handling left_at).
  - intros t' l' w' log' k' lost' rh' r' Hturn. cbn in Hturn.
    destruct (poll_task t' l' w') as [[l1 w2] [[]| |t1]]; injection Hturn as <-; [by right..|left].
    by exists l1, w2, t1.
  - intros r' (w' & l' & log' & k' & lost' & [->|[->| ->]]); [apply Hrec|apply acc_ending|by apply acc_idle].
Qed.
Lemma acc_receiving u l w log k lost : Acc turns (mkRun (mkSys w u (Receiving l)) log k lost).
Proof.
  remember (length (box_waiting u)) as n eqn:Hn. revert u l w log k lost Hn.
  induction n as [|n IH]; intros u l w log k lost Hn; constructor; intros r' (w1 & rh & _ & Hturn);
    pose proof (MailboxReceiver_recv_waiting u) as Hr; unfold after_turn, actor_turn in Hturn;
    cbn [with_world rn_sys sy_act sy_box sy_world] in Hturn.
  - destruct (box_waiting u); [|discriminate Hn]. by rewrite Hr in Hturn.
  - destruct (box_waiting u) as [|x q]; [discriminate Hn|]. injection Hn as Hn.
    destruct Hr as (u' & Hr & Hq & _). rewrite Hr in Hturn.
    destruct x as [d|]; injection Hturn as <-; [|apply acc_ending].
    apply acc_handling. intros. apply IH. by rewrite Hq.
Qed.
Lemma acc_turns r : Acc turns r.
Proof.
  destruct r as [[w u act] log k lost]. destruct act as [t l|l|t l|t l|l|l];
    [|apply acc_receiving|apply acc_handling, acc_receiving|apply acc_ending|by apply acc_idle..].
  apply (acc_poll Starting left_at).
  - intros t' l' w' log' k' lost' rh' r' Hturn. cbn in Hturn.
    destruct (poll_task t' l' w') as [[l1 w2] [x| |t1]]; injection Hturn as <-; [by right..|left].
    by exists l1, w2, t1.
  - intros r' (w' & l' & log' & k' & lost' & [->|[->| ->]]); [apply acc_receiving|apply acc_ending|by apply acc_idle].
Qed.

(** *** What the callers get *)
Definition object_sees (log : list (Entry M)) (i : nat) : oneshot (result RuntimeError R) :=
  match mjoin ((object log).2 !! i) with Some a => Sent a | None => SenderDropped end.

Lemma inv_caller r i m ch c :
  Inv r → rn_log r !! i = Some (EAsk m ch c) →
  caller_sees r i ch = if entry_handled r i then object_sees (rn_log r) i else Waiting.
Proof.
  intros HI Hi. unfold caller_sees, object_sees. rewrite (inv_replies r HI i m ch c Hi).
  destruct (entry_handled r i); [|done]. by destruct (mjoin _).
Qed.
Lemma inv_rest r :
  Inv r → at_rest r →
  (∀ i e, rn_log r !! i = Some e → entry_handled r i = true)
  ∧ match (object (rn_log r)).1 with
    | Alive st => ∃ l, sy_act (rn_sys r) = Receiving l ∧ st = (l.1.1, shared (sy_world (rn_sys r)))
    | Dead v => ∃ l, sy_act (rn_sys r) = Over l ∧ v = shared (sy_world (rn_sys r))
    end.
Proof.
  intros [Ht Hc Ha Hq Hf Hl Hr] Hrest. unfold at_rest, entry_handled in *.
  destruct (sy_act (rn_sys r)) as [t l|l|t l|t l|l|l]; try done.
  - simpl in Ha, Hq. destruct Hq as [_ Hq]. rewrite Hrest in Hq. apply Forall2_nil_inv_r in Hq.
    assert (length (rn_log r) ≤ rn_taken r) as Hle.
    { apply (f_equal length) in Hq. rewrite length_drop in Hq. simpl in Hq. lia. }
    split.
    + intros i e Hi%lookup_lt_Some. apply Nat.ltb_lt. lia.
    + rewrite take_ge in Ha by done. rewrite Ha. by exists l.
  - split; [done|]. apply object_dead in Ha. rewrite Ha. by exists l.
Qed.
End session.

(** ** The task of ActorLoop.v
    When nobody else acts, the turns are the run of [TestRuntime_loop] over what
    is in the mailbox; the task around it is the one of the runtime. *)
Section alone.
Context {A W M T Snd R Rf Rx Str C U V : Type} `{Actor A W M T Snd R} `{LoopWorld W Rf}.
Abbreviation D := (Dispatch W M T Snd R).
Context `{RefWorld W D R Snd Rx Str T} `{SenderLaws (option D) C} `{Receiver (option D) C}.
Context `{!ReceiverLaws (option D) C} `{UnboundedLaws (option D) U} `{SessionWorld W R V}.
Abbreviation Box := (MailboxSender (C := C) (U := U)).
Abbreviation Local := ((A * ActorContext W) * option string)%type.
Context (rh : RuntimeHeaders).

Lemma task_parts mailbox :
  TestRuntime_task [] None store_dead unregister_self notify_stop mailbox
  = (_ ← start; _ ← TestRuntime_loop [] None mailbox;
     _ ← sync (λ (l : Local) w, (l, store_dead w, ())); wind_up).
Proof. done. Qed.

Definition turn (s s' : Sys (A := A) (W := W) (U := U)) : Prop := actor_turn rh s = Some s'.
Definition arrive (x : option D) : option (option (RuntimeHeaders * D)) := Some ((λ d, (rh, d)) <$> x).
Definition alone (_ : nat) (w : W) : W := w.

Lemma message_alone t l w u n :
  rtc turn (mkSys w u (Handling t l))
    (let r := run alone n t l w in
     match out r with
     | Some KeepGoing => mkSys (world r) u (Receiving (loc r))
     | Some Fatal => mkSys (store_dead (world r)) u (Ending wind_up (loc r))
     | None => mkSys (world r) (receiver_dropped u) (Crashed (loc r))
     end).
Proof.
  revert n l w. induction t as [f IH] using Task_poll_ind. intros n l w. cbn zeta. cbn [run].
  destruct (f l w) as [[l1 w1] [[]| |k]] eqn:Hf; cbn [out world loc];
    (eapply rtc_l; [unfold turn; cbn [actor_turn sy_act sy_world sy_box poll_task]; by rewrite Hf|done || idtac]).
  exact (IH _ _ _ _ _ Hf (S n) l1 w1).
Qed.

(** How the loop leaves the system. *)
Definition loop_end (stopped : bool) (r : ran Local W ()) (u : Box) (s : Sys) : Prop :=
  match out r with
  | Some _ =>
      if stopped then s = mkSys (store_dead (world r)) u (Ending wind_up (loc r))
      else s = mkSys (world r) u (Receiving (loc r)) ∧ box_waiting u = []
  | None => s = mkSys (world r) (receiver_dropped u) (Crashed (loc r))
  end.
Lemma loop_alone u l w n :
  ∃ stopped u' s', rtc turn (mkSys w u (Receiving l)) s'
    ∧ loop_end stopped (run alone n (TestRuntime_loop [] None (arrive <$> box_waiting u)) l w) u' s'.
Proof.
  remember (box_waiting u) as q eqn:Hq. revert u l w n Hq.
  induction q as [|x q IH]; intros u l w n Hq; pose proof (MailboxReceiver_recv_waiting u) as Hr; rewrite <-Hq in Hr.
  - exists false, u, (mkSys w u (Receiving l)). split; [done|]. by split.
  - destruct Hr as (u' & Hr & Hq' & _). destruct x as [d|]; cbn [fmap list_fmap arrive option_fmap option_map TestRuntime_loop].
    + rewrite run_bind. pose proof (message_alone (handle_message [] None rh d) l w u' n) as Hm.
      assert (turn (mkSys w u (Receiving l)) (mkSys w u' (Handling (handle_message [] None rh d) l))) as Ht
        by (unfold turn; cbn [actor_turn sy_act sy_world sy_box]; by rewrite Hr).
      unfold run_then. destruct (run alone n (handle_message [] None rh d) l w) as [n1 l1 w1 [[]|]]; cbn [out loc world tick] in *.
      * destruct (IH u' l1 w1 n1 (eq_sym Hq')) as (b & u2 & s2 & Hs & He). exists b, u2, s2. split; [|done].
        by eapply rtc_l; [exact Ht|]; etrans.
      * eexists true, u', _. split; [by eapply rtc_l|]. by rewrite run_mret.
      * eexists true, u', _. split; [by eapply rtc_l|]. done.
    + eexists true, u', _. split; [|by rewrite run_mret]. apply rtc_once. unfold turn.
      cbn [actor_turn sy_act sy_world sy_box]. by rewrite Hr.
Qed.
End alone.

(** ** A concrete world, for the witnesses
    Reply channels by number, a shared value, the flag of one actor; [Snd] and
    [Rx] are not used. *)
Module Demo.
Section demo.
Context {R V : Type}.
Record World := mkWorld {
  dw_replies : gmap N (option (result RuntimeError R)); dw_shared : V; dw_flag : bool
}.
Definition dw_init (v : V) : World := mkWorld ∅ v true.
Definition put_shared (v : V) (w : World) : World := mkWorld (dw_replies w) v (dw_flag w).

#[export] Instance demo_session : SessionWorld World R V := {|
  reply_of ch w := dw_replies w !! ch;
  shared := dw_shared;
  alive_flag := dw_flag;
  store_dead w := mkWorld (dw_replies w) (dw_shared w) false;
  unregister_self w := w;
  notify_stop _ w := w
|}.
#[export] Instance demo_loop : LoopWorld World () := {|
  start_timer _ w := w; watcher_map _ := ∅; set_watcher_map _ w := w; run_notify _ _ w := w
|}.
#[export] Instance demo_refs {D T} : RefWorld World D R () () () T := {|
  inner_send _ w := (Ok (), w); inner_alive _ := true; inner_stop w := w;
  new_oneshot w := let ch := fresh (dom (dw_replies w)) in
    (ch, mkWorld (<[ch := None]> (dw_replies w)) (dw_shared w) (dw_flag w));
  oneshot_send ch a w := mkWorld (<[ch := Some a]> (dw_replies w)) (dw_shared w) (dw_flag w);
  new_mpsc _ w := ((), (), w); polls _ := []; spawn_drain _ w := w; spawn_relay _ _ _ w := w
|}.
#[export] Instance demo_laws {D T} : SessionLaws World D R V () () () T ().
Proof.
  assert (∀ w : World, dw_replies w !! fresh (dom (dw_replies w)) = None) as Hfresh.
  { intros w. apply not_elem_of_dom, is_fresh. }
  split; try (intros; by split_and!).
  - intros w. simpl. rewrite lookup_insert_eq. split_and!; [by apply Hfresh|done|].
    split; [|done]. intros ch o Ho. simpl in *. rewrite lookup_insert_ne; [done|]. intros <-. by rewrite Hfresh in Ho.
  - intros ch a w _. simpl. rewrite lookup_insert_eq. split_and!; try done.
    intros ch' Hne. by rewrite lookup_insert_ne.
Qed.
End demo.
Arguments World : clear implicits.

(** The steps of a session as a list. *)
Inductive event (M : Type) := PTell (m : M) | PAsk (m : M) (cancelled : bool) | PStop | PTurn.
Arguments PTell {M}.
Arguments PAsk {M}.
Arguments PStop {M}.
Arguments PTurn {M}.

Section play.
Context {A M R V : Type} `{Actor A (World R V) M () () R}.
Abbreviation Envelope := (Dispatch (World R V) M () () R).
Abbreviation DemoRun := (Run (A := A) (W := World R V) (M := M)
  (C := BoundedQueue (option Envelope)) (U := TestQueue (option Envelope))).

(** The channel that [spawn_with_options] makes. *)
Definition demo_box (config : MailboxConfig) :
    MailboxSender (C := BoundedQueue (option Envelope)) (U := TestQueue (option Envelope)) :=
  match config with
  | Unbounded => MUnbounded (mkTestQueue [] true)
  | Bounded capacity overflow => MBounded (mkBoundedQueue [] [] capacity true) overflow
  end.

(** A reference as [spawn] makes it, and its new actor. *)
Definition ref : ActorRefData (W := World R V) (M := M) (T := ()) (R := R) :=
  mkActorRefData (mkActorId (mkNodeId "test-node") 1) "counter" [] None None.
Definition begin_with (config : MailboxConfig) (a : A) (v : V) : DemoRun :=
  session_start (dw_init v) (demo_box config) (spawned (rf_id ref) "counter" a).
Definition begin := begin_with Unbounded.
Definition play1 (e : event M) (r : DemoRun) : DemoRun :=
  match e with
  | PTell m => (after_tell ref m r).2
  | PAsk m true => (after_ask ref m (Some (λ _, true)) true r).2
  | PAsk m false => (after_ask ref m None false r).2
  | PStop => after_stop (T := ()) (Snd := ()) r
  | PTurn => default r (after_turn (RuntimeHeaders_new 1 0) r)
  end.
Definition play (es : list (event M)) (r : DemoRun) : DemoRun := foldl (λ r e, play1 e r) r es.
Lemma play_steps es r :
  rtc (session_step (Rx := ()) (Str := ()) ref) r (play es r).
Proof.
  revert r. induction es as [|e es IH]; intros r; [done|]. cbn [play foldl].
  etrans; [|apply IH]. destruct e as [m|m []| |]; cbn [play1].
  - apply rtc_once, ss_tell.
  - by apply rtc_once, ss_ask.
  - by apply rtc_once, ss_ask.
  - apply rtc_once, ss_stop.
  - destruct (after_turn _ r) as [r'|] eqn:Ht; [|done]. by eapply rtc_once, ss_turn.
Qed.
Lemma demo_spawned_with config a v : spawned_with (A := A) a v (dw_init (R := R) v)
  (demo_box config) (spawned (W := World R V) (rf_id ref) "counter" a).
Proof. by destruct config; split. Qed.
Lemma demo_spawned a v : spawned_with (A := A) a v (dw_init (R := R) v)
  (demo_box Unbounded) (spawned (W := World R V) (rf_id ref) "counter" a).
Proof. apply demo_spawned_with. Qed.
End play.

(** An actor that suspends before it adds, counts its messages in what it
    shares, and resumes after the panic that [None] is. *)
Abbreviation W := (World nat nat).
#[export] Instance demo_actor : Actor nat W (option nat) () () nat := {|
  type_name _ := "Msg"; item_type_name := "";
  on_start := mret (); on_stop := mret ();
  on_error _ a w := (ResumeAction, a, w);
  handle m :=
    _ ← yield_now;
    match m with
    | Some n => sync (λ l w, ((l.1 + n, l.2), put_shared (S (dw_shared w)) w, l.1 + n))
    | None => panic_now
    end;
  handle_expand _ _ := mret (); handle_reduce _ := mret 0; handle_transform _ _ := mret ();
  on_transform_complete _ := mret ()
|}.
Definition demo_behaviour : Behaviour nat (option nat) nat nat := {|
  step m st := match m with
               | Some n => ((st.1 + n, S st.2), Some (st.1 + n))
               | None => (st, None)
               end;
  resume st := (true, st);
  start_hook st := st;
  stop_hook st := st.2
|}.
Lemma demo_implements : implements demo_behaviour.
Proof.
  split.
  - intros m a v c. apply settles_poll. intros w. unfold resumes. cbn. split; [done|].
    destruct m as [n|]; intros w1; intros Hs; cbn in *; by rewrite ?Hs.
  - intros a w. cbn. by split_and!.
  - intros a v c w Hs. cbn in *. by rewrite Hs.
  - intros a v w Hs. cbn in *. by rewrite Hs.
Qed.
End Demo.

(** ** The property *)
Module Spec.
Section spec.
Context {A W M T Snd R Rf Rx Str C U V : Type} `{Actor A W M T Snd R} `{LoopWorld W Rf}.
Abbreviation D := (Dispatch W M T Snd R).
Context `{RefWorld W D R Snd Rx Str T} `{SenderLaws (option D) C} `{Receiver (option D) C}.
Context `{!ReceiverLaws (option D) C} `{UnboundedLaws (option D) U}.
Context `{SessionWorld W R V} `{!SessionLaws W D R V Snd Rx Str T Rf}.

(** C2. The runtime refines a sequential object. In any session of callers with an actor of
    the reference runtime, whatever its mailbox and whatever the interleaving of
    their operations with the polls of the actor's task and with the rest of the
    world: a caller whose operation entered the mailbox waits,
    or sees the answer of the object that serves the accepted operations one by
    one in the order of the mailbox (a dropped channel where the object has no
    answer: a panic, or an operation behind the end); and a caller whose [ask] a
    full mailbox dropped has a channel of its own that stays empty. The actor
    comes to rest after finitely many turns, however the others interfere; and at rest nobody
    waits, and the actor and what it shares are in the state of the object. *)
Theorem session_refines (b : Behaviour A M R V) (a0 : A) (v0 : V) (ref : ActorRefData)
    w u l (r : Run (A := A) (W := W) (M := M) (C := C) (U := U)) :
  implements b → rf_interceptors ref = [] → rf_dead_letter_handler ref = None →
  spawned_with a0 v0 w u l →
  rtc (session_step (Rx := Rx) (Str := Str) ref) (session_start w u l) r →
  (∀ i m ch c, rn_log r !! i = Some (EAsk m ch c) →
     caller_sees r i ch = Waiting ∨ caller_sees r i ch = object_sees b a0 v0 (rn_log r) i)
  ∧ (∀ ch, ch ∈ rn_lost r → reply_of ch (sy_world (rn_sys r)) = Some None
       ∧ ∀ i m c, rn_log r !! i ≠ Some (EAsk m ch c))
  ∧ Acc turns r
  ∧ (at_rest r →
     (∀ i m ch c, rn_log r !! i = Some (EAsk m ch c) →
        caller_sees r i ch = object_sees b a0 v0 (rn_log r) i)
     ∧ match (serve b (object_start b a0 v0) (rn_log r)).1 with
       | Alive st => ∃ l, sy_act (rn_sys r) = Receiving l ∧ st = (l.1.1, shared (sy_world (rn_sys r)))
       | Dead v => ∃ l, sy_act (rn_sys r) = Over l ∧ v = shared (sy_world (rn_sys r))
       end).
Proof.
  intros Hb Hics Hdead Hsp Hr. pose proof (inv_reachable b Hb a0 v0 ref Hics Hdead w u l r Hsp Hr) as HI.
  split_and!.
  - intros i m ch c Hi. rewrite (inv_caller _ _ _ _ _ _ _ _ HI Hi). destruct (entry_handled r i); auto.
  - apply (inv_lost b a0 v0 r HI).
  - apply acc_turns.
  - intros Hrest. destruct (inv_rest _ _ _ _ HI Hrest) as [Hh Hs]. split; [|exact Hs].
    intros i m ch c Hi. by rewrite (inv_caller _ _ _ _ _ _ _ _ HI Hi), (Hh _ _ Hi).
Qed.
End spec.

(** An [ask] is sent while the actor is in a message; the second panics; the last
    is behind the stop. The mailbox takes two messages and drops the newest: the
    third [ask] finds it full and loses its caller's channel, 2. *)
Import Demo.
Definition sample : list (event (option nat)) :=
  [PTurn; PAsk (Some 2) false; PTurn; PTurn; PTell (Some 10); PAsk None false; PAsk (Some 9) false;
   PTurn; PTurn; PTurn; PTurn; PTurn; PTurn; PAsk (Some 7) true; PStop; PTurn; PTurn; PTurn;
   PAsk (Some 3) false] ++ replicate 20 PTurn.
Lemma session_refines_witness :
  let r := play sample (begin_with (Bounded 2 DropNewest) 5 0) in
  (caller_sees r 0 0, caller_sees r 2 1, rn_lost r, caller_sees r 3 3, caller_sees r 5 4)
  = (Sent (Ok 7), SenderDropped, [2%N], Sent (Err RCancelled), SenderDropped)
  ∧ (∀ i m ch c, rn_log r !! i = Some (EAsk m ch c) →
       caller_sees r i ch = object_sees demo_behaviour 5 0 (rn_log r) i).
Proof.
  split; [vm_compute; reflexivity|].
  assert (at_rest (play sample (begin_with (Bounded 2 DropNewest) 5 0))) as Hrest by (vm_compute; exact I).
  pose proof (play_steps sample (begin_with (Bounded 2 DropNewest) 5 0)) as Hr.
  revert Hrest Hr. generalize (play sample (begin_with (Bounded 2 DropNewest) 5 0)). intros r Hrest Hr.
  destruct (session_refines demo_behaviour 5 0 ref (dw_init 0) (demo_box (Bounded 2 DropNewest))
    (spawned (rf_id ref) "counter" 5) r demo_implements eq_refl eq_refl
    (demo_spawned_with (Bounded 2 DropNewest) 5 0) Hr) as (_ & _ & _ & Hs).
  exact (proj1 (Hs Hrest)).
Defined.
End Spec.
