(* ===== verification/Client.v ===== *)
(** * Callers of the reference runtime as programs

    A [Client] is a caller: what it does with a reference, depending on what
    comes back. It runs against a session (Session.v) in which the actor's task
    and the rest of the world go on between its steps. [expect_prog] runs the same
    program against the sequential object instead, and [client_passes] says that
    what holds there holds in every run: a caller cannot tell the runtime from
    the object. The tests of the conformance suite are such programs
    (Conformance.v). Their mailbox is unbounded, as [spawn] makes it: a program
    has no view of a full one. *)
From S2P Require Import Prelude Node Message Channel Mailbox Interceptor Task Actor Dispatch.
From S2P Require Import RuntimeSupport Supervision DeadLetter ActorLoop AdapterRef Session.

#[local] Open Scope string_scope.
#[local] Open Scope list_scope.
#[local] Open Scope nat_scope.

(** ** Programs
    [CAwait i] awaits the reply of the operation at position [i] of the log;
    [CSleep] is a sleep that is long enough for the actor to come to rest, after
    which the program may look at what it shares with the actor. *)
Inductive Client (M R V : Type) :=
  | Done (passed : bool)
  | CTell (m : M) (k : result ActorSendError () → Client M R V)
  | CAsk (m : M) (cancelled : bool) (k : result ActorSendError nat → Client M R V)
  | CAwait (i : nat) (k : result RuntimeError R → Client M R V)
  | CStop (k : Client M R V)
  | CAlive (k : bool → Client M R V)
  | CSleep (k : V → Client M R V).
Arguments Done {M R V}.
Arguments CTell {M R V}.
Arguments CAsk {M R V}.
Arguments CAwait {M R V}.
Arguments CStop {M R V}.
Arguments CAlive {M R V}.
Arguments CSleep {M R V}.

(** ** Against the sequential object *)
Section object.
Context {A M R V : Type} (b : Behaviour A M R V) (s0 : Serving A V).

Definition actor_stopped : ActorSendError := mkActorSendError "actor stopped".
(** The channel of an operation does not matter to the object. *)
Definition erase (e : Entry M) : Entry M :=
  match e with EAsk m _ cancelled => EAsk m 0%N cancelled | e => e end.
Definition is_over (s : Serving A V) : bool := match s with Dead _ => true | Alive _ => false end.
Definition serving_shared (s : Serving A V) : V :=
  match s with Alive st => st.2 | Dead v => v end.

(** [true] when every run of the program passes. Behind the actor's end the
    mailbox may be open or closed. *)
Fixpoint expect_prog (c : Client M R V) (log : list (Entry M)) : bool :=
  let s := (serve b s0 log).1 in
  match c with
  | Done passed => passed
  | CTell m k =>
      expect_prog (k (Ok ())) (log ++ [ETell m])
      && (if is_over s then expect_prog (k (Err actor_stopped)) log else true)
  | CAsk m cancelled k =>
      expect_prog (k (Ok (length log))) (log ++ [EAsk m 0 cancelled])
      && (if is_over s then expect_prog (k (Err actor_stopped)) log else true)
  | CAwait i k =>
      match log !! i with
      | Some (EAsk _ _ _) =>
          match AskReply_poll match mjoin ((serve b s0 log).2 !! i) with
                              | Some a => Sent a | None => SenderDropped end with
          | Some a => expect_prog (k a) log
          | None => false
          end
      | _ => false
      end
  | CStop k => expect_prog k (log ++ [EStop]) && (if is_over s then expect_prog k log else true)
  | CAlive k =>
      if negb (no_stop log) then expect_prog (k false) log
      else if is_over s then expect_prog (k true) log && expect_prog (k false) log
      else expect_prog (k true) log
  | CSleep k => expect_prog (k (serving_shared s)) log
  end.

Lemma serve_erase s log : serve b s (erase <$> log) = serve b s log.
Proof.
  revert s. induction log as [|e log IH]; intros s; [done|]. cbn [fmap list_fmap serve].
  assert (serve1 b s (erase e) = serve1 b s e) as -> by by destruct s, e.
  destruct (serve1 b s e) as [s1 a]. by rewrite IH.
Qed.
Lemma no_stop_erase log : no_stop (erase <$> log) = no_stop log.
Proof. unfold no_stop. induction log as [|[] log IH]; simpl; by rewrite ?IH. Qed.
End object.

(** ** Against the runtime *)
Section system.
Context {A W M T Snd R Rf Rx Str C U V : Type} `{Actor A W M T Snd R} `{LoopWorld W Rf}.
Abbreviation D := (Dispatch W M T Snd R).
Context `{RefWorld W D R Snd Rx Str T} `{SenderLaws (option D) C} `{Receiver (option D) C}.
Context `{!ReceiverLaws (option D) C} `{UnboundedLaws (option D) U}.
Context `{SessionWorld W R V} `{!SessionLaws W D R V Snd Rx Str T Rf}.
Abbreviation RunOf := (Run (A := A) (W := W) (M := M) (C := C) (U := U)).
Context (ref : ActorRefData (W := W) (M := M) (T := T) (R := R)).

Inductive client_step : RunOf → Client M R V → RunOf → Client M R V → Prop :=
  | cs_tell m k r res r' :
      after_tell ref m r = (res, r') → client_step r (CTell m k) r' (k res)
  | cs_ask m cancel cancelled k r res r' :
      token_is cancel cancelled →
      after_ask (Rx := Rx) (Str := Str) ref m cancel cancelled r = (res, r') →
      client_step r (CAsk m cancelled k) r'
        (k match res with Ok _ => Ok (length (rn_log r)) | Err e => Err e end)
  | cs_await i k r m ch c a :
      rn_log r !! i = Some (EAsk m ch c) → AskReply_poll (caller_sees r i ch) = Some a →
      client_step r (CAwait i k) r (k a)
  | cs_stop k r : client_step r (CStop k) (after_stop (T := T) (Snd := Snd) r) k
  | cs_alive k r :
      client_step r (CAlive k) r (k (session_is_alive (M := M) (T := T) (Snd := Snd) (rn_sys r)))
  | cs_sleep k r : at_rest r → client_step r (CSleep k) r (k (shared (sy_world (rn_sys r)))).

(** A step of the caller or a turn of the actor, after whatever the others did. *)
Inductive conf_step : RunOf * Client M R V → RunOf * Client M R V → Prop :=
  | conf_turn r c r' : turns r' r → conf_step (r, c) (r', c)
  | conf_client r c w r' c' : keeps_world (sy_world (rn_sys r)) w →
      client_step (with_world w r) c r' c' → conf_step (r, c) (r', c').

(** Every run ends, and it ends with the program done and its checks passed. *)
Inductive passes : RunOf * Client M R V → Prop :=
  | passes_done r : passes (r, Done true)
  | passes_step x : (∃ y, conf_step x y) → (∀ y, conf_step x y → passes y) → passes x.

Context (b : Behaviour A M R V) (Hb : implements b) (a0 : A) (v0 : V).
Context (Hics : rf_interceptors ref = []) (Hdead : rf_dead_letter_handler ref = None).
Abbreviation object_of := (object_start b a0 v0).
Abbreviation Inv_ := (Inv b a0 v0).

Lemma inv_over r : Inv_ r → box_closed (sy_box (rn_sys r)) = true →
  is_over (serve b object_of (rn_log r)).1 = true.
Proof.
  intros HI Hc. destruct (inv_rest b a0 v0 r HI) as [_ Hs].
  - pose proof (inv_box _ _ _ r HI) as Hq. unfold at_rest.
    destruct (sy_act (rn_sys r)); simpl in Hq; try done; destruct Hq; congruence.
  - pose proof (inv_box _ _ _ r HI) as Hq.
    destruct (serve b object_of (rn_log r)).1; [|done]. destruct Hs as (l & Hact & _).
    rewrite Hact in Hq. simpl in Hq. destruct Hq; congruence.
Qed.

(** A turn or a rest: the program goes on when the actor cannot. *)
Lemma passes_acc (c : Client M R V) (P : RunOf → Prop) :
  (∀ r r', P r → turns r' r → P r') →
  (∀ r, P r → at_rest r → ∃ r' c', client_step r c r' c') →
  (∀ r w r' c', P r → keeps_world (sy_world (rn_sys r)) w → client_step (with_world w r) c r' c' →
     passes (r', c')) →
  ∀ r, P r → passes (r, c).
Proof.
  intros Hturn Hgo Hstep r. induction (acc_turns (R := R) (V := V) r) as [r _ IH]. intros HP. apply passes_step.
  - destruct (after_turn (RuntimeHeaders_new 1 0) r) as [r'|] eqn:Ht.
    + exists (r', c). constructor. exists (sy_world (rn_sys r)), (RuntimeHeaders_new 1 0).
      split; [done|]. destruct r as [[w u act] log k]. exact Ht.
    + apply at_rest_no_turn in Ht. destruct (Hgo r HP Ht) as (r' & c' & Hc). exists (r', c').
      apply (conf_client _ _ (sy_world (rn_sys r))); [done|]. by destruct r as [[w u act] log k].
  - intros y Hy. inversion Hy as [r1 c1 r2 Ht|r1 c1 w r2 c2 Hk Hc]; subst; [|by eapply Hstep].
    apply IH; [done|]. by eapply Hturn.
Qed.

Lemma turns_inv r r' : Inv_ r → turns r' r →
  Inv_ r' ∧ rn_log r' = rn_log r ∧ is_bounded (sy_box (rn_sys r')) = is_bounded (sy_box (rn_sys r)).
Proof.
  intros HI (w & rh & Hk & Ht). apply (inv_world _ _ _ _ w) in HI; [|done].
  pose proof (turn_kind rh _ _ Ht) as Hkind. split; [by eapply inv_turn|]. split; [|done].
  unfold after_turn in Ht. destruct (actor_turn rh _); simplify_eq/=. done.
Qed.
Lemma conf_rest_view r i m ch c :
  Inv_ r → rn_log r !! i = Some (EAsk m ch c) →
  caller_sees r i ch = Waiting ∨ caller_sees r i ch = object_sees b a0 v0 (rn_log r) i.
Proof.
  intros HI Hi. rewrite (inv_caller _ _ _ _ _ _ _ _ HI Hi). destruct (entry_handled r i); auto.
Qed.

Definition fine (c : Client M R V) r : Prop :=
  Inv_ r ∧ is_bounded (sy_box (rn_sys r)) = false
  ∧ expect_prog b object_of c (erase <$> rn_log r) = true.
Lemma fine_turn c r r' : fine c r → turns r' r → fine c r'.
Proof. intros (HI & Hu & He) (HI' & Hl & Hk)%turns_inv; [|done]. split_and!; [done|congruence|by rewrite Hl]. Qed.
Lemma fine_world c r w : fine c r → keeps_world (sy_world (rn_sys r)) w → fine c (with_world w r).
Proof. intros (HI & Hu & He) Hk. split_and!; [by apply inv_world|done..]. Qed.

(** An open mailbox takes what is sent. *)
Lemma refused_closed (u : MailboxSender (C := C) (U := U)) res :
  is_bounded u = false → refused u res → box_closed u = true ∧ res = Err actor_stopped.
Proof. intros Hu [?|(_ & o & Hfull & _)]; [done|]. apply full_bounded in Hfull. congruence. Qed.

Lemma open_tell m (r : RunOf) :
  is_bounded (sy_box (rn_sys r)) = false → box_closed (sy_box (rn_sys r)) = false →
  (after_tell ref m r).1 = Ok () ∧ rn_log (after_tell ref m r).2 = rn_log r ++ [ETell m].
Proof.
  intros Hu Hc. unfold after_tell, logged.
  destruct (do_tell_effect ref Hics Hdead m (rn_sys r)) as (res & u & -> & [[-> Hacc]|[_ Href]]).
  - cbn [fst snd rn_log sy_box]. by rewrite (accepted_entered _ _ _ Hacc).
  - apply refused_closed in Href as [? _]; [congruence|done].
Qed.
Lemma open_ask m cancel cancelled (r : RunOf) :
  is_bounded (sy_box (rn_sys r)) = false → box_closed (sy_box (rn_sys r)) = false →
  ∃ ch, (after_ask (Rx := Rx) (Str := Str) ref m cancel cancelled r).1 = Ok ch
    ∧ rn_log (after_ask (Rx := Rx) (Str := Str) ref m cancel cancelled r).2
      = rn_log r ++ [EAsk m ch cancelled].
Proof.
  intros Hu Hc. unfold after_ask, logged.
  destruct (do_ask_effect ref Hics Hdead m cancel (rn_sys r)) as (res & u & -> & [[-> Hacc]|[_ Href]]).
  - eexists. split; [done|]. cbn [snd rn_log sy_box]. by rewrite (accepted_entered _ _ _ Hacc).
  - apply refused_closed in Href as [? _]; [congruence|done].
Qed.
Lemma open_stop (r : RunOf) :
  is_bounded (sy_box (rn_sys r)) = false → box_closed (sy_box (rn_sys r)) = false →
  rn_log (after_stop (T := T) (Snd := Snd) r) = rn_log r ++ [EStop]
  ∧ session_is_alive (M := M) (T := T) (Snd := Snd) (rn_sys (after_stop (T := T) (Snd := Snd) r)) = false.
Proof.
  intros Hu Hc. unfold after_stop, logged.
  destruct (do_stop_effect (T := T) (Snd := Snd) (M := M) (rn_sys r)) as (u & -> & [Hacc|[_ [?|?]]]);
    [|congruence..].
  cbn [rn_log rn_sys sy_box]. rewrite (accepted_entered _ _ _ Hacc). split; [done|].
  unfold session_is_alive, TestActorRef_is_alive. cbn [sy_world].
  by destruct (store_dead_flag (sy_world (rn_sys r))) as [-> _].
Qed.
Lemma closed_over (r : RunOf) : Inv_ r → box_closed (sy_box (rn_sys r)) = true → ∃ l, sy_act (rn_sys r) = Over l.
Proof.
  intros HI Hc. pose proof (inv_box _ _ _ r HI) as Hq. pose proof (inv_act _ _ _ r HI) as Ha.
  destruct (sy_act (rn_sys r)); simpl in Hq, Ha; [destruct Hq; congruence..|by eexists|done].
Qed.
Lemma stop_not_alive (r : RunOf) k :
  Inv_ r → is_bounded (sy_box (rn_sys r)) = false → rn_log r !! k = Some EStop →
  session_is_alive (M := M) (T := T) (Snd := Snd) (rn_sys r) = false.
Proof.
  intros HI Hu Hk. unfold session_is_alive, TestActorRef_is_alive.
  destruct (inv_flag _ _ _ r HI) as [->|[_ ?]]; [|congruence].
  assert (no_stop (rn_log r) = false) as ->; [|done].
  destruct (no_stop (rn_log r)) eqn:Hn; [|done]. unfold no_stop in Hn. rewrite forallb_forall in Hn.
  by specialize (Hn EStop (proj1 (list_elem_of_In _ _) (list_elem_of_lookup_2 _ _ _ Hk))).
Qed.
(** What enters the mailbox behind a stop is not answered. *)
Lemma behind_stop (r : RunOf) k i m ch c :
  Inv_ r → rn_log r !! k = Some EStop → k < i → rn_log r !! i = Some (EAsk m ch c) →
  (caller_sees r i ch = Waiting ∨ caller_sees r i ch = SenderDropped)
  ∧ (at_rest r → caller_sees r i ch = SenderDropped).
Proof.
  intros HI Hk Hki Hi.
  assert (object_sees b a0 v0 (rn_log r) i = SenderDropped) as Hsees.
  { unfold object_sees.
    assert (∃ v, (serve b object_of (take (S k) (rn_log r))).1 = Dead v) as [v Hv].
    { rewrite (take_S_r _ _ _ Hk), serve_snoc.
      destruct (serve b object_of (take k (rn_log r))) as [[st|v] ?]; by eexists. }
    by rewrite (object_over _ _ _ _ (S k) v i) by done. }
  rewrite (inv_caller _ _ _ _ _ _ _ _ HI Hi), Hsees. split; [destruct (entry_handled r i); auto|].
  intros Hrest. by rewrite (proj1 (inv_rest _ _ _ _ HI Hrest) _ _ Hi).
Qed.

Lemma fine_tell m k r : fine (CTell m k) r →
  let '(res, r') := after_tell ref m r in fine (k res) r'.
Proof.
  intros (HI & Hu & [He1 He2]%andb_prop). pose proof (inv_tell b a0 v0 ref Hics Hdead m r HI) as HI'.
  unfold after_tell, logged in *. destruct (do_tell_effect ref Hics Hdead m (rn_sys r)) as (res & u & Heff & Hcase).
  rewrite Heff in *. cbn [sy_box snd] in *. destruct Hcase as [[-> Hacc]|[-> Href]].
  - rewrite (accepted_entered _ _ _ Hacc) in *. destruct Hacc as (_ & _ & _ & Hkind).
    split_and!; [done|simpl; congruence|]. cbn [rn_log]. by rewrite fmap_app.
  - apply refused_closed in Href as [Hc ->]; [|done]. rewrite entered_same, app_nil_r in *.
    split_and!; [done..|]. cbn [rn_log]. rewrite serve_erase, inv_over in He2 by done. done.
Qed.
Lemma fine_ask m cancel cancelled k r : token_is cancel cancelled → fine (CAsk m cancelled k) r →
  let '(res, r') := after_ask (Rx := Rx) (Str := Str) ref m cancel cancelled r in
  fine (k match res with Ok _ => Ok (length (rn_log r)) | Err e => Err e end) r'.
Proof.
  intros Htok (HI & Hu & [He1 He2]%andb_prop).
  pose proof (inv_ask b a0 v0 ref Hics Hdead m cancel cancelled r Htok HI) as HI'.
  unfold after_ask, logged in *. rewrite length_fmap in He1.
  destruct (do_ask_effect ref Hics Hdead m cancel (rn_sys r)) as (res & u & Heff & Hcase).
  rewrite Heff in *. cbn [sy_box snd] in *. destruct Hcase as [[-> Hacc]|[-> Href]].
  - rewrite (accepted_entered _ _ _ Hacc) in *. destruct Hacc as (_ & _ & _ & Hkind).
    split_and!; [done|simpl; congruence|]. cbn [rn_log]. by rewrite fmap_app.
  - apply refused_closed in Href as [Hc ->]; [|done].
    split_and!; [done..|]. cbn [rn_log]. rewrite serve_erase, inv_over in He2 by done. done.
Qed.
Lemma fine_stop k r : fine (CStop k) r → fine k (after_stop (T := T) (Snd := Snd) r).
Proof.
  intros (HI & Hu & [He1 He2]%andb_prop). pose proof (inv_stop b a0 v0 r HI) as HI'.
  unfold after_stop, logged in *. destruct (do_stop_effect (T := T) (Snd := Snd) (M := M) (rn_sys r)) as (u & Heff & Hcase).
  rewrite Heff in *. cbn zeta in *. cbn [sy_box] in *. destruct Hcase as [Hacc|[-> Hwhy]].
  - rewrite (accepted_entered _ _ _ Hacc) in *. destruct Hacc as (_ & _ & _ & Hkind).
    split_and!; [done|simpl; congruence|]. cbn [rn_log]. by rewrite fmap_app.
  - destruct Hwhy as [Hc|Hb']; [|congruence]. rewrite entered_same, app_nil_r in *.
    split_and!; [done..|]. cbn [rn_log]. rewrite serve_erase, inv_over in He2 by done. done.
Qed.
Lemma fine_await i k r m ch c a : fine (CAwait i k) r →
  rn_log r !! i = Some (EAsk m ch c) → AskReply_poll (caller_sees r i ch) = Some a → fine (k a) r.
Proof.
  intros (HI & Hu & He) Hi Ha. split_and!; [done..|]. cbn [expect_prog] in He.
  rewrite list_lookup_fmap, Hi in He. cbn in He. rewrite serve_erase in He.
  destruct (conf_rest_view _ _ _ _ _ HI Hi) as [Hw|Hw]; rewrite Hw in Ha; [done|].
  unfold object_sees in Ha. by rewrite Ha in He.
Qed.
Lemma fine_alive k r : fine (CAlive k) r →
  fine (k (session_is_alive (M := M) (T := T) (Snd := Snd) (rn_sys r))) r.
Proof.
  intros (HI & Hu & He). split_and!; [done..|]. cbn [expect_prog] in He. rewrite no_stop_erase, serve_erase in He.
  unfold session_is_alive, TestActorRef_is_alive.
  destruct (inv_flag _ _ _ r HI) as [->|[_ Hb']]; [|congruence].
  destruct (no_stop (rn_log r)); cbn [negb andb] in *; [|done].
  destruct (is_over _) eqn:Hover; [by apply andb_prop in He as [??]; destruct (runs _ && _)|].
  assert (box_closed (sy_box (rn_sys r)) = false) as ->.
  { destruct (box_closed _) eqn:Hc; [|done]. apply inv_over in Hc; [|done]. congruence. }
  assert (runs (sy_act (rn_sys r)) = true) as ->; [|done].
  pose proof (inv_act _ _ _ r HI) as Ha. destruct (sy_act (rn_sys r)) as [t l|l|t l|t l|l|l]; try done; simpl in Ha.
  - destruct Ha as (st & Ha & _). apply object_dead in Ha. by rewrite Ha in Hover.
  - apply object_dead in Ha. by rewrite Ha in Hover.
Qed.
Lemma fine_sleep k r : fine (CSleep k) r → at_rest r → fine (k (shared (sy_world (rn_sys r)))) r.
Proof.
  intros (HI & Hu & He) Hrest. split_and!; [done..|]. cbn [expect_prog] in He. rewrite serve_erase in He.
  destruct (inv_rest _ _ _ _ HI Hrest) as [_ Hs].
  destruct (serve b object_of (rn_log r)).1 as [st|v]; destruct Hs as (l & _ & ->); exact He.
Qed.

Lemma fine_step r c r' c' : fine c r → client_step r c r' c' → fine c' r'.
Proof.
  intros Hf Hc. destruct Hc as [m k r res r' Ht|m cancel cancelled k r res r' Htok Ha|i k r m ch c a Hi Ha|k r|k r|k r Hrest].
  - apply fine_tell in Hf. by rewrite Ht in Hf.
  - apply (fine_ask _ cancel) in Hf; [|done]. by rewrite Ha in Hf.
  - by eapply fine_await.
  - by apply fine_stop.
  - by apply fine_alive.
  - by apply fine_sleep.
Qed.
Lemma fine_enabled r c :
  fine c r → at_rest r → (∀ p, c ≠ Done p) → ∃ r' c', client_step r c r' c'.
Proof.
  intros (HI & Hu & He) Hrest Hc. destruct c as [p|m k|m cancelled k|i k|k|k|k].
  - by destruct (Hc p).
  - destruct (after_tell ref m r) as [res r'] eqn:Ht. do 2 eexists. by apply cs_tell.
  - destruct cancelled.
    + destruct (after_ask (Rx := Rx) (Str := Str) ref m (Some (λ _, true)) true r)
        as [res r'] eqn:Ht. do 2 eexists. by apply (cs_ask _ (Some (λ _, true)) _ _ _ res).
    + destruct (after_ask (Rx := Rx) (Str := Str) ref m None false r)
        as [res r'] eqn:Ht. do 2 eexists. by apply (cs_ask _ None _ _ _ res).
  - cbn [expect_prog] in He. rewrite list_lookup_fmap in He.
    destruct (rn_log r !! i) as [[m|m ch c|]|] eqn:Hi; cbn in He; try done.
    rewrite serve_erase in He. destruct (inv_rest _ _ _ _ HI Hrest) as [Hh _].
    pose proof (inv_caller _ _ _ _ _ _ _ _ HI Hi) as Hv. rewrite (Hh _ _ Hi) in Hv.
    fold (object_sees b a0 v0 (rn_log r) i) in He. rewrite <-Hv in He.
    destruct (AskReply_poll _) as [a|] eqn:Hp; [|done]. do 2 eexists. by eapply cs_await.
  - do 2 eexists. apply cs_stop.
  - do 2 eexists. apply cs_alive.
  - do 2 eexists. by apply cs_sleep.
Qed.

Lemma fine_passes c r : fine c r → passes (r, c).
Proof.
  revert r. induction c as [p|m k IH|m cancelled k IH|i k IH|k IH|k IH|k IH]; intros r Hr.
  { destruct Hr as (_ & _ & Hp). simpl in Hp. subst p. constructor. }
  all: match goal with |- passes (_, ?c) => apply (passes_acc c (fine c)) end;
    [apply fine_turn|intros r1 Hf Hrest; by apply fine_enabled| |exact Hr];
    intros r1 w r' c' Hf Hk Hc; pose proof (fine_step _ _ _ _ (fine_world _ _ _ Hf Hk) Hc) as Hf';
    inversion Hc; subst; by apply IH.
Qed.
End system.

Lemma expected_passes {A W M T Snd R Rf Rx Str C U V : Type} `{Actor A W M T Snd R} `{LoopWorld W Rf}
    `{RefWorld W (Dispatch W M T Snd R) R Snd Rx Str T} `{SenderLaws (option (Dispatch W M T Snd R)) C}
    `{Receiver (option (Dispatch W M T Snd R)) C} `{!ReceiverLaws (option (Dispatch W M T Snd R)) C}
    `{UnboundedLaws (option (Dispatch W M T Snd R)) U} `{SessionWorld W R V}
    `{!SessionLaws W (Dispatch W M T Snd R) R V Snd Rx Str T Rf}
    (b : Behaviour A M R V) (a0 : A) (v0 : V) (ref : ActorRefData) w (u : MailboxSender (C := C) (U := U)) l (c : Client M R V) :
  implements b → rf_interceptors ref = [] → rf_dead_letter_handler ref = None →
  spawned_with a0 v0 w u l → is_bounded u = false → expect_prog b (object_start b a0 v0) c [] = true →
  passes (Rx := Rx) (Str := Str) ref (session_start w u l, c).
Proof.
  intros Hb Hics Hdead Hsp Hu He. apply (fine_passes ref b Hb a0 v0 Hics Hdead). split; [|done].
  by apply (inv_start b Hb a0 v0).
Qed.

(** ** Writing programs *)
Section programs.
Context {M R V : Type}.
Abbreviation Prog := (Client M R V).

(** [unwrap()], [assert!] and [ask(..).unwrap().await.unwrap()]; a panic fails the
    test. *)
Definition unwrap {E X} (r : result E X) (k : X → Prog) : Prog :=
  match r with Ok x => k x | Err _ => Done false end.
Definition assert_then (b : bool) (k : Prog) : Prog := if b then k else Done false.
Definition tell_unwrap (m : M) (k : Prog) : Prog := CTell m (λ r, unwrap r (λ _, k)).
Definition ask_await (m : M) (k : R → Prog) : Prog :=
  CAsk m false (λ r, unwrap r (λ i, CAwait i (λ a, unwrap a k))).
(** [for _ in 0..n { .. }], then the rest. *)
Fixpoint repeat_prog (n : nat) (body : Prog → Prog) (k : Prog) : Prog :=
  match n with 0 => k | S n => body (repeat_prog n body k) end.
End programs.

(** ** The property *)
Module Spec.
Section spec.
Context {A W M T Snd R Rf Rx Str C U V : Type} `{Actor A W M T Snd R} `{LoopWorld W Rf}.
Abbreviation D := (Dispatch W M T Snd R).
Context `{RefWorld W D R Snd Rx Str T} `{SenderLaws (option D) C} `{Receiver (option D) C}.
Context `{!ReceiverLaws (option D) C} `{UnboundedLaws (option D) U}.
Context `{SessionWorld W R V} `{!SessionLaws W D R V Snd Rx Str T Rf}.

(** C3. A caller cannot tell the reference runtime from the sequential object.
    A program that passes against the object passes against an actor of the
    runtime with an unbounded mailbox, on every schedule: whatever the order of its steps, the polls of the
    actor's task and the changes of the world, it never gets stuck, it finishes
    after finitely many steps, and none of its checks fails. *)
Theorem client_passes (b : Behaviour A M R V) (a0 : A) (v0 : V) (ref : ActorRefData)
    w (u : MailboxSender (C := C) (U := U)) l (c : Client M R V) :
  implements b → rf_interceptors ref = [] → rf_dead_letter_handler ref = None →
  spawned_with a0 v0 w u l → is_bounded u = false → expect_prog b (object_start b a0 v0) c [] = true →
  passes (Rx := Rx) (Str := Str) ref (session_start w u l, c).
Proof.
  exact (expected_passes b a0 v0 ref w u l c).
Qed.
End spec.

Import Demo.
Definition sample : Client (option nat) nat nat :=
  tell_unwrap (Some 10) (ask_await (Some 2) (λ n, assert_then (n =? 17)
    (CAsk None false (λ r, unwrap r (λ i, CAwait i (λ a,
       assert_then (match a with Err _ => true | Ok _ => false end)
         (CSleep (λ handled, assert_then (handled =? 2)
            (CStop (CAlive (λ alive, Done (negb alive)))))))))))).
Lemma client_passes_witness :
  expect_prog demo_behaviour (object_start demo_behaviour 5 0) sample [] = true
  ∧ passes (Rx := ()) (Str := ()) ref (begin 5 0, sample).
Proof.
  split; [vm_compute; reflexivity|].
  apply (client_passes demo_behaviour 5 0 ref (dw_init 0) (demo_box Unbounded)
    (spawned (rf_id ref) "counter" 5) sample demo_implements eq_refl eq_refl (demo_spawned 5 0) eq_refl).
  vm_compute. reflexivity.
Defined.
End Spec.
