(* ===== verification/WireInterceptor.v ===== *)
(** * Wire interceptors (dactor/src/wire_interceptor.rs)

    Decisions on raw envelopes at the transport boundary: the pipeline, its
    result for the receive loop, and the two built-in interceptors. *)
From S2P Require Import Prelude Node Message.
From Stdlib Require Import Strings.Byte.

#[local] Open Scope string_scope.
#[local] Open Scope list_scope.
#[local] Open Scope nat_scope.

Inductive WireDisposition :=
  | WAccept
  | WDelay (d : N)
  | WReject (reason : string)
  | WDrop.

#[export] Instance WireDisposition_eq_dec : EqDecision WireDisposition.
Proof. solve_decision. Defined.

Inductive WireProcessResult := Accepted | Delayed (d : N) | Dropped.

Record WireRejectError := mkWireRejectError { wr_interceptor : string; wr_reason : string }.
Definition WireRejectError_display (e : WireRejectError) : string :=
  "wire interceptor '" +:+ wr_interceptor e +:+ "' rejected: " +:+ wr_reason e.

(** ** Pipeline
    An interceptor is a [&self] object with interior state in the world [W]. *)
Section pipeline.
Context {W : Type}.

Record WireInterceptor := mkWireInterceptor {
  w_name : string;
  w_on_receive : WireEnvelope → W → WireDisposition * W
}.
Record WireInterceptorPipeline := mkPipeline { w_interceptors : list WireInterceptor }.
Definition Pipeline_new : WireInterceptorPipeline := mkPipeline [].
Definition add (i : WireInterceptor) (p : WireInterceptorPipeline) : WireInterceptorPipeline :=
  mkPipeline (w_interceptors p ++ [i]).

Fixpoint process_loop (ics : list WireInterceptor) (e : WireEnvelope) (w : W) :
    (WireDisposition * option string) * W :=
  match ics with
  | [] => ((WAccept, None), w)
  | i :: rest =>
      let '(d, w) := w_on_receive i e w in
      match d with
      | WAccept => process_loop rest e w
      | other => ((other, Some (w_name i)), w)
      end
  end.
Definition process (p : WireInterceptorPipeline) (e : WireEnvelope) (w : W) :
    (WireDisposition * option string) * W :=
  process_loop (w_interceptors p) e w.

Definition process_envelope (p : WireInterceptorPipeline) (e : WireEnvelope) (w : W) :
    result WireRejectError WireProcessResult * W :=
  let '((disposition, name), w) := process p e w in
  (match disposition with
   | WAccept => Ok Accepted
   | WDelay d => Ok (Delayed d)
   | WReject reason => Err (mkWireRejectError (default "unknown" name) reason)
   | WDrop => Ok Dropped
   end, w).

Definition pipeline_len (p : WireInterceptorPipeline) : nat := length (w_interceptors p).

(** All of [ics] accept, and the world goes from [w] to [w']. *)
Inductive accept_all (e : WireEnvelope) : list WireInterceptor → W → W → Prop :=
  | accept_nil w : accept_all e [] w w
  | accept_cons i ics w w' w'' :
      w_on_receive i e w = (WAccept, w') → accept_all e ics w' w'' →
      accept_all e (i :: ics) w w''.

Lemma process_loop_cases ics e w r w' :
  process_loop ics e w = (r, w') →
  (r = (WAccept, None) ∧ accept_all e ics w w')
  ∨ ∃ pre i post w1 d, ics = pre ++ i :: post ∧ accept_all e pre w w1
      ∧ w_on_receive i e w1 = (d, w') ∧ d ≠ WAccept ∧ r = (d, Some (w_name i)).
Proof.
  revert w. induction ics as [|i ics IH]; intros w; simpl.
  { intros [= <- <-]. left. by repeat constructor. }
  destruct (w_on_receive i e w) as [d w1] eqn:Hd.
  destruct d; try (intros [= <- <-]; right; exists [], i, ics, w; eexists; split_and!;
    [done|constructor|exact Hd|done|done]).
  intros [[-> Ha]|(pre & j & post & w2 & d & -> & Ha & Hj & Hne & ->)]%IH.
  - left. split; [done|]. by econstructor.
  - right. exists (i :: pre), j, post, w2, d. split_and!; try done. by econstructor.
Qed.
End pipeline.
Arguments WireInterceptor : clear implicits.
Arguments WireInterceptorPipeline : clear implicits.

(** ** Body size *)
Definition MaxBodySize_on_receive (max_bytes : nat) (e : WireEnvelope) : WireDisposition :=
  if (max_bytes <? length (body e))%nat
  then WReject ("body size " +:+ pretty (length (body e)) +:+ " exceeds limit "
                +:+ pretty max_bytes)
  else WAccept.
Definition MaxBodySizeInterceptor {W} (max_bytes : nat) : WireInterceptor W :=
  mkWireInterceptor "max-body-size" (λ e w, (MaxBodySize_on_receive max_bytes e, w)).

(** ** Rate limit: a fixed window *)
Record RateLimitState := mkRateLimitState { count : N; window_start : N }.
Record RateLimitWireInterceptor := mkRateLimit {
  max_per_window : N;
  window : N;
  rl_state : RateLimitState
}.
Definition RateLimit_new (now max w : N) : RateLimitWireInterceptor :=
  mkRateLimit max w (mkRateLimitState 0 now).

(** [duration_debug] is the [{:?}] rendering of the window in the message;
    [None] is the panic of an overflowing [count += 1]. *)
Section rate_limit.
Context (duration_debug : N → string) (p : profile).

Definition RateLimit_on_receive (now : N) (i : RateLimitWireInterceptor) :
    option (WireDisposition * RateLimitWireInterceptor) :=
  let st := rl_state i in
  let st :=
    if (window i <=? duration_since now (window_start st))%N
    then mkRateLimitState 0 now else st in
  c ← add64 p (count st) 1;
  let st := mkRateLimitState c (window_start st) in
  let d :=
    if (max_per_window i <? c)%N
    then WReject ("rate limit exceeded: " +:+ pretty c +:+ " > " +:+ pretty (max_per_window i)
                  +:+ " per " +:+ duration_debug (window i))
    else WAccept in
  Some (d, mkRateLimit (max_per_window i) (window i) st).

Fixpoint RateLimit_run (nows : list N) (i : RateLimitWireInterceptor) :
    option (list WireDisposition * RateLimitWireInterceptor) :=
  match nows with
  | [] => Some ([], i)
  | now :: rest =>
      '(d, i) ← RateLimit_on_receive now i;
      '(ds, i) ← RateLimit_run rest i;
      Some (d :: ds, i)
  end.

(** The verdict on the [c]-th envelope of a window. *)
Definition rate_verdict (i : RateLimitWireInterceptor) (c : N) : WireDisposition :=
  if (c <=? max_per_window i)%N then WAccept
  else WReject ("rate limit exceeded: " +:+ pretty c +:+ " > " +:+ pretty (max_per_window i)
                +:+ " per " +:+ duration_debug (window i)).
Fixpoint rate_verdicts (i : RateLimitWireInterceptor) (c : N) (n : nat) : list WireDisposition :=
  match n with
  | 0 => []
  | S n => rate_verdict i (c + 1) :: rate_verdicts i (c + 1) n
  end.

Lemma rate_verdicts_ext i i' c n :
  max_per_window i = max_per_window i' → window i = window i' →
  rate_verdicts i c n = rate_verdicts i' c n.
Proof.
  intros Hm Hw. revert c. induction n as [|n IH]; intros c; simpl; [done|].
  unfold rate_verdict. by rewrite Hm, Hw, IH.
Qed.

Lemma RateLimit_step now i c t :
  (c < u64_max)%N →
  (if (window i <=? duration_since now (window_start (rl_state i)))%N
   then mkRateLimitState 0 now else rl_state i) = mkRateLimitState c t →
  RateLimit_on_receive now i = Some (rate_verdict i (c + 1),
    mkRateLimit (max_per_window i) (window i) (mkRateLimitState (c + 1) t)).
Proof.
  intros Hc Hst. unfold RateLimit_on_receive. cbv zeta. rewrite Hst. simpl.
  unfold add64. rewrite checked64_small by lia. simpl. unfold rate_verdict.
  rewrite (N.leb_antisym (max_per_window i)). by destruct (_ <? _)%N.
Qed.

Lemma RateLimit_in_window nows i c t :
  (c + len_N nows <= u64_max)%N → rl_state i = mkRateLimitState c t →
  Forall (λ now, (duration_since now t < window i)%N) nows →
  RateLimit_run nows i = Some (rate_verdicts i c (length nows),
    mkRateLimit (max_per_window i) (window i) (mkRateLimitState (c + len_N nows) t)).
Proof.
  unfold len_N. revert i c. induction nows as [|now nows IH]; intros i c Hc Hst Hall; simpl.
  { rewrite N.add_0_r. destruct i. simpl in *. by subst. }
  apply Forall_cons in Hall as [Hnow Hall].
  cbn [length] in Hc.
  rewrite (RateLimit_step now i c t); [|lia|].
  - simpl. rewrite (IH (mkRateLimit _ _ (mkRateLimitState (c + 1) t)) (c + 1)%N);
      cbn [rl_state max_per_window window]; [|lia|done|done]. simpl.
    rewrite (rate_verdicts_ext _ i) by done.
    by replace (c + N.of_nat (S (length nows)))%N
      with (c + 1 + N.of_nat (length nows))%N by lia.
  - rewrite Hst. simpl. by apply N.leb_gt in Hnow as ->.
Qed.
End rate_limit.

(** ** The properties *)
Module Spec.

(** The pipeline asks the interceptors in the order they were added, the
    first one that does not accept decides, under its own name, and those
    after it are not asked (the world is the one the decider left); the
    receive loop gets the decision as documented, and a rejection carries the
    interceptor's name. *)
Theorem process_envelope_decides {W} (p : WireInterceptorPipeline W) e w r w' :
  process_envelope p e w = (r, w') →
  (r = Ok Accepted ∧ accept_all e (w_interceptors p) w w')
  ∨ ∃ pre i post w1 d, w_interceptors p = pre ++ i :: post ∧ accept_all e pre w w1
      ∧ w_on_receive i e w1 = (d, w') ∧ d ≠ WAccept
      ∧ r = match d with
            | WAccept => Ok Accepted
            | WDelay t => Ok (Delayed t)
            | WReject why => Err (mkWireRejectError (w_name i) why)
            | WDrop => Ok Dropped
            end.
Proof.
  unfold process_envelope, process.
  destruct (process_loop (w_interceptors p) e w) as [[d n] w1] eqn:Hl. intros [= <- <-].
  apply process_loop_cases in Hl as [[[= -> ->] ?]|(pre & i & post & w2 & d' & ? & ? & ? & ? & [= -> ->])];
    [by left|right]. exists pre, i, post, w2, d'. by split_and!.
Qed.
Definition small : WireEnvelope :=
  mkWireEnvelope (mkActorId (mkNodeId "n") 1) "a" "M" Ask WireHeaders_new
    [x01; x02] None None.
Definition counting : WireInterceptor nat :=
  mkWireInterceptor "count" (λ _ w, (WAccept, S w)).
Lemma process_envelope_decides_witness :
  ∃ pre i post w1 d,
    [counting; MaxBodySizeInterceptor 1; counting] = pre ++ i :: post
    ∧ accept_all small pre 0 w1 ∧ w_on_receive i small w1 = (d, 1) ∧ d ≠ WAccept
    ∧ Err (mkWireRejectError "max-body-size" "body size 2 exceeds limit 1")
      = match d with
        | WAccept => Ok Accepted
        | WDelay t => Ok (Delayed t)
        | WReject why => Err (mkWireRejectError (w_name i) why)
        | WDrop => Ok Dropped
        end.
Proof.
  destruct (process_envelope_decides
    (mkPipeline [counting; MaxBodySizeInterceptor 1; counting]) small 0
    (Err (mkWireRejectError "max-body-size" "body size 2 exceeds limit 1")) 1)
    as [[? _]|H]; [by vm_compute|done|exact H].
Defined.

(** The fixed window of the rate limiter: of the envelopes that arrive from
    the opening of a window (its creation, or an arrival after the previous
    window ended) until it ends, exactly the first [max_per_window] are
    accepted and every later one is rejected; the counter does not overflow. *)
Theorem rate_limit_window dbg p now nows i :
  (1 + len_N nows <= u64_max)%N →
  (rl_state i = mkRateLimitState 0 now ∧ (0 < window i)%N
   ∨ (window i <= duration_since now (window_start (rl_state i)))%N) →
  Forall (λ t, (duration_since t now < window i)%N) nows →
  ∃ i', RateLimit_run dbg p (now :: nows) i
    = Some (rate_verdicts dbg i 0 (S (length nows)), i')
  ∧ rl_state i' = mkRateLimitState (1 + len_N nows) now.
Proof.
  intros Hn Hfresh Hall. cbn [RateLimit_run].
  rewrite (RateLimit_step dbg p now i 0 now); [|done|].
  - simpl. rewrite (RateLimit_in_window dbg p nows
      (mkRateLimit _ _ (mkRateLimitState (0 + 1) now)) 1 now); simpl; [|lia|done|done].
    rewrite (rate_verdicts_ext dbg _ i) by done. by eexists.
  - destruct Hfresh as [[Hst Hw]|Hexp]; [|by apply N.leb_le in Hexp as ->].
    rewrite Hst. simpl. unfold duration_since. rewrite N.sub_diag.
    by assert ((window i <=? 0)%N = false) as -> by (apply N.leb_gt; lia).
Qed.
Lemma rate_limit_window_witness :
  ∃ i', RateLimit_run pretty Debug [5; 6; 9]%N (RateLimit_new 5 2 10)
    = Some ([WAccept; WAccept; WReject "rate limit exceeded: 3 > 2 per 10"], i')
  ∧ rl_state i' = mkRateLimitState 3 5.
Proof.
  destruct (rate_limit_window pretty Debug 5 [6; 9]%N (RateLimit_new 5 2 10))
    as (i' & H & Hs); [done|by left|by repeat constructor|].
  exists i'. split; [|exact Hs]. rewrite H. by vm_compute.
Defined.
End Spec.
