(* ===== verification/TypeRegistry.v ===== *)
(** * Type registry and the wire body pipeline

    [TypeRegistry] and its factories (dactor/src/type_registry.rs); the
    envelope builders, [receive_envelope_body] and the version migration of
    dactor/src/remote.rs. [serde_json] is library code: [to_vec] and
    [from_slice] of each type are parameters. *)
From S2P Require Import Prelude Node Message.
From Stdlib Require Import Strings.Byte.

#[local] Open Scope string_scope.
#[local] Open Scope list_scope.
#[local] Open Scope nat_scope.

(** A [Box<dyn Any + Send>]: the dynamic type and a value of the universe [U]. *)
Record AnyBox (U : Type) := mkAny { any_type : string; any_value : U }.
Arguments mkAny {U}.
Arguments any_type {U}.
Arguments any_value {U}.

(** [downcast::<T>()] for the type named [T]. *)
Definition downcast {U} (T : string) (b : AnyBox U) : option U :=
  if decide (any_type b = T) then Some (any_value b) else None.

Definition SerializationError_new (m : string) : SerializationError := mkSerializationError m.

Section registry.
Context {U : Type}.

Definition DeserializerFn := bytes → result SerializationError (AnyBox U).
Definition FactoryFn := bytes → result SerializationError (AnyBox U).
(** [ErasedActorFactory]: its type name and [create_erased]. *)
Record ErasedActorFactory := mkErasedFactory {
  actor_type_name : string;
  create_erased : bytes → AnyBox U → result SerializationError (AnyBox U)
}.

Record TypeRegistry := mkRegistry {
  reg_deserializers : gmap string DeserializerFn;
  factories : gmap string FactoryFn;
  actor_factories : gmap string ErasedActorFactory
}.
Definition TypeRegistry_new : TypeRegistry := mkRegistry ∅ ∅ ∅.

Definition register (type_name : string) (d : DeserializerFn) (r : TypeRegistry) : TypeRegistry :=
  mkRegistry (<[type_name := d]> (reg_deserializers r)) (factories r) (actor_factories r).

(** [register_type::<M>()], [M] given by its name and its [serde_json]
    decoder; an error shows as the text [e]. *)
Definition register_type (M : string) (from_slice : bytes → result string U)
    (r : TypeRegistry) : TypeRegistry :=
  register M (λ b,
    value ← map_err (λ e, SerializationError_new ("failed to deserialize " +:+ M +:+ ": " +:+ e))
              (from_slice b);
    Ok (mkAny M value)) r.

Definition deserialize (r : TypeRegistry) (type_name : string) (b : bytes) :
    result SerializationError (AnyBox U) :=
  d ← ok_or (reg_deserializers r !! type_name)
        (SerializationError_new ("no deserializer registered for '" +:+ type_name +:+ "'"));
  d b.
Definition has_type (r : TypeRegistry) (type_name : string) : bool :=
  bool_decide (is_Some (reg_deserializers r !! type_name)).
Definition type_count (r : TypeRegistry) : nat := size (reg_deserializers r).

Definition register_factory (type_name : string) (f : FactoryFn) (r : TypeRegistry) : TypeRegistry :=
  mkRegistry (reg_deserializers r) (<[type_name := f]> (factories r)) (actor_factories r).

(** [register_actor::<A>(deps)]: [create] is [A::create] on the decoded [Args]. *)
Definition register_actor {Args Deps : Type} (A : string)
    (from_slice : bytes → result string Args) (create : Args → Deps → U) (deps : Deps)
    (r : TypeRegistry) : TypeRegistry :=
  register_factory A (λ b,
    args ← map_err (λ e, SerializationError_new
                          ("failed to deserialize args for " +:+ A +:+ ": " +:+ e))
             (from_slice b);
    Ok (mkAny A (create args deps))) r.

Definition create_actor (r : TypeRegistry) (type_name : string) (args_bytes : bytes) :
    result SerializationError (AnyBox U) :=
  f ← ok_or (factories r !! type_name)
        (SerializationError_new ("no actor factory registered for '" +:+ type_name +:+ "'"));
  f args_bytes.
Definition has_factory (r : TypeRegistry) (type_name : string) : bool :=
  bool_decide (is_Some (factories r !! type_name))
  || bool_decide (is_Some (actor_factories r !! type_name)).
Definition factory_count (r : TypeRegistry) : nat :=
  size (factories r) + size (actor_factories r).

Definition register_actor_factory (type_name : string) (f : ErasedActorFactory)
    (r : TypeRegistry) : TypeRegistry :=
  mkRegistry (reg_deserializers r) (factories r) (<[type_name := f]> (actor_factories r)).
Definition create_actor_with_deps (r : TypeRegistry) (type_name : string) (args_bytes : bytes)
    (deps : AnyBox U) : result SerializationError (AnyBox U) :=
  f ← ok_or (actor_factories r !! type_name)
        (SerializationError_new
           ("no actor factory (trait-based) registered for '" +:+ type_name +:+ "'"));
  create_erased f args_bytes deps.

(** [JsonActorFactory::<A>]: [Deps] is the name of [A::Deps]. *)
Section json_factory.
Context {Args : Type} (A Deps : string)
  (from_slice : bytes → result string Args) (create : Args → U → U).

Definition create_from_bytes (args_bytes : bytes) (deps : U) : result SerializationError U :=
  args ← map_err (λ e, SerializationError_new
                        ("failed to deserialize args for " +:+ A +:+ ": " +:+ e))
           (from_slice args_bytes);
  Ok (create args deps).
Definition JsonActorFactory : ErasedActorFactory :=
  mkErasedFactory A (λ args_bytes deps,
    deps ← ok_or (downcast Deps deps)
             (SerializationError_new
                ("deps type mismatch for " +:+ A +:+ ": expected " +:+ Deps));
    actor ← create_from_bytes args_bytes deps;
    Ok (mkAny A actor)).
End json_factory.

(** ** Envelope builders *)
(** [to_vec] is [serde_json::to_vec] on [M], the text of its error on failure. *)
Section builders.
Context {M : Type} (type_name : string) (to_vec : M → result string bytes).

Definition serialize_typed (value : M) : result SerializationError bytes :=
  map_err (λ e, SerializationError_new ("json serialize: " +:+ e)) (to_vec value).

Definition build_wire_envelope (target : ActorId) (target_name : string) (msg : M)
    (mode : SendMode) (h : WireHeaders) (request_id : option Uuid) (version : option N) :
    result SerializationError WireEnvelope :=
  body ← serialize_typed msg;
  Ok (mkWireEnvelope target target_name type_name mode h body request_id version).
Definition build_tell_envelope (target : ActorId) (target_name : string) (msg : M)
    (h : WireHeaders) : result SerializationError WireEnvelope :=
  body ← serialize_typed msg;
  Ok (mkWireEnvelope target target_name type_name Tell h body None None).
Definition build_ask_envelope (target : ActorId) (target_name : string) (msg : M)
    (h : WireHeaders) (request_id : Uuid) : result SerializationError WireEnvelope :=
  body ← serialize_typed msg;
  Ok (mkWireEnvelope target target_name type_name Ask h body (Some request_id) None).
End builders.

(** ** The receive side *)
Definition receive_envelope_body (e : WireEnvelope) (r : TypeRegistry) :
    result SerializationError (AnyBox U) :=
  deserialize r (message_type e) (body e).

(** [MessageVersionHandler::migrate]. *)
Definition MessageVersionHandler := bytes → N → N → option bytes.

Definition receive_envelope_body_versioned (e : WireEnvelope) (r : TypeRegistry)
    (version_handlers : gmap string MessageVersionHandler) (expected_version : option N) :
    result SerializationError (AnyBox U) :=
  b ←
    match version e, expected_version with
    | Some received, Some expected =>
        if decide (received = expected) then Ok (body e)
        else match version_handlers !! message_type e with
             | Some migrate =>
                 ok_or (migrate (body e) received expected)
                   (SerializationError_new
                      (message_type e +:+ ": cannot migrate from v" +:+ pretty received
                       +:+ " to v" +:+ pretty expected))
             | None => Ok (body e)
             end
    | _, _ => Ok (body e)
    end;
  deserialize r (message_type e) b.
End registry.
Arguments TypeRegistry : clear implicits.

(** ** Lemmas *)
Lemma deserialize_register {U} (r : TypeRegistry U) T d b :
  deserialize (register T d r) T b = d b.
Proof. unfold deserialize. simpl. by rewrite lookup_insert_eq. Qed.
Lemma deserialize_register_ne {U} (r : TypeRegistry U) T T' d b :
  T ≠ T' → deserialize (register T d r) T' b = deserialize r T' b.
Proof. intros. unfold deserialize. simpl. by rewrite lookup_insert_ne. Qed.

(** A registry in which [M] was registered last under its own name, other types
    and factories at any time. *)
Inductive knows {U} (M : string) (from_slice : bytes → result string U) : TypeRegistry U → Prop :=
  | knows_here r : knows M from_slice (register_type M from_slice r)
  | knows_register r T d : T ≠ M → knows M from_slice r → knows M from_slice (register T d r)
  | knows_factory r T f : knows M from_slice r → knows M from_slice (register_factory T f r)
  | knows_actor_factory r T f :
      knows M from_slice r → knows M from_slice (register_actor_factory T f r).

Lemma knows_deserialize {U} M (from_slice : bytes → result string U) r b :
  knows M from_slice r →
  deserialize r M b
  = map_err (λ e, SerializationError_new ("failed to deserialize " +:+ M +:+ ": " +:+ e))
      (mkAny M <$> from_slice b).
Proof.
  induction 1 as [r|r T d Hne Hr IH|r T f Hr IH|r T f Hr IH]; [|by rewrite deserialize_register_ne|done..].
  unfold register_type. rewrite deserialize_register. by destruct (from_slice b).
Qed.

(** ** The properties *)
Module Spec.
Section spec.
Context {U : Type} (M : string) (to_vec : U → result string bytes)
  (from_slice : bytes → result string U).
(** The documented round trip of [serde_json] for the type. *)
Context (serde_roundtrip : ∀ m b, to_vec m = Ok b → from_slice b = Ok m).

(** A message that can be encoded reaches the other side: built into an
    envelope in any mode, with any headers, ids and version, and received with
    any registry that knows its type, it comes back as the same value under
    its own type, with or without the version check (no handler, or equal
    versions); and a registered handler gets the received body with both
    versions, its refusal is an error, and what it returns is decoded in place
    of the body. *)
Theorem wire_body_roundtrip r target name m mode h rid v e handlers expected :
  knows M from_slice r →
  build_wire_envelope M to_vec target name m mode h rid v = Ok e →
  receive_envelope_body e r = Ok (mkAny M m)
  ∧ receive_envelope_body_versioned e r handlers expected
    = match v, expected, handlers !! M with
      | Some got, Some want, Some migrate =>
          if decide (got = want) then Ok (mkAny M m)
          else match migrate (body e) got want with
               | Some b => deserialize r M b
               | None => Err (SerializationError_new (M +:+ ": cannot migrate from v"
                                +:+ pretty got +:+ " to v" +:+ pretty want))
               end
      | _, _, _ => Ok (mkAny M m)
      end.
Proof.
  intros Hk Hb. unfold build_wire_envelope, serialize_typed in Hb.
  destruct (to_vec m) as [b|] eqn:Hv; [|done]. injection Hb as <-.
  assert (deserialize r M b = Ok (mkAny M m)) as Hd.
  { rewrite (knows_deserialize M from_slice r b Hk). by rewrite (serde_roundtrip _ _ Hv). }
  unfold receive_envelope_body, receive_envelope_body_versioned. simpl.
  split; [done|]. destruct v as [got|], expected as [want|]; simpl;
    try (destruct (handlers !! M); exact Hd); try exact Hd.
  destruct (decide (got = want)), (handlers !! M) as [mg|]; try done.
  by destruct (mg b got want).
Qed.
End spec.

(** A toy codec: one byte per value below 256. *)
Definition toy_to_vec (m : N) : result string bytes :=
  match Byte.of_N m with Some b => Ok [b] | None => Err "too big" end.
Definition toy_from_slice (b : bytes) : result string N :=
  match b with [x] => Ok (Byte.to_N x) | _ => Err "eof" end.
Definition toy_registry : TypeRegistry N :=
  register "Other" (λ _, Err (SerializationError_new "x"))
    (register_type "M" toy_from_slice TypeRegistry_new).
Lemma wire_body_roundtrip_witness :
  let e := mkWireEnvelope (mkActorId (mkNodeId "n") 1) "a" "M" Ask WireHeaders_new
             [x07] (Some 9%N) (Some 2%N) in
  receive_envelope_body e toy_registry = Ok (mkAny "M" 7%N)
  ∧ receive_envelope_body_versioned e toy_registry {["M" := λ _ _ _, None]} (Some 3%N)
    = Err (SerializationError_new "M: cannot migrate from v2 to v3").
Proof.
  destruct (wire_body_roundtrip "M" toy_to_vec toy_from_slice) with
    (r := toy_registry) (target := mkActorId (mkNodeId "n") 1) (name := "a") (m := 7%N)
    (mode := Ask) (h := WireHeaders_new) (rid := Some 9%N) (v := Some 2%N)
    (e := mkWireEnvelope (mkActorId (mkNodeId "n") 1) "a" "M" Ask WireHeaders_new
             [x07] (Some 9%N) (Some 2%N))
    (handlers := {["M" := λ (_ : bytes) (_ _ : N), @None bytes]} : gmap string MessageVersionHandler)
    (expected := Some 3%N) as [H1 H2].
  - unfold toy_to_vec. intros m b. destruct (Byte.of_N m) as [x|] eqn:Hx; [|done].
    intros [= <-]. simpl. by rewrite (Byte.to_of_N m Hx).
  - apply knows_register; [done|]. constructor.
  - reflexivity.
  - split; [exact H1|]. simpl in H2 |- *. rewrite H2. by vm_compute.
Defined.
End Spec.
