(* ===== verification/ActorRef.v ===== *)
(** * Actor references (the [ActorRef] trait of dactor/src/actor.rs)

    The interface that pools, broadcast groups and worker references are
    written against. An operation runs on a world [W] (mailboxes, atomics, the
    other actors) and may panic: [RT W A] is the monad. The generic methods of
    the trait are taken at one message type [Msg], with the reply handle
    [Rep] ([AskReply]) and the stream type [Str] ([BoxStream]). *)
From S2P Require Import Prelude Node Stream.

(** ** State and panic *)
Definition RT (W A : Type) : Type := W → option (A * W).

#[export] Instance RT_ret {W} : MRet (RT W) := λ A a w, Some (a, w).
#[export] Instance RT_bind {W} : MBind (RT W) := λ A B f m w,
  match m w with Some (a, w') => f a w' | None => None end.

Definition panic {W A} : RT W A := λ _, None.
(** [v[i]] panics out of range; [unwrap] and [expect] on [None]. *)
Definition unwrap {W A} (o : option A) : RT W A :=
  match o with Some a => mret a | None => panic end.

Lemma RT_bind_ret {W A B} (a : A) (f : A → RT W B) w : (mret a ≫= f) w = f a w.
Proof. done. Qed.
Lemma RT_bind_Some {W A B} (m : RT W A) (f : A → RT W B) w a w' :
  m w = Some (a, w') → (m ≫= f) w = f a w'.
Proof. intros H. unfold mbind, RT_bind. by rewrite H. Qed.
Lemma RT_bind_None {W A B} (m : RT W A) (f : A → RT W B) w :
  m w = None → (m ≫= f) w = None.
Proof. intros H. unfold mbind, RT_bind. by rewrite H. Qed.

(** [for x in l { f(x) }] collecting the results. *)
Fixpoint mapM_RT {W A B} (f : A → RT W B) (l : list A) : RT W (list B) :=
  match l with
  | [] => mret []
  | x :: l' => y ← f x; ys ← mapM_RT f l'; mret (y :: ys)
  end.

Lemma mapM_RT_length {W A B} (f : A → RT W B) l w ys w' :
  mapM_RT f l w = Some (ys, w') → length ys = length l.
Proof.
  revert w ys. induction l as [|x l IH]; intros w ys; simpl.
  { by intros [= <- <-]. }
  unfold mbind, RT_bind. destruct (f x w) as [[y w1]|]; [|done].
  destruct (mapM_RT f l w1) as [[ys1 w2]|] eqn:Hl; [|done].
  intros [= <- <-]. simpl. by rewrite (IH _ _ Hl).
Qed.

(** ** The trait *)
Abbreviation Token := N.

Class ActorRef (R W Msg Rep Str : Type) := {
  ar_id : R → ActorId;
  ar_name : R → string;
  ar_is_alive : R → RT W bool;
  ar_pending : R → RT W N;
  ar_stop : R → RT W ();
  ar_tell : Msg → R → RT W (result ActorSendError ());
  ar_ask : Msg → option Token → R → RT W (result ActorSendError Rep);
  ar_expand : Msg → nat → option BatchConfig → option Token → R →
    RT W (result ActorSendError Str);
  ar_reduce : Str → nat → option BatchConfig → option Token → R →
    RT W (result ActorSendError Rep);
  ar_transform : Str → nat → option BatchConfig → option Token → R →
    RT W (result ActorSendError Str)
}.

(** ** Atomic counters: [AtomicU64] cells of the world, by address *)
Class Atomics (W : Type) := {
  atomic_load : N → W → N;
  atomic_store : N → N → W → W;
  atomic_load_store a v w : atomic_load a (atomic_store a v w) = v
}.
(** [fetch_add(1, Relaxed)], which wraps. *)
Definition fetch_add {W} `{Atomics W} (a : N) : RT W N := λ w,
  let old := atomic_load a w in
  Some (old, atomic_store a (wrapping_add64 old 1) w).

(** ** Worker references (dactor/src/worker_ref.rs) *)
Section worker.
Context {L Rm W Msg Rep Str : Type} `{ActorRef L W Msg Rep Str} `{ActorRef Rm W Msg Rep Str}.

Inductive WorkerRef := Local (r : L) | Remote (r : Rm).

Definition worker_id (x : WorkerRef) : ActorId :=
  match x with Local r => ar_id r | Remote r => ar_id r end.
Definition worker_name (x : WorkerRef) : string :=
  match x with Local r => ar_name r | Remote r => ar_name r end.
Definition worker_is_alive (x : WorkerRef) : RT W bool :=
  match x with Local r => ar_is_alive r | Remote r => ar_is_alive r end.
Definition worker_pending_messages (x : WorkerRef) : RT W N :=
  match x with Local r => ar_pending r | Remote r => ar_pending r end.
Definition worker_stop (x : WorkerRef) : RT W () :=
  match x with Local r => ar_stop r | Remote r => ar_stop r end.
Definition worker_tell (msg : Msg) (x : WorkerRef) : RT W (result ActorSendError ()) :=
  match x with Local r => ar_tell msg r | Remote r => ar_tell msg r end.
Definition worker_ask (msg : Msg) (cancel : option Token) (x : WorkerRef) :
    RT W (result ActorSendError Rep) :=
  match x with Local r => ar_ask msg cancel r | Remote r => ar_ask msg cancel r end.
Definition worker_expand (msg : Msg) (buffer : nat) (cfg : option BatchConfig)
    (cancel : option Token) (x : WorkerRef) : RT W (result ActorSendError Str) :=
  match x with
  | Local r => ar_expand msg buffer cfg cancel r
  | Remote r => ar_expand msg buffer cfg cancel r
  end.
Definition worker_reduce (input : Str) (buffer : nat) (cfg : option BatchConfig)
    (cancel : option Token) (x : WorkerRef) : RT W (result ActorSendError Rep) :=
  match x with
  | Local r => ar_reduce input buffer cfg cancel r
  | Remote r => ar_reduce input buffer cfg cancel r
  end.
Definition worker_transform (input : Str) (buffer : nat) (cfg : option BatchConfig)
    (cancel : option Token) (x : WorkerRef) : RT W (result ActorSendError Str) :=
  match x with
  | Local r => ar_transform input buffer cfg cancel r
  | Remote r => ar_transform input buffer cfg cancel r
  end.
Definition is_local (x : WorkerRef) : bool := match x with Local _ => true | _ => false end.
Definition is_remote (x : WorkerRef) : bool := match x with Remote _ => true | _ => false end.

#[export] Instance WorkerRef_ActorRef : ActorRef WorkerRef W Msg Rep Str := {|
  ar_id := worker_id; ar_name := worker_name; ar_is_alive := worker_is_alive;
  ar_pending := worker_pending_messages; ar_stop := worker_stop; ar_tell := worker_tell;
  ar_ask := worker_ask; ar_expand := worker_expand; ar_reduce := worker_reduce;
  ar_transform := worker_transform
|}.
End worker.
Arguments WorkerRef : clear implicits.

(** ** A world to run things in, for the witnesses
    Atomic cells, a mailbox per actor with a capacity, and the load each actor
    reports at the next readings (the mailbox length when the script is over). *)
Record TestWorld := mkTestWorld {
  cells : gmap N N;
  boxes : gmap N (list nat);
  box_cap : nat;
  reported : list N
}.
#[export] Instance TestWorld_atomics : Atomics TestWorld.
Proof.
  refine (Build_Atomics _ (λ a w, default 0%N (cells w !! a))
    (λ a v w, mkTestWorld (<[a := v]> (cells w)) (boxes w) (box_cap w) (reported w)) _).
  intros. simpl. by rewrite lookup_insert_eq.
Defined.
Definition box (n : N) (w : TestWorld) : list nat := default [] (boxes w !! n).
Definition test_pending (n : N) : RT TestWorld N := λ w,
  match reported w with
  | x :: rest => Some (x, mkTestWorld (cells w) (boxes w) (box_cap w) rest)
  | [] => Some (len_N (box n w), w)
  end.
Definition test_tell (m : nat) (n : N) : RT TestWorld (result ActorSendError ()) := λ w,
  if (box_cap w <=? length (box n w))%nat then Some (Err (mkActorSendError "mailbox full"%string), w)
  else Some (Ok (), mkTestWorld (cells w) (<[n := box n w ++ [m]]> (boxes w)) (box_cap w)
                      (reported w)).
#[export] Instance TestRef : ActorRef N TestWorld nat nat (list nat) := {|
  ar_id n := mkActorId (mkNodeId "t"%string) n;
  ar_name n := pretty n;
  ar_is_alive _ := mret true;
  ar_pending := test_pending;
  ar_stop _ := mret ();
  ar_tell := test_tell;
  ar_ask m _ _ := mret (Ok m);
  ar_expand m _ _ _ _ := mret (Ok [m]);
  ar_reduce s _ _ _ _ := mret (Ok (length s));
  ar_transform s _ _ _ _ := mret (Ok s)
|}.
Definition test_world : TestWorld := mkTestWorld ∅ ∅ 8 [].
