(* ===== verification/Pool.v ===== *)
(** * Actor pools (dactor/src/pool.rs)

    Worker selection and the [ActorRef] implementation of [PoolRef]. The
    counter is an [AtomicU64] the clones of a pool share: a cell of the world.
    A load is read from the worker each time the code reads it. *)
From S2P Require Import Prelude Node Stream ActorRef.

#[local] Open Scope string_scope.
#[local] Open Scope list_scope.
#[local] Open Scope nat_scope.

Inductive PoolRouting := RoundRobin | Random | KeyBased | LeastLoaded.

#[export] Instance PoolRouting_eq_dec : EqDecision PoolRouting.
Proof. solve_decision. Defined.

Record PoolConfig := mkPoolConfig { cfg_pool_size : nat; cfg_routing : PoolRouting }.

(** ** splitmix64 *)
Definition splitmix64 (x : N) : N :=
  let x := wrapping_add64 x 0x9e3779b97f4a7c15 in
  let x := wrapping_mul64 (N.lxor x (N.shiftr x 30)) 0xbf58476d1ce4e5b9 in
  let x := wrapping_mul64 (N.lxor x (N.shiftr x 27)) 0x94d049bb133111eb in
  N.lxor x (N.shiftr x 31).

(** ** Selection on a list of loads, shared with the virtual pool *)
(** [iter().min().unwrap_or(0)]. *)
Definition min_load (loads : list N) : N :=
  match loads with [] => 0%N | x :: l => foldl N.min x l end.
(** [enumerate().filter(|(_, w)| load == min).map(|(i, _)| i)]. *)
Definition tied (min : N) (loads : list N) : list nat :=
  (retain (λ q, (q.2 =? min)%N) (imap pair loads)).*1.

Section pool.
Context {R W Msg Rep Str : Type} `{ActorRef R W Msg Rep Str} `{Atomics W}.

Record PoolRef := mkPoolRef {
  workers : list R;
  routing : PoolRouting;
  counter : N;
  pool_id : N;
  pool_name : string
}.

(** [next_id] is the address of [NEXT_POOL_ID], [cell] a fresh cell for the
    pool's own counter. *)
Definition PoolRef_new (next_id cell : N) (ws : list R) (r : PoolRouting) : RT W PoolRef :=
  match ws with
  | [] => panic
  | w0 :: _ =>
      id ← fetch_add next_id;
      _ ← (λ w, Some ((), atomic_store cell 0 w)) : RT W ();
      mret (mkPoolRef ws r cell id ("pool(" +:+ ar_name w0 +:+ ")"))
  end.

Definition pool_size (p : PoolRef) : nat := length (workers p).

Definition round_robin_index (p : PoolRef) : RT W nat :=
  idx ← fetch_add (counter p); mret (N.to_nat (idx mod len_N (workers p))).
Definition random_index (p : PoolRef) : RT W nat :=
  raw ← fetch_add (counter p);
  mret (N.to_nat (splitmix64 raw mod len_N (workers p))).
Definition keyed_index (p : PoolRef) (key : N) : nat :=
  N.to_nat (key mod len_N (workers p)).

(** The remainder by the number of candidates panics when there are none. *)
Definition least_loaded_index (p : PoolRef) : RT W nat :=
  loads ← mapM_RT ar_pending (workers p);
  let min := min_load loads in
  loads' ← mapM_RT ar_pending (workers p);
  let candidates := tied min loads' in
  match candidates with
  | [c] => mret c
  | _ =>
      idx ← fetch_add (counter p);
      match candidates with
      | [] => panic
      | _ => unwrap (candidates !! N.to_nat (idx mod len_N candidates))
      end
  end.

Definition select_worker (p : PoolRef) : RT W R :=
  idx ← match routing p with
        | RoundRobin | KeyBased => round_robin_index p
        | Random => random_index p
        | LeastLoaded => least_loaded_index p
        end;
  unwrap (workers p !! idx).

Definition tell_keyed (msg : Msg) (routing_key : N) (p : PoolRef) :
    RT W (result ActorSendError ()) :=
  w ← unwrap (workers p !! keyed_index p routing_key); ar_tell msg w.
Definition ask_keyed (msg : Msg) (routing_key : N) (cancel : option Token) (p : PoolRef) :
    RT W (result ActorSendError Rep) :=
  w ← unwrap (workers p !! keyed_index p routing_key); ar_ask msg cancel w.

(** ** [impl ActorRef<A> for PoolRef] *)
Definition PoolRef_id (p : PoolRef) : ActorId := mkActorId (mkNodeId "pool") (pool_id p).
(** [any] stops at the first living worker. *)
Fixpoint any_alive (ws : list R) : RT W bool :=
  match ws with
  | [] => mret false
  | w :: rest => a ← ar_is_alive w; if a : bool then mret true else any_alive rest
  end.
Definition PoolRef_is_alive (p : PoolRef) : RT W bool := any_alive (workers p).
Definition PoolRef_stop (p : PoolRef) : RT W () :=
  _ ← mapM_RT ar_stop (workers p); mret ().
Definition PoolRef_tell (msg : Msg) (p : PoolRef) : RT W (result ActorSendError ()) :=
  w ← select_worker p; ar_tell msg w.
Definition PoolRef_ask (msg : Msg) (cancel : option Token) (p : PoolRef) :
    RT W (result ActorSendError Rep) :=
  w ← select_worker p; ar_ask msg cancel w.
Definition PoolRef_expand (msg : Msg) (buffer : nat) (cfg : option BatchConfig)
    (cancel : option Token) (p : PoolRef) : RT W (result ActorSendError Str) :=
  w ← select_worker p; ar_expand msg buffer cfg cancel w.
Definition PoolRef_reduce (input : Str) (buffer : nat) (cfg : option BatchConfig)
    (cancel : option Token) (p : PoolRef) : RT W (result ActorSendError Rep) :=
  w ← select_worker p; ar_reduce input buffer cfg cancel w.
Definition PoolRef_transform (input : Str) (buffer : nat) (cfg : option BatchConfig)
    (cancel : option Token) (p : PoolRef) : RT W (result ActorSendError Str) :=
  w ← select_worker p; ar_transform input buffer cfg cancel w.

(** The trait's default [pending_messages] is 0. *)
#[export] Instance PoolRef_ActorRef : ActorRef PoolRef W Msg Rep Str := {|
  ar_id := PoolRef_id; ar_name := pool_name; ar_is_alive := PoolRef_is_alive;
  ar_pending _ := mret 0%N; ar_stop := PoolRef_stop; ar_tell := PoolRef_tell;
  ar_ask := PoolRef_ask; ar_expand := PoolRef_expand; ar_reduce := PoolRef_reduce;
  ar_transform := PoolRef_transform
|}.

(** [n] selections in a row, as indices. *)
Fixpoint indices (pick : RT W nat) (n : nat) : RT W (list nat) :=
  match n with
  | 0 => mret []
  | S n => i ← pick; l ← indices pick n; mret (i :: l)
  end.
End pool.
Arguments PoolRef : clear implicits.

(** ** splitmix64 is invertible *)
Definition xorshift (k x : N) : N := N.lxor x (N.shiftr x k).

Lemma shiftr_eq_0 x k : (x < 2 ^ 64)%N → (64 <= k)%N → N.shiftr x k = 0%N.
Proof.
  intros Hx Hk. rewrite N.shiftr_div_pow2. apply N.div_small.
  eapply N.lt_le_trans; [done|]. by apply N.pow_le_mono_r.
Qed.

(** Two steps undo a shift of at least 22 bits. *)
Lemma xorshift_inv k x : (x < 2 ^ 64)%N → (22 <= k)%N →
  N.lxor (xorshift k x) (N.lxor (N.shiftr (xorshift k x) k) (N.shiftr (xorshift k x) (k + k))) = x.
Proof.
  intros Hx Hk. unfold xorshift. rewrite !N.shiftr_lxor, !N.shiftr_shiftr.
  assert (N.shiftr x (k + (k + k)) = 0%N) as -> by (apply shiftr_eq_0; [done|lia]).
  rewrite N.lxor_0_r, (N.lxor_assoc (N.shiftr x k)), N.lxor_nilpotent, N.lxor_0_r.
  by rewrite N.lxor_assoc, N.lxor_nilpotent, N.lxor_0_r.
Qed.
Lemma lxor_lt x y : (x < 2 ^ 64)%N → (y < 2 ^ 64)%N → (N.lxor x y < 2 ^ 64)%N.
Proof.
  intros Hx Hy. destruct (decide (N.lxor x y = 0%N)) as [->|Hne]; [done|].
  apply N.log2_lt_pow2; [lia|]. eapply N.le_lt_trans; [apply N.log2_lxor|].
  apply N.max_lub_lt; (destruct (decide (x = 0%N)) as [->|]; [by vm_compute|]) ||
    (destruct (decide (y = 0%N)) as [->|]; [by vm_compute|]); apply N.log2_lt_pow2; lia.
Qed.
Lemma shiftr_le x k : (N.shiftr x k <= x)%N.
Proof.
  rewrite N.shiftr_div_pow2. apply N.Div0.div_le_upper_bound.
  assert (1 <= 2 ^ k)%N by (apply N.lt_pred_le, N.neq_0_lt_0, N.pow_nonzero; done). nia.
Qed.
Lemma xorshift_lt k x : (x < 2 ^ 64)%N → (xorshift k x < 2 ^ 64)%N.
Proof. intros Hx. apply lxor_lt; [done|]. pose proof (shiftr_le x k). lia. Qed.

Lemma wrapping_mul_inv c d x :
  (x < 2 ^ 64)%N → ((c * d) mod 2 ^ 64 = 1)%N → wrapping_mul64 (wrapping_mul64 x c) d = x.
Proof.
  intros Hx Hcd. unfold wrapping_mul64, wrap64.
  rewrite N.Div0.mul_mod_idemp_l, <-N.mul_assoc, <-N.Div0.mul_mod_idemp_r, Hcd, N.mul_1_r.
  by apply N.mod_small.
Qed.
Lemma wrapping_add_inv c x :
  (x < 2 ^ 64)%N → (c < 2 ^ 64)%N → wrapping_add64 (wrapping_add64 x c) (2 ^ 64 - c) = x.
Proof.
  intros Hx Hc. unfold wrapping_add64, wrap64. rewrite N.Div0.add_mod_idemp_l.
  replace (x + c + (2 ^ 64 - c))%N with (x + 1 * 2 ^ 64)%N by lia.
  rewrite N.Div0.mod_add. by apply N.mod_small.
Qed.

(** The inverse, step by step. *)
Definition unxorshift (k y : N) : N := N.lxor y (N.lxor (N.shiftr y k) (N.shiftr y (k + k))).
Definition unsplitmix64 (y : N) : N :=
  let y := unxorshift 31 y in
  let y := unxorshift 27 (wrapping_mul64 y 0x319642b2d24d8ec3) in
  let y := unxorshift 30 (wrapping_mul64 y 0x96de1b173f119089) in
  wrapping_add64 y (2 ^ 64 - 0x9e3779b97f4a7c15).

Lemma splitmix64_inv x : (x < 2 ^ 64)%N → unsplitmix64 (splitmix64 x) = x.
Proof.
  intros Hx. unfold splitmix64. cbv zeta.
  fold (xorshift 30 (wrapping_add64 x 0x9e3779b97f4a7c15)).
  set (a := wrapping_add64 x 0x9e3779b97f4a7c15).
  set (b := wrapping_mul64 (xorshift 30 a) 0xbf58476d1ce4e5b9). fold (xorshift 27 b).
  set (c := wrapping_mul64 (xorshift 27 b) 0x94d049bb133111eb). fold (xorshift 31 c).
  assert (a < 2 ^ 64)%N as Ha by apply wrap64_lt.
  assert (b < 2 ^ 64)%N as Hb by apply wrap64_lt.
  assert (c < 2 ^ 64)%N as Hc by apply wrap64_lt.
  unfold unsplitmix64. cbv zeta.
  assert (unxorshift 31 (xorshift 31 c) = c) as -> by by apply xorshift_inv.
  unfold c at 1. rewrite wrapping_mul_inv by (by apply xorshift_lt || by vm_compute).
  assert (unxorshift 27 (xorshift 27 b) = b) as -> by by apply xorshift_inv.
  unfold b at 1. rewrite wrapping_mul_inv by (by apply xorshift_lt || by vm_compute).
  assert (unxorshift 30 (xorshift 30 a) = a) as -> by by apply xorshift_inv.
  unfold a. by apply wrapping_add_inv.
Qed.

(** ** Selection *)
Lemma min_load_spec loads :
  loads ≠ [] → min_load loads ∈ loads ∧ Forall (λ x, (min_load loads <= x)%N) loads.
Proof.
  destruct loads as [|x l]; [done|]. intros _. simpl.
  assert (∀ m, (foldl N.min m l = m ∨ foldl N.min m l ∈ l)
    ∧ (foldl N.min m l <= m)%N ∧ Forall (λ y, (foldl N.min m l <= y)%N) l) as Hf.
  { induction l as [|y l IH]; intros m; simpl; [by split; [left|]|].
    destruct (IH (N.min m y)) as (Hin & Hle & Hall). split_and!.
    - destruct Hin as [Heq|Hin]; [|right; by constructor].
      rewrite Heq. destruct (N.min_spec m y) as [[_ ->]|[_ ->]]; [by left|right; by constructor].
    - lia.
    - constructor; [lia|done]. }
  destruct (Hf x) as (Hin & Hle & Hall). split; [|by constructor].
  destruct Hin as [->|]; by constructor.
Qed.

Lemma tied_lookup m loads i : i ∈ tied m loads ↔ loads !! i = Some m.
Proof.
  unfold tied. rewrite list_elem_of_fmap. split.
  - intros ([j x] & -> & Hin). apply elem_of_retain in Hin as [Hin Hx]. simpl in *. bN.
    apply elem_of_lookup_imap in Hin as (k & y & [= -> ->] & Hy). by subst.
  - intros Hi. exists (i, m). split; [done|]. apply elem_of_retain. simpl.
    split; [|by apply N.eqb_refl]. apply elem_of_lookup_imap. eauto.
Qed.

Lemma lookup_mod {A} (l : list A) n :
  l ≠ [] → ∃ x, l !! N.to_nat (n mod len_N l) = Some x ∧ x ∈ l.
Proof.
  intros Hl. destruct (lookup_lt_is_Some_2 l (N.to_nat (n mod len_N l))) as [x Hx].
  - unfold len_N. assert (n mod N.of_nat (length l) < N.of_nat (length l))%N; [|lia].
    apply N.mod_lt. destruct l; [done|]. simpl. lia.
  - exists x. split; [done|]. by eapply list_elem_of_lookup_2.
Qed.

Section pool_lemmas.
Context {R W Msg Rep Str : Type} `{ActorRef R W Msg Rep Str} `{Atomics W}.
Implicit Types p : PoolRef R.

(** A read of the loads that gives [loads] and leaves the world alone. *)
Definition stable (ws : list R) (loads : list N) (w : W) : Prop :=
  mapM_RT ar_pending ws w = Some (loads, w).

Lemma least_loaded_stable p loads w :
  workers p ≠ [] → stable (workers p) loads w →
  ∃ i w', least_loaded_index p w = Some (i, w') ∧ loads !! i = Some (min_load loads)
    ∧ (w' = w ∨ ∃ v, w' = atomic_store (counter p) v w).
Proof.
  intros Hne Hs. unfold stable in Hs.
  pose proof (mapM_RT_length _ _ _ _ _ Hs) as Hlen.
  assert (loads ≠ []) as Hl by (intros ->; by destruct (workers p)).
  destruct (min_load_spec loads Hl) as [[k Hk]%list_elem_of_lookup_1 _].
  assert (k ∈ tied (min_load loads) loads) as Hin by by apply tied_lookup.
  assert (tied (min_load loads) loads ≠ []) as Hc.
  { intros Hx. rewrite Hx in Hin. by apply elem_of_nil in Hin. }
  unfold least_loaded_index. rewrite (RT_bind_Some _ _ _ _ _ Hs).
  rewrite (RT_bind_Some _ _ _ _ _ Hs).
  destruct (lookup_mod (tied (min_load loads) loads) (atomic_load (counter p) w) Hc)
    as (x & Hx & Hxin). apply tied_lookup in Hxin.
  destruct (tied (min_load loads) loads) as [|c [|c' cs]] eqn:Ht; [done| |].
  - exists c, w. split_and!; [done| |by left]. apply tied_lookup. rewrite Ht. constructor.
  - exists x. eexists. split_and!; [|done|right; by eexists].
    unfold fetch_add, mbind, RT_bind. cbv beta zeta. rewrite Hx. done.
Qed.

(** The [n] indices from counter value [c]. *)
Definition rr_indices (k c : N) (n : nat) : list nat :=
  (λ j, N.to_nat (wrap64 (c + N.of_nat j) mod k)) <$> seq 0 n.

Lemma wrapping_step c j :
  wrap64 (wrapping_add64 c 1 + N.of_nat j) = wrap64 (c + N.of_nat (Datatypes.S j)).
Proof.
  unfold wrapping_add64, wrap64. rewrite N.Div0.add_mod_idemp_l. f_equal. lia.
Qed.

Lemma round_robin_indices p n w :
  (atomic_load (counter p) w < 2 ^ 64)%N →
  ∃ w', indices (round_robin_index p) n w
    = Some (rr_indices (len_N (workers p)) (atomic_load (counter p) w) n, w').
Proof.
  revert w. induction n as [|n IH]; intros w Hc; simpl; [by exists w|].
  unfold mbind, RT_bind at 1. unfold round_robin_index at 1, fetch_add, mbind, RT_bind.
  simpl. set (w1 := atomic_store _ _ w).
  assert (atomic_load (counter p) w1 = wrapping_add64 (atomic_load (counter p) w) 1) as Hw1
    by by unfold w1; rewrite atomic_load_store.
  destruct (IH w1) as [w' Hi]; [rewrite Hw1; apply wrap64_lt|].
  unfold mbind, RT_bind in Hi. rewrite Hi, Hw1. exists w'. unfold rr_indices. simpl.
  rewrite N.add_0_r, (wrap64_small (atomic_load _ _)) by done.
  rewrite <-fmap_S_seq, <-list_fmap_compose.
  unfold mret, RT_ret. do 3 f_equal.
  apply list_fmap_ext. intros j x _. simpl. by rewrite wrapping_step.
Qed.
End pool_lemmas.

(** [k] consecutive numbers hit every residue once. *)
Lemma rr_perm k c :
  (c + N.of_nat k <= 2 ^ 64)%N → rr_indices (N.of_nat k) c k ≡ₚ seq 0 k.
Proof.
  intros Hc. apply submseteq_length_Permutation;
    [apply NoDup_submseteq|unfold rr_indices; by rewrite length_fmap, !length_seq].
  - unfold rr_indices. apply NoDup_fmap_2_strong; [|apply NoDup_seq].
    intros i j Hi%elem_of_seq Hj%elem_of_seq Heq.
    rewrite !wrap64_small in Heq by lia. apply N2Nat.inj in Heq.
    assert (∀ i j : nat, i < k → j < k → (i <= j) →
      ((c + N.of_nat i) mod N.of_nat k = (c + N.of_nat j) mod N.of_nat k)%N → i = j) as Hinj.
    { clear. intros i j Hi Hj Hle Heq.
      pose proof (N.div_mod (c + N.of_nat i) (N.of_nat k) ltac:(lia)).
      pose proof (N.div_mod (c + N.of_nat j) (N.of_nat k) ltac:(lia)).
      rewrite Heq in *. generalize dependent ((c + N.of_nat j) mod N.of_nat k)%N.
      generalize ((c + N.of_nat i) / N.of_nat k)%N, ((c + N.of_nat j) / N.of_nat k)%N.
      intros a b r _ Ha Hb. assert (a = b) by nia. subst. lia. }
    destruct (Nat.le_ge_cases i j); [apply Hinj; [lia..|done]|].
    symmetry. apply Hinj; [lia..|done].
  - intros i Hi. apply elem_of_seq. unfold rr_indices in Hi.
    apply list_elem_of_fmap in Hi as (j & -> & Hj%elem_of_seq).
    pose proof (N.mod_lt (wrap64 (c + N.of_nat j)) (N.of_nat k) ltac:(lia)) as Hlt.
    revert Hlt. generalize (wrap64 (c + N.of_nat j) mod N.of_nat k)%N. lia.
Qed.

(** ** The properties *)
Module Spec.

(** The hash of the random strategy loses nothing: on 64-bit values
    [splitmix64] is injective (its inverse, with the multiplicative inverses of
    the two constants, is [unsplitmix64]) and stays in range, so it is a
    bijection, as its comment says. *)
Theorem splitmix64_bijective x y :
  (x < 2 ^ 64)%N → (y < 2 ^ 64)%N →
  (splitmix64 x < 2 ^ 64)%N ∧ unsplitmix64 (splitmix64 x) = x
  ∧ (splitmix64 x = splitmix64 y → x = y).
Proof.
  intros Hx Hy. split_and!; [|by apply splitmix64_inv|].
  - unfold splitmix64. cbv zeta. by apply xorshift_lt, wrap64_lt.
  - intros Heq. by rewrite <-(splitmix64_inv x Hx), <-(splitmix64_inv y Hy), Heq.
Qed.
Lemma splitmix64_bijective_witness :
  splitmix64 0 = 0xe220a8397b1dcdaf%N ∧ (splitmix64 0 = splitmix64 0 → 0%N = 0%N).
Proof.
  split; [by vm_compute|]. by apply (splitmix64_bijective 0 0).
Defined.

Section spec.
Context {R W Msg Rep Str : Type} `{ActorRef R W Msg Rep Str} `{Atomics W}.
Implicit Types p : PoolRef R.

(** Round-robin is fair: as many consecutive selections as the pool has
    workers hit every worker exactly once, from any counter value from which
    the 64-bit counter does not wrap; in general the [j]-th selection from
    counter [c] takes worker [(c + j mod 2^64) mod n]. *)
Theorem round_robin_fair p n w :
  (atomic_load (counter p) w < 2 ^ 64)%N →
  ∃ w', indices (round_robin_index p) n w
    = Some (rr_indices (len_N (workers p)) (atomic_load (counter p) w) n, w')
  ∧ (n = length (workers p) → (atomic_load (counter p) w + N.of_nat n <= 2 ^ 64)%N →
     rr_indices (len_N (workers p)) (atomic_load (counter p) w) n ≡ₚ seq 0 n).
Proof.
  intros Hc. destruct (round_robin_indices p n w Hc) as [w' Hw']. exists w'.
  split; [done|]. intros -> Hn. by apply rr_perm.
Qed.

(** Selection from a pool, which is never empty: round-robin, random and
    key-based selection always give a worker; least-loaded selection gives one
    whose load is the least, provided the loads do not change between the two
    passes of the scan. *)
Theorem select_worker_total p w :
  workers p ≠ [] →
  match routing p with
  | LeastLoaded => ∀ loads, stable (workers p) loads w →
      ∃ i r w', select_worker p w = Some (r, w') ∧ workers p !! i = Some r
        ∧ loads !! i = Some (min_load loads) ∧ Forall (λ x, (min_load loads <= x)%N) loads
  | _ => ∃ r w', select_worker p w = Some (r, w') ∧ r ∈ workers p
  end.
Proof.
  intros Hne. unfold select_worker. destruct (routing p).
  1,3: destruct (lookup_mod (workers p) (atomic_load (counter p) w) Hne) as (r & Hr & ?);
    exists r; eexists; split; [|done];
    unfold round_robin_index, fetch_add, mbind, RT_bind, mret, RT_ret; simpl; by rewrite Hr.
  - destruct (lookup_mod (workers p) (splitmix64 (atomic_load (counter p) w)) Hne) as (r & Hr & ?).
    exists r. eexists. split; [|done].
    unfold random_index, fetch_add, mbind, RT_bind, mret, RT_ret. simpl. by rewrite Hr.
  - intros loads Hs. destruct (least_loaded_stable p loads w Hne Hs) as (i & w' & Hi & Hl & _).
    pose proof (mapM_RT_length _ _ _ _ _ Hs) as Hlen.
    destruct (lookup_lt_is_Some_2 (workers p) i) as [r Hr].
    { rewrite <-Hlen. by eapply lookup_lt_Some. }
    exists i, r, w'. split_and!; [|done|done|].
    + rewrite (RT_bind_Some _ _ _ _ _ Hi). by rewrite Hr.
    + apply min_load_spec. intros ->. by destruct (workers p).
Qed.
End spec.

Definition sample_pool (r : PoolRouting) : PoolRef N := mkPoolRef [1; 2; 3]%N r 0 1 "pool(1)".
Lemma round_robin_fair_witness :
  ∃ w', indices (round_robin_index (sample_pool RoundRobin)) 3
    (atomic_store 0 7 test_world) = Some ([1; 2; 0], w')
  ∧ [1; 2; 0] ≡ₚ seq 0 3.
Proof.
  destruct (round_robin_fair (sample_pool RoundRobin) 3 (atomic_store 0 7 test_world))
    as (w' & Hw & Hp); [done|]. exists w'. split; [exact Hw|]. by apply Hp.
Defined.
Lemma select_worker_total_witness :
  ∃ i r w', select_worker (sample_pool LeastLoaded) test_world = Some (r, w')
    ∧ [1; 2; 3]%N !! i = Some r
    ∧ [0; 0; 0]%N !! i = Some (min_load [0; 0; 0]%N)
    ∧ Forall (λ x, (min_load [0; 0; 0]%N <= x)%N) [0; 0; 0]%N.
Proof.
  apply (select_worker_total (sample_pool LeastLoaded) test_world); [done|]. reflexivity.
Defined.

(** The two passes of least-loaded selection read the loads twice without
    synchronisation, and the stale minimum is not harmless: whenever no worker
    has, on the second reading, the least load of the first one, selection
    panics (the remainder by zero candidates), from any pool with workers. *)
Theorem least_loaded_panics {R W Msg Rep Str} `{ActorRef R W Msg Rep Str} `{Atomics W}
    (p : PoolRef R) w loads w1 loads' w2 :
  routing p = LeastLoaded →
  mapM_RT ar_pending (workers p) w = Some (loads, w1) →
  mapM_RT ar_pending (workers p) w1 = Some (loads', w2) →
  min_load loads ∉ loads' →
  select_worker p w = None.
Proof.
  intros Hr H1 H2 Hn. unfold select_worker. rewrite Hr. apply RT_bind_None.
  unfold least_loaded_index. rewrite (RT_bind_Some _ _ _ _ _ H1), (RT_bind_Some _ _ _ _ _ H2).
  assert (tied (min_load loads) loads' = []) as ->; [|done].
  apply elem_of_nil_inv. intros i Hi. apply tied_lookup in Hi. destruct Hn.
  by eapply list_elem_of_lookup_2.
Qed.
(** Two workers, idle on the first pass, with a message each on the second. *)
Lemma least_loaded_panics_witness :
  select_worker (mkPoolRef [1; 2]%N LeastLoaded 0 1 "pool(1)")
    (mkTestWorld ∅ ∅ 8 [0; 0; 1; 1]%N) = None.
Proof.
  apply (least_loaded_panics _ _ [0; 0]%N (mkTestWorld ∅ ∅ 8 [1; 1]%N) [1; 1]%N
    (mkTestWorld ∅ ∅ 8 [])); try reflexivity.
  apply (bool_decide_unpack _). vm_compute. exact I.
Defined.
End Spec.
