(* ===== verification/VirtualPool.v ===== *)
(** * Virtual pools (dactor/src/virtual_pool.rs)

    Operations go as closures through a bounded channel to one router task,
    which selects a worker and runs the closure on it. The channel is the
    [Sender] interface; the oneshot channel that carries a result back (the
    bridge) is the parameter [bridge_send]. *)
From S2P Require Import Prelude Node Stream Channel ActorRef Pool.

#[local] Open Scope string_scope.
#[local] Open Scope list_scope.
#[local] Open Scope nat_scope.

Definition DEFAULT_ROUTER_CAPACITY : nat := 1024.

Section vpool.
Context {R W Msg Rep Str : Type} `{ActorRef R W Msg Rep Str}.

(** A [PoolOp] is a closure over the selected worker. *)
Inductive RouterCommand := Op (op : R → RT W ()) | CmdStop.

(** ** The router task *)
(** [*counter = counter.wrapping_add(1)] on the router's own counter. *)
Definition select_worker_index (ws : list R) (r : PoolRouting) (counter : N) :
    RT W (nat * N) :=
  let len := len_N ws in
  match r with
  | RoundRobin | KeyBased =>
      mret (N.to_nat (counter mod len), wrapping_add64 counter 1)
  | Random =>
      let raw := counter in
      mret (N.to_nat (splitmix64 raw mod len), wrapping_add64 counter 1)
  | LeastLoaded =>
      loads ← mapM_RT ar_pending ws;
      let min := min_load loads in
      loads' ← mapM_RT ar_pending ws;
      let candidates := tied min loads' in
      match candidates with
      | [c] => mret (c, counter)
      | [] => panic
      | _ =>
          let idx := counter in
          c ← unwrap (candidates !! N.to_nat (idx mod len_N candidates));
          mret (c, wrapping_add64 counter 1)
      end
  end.

(** One [Op] of the loop. *)
Definition route (ws : list R) (r : PoolRouting) (op : R → RT W ()) (counter : N) : RT W N :=
  sel ← select_worker_index ws r counter;
  worker ← unwrap (ws !! sel.1);
  _ ← op worker;
  mret sel.2.

(** The commands the channel yields, until [Stop] or until it closes; then the
    task clears [alive]. The result is what was left in the channel. *)
Fixpoint router_loop (rx : list RouterCommand) (ws : list R) (r : PoolRouting) (counter : N) :
    RT W (list RouterCommand) :=
  match rx with
  | [] => mret []
  | Op op :: rest => counter ← route ws r op counter; router_loop rest ws r counter
  | CmdStop :: rest => _ ← mapM_RT ar_stop ws; mret rest
  end.

(** ** The handle *)
Context {C : Type} `{Sender RouterCommand C}.

Record VirtualPoolRef := mkVirtualPoolRef {
  ops_tx : C; vp_id : ActorId; vp_name : string; alive : bool
}.

(** [local] is what [NEXT_VPOOL_ID.fetch_add(1)] returned, [ops_tx] the sending
    end of [mpsc::channel(capacity)]; [None] is a failed assertion. *)
Definition with_capacity (ws : list R) (capacity : nat) (local : N) (c : C) :
    option VirtualPoolRef :=
  match ws with
  | [] => None
  | w0 :: _ =>
      if (0 <? capacity)%nat
      then Some (mkVirtualPoolRef c (mkActorId (mkNodeId "vpool") local)
                   ("vpool(" +:+ ar_name w0 +:+ ")") true)
      else None
  end.
Definition new (ws : list R) (local : N) (c : C) : option VirtualPoolRef :=
  with_capacity ws DEFAULT_ROUTER_CAPACITY local c.

Definition is_alive (v : VirtualPoolRef) : bool := alive v.
Definition stop (v : VirtualPoolRef) : VirtualPoolRef :=
  let '(_, c) := mpsc_try_send CmdStop (ops_tx v) in
  mkVirtualPoolRef c (vp_id v) (vp_name v) false.

Definition router_error : ActorSendError :=
  mkActorSendError "virtual pool router stopped or full".

Definition submit (op : R → RT W ()) (v : VirtualPoolRef) :
    result ActorSendError () * VirtualPoolRef :=
  let '(res, c) := mpsc_try_send (Op op) (ops_tx v) in
  (map_err (λ _, router_error) res, mkVirtualPoolRef c (vp_id v) (vp_name v) (alive v)).

(** A failed worker send is only logged. *)
Definition tell_op (msg : Msg) : R → RT W () := λ worker, _ ← ar_tell msg worker; mret ().
Definition tell (msg : Msg) (v : VirtualPoolRef) : result ActorSendError () * VirtualPoolRef :=
  submit (tell_op msg) v.

(** The closures of the other operations send the worker's answer over the
    bridge [b]; the caller gets a handle on it. *)
Section bridged.
Context (send_rep : N → result ActorSendError Rep → RT W ())
        (send_str : N → result ActorSendError Str → RT W ()).

Definition ask (msg : Msg) (cancel : option Token) (b : N) (v : VirtualPoolRef) :
    result ActorSendError N * VirtualPoolRef :=
  let '(res, v) := submit (λ worker, x ← ar_ask msg cancel worker; send_rep b x) v in
  ((λ _, b) <$> res, v).
Definition expand (msg : Msg) (buffer : nat) (cfg : option BatchConfig)
    (cancel : option Token) (b : N) (v : VirtualPoolRef) :
    result ActorSendError N * VirtualPoolRef :=
  let '(res, v) :=
    submit (λ worker, x ← ar_expand msg buffer cfg cancel worker; send_str b x) v in
  ((λ _, b) <$> res, v).
Definition reduce (input : Str) (buffer : nat) (cfg : option BatchConfig)
    (cancel : option Token) (b : N) (v : VirtualPoolRef) :
    result ActorSendError N * VirtualPoolRef :=
  let '(res, v) :=
    submit (λ worker, x ← ar_reduce input buffer cfg cancel worker; send_rep b x) v in
  ((λ _, b) <$> res, v).
Definition transform (input : Str) (buffer : nat) (cfg : option BatchConfig)
    (cancel : option Token) (b : N) (v : VirtualPoolRef) :
    result ActorSendError N * VirtualPoolRef :=
  let '(res, v) :=
    submit (λ worker, x ← ar_transform input buffer cfg cancel worker; send_str b x) v in
  ((λ _, b) <$> res, v).
End bridged.

(** What the caller's handle resolves to: [bridge] is what came over the bridge
    ([None] when the router dropped the closure), [await] the reply of a
    worker's handle, [what] the operation in the message. *)
Definition flatten_reply {V} (await : Rep → result RuntimeError V) (what : string)
    (bridge : option (result ActorSendError Rep)) : result RuntimeError V :=
  match bridge with
  | Some (Ok ask_reply) => await ask_reply
  | Some (Err send_err) => Err (RSend send_err)
  | None => Err (ActorNotFoundError ("virtual pool router dropped before forwarding " +:+ what))
  end.
Definition flatten_stream {T} (items : Str → list T)
    (bridge : option (result ActorSendError Str)) : list T :=
  match bridge with Some (Ok inner) => items inner | _ => [] end.

(** ** Lemmas *)
(** [router_loop] runs the operations up to the first [Stop]. *)
Fixpoint run_ops (ops : list (R → RT W ())) (ws : list R) (r : PoolRouting) (counter : N) :
    RT W N :=
  match ops with
  | [] => mret counter
  | op :: rest => counter ← route ws r op counter; run_ops rest ws r counter
  end.
Lemma router_loop_ops ops rest ws r c w :
  router_loop ((Op <$> ops) ++ rest) ws r c w
  = (c' ← run_ops ops ws r c; router_loop rest ws r c') w.
Proof.
  revert c w. induction ops as [|op ops IH]; intros c w; [done|]. simpl.
  unfold mbind, RT_bind. destruct (route ws r op c w) as [[c1 w1]|]; [|done].
  rewrite IH. done.
Qed.
End vpool.
Arguments RouterCommand : clear implicits.
Arguments VirtualPoolRef : clear implicits.

(** ** The properties *)
Module Spec.
Section spec.
Context {R W Msg Rep Str : Type} `{ActorRef R W Msg Rep Str} `{Atomics W}.

(** The router selects as the plain pool does: from the same workers,
    strategy, counter value and loads (which must hold still while a
    least-loaded scan reads them), both pick the same worker, and the router's
    private counter is what the pool's shared one becomes. *)
Theorem selects_like_pool (p : PoolRef R) w i c' w' :
  workers p ≠ [] → (atomic_load (counter p) w < 2 ^ 64)%N →
  (routing p = LeastLoaded → ∃ loads, stable (workers p) loads w) →
  select_worker_index (workers p) (routing p) (atomic_load (counter p) w) w = Some ((i, c'), w') →
  ∃ r w2, workers p !! i = Some r ∧ select_worker p w = Some (r, w2)
    ∧ w' = w ∧ atomic_load (counter p) w2 = c'.
Proof.
  intros Hne Hc Hst Hsel. unfold select_worker_index in Hsel.
  destruct (routing p) eqn:Hr.
  1-3: injection Hsel as <- <- <-;
    match goal with |- context [workers _ !! N.to_nat (?n mod _)%N] =>
      destruct (lookup_mod (workers p) n Hne) as (r & Hx & _) end;
    exists r; eexists; split_and!; [exact Hx| |done|];
    [unfold select_worker; rewrite Hr;
     unfold round_robin_index, random_index, fetch_add, mbind, RT_bind, mret, RT_ret; simpl;
     by rewrite Hx
    |by rewrite atomic_load_store].
  destruct (Hst eq_refl) as [loads Hl]. unfold stable in Hl.
  rewrite !(RT_bind_Some _ _ _ _ _ Hl) in Hsel.
  pose proof (mapM_RT_length _ _ _ _ _ Hl) as Hlen.
  assert (i ∈ tied (min_load loads) loads → ∃ r, workers p !! i = Some r) as Hi.
  { intros Hx%tied_lookup. apply lookup_lt_is_Some_2. rewrite <-Hlen. by eapply lookup_lt_Some. }
  assert (∀ w2, least_loaded_index p w = Some (i, w2) → i ∈ tied (min_load loads) loads →
    ∃ r, workers p !! i = Some r ∧ select_worker p w = Some (r, w2)) as Hpick.
  { intros w2 Hll Hin. destruct (Hi Hin) as [r Hx]. exists r. split; [done|].
    unfold select_worker. rewrite Hr, (RT_bind_Some _ _ _ _ _ Hll). by rewrite Hx. }
  assert (least_loaded_index p w =
    match tied (min_load loads) loads with
    | [c] => mret c | [] => panic
    | _ => idx ← fetch_add (counter p);
           unwrap (tied (min_load loads) loads
                    !! N.to_nat (idx mod len_N (tied (min_load loads) loads)))
    end w) as Hll.
  { unfold least_loaded_index. rewrite !(RT_bind_Some _ _ _ _ _ Hl).
    by destruct (tied (min_load loads) loads) as [|? [|? ?]]. }
  destruct (tied (min_load loads) loads) as [|c1 [|c2 cs]] eqn:Ht; [done| |].
  - injection Hsel as <- <- <-. destruct (Hpick w Hll) as (r & ? & ?); [constructor|].
    by exists r, w.
  - destruct (lookup_mod (c1 :: c2 :: cs) (atomic_load (counter p) w)) as (x & Hx & Hxin); [done|].
    rewrite Hx in Hsel. injection Hsel as -> <- <-.
    unfold fetch_add, mbind, RT_bind in Hll. cbv beta zeta in Hll. rewrite Hx in Hll.
    destruct (Hpick _ Hll Hxin) as (r & ? & ?). exists r. eexists.
    split_and!; [done..|]. by rewrite atomic_load_store.
Qed.

(** C39. Stopping a virtual pool. The router runs the operations submitted
    before the first [Stop] in order, stops every worker, and leaves what came
    after it unrun. So a [tell] after a [stop] can return [Ok] (the handle does
    not look at its own flag) for a message no worker ever gets; and a [stop]
    that finds the channel full sends nothing: the pool reports that it is not
    alive while its router goes on and its workers are never stopped. *)
Theorem stop_semantics {C} `{SenderLaws (RouterCommand R W) C} (v : VirtualPoolRef C) ws r c w ops rest :
  router_loop ((Op <$> ops) ++ CmdStop :: rest) ws r c w
    = (_ ← run_ops ops ws r c; _ ← mapM_RT ar_stop ws; mret rest) w
  ∧ is_alive (stop v) = false
  ∧ (sent (ops_tx (stop v)) = sent (ops_tx v) ++ [CmdStop]
     ∨ ops_tx (stop v) = ops_tx v
       ∧ (mpsc_capacity (ops_tx v) = 0 ∨ mpsc_is_closed (ops_tx v) = true))
  ∧ ∀ (msg : Msg) v', tell msg (stop v) = (Ok (), v') →
      is_alive v' = false
      ∧ sent (ops_tx v') = sent (ops_tx (stop v)) ++ [Op (tell_op (Rep:=Rep) (Str:=Str) msg)].
Proof.
  unfold stop, tell, submit, is_alive. split_and!.
  - rewrite router_loop_ops. unfold mbind, RT_bind.
    by destruct (run_ops ops ws r c w) as [[c1 w1]|].
  - by destruct (mpsc_try_send CmdStop (ops_tx v)).
  - destruct (mpsc_try_send CmdStop (ops_tx v)) as [[[]|e] c1] eqn:Ht; simpl.
    + left. by apply try_send_ok in Ht.
    + right. apply try_send_err in Ht as [-> He]. split; [done|].
      destruct e; [left; apply He|by right].
  - intros msg v'. destruct (mpsc_try_send CmdStop (ops_tx v)) as [res c1]. simpl.
    destruct (mpsc_try_send (Op _) c1) as [[[]|e] c2] eqn:Ht; [|done].
    intros [= <-]. simpl. split; [done|]. by apply try_send_ok in Ht.
Qed.
End spec.

Lemma selects_like_pool_witness :
  ∃ r w2, [1; 2; 3]%N !! 2 = Some r
    ∧ select_worker (Pool.Spec.sample_pool Random) (atomic_store 0 5 test_world) = Some (r, w2)
    ∧ atomic_store 0 5 test_world = atomic_store 0 5 test_world
    ∧ atomic_load 0 w2 = 6%N.
Proof.
  apply (selects_like_pool (Pool.Spec.sample_pool Random) (atomic_store 0 5 test_world) 2 6); [done|done|done|].
  vm_compute. reflexivity.
Defined.
Definition full_pool : VirtualPoolRef (TestChan (RouterCommand N TestWorld)) :=
  mkVirtualPoolRef (mkTestChan [] 1 1 5) (mkActorId (mkNodeId "vpool") 1) "v" true.
Lemma stop_semantics_witness :
  is_alive (stop full_pool) = false ∧ ops_tx (stop full_pool) = ops_tx full_pool.
Proof.
  destruct (stop_semantics (R:=N) full_pool [1%N] RoundRobin 0 test_world [] [])
    as (_ & H & _). split; [exact H|reflexivity].
Defined.
End Spec.
