(* ===== verification/Broadcast.v ===== *)
(** * Broadcast groups (dactor/src/broadcast.rs)

    A message to every member of an owned group. The world of the members is
    [W]; the dead-letter handler acts on a state of its own, [D]. A reply is
    awaited against a timeout: [await] tells, for a reply handle, what the race
    gives. The futures run concurrently ([join_all]): the order in which they
    finish is an argument. *)
From S2P Require Import Prelude Node Stream DeadLetter ActorRef.

#[local] Open Scope string_scope.
#[local] Open Scope list_scope.
#[local] Open Scope nat_scope.

(** ** Results *)
Inductive BroadcastReceipt (V : Type) :=
  | ReceiptOk (actor_id : ActorId) (reply : V)
  | ReceiptTimeout (actor_id : ActorId)
  | ReceiptSendError (actor_id : ActorId) (error : ActorSendError)
  | ReceiptReplyError (actor_id : ActorId) (error : RuntimeError).
Arguments ReceiptOk {V}.
Arguments ReceiptTimeout {V}.
Arguments ReceiptSendError {V}.
Arguments ReceiptReplyError {V}.

Definition receipt_id {V} (r : BroadcastReceipt V) : ActorId :=
  match r with
  | ReceiptOk a _ | ReceiptTimeout a | ReceiptSendError a _ | ReceiptReplyError a _ => a
  end.

Record BroadcastTellOutcome := mkOutcome {
  o_actor_id : ActorId; o_result : result ActorSendError ()
}.
Definition BroadcastTellResult := list BroadcastTellOutcome.
Definition succeeded (r : BroadcastTellResult) : nat :=
  length (retain (λ o, is_ok (o_result o)) r).
Definition failed (r : BroadcastTellResult) : nat :=
  length (retain (λ o, is_err (o_result o)) r).

(** ** Dead letters *)
Definition dead_letter_reason (error : string) : DeadLetterReason :=
  if contains "stopped" error || contains "closed" error then ActorStopped
  else if contains "not found" error then ActorNotFound
  else if contains "full" error then MailboxFull
  else ActorStopped.

(** A panic of the handler is caught and ignored; the model's handler is total. *)
Definition emit_dead_letter {D} (message_type : string) (handler : DeadLetterHandler D)
    (target_id : ActorId) (target_name : string) (error : ActorSendError) (mode : SendMode)
    (d : D) : D :=
  handler (mkDeadLetterEvent target_id (Some target_name) message_type mode
             (dead_letter_reason (send_error_msg error))) d.

(** What [tokio::time::timeout(t, ask_reply).await] gives. *)
Inductive Awaited (V : Type) := Replied (r : result RuntimeError V) | TimedOut.
Arguments Replied {V}.
Arguments TimedOut {V}.

Section broadcast.
Context {R W Msg Rep Str : Type} `{ActorRef R W Msg Rep Str}.
Context {D : Type}.

Record BroadcastRef := mkBroadcastRef {
  refs : list R;
  dead_letter_handler : option (DeadLetterHandler D)
}.
Definition new (l : list R) : BroadcastRef := mkBroadcastRef l None.
Definition with_dead_letter_handler (h : DeadLetterHandler D) (b : BroadcastRef) : BroadcastRef :=
  mkBroadcastRef (refs b) (Some h).
Definition len (b : BroadcastRef) : nat := length (refs b).
Definition is_empty (b : BroadcastRef) : bool := match refs b with [] => true | _ => false end.
Definition add (r : R) (b : BroadcastRef) : BroadcastRef :=
  mkBroadcastRef (refs b ++ [r]) (dead_letter_handler b).
Definition has_id (a : ActorId) (r : R) : bool := bool_decide (ar_id r = a).
Definition contains_id (a : ActorId) (b : BroadcastRef) : bool := existsb (has_id a) (refs b).

(** [Vec::swap_remove(pos)]. *)
Definition swap_remove (pos : nat) (l : list R) : list R :=
  match last l with
  | None => l
  | Some x => if decide (S pos = length l) then take pos l
              else <[pos := x]> (take (length l - 1) l)
  end.
Definition remove (a : ActorId) (b : BroadcastRef) : option R * BroadcastRef :=
  match position (has_id a) (refs b) with
  | None => (None, b)
  | Some pos => (refs b !! pos, mkBroadcastRef (swap_remove pos (refs b)) (dead_letter_handler b))
  end.

Definition route_dead_letter (message_type : string) (b : BroadcastRef) (target_id : ActorId)
    (target_name : string) (error : ActorSendError) (mode : SendMode) (d : D) : D :=
  match dead_letter_handler b with
  | Some handler => emit_dead_letter message_type handler target_id target_name error mode d
  | None => d
  end.

(** ** tell *)
Fixpoint tell_loop (message_type : string) (b : BroadcastRef) (msg : Msg) (members : list R)
    (w : W) (d : D) : option (BroadcastTellResult * W * D) :=
  match members with
  | [] => Some ([], w, d)
  | actor_ref :: rest =>
      match ar_tell msg actor_ref w with
      | None => None
      | Some (res, w) =>
      let d :=
        match res with
        | Err err => route_dead_letter message_type b (ar_id actor_ref) (ar_name actor_ref) err Tell d
        | Ok _ => d
        end in
      match tell_loop message_type b msg rest w d with
      | None => None
      | Some (outcomes, w, d) => Some (mkOutcome (ar_id actor_ref) res :: outcomes, w, d)
      end
      end
  end.
Definition tell (message_type : string) (msg : Msg) (b : BroadcastRef) (w : W) (d : D) :
    option (BroadcastTellResult * W * D) :=
  tell_loop message_type b msg (refs b) w d.

(** ** ask *)
Context {V : Type} (await : Rep → Awaited V).

(** The first half of a member's closure, run when the iterator is collected:
    identity, name, token and the [ask]. *)
Record in_flight := mkInFlight {
  fl_id : ActorId; fl_name : string; fl_token : Token; fl_reply : result ActorSendError Rep
}.
Fixpoint launch (members : list R) (msg : Msg) (token : Token) : RT W (list in_flight) :=
  match members with
  | [] => mret []
  | r :: rest =>
      res ← ar_ask msg (Some token) r;
      l ← launch rest msg (token + 1)%N;
      mret (mkInFlight (ar_id r) (ar_name r) token res :: l)
  end.

(** The async half: the receipt, the dead letter it emits, the token it cancels. *)
Definition receipt (f : in_flight) : BroadcastReceipt V :=
  match fl_reply f with
  | Ok ask_reply =>
      match await ask_reply with
      | Replied (Ok reply) => ReceiptOk (fl_id f) reply
      | Replied (Err (RSend error)) => ReceiptSendError (fl_id f) error
      | Replied (Err e) => ReceiptReplyError (fl_id f) e
      | TimedOut => ReceiptTimeout (fl_id f)
      end
  | Err e => ReceiptSendError (fl_id f) e
  end.
Definition finish (message_type : string) (b : BroadcastRef) (f : in_flight) (d : D) : D :=
  match receipt f with
  | ReceiptSendError a error => route_dead_letter message_type b a (fl_name f) error Ask d
  | _ => d
  end.
Definition cancelled (f : in_flight) : option Token :=
  match receipt f with ReceiptTimeout _ => Some (fl_token f) | _ => None end.

(** [order] lists the members in the order in which their futures finish;
    [token] is the first fresh token. *)
Definition ask (message_type : string) (msg : Msg) (token : Token) (order : list nat)
    (b : BroadcastRef) (w : W) (d : D) :
    option (list (BroadcastReceipt V) * list Token * W * D) :=
  match launch (refs b) msg token w with
  | None => None
  | Some (l, w) =>
      let finished := omap (λ i, l !! i) order in
      Some (receipt <$> l, omap cancelled finished,
            w, foldl (λ d f, finish message_type b f d) d finished)
  end.

(** ** Lemmas *)
(** The dead letters of a tell, in member order. *)
Definition tell_dead_letters (message_type : string) (l : list (R * result ActorSendError ())) :
    list DeadLetterEvent :=
  omap (λ q, match q.2 with
             | Err e => Some (mkDeadLetterEvent (ar_id q.1) (Some (ar_name q.1)) message_type Tell
                                (dead_letter_reason (send_error_msg e)))
             | Ok _ => None
             end) l.
Definition handle_all (h : option (DeadLetterHandler D)) (es : list DeadLetterEvent) (d : D) : D :=
  match h with Some h => foldl (λ d e, h e d) d es | None => d end.

Lemma tell_loop_spec mt b msg members w d :
  tell_loop mt b msg members w d
  = match mapM_RT (ar_tell msg) members w with
    | None => None
    | Some (rs, w') =>
        Some (zip_with mkOutcome (ar_id <$> members) rs, w',
              handle_all (dead_letter_handler b) (tell_dead_letters mt (zip members rs)) d)
    end.
Proof.
  revert w d. induction members as [|r members IH]; intros w d; simpl.
  { unfold handle_all. by destruct (dead_letter_handler b). }
  unfold mbind, RT_bind. destruct (ar_tell msg r w) as [[res w1]|]; simpl; [|done].
  rewrite IH.
  destruct (mapM_RT (ar_tell msg) members w1) as [[rs w2]|]; simpl; [|done].
  do 2 f_equal. unfold tell_dead_letters, handle_all, route_dead_letter, emit_dead_letter.
  by destruct res, (dead_letter_handler b).
Qed.

Lemma launch_spec members msg token w l w' :
  launch members msg token w = Some (l, w') →
  fl_id <$> l = ar_id <$> members ∧ fl_name <$> l = ar_name <$> members
  ∧ NoDup (fl_token <$> l) ∧ Forall (λ f, (token <= fl_token f)%N) l.
Proof.
  revert token w l. induction members as [|r members IH]; intros token w l; simpl.
  { intros [= <- <-]. split_and!; constructor. }
  unfold mbind, RT_bind. destruct (ar_ask msg (Some token) r w) as [[res w1]|]; [|done].
  destruct (launch members msg (token + 1)%N w1) as [[l1 w2]|] eqn:Hl; [|done].
  intros [= <- <-]. apply IH in Hl as (H1 & H2 & H3 & H4). csimpl. rewrite H1, H2.
  split_and!; [done|done| |].
  - constructor; [|done]. intros (f & Hf & Hin)%list_elem_of_fmap.
    rewrite Forall_forall in H4. specialize (H4 _ Hin). lia.
  - constructor; [simpl; lia|]. eapply Forall_impl; [done|]. simpl. lia.
Qed.

Lemma receipt_id_fl f : receipt_id (receipt f) = fl_id f.
Proof. unfold receipt. by repeat case_match. Qed.

(** The dead letter of one member's ask. *)
Definition ask_dead_letter (message_type : string) (f : in_flight) : option DeadLetterEvent :=
  match receipt f with
  | ReceiptSendError a e => Some (mkDeadLetterEvent a (Some (fl_name f)) message_type Ask
                                    (dead_letter_reason (send_error_msg e)))
  | _ => None
  end.
Lemma finish_all mt b l d :
  foldl (λ d f, finish mt b f d) d l
  = handle_all (dead_letter_handler b) (omap (ask_dead_letter mt) l) d.
Proof.
  revert d. induction l as [|f l IH]; intros d; simpl.
  { unfold handle_all. by destruct (dead_letter_handler b). }
  rewrite IH. unfold finish, ask_dead_letter, handle_all, route_dead_letter, emit_dead_letter.
  by destruct (receipt f), (dead_letter_handler b).
Qed.

Lemma omap_order {A} (l : list A) order :
  order ≡ₚ seq 0 (length l) → omap (λ i, l !! i) order ≡ₚ l.
Proof.
  intros Ho. rewrite Ho. clear Ho. induction l as [|x l IH] using rev_ind; [done|].
  rewrite length_app, Nat.add_1_r, seq_S, omap_app. simpl.
  rewrite lookup_app_r, Nat.sub_diag by lia. simpl.
  assert (omap (λ i, (l ++ [x]) !! i) (seq 0 (length l)) = omap (λ i, l !! i) (seq 0 (length l)))
    as ->; [|by rewrite IH].
  apply list_omap_ext, Forall2_same_length_lookup. split; [done|].
  intros i j k Hj Hk. assert (j = k) as <- by congruence.
  apply lookup_seq in Hj as [-> Hj]. by rewrite lookup_app_l by lia.
Qed.

Lemma swap_remove_perm pos (l : list R) r :
  l !! pos = Some r → l ≡ₚ r :: swap_remove pos l.
Proof.
  intros Hp. destruct l as [|x l] using rev_ind; [done|]. clear IHl.
  unfold swap_remove. rewrite last_snoc, length_app. simpl.
  pose proof (lookup_lt_Some _ _ _ Hp) as Hlt. rewrite length_app in Hlt. simpl in Hlt.
  rewrite Nat.add_1_r in *. rewrite Nat.sub_1_r. simpl. case_decide as Hd.
  - assert (pos = length l) as -> by lia. rewrite take_app_length.
    rewrite list_lookup_middle in Hp by done. simplify_eq. by rewrite <-Permutation_cons_append.
  - rewrite take_app_length. rewrite lookup_app_l in Hp by lia.
    rewrite <-Permutation_cons_append. rewrite <-(take_drop_middle l pos r) at 1 by done.
    rewrite insert_take_drop by lia. by rewrite <-!Permutation_middle, Permutation_swap.
Qed.
End broadcast.
Arguments BroadcastRef : clear implicits.

(** The texts this crate's own senders use. A virtual pool whose router is
    merely full is reported as stopped: its text names both. *)
Lemma crate_error_reasons :
  dead_letter_reason "actor stopped" = ActorStopped
  ∧ dead_letter_reason "mailbox full" = MailboxFull
  ∧ dead_letter_reason "mailbox full (Block not supported in sync tell)" = MailboxFull
  ∧ dead_letter_reason "virtual pool router stopped or full" = ActorStopped.
Proof. by vm_compute. Qed.

Lemma length_retain_partition {A} (p : A → bool) l :
  length (retain p l) + length (retain (λ x, negb (p x)) l) = length l.
Proof. induction l as [|x l IH]; simpl; [done|]. destruct (p x); simpl; lia. Qed.

(** ** The properties *)
Module Spec.
Section spec.
Context {R W Msg Rep Str D V : Type} `{ActorRef R W Msg Rep Str}.
Implicit Types b : BroadcastRef R D.

(** [BroadcastRef::tell] reaches every member once, in order: the outcomes
    are the members' own answers, one per member under its id, the two counts
    add up to the group's size, and the dead-letter handler (when there is
    one) gets exactly one event per refused send, in member order. *)
Theorem tell_reaches_all b mt (msg : Msg) (w w' : W) (d d' : D) outs :
  tell mt msg b w d = Some (outs, w', d') →
  ∃ rs, mapM_RT (ar_tell msg) (refs b) w = Some (rs, w')
    ∧ o_result <$> outs = rs ∧ o_actor_id <$> outs = ar_id <$> refs b
    ∧ length rs = len b ∧ succeeded outs + failed outs = len b
    ∧ d' = handle_all (dead_letter_handler b) (tell_dead_letters mt (zip (refs b) rs)) d.
Proof.
  unfold tell. rewrite tell_loop_spec.
  destruct (mapM_RT (ar_tell msg) (refs b) w) as [[rs w1]|] eqn:Hm; [|done].
  intros [= <- <- <-]. pose proof (mapM_RT_length _ _ _ _ _ Hm) as Hlen.
  exists rs. rewrite <-(length_fmap ar_id (refs b)) in Hlen.
  assert (o_result <$> zip_with mkOutcome (ar_id <$> refs b) rs = rs) as Hres.
  { clear Hm. revert rs Hlen. generalize (ar_id <$> refs b).
    induction l as [|a l IH]; intros [|r rs] Hlen; try done. csimpl.
    rewrite IH; [done|]. by injection Hlen. }
  assert (o_actor_id <$> zip_with mkOutcome (ar_id <$> refs b) rs = ar_id <$> refs b) as Hid.
  { clear Hm Hres. revert rs Hlen. generalize (ar_id <$> refs b).
    induction l as [|a l IH]; intros [|r rs] Hlen; try done. csimpl.
    rewrite IH; [done|]. by injection Hlen. }
  split_and!; try done.
  - by rewrite Hlen, length_fmap.
  - unfold succeeded, failed, is_err. rewrite length_retain_partition.
    by rewrite <-(length_fmap o_actor_id), Hid, length_fmap.
Qed.

Lemma omap_ext_all {X Y} (f g : X → option Y) (l : list X) :
  (∀ x, f x = g x) → omap f l = omap g l.
Proof.
  intros Hfg. apply list_omap_ext. apply Forall_Forall2_diag, Forall_true. apply Hfg.
Qed.

(** What becomes of one member: the receipt, the token cancelled, the send error
    that is dead-lettered. *)
Definition outcome (await : Rep → Awaited V) (f : in_flight) :
    BroadcastReceipt V * option Token * option ActorSendError :=
  match fl_reply f with
  | Err refused => (ReceiptSendError (fl_id f) refused, None, Some refused)
  | Ok reply =>
      match await reply with
      | TimedOut => (ReceiptTimeout (fl_id f), Some (fl_token f), None)
      | Replied (Ok v) => (ReceiptOk (fl_id f) v, None, None)
      | Replied (Err (RSend e)) => (ReceiptSendError (fl_id f) e, None, Some e)
      | Replied (Err e) => (ReceiptReplyError (fl_id f) e, None, None)
      end
  end.
Definition outcome_event (mt : string) (await : Rep → Awaited V) (f : in_flight) :
    option DeadLetterEvent :=
  e ← (outcome await f).2;
  Some (mkDeadLetterEvent (fl_id f) (Some (fl_name f)) mt Ask
          (dead_letter_reason (send_error_msg e))).
Lemma outcome_spec mt await f :
  receipt await f = (outcome await f).1.1 ∧ cancelled await f = (outcome await f).1.2
  ∧ ask_dead_letter await mt f = outcome_event mt await f.
Proof.
  unfold cancelled, ask_dead_letter, outcome_event, receipt, outcome.
  by destruct (fl_reply f) as [r|e]; [destruct (await r) as [[v|[]]|]|].
Qed.

(** [BroadcastRef::ask], whatever order the members' futures finish in: each
    member is asked once, in order, with a token of its own, and has one
    receipt, in member order and under its id: its reply, its error, the
    refusal of the send, or a timeout. The tokens cancelled are exactly those
    of the members that timed out, and the handler gets one event for each
    send error, in a send or in the reply, and for nothing else. *)
Theorem ask_receipts b mt (msg : Msg) token order (await : Rep → Awaited V)
    (w w' : W) (d d' : D) receipts cancels :
  order ≡ₚ seq 0 (len b) →
  ask await mt msg token order b w d = Some (receipts, cancels, w', d') →
  receipt_id <$> receipts = ar_id <$> refs b
  ∧ ∃ l events, launch (refs b) msg token w = Some (l, w') ∧ NoDup (fl_token <$> l)
    ∧ receipts = (λ f, (outcome await f).1.1) <$> l
    ∧ cancels ≡ₚ omap (λ f, (outcome await f).1.2) l
    ∧ events ≡ₚ omap (outcome_event mt await) l
    ∧ d' = handle_all (dead_letter_handler b) events d.
Proof.
  intros Ho. unfold ask. destruct (launch (refs b) msg token w) as [[l w1]|] eqn:Hl; [|done].
  intros [= <- <- <- <-]. destruct (launch_spec _ _ _ _ _ _ Hl) as (Hid & _ & Hnd & _).
  assert (length l = len b) as Hlen.
  { unfold len. rewrite <-(length_fmap ar_id (refs b)), <-Hid. by rewrite length_fmap. }
  rewrite <-Hlen in Ho. pose proof (omap_order l order Ho) as Hp. split.
  - rewrite <-list_fmap_compose, <-Hid. apply list_fmap_ext. intros i f _. apply receipt_id_fl.
  - exists l, (omap (ask_dead_letter await mt) (omap (λ i, l !! i) order)).
    split_and!; [done|done| | | |by rewrite finish_all].
    + apply list_fmap_ext. intros i f _. apply (outcome_spec mt).
    + rewrite Hp. apply reflexive_eq, omap_ext_all. intros f. apply (outcome_spec mt).
    + rewrite Hp. apply reflexive_eq, omap_ext_all. intros f. apply outcome_spec.
Qed.

(** [BroadcastRef::remove] takes out one member with the id, when there is
    one: the group keeps exactly its other members (in some order), and the
    handler; otherwise nothing changes. *)
Theorem remove_one b a :
  match remove a b with
  | (Some r, b') => ar_id r = a ∧ refs b ≡ₚ r :: refs b'
      ∧ dead_letter_handler b' = dead_letter_handler b
  | (None, b') => b' = b ∧ contains_id a b = false
  end.
Proof.
  unfold remove. destruct (position (has_id a) (refs b)) as [pos|] eqn:Hp.
  - apply position_Some in Hp as (r & Hr & Hid%bool_decide_eq_true & _). rewrite Hr. simpl.
    split_and!; [done|by apply swap_remove_perm|done].
  - split; [done|]. apply position_None in Hp. unfold contains_id.
    induction Hp as [|r l Hr _ IH]; simpl; [done|]. by rewrite Hr.
Qed.
End spec.

Definition two : BroadcastRef N (list DeadLetterEvent) :=
  mkBroadcastRef [1; 2]%N (Some (λ e d, d ++ [e])).
(** Member 2's mailbox is full. *)
Definition full_world : TestWorld := mkTestWorld ∅ {[2%N := [0; 0]]} 2 [].
Definition event2 : DeadLetterEvent :=
  mkDeadLetterEvent (ar_id 2%N) (Some (ar_name 2%N)) "M" Tell MailboxFull.
Lemma tell_reaches_all_witness :
  ∃ outs w', tell "M" 7 two full_world [] = Some (outs, w', [event2])
  ∧ succeeded outs + failed outs = 2.
Proof.
  destruct (tell "M" 7 two full_world []) as [[[outs w'] d']|] eqn:Ht; [|by vm_compute in Ht].
  destruct (tell_reaches_all two "M" 7 full_world w' [] d' outs Ht)
    as (rs & Hrs & _ & _ & _ & Hsum & ->).
  exists outs, w'. split; [|exact Hsum].
  vm_compute in Hrs. injection Hrs as <- _. by vm_compute.
Defined.
Lemma ask_receipts_witness :
  receipt_id <$> [ReceiptOk (ar_id 1%N) true; ReceiptOk (ar_id 2%N) true] = ar_id <$> refs two.
Proof.
  apply (ask_receipts two "M" 7 5 [1; 0] (λ _ : nat, Replied (Ok true)) full_world full_world
    [] [] _ []); [|by vm_compute].
  simpl. apply Permutation_swap.
Defined.
End Spec.
