(* ===== verification/Group.v ===== *)
(** * Processing groups and the actor registry
    (dactor/src/group.rs, dactor/src/registry.rs)

    Both are maps: group members by actor id, registry entries by name. The
    iteration order of a [HashMap] is that of [map_to_list]. *)
From S2P Require Import Prelude Node ActorRef Broadcast DeadLetter.

(** ** ProcessingGroup *)
Section group.
Context {R W Msg Rep Str : Type} `{ActorRef R W Msg Rep Str}.

Record ProcessingGroup := mkGroup { group_name : string; group_map : gmap ActorId R }.
Definition Group_new (name : string) : ProcessingGroup := mkGroup name ∅.
Definition Group_len (g : ProcessingGroup) : nat := size (group_map g).
Definition Group_is_empty (g : ProcessingGroup) : bool := (Group_len g =? 0)%nat.
Definition join (r : R) (g : ProcessingGroup) : option R * ProcessingGroup :=
  let id := ar_id r in
  (group_map g !! id, mkGroup (group_name g) (<[id := r]> (group_map g))).
Definition leave (a : ActorId) (g : ProcessingGroup) : option R * ProcessingGroup :=
  (group_map g !! a, mkGroup (group_name g) (delete a (group_map g))).
Definition Group_contains (a : ActorId) (g : ProcessingGroup) : bool :=
  bool_decide (is_Some (group_map g !! a)).
Definition Group_get (a : ActorId) (g : ProcessingGroup) : option R := group_map g !! a.
Definition members (g : ProcessingGroup) : list R := (map_to_list (group_map g)).*2.
Definition member_ids (g : ProcessingGroup) : list ActorId := (map_to_list (group_map g)).*1.
Definition to_broadcast {D} (g : ProcessingGroup) : BroadcastRef R D := Broadcast.new (members g).
Definition Group_clear (g : ProcessingGroup) : ProcessingGroup := mkGroup (group_name g) ∅.

(** [retain] asks each member, one after the other. *)
Fixpoint keep_alive (l : list (ActorId * R)) : RT W (gmap ActorId R) :=
  match l with
  | [] => mret ∅
  | (a, r) :: rest =>
      alive ← ar_is_alive r;
      m ← keep_alive rest;
      mret (if alive : bool then <[a := r]> m else m)
  end.
Definition prune_dead (g : ProcessingGroup) : RT W (nat * ProcessingGroup) :=
  m ← keep_alive (map_to_list (group_map g));
  mret (size (group_map g) - size m, mkGroup (group_name g) m).

(** Members sit under their own ids. *)
Definition group_wf (g : ProcessingGroup) : Prop :=
  map_Forall (λ a r, ar_id r = a) (group_map g).

Lemma join_wf r g : group_wf g → group_wf (join r g).2.
Proof. intros Hg. by apply map_Forall_insert_2. Qed.
Lemma leave_wf a g : group_wf g → group_wf (leave a g).2.
Proof. intros Hg. by apply map_Forall_delete. Qed.

(** Aliveness that no reading changes. *)
Definition steady (alive : R → bool) (w : W) : Prop := ∀ r, ar_is_alive r w = Some (alive r, w).

Lemma keep_alive_spec alive w l :
  steady alive w → NoDup l.*1 →
  keep_alive l w = Some (filter (λ p, alive p.2 = true) (list_to_map l : gmap ActorId R), w).
Proof.
  intros Hs. induction l as [|[a r] l IH]; simpl; intros Hnd.
  { by rewrite map_filter_empty. }
  apply NoDup_cons in Hnd as [Ha Hnd]. rewrite (RT_bind_Some _ _ _ _ _ (Hs r)).
  rewrite (RT_bind_Some _ _ _ _ _ (IH Hnd)). unfold mret, RT_ret. do 2 f_equal.
  assert ((list_to_map l : gmap ActorId R) !! a = None) as Hn by by apply not_elem_of_list_to_map_1.
  destruct (alive r) eqn:Hal.
  - by rewrite map_filter_insert_True.
  - rewrite map_filter_insert_False by (simpl; congruence). by rewrite delete_id.
Qed.
End group.
Arguments ProcessingGroup : clear implicits.

(** ** ActorRegistry
    An entry is a value of some type: [Arc<dyn Any>]. *)
Section registry.
Context {U : Type}.

Record Entry := mkEntry { entry_type : string; entry_value : U }.
Record ActorRegistry := mkActorRegistry { reg_entries : gmap string Entry }.
Definition Registry_new : ActorRegistry := mkActorRegistry ∅.
Definition Registry_register (R : string) (name : string) (v : U) (r : ActorRegistry) : ActorRegistry :=
  mkActorRegistry (<[name := mkEntry R v]> (reg_entries r)).
Definition lookup_ref (R : string) (name : string) (r : ActorRegistry) : option U :=
  e ← reg_entries r !! name; if decide (entry_type e = R) then Some (entry_value e) else None.
Definition unregister (name : string) (r : ActorRegistry) : bool * ActorRegistry :=
  (bool_decide (is_Some (reg_entries r !! name)), mkActorRegistry (delete name (reg_entries r))).
Definition Registry_contains (name : string) (r : ActorRegistry) : bool :=
  bool_decide (is_Some (reg_entries r !! name)).
Definition Registry_len (r : ActorRegistry) : nat := size (reg_entries r).
Definition Registry_is_empty (r : ActorRegistry) : bool := (Registry_len r =? 0)%nat.
Definition names (r : ActorRegistry) : list string := (map_to_list (reg_entries r)).*1.
End registry.

(** ** The properties *)
Module Spec.
Section spec.
Context {R W Msg Rep Str D : Type} `{ActorRef R W Msg Rep Str}.
Implicit Types g : ProcessingGroup R.

(** The groups the operations can produce. *)
Inductive reachable : ProcessingGroup R → Prop :=
  | reachable_new name : reachable (Group_new name)
  | reachable_join r g : reachable g → reachable (join r g).2
  | reachable_leave a g : reachable g → reachable (leave a g).2
  | reachable_clear g : reachable g → reachable (Group_clear g).
Lemma group_reachable_wf g : reachable g → group_wf g.
Proof.
  induction 1; [apply map_Forall_empty|by apply join_wf|by apply leave_wf|apply map_Forall_empty].
Qed.

(** [prune_dead] on any group that joins, leaves and clears can build, when
    no reading of [is_alive] changes anything: exactly the living members stay,
    each under its own id, and the number returned is the number of members
    gone; and the broadcast group of the result has exactly those members, each
    once. *)
Theorem prune_dead_keeps_living g alive w :
  reachable g → steady alive w →
  ∃ n g', prune_dead g w = Some ((n, g'), w)
    ∧ (∀ a r, Group_get a g' = Some r ↔ Group_get a g = Some r ∧ alive r = true)
    ∧ (∀ a r, Group_get a g' = Some r → ar_id r = a)
    ∧ n + Group_len g' = Group_len g
    ∧ NoDup (ar_id <$> refs (to_broadcast (D:=D) g'))
    ∧ (∀ r, r ∈ refs (to_broadcast (D:=D) g') ↔ Group_get (ar_id r) g' = Some r).
Proof.
  intros Hwf%group_reachable_wf Hs. unfold prune_dead, Group_get, Group_len.
  rewrite (RT_bind_Some _ _ _ _ _ (keep_alive_spec alive w _ Hs (NoDup_fst_map_to_list _))).
  rewrite list_to_map_to_list. do 2 eexists. split; [done|]. simpl.
  set (m := filter _ _).
  assert (∀ a r, m !! a = Some r ↔ group_map g !! a = Some r ∧ alive r = true) as Hm.
  { intros a r. unfold m. by rewrite map_lookup_filter_Some. }
  assert (∀ a r, m !! a = Some r → ar_id r = a) as Hid.
  { intros a r [Hr _]%Hm. by apply Hwf. }
  assert (ar_id <$> (map_to_list m).*2 = (map_to_list m).*1) as Hids.
  { rewrite <-list_fmap_compose. apply list_fmap_ext. intros i [a r] Hi. simpl.
    apply Hid, elem_of_map_to_list. by eapply list_elem_of_lookup_2. }
  split_and!; [done|done| |unfold members; simpl; rewrite Hids; apply NoDup_fst_map_to_list|].
  - assert (size m ≤ size (group_map g)); [|lia]. apply map_subseteq_size, map_filter_subseteq.
  - intros r. unfold members. simpl. rewrite list_elem_of_fmap. split.
    + intros ([a r'] & -> & Hin%elem_of_map_to_list). simpl. by rewrite (Hid a r').
    + intros Hr. exists (ar_id r, r). by rewrite elem_of_map_to_list.
Qed.
End spec.

Lemma prune_dead_keeps_living_witness :
  ∃ n g', prune_dead (join 2%N (join 1%N (Group_new "g")).2).2 test_world = Some ((n, g'), test_world)
    ∧ n + Group_len g' = 2.
Proof.
  destruct (prune_dead_keeps_living (R:=N) (D:=unit) (join 2%N (join 1%N (Group_new "g")).2).2
    (λ _, true) test_world) as (n & g' & H1 & _ & _ & H2 & _).
  - by repeat constructor.
  - done.
  - exists n, g'. split; [exact H1|]. rewrite H2. vm_compute. reflexivity.
Defined.
End Spec.
