(* ===== verification/SystemActors.v ===== *)
(** * System actors (dactor/src/system_actors.rs, dactor/src/system_router.rs)

    The managers behind remote spawn, watch and cancel, the peer directory, the
    version handshake and the system message types. A [HashSet] of watchers is
    a [gset]; a cancellation token is its identity, and the managers return
    the tokens they cancel. *)
From S2P Require Import Prelude Node Message Version TypeRegistry Mailbox.

#[local] Open Scope string_scope.
#[local] Open Scope list_scope.
#[local] Open Scope nat_scope.

(** ** System message types *)
Definition SYSTEM_MSG_TYPE_SPAWN := "dactor::system_actors::SpawnRequest".
Definition SYSTEM_MSG_TYPE_WATCH := "dactor::system_actors::WatchRequest".
Definition SYSTEM_MSG_TYPE_UNWATCH := "dactor::system_actors::UnwatchRequest".
Definition SYSTEM_MSG_TYPE_CANCEL := "dactor::system_actors::CancelRequest".
Definition SYSTEM_MSG_TYPE_CONNECT_PEER := "dactor::system_actors::ConnectPeer".
Definition SYSTEM_MSG_TYPE_DISCONNECT_PEER := "dactor::system_actors::DisconnectPeer".

Definition is_system_message_type (t : string) : bool :=
  bool_decide (t = SYSTEM_MSG_TYPE_SPAWN) || bool_decide (t = SYSTEM_MSG_TYPE_WATCH)
  || bool_decide (t = SYSTEM_MSG_TYPE_UNWATCH) || bool_decide (t = SYSTEM_MSG_TYPE_CANCEL)
  || bool_decide (t = SYSTEM_MSG_TYPE_CONNECT_PEER)
  || bool_decide (t = SYSTEM_MSG_TYPE_DISCONNECT_PEER).

Record RoutingError := mkRoutingError { routing_message : string }.
Definition RoutingError_display (e : RoutingError) : string :=
  "routing error: " +:+ routing_message e.
Inductive RoutingOutcome :=
  | SpawnCompleted (request_id : string) (actor_id : ActorId)
  | SpawnFailedOutcome (request_id error : string)
  | AcknowledgedOutcome
  | CancelAcknowledged
  | CancelNotFound (reason : string).
Definition validate_system_message_type (t : string) : result RoutingError () :=
  if is_system_message_type t then Ok ()
  else Err (mkRoutingError ("unknown system message type: " +:+ t)).

(** ** SpawnManager *)
Record SpawnRequest := mkSpawnRequest {
  sr_type_name : string; sr_args_bytes : bytes; sr_name : string; sr_request_id : string
}.
Inductive SpawnResponse :=
  | SpawnSuccess (request_id : string) (actor_id : ActorId)
  | SpawnFailure (request_id error : string).

#[export] Instance SpawnResponse_eq_dec : EqDecision SpawnResponse.
Proof. solve_decision. Defined.

Record SpawnManager (U : Type) := mkSpawnManager {
  sm_registry : TypeRegistry U; spawned : list ActorId
}.
Arguments mkSpawnManager {U}.
Arguments sm_registry {U}.
Arguments spawned {U}.
Definition SpawnManager_new {U} (r : TypeRegistry U) : SpawnManager U := mkSpawnManager r [].
Definition SpawnManager_create_actor {U} (m : SpawnManager U) (req : SpawnRequest) :
    result SerializationError (AnyBox U) :=
  create_actor (sm_registry m) (sr_type_name req) (sr_args_bytes req).
Definition record_spawn {U} (id : ActorId) (m : SpawnManager U) : SpawnManager U :=
  mkSpawnManager (sm_registry m) (spawned m ++ [id]).

(** ** WatchManager *)
Record WatchRequest := mkWatchRequest { wr_target : ActorId; wr_watcher : ActorId }.
Record UnwatchRequest := mkUnwatchRequest { ur_target : ActorId; ur_watcher : ActorId }.
Record WatchNotification := mkWatchNotification { wn_terminated : ActorId; wn_watcher : ActorId }.

#[export] Instance WatchNotification_eq_dec : EqDecision WatchNotification.
Proof. solve_decision. Defined.

Record WatchManager := mkWatchManager { watchers : gmap ActorId (gset ActorId) }.
Definition WatchManager_new : WatchManager := mkWatchManager ∅.
Definition watch (target watcher : ActorId) (m : WatchManager) : WatchManager :=
  mkWatchManager (<[target := {[watcher]} ∪ default ∅ (watchers m !! target)]> (watchers m)).
Definition unwatch (target watcher : ActorId) (m : WatchManager) : WatchManager :=
  match watchers m !! target with
  | Some s =>
      let s := s ∖ {[watcher]} in
      if decide (s = ∅) then mkWatchManager (delete target (watchers m))
      else mkWatchManager (<[target := s]> (watchers m))
  | None => m
  end.
Definition on_terminated (terminated : ActorId) (m : WatchManager) :
    list WatchNotification * WatchManager :=
  (mkWatchNotification terminated <$> elements (default ∅ (watchers m !! terminated)),
   mkWatchManager (delete terminated (watchers m))).
Definition watchers_of (target : ActorId) (m : WatchManager) : list ActorId :=
  elements (default ∅ (watchers m !! target)).
Definition watched_count (m : WatchManager) : nat := size (watchers m).

(** ** CancelManager *)
Record CancelRequest := mkCancelRequest { cr_target : ActorId; cr_request_id : option string }.
Inductive CancelResponse := Acknowledged | CancelRequestNotFound (reason : string).

#[export] Instance CancelResponse_eq_dec : EqDecision CancelResponse.
Proof. solve_decision. Defined.

Record CancelManager := mkCancelManager { tokens : gmap string N }.
Definition CancelManager_new : CancelManager := mkCancelManager ∅.
Definition cancel_register (request_id : string) (token : N) (m : CancelManager) : CancelManager :=
  mkCancelManager (<[request_id := token]> (tokens m)).
(** The token that is cancelled comes with the response. *)
Definition cancel (request_id : string) (m : CancelManager) :
    (CancelResponse * option N) * CancelManager :=
  match tokens m !! request_id with
  | Some token => ((Acknowledged, Some token), mkCancelManager (delete request_id (tokens m)))
  | None => ((CancelRequestNotFound ("no active request with id '" +:+ request_id +:+ "'"), None), m)
  end.
Definition cancel_remove (request_id : string) (m : CancelManager) : CancelManager :=
  mkCancelManager (delete request_id (tokens m)).
Definition active_count (m : CancelManager) : nat := size (tokens m).

(** ** NodeDirectory *)
Inductive PeerStatus := Connecting | Connected | Unreachable | Disconnected.

#[export] Instance PeerStatus_eq_dec : EqDecision PeerStatus.
Proof. solve_decision. Defined.

Record PeerInfo := mkPeerInfo {
  pi_node_id : NodeId; status : PeerStatus; address : option string
}.
Record NodeDirectory := mkNodeDirectory { peers : gmap NodeId PeerInfo }.
Definition NodeDirectory_new : NodeDirectory := mkNodeDirectory ∅.
Definition add_peer (n : NodeId) (a : option string) (d : NodeDirectory) : NodeDirectory :=
  mkNodeDirectory (<[n := mkPeerInfo n Connecting a]> (peers d)).
Definition set_status (n : NodeId) (s : PeerStatus) (d : NodeDirectory) : NodeDirectory :=
  match peers d !! n with
  | Some info =>
      mkNodeDirectory (<[n := mkPeerInfo (pi_node_id info) s (address info)]> (peers d))
  | None => d
  end.
Definition remove_peer (n : NodeId) (d : NodeDirectory) : NodeDirectory :=
  mkNodeDirectory (delete n (peers d)).
Definition get_peer (n : NodeId) (d : NodeDirectory) : option PeerInfo := peers d !! n.
Definition peer_nodes (d : NodeDirectory) : list NodeId := (map_to_list (peers d)).*1.
Definition has_status (s : PeerStatus) (p : PeerInfo) : bool := bool_decide (status p = s).
Definition peers_with_status (s : PeerStatus) (d : NodeDirectory) : list PeerInfo :=
  retain (has_status s) (map_to_list (peers d)).*2.
Definition peer_count (d : NodeDirectory) : nat := size (peers d).
Definition connected_count (d : NodeDirectory) : nat :=
  length (retain (has_status Connected) (map_to_list (peers d)).*2).
Definition is_connected (n : NodeId) (d : NodeDirectory) : bool :=
  match peers d !! n with Some p => has_status Connected p | None => false end.

(** ** Handshake *)
Record HandshakeRequest := mkHandshakeRequest {
  hs_node_id : NodeId;
  hs_wire_version : WireVersion;
  hs_app_version : option string;
  hs_adapter : string
}.
(** [None] is the panic of the [expect]. *)
Definition from_runtime (n : NodeId) (app : option string) (adapter : string) :
    option HandshakeRequest :=
  match from_str DACTOR_WIRE_VERSION with
  | Ok v => Some (mkHandshakeRequest n v app adapter)
  | Err _ => None
  end.

Inductive RejectionReason := IncompatibleProtocol | IncompatibleAdapter.
Definition RejectionReason_display (r : RejectionReason) : string :=
  match r with
  | IncompatibleProtocol => "incompatible wire protocol"
  | IncompatibleAdapter => "incompatible adapter"
  end.
Inductive HandshakeResponse :=
  | HsAccepted (node_id : NodeId) (v : WireVersion) (app : option string) (adapter : string)
  | HsRejected (node_id : NodeId) (v : WireVersion) (why : RejectionReason) (detail : string).

Definition validate_handshake (local remote : HandshakeRequest) : HandshakeResponse :=
  if negb (is_compatible (hs_wire_version local) (hs_wire_version remote)) then
    HsRejected (hs_node_id local) (hs_wire_version local) IncompatibleProtocol
      ("wire version " +:+ WireVersion_display (hs_wire_version remote)
       +:+ " is incompatible with local " +:+ WireVersion_display (hs_wire_version local)
       +:+ " (different MAJOR version)")
  else if negb (bool_decide (hs_adapter local = hs_adapter remote)) then
    HsRejected (hs_node_id local) (hs_wire_version local) IncompatibleAdapter
      ("adapter " +:+ quote +:+ hs_adapter remote +:+ quote +:+ " does not match local "
       +:+ quote +:+ hs_adapter local +:+ quote)
  else HsAccepted (hs_node_id local) (hs_wire_version local) (hs_app_version local)
         (hs_adapter local).

Definition verify_peer_identity (expected : NodeId) (r : HandshakeResponse) : result string () :=
  match r with
  | HsAccepted n _ _ _ =>
      if decide (n = expected) then Ok ()
      else Err ("peer identity mismatch: expected " +:+ NodeId_display expected +:+ ", got "
                +:+ NodeId_display n)
  | HsRejected _ _ _ _ => Ok ()
  end.

(** ** SystemActorConfig *)
Record SystemActorConfig := mkSystemActorConfig {
  spawn_manager_mailbox : MailboxConfig;
  spawn_manager_pool_size : option nat;
  control_plane_mailbox : MailboxConfig
}.
Definition SystemActorConfig_default : SystemActorConfig := mkSystemActorConfig Unbounded None Unbounded.
Definition with_spawn_manager_mailbox (m : MailboxConfig) (c : SystemActorConfig) :=
  mkSystemActorConfig m (spawn_manager_pool_size c) (control_plane_mailbox c).
Definition with_spawn_manager_pool_size (n : nat) (c : SystemActorConfig) :=
  mkSystemActorConfig (spawn_manager_mailbox c) (Some n) (control_plane_mailbox c).
Definition with_control_plane_mailbox (m : MailboxConfig) (c : SystemActorConfig) :=
  mkSystemActorConfig (spawn_manager_mailbox c) (spawn_manager_pool_size c) m.

(** ** Watching: an abstract specification
    The subscriptions as a set of (target, watcher) pairs. *)
Inductive watch_op :=
  | OpWatch (target watcher : ActorId)
  | OpUnwatch (target watcher : ActorId)
  | OpTerminated (target : ActorId).

Definition watch_step (o : watch_op) (m : WatchManager) : list WatchNotification * WatchManager :=
  match o with
  | OpWatch t w => ([], watch t w m)
  | OpUnwatch t w => ([], unwatch t w m)
  | OpTerminated t => on_terminated t m
  end.
(** Notifications are pairs as well. *)
Definition spec_step (o : watch_op) (s : gset (ActorId * ActorId)) :
    gset (ActorId * ActorId) * gset (ActorId * ActorId) :=
  match o with
  | OpWatch t w => (∅, {[(t, w)]} ∪ s)
  | OpUnwatch t w => (∅, s ∖ {[(t, w)]})
  | OpTerminated t => (filter (λ p, p.1 = t) s, filter (λ p, p.1 ≠ t) s)
  end.
Fixpoint watch_run (ops : list watch_op) (m : WatchManager) :
    list (list WatchNotification) * WatchManager :=
  match ops with
  | [] => ([], m)
  | o :: ops' =>
      let '(out, m) := watch_step o m in
      let '(outs, m) := watch_run ops' m in (out :: outs, m)
  end.
Fixpoint spec_run (ops : list watch_op) (s : gset (ActorId * ActorId)) :
    list (gset (ActorId * ActorId)) * gset (ActorId * ActorId) :=
  match ops with
  | [] => ([], s)
  | o :: ops' =>
      let '(out, s) := spec_step o s in
      let '(outs, s) := spec_run ops' s in (out :: outs, s)
  end.

(** The manager holds the pairs, and no empty set. *)
Record refines (m : WatchManager) (s : gset (ActorId * ActorId)) : Prop := {
  refines_pairs t w : w ∈ (default ∅ (watchers m !! t) : gset ActorId) ↔ (t, w) ∈ s;
  refines_nonempty t : watchers m !! t ≠ Some ∅
}.
(** Each pair is notified once. *)
Definition notifies (out : list WatchNotification) (s : gset (ActorId * ActorId)) : Prop :=
  NoDup out ∧ ∀ n, n ∈ out ↔ (wn_terminated n, wn_watcher n) ∈ s.

Lemma refines_new : refines WatchManager_new ∅.
Proof. split; intros; simpl; rewrite lookup_empty; set_solver. Qed.

(** Replacing what is kept for one target. *)
Lemma refines_update m s t (X : gset ActorId) s' :
  refines m s → X ≠ ∅ → (∀ w, w ∈ X ↔ (t, w) ∈ s') →
  (∀ t' w, t' ≠ t → (t', w) ∈ s ↔ (t', w) ∈ s') →
  refines (mkWatchManager (<[t := X]> (watchers m))) s'.
Proof.
  intros [Hp Hn] HX Ht Ho. split; intros t'; simpl; (destruct (decide (t' = t)) as [->|Hne];
    [rewrite lookup_insert_eq|rewrite lookup_insert_ne by done]).
  - simpl. apply Ht.
  - intros w. by rewrite Hp, Ho.
  - intros [= ?]. done.
  - apply Hn.
Qed.
Lemma refines_delete m s t s' :
  refines m s → (∀ w, (t, w) ∉ s') →
  (∀ t' w, t' ≠ t → (t', w) ∈ s ↔ (t', w) ∈ s') →
  refines (mkWatchManager (delete t (watchers m))) s'.
Proof.
  intros [Hp Hn] Ht Ho. split; intros t'; simpl; (destruct (decide (t' = t)) as [->|Hne];
    [rewrite lookup_delete_eq|rewrite lookup_delete_ne by done]).
  - intros w. simpl. specialize (Ht w). set_solver.
  - intros w. by rewrite Hp, Ho.
  - done.
  - apply Hn.
Qed.

Lemma watch_step_refines o m s :
  refines m s →
  let '(out, m') := watch_step o m in let '(so, s') := spec_step o s in
  notifies out so ∧ refines m' s'.
Proof.
  intros Hr. pose proof Hr as [Hp Hn].
  assert (notifies [] ∅) as Hnil.
  { split; [constructor|]. intros n. rewrite elem_of_nil. set_solver. }
  destruct o as [t w|t w|t]; simpl.
  - split; [done|]. eapply refines_update; [done|set_solver| |].
    + intros w'. rewrite elem_of_union, Hp. set_solver.
    + set_solver.
  - split; [done|]. unfold unwatch. destruct (watchers m !! t) as [X|] eqn:Hx.
    + assert (∀ w', w' ∈ X ↔ (t, w') ∈ s) as HX by (intros w'; rewrite <-Hp, Hx; done).
      case_decide as Hd.
      * eapply refines_delete; [done| |set_solver]. intros w' Hin.
        assert (w' ∈ X ∖ {[w]}); [|set_solver].
        apply elem_of_difference in Hin as [Hin Hne]. apply HX in Hin. set_solver.
      * eapply refines_update; [done|done| |set_solver].
        intros w'. rewrite elem_of_difference, HX. set_solver.
    + assert ((t, w) ∉ s) as Hns by (rewrite <-Hp, Hx; set_solver).
      by replace (s ∖ {[(t, w)]}) with s by set_solver.
  - split.
    + split.
      * apply NoDup_fmap_2; [by intros ?? [=]|apply NoDup_elements].
      * intros [t' w']. rewrite list_elem_of_fmap, elem_of_filter. simpl.
        setoid_rewrite elem_of_elements. setoid_rewrite Hp. naive_solver.
    + eapply refines_delete; [done|set_solver|]. intros t' w Hne.
      rewrite elem_of_filter. naive_solver.
Qed.

Lemma watch_run_refines ops m s :
  refines m s →
  let '(outs, m') := watch_run ops m in let '(souts, s') := spec_run ops s in
  Forall2 notifies outs souts ∧ refines m' s'.
Proof.
  revert m s. induction ops as [|o ops IH]; intros m s Hr; simpl; [by split|].
  pose proof (watch_step_refines o m s Hr) as Hs.
  destruct (watch_step o m) as [out m1], (spec_step o s) as [so s1]. destruct Hs as [Hn Hr1].
  specialize (IH m1 s1 Hr1).
  destruct (watch_run ops m1) as [outs m2], (spec_run ops s1) as [souts s2].
  destruct IH. split; [by constructor|done].
Qed.

Lemma is_compatible_sym a b : is_compatible a b = is_compatible b a.
Proof. unfold is_compatible. apply N.eqb_sym. Qed.

(** ** The properties *)
Module Spec.

(** C20. [WatchManager] implements a set of (target, watcher) pairs: in any run
    of watches, unwatches and terminations from an empty manager, each
    termination notifies every current watcher of the target exactly once and
    nobody else, and afterwards the manager holds exactly the pairs watched and
    neither unwatched nor terminated since; it keeps no empty entry. *)
Theorem watch_manager_refines ops :
  let '(outs, m) := watch_run ops WatchManager_new in
  let '(souts, s) := spec_run ops ∅ in
  Forall2 notifies outs souts ∧ refines m s.
Proof. apply watch_run_refines, refines_new. Qed.

(** The version handshake is symmetric: a node accepts a peer iff the peer
    accepts it, namely iff the wire protocols have the same major version and
    the adapters are the same; a protocol mismatch is reported before an
    adapter mismatch; and identity verification fails exactly on an accepted
    response from a node other than the expected one. *)
Theorem handshake_symmetric a b expected :
  let accepted r := match r with HsAccepted _ _ _ _ => true | _ => false end in
  accepted (validate_handshake a b) = accepted (validate_handshake b a)
  ∧ (accepted (validate_handshake a b) = true ↔
      major (hs_wire_version a) = major (hs_wire_version b) ∧ hs_adapter a = hs_adapter b)
  ∧ (∀ n v why d, validate_handshake a b = HsRejected n v why d →
      n = hs_node_id a ∧ v = hs_wire_version a ∧
      why = if decide (major (hs_wire_version a) = major (hs_wire_version b))
            then IncompatibleAdapter else IncompatibleProtocol)
  ∧ (is_err (verify_peer_identity expected (validate_handshake a b)) = true ↔
      accepted (validate_handshake a b) = true ∧ hs_node_id a ≠ expected).
Proof.
  unfold validate_handshake. rewrite (is_compatible_sym (hs_wire_version b)).
  assert (is_compatible (hs_wire_version a) (hs_wire_version b) = true ↔
    major (hs_wire_version a) = major (hs_wire_version b)) as Hc by apply N.eqb_eq.
  assert (bool_decide (hs_adapter b = hs_adapter a) = bool_decide (hs_adapter a = hs_adapter b))
    as -> by (apply bool_decide_ext; naive_solver).
  destruct (is_compatible _ _) eqn:E; simpl;
    [destruct (bool_decide_reflect (hs_adapter a = hs_adapter b)) as [Ha|Ha]|]; simpl.
  - destruct (decide (hs_node_id a = expected)); naive_solver.
  - rewrite decide_True by by apply Hc. naive_solver.
  - rewrite decide_False by (intros ?%Hc; done). naive_solver.
Qed.
End Spec.
