(* ===== verification/Cluster.v ===== *)
(** * Cluster events and state (dactor/src/cluster.rs, the cluster part of
    dactor/src/remote.rs, and src/cluster.rs of the three adapters)

    Emitters of membership events, connection management, and the snapshot of
    the cluster. A callback is a handle [Cb] that the world runs
    ([Callbacks]); it may panic. The adapters' emitter is shared: a callback may
    subscribe and unsubscribe while an event is being emitted. *)
From S2P Require Import Prelude Node Version SystemActors.

#[local] Open Scope string_scope.
#[local] Open Scope list_scope.
#[local] Open Scope nat_scope.

(** ** Events *)
Inductive NodeRejectionReason :=
  | IncompatibleProtocolRejection | IncompatibleAdapterRejection | ConnectionFailed.

#[export] Instance NodeRejectionReason_eq_dec : EqDecision NodeRejectionReason.
Proof. solve_decision. Defined.

Inductive ClusterEvent :=
  | NodeJoined (n : NodeId)
  | NodeLeft (n : NodeId)
  | NodeRejected (n : NodeId) (reason : NodeRejectionReason) (detail : string).

#[export] Instance ClusterEvent_eq_dec : EqDecision ClusterEvent.
Proof. solve_decision. Defined.

Definition NodeRejectionReason_display (r : NodeRejectionReason) : string :=
  match r with
  | IncompatibleProtocolRejection => "incompatible wire protocol"
  | IncompatibleAdapterRejection => "incompatible adapter"
  | ConnectionFailed => "connection failed"
  end.
Definition NodeRejectionReason_from (r : RejectionReason) : NodeRejectionReason :=
  match r with
  | IncompatibleProtocol => IncompatibleProtocolRejection
  | IncompatibleAdapter => IncompatibleAdapterRejection
  end.

(** The conversion keeps what is displayed. *)
Lemma from_display r :
  NodeRejectionReason_display (NodeRejectionReason_from r) = RejectionReason_display r.
Proof. by destruct r. Qed.

Abbreviation SubscriptionId := N.

(** ** Emitters *)
Section emitters.
Context {Cb : Type}.

Record ClusterEventEmitter := mkEmitter { next_id : N; subscribers : gmap SubscriptionId Cb }.

Definition Emitter_new : ClusterEventEmitter := mkEmitter 1 ∅.
(** [None] is the overflow of [next_id += 1] in a build that checks. *)
Definition Emitter_subscribe (p : profile) (on_event : Cb) (e : ClusterEventEmitter) :
    option (SubscriptionId * ClusterEventEmitter) :=
  next ← add64 p (next_id e) 1;
  Some (next_id e, mkEmitter next (<[next_id e := on_event]> (subscribers e))).
Definition Emitter_unsubscribe (id : SubscriptionId) (e : ClusterEventEmitter) :
    ClusterEventEmitter :=
  mkEmitter (next_id e) (delete id (subscribers e)).
Definition Emitter_subscriber_count (e : ClusterEventEmitter) : nat := size (subscribers e).

(** The values of the map, in its iteration order. *)
Definition callbacks (e : ClusterEventEmitter) : list Cb := (map_to_list (subscribers e)).*2.

(** [ClusterEventEmitter::emit]: a callback that panics ends it; [false] is the
    panic. *)
Context {W : Type} (call : Cb → ClusterEvent → W → bool * W).
Fixpoint emit_loop (cbs : list Cb) (event : ClusterEvent) (w : W) : bool * W :=
  match cbs with
  | [] => (true, w)
  | cb :: cbs =>
      let '(ok, w) := call cb event w in
      if (ok : bool) then emit_loop cbs event w else (false, w)
  end.
Definition Emitter_emit (event : ClusterEvent) (e : ClusterEventEmitter) (w : W) : bool * W :=
  emit_loop (callbacks e) event w.

(** The adapters' emitters: an atomic counter, which wraps; [emit] works on a
    snapshot and catches the panic of each callback. A callback also gets at the
    emitter itself. *)
Definition Adapter_subscribe (on_event : Cb) (e : ClusterEventEmitter) :
    SubscriptionId * ClusterEventEmitter :=
  (next_id e, mkEmitter (wrapping_add64 (next_id e) 1) (<[next_id e := on_event]> (subscribers e))).
Definition Adapter_unsubscribe := Emitter_unsubscribe.
End emitters.
Arguments ClusterEventEmitter : clear implicits.

Section adapter_emit.
Context {Cb W : Type}.
Context (call : Cb → ClusterEvent → ClusterEventEmitter Cb * W → bool * (ClusterEventEmitter Cb * W)).

Definition Adapter_emit (event : ClusterEvent) (s : ClusterEventEmitter Cb * W) :
    ClusterEventEmitter Cb * W :=
  foldl (λ s cb, (call cb event s).2) s (callbacks s.1).
End adapter_emit.

(** The three adapters' copies. *)
Definition Ractor_subscribe {Cb} := @Adapter_subscribe Cb.
Definition Ractor_unsubscribe {Cb} := @Adapter_unsubscribe Cb.
Definition Ractor_emit {Cb W} := @Adapter_emit Cb W.
Definition Kameo_subscribe {Cb} := @Adapter_subscribe Cb.
Definition Kameo_unsubscribe {Cb} := @Adapter_unsubscribe Cb.
Definition Kameo_emit {Cb W} := @Adapter_emit Cb W.
Definition Coerce_subscribe {Cb} := @Adapter_subscribe Cb.
Definition Coerce_unsubscribe {Cb} := @Adapter_unsubscribe Cb.
Definition Coerce_emit {Cb W} := @Adapter_emit Cb W.

(** ** Connection management *)
Record ClusterError := mkClusterError { cluster_message : string }.
Definition ClusterError_display (e : ClusterError) : string := "cluster error: " +:+ cluster_message e.

Class AdapterCluster (W : Type) := {
  connect : NodeId → W → result ClusterError () * W;
  disconnect : NodeId → W → result ClusterError () * W;
  is_reachable : NodeId → W → bool;
  connected_nodes : W → list NodeId
}.
Definition reconnect {W} `{AdapterCluster W} (n : NodeId) (w : W) : result ClusterError () * W :=
  match disconnect n w with
  | (Ok _, w) => connect n w
  | (Err e, w) => (Err e, w)
  end.

Inductive HealthStatus := Healthy | Unhealthy (reason : string) | HealthTimeout.
#[export] Instance HealthStatus_eq_dec : EqDecision HealthStatus.
Proof. solve_decision. Defined.

(** ** The snapshot *)
Record PeerVersionInfo := mkPeerVersionInfo {
  pv_wire_version : WireVersion; pv_app_version : option string; pv_adapter : string
}.
Record ClusterState := mkClusterState {
  local_node : NodeId;
  nodes : list NodeId;
  is_leader : bool;
  cs_wire_version : WireVersion;
  cs_app_version : option string;
  peer_versions : gmap NodeId PeerVersionInfo
}.
(** [None] is the panic of the [expect]. *)
Definition ClusterState_new (local : NodeId) (ns : list NodeId) : option ClusterState :=
  match from_str DACTOR_WIRE_VERSION with
  | Ok v => Some (mkClusterState local ns false v None ∅)
  | Err _ => None
  end.
Definition node_count (s : ClusterState) : nat := length (nodes s).
Definition ClusterState_contains (n : NodeId) (s : ClusterState) : bool :=
  bool_decide (n ∈ nodes s).
Definition peer_version (n : NodeId) (s : ClusterState) : option PeerVersionInfo :=
  peer_versions s !! n.

(** ** Discovery *)
Record DiscoveryError := mkDiscoveryError { discovery_message : string }.
Definition DiscoveryError_display (e : DiscoveryError) : string := discovery_message e.
Record DiscoveredPeer := mkDiscoveredPeer { peer_node_id : NodeId; peer_address : string }.
#[export] Instance DiscoveredPeer_eq_dec : EqDecision DiscoveredPeer.
Proof. solve_decision. Defined.
Definition from_address (addr : string) : DiscoveredPeer := mkDiscoveredPeer (mkNodeId addr) addr.

(** [ClusterDiscovery::discover]; the static seeds never fail. *)
Class ClusterDiscovery (D W : Type) := {
  discover : D → W → result DiscoveryError (list DiscoveredPeer) * W
}.
Record StaticSeeds := mkStaticSeeds { seed_peers : list DiscoveredPeer }.
Definition StaticSeeds_new (addresses : list string) : StaticSeeds :=
  mkStaticSeeds (from_address <$> addresses).
Definition StaticSeeds_discover {W} (s : StaticSeeds) (w : W) :
    result DiscoveryError (list DiscoveredPeer) * W :=
  (Ok (seed_peers s), w).
#[export] Instance StaticSeeds_discovery W : ClusterDiscovery StaticSeeds W :=
  {| discover := StaticSeeds_discover |}.

(** The address of a node that was found: [format!({ip}:{port})]. *)
Definition host_port (port : N) (ip : string) : string := ip +:+ ":" +:+ pretty port.
(** What every discovery makes of the addresses it found, or of its error. *)
Definition discovered {E} (display : E → string) (r : result E (list string)) :
    result DiscoveryError (list DiscoveredPeer) :=
  match r with
  | Ok addrs => Ok (from_address <$> addrs)
  | Err e => Err (mkDiscoveryError (display e))
  end.

(** ** Lemmas *)
Section emitter_lemmas.
Context {Cb : Type}.
Implicit Types e : ClusterEventEmitter Cb.

(** Every id in use is below the next one. *)
Definition emitter_wf e : Prop := ∀ id, is_Some (subscribers e !! id) → (id < next_id e)%N.

Lemma Emitter_new_wf : emitter_wf (@Emitter_new Cb).
Proof. intros id [cb Hcb]. simpl in Hcb. by rewrite lookup_empty in Hcb. Qed.
Lemma Adapter_subscribe_wf cb e id e' :
  emitter_wf e → (next_id e + 1 < 2 ^ 64)%N → Adapter_subscribe cb e = (id, e') →
  emitter_wf e' ∧ subscribers e !! id = None
  ∧ subscribers e' = <[id := cb]> (subscribers e) ∧ (id < next_id e')%N.
Proof.
  intros Hwf Hn [= <- <-]. unfold emitter_wf, wrapping_add64 in *. simpl in *.
  rewrite wrap64_small by done.
  assert (subscribers e !! next_id e = None) as Hfresh.
  { apply eq_None_not_Some. intros Hs%Hwf. lia. }
  split_and!; [|done|done|lia]. intros id'. rewrite lookup_insert_is_Some. intros [<-|[_ Hs%Hwf]]; lia.
Qed.
Lemma Adapter_unsubscribe_wf id e : emitter_wf e → emitter_wf (Adapter_unsubscribe id e).
Proof.
  intros Hwf id' [cb Hcb]. simpl in *. apply lookup_delete_Some in Hcb as [_ Hcb].
  apply Hwf. by exists cb.
Qed.
End emitter_lemmas.

(** ** The properties *)
Module Spec.

(** An event reaches every subscriber of an adapter exactly once, whoever
    they are and whatever they do: a callback that subscribes, unsubscribes
    others or itself, or panics keeps nobody from being told. The emitter of the
    core crate stops at the first callback that panics, and tells those before
    it. *)
Theorem emit_reaches_everyone {Cb W} (event : ClusterEvent)
    (call : Cb → ClusterEvent → ClusterEventEmitter Cb * W → bool * (ClusterEventEmitter Cb * W))
    (core_call : Cb → ClusterEvent → W → bool * W) (seen : W → list (Cb * ClusterEvent))
    (e : ClusterEventEmitter Cb) (w : W) :
  (∀ cb ev s, seen (call cb ev s).2.2 = seen s.2 ++ [(cb, ev)]) →
  (∀ cb ev w, seen (core_call cb ev w).2 = seen w ++ [(cb, ev)]) →
  seen (Adapter_emit call event (e, w)).2 = seen w ++ ((., event) <$> callbacks e)
  ∧ length (callbacks e) = Emitter_subscriber_count e
  ∧ ∃ told rest, callbacks e = told ++ rest
      ∧ seen (Emitter_emit core_call event e w).2 = seen w ++ ((., event) <$> told)
      ∧ ((Emitter_emit core_call event e w).1 = true → rest = []).
Proof.
  intros Hcall Hcore. unfold Adapter_emit, Emitter_emit. simpl. split_and!.
  - generalize (callbacks e) as cbs. intros cbs. revert e w.
    induction cbs as [|cb cbs IH]; intros e w; simpl; [by rewrite app_nil_r|].
    specialize (Hcall cb event (e, w)). destruct (call cb event (e, w)) as [ok [e1 w1]].
    simpl in *. by rewrite IH, Hcall, <-app_assoc.
  - unfold callbacks, Emitter_subscriber_count. by rewrite length_fmap, length_map_to_list.
  - generalize (callbacks e) as cbs. intros cbs. revert w.
    induction cbs as [|cb cbs IH]; intros w; simpl.
    { exists [], []. simpl. rewrite app_nil_r. by split_and!. }
    specialize (Hcore cb event w). destruct (core_call cb event w) as [[] w1]; simpl in *.
    + destruct (IH w1) as (told & rest & -> & Hs & Hr). exists (cb :: told), rest. simpl.
      rewrite Hs, Hcore, <-app_assoc. by split_and!.
    + exists [cb], cbs. by rewrite Hcore.
Qed.

(** The first callback unsubscribes the second and panics. *)
Definition demo_emitter : ClusterEventEmitter nat := mkEmitter 3 (<[1%N := 10]> {[2%N := 20]}).
Definition demo_call (cb : nat) (ev : ClusterEvent)
    (s : ClusterEventEmitter nat * list (nat * ClusterEvent)) :=
  (false, (Adapter_unsubscribe 2 (Adapter_unsubscribe 1 s.1), s.2 ++ [(cb, ev)])).
Lemma emit_reaches_everyone_witness :
  let ev := NodeJoined (mkNodeId "n") in
  let core := λ (cb : nat) (ev : ClusterEvent) (w : list (nat * ClusterEvent)), (false, w ++ [(cb, ev)]) in
  (length (Adapter_emit demo_call ev (demo_emitter, [])).2,
   size (subscribers (Adapter_emit demo_call ev (demo_emitter, [])).1),
   length (Emitter_emit core ev demo_emitter []).2) = (2, 0, 1)
  ∧ (Adapter_emit demo_call ev (demo_emitter, [])).2 = [] ++ ((., ev) <$> callbacks demo_emitter).
Proof.
  split; [vm_compute; reflexivity|].
  exact (proj1 (emit_reaches_everyone (NodeJoined (mkNodeId "n")) demo_call
    (λ cb ev w, (false, w ++ [(cb, ev)])) id demo_emitter []
    (λ _ _ _, eq_refl) (λ _ _ _, eq_refl))).
Defined.
End Spec.
