(* ===== verification/NativeActors.v ===== *)
(** * The native system actors (src/system_actors.rs of the three adapters)

    The managers of system_actors.rs as actors with a mailbox: a message, the
    reply it gets, and the new state. ractor has one message enum per actor,
    kameo and coerce one type per message; the handlers are the same. The
    counter of actor ids is shared with the runtime and is passed in and out. *)
From S2P Require Import Prelude Node Message TypeRegistry SystemActors.

#[local] Open Scope string_scope.
#[local] Open Scope list_scope.
#[local] Open Scope nat_scope.

(** ** Spawn manager *)
Section spawn_manager.
Context {U : Type}.

(** [next_local.fetch_add(1, SeqCst)] and the id made of it. *)
Definition assign_id (node : NodeId) (next_local : N) : ActorId * N :=
  (mkActorId node next_local, wrapping_add64 next_local 1).

Definition SpawnResult := result SpawnResponse (ActorId * AnyBox U).

(** Create the actor, give it an id, record it. *)
Definition spawn_request (node : NodeId) (request : SpawnRequest) (m : SpawnManager U)
    (next_local : N) : SpawnResult * SpawnManager U * N :=
  match SpawnManager_create_actor m request with
  | Ok actor =>
      let '(actor_id, next_local) := assign_id node next_local in
      (Ok (actor_id, actor), record_spawn actor_id m, next_local)
  | Err e =>
      (Err (SpawnFailure (sr_request_id request) (SerializationError_display e)), m, next_local)
  end.

Inductive SpawnManagerMsg :=
  | HandleRequest (request : SpawnRequest)
  | RegisterFactory (type_name : string) (factory : FactoryFn (U := U))
  | GetSpawnedActors.
Inductive SpawnManagerReply :=
  | SpawnReply (r : SpawnResult)
  | FactoryRegistered
  | SpawnedActors (ids : list ActorId).

Record SpawnManagerState := mkSpawnManagerState {
  sms_manager : SpawnManager U; sms_node_id : NodeId
}.
(** [pre_start] / [on_start] / [new], on the node, its registry. *)
Definition SpawnManagerActor_new (node : NodeId) (r : TypeRegistry U) : SpawnManagerState :=
  mkSpawnManagerState (SpawnManager_new r) node.

Definition SpawnManagerActor_handle (message : SpawnManagerMsg) (s : SpawnManagerState)
    (next_local : N) : SpawnManagerReply * SpawnManagerState * N :=
  match message with
  | HandleRequest request =>
      let '(r, m, next_local) := spawn_request (sms_node_id s) request (sms_manager s) next_local in
      (SpawnReply r, mkSpawnManagerState m (sms_node_id s), next_local)
  | RegisterFactory type_name factory =>
      let m := sms_manager s in
      (FactoryRegistered,
       mkSpawnManagerState (mkSpawnManager (register_factory type_name factory (sm_registry m)) (spawned m))
         (sms_node_id s), next_local)
  | GetSpawnedActors => (SpawnedActors (spawned (sms_manager s)), s, next_local)
  end.
End spawn_manager.
Arguments SpawnManagerMsg : clear implicits.
Arguments SpawnManagerReply : clear implicits.
Arguments SpawnManagerState : clear implicits.
Arguments SpawnResult : clear implicits.

(** ** Watch manager *)
Inductive WatchManagerMsg :=
  | WatchMsg (target watcher : ActorId)
  | UnwatchMsg (target watcher : ActorId)
  | OnTerminatedMsg (terminated : ActorId)
  | GetWatchedCount.
Inductive WatchManagerReply :=
  | WatchNoReply | Notifications (l : list WatchNotification) | WatchedCount (n : nat).
Definition WatchManagerActor_handle (message : WatchManagerMsg) (m : WatchManager) :
    WatchManagerReply * WatchManager :=
  match message with
  | WatchMsg target watcher => (WatchNoReply, watch target watcher m)
  | UnwatchMsg target watcher => (WatchNoReply, unwatch target watcher m)
  | OnTerminatedMsg terminated =>
      let '(notifications, m) := on_terminated terminated m in (Notifications notifications, m)
  | GetWatchedCount => (WatchedCount (watched_count m), m)
  end.

(** ** Cancel manager
    The token that is cancelled comes with the reply. *)
Inductive CancelManagerMsg :=
  | RegisterCancel (request_id : string) (token : N)
  | CancelMsg (request_id : string)
  | CompleteMsg (request_id : string)
  | GetActiveCount.
Inductive CancelManagerReply :=
  | CancelNoReply | CancelReply (r : CancelResponse) (token : option N) | ActiveCount (n : nat).
Definition CancelManagerActor_handle (message : CancelManagerMsg) (m : CancelManager) :
    CancelManagerReply * CancelManager :=
  match message with
  | RegisterCancel request_id token => (CancelNoReply, cancel_register request_id token m)
  | CancelMsg request_id =>
      let '((r, token), m) := cancel request_id m in (CancelReply r token, m)
  | CompleteMsg request_id => (CancelNoReply, cancel_remove request_id m)
  | GetActiveCount => (ActiveCount (active_count m), m)
  end.

(** ** Node directory *)
Definition option_or {A} (o o' : option A) : option A :=
  match o with Some _ => o | None => o' end.
(** Register a peer as connected, keeping a known address if none is given. *)
Definition connect_directory (peer_id : NodeId) (addr : option string) (d : NodeDirectory) :
    NodeDirectory :=
  let d :=
    match get_peer peer_id d with
    | Some existing => add_peer peer_id (option_or addr (address existing)) (remove_peer peer_id d)
    | None => add_peer peer_id addr d
    end in
  set_status peer_id Connected d.

Inductive NodeDirectoryMsg :=
  | ConnectPeerMsg (peer_id : NodeId) (addr : option string)
  | DisconnectPeerMsg (peer_id : NodeId)
  | IsConnectedMsg (peer_id : NodeId)
  | GetPeerCount
  | GetConnectedCount
  | GetPeerInfo (peer_id : NodeId).
Inductive NodeDirectoryReply :=
  | DirectoryNoReply | ConnectedReply (b : bool) | PeerCount (n : nat)
  | PeerInfoReply (p : option PeerInfo).
Definition NodeDirectoryActor_handle (message : NodeDirectoryMsg) (d : NodeDirectory) :
    NodeDirectoryReply * NodeDirectory :=
  match message with
  | ConnectPeerMsg peer_id addr => (DirectoryNoReply, connect_directory peer_id addr d)
  | DisconnectPeerMsg peer_id => (DirectoryNoReply, set_status peer_id Disconnected d)
  | IsConnectedMsg peer_id => (ConnectedReply (is_connected peer_id d), d)
  | GetPeerCount => (PeerCount (peer_count d), d)
  | GetConnectedCount => (PeerCount (connected_count d), d)
  | GetPeerInfo peer_id => (PeerInfoReply (get_peer peer_id d), d)
  end.

(** ** The copies of kameo and coerce *)
Definition Kameo_SpawnManagerActor {U} := @SpawnManagerActor_handle U.
Definition Kameo_WatchManagerActor := WatchManagerActor_handle.
Definition Kameo_CancelManagerActor := CancelManagerActor_handle.
Definition Kameo_NodeDirectoryActor := NodeDirectoryActor_handle.
Definition Coerce_SpawnManagerActor {U} := @SpawnManagerActor_handle U.
Definition Coerce_WatchManagerActor := WatchManagerActor_handle.
Definition Coerce_CancelManagerActor := CancelManagerActor_handle.
Definition Coerce_NodeDirectoryActor := NodeDirectoryActor_handle.

(** ** Lemmas *)
Lemma connect_directory_lookup peer addr d n :
  peers (connect_directory peer addr d) !! n
  = if decide (n = peer)
    then Some (mkPeerInfo peer Connected (option_or addr (p ← peers d !! peer; address p)))
    else peers d !! n.
Proof.
  unfold connect_directory, get_peer, set_status, add_peer, remove_peer. simpl.
  destruct (peers d !! peer) as [p|] eqn:Hp; simpl; rewrite lookup_insert_eq; simpl;
    (destruct (decide (n = peer)) as [->|Hne];
     [rewrite lookup_insert_eq|rewrite !lookup_insert_ne by done]); try done.
  - by rewrite lookup_delete_ne.
  - by destruct addr.
Qed.

Lemma disconnect_directory_lookup peer s d n :
  peers (set_status peer s d) !! n
  = if decide (n = peer)
    then (λ p, mkPeerInfo (pi_node_id p) s (address p)) <$> peers d !! peer else peers d !! n.
Proof.
  unfold set_status. destruct (peers d !! peer) as [p|] eqn:Hp; simpl;
    (destruct (decide (n = peer)) as [->|Hne]; [|]); simpl.
  - by rewrite lookup_insert_eq.
  - by rewrite lookup_insert_ne.
  - done.
  - done.
Qed.

Lemma connected_after p addr d n :
  is_connected n (connect_directory p addr d) = bool_decide (n = p) || is_connected n d.
Proof.
  unfold is_connected at 1. rewrite connect_directory_lookup.
  destruct (decide (n = p)) as [->|Hne]; simpl; [by rewrite bool_decide_eq_true_2|].
  by rewrite bool_decide_eq_false_2.
Qed.
Lemma disconnected_after p d n :
  is_connected n (set_status p Disconnected d) = negb (bool_decide (n = p)) && is_connected n d.
Proof.
  unfold is_connected at 1. rewrite disconnect_directory_lookup.
  destruct (decide (n = p)) as [->|Hne]; simpl.
  - rewrite bool_decide_eq_true_2 by done. by destruct (peers d !! p).
  - by rewrite bool_decide_eq_false_2.
Qed.
