(* ===== verification/Proto.v ===== *)
(** * The protobuf wire format (dactor/src/proto.rs, dactor/proto/system.proto)

    The records are the messages of system.proto, the shape prost gives them:
    a sub-message is an [option], an [enum] field an [i32]. The byte codec
    itself is generated by prost-build: it is the class [ProstMessage], and
    what the code relies on, that decoding inverts encoding, is [ProstLaws].
    Everything around it is here: size limits, required fields, the
    conversions between wire records and the types of the crate. *)
From S2P Require Import Prelude Node Message Version TypeRegistry Mailbox SystemActors.
From stdpp Require Import countable.
From Stdlib Require Import Strings.Byte.

#[local] Open Scope string_scope.
#[local] Open Scope list_scope.
#[local] Open Scope nat_scope.

(** ** The schema *)
Record ActorIdProto := mkActorIdProto { aip_node_id : string; aip_local : N }.
Record SpawnRequestProto := mkSpawnRequestProto {
  srp_type_name : string; srp_args_bytes : bytes; srp_name : string; srp_request_id : string
}.
Record SpawnSuccessProto := mkSpawnSuccessProto {
  ssp_request_id : string; ssp_actor_id : option ActorIdProto
}.
Record SpawnFailureProto := mkSpawnFailureProto { sfp_request_id : string; sfp_error : string }.
Inductive spawn_response_result :=
  | SRSuccess (s : SpawnSuccessProto)
  | SRFailure (f : SpawnFailureProto).
Record SpawnResponseProto := mkSpawnResponseProto { srr_result : option spawn_response_result }.
Record WatchRequestProto := mkWatchRequestProto {
  wrp_target : option ActorIdProto; wrp_watcher : option ActorIdProto
}.
Record UnwatchRequestProto := mkUnwatchRequestProto {
  urp_target : option ActorIdProto; urp_watcher : option ActorIdProto
}.
Record WatchNotificationProto := mkWatchNotificationProto {
  wnp_terminated : option ActorIdProto; wnp_watcher : option ActorIdProto
}.
Record CancelRequestProto := mkCancelRequestProto {
  crp_target : option ActorIdProto; crp_request_id : option string
}.
Inductive cancel_response_result := CRAcknowledged | CRNotFound (reason : string).
Record CancelResponseProto := mkCancelResponseProto { crr_result : option cancel_response_result }.
Record ConnectPeerProto := mkConnectPeerProto { cpp_node_id : string; cpp_address : option string }.
Record DisconnectPeerProto := mkDisconnectPeerProto { dpp_node_id : string }.
Record HandshakeRequestProto := mkHandshakeRequestProto {
  hrp_node_id : string; hrp_wire_version : string; hrp_app_version : option string;
  hrp_adapter : string
}.
Record HandshakeAcceptedProto := mkHandshakeAcceptedProto {
  hap_node_id : string; hap_wire_version : string; hap_app_version : option string;
  hap_adapter : string
}.
Record HandshakeRejectedProto := mkHandshakeRejectedProto {
  hjp_node_id : string; hjp_wire_version : string; hjp_reason : Z; hjp_detail : string
}.
Inductive handshake_response_result :=
  | HRAccepted (a : HandshakeAcceptedProto)
  | HRRejected (r : HandshakeRejectedProto).
Record HandshakeResponseProto := mkHandshakeResponseProto {
  hrr_result : option handshake_response_result
}.
Record WireEnvelopeProto := mkWireEnvelopeProto {
  wep_target : option ActorIdProto; wep_target_name : string; wep_message_type : string;
  wep_send_mode : Z; wep_headers : gmap string bytes; wep_body : bytes;
  wep_request_id : option string; wep_version : option N
}.

(** The enums, with [as i32] and [try_from]. *)
Inductive RejectionReasonProto :=
  | RejectionReasonIncompatibleProtocol
  | RejectionReasonIncompatibleAdapter.
Definition RejectionReasonProto_as_i32 (r : RejectionReasonProto) : Z :=
  match r with
  | RejectionReasonIncompatibleProtocol => 0
  | RejectionReasonIncompatibleAdapter => 1
  end.
Definition RejectionReasonProto_try_from (v : Z) : option RejectionReasonProto :=
  match v with
  | 0%Z => Some RejectionReasonIncompatibleProtocol
  | 1%Z => Some RejectionReasonIncompatibleAdapter
  | _ => None
  end.
Inductive SendModeProto :=
  | SendModeTell | SendModeAsk | SendModeExpand | SendModeReduce | SendModeTransform.
Definition SendModeProto_as_i32 (m : SendModeProto) : Z :=
  match m with
  | SendModeTell => 0 | SendModeAsk => 1 | SendModeExpand => 2 | SendModeReduce => 3
  | SendModeTransform => 4
  end.
Definition SendModeProto_try_from (v : Z) : option SendModeProto :=
  match v with
  | 0%Z => Some SendModeTell
  | 1%Z => Some SendModeAsk
  | 2%Z => Some SendModeExpand
  | 3%Z => Some SendModeReduce
  | 4%Z => Some SendModeTransform
  | _ => None
  end.

(** ** The generated codec *)
Class ProstMessage (M : Type) := {
  encode_to_vec : M → bytes;
  prost_decode : bytes → result string M
}.
Class ProstLaws (M : Type) `{ProstMessage M} := {
  prost_roundtrip (m : M) : prost_decode (encode_to_vec m) = Ok m
}.

(** ** Size limits and field conversions *)
Definition MAX_SYSTEM_MSG_SIZE : N := 4 * 1024 * 1024.
Definition MAX_WIRE_ENVELOPE_SIZE : N := 64 * 1024 * 1024.

Definition check_size (b : bytes) (limit : N) (what : string) : result SerializationError () :=
  if (limit <? len_N b)%N then
    Err (SerializationError_new
      (what +:+ ": payload too large (" +:+ pretty (len_N b) +:+ " bytes, max " +:+ pretty limit
       +:+ ")"))
  else Ok ().

Definition actor_id_to_proto (id : ActorId) : ActorIdProto :=
  mkActorIdProto (node_str (node id)) (local id).
Definition actor_id_from_proto (p : ActorIdProto) : result SerializationError ActorId :=
  if str_is_empty (aip_node_id p) then
    Err (SerializationError_new "ActorId: node_id must not be empty")
  else Ok (mkActorId (mkNodeId (aip_node_id p)) (aip_local p)).
Definition require_actor_id (field : option ActorIdProto) (name : string) :
    result SerializationError ActorId :=
  p ← ok_or field (SerializationError_new ("missing required field: " +:+ name));
  actor_id_from_proto p.

(** The early return on an empty required string. *)
Definition require_not_empty (s what field : string) : result SerializationError () :=
  if str_is_empty s then
    Err (SerializationError_new (what +:+ ": " +:+ field +:+ " must not be empty"))
  else Ok ().
(** [T::decode(bytes).map_err(..)]. *)
Definition decode_proto (M : Type) `{ProstMessage M} (what : string) (b : bytes) :
    result SerializationError M :=
  map_err (λ e, SerializationError_new ("decode " +:+ what +:+ ": " +:+ e)) (prost_decode b).
(** [WireVersion::parse(&s).map_err(..)]. *)
Definition parse_version (what s : string) : result SerializationError WireVersion :=
  map_err (λ e, SerializationError_new
    (what +:+ ": invalid wire_version: " +:+ ParseWireVersionError_display e)) (from_str s).

Definition rejection_reason_to_proto (r : RejectionReason) : RejectionReasonProto :=
  match r with
  | IncompatibleProtocol => RejectionReasonIncompatibleProtocol
  | IncompatibleAdapter => RejectionReasonIncompatibleAdapter
  end.
Definition rejection_reason_from_proto (v : Z) : result SerializationError RejectionReason :=
  match RejectionReasonProto_try_from v with
  | Some RejectionReasonIncompatibleProtocol => Ok IncompatibleProtocol
  | Some RejectionReasonIncompatibleAdapter => Ok IncompatibleAdapter
  | None => Err (SerializationError_new ("unknown RejectionReason value: " +:+ pretty v))
  end.
Definition send_mode_to_proto (m : SendMode) : Z :=
  match m with
  | Tell => SendModeProto_as_i32 SendModeTell
  | Ask => SendModeProto_as_i32 SendModeAsk
  | Expand => SendModeProto_as_i32 SendModeExpand
  | Reduce => SendModeProto_as_i32 SendModeReduce
  | Transform => SendModeProto_as_i32 SendModeTransform
  end.
Definition send_mode_from_proto (v : Z) : result SerializationError SendMode :=
  match SendModeProto_try_from v with
  | Some SendModeTell => Ok Tell
  | Some SendModeAsk => Ok Ask
  | Some SendModeExpand => Ok Expand
  | Some SendModeReduce => Ok Reduce
  | Some SendModeTransform => Ok Transform
  | None => Err (SerializationError_new ("unknown SendMode value: " +:+ pretty v))
  end.

(** ** Encoders and decoders *)
Section codecs.
Context `{ProstMessage SpawnRequestProto} `{ProstMessage SpawnResponseProto}
  `{ProstMessage WatchRequestProto} `{ProstMessage UnwatchRequestProto}
  `{ProstMessage WatchNotificationProto} `{ProstMessage CancelRequestProto}
  `{ProstMessage CancelResponseProto} `{ProstMessage ConnectPeerProto}
  `{ProstMessage DisconnectPeerProto} `{ProstMessage HandshakeRequestProto}
  `{ProstMessage HandshakeResponseProto} `{ProstMessage WireEnvelopeProto}.

Definition encode_spawn_request (r : SpawnRequest) : bytes :=
  encode_to_vec
    (mkSpawnRequestProto (sr_type_name r) (sr_args_bytes r) (sr_name r) (sr_request_id r)).
Definition decode_spawn_request (b : bytes) : result SerializationError SpawnRequest :=
  _ ← check_size b MAX_SYSTEM_MSG_SIZE "SpawnRequest";
  p ← decode_proto SpawnRequestProto "SpawnRequest" b;
  _ ← require_not_empty (srp_type_name p) "SpawnRequest" "type_name";
  _ ← require_not_empty (srp_request_id p) "SpawnRequest" "request_id";
  Ok (mkSpawnRequest (srp_type_name p) (srp_args_bytes p) (srp_name p) (srp_request_id p)).

Definition encode_spawn_response (r : SpawnResponse) : bytes :=
  encode_to_vec match r with
  | SpawnSuccess request_id actor_id =>
      mkSpawnResponseProto
        (Some (SRSuccess (mkSpawnSuccessProto request_id (Some (actor_id_to_proto actor_id)))))
  | SpawnFailure request_id error =>
      mkSpawnResponseProto (Some (SRFailure (mkSpawnFailureProto request_id error)))
  end.
Definition decode_spawn_response (b : bytes) : result SerializationError SpawnResponse :=
  _ ← check_size b MAX_SYSTEM_MSG_SIZE "SpawnResponse";
  p ← decode_proto SpawnResponseProto "SpawnResponse" b;
  match srr_result p with
  | Some (SRSuccess s) =>
      id ← require_actor_id (ssp_actor_id s) "SpawnSuccess.actor_id";
      Ok (SpawnSuccess (ssp_request_id s) id)
  | Some (SRFailure f) => Ok (SpawnFailure (sfp_request_id f) (sfp_error f))
  | None => Err (SerializationError_new "SpawnResponse: missing oneof result")
  end.

Definition encode_watch_request (r : WatchRequest) : bytes :=
  encode_to_vec (mkWatchRequestProto (Some (actor_id_to_proto (wr_target r)))
    (Some (actor_id_to_proto (wr_watcher r)))).
Definition decode_watch_request (b : bytes) : result SerializationError WatchRequest :=
  _ ← check_size b MAX_SYSTEM_MSG_SIZE "WatchRequest";
  p ← decode_proto WatchRequestProto "WatchRequest" b;
  target ← require_actor_id (wrp_target p) "WatchRequest.target";
  watcher ← require_actor_id (wrp_watcher p) "WatchRequest.watcher";
  Ok (mkWatchRequest target watcher).

Definition encode_unwatch_request (r : UnwatchRequest) : bytes :=
  encode_to_vec (mkUnwatchRequestProto (Some (actor_id_to_proto (ur_target r)))
    (Some (actor_id_to_proto (ur_watcher r)))).
Definition decode_unwatch_request (b : bytes) : result SerializationError UnwatchRequest :=
  _ ← check_size b MAX_SYSTEM_MSG_SIZE "UnwatchRequest";
  p ← decode_proto UnwatchRequestProto "UnwatchRequest" b;
  target ← require_actor_id (urp_target p) "UnwatchRequest.target";
  watcher ← require_actor_id (urp_watcher p) "UnwatchRequest.watcher";
  Ok (mkUnwatchRequest target watcher).

Definition encode_watch_notification (n : WatchNotification) : bytes :=
  encode_to_vec (mkWatchNotificationProto (Some (actor_id_to_proto (wn_terminated n)))
    (Some (actor_id_to_proto (wn_watcher n)))).
Definition decode_watch_notification (b : bytes) : result SerializationError WatchNotification :=
  _ ← check_size b MAX_SYSTEM_MSG_SIZE "WatchNotification";
  p ← decode_proto WatchNotificationProto "WatchNotification" b;
  terminated ← require_actor_id (wnp_terminated p) "WatchNotification.terminated";
  watcher ← require_actor_id (wnp_watcher p) "WatchNotification.watcher";
  Ok (mkWatchNotification terminated watcher).

Definition encode_cancel_request (r : CancelRequest) : bytes :=
  encode_to_vec (mkCancelRequestProto (Some (actor_id_to_proto (cr_target r))) (cr_request_id r)).
Definition decode_cancel_request (b : bytes) : result SerializationError CancelRequest :=
  _ ← check_size b MAX_SYSTEM_MSG_SIZE "CancelRequest";
  p ← decode_proto CancelRequestProto "CancelRequest" b;
  target ← require_actor_id (crp_target p) "CancelRequest.target";
  Ok (mkCancelRequest target (crp_request_id p)).

Definition encode_cancel_response (r : CancelResponse) : bytes :=
  encode_to_vec match r with
  | Acknowledged => mkCancelResponseProto (Some CRAcknowledged)
  | CancelRequestNotFound reason => mkCancelResponseProto (Some (CRNotFound reason))
  end.
Definition decode_cancel_response (b : bytes) : result SerializationError CancelResponse :=
  _ ← check_size b MAX_SYSTEM_MSG_SIZE "CancelResponse";
  p ← decode_proto CancelResponseProto "CancelResponse" b;
  match crr_result p with
  | Some CRAcknowledged => Ok Acknowledged
  | Some (CRNotFound reason) => Ok (CancelRequestNotFound reason)
  | None => Err (SerializationError_new "CancelResponse: missing oneof result")
  end.

Definition encode_connect_peer (n : NodeId) (address : option string) : bytes :=
  encode_to_vec (mkConnectPeerProto (node_str n) address).
Definition decode_connect_peer (b : bytes) :
    result SerializationError (NodeId * option string) :=
  _ ← check_size b MAX_SYSTEM_MSG_SIZE "ConnectPeer";
  p ← decode_proto ConnectPeerProto "ConnectPeer" b;
  _ ← require_not_empty (cpp_node_id p) "ConnectPeer" "node_id";
  Ok (mkNodeId (cpp_node_id p), cpp_address p).

Definition encode_disconnect_peer (n : NodeId) : bytes :=
  encode_to_vec (mkDisconnectPeerProto (node_str n)).
Definition decode_disconnect_peer (b : bytes) : result SerializationError NodeId :=
  _ ← check_size b MAX_SYSTEM_MSG_SIZE "DisconnectPeer";
  p ← decode_proto DisconnectPeerProto "DisconnectPeer" b;
  _ ← require_not_empty (dpp_node_id p) "DisconnectPeer" "node_id";
  Ok (mkNodeId (dpp_node_id p)).

Definition encode_handshake_request (r : HandshakeRequest) : bytes :=
  encode_to_vec (mkHandshakeRequestProto (node_str (hs_node_id r))
    (WireVersion_display (hs_wire_version r)) (hs_app_version r) (hs_adapter r)).
Definition decode_handshake_request (b : bytes) : result SerializationError HandshakeRequest :=
  _ ← check_size b MAX_SYSTEM_MSG_SIZE "HandshakeRequest";
  p ← decode_proto HandshakeRequestProto "HandshakeRequest" b;
  _ ← require_not_empty (hrp_node_id p) "HandshakeRequest" "node_id";
  _ ← require_not_empty (hrp_wire_version p) "HandshakeRequest" "wire_version";
  _ ← require_not_empty (hrp_adapter p) "HandshakeRequest" "adapter";
  v ← parse_version "HandshakeRequest" (hrp_wire_version p);
  Ok (mkHandshakeRequest (mkNodeId (hrp_node_id p)) v (hrp_app_version p) (hrp_adapter p)).

Definition encode_handshake_response (r : HandshakeResponse) : bytes :=
  encode_to_vec match r with
  | HsAccepted n v app adapter =>
      mkHandshakeResponseProto (Some (HRAccepted
        (mkHandshakeAcceptedProto (node_str n) (WireVersion_display v) app adapter)))
  | HsRejected n v why detail =>
      mkHandshakeResponseProto (Some (HRRejected
        (mkHandshakeRejectedProto (node_str n) (WireVersion_display v)
          (RejectionReasonProto_as_i32 (rejection_reason_to_proto why)) detail)))
  end.
Definition decode_handshake_response (b : bytes) : result SerializationError HandshakeResponse :=
  _ ← check_size b MAX_SYSTEM_MSG_SIZE "HandshakeResponse";
  p ← decode_proto HandshakeResponseProto "HandshakeResponse" b;
  match hrr_result p with
  | Some (HRAccepted a) =>
      _ ← require_not_empty (hap_node_id a) "HandshakeAccepted" "node_id";
      _ ← require_not_empty (hap_wire_version a) "HandshakeAccepted" "wire_version";
      _ ← require_not_empty (hap_adapter a) "HandshakeAccepted" "adapter";
      v ← parse_version "HandshakeAccepted" (hap_wire_version a);
      Ok (HsAccepted (mkNodeId (hap_node_id a)) v (hap_app_version a) (hap_adapter a))
  | Some (HRRejected r) =>
      _ ← require_not_empty (hjp_node_id r) "HandshakeRejected" "node_id";
      _ ← require_not_empty (hjp_wire_version r) "HandshakeRejected" "wire_version";
      v ← parse_version "HandshakeRejected" (hjp_wire_version r);
      why ← rejection_reason_from_proto (hjp_reason r);
      Ok (HsRejected (mkNodeId (hjp_node_id r)) v why (hjp_detail r))
  | None => Err (SerializationError_new "HandshakeResponse: missing oneof result")
  end.

(** *** WireEnvelope framing. [Uuid]'s printer and parser are the uuid crate's. *)
Context (uuid_to_string : Uuid → string) (uuid_parse_str : string → result string Uuid).

Definition parse_request_id (s : option string) : result SerializationError (option Uuid) :=
  match s with
  | Some s =>
      match uuid_parse_str s with
      | Ok u => Ok (Some u)
      | Err e => Err (SerializationError_new ("invalid request_id UUID: " +:+ e))
      end
  | None => Ok None
  end.
Definition encode_wire_envelope (env : WireEnvelope) : bytes :=
  encode_to_vec (mkWireEnvelopeProto (Some (actor_id_to_proto (target env))) (target_name env)
    (message_type env) (send_mode_to_proto (send_mode env)) (entries (headers env)) (body env)
    (uuid_to_string <$> request_id env) (version env)).
Definition decode_wire_envelope (b : bytes) : result SerializationError WireEnvelope :=
  _ ← check_size b MAX_WIRE_ENVELOPE_SIZE "WireEnvelope";
  p ← decode_proto WireEnvelopeProto "WireEnvelope" b;
  tgt ← require_actor_id (wep_target p) "WireEnvelope.target";
  mode ← send_mode_from_proto (wep_send_mode p);
  rid ← parse_request_id (wep_request_id p);
  Ok (mkWireEnvelope tgt (wep_target_name p) (wep_message_type p) mode
    (mkWireHeaders (wep_headers p)) (wep_body p) rid (wep_version p)).

End codecs.

(** ** Lemmas *)
Lemma check_size_Ok b limit what u : check_size b limit what = Ok u ↔ (len_N b <= limit)%N.
Proof.
  unfold check_size. destruct (N.ltb_spec limit (len_N b)); destruct u; split; done || lia.
Qed.
Lemma require_not_empty_Ok s what field u : require_not_empty s what field = Ok u ↔ s ≠ "".
Proof. unfold require_not_empty. destruct s, u; by split. Qed.
Lemma parse_version_Ok what s v :
  parse_version what s = Ok v ↔ s = WireVersion_display v ∧ WireVersion_wf v.
Proof.
  unfold parse_version. split.
  - destruct (from_str s) as [v'|] eqn:E; simpl; [|done]. intros [= ->].
    by apply from_str_sound in E as [<- ?].
  - intros [-> ?]. by rewrite from_str_display.
Qed.
Lemma decode_encode `{ProstLaws M} what (m : M) : decode_proto M what (encode_to_vec m) = Ok m.
Proof. unfold decode_proto. by rewrite prost_roundtrip. Qed.

(** What travels: an id with a node. *)
Definition id_wf (a : ActorId) : Prop := node_str (node a) ≠ "".

Lemma require_actor_id_Ok field name a :
  require_actor_id field name = Ok a ↔ field = Some (actor_id_to_proto a) ∧ id_wf a.
Proof.
  unfold require_actor_id, actor_id_from_proto, id_wf.
  destruct field as [[n l]|]; simpl; [|naive_solver].
  destruct a as [[n'] l']. unfold actor_id_to_proto. simpl.
  destruct n; simpl; naive_solver.
Qed.
Lemma rejection_reason_roundtrip r :
  rejection_reason_from_proto (RejectionReasonProto_as_i32 (rejection_reason_to_proto r)) = Ok r.
Proof. by destruct r. Qed.
Lemma send_mode_roundtrip m : send_mode_from_proto (send_mode_to_proto m) = Ok m.
Proof. by destruct m. Qed.

(** The contract of an encoder and decoder pair, for the messages [W] that may
    travel: what fits the limit comes back as it was, and the decoder, run on
    any bytes at all, returns only messages of [W] from at most [limit] bytes. *)
Definition codec_contract {M} (enc : M → bytes) (dec : bytes → result SerializationError M)
    (W : M → Prop) (limit : N) : Prop :=
  (∀ m, W m → (len_N (enc m) <= limit)%N → dec (enc m) = Ok m) ∧
  (∀ b m, dec b = Ok m → W m ∧ (len_N b <= limit)%N).

Definition SpawnRequest_wf (r : SpawnRequest) : Prop :=
  sr_type_name r ≠ "" ∧ sr_request_id r ≠ "".
Definition SpawnResponse_wf (r : SpawnResponse) : Prop :=
  match r with SpawnSuccess _ a => id_wf a | SpawnFailure _ _ => True end.
Definition HandshakeRequest_wf (r : HandshakeRequest) : Prop :=
  node_str (hs_node_id r) ≠ "" ∧ WireVersion_wf (hs_wire_version r) ∧ hs_adapter r ≠ "".
Definition HandshakeResponse_wf (r : HandshakeResponse) : Prop :=
  match r with
  | HsAccepted n v _ adapter => node_str n ≠ "" ∧ WireVersion_wf v ∧ adapter ≠ ""
  | HsRejected n v _ _ => node_str n ≠ "" ∧ WireVersion_wf v
  end.

#[local] Arguments check_size : simpl never.
#[local] Arguments require_actor_id : simpl never.
#[local] Arguments require_not_empty : simpl never.
#[local] Arguments parse_version : simpl never.
#[local] Arguments rejection_reason_from_proto : simpl never.

(** One step of a decoder, in a goal and in a hypothesis. *)
Lemma bind_Ok_step {E A B} (r : result E A) (f : A → result E B) a res :
  r = Ok a → f a = res → (r ≫= f) = res.
Proof. by intros -> <-. Qed.
Ltac codec_step :=
  eapply bind_Ok_step;
    [ first [ apply (check_size_Ok _ _ _ ()); eassumption
            | apply decode_encode
            | apply (require_not_empty_Ok _ _ _ ()); by eauto using WireVersion_display_not_empty
            | by apply require_actor_id_Ok
            | by apply parse_version_Ok
            | apply rejection_reason_roundtrip
            | apply send_mode_roundtrip ]
    | cbn ].
Ltac codec_inv H :=
  repeat (let x := fresh "x" in let Hx := fresh "Hx" in
    apply result_bind_Ok_inv in H as (x & Hx & H);
    first [ apply check_size_Ok in Hx
          | apply require_not_empty_Ok in Hx
          | apply require_actor_id_Ok in Hx as [_ Hx]
          | apply parse_version_Ok in Hx as [_ Hx]
          | idtac ]).
(** [split] into the two halves of a contract, whose message is [m]. *)
Ltac codec :=
  split;
  [ intros []; unfold SpawnRequest_wf, HandshakeRequest_wf; simpl; intros; destruct_and?;
    repeat codec_step; repeat match goal with n : NodeId |- _ => destruct n end; reflexivity
  | intros bs msg Hdec; codec_inv Hdec; repeat case_match; codec_inv Hdec; simplify_eq/=;
    unfold SpawnRequest_wf, HandshakeRequest_wf; cbn; split_and?; done ].

(** ** A concrete codec
    Any countable type has one: the bits of its code, a byte each. It stands
    for the generated codec where the theorems are instantiated. *)
Module CountableCodec.

#[export] Instance byte_countable : Countable Byte.byte.
Proof. refine (inj_countable Byte.to_N Byte.of_N _). apply Byte.of_to_N. Defined.

Fixpoint bits_of (p : positive) : bytes :=
  match p with
  | xH => []
  | xO p => x00 :: bits_of p
  | xI p => x01 :: bits_of p
  end.
Fixpoint of_bits (b : bytes) : positive :=
  match b with
  | [] => xH
  | x :: b => (if Byte.eqb x x00 then xO else xI) (of_bits b)
  end.
Lemma of_bits_of p : of_bits (bits_of p) = p.
Proof. by induction p as [p IH|p IH|]; simpl; rewrite ?IH. Qed.

Definition codec_of (M : Type) `{Countable M} : ProstMessage M := {|
  encode_to_vec m := bits_of (countable.encode m);
  prost_decode b := ok_or (countable.decode (of_bits b)) "malformed"
|}.
Lemma codec_of_roundtrip `{Countable M} (m : M) :
  @prost_decode M (codec_of M) (@encode_to_vec M (codec_of M) m) = Ok m.
Proof. unfold codec_of. simpl. by rewrite of_bits_of, countable.decode_encode. Qed.
Definition laws_of (M : Type) `{Countable M} : @ProstLaws M (codec_of M) :=
  @Build_ProstLaws M (codec_of M) codec_of_roundtrip.

#[export] Instance ActorIdProto_eq_dec : EqDecision ActorIdProto.
Proof. solve_decision. Defined.
#[export] Instance ActorIdProto_countable : Countable ActorIdProto.
Proof.
  by refine (inj_countable' (λ m, (aip_node_id m, aip_local m))
    (λ p, mkActorIdProto p.1 p.2) _); intros [].
Defined.
#[export] Instance SpawnRequestProto_eq_dec : EqDecision SpawnRequestProto.
Proof. solve_decision. Defined.
#[export] Instance SpawnRequestProto_countable : Countable SpawnRequestProto.
Proof.
  by refine (inj_countable' (λ m, (srp_type_name m, srp_args_bytes m, srp_name m, srp_request_id m))
    (λ p, mkSpawnRequestProto p.1.1.1 p.1.1.2 p.1.2 p.2) _); intros [].
Defined.
#[export] Instance SpawnSuccessProto_eq_dec : EqDecision SpawnSuccessProto.
Proof. solve_decision. Defined.
#[export] Instance SpawnSuccessProto_countable : Countable SpawnSuccessProto.
Proof.
  by refine (inj_countable' (λ m, (ssp_request_id m, ssp_actor_id m))
    (λ p, mkSpawnSuccessProto p.1 p.2) _); intros [].
Defined.
#[export] Instance SpawnFailureProto_eq_dec : EqDecision SpawnFailureProto.
Proof. solve_decision. Defined.
#[export] Instance SpawnFailureProto_countable : Countable SpawnFailureProto.
Proof.
  by refine (inj_countable' (λ m, (sfp_request_id m, sfp_error m))
    (λ p, mkSpawnFailureProto p.1 p.2) _); intros [].
Defined.
#[export] Instance spawn_response_result_eq_dec : EqDecision spawn_response_result.
Proof. solve_decision. Defined.
#[export] Instance spawn_response_result_countable : Countable spawn_response_result.
Proof.
  by refine (inj_countable' (λ r, match r with SRSuccess s => inl s | SRFailure f => inr f end)
    (λ o, match o with inl s => SRSuccess s | inr f => SRFailure f end) _); intros [].
Defined.
#[export] Instance SpawnResponseProto_eq_dec : EqDecision SpawnResponseProto.
Proof. solve_decision. Defined.
#[export] Instance SpawnResponseProto_countable : Countable SpawnResponseProto.
Proof.
  by refine (inj_countable' (λ m, srr_result m)
    (λ p, mkSpawnResponseProto p) _); intros [].
Defined.
#[export] Instance WatchRequestProto_eq_dec : EqDecision WatchRequestProto.
Proof. solve_decision. Defined.
#[export] Instance WatchRequestProto_countable : Countable WatchRequestProto.
Proof.
  by refine (inj_countable' (λ m, (wrp_target m, wrp_watcher m))
    (λ p, mkWatchRequestProto p.1 p.2) _); intros [].
Defined.
#[export] Instance UnwatchRequestProto_eq_dec : EqDecision UnwatchRequestProto.
Proof. solve_decision. Defined.
#[export] Instance UnwatchRequestProto_countable : Countable UnwatchRequestProto.
Proof.
  by refine (inj_countable' (λ m, (urp_target m, urp_watcher m))
    (λ p, mkUnwatchRequestProto p.1 p.2) _); intros [].
Defined.
#[export] Instance WatchNotificationProto_eq_dec : EqDecision WatchNotificationProto.
Proof. solve_decision. Defined.
#[export] Instance WatchNotificationProto_countable : Countable WatchNotificationProto.
Proof.
  by refine (inj_countable' (λ m, (wnp_terminated m, wnp_watcher m))
    (λ p, mkWatchNotificationProto p.1 p.2) _); intros [].
Defined.
#[export] Instance CancelRequestProto_eq_dec : EqDecision CancelRequestProto.
Proof. solve_decision. Defined.
#[export] Instance CancelRequestProto_countable : Countable CancelRequestProto.
Proof.
  by refine (inj_countable' (λ m, (crp_target m, crp_request_id m))
    (λ p, mkCancelRequestProto p.1 p.2) _); intros [].
Defined.
#[export] Instance cancel_response_result_eq_dec : EqDecision cancel_response_result.
Proof. solve_decision. Defined.
#[export] Instance cancel_response_result_countable : Countable cancel_response_result.
Proof.
  by refine (inj_countable' (λ r, match r with CRAcknowledged => None | CRNotFound s => Some s end)
    (λ o, match o with None => CRAcknowledged | Some s => CRNotFound s end) _); intros [].
Defined.
#[export] Instance CancelResponseProto_eq_dec : EqDecision CancelResponseProto.
Proof. solve_decision. Defined.
#[export] Instance CancelResponseProto_countable : Countable CancelResponseProto.
Proof.
  by refine (inj_countable' (λ m, crr_result m)
    (λ p, mkCancelResponseProto p) _); intros [].
Defined.
#[export] Instance ConnectPeerProto_eq_dec : EqDecision ConnectPeerProto.
Proof. solve_decision. Defined.
#[export] Instance ConnectPeerProto_countable : Countable ConnectPeerProto.
Proof.
  by refine (inj_countable' (λ m, (cpp_node_id m, cpp_address m))
    (λ p, mkConnectPeerProto p.1 p.2) _); intros [].
Defined.
#[export] Instance DisconnectPeerProto_eq_dec : EqDecision DisconnectPeerProto.
Proof. solve_decision. Defined.
#[export] Instance DisconnectPeerProto_countable : Countable DisconnectPeerProto.
Proof.
  by refine (inj_countable' (λ m, dpp_node_id m)
    (λ p, mkDisconnectPeerProto p) _); intros [].
Defined.
#[export] Instance HandshakeRequestProto_eq_dec : EqDecision HandshakeRequestProto.
Proof. solve_decision. Defined.
#[export] Instance HandshakeRequestProto_countable : Countable HandshakeRequestProto.
Proof.
  by refine (inj_countable' (λ m, (hrp_node_id m, hrp_wire_version m, hrp_app_version m, hrp_adapter m))
    (λ p, mkHandshakeRequestProto p.1.1.1 p.1.1.2 p.1.2 p.2) _); intros [].
Defined.
#[export] Instance HandshakeAcceptedProto_eq_dec : EqDecision HandshakeAcceptedProto.
Proof. solve_decision. Defined.
#[export] Instance HandshakeAcceptedProto_countable : Countable HandshakeAcceptedProto.
Proof.
  by refine (inj_countable' (λ m, (hap_node_id m, hap_wire_version m, hap_app_version m, hap_adapter m))
    (λ p, mkHandshakeAcceptedProto p.1.1.1 p.1.1.2 p.1.2 p.2) _); intros [].
Defined.
#[export] Instance HandshakeRejectedProto_eq_dec : EqDecision HandshakeRejectedProto.
Proof. solve_decision. Defined.
#[export] Instance HandshakeRejectedProto_countable : Countable HandshakeRejectedProto.
Proof.
  by refine (inj_countable' (λ m, (hjp_node_id m, hjp_wire_version m, hjp_reason m, hjp_detail m))
    (λ p, mkHandshakeRejectedProto p.1.1.1 p.1.1.2 p.1.2 p.2) _); intros [].
Defined.
#[export] Instance handshake_response_result_eq_dec : EqDecision handshake_response_result.
Proof. solve_decision. Defined.
#[export] Instance handshake_response_result_countable : Countable handshake_response_result.
Proof.
  by refine (inj_countable' (λ r, match r with HRAccepted s => inl s | HRRejected f => inr f end)
    (λ o, match o with inl s => HRAccepted s | inr f => HRRejected f end) _); intros [].
Defined.
#[export] Instance HandshakeResponseProto_eq_dec : EqDecision HandshakeResponseProto.
Proof. solve_decision. Defined.
#[export] Instance HandshakeResponseProto_countable : Countable HandshakeResponseProto.
Proof.
  by refine (inj_countable' (λ m, hrr_result m)
    (λ p, mkHandshakeResponseProto p) _); intros [].
Defined.
#[export] Instance WireEnvelopeProto_eq_dec : EqDecision WireEnvelopeProto.
Proof. solve_decision. Defined.
#[export] Instance WireEnvelopeProto_countable : Countable WireEnvelopeProto.
Proof.
  by refine (inj_countable' (λ m, (wep_target m, wep_target_name m, wep_message_type m, wep_send_mode m, wep_headers m, wep_body m, wep_request_id m, wep_version m))
    (λ p, mkWireEnvelopeProto p.1.1.1.1.1.1.1 p.1.1.1.1.1.1.2 p.1.1.1.1.1.2 p.1.1.1.1.2 p.1.1.1.2 p.1.1.2 p.1.2 p.2) _); intros [].
Defined.

End CountableCodec.

(** ** The contract of each codec *)
Section contracts.
Context `{ProstLaws SpawnRequestProto} `{ProstLaws SpawnResponseProto}
  `{ProstLaws WatchRequestProto} `{ProstLaws UnwatchRequestProto}
  `{ProstLaws WatchNotificationProto} `{ProstLaws CancelRequestProto}
  `{ProstLaws CancelResponseProto} `{ProstLaws ConnectPeerProto}
  `{ProstLaws DisconnectPeerProto} `{ProstLaws HandshakeRequestProto}
  `{ProstLaws HandshakeResponseProto}.
Lemma spawn_request_codec :
  codec_contract encode_spawn_request decode_spawn_request SpawnRequest_wf MAX_SYSTEM_MSG_SIZE.
Proof. codec. Qed.
Lemma spawn_response_codec :
  codec_contract encode_spawn_response decode_spawn_response SpawnResponse_wf MAX_SYSTEM_MSG_SIZE.
Proof. codec. Qed.
Lemma watch_request_codec :
  codec_contract encode_watch_request decode_watch_request
    (λ r, id_wf (wr_target r) ∧ id_wf (wr_watcher r)) MAX_SYSTEM_MSG_SIZE.
Proof. codec. Qed.
Lemma unwatch_request_codec :
  codec_contract encode_unwatch_request decode_unwatch_request
    (λ r, id_wf (ur_target r) ∧ id_wf (ur_watcher r)) MAX_SYSTEM_MSG_SIZE.
Proof. codec. Qed.
Lemma watch_notification_codec :
  codec_contract encode_watch_notification decode_watch_notification
    (λ r, id_wf (wn_terminated r) ∧ id_wf (wn_watcher r)) MAX_SYSTEM_MSG_SIZE.
Proof. codec. Qed.
Lemma cancel_request_codec :
  codec_contract encode_cancel_request decode_cancel_request (λ r, id_wf (cr_target r)) MAX_SYSTEM_MSG_SIZE.
Proof. codec. Qed.
Lemma cancel_response_codec :
  codec_contract encode_cancel_response decode_cancel_response (λ _, True) MAX_SYSTEM_MSG_SIZE.
Proof. codec. Qed.
Lemma connect_peer_codec :
  codec_contract (λ p, encode_connect_peer p.1 p.2) decode_connect_peer
    (λ p, node_str p.1 ≠ "") MAX_SYSTEM_MSG_SIZE.
Proof. codec. Qed.
Lemma disconnect_peer_codec :
  codec_contract encode_disconnect_peer decode_disconnect_peer (λ n, node_str n ≠ "") MAX_SYSTEM_MSG_SIZE.
Proof. codec. Qed.
Lemma handshake_request_codec :
  codec_contract encode_handshake_request decode_handshake_request HandshakeRequest_wf MAX_SYSTEM_MSG_SIZE.
Proof. codec. Qed.
Lemma handshake_response_codec :
  codec_contract encode_handshake_response decode_handshake_response HandshakeResponse_wf MAX_SYSTEM_MSG_SIZE.
Proof. codec. Qed.
End contracts.

(** ** Properties *)
Module Spec.
Section spec.
Context `{ProstLaws SpawnRequestProto} `{ProstLaws SpawnResponseProto}
  `{ProstLaws WatchRequestProto} `{ProstLaws UnwatchRequestProto}
  `{ProstLaws WatchNotificationProto} `{ProstLaws CancelRequestProto}
  `{ProstLaws CancelResponseProto} `{ProstLaws ConnectPeerProto}
  `{ProstLaws DisconnectPeerProto} `{ProstLaws HandshakeRequestProto}
  `{ProstLaws HandshakeResponseProto} `{ProstLaws WireEnvelopeProto}.

(** C11. Every system message codec keeps its contract: a message with its
    required fields survives encoding and decoding whenever the frame is at
    most 4 MB, and whatever bytes a peer sends, a decoder returns only
    messages with every required field present and a version whose components
    fit [u32], and never from more than 4 MB. *)
Theorem system_codecs :
  codec_contract encode_spawn_request decode_spawn_request SpawnRequest_wf MAX_SYSTEM_MSG_SIZE ∧
  codec_contract encode_spawn_response decode_spawn_response SpawnResponse_wf MAX_SYSTEM_MSG_SIZE ∧
  codec_contract encode_watch_request decode_watch_request
    (λ r, id_wf (wr_target r) ∧ id_wf (wr_watcher r)) MAX_SYSTEM_MSG_SIZE ∧
  codec_contract encode_unwatch_request decode_unwatch_request
    (λ r, id_wf (ur_target r) ∧ id_wf (ur_watcher r)) MAX_SYSTEM_MSG_SIZE ∧
  codec_contract encode_watch_notification decode_watch_notification
    (λ r, id_wf (wn_terminated r) ∧ id_wf (wn_watcher r)) MAX_SYSTEM_MSG_SIZE ∧
  codec_contract encode_cancel_request decode_cancel_request
    (λ r, id_wf (cr_target r)) MAX_SYSTEM_MSG_SIZE ∧
  codec_contract encode_cancel_response decode_cancel_response (λ _, True) MAX_SYSTEM_MSG_SIZE ∧
  codec_contract (λ p, encode_connect_peer p.1 p.2) decode_connect_peer
    (λ p, node_str p.1 ≠ "") MAX_SYSTEM_MSG_SIZE ∧
  codec_contract encode_disconnect_peer decode_disconnect_peer
    (λ n, node_str n ≠ "") MAX_SYSTEM_MSG_SIZE ∧
  codec_contract encode_handshake_request decode_handshake_request HandshakeRequest_wf
    MAX_SYSTEM_MSG_SIZE ∧
  codec_contract encode_handshake_response decode_handshake_response HandshakeResponse_wf
    MAX_SYSTEM_MSG_SIZE.
Proof.
  split_and!;
    [ apply spawn_request_codec | apply spawn_response_codec | apply watch_request_codec
    | apply unwatch_request_codec | apply watch_notification_codec | apply cancel_request_codec
    | apply cancel_response_codec | apply connect_peer_codec | apply disconnect_peer_codec
    | apply handshake_request_codec | apply handshake_response_codec ].
Qed.


Context (uuid_to_string : Uuid → string) (uuid_parse_str : string → result string Uuid).
Context (uuid_roundtrip : ∀ u, uuid_parse_str (uuid_to_string u) = Ok u).

(** Framing an envelope, on every branch: what the receiver reads back from
    an encoded envelope is the envelope itself, all eight fields; unless the
    frame is over 64 MB or the target names no node, which are the errors the
    decoder reports. *)
Theorem wire_envelope_frame env :
  let b := encode_wire_envelope uuid_to_string env in
  decode_wire_envelope uuid_parse_str b =
    if (MAX_WIRE_ENVELOPE_SIZE <? len_N b)%N then
      Err (SerializationError_new ("WireEnvelope: payload too large (" +:+ pretty (len_N b)
        +:+ " bytes, max " +:+ pretty MAX_WIRE_ENVELOPE_SIZE +:+ ")"))
    else if str_is_empty (node_str (node (target env))) then
      Err (SerializationError_new "ActorId: node_id must not be empty")
    else Ok env.
Proof.
  intros b. unfold decode_wire_envelope, check_size at 1.
  destruct (_ <? _)%N; [done|]. unfold b. clear b. rewrite result_bind_Ok.
  unfold encode_wire_envelope at 1. rewrite decode_encode, result_bind_Ok. cbn.
  destruct env as [[[n] l] tn mt sm [hs] bd rid v]; cbn. unfold require_actor_id. cbn.
  unfold actor_id_from_proto. destruct n; cbn; [done|]. rewrite send_mode_roundtrip. cbn.
  by destruct rid as [u|]; cbn; rewrite ?uuid_roundtrip.
Qed.

End spec.

Import CountableCodec.
#[local] Instance demo_codec `{Countable M} : ProstMessage M := CountableCodec.codec_of M.
#[local] Instance demo_laws `{Countable M} : ProstLaws M := CountableCodec.laws_of M.

Definition demo_handshake : HandshakeRequest :=
  mkHandshakeRequest (mkNodeId "n1") (mkWireVersion 0 2 0) (Some "1.4.0") "ractor".

Lemma system_codecs_witness :
  decode_handshake_request (encode_handshake_request demo_handshake) = Ok demo_handshake.
Proof.
  apply system_codecs.
  - split_and!; [discriminate | vm_compute; repeat split; discriminate | discriminate].
  - vm_compute. discriminate.
Defined.

(** A unary stand-in for the uuid crate. *)
Fixpoint unary (n : nat) : string :=
  match n with 0 => "" | S n => "u" +:+ unary n end.
Definition demo_uuid_to_string (u : Uuid) : string := unary (N.to_nat u).
Definition demo_uuid_parse (s : string) : result string Uuid := Ok (N.of_nat (String.length s)).
Lemma demo_uuid_roundtrip u : demo_uuid_parse (demo_uuid_to_string u) = Ok u.
Proof.
  assert (∀ n, String.length (unary n) = n) as Hn.
  { induction n as [|n IH]; [done|]. change (S (String.length (unary n)) = S n). by rewrite IH. }
  unfold demo_uuid_parse, demo_uuid_to_string. by rewrite Hn, N2Nat.id.
Qed.

Definition demo_envelope (n : string) : WireEnvelope :=
  mkWireEnvelope (mkActorId (mkNodeId n) 7) "worker" "Ping" Ask
    (mkWireHeaders {["trace" := [x01; x02]]}) [x10; x20] (Some 5%N) (Some 2%N).

Lemma wire_envelope_frame_witness :
  decode_wire_envelope demo_uuid_parse
    (encode_wire_envelope demo_uuid_to_string (demo_envelope "n1")) = Ok (demo_envelope "n1") ∧
  decode_wire_envelope demo_uuid_parse
    (encode_wire_envelope demo_uuid_to_string (demo_envelope "")) =
    Err (SerializationError_new "ActorId: node_id must not be empty").
Proof.
  split; rewrite (wire_envelope_frame _ _ demo_uuid_roundtrip); vm_compute; reflexivity.
Defined.

End Spec.
