(* ===== verification/AdapterRuntime.v ===== *)
(** * The adapters' runtimes (src/runtime.rs of dactor-ractor, dactor-kameo and
    dactor-coerce: everything below the actor references)

    A runtime hands out actor ids, spawns actors, keeps the watcher map, the
    stop receivers, the plain system managers and the native system actors, and
    routes system envelopes to the latter. The three runtimes are one program
    up to an [AdapterKind]: names, error texts, whether a single spawn manager
    is wrapped in a pool, whether factories are forwarded. The native actors run
    concurrently with the callers: each takes the messages of its mailbox in
    turns of its own, and a caller that waits for an answer polls for it. *)
From S2P Require Import Prelude Node Message Version TypeRegistry Mailbox SystemActors Task.
From S2P Require Import Interceptor Actor DeadLetter ActorLoop Lifecycle Cluster NativeActors Proto.

#[local] Open Scope string_scope.
#[local] Open Scope list_scope.
#[local] Open Scope nat_scope.

(** ** What differs between the adapters
    The texts take the name of the system actor and the text of the library's
    error. *)
Record AdapterKind := mkAdapterKind {
  ADAPTER_NAME : string;
  default_node : string;
  single_handle : bool;
  forwards_factories : bool;
  tell_error : string → string → string;
  ask_refused_error : string → string → string;
  ask_lost_error : string → string → string
}.
Definition labelled (label actor e : string) : string := actor +:+ label +:+ e.
Definition Ractor_kind : AdapterKind :=
  mkAdapterKind "ractor" "ractor-node" true true (labelled " mailbox: ") (labelled " mailbox: ")
    (λ actor _, actor +:+ " reply dropped").
Definition Kameo_kind : AdapterKind :=
  mkAdapterKind "kameo" "kameo-node" false false (labelled " tell: ") (labelled " ask: ")
    (labelled " ask: ").
Definition Coerce_kind : AdapterKind :=
  mkAdapterKind "coerce" "coerce-node" false true (labelled " notify: ") (labelled " send: ")
    (labelled " send: ").

(** ** Native actors
    A running actor: its state, the messages waiting, each with the ticket of
    its reply channel, and the answers given. A stopped one has dropped its
    mailbox, and with it the reply channels. *)
Section native.
Context {S Msg Reply : Type}.

Record Native := mkNative {
  nat_state : S;
  nat_mailbox : list (N * Msg);
  nat_running : bool;
  nat_tickets : N;
  nat_answers : gmap N Reply
}.
Definition native_new (s : S) : Native := mkNative s [] true 0 ∅.
(** [cast] / [tell] / [notify], and the sending half of [ask] / [send]. *)
Definition native_cast (msg : Msg) (a : Native) : option N * Native :=
  if nat_running a
  then (Some (nat_tickets a),
        mkNative (nat_state a) (nat_mailbox a ++ [(nat_tickets a, msg)]) true
          (nat_tickets a + 1) (nat_answers a))
  else (None, a).
(** The actor takes one message. The handler shares the counter of ids. *)
Definition native_turn (handle : Msg → S → N → Reply * S * N) (a : Native) (next_local : N) :
    Native * N :=
  match nat_mailbox a with
  | (ticket, msg) :: rest =>
      let '(reply, s, next_local) := handle msg (nat_state a) next_local in
      (mkNative s rest (nat_running a) (nat_tickets a) (<[ticket := reply]> (nat_answers a)),
       next_local)
  | [] => (a, next_local)
  end.
Definition native_stop (a : Native) : Native :=
  mkNative (nat_state a) [] false (nat_tickets a) (nat_answers a).
(** What the receiver of a reply sees. *)
Definition native_reply (ticket : N) (a : Native) : oneshot Reply :=
  match nat_answers a !! ticket with
  | Some reply => Sent reply
  | None => if nat_running a then Waiting else SenderDropped
  end.
End native.
Arguments Native : clear implicits.

(** A handler that needs no counter. *)
Definition uncounted {S Msg Reply} (h : Msg → S → Reply * S) (msg : Msg) (s : S) (next_local : N) :
    Reply * S * N :=
  let '(reply, s) := h msg s in (reply, s, next_local).

Section runtime.
Context {U Cb Rf I W : Type}.

Abbreviation SpawnWorker := (Native (SpawnManagerState U) (SpawnManagerMsg U) (SpawnManagerReply U)).

(** ** The pool of spawn managers *)
Inductive SystemActorHandle :=
  | Single (worker : SpawnWorker)
  | Pool (workers : list SpawnWorker) (counter : N).

Definition SystemActorPool_new (workers : list SpawnWorker) : option SystemActorHandle :=
  match workers with [] => None | _ => Some (Pool workers 0) end.
Definition pool_len (h : SystemActorHandle) : nat :=
  match h with Single _ => 1 | Pool workers _ => length workers end.
Definition pool_is_empty (h : SystemActorHandle) : bool :=
  match h with Single _ => false | Pool workers _ => bool_decide (workers = []) end.
Definition handle_workers (h : SystemActorHandle) : list SpawnWorker :=
  match h with Single w => [w] | Pool workers _ => workers end.
Definition update_workers (f : list SpawnWorker → list SpawnWorker) (h : SystemActorHandle) :
    SystemActorHandle :=
  match h with
  | Single w => match f [w] with w :: _ => Single w | [] => h end
  | Pool workers counter => Pool (f workers) counter
  end.
(** The worker the next message goes to, and the counter after it. *)
Definition next_worker (h : SystemActorHandle) : nat * SystemActorHandle :=
  match h with
  | Single w => (0, h)
  | Pool workers counter =>
      (N.to_nat (counter mod N.of_nat (length workers)), Pool workers (wrapping_add64 counter 1))
  end.
(** [SystemActorHandle::cast]: the worker, and the ticket unless it has
    stopped. *)
Definition handle_cast (msg : SpawnManagerMsg U) (h : SystemActorHandle) :
    (nat * option N) * SystemActorHandle :=
  let '(i, h) := next_worker h in
  match handle_workers h !! i with
  | Some w =>
      let '(ticket, w) := native_cast msg w in
      ((i, ticket), update_workers (<[i := w]>) h)
  | None => ((i, None), h)
  end.

Record SystemActorRefs := mkSystemActorRefs {
  spawn_managers : SystemActorHandle;
  watch_actor : Native WatchManager WatchManagerMsg WatchManagerReply;
  cancel_actor : Native CancelManager CancelManagerMsg CancelManagerReply;
  directory_actor : Native NodeDirectory NodeDirectoryMsg NodeDirectoryReply
}.
Definition set_spawn_managers (x : SystemActorHandle) (a : SystemActorRefs) : SystemActorRefs :=
  mkSystemActorRefs x (watch_actor a) (cancel_actor a) (directory_actor a).
Definition set_watch_actor x (a : SystemActorRefs) : SystemActorRefs :=
  mkSystemActorRefs (spawn_managers a) x (cancel_actor a) (directory_actor a).
Definition set_cancel_actor x (a : SystemActorRefs) : SystemActorRefs :=
  mkSystemActorRefs (spawn_managers a) (watch_actor a) x (directory_actor a).
Definition set_directory_actor x (a : SystemActorRefs) : SystemActorRefs :=
  mkSystemActorRefs (spawn_managers a) (watch_actor a) (cancel_actor a) x.

(** ** The runtime
    [interceptor_refs] counts the references that share the interceptor list;
    [stop_channels] are the oneshot channels of the stop notifiers, by the
    order of spawning, and [stop_receivers] tells which of them the runtime
    still holds. *)
Record AdapterRuntime := mkRuntime {
  rt_node_id : NodeId;
  next_local : N;
  cluster_events : ClusterEventEmitter Cb;
  rt_interceptors : list I;
  interceptor_refs : nat;
  rt_drop_observer : option (DropObserver W);
  rt_dead_letters : option (DeadLetterHandler W);
  rt_watchers : WatcherMap Rf;
  spawn_manager : SpawnManager U;
  watch_manager : WatchManager;
  cancel_manager : CancelManager;
  node_directory : NodeDirectory;
  system_actors : option SystemActorRefs;
  stop_receivers : gmap ActorId nat;
  stop_channels : list (oneshot (result string ()));
  rt_app_version : option string
}.
Definition set_next_local (x : N) (r : AdapterRuntime) : AdapterRuntime :=
  mkRuntime (rt_node_id r) x (cluster_events r) (rt_interceptors r) (interceptor_refs r)
    (rt_drop_observer r) (rt_dead_letters r) (rt_watchers r) (spawn_manager r)
    (watch_manager r) (cancel_manager r) (node_directory r) (system_actors r)
    (stop_receivers r) (stop_channels r) (rt_app_version r).
Definition set_cluster_events (x : ClusterEventEmitter Cb) (r : AdapterRuntime) : AdapterRuntime :=
  mkRuntime (rt_node_id r) (next_local r) x (rt_interceptors r) (interceptor_refs r)
    (rt_drop_observer r) (rt_dead_letters r) (rt_watchers r) (spawn_manager r)
    (watch_manager r) (cancel_manager r) (node_directory r) (system_actors r)
    (stop_receivers r) (stop_channels r) (rt_app_version r).
Definition set_interceptors (x : list I) (r : AdapterRuntime) : AdapterRuntime :=
  mkRuntime (rt_node_id r) (next_local r) (cluster_events r) x (interceptor_refs r)
    (rt_drop_observer r) (rt_dead_letters r) (rt_watchers r) (spawn_manager r)
    (watch_manager r) (cancel_manager r) (node_directory r) (system_actors r)
    (stop_receivers r) (stop_channels r) (rt_app_version r).
Definition set_interceptor_refs (x : nat) (r : AdapterRuntime) : AdapterRuntime :=
  mkRuntime (rt_node_id r) (next_local r) (cluster_events r) (rt_interceptors r) x
    (rt_drop_observer r) (rt_dead_letters r) (rt_watchers r) (spawn_manager r)
    (watch_manager r) (cancel_manager r) (node_directory r) (system_actors r)
    (stop_receivers r) (stop_channels r) (rt_app_version r).
Definition set_rt_drop_observer (x : option (DropObserver W)) (r : AdapterRuntime) : AdapterRuntime :=
  mkRuntime (rt_node_id r) (next_local r) (cluster_events r) (rt_interceptors r)
    (interceptor_refs r) x (rt_dead_letters r) (rt_watchers r) (spawn_manager r)
    (watch_manager r) (cancel_manager r) (node_directory r) (system_actors r)
    (stop_receivers r) (stop_channels r) (rt_app_version r).
Definition set_rt_dead_letters (x : option (DeadLetterHandler W)) (r : AdapterRuntime) : AdapterRuntime :=
  mkRuntime (rt_node_id r) (next_local r) (cluster_events r) (rt_interceptors r)
    (interceptor_refs r) (rt_drop_observer r) x (rt_watchers r) (spawn_manager r)
    (watch_manager r) (cancel_manager r) (node_directory r) (system_actors r)
    (stop_receivers r) (stop_channels r) (rt_app_version r).
Definition set_rt_watchers (x : WatcherMap Rf) (r : AdapterRuntime) : AdapterRuntime :=
  mkRuntime (rt_node_id r) (next_local r) (cluster_events r) (rt_interceptors r)
    (interceptor_refs r) (rt_drop_observer r) (rt_dead_letters r) x (spawn_manager r)
    (watch_manager r) (cancel_manager r) (node_directory r) (system_actors r)
    (stop_receivers r) (stop_channels r) (rt_app_version r).
Definition set_spawn_manager (x : SpawnManager U) (r : AdapterRuntime) : AdapterRuntime :=
  mkRuntime (rt_node_id r) (next_local r) (cluster_events r) (rt_interceptors r)
    (interceptor_refs r) (rt_drop_observer r) (rt_dead_letters r) (rt_watchers r) x
    (watch_manager r) (cancel_manager r) (node_directory r) (system_actors r)
    (stop_receivers r) (stop_channels r) (rt_app_version r).
Definition set_watch_manager (x : WatchManager) (r : AdapterRuntime) : AdapterRuntime :=
  mkRuntime (rt_node_id r) (next_local r) (cluster_events r) (rt_interceptors r)
    (interceptor_refs r) (rt_drop_observer r) (rt_dead_letters r) (rt_watchers r)
    (spawn_manager r) x (cancel_manager r) (node_directory r) (system_actors r)
    (stop_receivers r) (stop_channels r) (rt_app_version r).
Definition set_cancel_manager (x : CancelManager) (r : AdapterRuntime) : AdapterRuntime :=
  mkRuntime (rt_node_id r) (next_local r) (cluster_events r) (rt_interceptors r)
    (interceptor_refs r) (rt_drop_observer r) (rt_dead_letters r) (rt_watchers r)
    (spawn_manager r) (watch_manager r) x (node_directory r) (system_actors r)
    (stop_receivers r) (stop_channels r) (rt_app_version r).
Definition set_node_directory (x : NodeDirectory) (r : AdapterRuntime) : AdapterRuntime :=
  mkRuntime (rt_node_id r) (next_local r) (cluster_events r) (rt_interceptors r)
    (interceptor_refs r) (rt_drop_observer r) (rt_dead_letters r) (rt_watchers r)
    (spawn_manager r) (watch_manager r) (cancel_manager r) x (system_actors r)
    (stop_receivers r) (stop_channels r) (rt_app_version r).
Definition set_system_actors (x : option SystemActorRefs) (r : AdapterRuntime) : AdapterRuntime :=
  mkRuntime (rt_node_id r) (next_local r) (cluster_events r) (rt_interceptors r)
    (interceptor_refs r) (rt_drop_observer r) (rt_dead_letters r) (rt_watchers r)
    (spawn_manager r) (watch_manager r) (cancel_manager r) (node_directory r) x
    (stop_receivers r) (stop_channels r) (rt_app_version r).
Definition set_stop_receivers (x : gmap ActorId nat) (r : AdapterRuntime) : AdapterRuntime :=
  mkRuntime (rt_node_id r) (next_local r) (cluster_events r) (rt_interceptors r)
    (interceptor_refs r) (rt_drop_observer r) (rt_dead_letters r) (rt_watchers r)
    (spawn_manager r) (watch_manager r) (cancel_manager r) (node_directory r) (system_actors r)
    x (stop_channels r) (rt_app_version r).
Definition set_stop_channels (x : list (oneshot (result string ()))) (r : AdapterRuntime) : AdapterRuntime :=
  mkRuntime (rt_node_id r) (next_local r) (cluster_events r) (rt_interceptors r)
    (interceptor_refs r) (rt_drop_observer r) (rt_dead_letters r) (rt_watchers r)
    (spawn_manager r) (watch_manager r) (cancel_manager r) (node_directory r) (system_actors r)
    (stop_receivers r) x (rt_app_version r).
Definition set_app_version (x : option string) (r : AdapterRuntime) : AdapterRuntime :=
  mkRuntime (rt_node_id r) (next_local r) (cluster_events r) (rt_interceptors r)
    (interceptor_refs r) (rt_drop_observer r) (rt_dead_letters r) (rt_watchers r)
    (spawn_manager r) (watch_manager r) (cancel_manager r) (node_directory r) (system_actors r)
    (stop_receivers r) (stop_channels r) x.

Definition runtime_create (node_id : NodeId) : AdapterRuntime :=
  mkRuntime node_id 1 Emitter_new [] 0 None None ∅ (SpawnManager_new TypeRegistry_new)
    WatchManager_new CancelManager_new NodeDirectory_new None ∅ [] None.
Definition runtime_new (k : AdapterKind) : AdapterRuntime := runtime_create (mkNodeId (default_node k)).
Definition with_app_version (version : string) (r : AdapterRuntime) : AdapterRuntime :=
  set_app_version (Some version) r.
(** [None] is the panic of [from_runtime]. *)
Definition handshake_request (k : AdapterKind) (r : AdapterRuntime) : option HandshakeRequest :=
  from_runtime (rt_node_id r) (rt_app_version r) (ADAPTER_NAME k).

(** The mailbox capacities of the configuration are not looked at. *)
Definition start_system_actors_with_config (k : AdapterKind) (config : SystemActorConfig)
    (r : AdapterRuntime) : AdapterRuntime :=
  let pool_size := max (default 1 (spawn_manager_pool_size config)) 1 in
  let spawn_refs :=
    replicate pool_size (native_new (SpawnManagerActor_new (rt_node_id r) TypeRegistry_new)) in
  let handle :=
    match spawn_refs with
    | [w] => if single_handle k then Single w else Pool [w] 0
    | ws => Pool ws 0
    end in
  set_system_actors
    (Some (mkSystemActorRefs handle (native_new WatchManager_new) (native_new CancelManager_new)
             (native_new NodeDirectory_new))) r.
Definition start_system_actors (k : AdapterKind) : AdapterRuntime → AdapterRuntime :=
  start_system_actors_with_config k SystemActorConfig_default.

(** [Arc::get_mut(..).expect(..)]: [None] is the panic. *)
Definition add_outbound_interceptor (interceptor : I) (r : AdapterRuntime) : option AdapterRuntime :=
  match interceptor_refs r with
  | 0 => Some (set_interceptors (rt_interceptors r ++ [interceptor]) r)
  | _ => None
  end.
Definition set_drop_observer (observer : DropObserver W) (r : AdapterRuntime) : AdapterRuntime :=
  set_rt_drop_observer (Some observer) r.
Definition set_dead_letter_handler (handler : DeadLetterHandler W) (r : AdapterRuntime) :
    AdapterRuntime :=
  set_rt_dead_letters (Some handler) r.

(** ** Spawning *)
Definition runtime_assign_id (r : AdapterRuntime) : ActorId * AdapterRuntime :=
  let '(id, next) := assign_id (rt_node_id r) (next_local r) in (id, set_next_local next r).

(** The bounded channel in front of the mailbox; [None] is the panic of
    [mpsc::channel(0)]. *)
Definition bounded_channel (mailbox : MailboxConfig) : option (option (nat * OverflowStrategy)) :=
  match mailbox with
  | Bounded capacity overflow =>
      if bool_decide (capacity = 0) then None else Some (Some (capacity, overflow))
  | Unbounded => Some None
  end.
(** The forwarder of that channel: until the actor refuses a message. *)
Fixpoint forward_mailbox {D V} (inner : D → V → bool * V) (msgs : list D) (v : V) : V :=
  match msgs with
  | [] => v
  | msg :: msgs =>
      let '(ok, v) := inner msg v in if (ok : bool) then forward_mailbox inner msgs v else v
  end.

Record SpawnedRef := mkSpawnedRef {
  sp_id : ActorId; sp_name : string; sp_bounded : option (nat * OverflowStrategy);
  sp_interceptors : list I; sp_stop : nat
}.
(** [inner_spawn] is what the library's spawn does, or its error. The inner
    [option] is the panic. *)
Definition spawn_internal (inner_spawn : result string ()) (name : string) (mailbox : MailboxConfig)
    (r : AdapterRuntime) : option (result RuntimeError SpawnedRef) * AdapterRuntime :=
  let '(actor_id, r) := runtime_assign_id r in
  let stop := length (stop_channels r) in
  let r := set_stop_channels (stop_channels r ++ [Waiting]) r in
  match inner_spawn with
  | Err e =>
      (Some (Err (RSpawnFailed e)), set_stop_channels (<[stop := SenderDropped]> (stop_channels r)) r)
  | Ok _ =>
      match bounded_channel mailbox with
      | None => (None, r)
      | Some bounded_tx =>
          let r := set_stop_receivers (<[actor_id := stop]> (stop_receivers r)) r in
          let r := set_interceptor_refs (interceptor_refs r + 1) r in
          (Some (Ok (mkSpawnedRef actor_id name bounded_tx (rt_interceptors r) stop)), r)
      end
  end.
(** [spawn] and [spawn_with_deps]; [spawn_with_options] passes the mailbox on. *)
Definition spawn_actor (inner_spawn : result string ()) (name : string) (r : AdapterRuntime) :=
  spawn_internal inner_spawn name Unbounded r.

(** ** Watching *)
Definition runtime_watch (watcher : ActorId) (notify : Rf) (target_id : ActorId)
    (r : AdapterRuntime) : AdapterRuntime :=
  set_rt_watchers (add_watcher watcher notify target_id (rt_watchers r)) r.
Definition runtime_unwatch (watcher target_id : ActorId) (r : AdapterRuntime) : AdapterRuntime :=
  set_rt_watchers (drop_watcher watcher target_id (rt_watchers r)) r.

(** ** The plain system managers *)
Definition cast_factory (type_name : string) (factory : FactoryFn (U := U)) (w : SpawnWorker) :
    SpawnWorker :=
  (native_cast (RegisterFactory type_name factory) w).2.
Definition runtime_register_factory (k : AdapterKind) (type_name : string)
    (factory : FactoryFn (U := U)) (r : AdapterRuntime) : AdapterRuntime :=
  let m := spawn_manager r in
  let r := set_spawn_manager
             (mkSpawnManager (register_factory type_name factory (sm_registry m)) (SystemActors.spawned m)) r in
  match system_actors r with
  | Some actors =>
      if forwards_factories k
      then set_system_actors
             (Some (set_spawn_managers
                (update_workers (fmap (cast_factory type_name factory)) (spawn_managers actors)) actors)) r
      else r
  | None => r
  end.
Definition handle_spawn_request (request : SpawnRequest) (r : AdapterRuntime) :
    SpawnResult U * AdapterRuntime :=
  let '(res, m, next) := spawn_request (rt_node_id r) request (spawn_manager r) (next_local r) in
  (res, set_next_local next (set_spawn_manager m r)).

Definition remote_watch (target watcher : ActorId) (r : AdapterRuntime) : AdapterRuntime :=
  set_watch_manager (watch target watcher (watch_manager r)) r.
Definition remote_unwatch (target watcher : ActorId) (r : AdapterRuntime) : AdapterRuntime :=
  set_watch_manager (unwatch target watcher (watch_manager r)) r.
Definition notify_terminated (terminated : ActorId) (r : AdapterRuntime) :
    list WatchNotification * AdapterRuntime :=
  let '(notifications, m) := on_terminated terminated (watch_manager r) in
  (notifications, set_watch_manager m r).
Definition register_cancel (request_id : string) (token : N) (r : AdapterRuntime) : AdapterRuntime :=
  set_cancel_manager (cancel_register request_id token (cancel_manager r)) r.
Definition cancel_request (request_id : string) (r : AdapterRuntime) :
    (CancelResponse * option N) * AdapterRuntime :=
  let '(response, m) := cancel request_id (cancel_manager r) in (response, set_cancel_manager m r).
Definition complete_request (request_id : string) (r : AdapterRuntime) : AdapterRuntime :=
  set_cancel_manager (cancel_remove request_id (cancel_manager r)) r.

(** ** Peers
    [call] runs a subscriber of the cluster events. *)
Section peers.
Context (call : Cb → ClusterEvent → ClusterEventEmitter Cb * W → bool * (ClusterEventEmitter Cb * W)).

Definition runtime_emit (event : ClusterEvent) (r : AdapterRuntime) (w : W) : AdapterRuntime * W :=
  let '(e, w) := Adapter_emit call event (cluster_events r, w) in (set_cluster_events e r, w).
Definition connect_peer (peer_id : NodeId) (addr : option string) (r : AdapterRuntime) (w : W) :
    AdapterRuntime * W :=
  let was_connected := is_connected peer_id (node_directory r) in
  let r := set_node_directory (connect_directory peer_id addr (node_directory r)) r in
  if was_connected then (r, w) else runtime_emit (NodeJoined peer_id) r w.
Definition disconnect_peer (peer_id : NodeId) (r : AdapterRuntime) (w : W) : AdapterRuntime * W :=
  let was_connected := is_connected peer_id (node_directory r) in
  let r := set_node_directory (set_status peer_id Disconnected (node_directory r)) r in
  if was_connected then runtime_emit (NodeLeft peer_id) r w else (r, w).
Definition is_peer_connected (peer_id : NodeId) (r : AdapterRuntime) : bool :=
  is_connected peer_id (node_directory r).
End peers.

(** ** Waiting for actors to stop *)
Definition settle_stop (stop : nat) (o : oneshot (result string ())) (r : AdapterRuntime) :
    AdapterRuntime :=
  set_stop_channels (settle stop o (stop_channels r)) r.
(** [await_stop] takes the receiver out; what is left is to poll it. *)
Definition await_stop (actor_id : ActorId) (r : AdapterRuntime) : option nat * AdapterRuntime :=
  (stop_receivers r !! actor_id, set_stop_receivers (delete actor_id (stop_receivers r)) r).
Definition await_stop_poll (rx : option nat) (r : AdapterRuntime) : option (result string ()) :=
  match rx with
  | Some stop => poll_stop "stop notifier dropped" (stop_channels r) stop
  | None => Some (Ok ())
  end.
Definition await_all (r : AdapterRuntime) : list nat * AdapterRuntime :=
  ((map_to_list (stop_receivers r)).*2, set_stop_receivers ∅ r).
Definition await_all_poll (receivers : list nat) (first_error : option string) (r : AdapterRuntime) :
    option (result string ()) :=
  poll_all receivers first_error (stop_channels r).
Definition stop_pending (r : AdapterRuntime) : nat → bool := is_pending (stop_channels r).
Definition cleanup_finished (r : AdapterRuntime) : AdapterRuntime :=
  set_stop_receivers (keep_pending (stop_channels r) (stop_receivers r)) r.
Definition active_handle_count (r : AdapterRuntime) : nat := size (stop_receivers r).

(** ** Routing system envelopes *)
Inductive Routing :=
  | RouteDone (res : result RoutingError RoutingOutcome)
  | RouteAwaitSpawn (req_id : string) (worker : nat) (ticket : N)
  | RouteAwaitCancel (ticket : N).

Section routing.
Context `{ProstMessage SpawnRequestProto} `{ProstMessage WatchRequestProto}
  `{ProstMessage UnwatchRequestProto} `{ProstMessage CancelRequestProto}
  `{ProstMessage ConnectPeerProto} `{ProstMessage DisconnectPeerProto}.
(** The text of the library's errors. *)
Context (k : AdapterKind) (lib_error : string).

Definition route_error (text : string) : Routing := RouteDone (Err (mkRoutingError text)).
(** [map_err(|e| RoutingError::new(format!(..)))?] on a decoded body. *)
Definition decoded {X} (what : string) (res : result SerializationError X)
    (r : AdapterRuntime) (go : X → Routing * AdapterRuntime) : Routing * AdapterRuntime :=
  match res with
  | Ok x => go x
  | Err e => (route_error ("decode " +:+ what +:+ ": " +:+ SerializationError_display e), r)
  end.
(** A tell to a control-plane actor. *)
Definition told {S Msg Reply} (actor_name : string) (msg : Msg) (a : Native S Msg Reply)
    (put : Native S Msg Reply → AdapterRuntime) : Routing * AdapterRuntime :=
  match native_cast msg a with
  | (Some _, a) => (RouteDone (Ok AcknowledgedOutcome), put a)
  | (None, a) => (route_error (tell_error k actor_name lib_error), put a)
  end.

(** The arms of the [match], up to the [await] of a reply. *)
Definition route_spawn (actors : SystemActorRefs) (r : AdapterRuntime) (request : SpawnRequest) :
    Routing * AdapterRuntime :=
  let req_id := sr_request_id request in
  let '((worker, ticket), h) := handle_cast (HandleRequest request) (spawn_managers actors) in
  let r := set_system_actors (Some (set_spawn_managers h actors)) r in
  match ticket with
  | Some ticket => (RouteAwaitSpawn req_id worker ticket, r)
  | None => (route_error (ask_refused_error k "SpawnManager" lib_error), r)
  end.
Definition route_watch_msg (actors : SystemActorRefs) (r : AdapterRuntime) (msg : WatchManagerMsg) :
    Routing * AdapterRuntime :=
  told "WatchManager" msg (watch_actor actors)
    (λ a, set_system_actors (Some (set_watch_actor a actors)) r).
Definition route_directory_msg (actors : SystemActorRefs) (r : AdapterRuntime)
    (msg : NodeDirectoryMsg) : Routing * AdapterRuntime :=
  told "NodeDirectory" msg (directory_actor actors)
    (λ a, set_system_actors (Some (set_directory_actor a actors)) r).
Definition route_cancel (actors : SystemActorRefs) (r : AdapterRuntime) (request : CancelRequest) :
    Routing * AdapterRuntime :=
  match cr_request_id request with
  | None => (route_error "CancelRequest missing request_id", r)
  | Some request_id =>
      match native_cast (CancelMsg request_id) (cancel_actor actors) with
      | (Some ticket, a) =>
          (RouteAwaitCancel ticket, set_system_actors (Some (set_cancel_actor a actors)) r)
      | (None, _) => (route_error (ask_refused_error k "CancelManager" lib_error), r)
      end
  end.

Definition route_system_envelope (envelope : WireEnvelope) (r : AdapterRuntime) :
    Routing * AdapterRuntime :=
  let t := message_type envelope in
  let b := body envelope in
  match validate_system_message_type t with
  | Err e => (RouteDone (Err e), r)
  | Ok _ =>
      match system_actors r with
      | None => (route_error "system actors not started", r)
      | Some actors =>
          if decide (t = SYSTEM_MSG_TYPE_SPAWN) then
            decoded "SpawnRequest" (decode_spawn_request b) r (route_spawn actors r)
          else if decide (t = SYSTEM_MSG_TYPE_WATCH) then
            decoded "WatchRequest" (decode_watch_request b) r (λ q,
              route_watch_msg actors r (WatchMsg (wr_target q) (wr_watcher q)))
          else if decide (t = SYSTEM_MSG_TYPE_UNWATCH) then
            decoded "UnwatchRequest" (decode_unwatch_request b) r (λ q,
              route_watch_msg actors r (UnwatchMsg (ur_target q) (ur_watcher q)))
          else if decide (t = SYSTEM_MSG_TYPE_CANCEL) then
            decoded "CancelRequest" (decode_cancel_request b) r (route_cancel actors r)
          else if decide (t = SYSTEM_MSG_TYPE_CONNECT_PEER) then
            decoded "ConnectPeer" (decode_connect_peer b) r (λ q,
              route_directory_msg actors r (ConnectPeerMsg q.1 q.2))
          else if decide (t = SYSTEM_MSG_TYPE_DISCONNECT_PEER) then
            decoded "DisconnectPeer" (decode_disconnect_peer b) r (λ q,
              route_directory_msg actors r (DisconnectPeerMsg q))
          else (route_error ("unhandled system message type: " +:+ t), r)
      end
  end.

(** The rest of the function: a poll of the reply it waits for. *)
Definition route_poll (p : Routing) (r : AdapterRuntime) :
    Poll () (result RoutingError RoutingOutcome) :=
  match p, system_actors r with
  | RouteDone res, _ => Ready res
  | RouteAwaitSpawn req_id worker ticket, Some actors =>
      match (native_reply ticket <$> handle_workers (spawn_managers actors) !! worker) with
      | Some (Sent (SpawnReply (Ok (actor_id, _)))) => Ready (Ok (SpawnCompleted req_id actor_id))
      | Some (Sent (SpawnReply (Err (SpawnFailure request_id error)))) =>
          Ready (Ok (SpawnFailedOutcome request_id error))
      | Some Waiting => Pending ()
      | Some SenderDropped =>
          Ready (Err (mkRoutingError (ask_lost_error k "SpawnManager" lib_error)))
      | _ => Panicked
      end
  | RouteAwaitCancel ticket, Some actors =>
      match native_reply ticket (cancel_actor actors) with
      | Sent (CancelReply Acknowledged _) => Ready (Ok CancelAcknowledged)
      | Sent (CancelReply (CancelRequestNotFound reason) _) => Ready (Ok (CancelNotFound reason))
      | Waiting => Pending ()
      | SenderDropped =>
          Ready (Err (mkRoutingError (ask_lost_error k "CancelManager" lib_error)))
      | _ => Panicked
      end
  | _, None => Panicked
  end.
End routing.
End runtime.
Arguments AdapterRuntime : clear implicits.

(** ** The copies in kameo and coerce
    Their [spawn] cannot fail. *)
Section copies.
Context {U Cb Rf I W : Type}.
Abbreviation Runtime := (AdapterRuntime U Cb Rf I W).
Context (call : Cb → ClusterEvent → ClusterEventEmitter Cb * W → bool * (ClusterEventEmitter Cb * W)).
Context `{ProstMessage SpawnRequestProto} `{ProstMessage WatchRequestProto}
  `{ProstMessage UnwatchRequestProto} `{ProstMessage CancelRequestProto}
  `{ProstMessage ConnectPeerProto} `{ProstMessage DisconnectPeerProto}.
Context (lib_error : string).

Definition Kameo_SystemActorRefs_spawn_manager : SystemActorHandle (U := U) → nat * SystemActorHandle (U := U) :=
  next_worker.
Definition Kameo_create : NodeId → Runtime := runtime_create.
Definition Kameo_new : Runtime := runtime_new Kameo_kind.
Definition Kameo_with_app_version : string → Runtime → Runtime := with_app_version.
Definition Kameo_handshake_request : Runtime → option HandshakeRequest :=
  handshake_request Kameo_kind.
Definition Kameo_start_system_actors_with_config : SystemActorConfig → Runtime → Runtime :=
  start_system_actors_with_config Kameo_kind.
Definition Kameo_start_system_actors : Runtime → Runtime := start_system_actors Kameo_kind.
Definition Kameo_add_outbound_interceptor : I → Runtime → option Runtime :=
  add_outbound_interceptor.
Definition Kameo_set_drop_observer : DropObserver W → Runtime → Runtime := set_drop_observer.
Definition Kameo_set_dead_letter_handler : DeadLetterHandler W → Runtime → Runtime :=
  set_dead_letter_handler.
Definition Kameo_spawn_internal : string → MailboxConfig → Runtime →
    option (result RuntimeError (SpawnedRef (I := I))) * Runtime :=
  spawn_internal (Ok ()).
Definition Kameo_spawn : string → Runtime → option (result RuntimeError (SpawnedRef (I := I))) * Runtime :=
  spawn_actor (Ok ()).
Definition Kameo_watch : ActorId → Rf → ActorId → Runtime → Runtime := runtime_watch.
Definition Kameo_unwatch : ActorId → ActorId → Runtime → Runtime := runtime_unwatch.
Definition Kameo_register_factory : string → FactoryFn (U := U) → Runtime → Runtime :=
  runtime_register_factory Kameo_kind.
Definition Kameo_handle_spawn_request : SpawnRequest → Runtime → SpawnResult U * Runtime :=
  handle_spawn_request.
Definition Kameo_remote_watch : ActorId → ActorId → Runtime → Runtime := remote_watch.
Definition Kameo_remote_unwatch : ActorId → ActorId → Runtime → Runtime := remote_unwatch.
Definition Kameo_notify_terminated : ActorId → Runtime → list WatchNotification * Runtime :=
  notify_terminated.
Definition Kameo_register_cancel : string → N → Runtime → Runtime := register_cancel.
Definition Kameo_cancel_request : string → Runtime → (CancelResponse * option N) * Runtime :=
  cancel_request.
Definition Kameo_complete_request : string → Runtime → Runtime := complete_request.
Definition Kameo_connect_peer : NodeId → option string → Runtime → W → Runtime * W :=
  connect_peer call.
Definition Kameo_disconnect_peer : NodeId → Runtime → W → Runtime * W := disconnect_peer call.
Definition Kameo_is_peer_connected : NodeId → Runtime → bool := is_peer_connected.
Definition Kameo_await_stop : ActorId → Runtime → option nat * Runtime := await_stop.
Definition Kameo_await_all : Runtime → list nat * Runtime := await_all.
Definition Kameo_cleanup_finished : Runtime → Runtime := cleanup_finished.
Definition Kameo_active_handle_count : Runtime → nat := active_handle_count.
Definition Kameo_route_system_envelope : WireEnvelope → Runtime → Routing * Runtime :=
  route_system_envelope Kameo_kind lib_error.
Definition Kameo_route_poll : Routing → Runtime → Poll () (result RoutingError RoutingOutcome) :=
  route_poll Kameo_kind lib_error.

Definition Coerce_SystemActorRefs_spawn_manager : SystemActorHandle (U := U) → nat * SystemActorHandle (U := U) :=
  next_worker.
Definition Coerce_create : NodeId → Runtime := runtime_create.
Definition Coerce_new : Runtime := runtime_new Coerce_kind.
Definition Coerce_with_app_version : string → Runtime → Runtime := with_app_version.
Definition Coerce_handshake_request : Runtime → option HandshakeRequest :=
  handshake_request Coerce_kind.
Definition Coerce_start_system_actors_with_config : SystemActorConfig → Runtime → Runtime :=
  start_system_actors_with_config Coerce_kind.
Definition Coerce_start_system_actors : Runtime → Runtime := start_system_actors Coerce_kind.
Definition Coerce_add_outbound_interceptor : I → Runtime → option Runtime :=
  add_outbound_interceptor.
Definition Coerce_set_drop_observer : DropObserver W → Runtime → Runtime := set_drop_observer.
Definition Coerce_set_dead_letter_handler : DeadLetterHandler W → Runtime → Runtime :=
  set_dead_letter_handler.
Definition Coerce_spawn_internal : string → MailboxConfig → Runtime →
    option (result RuntimeError (SpawnedRef (I := I))) * Runtime :=
  spawn_internal (Ok ()).
Definition Coerce_spawn : string → Runtime → option (result RuntimeError (SpawnedRef (I := I))) * Runtime :=
  spawn_actor (Ok ()).
Definition Coerce_watch : ActorId → Rf → ActorId → Runtime → Runtime := runtime_watch.
Definition Coerce_unwatch : ActorId → ActorId → Runtime → Runtime := runtime_unwatch.
Definition Coerce_register_factory : string → FactoryFn (U := U) → Runtime → Runtime :=
  runtime_register_factory Coerce_kind.
Definition Coerce_handle_spawn_request : SpawnRequest → Runtime → SpawnResult U * Runtime :=
  handle_spawn_request.
Definition Coerce_remote_watch : ActorId → ActorId → Runtime → Runtime := remote_watch.
Definition Coerce_remote_unwatch : ActorId → ActorId → Runtime → Runtime := remote_unwatch.
Definition Coerce_notify_terminated : ActorId → Runtime → list WatchNotification * Runtime :=
  notify_terminated.
Definition Coerce_register_cancel : string → N → Runtime → Runtime := register_cancel.
Definition Coerce_cancel_request : string → Runtime → (CancelResponse * option N) * Runtime :=
  cancel_request.
Definition Coerce_complete_request : string → Runtime → Runtime := complete_request.
Definition Coerce_connect_peer : NodeId → option string → Runtime → W → Runtime * W :=
  connect_peer call.
Definition Coerce_disconnect_peer : NodeId → Runtime → W → Runtime * W := disconnect_peer call.
Definition Coerce_is_peer_connected : NodeId → Runtime → bool := is_peer_connected.
Definition Coerce_await_stop : ActorId → Runtime → option nat * Runtime := await_stop.
Definition Coerce_await_all : Runtime → list nat * Runtime := await_all.
Definition Coerce_cleanup_finished : Runtime → Runtime := cleanup_finished.
Definition Coerce_active_handle_count : Runtime → nat := active_handle_count.
Definition Coerce_route_system_envelope : WireEnvelope → Runtime → Routing * Runtime :=
  route_system_envelope Coerce_kind lib_error.
Definition Coerce_route_poll : Routing → Runtime → Poll () (result RoutingError RoutingOutcome) :=
  route_poll Coerce_kind lib_error.
End copies.
