(* ===== verification/RuntimeRuns.v ===== *)
(** * Runs of the adapters' runtimes

    What goes on in a runtime of [AdapterRuntime]: its operations, the turns of
    its native actors and the stopping of actors, as steps in any order; the
    invariants of the runs, and the properties of the three runtimes. *)
From S2P Require Import Prelude Node Message Version TypeRegistry Mailbox SystemActors Task.
From S2P Require Import Interceptor Actor DeadLetter ActorLoop Lifecycle Cluster NativeActors Proto AdapterRuntime.
From Stdlib Require Import Strings.Byte.

#[local] Open Scope string_scope.
#[local] Open Scope list_scope.
#[local] Open Scope nat_scope.

(** ** Lemmas on native actors *)
Section native_lemmas.
Context {S Msg Reply : Type}.
Implicit Types a : Native S Msg Reply.

(** A ticket is for one message, waiting or answered. *)
Record native_wf a : Prop := {
  nat_halted : nat_running a = false → nat_mailbox a = [];
  nat_nodup : NoDup (nat_mailbox a).*1;
  nat_waiting t : t ∈ (nat_mailbox a).*1 → (t < nat_tickets a)%N ∧ nat_answers a !! t = None;
  nat_answered t : is_Some (nat_answers a !! t) → (t < nat_tickets a)%N
}.
(** The message of ticket [t] is [msg]: it waits, or has an answer with [P], or
    the actor stopped. *)
Definition promised (P : Reply → Prop) (msg : Msg) (t : N) a : Prop :=
  native_wf a ∧ (t < nat_tickets a)%N ∧
  match nat_answers a !! t with
  | Some reply => P reply
  | None => nat_running a = true → (t, msg) ∈ nat_mailbox a
  end.

Lemma native_new_wf (s : S) : native_wf (@native_new S Msg Reply s).
Proof.
  split; simpl; [done|constructor|set_solver|]. intros t. rewrite lookup_empty. by intros [? ?].
Qed.
Lemma native_cast_wf msg a : native_wf a → native_wf (native_cast msg a).2.
Proof.
  intros Hwf. unfold native_cast. destruct (nat_running a) eqn:Hr; [|done].
  destruct Hwf as [Hh Hnd Hw Ha].
  assert (nat_answers a !! nat_tickets a = None) as Hnone.
  { apply eq_None_not_Some. intros Hs. specialize (Ha _ Hs). lia. }
  split; simpl; [done|..].
  - rewrite fmap_app. apply NoDup_app. split_and!; [done| |repeat constructor; set_solver].
    simpl. intros t Ht Hin. apply list_elem_of_singleton in Hin as ->. destruct (Hw _ Ht). lia.
  - intros t. rewrite fmap_app, elem_of_app. simpl.
    intros [Ht%Hw|Ht%list_elem_of_singleton]; [|subst]; (split; [lia|tauto]).
  - intros t Ht%Ha. lia.
Qed.
Lemma native_turn_wf handle a next : native_wf a → native_wf (native_turn handle a next).1.
Proof.
  intros Hwf. unfold native_turn. destruct (nat_mailbox a) as [|[t msg] rest] eqn:Hm; [done|].
  destruct Hwf as [Hh Hnd Hw Ha]. rewrite Hm in *. simpl in *. apply NoDup_cons in Hnd as [Hnotin Hnd].
  destruct (handle msg _ _) as [[reply s] next']. split; simpl; [by intros ?%Hh|done| |].
  - intros t' Ht'. destruct (Hw t') as [? ?]; [set_solver|]. split; [done|].
    rewrite lookup_insert_ne; [done|]. by intros ->.
  - intros t'. destruct (decide (t' = t)) as [->|Hne].
    + intros _. apply Hw. set_solver.
    + rewrite lookup_insert_ne by done. apply Ha.
Qed.
Lemma native_stop_wf a : native_wf a → native_wf (native_stop a).
Proof. intros [Hh Hnd Hw Ha]. split; simpl; [done|constructor|set_solver|done]. Qed.

Lemma promised_new P msg a t a' :
  native_wf a → native_cast msg a = (Some t, a') → promised P msg t a'.
Proof.
  intros Hwf Hc. pose proof (native_cast_wf msg a Hwf) as Hwf'. rewrite Hc in Hwf'.
  unfold native_cast in Hc. destruct (nat_running a); simplify_eq. split; [done|]. simpl.
  split; [lia|]. destruct (nat_answers a !! nat_tickets a) eqn:Hs.
  - destruct Hwf as [_ _ _ Ha]. specialize (Ha (nat_tickets a) ltac:(by eexists)). lia.
  - intros ?. apply elem_of_app. right. by left.
Qed.
Lemma promised_cast P msg t msg' a : promised P msg t a → promised P msg t (native_cast msg' a).2.
Proof.
  intros (Hwf & Ht & Hp). split; [by apply native_cast_wf|]. unfold native_cast.
  destruct (nat_running a) eqn:Hr; simpl; [|split; [done|by rewrite Hr]]. split; [lia|].
  destruct (nat_answers a !! t); [done|]. intros ?. apply elem_of_app. left. auto.
Qed.
Lemma promised_turn P P' handle msg t a next :
  promised P msg t a → (∀ x, P x → P' x) →
  (head (nat_mailbox a) = Some (t, msg) → P' (handle msg (nat_state a) next).1.1) →
  promised P' msg t (native_turn handle a next).1.
Proof.
  intros (Hwf & Ht & Hp) HPP' Hh. split; [by apply native_turn_wf|].
  unfold native_turn. destruct Hwf as [Hst Hnd Hw Ha].
  destruct (nat_mailbox a) as [|[t0 msg0] rest] eqn:Hm; simpl in *.
  { split; [done|]. rewrite Hm. destruct (nat_answers a !! t); [by apply HPP'|done]. }
  destruct (handle msg0 (nat_state a) next) as [[reply s] next'] eqn:He. simpl. split; [done|].
  apply NoDup_cons in Hnd as [Hnotin _].
  destruct (decide (t0 = t)) as [->|Hne].
  - rewrite lookup_insert_eq. destruct (Hw t) as [_ Hnone]; [set_solver|].
    destruct (nat_running a) eqn:Hrun.
    + rewrite Hnone in Hp. specialize (Hp eq_refl). apply elem_of_cons in Hp as [Hp|Hp].
      * simplify_eq. specialize (Hh eq_refl). by rewrite He in Hh.
      * destruct Hnotin. apply list_elem_of_fmap. by exists (t, msg).
    + by specialize (Hst eq_refl).
  - rewrite lookup_insert_ne by done. destruct (nat_answers a !! t) as [x|]; [by apply HPP'|].
    intros Hr. specialize (Hp Hr). apply elem_of_cons in Hp as [Hp|Hp]; [|done]. congruence.
Qed.
End native_lemmas.

(** ** Runs
    What goes on in a runtime while it is shared ([&self] operations, the turns
    of the native actors, actors that stop), and what needs it exclusively
    ([&mut self]). A step gives the ids it hands out. *)
Section runs.
Context {U Cb Rf I W : Type}.
Abbreviation Runtime := (AdapterRuntime U Cb Rf I W).
Implicit Types r : Runtime.
Context `{ProstMessage SpawnRequestProto} `{ProstMessage WatchRequestProto}
  `{ProstMessage UnwatchRequestProto} `{ProstMessage CancelRequestProto}
  `{ProstMessage ConnectPeerProto} `{ProstMessage DisconnectPeerProto}.
Context (k : AdapterKind) (lib_error : string).
Context (call : Cb → ClusterEvent → ClusterEventEmitter Cb * W → bool * (ClusterEventEmitter Cb * W)).

Inductive NativeActor := SpawnWorkerActor (i : nat) | WatchActor | CancelActor | DirectoryActor.

Definition native_turn_of (n : NativeActor) (actors : SystemActorRefs (U := U)) (next : N) :
    SystemActorRefs * N :=
  match n with
  | SpawnWorkerActor i =>
      match handle_workers (spawn_managers actors) !! i with
      | Some w =>
          let '(w, next) := native_turn SpawnManagerActor_handle w next in
          (set_spawn_managers (update_workers <[i := w]> (spawn_managers actors)) actors, next)
      | None => (actors, next)
      end
  | WatchActor =>
      (set_watch_actor (native_turn (uncounted WatchManagerActor_handle) (watch_actor actors) next).1
         actors, next)
  | CancelActor =>
      (set_cancel_actor (native_turn (uncounted CancelManagerActor_handle) (cancel_actor actors) next).1
         actors, next)
  | DirectoryActor =>
      (set_directory_actor
         (native_turn (uncounted NodeDirectoryActor_handle) (directory_actor actors) next).1 actors, next)
  end.
Definition turn (n : NativeActor) (r : Runtime) : Runtime :=
  match system_actors r with
  | Some actors =>
      let '(actors, next) := native_turn_of n actors (next_local r) in
      set_next_local next (set_system_actors (Some actors) r)
  | None => r
  end.
Definition stop_native_of (n : NativeActor) (actors : SystemActorRefs (U := U)) : SystemActorRefs :=
  match n with
  | SpawnWorkerActor i =>
      set_spawn_managers (update_workers (alter native_stop i) (spawn_managers actors)) actors
  | WatchActor => set_watch_actor (native_stop (watch_actor actors)) actors
  | CancelActor => set_cancel_actor (native_stop (cancel_actor actors)) actors
  | DirectoryActor => set_directory_actor (native_stop (directory_actor actors)) actors
  end.
Definition stop_native (n : NativeActor) (r : Runtime) : Runtime :=
  set_system_actors (stop_native_of n <$> system_actors r) r.

(** The id the next message of a spawn worker will be answered with. *)
Definition turn_ids (n : NativeActor) (r : Runtime) : list ActorId :=
  match n, system_actors r with
  | SpawnWorkerActor i, Some actors =>
      match (w ← handle_workers (spawn_managers actors) !! i;
             p ← head (nat_mailbox w);
             Some (SpawnManagerActor_handle p.2 (nat_state w) (next_local r)).1.1) with
      | Some (SpawnReply (Ok (id, _))) => [id]
      | _ => []
      end
  | _, _ => []
  end.

Inductive SharedOp :=
  | OpSpawn (inner : result string ()) (name : string) (mailbox : MailboxConfig)
  | OpWatch (watcher : ActorId) (n : Rf) (target_id : ActorId)
  | OpUnwatch (watcher target_id : ActorId)
  | OpRoute (envelope : WireEnvelope)
  | OpTurn (n : NativeActor)
  | OpStopNative (n : NativeActor)
  | OpSettle (stop : nat) (o : oneshot (result string ()))
  | OpAwaitStop (id : ActorId)
  | OpAwaitAll
  | OpCleanup.
Definition shared_step (o : SharedOp) (r : Runtime) : list ActorId * Runtime :=
  match o with
  | OpSpawn inner name mailbox =>
      let '(res, r) := spawn_internal inner name mailbox r in
      (match res with Some (Ok ref) => [sp_id ref] | _ => [] end, r)
  | OpWatch watcher n target_id => ([], runtime_watch watcher n target_id r)
  | OpUnwatch watcher target_id => ([], runtime_unwatch watcher target_id r)
  | OpRoute envelope => ([], (route_system_envelope k lib_error envelope r).2)
  | OpTurn n => (turn_ids n r, turn n r)
  | OpStopNative n => ([], stop_native n r)
  | OpSettle stop o => ([], settle_stop stop o r)
  | OpAwaitStop id => ([], (await_stop id r).2)
  | OpAwaitAll => ([], (await_all r).2)
  | OpCleanup => ([], cleanup_finished r)
  end.

Inductive ExclusiveOp :=
  | OpStart (config : SystemActorConfig)
  | OpRegisterFactory (type_name : string) (factory : FactoryFn (U := U))
  | OpSpawnRequest (request : SpawnRequest)
  | OpRemoteWatch (target_id watcher : ActorId)
  | OpRemoteUnwatch (target_id watcher : ActorId)
  | OpNotifyTerminated (terminated : ActorId)
  | OpRegisterCancel (id : string) (token : N)
  | OpCancelRequest (id : string)
  | OpCompleteRequest (id : string)
  | OpConnectPeer (peer_id : NodeId) (addr : option string)
  | OpDisconnectPeer (peer_id : NodeId).
Definition exclusive_step (o : ExclusiveOp) (r : Runtime) (w : W) : list ActorId * (Runtime * W) :=
  match o with
  | OpStart config => ([], (start_system_actors_with_config k config r, w))
  | OpRegisterFactory type_name factory => ([], (runtime_register_factory k type_name factory r, w))
  | OpSpawnRequest request =>
      let '(res, r) := handle_spawn_request request r in
      (match res with Ok (id, _) => [id] | Err _ => [] end, (r, w))
  | OpRemoteWatch target_id watcher => ([], (remote_watch target_id watcher r, w))
  | OpRemoteUnwatch target_id watcher => ([], (remote_unwatch target_id watcher r, w))
  | OpNotifyTerminated terminated => ([], ((notify_terminated terminated r).2, w))
  | OpRegisterCancel id token => ([], (register_cancel id token r, w))
  | OpCancelRequest id => ([], ((cancel_request id r).2, w))
  | OpCompleteRequest id => ([], (complete_request id r, w))
  | OpConnectPeer peer_id addr => ([], connect_peer call peer_id addr r w)
  | OpDisconnectPeer peer_id => ([], disconnect_peer call peer_id r w)
  end.

Definition any_step (o : SharedOp + ExclusiveOp) (r : Runtime) (w : W) :
    list ActorId * (Runtime * W) :=
  match o with
  | inl o => let '(ids, r) := shared_step o r in (ids, (r, w))
  | inr o => exclusive_step o r w
  end.
Fixpoint shared_run (os : list SharedOp) (r : Runtime) : list ActorId * Runtime :=
  match os with
  | [] => ([], r)
  | o :: os =>
      let '(ids, r) := shared_step o r in
      let '(ids', r) := shared_run os r in (ids ++ ids', r)
  end.
Fixpoint any_run (os : list (SharedOp + ExclusiveOp)) (r : Runtime) (w : W) :
    list ActorId * (Runtime * W) :=
  match os with
  | [] => ([], (r, w))
  | o :: os =>
      let '(ids, (r, w)) := any_step o r w in
      let '(ids', rw) := any_run os r w in (ids ++ ids', rw)
  end.

(** *** Ids
    What a step may do to the counter: an id it hands out is the next one. *)
Definition same_ids (r r' : Runtime) : Prop :=
  rt_node_id r' = rt_node_id r ∧ next_local r' = next_local r.
Definition bumped (ids : list ActorId) (r r' : Runtime) : Prop :=
  rt_node_id r' = rt_node_id r ∧ next_local r' = wrapping_add64 (next_local r) 1
  ∧ (ids = [] ∨ ids = [mkActorId (rt_node_id r) (next_local r)]).
Definition counts (ids : list ActorId) (r r' : Runtime) : Prop :=
  (ids = [] ∧ same_ids r r') ∨ bumped ids r r'.

(** The workers know the node. *)
Definition workers_on (n : NodeId) (r : Runtime) : Prop :=
  ∀ actors, system_actors r = Some actors →
    Forall (λ w, sms_node_id (nat_state w) = n) (handle_workers (spawn_managers actors)).

Lemma spawn_handle_cases msg (s : SpawnManagerState U) next :
  let '(reply, s', next') := SpawnManagerActor_handle msg s next in
  sms_node_id s' = sms_node_id s ∧
  (next' = next ∧ (∀ id b, reply ≠ SpawnReply (Ok (id, b)))
   ∨ next' = wrapping_add64 next 1 ∧ ∃ b, reply = SpawnReply (Ok (mkActorId (sms_node_id s) next, b))).
Proof.
  destruct msg as [q| |]; simpl; [|split; [done|left; split; [done|discriminate]]..].
  unfold spawn_request. destruct (SpawnManager_create_actor _ q) as [b|e]; simpl.
  - split; [done|right]. split; [done|by exists b].
  - split; [done|left]. split; [done|]. intros; discriminate.
Qed.

Lemma update_workers_insert i w (h : SystemActorHandle (U := U)) :
  handle_workers (update_workers <[i := w]> h) = <[i := w]> (handle_workers h).
Proof. destruct h as [w0|ws c]; [by destruct i|done]. Qed.
Lemma update_workers_fmap f (h : SystemActorHandle (U := U)) :
  handle_workers (update_workers (fmap f) h) = f <$> handle_workers h.
Proof. by destruct h. Qed.
Lemma update_workers_alter f i (h : SystemActorHandle (U := U)) :
  handle_workers (update_workers (alter f i) h) = alter f i (handle_workers h).
Proof. destruct h as [w0|ws c]; [by destruct i|done]. Qed.
Lemma next_worker_workers (h : SystemActorHandle (U := U)) :
  handle_workers (next_worker h).2 = handle_workers h.
Proof. by destruct h. Qed.

(** *** The arms of the router *)
Inductive routed (envelope : WireEnvelope) (r : Runtime) : Routing * Runtime → Prop :=
  | routed_error text : routed envelope r (route_error text, r)
  | routed_spawn actors q :
      system_actors r = Some actors → message_type envelope = SYSTEM_MSG_TYPE_SPAWN →
      decode_spawn_request (body envelope) = Ok q →
      routed envelope r (route_spawn k lib_error actors r q)
  | routed_watch actors msg :
      system_actors r = Some actors → routed envelope r (route_watch_msg k lib_error actors r msg)
  | routed_directory actors msg :
      system_actors r = Some actors → routed envelope r (route_directory_msg k lib_error actors r msg)
  | routed_cancel actors q :
      system_actors r = Some actors → message_type envelope = SYSTEM_MSG_TYPE_CANCEL →
      decode_cancel_request (body envelope) = Ok q →
      routed envelope r (route_cancel k lib_error actors r q).

Lemma route_cases envelope r : routed envelope r (route_system_envelope k lib_error envelope r).
Proof.
  unfold route_system_envelope, validate_system_message_type. simpl.
  destruct (is_system_message_type _); [|apply routed_error].
  destruct (system_actors r) as [actors|] eqn:Ha; [|apply routed_error].
  unfold decoded. repeat case_decide; try apply routed_error;
    (case_match eqn:Hd; [|apply routed_error]);
    first [by eapply routed_spawn|by eapply routed_cancel|by apply routed_watch|by apply routed_directory].
Qed.

Lemma native_cast_state {S Msg Reply} (msg : Msg) (a : Native S Msg Reply) :
  nat_state (native_cast msg a).2 = nat_state a.
Proof. unfold native_cast. by destruct (nat_running a). Qed.

Lemma handle_cast_workers msg (h : SystemActorHandle (U := U)) :
  let '((i, t), h') := handle_cast msg h in
  match handle_workers h !! i with
  | Some w => t = (native_cast msg w).1 ∧ handle_workers h' = <[i := (native_cast msg w).2]> (handle_workers h)
  | None => t = None ∧ handle_workers h' = handle_workers h
  end.
Proof.
  unfold handle_cast. pose proof (next_worker_workers h) as Hw.
  destruct (next_worker h) as [i h1]. simpl in Hw. rewrite Hw.
  destruct (handle_workers h !! i) as [w|] eqn:Hi; [|by simpl; rewrite Hi].
  destruct (native_cast msg w) as [t w'] eqn:Hc. simpl. rewrite Hi, Hc. by rewrite update_workers_insert, Hw.
Qed.

(** A route leaves everything but the native actors alone, and those get at most
    one message. *)
Definition told_or_same {S Msg Reply} (a a' : Native S Msg Reply) : Prop :=
  a' = a ∨ ∃ msg, a' = (native_cast msg a).2.
Record cast_once (actors actors' : SystemActorRefs (U := U)) : Prop := {
  once_workers :
    handle_workers (spawn_managers actors') = handle_workers (spawn_managers actors)
    ∨ ∃ i w q, handle_workers (spawn_managers actors) !! i = Some w
        ∧ handle_workers (spawn_managers actors')
          = <[i := (native_cast (HandleRequest q) w).2]> (handle_workers (spawn_managers actors));
  once_watch : told_or_same (watch_actor actors) (watch_actor actors');
  once_cancel : told_or_same (cancel_actor actors) (cancel_actor actors');
  once_directory : told_or_same (directory_actor actors) (directory_actor actors')
}.
Lemma route_keeps envelope r :
  let r' := (route_system_envelope k lib_error envelope r).2 in
  r' = r ∨ ∃ actors actors',
    system_actors r = Some actors ∧ r' = set_system_actors (Some actors') r ∧ cast_once actors actors'.
Proof.
  simpl. destruct (route_cases envelope r) as [|actors q Ha|actors msg Ha|actors msg Ha|actors q Ha];
    [by left|right; exists actors..|].
  - unfold route_spawn.
    pose proof (handle_cast_workers (HandleRequest q) (spawn_managers actors)) as Hc.
    destruct (handle_cast _ _) as [[i t] h].
    exists (set_spawn_managers h actors). split; [done|]. split; [by destruct t|].
    split; [|by left..]. simpl.
    destruct (_ !! i) as [w|] eqn:Hi; [right; exists i, w, q; by destruct Hc|left; by destruct Hc].
  - exists (set_watch_actor (native_cast msg (watch_actor actors)).2 actors).
    unfold route_watch_msg, told. split; [done|].
    split; [by destruct (native_cast msg _) as [[t|] a]|]. split; simpl; [by left| |by left..].
    right. by exists msg.
  - exists (set_directory_actor (native_cast msg (directory_actor actors)).2 actors).
    unfold route_directory_msg, told. split; [done|].
    split; [by destruct (native_cast msg _) as [[t|] a]|]. split; simpl; [by left..|].
    right. by exists msg.
  - unfold route_cancel. destruct (cr_request_id q) as [id|]; [|by left].
    destruct (native_cast (CancelMsg id) (cancel_actor actors)) as [[t|] a] eqn:Hc; [right|by left].
    exists actors, (set_cancel_actor a actors). split; [done|]. split; [done|].
    split; simpl; [by left..| |by left]. right. exists (CancelMsg id). by rewrite Hc.
Qed.

(** *** The counter over a step *)
Lemma workers_on_same n r r' :
  system_actors r' = system_actors r → workers_on n r → workers_on n r'.
Proof. unfold workers_on. by intros ->. Qed.

Lemma turn_counts n r :
  workers_on (rt_node_id r) r → counts (turn_ids n r) r (turn n r) ∧ workers_on (rt_node_id r) (turn n r).
Proof.
  intros Hon. unfold turn, turn_ids.
  destruct (system_actors r) as [actors|] eqn:Ha;
    [|by split; [left; split; [by destruct n|]|intros a; rewrite Ha]].
  destruct n as [i| | |]; simpl;
    try (split; [by left|intros a Hs; simpl in Hs; simplify_eq; by apply (Hon _ Ha)]).
  pose proof (Hon _ Ha) as Hall.
  destruct (handle_workers (spawn_managers actors) !! i) as [w|] eqn:Hi; simpl;
    [|by split; [left|intros a Hs; simpl in Hs; simplify_eq; apply Hon]].
  pose proof (Forall_lookup_1 _ _ _ _ Hall Hi) as Hn. simpl in Hn.
  unfold native_turn. destruct (nat_mailbox w) as [|[t msg] rest]; simpl.
  { split; [by left|]. intros a Hs. simpl in Hs. simplify_eq. simpl.
    by rewrite update_workers_insert, list_insert_id. }
  pose proof (spawn_handle_cases msg (nat_state w) (next_local r)) as Hc.
  destruct (SpawnManagerActor_handle msg (nat_state w) (next_local r)) as [[reply s'] next'].
  destruct Hc as [Hs Hc]. simpl. split.
  - destruct Hc as [[-> Hno]|[-> [b ->]]].
    + left. split; [|done]. destruct reply as [[[id b]|]| |]; try done. by destruct (Hno id b).
    + right. split_and!; [done..|right]. by rewrite Hn.
  - intros a Hs'. simpl in Hs'. simplify_eq. simpl. rewrite update_workers_insert.
    apply Forall_insert; [done|]. simpl. congruence.
Qed.

Lemma spawn_counts inner name mailbox r :
  let '(res, r') := spawn_internal inner name mailbox r in
  bumped (match res with Some (Ok ref) => [sp_id ref] | _ => [] end) r r'
  ∧ system_actors r' = system_actors r.
Proof.
  unfold spawn_internal, runtime_assign_id. simpl.
  destruct inner as [u|e]; [destruct (bounded_channel mailbox) as [b|]|]; simpl;
    (split; [|done]); split_and!; first [done|by left|by right].
Qed.

Lemma shared_step_counts o r :
  workers_on (rt_node_id r) r →
  let '(ids, r') := shared_step o r in counts ids r r' ∧ workers_on (rt_node_id r) r'.
Proof.
  intros Hon. destruct o as [inner name mailbox|w n t|w t|env|n|n|stop o|id| |]; simpl;
    try by split; [left|].
  - pose proof (spawn_counts inner name mailbox r) as Hs.
    destruct (spawn_internal inner name mailbox r) as [res r']. destruct Hs as [Hs Ha].
    split; [by right|]. by apply (workers_on_same _ r).
  - pose proof (route_keeps env r) as Hk. simpl in Hk.
    destruct Hk as [->|(actors & actors' & Ha & -> & Hw)]; [by split; [left|]|].
    split; [by left|]. intros a Hs. simpl in Hs. simplify_eq.
    destruct (once_workers _ _ Hw) as [->|(i & w & q & Hi & ->)]; [by apply Hon|]. apply Forall_insert; [by apply Hon|].
    rewrite native_cast_state. exact (Forall_lookup_1 _ _ _ _ (Hon _ Ha) Hi).
  - by apply turn_counts.
  - split; [by left|]. intros a Ha. simpl in Ha.
    destruct (system_actors r) as [actors|] eqn:Hr; simpl in Ha; simplify_eq.
    specialize (Hon _ Hr). destruct n; simpl; try done. rewrite update_workers_alter.
    apply Forall_alter; [done|]. by intros.
Qed.

Lemma any_step_counts o r w :
  workers_on (rt_node_id r) r →
  let '(ids, (r', _)) := any_step o r w in counts ids r r' ∧ workers_on (rt_node_id r) r'.
Proof.
  intros Hon. destruct o as [o|o]; simpl.
  { pose proof (shared_step_counts o r Hon) as Hs. by destruct (shared_step o r). }
  destruct o as [config|t f|q|t w'|t w'|t|id tk|id|id|p a|p]; simpl; try by split; [left|].
  - split; [by left|]. intros actors Ha. simpl in Ha. simplify_eq. simpl.
    destruct (max _ 1) as [|[|n]]; simpl;
      [done|destruct (single_handle k); simpl; by repeat constructor|].
    do 2 (constructor; [done|]). apply Forall_replicate. done.
  - unfold runtime_register_factory. simpl. destruct (system_actors r) as [actors|] eqn:Ha; simpl;
      [|split; [by left|]; apply (workers_on_same _ r); [by rewrite Ha|done]].
    destruct (forwards_factories k); simpl;
      [|split; [by left|]; apply (workers_on_same _ r); [by rewrite Ha|done]].
    split; [by left|]. intros a Hs. simpl in Hs. simplify_eq. simpl.
    rewrite update_workers_fmap. apply Forall_fmap. eapply Forall_impl; [by apply Hon|].
    intros x Hx. unfold cast_factory. simpl. by rewrite native_cast_state.
  - unfold handle_spawn_request, spawn_request.
    destruct (SpawnManager_create_actor _ q); simpl; (split; [|done]); [right|by left].
    split_and!; first [done|by right].
  - unfold cancel_request, cancel. destruct (_ !! id); by split; [left|].
  - unfold connect_peer. destruct (is_connected p _); [by split; [left|]|].
    unfold runtime_emit. destruct (Adapter_emit _ _ _); simpl. by split; [left|].
  - unfold disconnect_peer. destruct (is_connected p _); [|by split; [left|]].
    unfold runtime_emit. destruct (Adapter_emit _ _ _); simpl. by split; [left|].
Qed.

(** Fewer steps than ids left: those handed out are the next ones, in order. *)
Lemma any_run_ids os r w :
  workers_on (rt_node_id r) r → (next_local r + N.of_nat (length os) < 2 ^ 64)%N →
  let '(ids, (r', _)) := any_run os r w in
  rt_node_id r' = rt_node_id r ∧ (next_local r <= next_local r')%N ∧ NoDup ids
  ∧ Forall (λ id, node id = rt_node_id r ∧ (next_local r <= local id < next_local r')%N) ids.
Proof.
  revert r w. induction os as [|o os IH]; intros r w Hon Hlen; cbn [any_run].
  { split_and!; [done|lia|constructor..]. }
  pose proof (any_step_counts o r w Hon) as Hs.
  destruct (any_step o r w) as [ids [r1 w1]]. destruct Hs as [Hc Hon1]. cbn [length] in Hlen.
  assert (rt_node_id r1 = rt_node_id r) as Hn by (by destruct Hc as [(_ & ? & ?)|(? & ? & ?)]).
  assert (next_local r1 = next_local r ∧ ids = []
          ∨ next_local r1 = (next_local r + 1)%N
            ∧ (ids = [] ∨ ids = [mkActorId (rt_node_id r) (next_local r)])) as Hcase.
  { destruct Hc as [(-> & _ & ?)|(_ & Hb & ?)]; [by left|right]. split; [|done].
    rewrite Hb. unfold wrapping_add64, wrap64. apply N.mod_small. lia. }
  specialize (IH r1 w1). rewrite Hn in IH. specialize (IH Hon1).
  destruct (any_run os r1 w1) as [ids' [r2 w2]]. destruct IH as (-> & Hle & Hnd & Hall).
  { destruct Hcase as [[-> _]|[-> _]]; lia. }
  assert (Forall (λ id, node id = rt_node_id r ∧ (next_local r <= local id < next_local r2)%N) ids').
  { eapply Forall_impl; [done|]. simpl. intros id [? ?]. split; [done|].
    destruct Hcase as [[? _]|[? _]]; lia. }
  destruct Hcase as [ [Heq ->] | [Heq [-> | ->] ] ]; simpl; (split_and!; [done|lia|try done|try done]).
  - constructor; [|done]. intros Hin.
    rewrite Forall_forall in Hall. specialize (Hall _ Hin). simpl in Hall. lia.
  - constructor; [|done]. simpl. split; [done|lia].
Qed.

(** *** The native actors over a step *)
Record natives_wf_of (actors : SystemActorRefs (U := U)) : Prop := {
  workers_wf : Forall native_wf (handle_workers (spawn_managers actors));
  watch_wf : native_wf (watch_actor actors);
  cancel_wf : native_wf (cancel_actor actors);
  directory_wf : native_wf (directory_actor actors)
}.
Definition natives_wf r : Prop := ∀ actors, system_actors r = Some actors → natives_wf_of actors.

Lemma told_or_same_wf {S Msg Reply} (a a' : Native S Msg Reply) :
  told_or_same a a' → native_wf a → native_wf a'.
Proof. intros [->|[msg ->]]; [done|apply native_cast_wf]. Qed.
Lemma cast_once_wf actors actors' :
  cast_once actors actors' → natives_wf_of actors → natives_wf_of actors'.
Proof.
  intros [Hs Hw Hc Hd] [Ws Ww Wc Wd]. split; [|by eapply told_or_same_wf..].
  destruct Hs as [->|(i & w & q & Hi & ->)]; [done|]. apply Forall_insert; [done|].
  apply native_cast_wf. by apply (Forall_lookup_1 _ _ _ _ Ws Hi).
Qed.
Lemma native_turn_of_wf n actors next :
  natives_wf_of actors → natives_wf_of (native_turn_of n actors next).1.
Proof.
  intros [Ws Ww Wc Wd]. destruct n as [i| | |]; simpl;
    [|split; simpl; first [done|by apply native_turn_wf]..].
  destruct (_ !! i) as [w|] eqn:Hi; [|by split].
  pose proof (native_turn_wf SpawnManagerActor_handle w next (Forall_lookup_1 _ _ _ _ Ws Hi)) as Hwf.
  destruct (native_turn _ w next) as [w' next']. split; simpl; try done.
  rewrite update_workers_insert. by apply Forall_insert.
Qed.
Lemma stop_native_of_wf n actors : natives_wf_of actors → natives_wf_of (stop_native_of n actors).
Proof.
  intros [Ws Ww Wc Wd]. destruct n as [i| | |]; split; simpl; try done; try by apply native_stop_wf.
  rewrite update_workers_alter. apply Forall_alter; [done|]. intros. by apply native_stop_wf.
Qed.

Lemma shared_step_wf o r : natives_wf r → natives_wf (shared_step o r).2.
Proof.
  intros Hwf. destruct o as [inner name mailbox|w n t|w t|env|n|n|stop o|id| |]; simpl; try done.
  - pose proof (spawn_counts inner name mailbox r) as Hs.
    destruct (spawn_internal inner name mailbox r) as [res r']. destruct Hs as [_ Ha].
    unfold natives_wf. simpl. by rewrite Ha.
  - pose proof (route_keeps env r) as Hk. simpl in Hk.
    destruct Hk as [->|(actors & actors' & Ha & -> & Hc)]; [done|].
    intros a Hs. simpl in Hs. simplify_eq. eapply cast_once_wf; [done|by apply Hwf].
  - unfold turn. destruct (system_actors r) as [actors|] eqn:Ha; [|done].
    pose proof (native_turn_of_wf n actors (next_local r) (Hwf _ Ha)) as Ht.
    destruct (native_turn_of _ _ _) as [actors' next']. intros a Hs. simpl in Hs. by simplify_eq.
  - intros a Ha. simpl in Ha. destruct (system_actors r) as [actors|] eqn:Hr; simpl in Ha; simplify_eq.
    by apply stop_native_of_wf, Hwf.
Qed.
Lemma any_step_wf o r w : natives_wf r → natives_wf (any_step o r w).2.1.
Proof.
  intros Hwf. destruct o as [o|o]; simpl.
  { pose proof (shared_step_wf o r Hwf). by destruct (shared_step o r). }
  destruct o as [config|t f|q|t w'|t w'|t|id tk|id|id|p a|p]; simpl; try done.
  - intros actors Ha. simpl in Ha. simplify_eq. split; simpl; [|apply native_new_wf..].
    assert (∀ m, Forall (native_wf (Msg := SpawnManagerMsg U) (Reply := SpawnManagerReply U)) (replicate m
      (native_new (SpawnManagerActor_new (rt_node_id r) (U := U) TypeRegistry_new)))) as Hrep.
    { intros m. apply Forall_replicate, native_new_wf. }
    destruct (max _ 1) as [|[|n]]; simpl; [constructor|destruct (single_handle k)|];
      [apply (Hrep 1)..|apply (Hrep (Datatypes.S (Datatypes.S n)))].
  - unfold runtime_register_factory. simpl.
    destruct (system_actors r) as [actors|] eqn:Ha; [|exact Hwf].
    destruct (forwards_factories k); [|exact Hwf].
    intros a Hs. simpl in Hs. simplify_eq. destruct (Hwf _ Ha) as [Ws Ww Wc Wd].
    split; simpl; try done. rewrite update_workers_fmap. apply Forall_fmap.
    eapply Forall_impl; [done|]. intros x Hx. by apply native_cast_wf.
  - unfold handle_spawn_request, spawn_request. by destruct (SpawnManager_create_actor _ q).
  - unfold cancel_request, cancel. by destruct (_ !! id).
  - unfold connect_peer, runtime_emit. destruct (is_connected p _); [done|].
    by destruct (Adapter_emit _ _ _).
  - unfold disconnect_peer, runtime_emit. destruct (is_connected p _); [|done].
    by destruct (Adapter_emit _ _ _).
Qed.
Lemma any_run_wf os r w :
  natives_wf r → workers_on (rt_node_id r) r →
  let '(_, (r', _)) := any_run os r w in
  natives_wf r' ∧ workers_on (rt_node_id r') r' ∧ rt_node_id r' = rt_node_id r.
Proof.
  revert r w. induction os as [|o os IH]; intros r w Hwf Hon; cbn [any_run]; [done|].
  pose proof (any_step_wf o r w Hwf) as Hwf'. pose proof (any_step_counts o r w Hon) as Hc.
  destruct (any_step o r w) as [ids [r1 w1]]. simpl in Hwf'. destruct Hc as [Hc Hon'].
  assert (rt_node_id r1 = rt_node_id r) as Hn by (by destruct Hc as [(_ & ? & ?)|(? & ? & ?)]).
  rewrite <- Hn in Hon'. specialize (IH r1 w1 Hwf' Hon').
  destruct (any_run os r1 w1) as [ids' [r2 w2]]. rewrite <- Hn. done.
Qed.

(** *** What a router that waits can count on *)
Definition spawn_answer (q : SpawnRequest) (given : list ActorId) (reply : SpawnManagerReply U) : Prop :=
  match reply with
  | SpawnReply (Ok (id, _)) => id ∈ given
  | SpawnReply (Err (SpawnFailure request_id _)) => request_id = sr_request_id q
  | _ => False
  end.
Definition cancel_answer (reply : CancelManagerReply) : Prop :=
  match reply with CancelReply _ _ => True | _ => False end.
Definition awaits (given : list ActorId) (p : Routing) r : Prop :=
  match p with
  | RouteDone _ => True
  | RouteAwaitSpawn req_id i t =>
      ∃ q actors w, system_actors r = Some actors ∧ handle_workers (spawn_managers actors) !! i = Some w
        ∧ req_id = sr_request_id q ∧ promised (spawn_answer q given) (HandleRequest q) t w
  | RouteAwaitCancel t =>
      ∃ id actors, system_actors r = Some actors
        ∧ promised cancel_answer (CancelMsg id) t (cancel_actor actors)
  end.

Lemma promised_mono {S Msg Reply} (P P' : Reply → Prop) (msg : Msg) t (a : Native S Msg Reply) :
  (∀ x, P x → P' x) → promised P msg t a → promised P' msg t a.
Proof.
  intros HP (Hwf & Ht & Hp). split_and!; [done..|]. destruct (nat_answers a !! t); auto.
Qed.
Lemma promised_stop {S Msg Reply} (P : Reply → Prop) (msg : Msg) t (a : Native S Msg Reply) :
  promised P msg t a → promised P msg t (native_stop a).
Proof.
  intros (Hwf & Ht & Hp). split_and!; [by apply native_stop_wf|done|]. simpl.
  by destruct (nat_answers a !! t).
Qed.
Lemma promised_told {S Msg Reply} (P : Reply → Prop) (msg : Msg) t (a a' : Native S Msg Reply) :
  told_or_same a a' → promised P msg t a → promised P msg t a'.
Proof. intros [->|[m ->]]; [done|apply promised_cast]. Qed.
Lemma spawn_answer_mono q given ids reply :
  spawn_answer q given reply → spawn_answer q (given ++ ids) reply.
Proof.
  destruct reply as [[[id b]|resp]| |]; simpl; try done. rewrite elem_of_app. by left.
Qed.
Lemma awaits_mono given ids p r r' :
  system_actors r' = system_actors r → awaits given p r → awaits (given ++ ids) p r'.
Proof.
  destruct p as [res|req i t|t]; simpl; [done|intros ->..]; [|done].
  intros (q & actors & w & ? & ? & ? & Hp). exists q, actors, w. split_and!; try done.
  eapply promised_mono; [|done]. apply spawn_answer_mono.
Qed.

Lemma route_awaits envelope r :
  natives_wf r →
  let '(p, r') := route_system_envelope k lib_error envelope r in awaits [] p r'.
Proof.
  intros Hwf. destruct (route_cases envelope r) as [|actors q Ha|actors msg Ha|actors msg Ha|actors q Ha];
    [done|..].
  - unfold route_spawn.
    pose proof (handle_cast_workers (HandleRequest q) (spawn_managers actors)) as Hc.
    destruct (handle_cast _ _) as [[i t] h]. destruct t as [t|]; [|done]. simpl.
    destruct (_ !! i) as [w|] eqn:Hi; [|by destruct Hc]. destruct Hc as [Ht Hh].
    destruct (native_cast (HandleRequest q) w) as [t' w'] eqn:Hc. simpl in *. subst t'.
    exists q, (set_spawn_managers h actors), w'. split_and!; [done| |done|]; simpl.
    + rewrite Hh. apply list_lookup_insert_eq. by eapply lookup_lt_Some.
    + eapply promised_new; [|done]. by apply (Forall_lookup_1 _ _ _ _ (workers_wf _ (Hwf _ Ha)) Hi).
  - unfold route_watch_msg, told. by destruct (native_cast msg _) as [[t|] a].
  - unfold route_directory_msg, told. by destruct (native_cast msg _) as [[t|] a].
  - unfold route_cancel. destruct (cr_request_id q) as [id|]; [|done].
    destruct (native_cast _ _) as [[t|] a] eqn:Hc; [|done].
    exists id, (set_cancel_actor a actors). split; [done|]. simpl.
    eapply promised_new; [|done]. by apply cancel_wf, Hwf.
Qed.

Lemma turn_spawn_ids i r actors w t msg :
  system_actors r = Some actors → handle_workers (spawn_managers actors) !! i = Some w →
  head (nat_mailbox w) = Some (t, msg) →
  turn_ids (SpawnWorkerActor i) r
  = match (SpawnManagerActor_handle msg (nat_state w) (next_local r)).1.1 with
    | SpawnReply (Ok (id, _)) => [id] | _ => [] end.
Proof. intros Ha Hi Hh. unfold turn_ids. rewrite Ha. simpl. rewrite Hi. simpl. by rewrite Hh. Qed.

Lemma turn_awaits n given p r :
  natives_wf r → awaits given p r → awaits (given ++ turn_ids n r) p (turn n r).
Proof.
  intros Hwf Hp. destruct p as [res|req j t|t]; simpl in *; [done|..].
  - destruct Hp as (q & actors & w & Ha & Hj & -> & Hp).
    unfold turn. rewrite Ha.
    destruct (native_turn_of n actors (next_local r)) as [actors' next'] eqn:Ht.
    assert (∀ w', handle_workers (spawn_managers actors') !! j = Some w' →
      promised (spawn_answer q (given ++ turn_ids n r)) (HandleRequest q) t w' →
      ∃ q0 actors0 w0, Some actors' = Some actors0
        ∧ handle_workers (spawn_managers actors0) !! j = Some w0
        ∧ sr_request_id q = sr_request_id q0
        ∧ promised (spawn_answer q0 (given ++ turn_ids n r)) (HandleRequest q0) t w0) as Hgoal
      by (intros w' ??; by exists q, actors', w').
    destruct n as [i| | |]; simpl in Ht;
      try (simplify_eq; apply (Hgoal w); [done|];
           eapply promised_mono; [apply spawn_answer_mono|done]).
    destruct (decide (i = j)) as [->|Hne].
    + rewrite Hj in Ht. destruct (native_turn SpawnManagerActor_handle w (next_local r)) as [w' nx] eqn:Hw.
      simplify_eq. apply (Hgoal w').
      { simpl. rewrite update_workers_insert. apply list_lookup_insert_eq. by eapply lookup_lt_Some. }
      replace w' with (native_turn SpawnManagerActor_handle w (next_local r)).1 by (by rewrite Hw).
      eapply promised_turn; [done|apply spawn_answer_mono|]. intros Hh.
      rewrite (turn_spawn_ids _ _ _ _ _ _ Ha Hj Hh). simpl. unfold spawn_request.
      destruct (SpawnManager_create_actor _ q); simpl; [|done]. set_solver.
    + destruct (_ !! i) as [wi|] eqn:Hi.
      * destruct (native_turn _ wi _) as [w' nx]. simplify_eq. apply (Hgoal w).
        { simpl. by rewrite update_workers_insert, list_lookup_insert_ne. }
        eapply promised_mono; [apply spawn_answer_mono|done].
      * simplify_eq. apply (Hgoal w); [done|]. eapply promised_mono; [apply spawn_answer_mono|done].
  - destruct Hp as (id & actors & Ha & Hp). unfold turn. rewrite Ha.
    destruct (native_turn_of n actors (next_local r)) as [actors' next'] eqn:Ht.
    exists id, actors'. split; [done|]. destruct n as [i| | |]; simpl in Ht; simplify_eq; try done.
    + destruct (_ !! i) as [wi|]; [|by simplify_eq]. destruct (native_turn _ wi _). by simplify_eq.
    + simpl. eapply promised_turn; [done|done|]. intros _. simpl. unfold uncounted. simpl.
      by destruct (cancel id _) as [[re tk] m].
Qed.

Lemma shared_step_awaits o given p r :
  natives_wf r → awaits given p r →
  awaits (given ++ (shared_step o r).1) p (shared_step o r).2.
Proof.
  intros Hwf Hp. destruct o as [inner name mailbox|w n t|w t|env|n|n|stop o|id| |]; simpl;
    try by eapply awaits_mono.
  - pose proof (spawn_counts inner name mailbox r) as Hs.
    destruct (spawn_internal inner name mailbox r) as [res r']. destruct Hs as [_ Ha].
    by eapply awaits_mono.
  - pose proof (route_keeps env r) as Hk. simpl in Hk.
    destruct Hk as [->|(actors & actors' & Ha & -> & [Hs _ Hc _])]; [by eapply awaits_mono|].
    rewrite app_nil_r. destruct p as [res|req i t|t]; simpl in *; [done|..].
    + destruct Hp as (q & a & w & Ha' & Hi & -> & Hp). rewrite Ha in Ha'. simplify_eq.
      destruct Hs as [Hs|(j & w' & q' & Hj & Hs)].
      { exists q, actors', w. split_and!; [done|by rewrite Hs|done..]. }
      destruct (decide (j = i)) as [->|Hne]; simplify_eq.
      * eexists q, actors', _. split_and!; [done| |done|].
        -- rewrite Hs. apply list_lookup_insert_eq. by eapply lookup_lt_Some.
        -- by apply promised_cast.
      * exists q, actors', w. split_and!; [done| |done..]. by rewrite Hs, list_lookup_insert_ne.
    + destruct Hp as (id & a & Ha' & Hp). rewrite Ha in Ha'. simplify_eq. exists id, actors'.
      split; [done|]. by eapply promised_told.
  - by apply turn_awaits.
  - rewrite app_nil_r. destruct p as [res|req i t|t]; simpl in *; [done|..].
    + destruct Hp as (q & actors & w & Ha & Hi & -> & Hp). rewrite Ha. simpl.
      assert (∀ w', handle_workers (spawn_managers (stop_native_of n actors)) !! i = Some w' →
        w' = w ∨ w' = native_stop w) as Hw.
      { intros w'. destruct n as [j| | |]; simpl; [|intros; left; congruence..].
        rewrite update_workers_alter. destruct (decide (i = j)) as [->|Hne].
        - rewrite list_lookup_alter_eq, Hi. intros; right; by simplify_eq/=.
        - rewrite list_lookup_alter_ne by done. intros; left; congruence. }
      assert (is_Some (handle_workers (spawn_managers (stop_native_of n actors)) !! i)) as [w' Hw'].
      { destruct n as [j| | |]; simpl; try by exists w.
        rewrite update_workers_alter. apply lookup_lt_is_Some_2. rewrite length_alter.
        by eapply lookup_lt_Some. }
      exists q, (stop_native_of n actors), w'. split_and!; [done..|].
      destruct (Hw _ Hw') as [->| ->]; [done|by apply promised_stop].
    + destruct Hp as (id & actors & Ha & Hp). rewrite Ha. exists id, (stop_native_of n actors).
      split; [done|]. destruct n; simpl; try done. by apply promised_stop.
Qed.
Lemma shared_run_awaits os given p r :
  natives_wf r → awaits given p r →
  awaits (given ++ (shared_run os r).1) p (shared_run os r).2.
Proof.
  revert given r. induction os as [|o os IH]; intros given r Hwf Hp; simpl; [by rewrite app_nil_r|].
  pose proof (shared_step_wf o r Hwf) as Hwf'. pose proof (shared_step_awaits o given p r Hwf Hp) as Hp'.
  destruct (shared_step o r) as [ids r1]. simpl in *. specialize (IH _ r1 Hwf' Hp').
  destruct (shared_run os r1) as [ids' r2]. simpl in *. by rewrite app_assoc.
Qed.

(** *** Working a mailbox off
    The state a control-plane actor ends in when it gets through its mailbox. *)
Definition worked_off {S Msg Reply} (h : Msg → S → Reply * S) (a : Native S Msg Reply) : S :=
  foldl (λ s m, (h m.2 s).2) (nat_state a) (nat_mailbox a).
Lemma worked_off_turn {S Msg Reply} (h : Msg → S → Reply * S) (a : Native S Msg Reply) next :
  worked_off h (native_turn (uncounted h) a next).1 = worked_off h a.
Proof.
  unfold worked_off, native_turn. destruct (nat_mailbox a) as [|[t m] rest] eqn:Hm; simpl; [by rewrite Hm|].
  unfold uncounted. by destruct (h m (nat_state a)).
Qed.
Lemma worked_off_cast {S Msg Reply} (h : Msg → S → Reply * S) msg (a : Native S Msg Reply) :
  nat_running a = true →
  worked_off h (native_cast msg a).2 = (h msg (worked_off h a)).2.
Proof. unfold worked_off, native_cast. intros ->. simpl. by rewrite foldl_app. Qed.

Lemma told_running {S Msg Reply} name (msg : Msg) (a : Native S Msg Reply) (put : _ → Runtime) :
  nat_running a = true →
  told k lib_error name msg a put = (RouteDone (Ok AcknowledgedOutcome), put (native_cast msg a).2).
Proof. unfold told, native_cast. by intros ->. Qed.

(** *** The stop channels *)
Definition settled r (stop : nat) : Prop := stop_pending r stop = false.

Lemma shared_step_channels o r stop :
  stop < length (stop_channels r) →
  let r' := (shared_step o r).2 in
  stop < length (stop_channels r')
  ∧ (settled r stop → stop_channels r' !! stop = stop_channels r !! stop).
Proof.
  intros Hs. destruct o as [inner name mailbox|w n t|w t|env|n|n|stop' o|id| |]; simpl; try done.
  - unfold spawn_internal, runtime_assign_id. simpl.
    destruct inner as [u|e]; [destruct (bounded_channel mailbox)|]; simpl;
      rewrite ?length_insert, ?length_app; simpl; (split; [lia|]); intros _;
      rewrite ?list_lookup_insert_ne by lia; by rewrite lookup_app_l.
  - pose proof (route_keeps env r) as Hk. simpl in Hk. by destruct Hk as [->|(? & ? & _ & -> & _)].
  - unfold turn. destruct (system_actors r); [|done]. by destruct (native_turn_of _ _ _).
  - rewrite settle_length. split; [done|]. apply settle_settled.
Qed.
Lemma shared_run_channels os r stop :
  stop < length (stop_channels r) → settled r stop →
  stop_channels (shared_run os r).2 !! stop = stop_channels r !! stop.
Proof.
  revert r. induction os as [|o os IH]; intros r Hs Hset; simpl; [done|].
  destruct (shared_step_channels o r stop Hs) as [Hs' Heq].
  destruct (shared_step o r) as [ids r1]. simpl in *. specialize (Heq Hset).
  assert (settled r1 stop) as Hset1 by (unfold settled, stop_pending, is_pending in *; by rewrite Heq).
  specialize (IH r1 Hs' Hset1). destruct (shared_run os r1). simpl in *. congruence.
Qed.

(** *** Peer events
    What an event says about a peer: whether it is connected. *)
Definition peer_event (p : NodeId) (e : ClusterEvent) : option bool :=
  match e with
  | NodeJoined n => if decide (n = p) then Some true else None
  | NodeLeft n => if decide (n = p) then Some false else None
  | NodeRejected _ _ _ => None
  end.
Definition peer_events_of (p : NodeId) (es : list ClusterEvent) : list bool :=
  omap (peer_event p) es.
Fixpoint alternates (b : bool) (l : list bool) : Prop :=
  match l with [] => True | x :: l => x = negb b ∧ alternates x l end.
End runs.

Lemma alternates_app b l l' : alternates b (l ++ l') ↔ alternates b l ∧ alternates (default b (last l)) l'.
Proof.
  revert b. induction l as [|x l IH]; intros b; simpl; [tauto|].
  rewrite IH. replace (default b (last (x :: l))) with (default x (last l)) by (rewrite last_cons; by destruct (last l)). tauto.
Qed.

(** ** Properties *)
Module Spec.
Section spec.
Context {U Cb Rf I W : Type}.
Abbreviation Runtime := (AdapterRuntime U Cb Rf I W).
Implicit Types r : Runtime.
Context `{ProstLaws SpawnRequestProto} `{ProstLaws WatchRequestProto}
  `{ProstLaws UnwatchRequestProto} `{ProstLaws CancelRequestProto}
  `{ProstLaws ConnectPeerProto} `{ProstLaws DisconnectPeerProto}.
Context (k : AdapterKind) (lib_error : string).
Context (call : Cb → ClusterEvent → ClusterEventEmitter Cb * W → bool * (ClusterEventEmitter Cb * W)).

(** C13. Actor ids are unique: whatever a runtime does from its creation, local
    spawns, plain spawn requests and the turns of any number of native spawn
    managers in any interleaving, it never hands out the same id twice, and
    every id names its own node and a local number from 1 up, as long as fewer
    than [2^64 - 1] steps are taken. *)
Theorem ids_unique (n : NodeId) os (w : W) :
  (N.of_nat (length os) < 2 ^ 64 - 1)%N →
  let '(ids, (r, _)) := any_run k lib_error call os (runtime_create n : Runtime) w in
  NoDup ids ∧ Forall (λ id, node id = n ∧ (1 <= local id < next_local r)%N) ids.
Proof.
  intros Hlen. pose proof (any_run_ids k lib_error call os (runtime_create n : Runtime) w) as Hids.
  destruct (any_run _ _ _ _ _ _) as [ids [r w']].
  destruct Hids as (_ & _ & ? & ?); [done|simpl; lia|done].
Qed.

(** C6. A routed system message always gets its answer: the router's wait for a
    native actor never ends in one of the branches the code calls unreachable,
    whatever the runtime has done before and whatever happens while it waits. It
    waits only as long as its message is in the actor's mailbox; a spawn is
    answered for its own request id, with an id that was handed out in the
    meantime or with a failure; an error means that the actor stopped. *)
Theorem routing_answers (n : NodeId) os (w : W) envelope os' :
  let r := (any_run k lib_error call os (runtime_create n : Runtime) w).2.1 in
  let '(p, r1) := route_system_envelope k lib_error envelope r in
  let '(ids, r2) := shared_run k lib_error os' r1 in
  match p, route_poll k lib_error p r2 with
  | RouteDone res, Ready res' => res' = res
  | RouteAwaitSpawn req_id i t, Pending _ =>
      ∃ actors a request, system_actors r2 = Some actors
        ∧ handle_workers (spawn_managers actors) !! i = Some a
        ∧ (t, HandleRequest request) ∈ nat_mailbox a ∧ sr_request_id request = req_id
  | RouteAwaitSpawn req_id i t, Ready (Ok (SpawnCompleted req_id' id)) => req_id' = req_id ∧ id ∈ ids
  | RouteAwaitSpawn req_id i t, Ready (Ok (SpawnFailedOutcome req_id' _)) => req_id' = req_id
  | RouteAwaitSpawn req_id i t, Ready (Err e) =>
      ∃ actors a, system_actors r2 = Some actors
        ∧ handle_workers (spawn_managers actors) !! i = Some a ∧ nat_running a = false
  | RouteAwaitCancel t, Pending _ =>
      ∃ actors id, system_actors r2 = Some actors ∧ (t, CancelMsg id) ∈ nat_mailbox (cancel_actor actors)
  | RouteAwaitCancel t, Ready (Ok (CancelAcknowledged | CancelNotFound _)) => True
  | RouteAwaitCancel t, Ready (Err e) =>
      ∃ actors, system_actors r2 = Some actors ∧ nat_running (cancel_actor actors) = false
  | _, _ => False
  end.
Proof.
  intros r. assert (natives_wf r) as Hwf.
  { pose proof (any_run_wf k lib_error call os (runtime_create n : Runtime) w) as Hr.
    unfold r. destruct (any_run _ _ _ _ _ _) as [ids0 [r0 w0]]. by destruct Hr as (? & _). }
  pose proof (route_awaits k lib_error envelope r Hwf) as Hp.
  assert (natives_wf (route_system_envelope k lib_error envelope r).2) as Hwf1
    by exact (shared_step_wf k lib_error (OpRoute envelope) r Hwf).
  destruct (route_system_envelope _ _ _ _) as [p r1].
  pose proof (shared_run_awaits k lib_error os' [] p r1 Hwf1 Hp) as Ha.
  destruct (shared_run _ _ _ _) as [ids r2]. simpl in Ha. destruct p as [res|req i t|t]; simpl in *; [done|..].
  - destruct Ha as (q & actors & a & -> & Hi & -> & _ & _ & Hm). rewrite Hi. simpl. unfold native_reply.
    destruct (nat_answers a !! t) as [reply|].
    + by destruct reply as [[[id b]|[]]| |]; simpl in Hm.
    + destruct (nat_running a) eqn:Hrun; [|by exists actors, a].
      exists actors, a, q. split_and!; auto.
  - destruct Ha as (id & actors & -> & _ & _ & Hm). unfold native_reply.
    destruct (nat_answers _ !! t) as [reply|].
    + by destruct reply as [|[] tk|]; simpl in Hm.
    + destruct (nat_running _) eqn:Hrun; [|by exists actors]. exists actors, id. auto.
Qed.

Definition small (b : bytes) : Prop := (len_N b <= MAX_SYSTEM_MSG_SIZE)%N.
Definition carries (envelope : WireEnvelope) (t : string) (b : bytes) : Prop :=
  message_type envelope = t ∧ body envelope = b ∧ small b.

(** C12. From the peer's encoder to the manager: an envelope with a well-formed watch,
    unwatch, connect-peer, disconnect-peer or cancel message reaches the native
    manager it is for and no other part of the runtime, the plain managers and the
    cluster events included. When the actor has gone through its mailbox, its
    state is the manager's operation applied to the state it would have had
    without the envelope. A cancellation without a request id, which the protocol
    file describes as one of all operations of the target, is an error and changes
    nothing. Spawn messages are in [routed_spawn]. *)
Theorem routing_delivers r actors envelope :
  system_actors r = Some actors →
  nat_running (watch_actor actors) = true → nat_running (cancel_actor actors) = true →
  nat_running (directory_actor actors) = true →
  let route := route_system_envelope k lib_error envelope r in
  let acked actors' := route = (RouteDone (Ok AcknowledgedOutcome), set_system_actors (Some actors') r) in
  let watches := worked_off WatchManagerActor_handle in
  let cancels := worked_off CancelManagerActor_handle in
  let directory := worked_off NodeDirectoryActor_handle in
  (∀ q, id_wf (wr_target q) → id_wf (wr_watcher q) →
     carries envelope SYSTEM_MSG_TYPE_WATCH (encode_watch_request q) →
     ∃ a, acked (set_watch_actor a actors)
       ∧ watches a = watch (wr_target q) (wr_watcher q) (watches (watch_actor actors))) ∧
  (∀ q, id_wf (ur_target q) → id_wf (ur_watcher q) →
     carries envelope SYSTEM_MSG_TYPE_UNWATCH (encode_unwatch_request q) →
     ∃ a, acked (set_watch_actor a actors)
       ∧ watches a = unwatch (ur_target q) (ur_watcher q) (watches (watch_actor actors))) ∧
  (∀ n addr, node_str n ≠ "" →
     carries envelope SYSTEM_MSG_TYPE_CONNECT_PEER (encode_connect_peer n addr) →
     ∃ a, acked (set_directory_actor a actors)
       ∧ directory a = connect_directory n addr (directory (directory_actor actors))) ∧
  (∀ n, node_str n ≠ "" →
     carries envelope SYSTEM_MSG_TYPE_DISCONNECT_PEER (encode_disconnect_peer n) →
     ∃ a, acked (set_directory_actor a actors)
       ∧ directory a = set_status n Disconnected (directory (directory_actor actors))) ∧
  (∀ q, id_wf (cr_target q) →
     carries envelope SYSTEM_MSG_TYPE_CANCEL (encode_cancel_request q) →
     match cr_request_id q with
     | Some id => ∃ t a, route = (RouteAwaitCancel t, set_system_actors (Some (set_cancel_actor a actors)) r)
         ∧ cancels a = (cancel id (cancels (cancel_actor actors))).2
     | None => route = (RouteDone (Err (mkRoutingError "CancelRequest missing request_id")), r)
     end).
Proof.
  intros Ha Hw Hc Hd route acked watches cancels directory.
  unfold acked, route, route_system_envelope, carries. rewrite Ha. split_and!.
  - intros q Ht Hwt (-> & -> & Hs). cbn -[decode_watch_request].
    rewrite (proj1 watch_request_codec q (conj Ht Hwt) Hs). cbn. unfold route_watch_msg.
    rewrite told_running by done. eexists. split; [done|].
    exact (worked_off_cast WatchManagerActor_handle _ _ Hw).
  - intros q Ht Hwt (-> & -> & Hs). cbn -[decode_unwatch_request].
    rewrite (proj1 unwatch_request_codec q (conj Ht Hwt) Hs). cbn. unfold route_watch_msg.
    rewrite told_running by done. eexists. split; [done|].
    exact (worked_off_cast WatchManagerActor_handle _ _ Hw).
  - intros n addr Hn (-> & -> & Hs). cbn -[decode_connect_peer].
    pose proof (proj1 connect_peer_codec (n, addr) Hn Hs) as Hdec. cbn -[decode_connect_peer] in Hdec. rewrite Hdec. cbn. unfold route_directory_msg.
    rewrite told_running by done. eexists. split; [done|].
    exact (worked_off_cast NodeDirectoryActor_handle _ _ Hd).
  - intros n Hn (-> & -> & Hs). cbn -[decode_disconnect_peer].
    rewrite (proj1 disconnect_peer_codec n Hn Hs). cbn. unfold route_directory_msg.
    rewrite told_running by done. eexists. split; [done|].
    exact (worked_off_cast NodeDirectoryActor_handle _ _ Hd).
  - intros q Ht (-> & -> & Hs). cbn -[decode_cancel_request].
    rewrite (proj1 cancel_request_codec q Ht Hs). cbn. unfold route_cancel.
    destruct (cr_request_id q) as [id|]; [|done].
    assert (∃ t a, native_cast (CancelMsg id) (cancel_actor actors) = (Some t, a)) as (t & a & Hca).
    { unfold native_cast. rewrite Hc. by do 2 eexists. }
    rewrite Hca. exists t, a. split; [done|]. replace a with (native_cast (CancelMsg id) (cancel_actor actors)).2
      by (by rewrite Hca).
    unfold cancels. rewrite worked_off_cast by done. simpl. by destruct (cancel id _) as [[? ?] ?].
Qed.

(** The body of a message of this type does not decode: the name of the message,
    and the error of its decoder. *)
Inductive undecodable (b : bytes) : string → string → SerializationError → Prop :=
  | no_spawn e : decode_spawn_request b = Err e → undecodable b SYSTEM_MSG_TYPE_SPAWN "SpawnRequest" e
  | no_watch e : decode_watch_request b = Err e → undecodable b SYSTEM_MSG_TYPE_WATCH "WatchRequest" e
  | no_unwatch e :
      decode_unwatch_request b = Err e → undecodable b SYSTEM_MSG_TYPE_UNWATCH "UnwatchRequest" e
  | no_cancel e : decode_cancel_request b = Err e → undecodable b SYSTEM_MSG_TYPE_CANCEL "CancelRequest" e
  | no_connect e :
      decode_connect_peer b = Err e → undecodable b SYSTEM_MSG_TYPE_CONNECT_PEER "ConnectPeer" e
  | no_disconnect e :
      decode_disconnect_peer b = Err e → undecodable b SYSTEM_MSG_TYPE_DISCONNECT_PEER "DisconnectPeer" e.

(** Why the router refuses a message once the system actors are started. *)
Inductive refused (actors : SystemActorRefs (U := U)) (t : string) (b : bytes) : string → Prop :=
  | refused_body what e :
      undecodable b t what e → refused actors t b ("decode " +:+ what +:+ ": " +:+ SerializationError_display e)
  | refused_spawn q :
      t = SYSTEM_MSG_TYPE_SPAWN → decode_spawn_request b = Ok q →
      (∀ a, handle_workers (spawn_managers actors) !! (next_worker (spawn_managers actors)).1 = Some a →
         nat_running a = false) →
      refused actors t b (ask_refused_error k "SpawnManager" lib_error)
  | refused_watch q :
      t = SYSTEM_MSG_TYPE_WATCH → decode_watch_request b = Ok q → nat_running (watch_actor actors) = false →
      refused actors t b (tell_error k "WatchManager" lib_error)
  | refused_unwatch q :
      t = SYSTEM_MSG_TYPE_UNWATCH → decode_unwatch_request b = Ok q →
      nat_running (watch_actor actors) = false → refused actors t b (tell_error k "WatchManager" lib_error)
  | refused_no_id q :
      t = SYSTEM_MSG_TYPE_CANCEL → decode_cancel_request b = Ok q → cr_request_id q = None →
      refused actors t b "CancelRequest missing request_id"
  | refused_cancel q id :
      t = SYSTEM_MSG_TYPE_CANCEL → decode_cancel_request b = Ok q → cr_request_id q = Some id →
      nat_running (cancel_actor actors) = false →
      refused actors t b (ask_refused_error k "CancelManager" lib_error)
  | refused_connect q :
      t = SYSTEM_MSG_TYPE_CONNECT_PEER → decode_connect_peer b = Ok q →
      nat_running (directory_actor actors) = false →
      refused actors t b (tell_error k "NodeDirectory" lib_error)
  | refused_disconnect q :
      t = SYSTEM_MSG_TYPE_DISCONNECT_PEER → decode_disconnect_peer b = Ok q →
      nat_running (directory_actor actors) = false →
      refused actors t b (tell_error k "NodeDirectory" lib_error).
Inductive refusal r (t : string) (b : bytes) : string → Prop :=
  | refused_type : is_system_message_type t = false → refusal r t b ("unknown system message type: " +:+ t)
  | refused_not_started :
      is_system_message_type t = true → system_actors r = None → refusal r t b "system actors not started"
  | refused_started actors text :
      system_actors r = Some actors → refused actors t b text → refusal r t b text.

Lemma native_cast_refused {S Msg Reply} (msg : Msg) (a : Native S Msg Reply) a' :
  native_cast msg a = (None, a') → nat_running a = false ∧ a' = a.
Proof. unfold native_cast. destruct (nat_running a); intros; by simplify_eq. Qed.

Definition turned_only r r' : Prop :=
  r' = r ∨ ∃ actors, system_actors r = Some actors
    ∧ r' = set_system_actors
             (Some (set_spawn_managers (next_worker (spawn_managers actors)).2 actors)) r.

Lemma told_refused {S Msg Reply} name (msg : Msg) (a : Native S Msg Reply) (put : _ → Runtime) e r' :
  told k lib_error name msg a put = (RouteDone (Err e), r') →
  nat_running a = false ∧ r' = put a ∧ routing_message e = tell_error k name lib_error.
Proof.
  unfold told. destruct (native_cast msg a) as [[t|] a'] eqn:Hc; [done|].
  destruct (native_cast_refused _ _ _ Hc) as [? ->]. by intros [= <- <-].
Qed.
Lemma set_system_actors_id r actors :
  system_actors r = Some actors → set_system_actors (Some actors) r = r.
Proof. intros Ha. destruct r. simpl in *. unfold set_system_actors. simpl. congruence. Qed.

Lemma route_spawn_refused r actors q e r' :
  system_actors r = Some actors → route_spawn k lib_error actors r q = (RouteDone (Err e), r') →
  turned_only r r' ∧ routing_message e = ask_refused_error k "SpawnManager" lib_error
  ∧ (∀ a, handle_workers (spawn_managers actors) !! (next_worker (spawn_managers actors)).1 = Some a →
       nat_running a = false).
Proof.
  intros Ha. unfold route_spawn, handle_cast.
  pose proof (next_worker_workers (spawn_managers actors)) as Hw.
  destruct (next_worker (spawn_managers actors)) as [i h] eqn:Hn. simpl in *. rewrite Hw.
  destruct (_ !! i) as [w|] eqn:Hi.
  - destruct (native_cast _ w) as [[t|] w'] eqn:Hc; [done|]. intros [= <- <-].
    destruct (native_cast_refused _ _ _ Hc) as [? ->]. split_and!; [|done|by intros; simplify_eq].
    right. exists actors. split; [done|]. rewrite Hn. simpl. do 3 f_equal.
    rewrite <-Hw in Hi. destruct h as [w0|ws c]; simpl in *.
    + destruct i; simpl in *; by simplify_eq.
    + f_equal. by apply list_insert_id.
  - intros [= <- <-]. split_and!; [|done|done]. right. exists actors. by rewrite Hn.
Qed.

Lemma native_cast_down {S Msg Reply} (msg : Msg) (a : Native S Msg Reply) :
  nat_running a = false → native_cast msg a = (None, a).
Proof. unfold native_cast. by intros ->. Qed.
Lemma refused_system actors t b text : refused actors t b text → is_system_message_type t = true.
Proof. destruct 1 as [what e []| | | | | | |]; by subst. Qed.
Lemma route_spawn_down r actors q :
  (∀ a, handle_workers (spawn_managers actors) !! (next_worker (spawn_managers actors)).1 = Some a →
     nat_running a = false) →
  ∃ r', route_spawn k lib_error actors r q
    = (RouteDone (Err (mkRoutingError (ask_refused_error k "SpawnManager" lib_error))), r').
Proof.
  unfold route_spawn, handle_cast. pose proof (next_worker_workers (spawn_managers actors)) as Hw.
  destruct (next_worker (spawn_managers actors)) as [i h]. simpl in *. rewrite Hw. intros Hdown.
  destruct (_ !! i) as [w|]; [rewrite native_cast_down by auto|]; by eexists.
Qed.
(** A refusal is one of those, where the message is decoded to [X]. *)
Lemma decoded_refused {X} what (d : result SerializationError X) r go e r' (P : Prop) :
  (∀ se, d = Err se → e = mkRoutingError ("decode " +:+ what +:+ ": " +:+ SerializationError_display se) →
     r' = r → P) →
  (∀ x, d = Ok x → go x = (RouteDone (Err e), r') → P) → decoded what d r go = (RouteDone (Err e), r') → P.
Proof. intros He Hgo. destruct d as [x|se]; simpl; [by apply Hgo|]. intros [= <- <-]. by eapply He. Qed.

(** C35. Every refusal of the router, with its reason and its text: a type that is no
    system message, actors that were not started, a body that the decoder of
    that type refuses, with the error of the decoder behind the name of the
    message, a cancel without an id, and an actor that is down, the one this type
    of message is for. These are all, each of them is an error, and so a body
    that decodes is never refused as undecodable. A refusal changes nothing but
    whose turn it is in the pool of spawn managers. The last arm of the [match],
    for a system message type without a handler, is never reached. *)
Theorem routing_refuses r envelope :
  let route := route_system_envelope k lib_error envelope r in
  (∀ e r', route = (RouteDone (Err e), r') →
     refusal r (message_type envelope) (body envelope) (routing_message e) ∧ turned_only r r')
  ∧ ∀ text, refusal r (message_type envelope) (body envelope) text →
      ∃ r', route = (RouteDone (Err (mkRoutingError text)), r').
Proof.
  cbn zeta. unfold route_system_envelope, validate_system_message_type. split.
  - intros e r'.
    destruct (is_system_message_type _) eqn:Hsys; [|intros [= <- <-]; split; [by constructor|by left]].
    destruct (system_actors r) as [actors|] eqn:Ha; [|intros [= <- <-]; split; [by constructor|by left]].
    pose proof (set_system_actors_id _ _ Ha) as Hid.
    repeat case_decide; (first
      [apply decoded_refused;
         [intros se Hse -> ->; split; [|by left]; eapply refused_started; [done|]; apply refused_body;
          match goal with Ht : _ = _ |- _ => rewrite Ht; by constructor end
         |intros q Hq]|idtac]).
    + intros (? & -> & ?)%(route_spawn_refused _ _ _ _ _ Ha).
      split; [eapply refused_started, refused_spawn; done|done].
    + intros (? & -> & ->)%told_refused.
      split; [eapply refused_started, refused_watch; done|left; rewrite <-Hid at 2; by destruct actors].
    + intros (? & -> & ->)%told_refused.
      split; [eapply refused_started, refused_unwatch; done|left; rewrite <-Hid at 2; by destruct actors].
    + unfold route_cancel. destruct (cr_request_id q) as [id|] eqn:Hreq.
      * destruct (native_cast _ _) as [[t|] a] eqn:Hc; [done|]. intros [= <- <-].
        destruct (native_cast_refused _ _ _ Hc). split; [eapply refused_started, refused_cancel; done|by left].
      * intros [= <- <-]. split; [eapply refused_started, refused_no_id; done|by left].
    + intros (? & -> & ->)%told_refused.
      split; [eapply refused_started, refused_connect; done|left; rewrite <-Hid at 2; by destruct actors].
    + intros (? & -> & ->)%told_refused.
      split; [eapply refused_started, refused_disconnect; done|left; rewrite <-Hid at 2; by destruct actors].
    + exfalso. unfold is_system_message_type in Hsys. by repeat case_bool_decide.
  - intros text [->|Hsys ->|actors text' Ha Hr]; [by eexists|rewrite Hsys; by eexists|].
    rewrite (refused_system _ _ _ _ Hr), Ha.
    destruct Hr as [what e Hun|q Ht Hq Hd|q Ht Hq Hd|q Ht Hq Hd|q Ht Hq Hn|q id Ht Hq Hid Hd|q Ht Hq Hd|q Ht Hq Hd];
      [remember (message_type envelope) as t eqn:Ht in Hun; destruct Hun as [e Hq|e Hq|e Hq|e Hq|e Hq|e Hq];
         symmetry in Ht|..];
      rewrite Ht; repeat (rewrite decide_False by done); rewrite decide_True by done; rewrite Hq; cbn [decoded];
      unfold route_watch_msg, route_directory_msg, told, route_cancel;
      rewrite ?Hn, ?Hid, ?native_cast_down by done; try (by eexists).
    by apply route_spawn_down.
Qed.

(** *** Factories *)
Abbreviation Factory := (FactoryFn (U := U)).
Abbreviation SpawnWorker := (Native (SpawnManagerState U) (SpawnManagerMsg U) (SpawnManagerReply U)).
Definition register_all (fs : list (string * Factory)) r : Runtime :=
  foldl (λ r f, runtime_register_factory k f.1 f.2 r) r fs.
Definition registration (f : string * Factory) : SpawnManagerMsg U := RegisterFactory f.1 f.2.

(** What a spawn manager that knows [fs] answers. *)
Definition spawn_outcome (fs : gmap string Factory) (request : SpawnRequest) (id : ActorId) :
    RoutingOutcome :=
  match fs !! sr_type_name request with
  | Some f =>
      match f (sr_args_bytes request) with
      | Ok _ => SpawnCompleted (sr_request_id request) id
      | Err e => SpawnFailedOutcome (sr_request_id request) (SerializationError_display e)
      end
  | None =>
      SpawnFailedOutcome (sr_request_id request)
        (SerializationError_display (SerializationError_new
           ("no actor factory registered for '" +:+ sr_type_name request +:+ "'")))
  end.

Inductive fresh_handle (w : SpawnWorker) : SystemActorHandle (U := U) → Prop :=
  | fresh_single : fresh_handle w (Single w)
  | fresh_pool ws : fresh_handle w (Pool (w :: ws) 0).
Lemma fresh_next w h : fresh_handle w h → (next_worker h).1 = 0 ∧ handle_workers h !! 0 = Some w.
Proof. by destruct 1. Qed.
Lemma fresh_fmap f w h : fresh_handle w h → fresh_handle (f w) (update_workers (fmap f) h).
Proof. destruct 1; constructor. Qed.
Lemma start_fresh config r :
  ∃ actors, system_actors (start_system_actors_with_config k config r) = Some actors
    ∧ fresh_handle (native_new (SpawnManagerActor_new (rt_node_id r) TypeRegistry_new))
        (spawn_managers actors).
Proof.
  eexists. split; [done|]. simpl.
  destruct (max _ 1) as [|[|n]] eqn:Hm; simpl; [lia|destruct (single_handle k)|]; constructor.
Qed.

Lemma register_all_effect fs r w actors :
  system_actors r = Some actors → fresh_handle w (spawn_managers actors) →
  let r' := register_all fs r in
  next_local r' = next_local r
  ∧ ∃ actors', system_actors r' = Some actors'
      ∧ fresh_handle (if forwards_factories k then foldl (λ w f, cast_factory f.1 f.2 w) w fs else w)
          (spawn_managers actors').
Proof.
  revert r w actors. induction fs as [|f fs IH]; intros r w actors Ha Hf.
  { split; [done|]. exists actors. split; [done|]. by destruct (forwards_factories k). }
  change (register_all (f :: fs) r) with (register_all fs (runtime_register_factory k f.1 f.2 r)).
  assert (next_local (runtime_register_factory k f.1 f.2 r) = next_local r) as Hn.
  { unfold runtime_register_factory. simpl. rewrite Ha. by destruct (forwards_factories k). }
  rewrite <-Hn. destruct (forwards_factories k) eqn:Hk.
  - apply (IH _ (cast_factory f.1 f.2 w)
             (set_spawn_managers (update_workers (fmap (cast_factory f.1 f.2)) (spawn_managers actors)) actors));
      [|by apply (fresh_fmap (cast_factory f.1 f.2))].
    unfold runtime_register_factory. simpl. by rewrite Ha, Hk.
  - apply (IH _ w actors); [|done]. unfold runtime_register_factory. simpl. by rewrite Ha, Hk.
Qed.

Lemma cast_registrations fs (w : SpawnWorker) :
  nat_running w = true →
  let w' := foldl (λ w f, cast_factory f.1 f.2 w) w fs in
  nat_running w' = true ∧ nat_state w' = nat_state w
  ∧ (nat_mailbox w').*2 = (nat_mailbox w).*2 ++ (registration <$> fs).
Proof.
  revert w. induction fs as [|f fs IH]; intros w Hr; simpl; [by rewrite app_nil_r|].
  destruct (IH (cast_factory f.1 f.2 w)) as (? & Hs & Hm); [by unfold cast_factory, native_cast; rewrite Hr|].
  split; [done|]. rewrite Hs, Hm. unfold cast_factory, native_cast. rewrite Hr. simpl.
  by rewrite fmap_app, <-app_assoc.
Qed.

Abbreviation worker_turn := (λ p : SpawnWorker * N, native_turn SpawnManagerActor_handle p.1 p.2).

(** A mailbox of registrations with a request at its end. *)
Lemma worker_answers fs (w : SpawnWorker) next l t q extra :
  nat_mailbox w = l ++ [(t, HandleRequest q)] → l.*2 = registration <$> fs →
  let w' := (Nat.iter (extra + (length fs + 1)) worker_turn (w, next)).1 in
  ∃ m, factories (sm_registry m) = insert_all fs (factories (sm_registry (sms_manager (nat_state w))))
    ∧ nat_answers w' !! t = Some (SpawnReply (spawn_request (sms_node_id (nat_state w)) q m next).1.1).
Proof.
  rewrite Nat.iter_add. revert w l. induction fs as [|f fs IH]; intros w l Hm Hl.
  - destruct l; [|done]. simpl. simpl in Hm. unfold native_turn at 2. simpl. rewrite Hm. simpl.
    destruct (spawn_request _ q _ next) as [[res m] next'] eqn:Hres. simpl.
    set (p := (_, next')). exists (sms_manager (nat_state w)). split; [done|]. rewrite Hres. simpl.
    assert (Nat.iter extra worker_turn p = p) as ->.
    { induction extra as [|n IH]; [done|]. simpl. by rewrite IH. }
    by apply lookup_insert_eq.
  - destruct l as [|[t1 msg] l]; [done|]. simpl in Hl, Hm. injection Hl as -> Hl.
    change (length (f :: fs) + 1) with (Datatypes.S (length fs + 1)). rewrite Nat.iter_succ_r.
    cbn [fst snd].
    set (sm := sms_manager (nat_state w)).
    assert (native_turn SpawnManagerActor_handle w next =
      (mkNative (mkSpawnManagerState
                   (mkSpawnManager (register_factory f.1 f.2 (sm_registry sm)) (SystemActors.spawned sm))
                   (sms_node_id (nat_state w)))
         (l ++ [(t, HandleRequest q)]) (nat_running w) (nat_tickets w)
         (<[t1 := FactoryRegistered]> (nat_answers w)), next)) as -> by (unfold native_turn; by rewrite Hm).
    match goal with |- context [Nat.iter (length fs + 1) _ (?w1, next)] =>
      destruct (IH w1 l eq_refl Hl) as (m & Hm' & Ha) end.
    exists m. split; [exact Hm'|exact Ha].
Qed.

Lemma turns_worker i n r actors w :
  system_actors r = Some actors → handle_workers (spawn_managers actors) !! i = Some w →
  let r' := Nat.iter n (turn (SpawnWorkerActor i)) r in
  let p := Nat.iter n worker_turn (w, next_local r) in
  ∃ actors', system_actors r' = Some actors' ∧ handle_workers (spawn_managers actors') !! i = Some p.1
    ∧ next_local r' = p.2.
Proof.
  intros Ha Hi. induction n as [|n IH]; [by exists actors|].
  rewrite !Nat.iter_succ. destruct IH as (a & Ha' & Hi' & Hn).
  set (r1 := Nat.iter n _ r) in *. set (p := Nat.iter n worker_turn _) in *.
  cbv zeta. unfold turn. rewrite Ha'. cbn [native_turn_of]. rewrite Hi', Hn.
  destruct (native_turn SpawnManagerActor_handle p.1 p.2) as [w' nx]. eexists. split; [done|].
  simpl. split; [|done]. rewrite update_workers_insert. apply list_lookup_insert_eq.
  by eapply lookup_lt_Some.
Qed.

Lemma route_spawn_fresh r actors (w : SpawnWorker) request :
  fresh_handle w (spawn_managers actors) → nat_running w = true →
  ∃ h, route_spawn k lib_error actors r request
       = (RouteAwaitSpawn (sr_request_id request) 0 (nat_tickets w),
          set_system_actors (Some (set_spawn_managers h actors)) r)
    ∧ handle_workers h !! 0
      = Some (mkNative (nat_state w) (nat_mailbox w ++ [(nat_tickets w, HandleRequest request)]) true
                (nat_tickets w + 1) (nat_answers w)).
Proof.
  intros Hf Hr. destruct (fresh_next _ _ Hf) as [Hz Hlook]. unfold route_spawn, handle_cast.
  pose proof (next_worker_workers (spawn_managers actors)) as Hw.
  destruct (next_worker _) as [i h]. simpl in Hz, Hw. subst i. rewrite Hw, Hlook.
  unfold native_cast. rewrite Hr. eexists. split; [done|].
  rewrite update_workers_insert. apply list_lookup_insert_eq. rewrite Hw. by eapply lookup_lt_Some.
Qed.

(** C36. Which factories a routed spawn request sees: those registered after the
    system actors were started, and none at all in kameo, which does not forward
    registrations; a factory registered before the start is missing in all
    three. The request is answered after the registrations that are ahead of it,
    with the id that was next, or with the text of the factory's error. *)
Theorem routed_spawn config r0 before after request envelope :
  SpawnRequest_wf request → carries envelope SYSTEM_MSG_TYPE_SPAWN (encode_spawn_request request) →
  let r := register_all after (start_system_actors_with_config k config (register_all before r0)) in
  let '(p, r1) := route_system_envelope k lib_error envelope r in
  let r2 := Nat.iter (length after + 1) (turn (SpawnWorkerActor 0)) r1 in
  let known := if forwards_factories k then insert_all after ∅ else ∅ in
  route_poll k lib_error p r2
  = Ready (Ok (spawn_outcome known request (mkActorId (rt_node_id r0) (next_local r0)))).
Proof.
  intros Hq (Ht & Hb & Hs) r.
  set (rb := register_all before r0) in *.
  assert (rt_node_id rb = rt_node_id r0 ∧ next_local rb = next_local r0) as [Hnode Hnext].
  { unfold rb. clear. revert r0. induction before as [|f fs IH]; intros r0; [done|].
    destruct (IH (runtime_register_factory k f.1 f.2 r0)) as [H1' H2'].
    unfold register_all in *. simpl. rewrite H1', H2'. unfold runtime_register_factory. simpl.
    destruct (system_actors r0), (forwards_factories k); done. }
  destruct (start_fresh config rb) as (actors0 & Ha0 & Hf0).
  destruct (register_all_effect after _ _ _ Ha0 Hf0) as [Hn (actors & Ha & Hf)].
  fold r in Hn, Ha. simpl in Hn. rewrite Hnext in Hn. rewrite Hnode in Hf.
  set (w0 := native_new _) in Hf. set (regs := if forwards_factories k then after else []).
  assert (∃ w : SpawnWorker, nat_running w = true ∧ nat_state w = nat_state w0
    ∧ (nat_mailbox w).*2 = registration <$> regs ∧ fresh_handle w (spawn_managers actors))
    as (w & Hr & Hst & Hm & Hfw).
  { unfold regs. destruct (forwards_factories k); [|by exists w0].
    destruct (cast_registrations after w0 eq_refl) as (? & ? & ?). by eexists. }
  unfold route_system_envelope. rewrite Ht, Hb, Ha.
  change (validate_system_message_type SYSTEM_MSG_TYPE_SPAWN) with (@Ok RoutingError () ()). cbv iota.
  rewrite decide_True by done. unfold decoded. rewrite (proj1 spawn_request_codec request Hq Hs).
  destruct (route_spawn_fresh r actors w request Hfw Hr) as (h & -> & Hl1).
  set (r1 := set_system_actors _ r). set (w1 := mkNative _ _ _ _ _) in Hl1.
  destruct (turns_worker 0 (length after + 1) r1 (set_spawn_managers h actors) w1 eq_refl Hl1)
    as (actors2 & Ha2 & Hl2 & _).
  cbv zeta iota. unfold route_poll. rewrite Ha2, Hl2.
  assert (∃ extra, length after + 1 = extra + (length regs + 1)) as [extra ->].
  { unfold regs. destruct (forwards_factories k); [by exists 0|exists (length after); simpl; lia]. }
  destruct (worker_answers regs w1 (next_local r1) (nat_mailbox w) (nat_tickets w) request extra eq_refl Hm)
    as (m & Hfs & Hans).
  cbn [fmap option_fmap option_map]. unfold native_reply. rewrite Hans. change (next_local r1) with (next_local r). rewrite Hn.
  change (nat_state w1) with (nat_state w) in *. rewrite Hst in *.
  unfold spawn_request, SpawnManager_create_actor, create_actor, spawn_outcome. rewrite Hfs.
  replace (if forwards_factories k then insert_all after ∅ else ∅) with (insert_all regs ∅)
    by (unfold regs; by destruct (forwards_factories k)).
  change (factories (sm_registry (sms_manager (nat_state w0)))) with (∅ : gmap string Factory).
  destruct (insert_all regs ∅ !! sr_type_name request) as [f|]; simpl; [|done].
  by destruct (f (sr_args_bytes request)).
Qed.

(** *** Handles *)
Definition stop_error r : nat → string → Prop := stop_failure (stop_channels r).

(** Waiting for actors. A spawn that succeeds stores the handle of the new
    actor, one that fails stores none. [await_all] takes every stored handle,
    waits until each of those actors has stopped, whatever happens meanwhile,
    and gives [Ok] exactly when all stopped cleanly, else the error of one that
    did not. [cleanup_finished] keeps the handles of the actors that still run,
    and a later [await_stop] for one it removed reports success. *)
Theorem stop_handles r :
  (∀ inner name mailbox,
     match spawn_internal inner name mailbox r with
     | (Some (Ok ref), r') => stop_receivers r' = <[sp_id ref := sp_stop ref]> (stop_receivers r)
         ∧ stop_pending r' (sp_stop ref) = true
     | (_, r') => stop_receivers r' = stop_receivers r
     end) ∧
  (let '(rx, r1) := await_all r in
   active_handle_count r1 = 0 ∧
   ∀ os, let r2 := (shared_run k lib_error os r1).2 in
     match await_all_poll rx None r2 with
     | None => ∃ id stop, stop_receivers r !! id = Some stop ∧ stop_pending r2 stop = true
     | Some (Ok _) => ∀ id stop, stop_receivers r !! id = Some stop →
         stop_channels r2 !! stop = Some (Sent (Ok ()))
     | Some (Err e) => (∀ id stop, stop_receivers r !! id = Some stop → settled r2 stop)
         ∧ ∃ id stop, stop_receivers r !! id = Some stop ∧ stop_error r2 stop e
     end) ∧
  (∀ id stop, stop_receivers (cleanup_finished r) !! id = Some stop ↔
     stop_receivers r !! id = Some stop ∧ stop_pending r stop = true) ∧
  (∀ id stop, stop_receivers r !! id = Some stop → settled r stop →
     ∀ os, let '(rx, r1) := await_stop id (cleanup_finished r) in
       await_stop_poll rx (shared_run k lib_error os r1).2 = Some (Ok ())).
Proof.
  assert (∀ stop, stop ∈ (map_to_list (stop_receivers r)).*2 ↔
            ∃ id, stop_receivers r !! id = Some stop) as Hrx.
  { intros stop. rewrite list_elem_of_fmap. split.
    - intros ([id s] & -> & Hin). exists id. by apply elem_of_map_to_list.
    - intros [id Hid]. exists (id, stop). split; [done|by apply elem_of_map_to_list]. }
  assert (∀ id stop, stop_receivers (cleanup_finished r) !! id = Some stop ↔
     stop_receivers r !! id = Some stop ∧ stop_pending r stop = true) as Hclean.
  { intros id stop. apply keep_pending_lookup. }
  split_and!; [| |exact Hclean|].
  - intros inner name mailbox. unfold spawn_internal, runtime_assign_id. simpl.
    destruct inner; [destruct (bounded_channel mailbox)|]; simpl; try done. split; [done|].
    unfold stop_pending, is_pending. simpl. by rewrite list_lookup_middle.
  - simpl. split; [done|]. intros os. set (r2 := (shared_run _ _ _ _).2).
    pose proof (poll_all_cases (map_to_list (stop_receivers r)).*2 None (stop_channels r2)) as Hc.
    unfold await_all_poll. destruct (poll_all _ None (stop_channels r2)) as [[u|e]|].
    + intros id stop Hid. apply (proj2 Hc), Hrx. by exists id.
    + destruct Hc as [Hall [|(stop & [id Hid]%Hrx & He)]]; [done|].
      split; [intros id' s Hs; apply Hall, Hrx; by exists id'|by exists id, stop].
    + destruct Hc as (stop & [id Hid]%Hrx & Hp). by exists id, stop.
  - intros id stop Hid Hset os. unfold await_stop.
    destruct (stop_receivers (cleanup_finished r) !! id) as [s|] eqn:Hs; [|done].
    apply Hclean in Hs as [Hs Hp]. simplify_eq. unfold settled in Hset. congruence.
Qed.

(** *** Peers
    A subscriber that writes down the events. *)
Definition recorder (cb : Cb) (event : ClusterEvent)
    (s : ClusterEventEmitter Cb * list ClusterEvent) :
    bool * (ClusterEventEmitter Cb * list ClusterEvent) :=
  (true, (s.1, s.2 ++ [event])).
End spec.

Section peer_spec.
Context {U Cb Rf I : Type}.
Abbreviation Runtime := (AdapterRuntime U Cb Rf I (list ClusterEvent)).
Implicit Types r : Runtime.
Context `{ProstMessage SpawnRequestProto} `{ProstMessage WatchRequestProto}
  `{ProstMessage UnwatchRequestProto} `{ProstMessage CancelRequestProto}
  `{ProstMessage ConnectPeerProto} `{ProstMessage DisconnectPeerProto}.
Context (k : AdapterKind) (lib_error : string).

(** What a step tells the subscriber about a peer matches the directory. *)
Definition told_right (r r' : Runtime) (es : list ClusterEvent) : Prop :=
  callbacks (cluster_events r') = callbacks (cluster_events r) ∧
  ∀ p, alternates (is_peer_connected p r) (peer_events_of p es)
    ∧ is_peer_connected p r' = default (is_peer_connected p r) (last (peer_events_of p es)).

Lemma told_right_same r r' :
  cluster_events r' = cluster_events r → node_directory r' = node_directory r → told_right r r' [].
Proof. intros He Hd. split; [by rewrite He|]. intros p. unfold is_peer_connected. by rewrite Hd. Qed.
Lemma told_right_trans r1 r2 r3 es es' :
  told_right r1 r2 es → told_right r2 r3 es' → told_right r1 r3 (es ++ es').
Proof.
  intros [Hc1 H1'] [Hc2 H2']. split; [congruence|]. intros p. unfold peer_events_of.
  destruct (H1' p) as [Ha1 He1], (H2' p) as [Ha2 He2]. rewrite omap_app, alternates_app.
  fold (peer_events_of p es) (peer_events_of p es'). rewrite He1 in Ha2, He2. split; [done|].
  rewrite He2, last_app. by destruct (last (peer_events_of p es')).
Qed.
Lemma recorder_emit event r cb log :
  callbacks (cluster_events r) = [cb] →
  runtime_emit recorder event r log = (set_cluster_events (cluster_events r) r, log ++ [event]).
Proof. intros Hc. unfold runtime_emit, Adapter_emit. simpl. by rewrite Hc. Qed.

Lemma connect_told p addr r cb log :
  callbacks (cluster_events r) = [cb] →
  let '(r', log') := connect_peer recorder p addr r log in
  ∃ es, log' = log ++ es ∧ told_right r r' es.
Proof.
  intros Hcb. unfold connect_peer. destruct (is_connected p (node_directory r)) eqn:Hc.
  - exists []. rewrite app_nil_r. split; [done|]. split; [done|]. intros n.
    unfold is_peer_connected. simpl. rewrite connected_after. split; [done|].
    case_bool_decide; [by subst; rewrite Hc|done].
  - rewrite (recorder_emit _ _ cb) by done. eexists. split; [done|]. split; [done|]. intros n.
    unfold is_peer_connected, peer_events_of. simpl. rewrite connected_after.
    destruct (decide (p = n)) as [->|Hne]; simpl.
    + rewrite Hc. by rewrite bool_decide_eq_true_2.
    + by rewrite bool_decide_eq_false_2.
Qed.
Lemma disconnect_told p r cb log :
  callbacks (cluster_events r) = [cb] →
  let '(r', log') := disconnect_peer recorder p r log in
  ∃ es, log' = log ++ es ∧ told_right r r' es.
Proof.
  intros Hcb. unfold disconnect_peer. destruct (is_connected p (node_directory r)) eqn:Hc.
  - rewrite (recorder_emit _ _ cb) by done. eexists. split; [done|]. split; [done|]. intros n.
    unfold is_peer_connected, peer_events_of. simpl. rewrite disconnected_after.
    destruct (decide (p = n)) as [->|Hne]; simpl.
    + rewrite Hc. by rewrite bool_decide_eq_true_2.
    + by rewrite bool_decide_eq_false_2.
  - exists []. rewrite app_nil_r. split; [done|]. split; [done|]. intros n.
    unfold is_peer_connected. simpl. rewrite disconnected_after. split; [done|].
    case_bool_decide; [by subst; rewrite Hc|done].
Qed.

Lemma shared_step_peers o r :
  let r' := (shared_step k lib_error o r).2 in
  cluster_events r' = cluster_events r ∧ node_directory r' = node_directory r.
Proof.
  destruct o as [inner name mailbox|w n t|w t|env|n|n|stop o|id| |]; simpl; try done.
  - unfold spawn_internal, runtime_assign_id. simpl.
    by destruct inner; [destruct (bounded_channel mailbox)|].
  - pose proof (route_keeps k lib_error env r) as Hk. simpl in Hk. by destruct Hk as [->|(? & ? & _ & -> & _)].
  - unfold turn. destruct (system_actors r); [|done]. by destruct (native_turn_of _ _ _).
Qed.
Lemma any_step_told o r cb log :
  callbacks (cluster_events r) = [cb] →
  let '(_, (r', log')) := any_step k lib_error recorder o r log in
  ∃ es, log' = log ++ es ∧ told_right r r' es.
Proof.
  intros Hcb. destruct o as [o|o]; simpl.
  { pose proof (shared_step_peers o r) as [He Hd]. destruct (shared_step _ _ _ _) as [ids r'].
    exists []. rewrite app_nil_r. split; [done|by apply told_right_same]. }
  destruct o as [config|t f|q|t w'|t w'|t|id tk|id|id|p a|p]; simpl;
    try (exists []; rewrite app_nil_r; split; [done|by apply told_right_same]).
  - exists []. rewrite app_nil_r. split; [done|]. unfold runtime_register_factory. simpl.
    destruct (system_actors r); [destruct (forwards_factories k)|]; by apply told_right_same.
  - unfold handle_spawn_request, spawn_request.
    destruct (SpawnManager_create_actor _ q); simpl; exists []; rewrite app_nil_r;
      (split; [done|by apply told_right_same]).
  - exists []. rewrite app_nil_r. split; [done|]. unfold cancel_request, cancel.
    destruct (_ !! id); by apply told_right_same.
  - pose proof (connect_told p a r cb log Hcb). by destruct (connect_peer _ _ _ _ _).
  - pose proof (disconnect_told p r cb log Hcb). by destruct (disconnect_peer _ _ _ _).
Qed.
Lemma any_run_told os r cb log :
  callbacks (cluster_events r) = [cb] →
  let '(_, (r', log')) := any_run k lib_error recorder os r log in
  ∃ es, log' = log ++ es ∧ told_right r r' es.
Proof.
  revert r log. induction os as [|o os IH]; intros r log Hcb; cbn [any_run].
  { exists []. rewrite app_nil_r. split; [done|by apply told_right_same]. }
  pose proof (any_step_told o r cb log Hcb) as Hs.
  destruct (any_step _ _ _ o r log) as [ids [r1 log1]]. destruct Hs as (es & -> & Ht).
  specialize (IH r1 (log ++ es)). destruct (any_run _ _ _ _ r1 _) as [ids' [r2 log2]].
  destruct IH as (es' & -> & Ht'); [by rewrite (proj1 Ht)|].
  exists (es ++ es'). split; [by rewrite app_assoc|]. by eapply told_right_trans.
Qed.

(** C23. Cluster events and the directory agree: over any run of a runtime, a
    subscriber hears joins and departures of each peer in turn, beginning with
    the one that changes what the directory said at first, and the directory's
    answer at the end is what the last event about the peer said. *)
Theorem peer_events r os cb :
  callbacks (cluster_events r) = [cb] →
  let '(_, (r', log)) := any_run k lib_error recorder os r [] in
  ∀ p, alternates (is_peer_connected p r) (peer_events_of p log)
    ∧ is_peer_connected p r' = default (is_peer_connected p r) (last (peer_events_of p log)).
Proof.
  intros Hcb. pose proof (any_run_told os r cb [] Hcb) as Hr.
  destruct (any_run _ _ _ _ _ _) as [ids [r' log]]. destruct Hr as (es & -> & _ & Ht). exact Ht.
Qed.
End peer_spec.

Import CountableCodec.
#[local] Instance runtime_codec `{Countable M} : ProstMessage M := CountableCodec.codec_of M.
#[local] Instance runtime_laws `{Countable M} : ProstLaws M := CountableCodec.laws_of M.

Abbreviation DemoRuntime := (AdapterRuntime nat () () () (list ClusterEvent)).
Definition demo_node : NodeId := mkNodeId "n1".
Definition demo_factory : FactoryFn (U := nat) := λ b, Ok (mkAny "Counter" (length b)).
Definition demo_request : SpawnRequest := mkSpawnRequest "Counter" [x01; x02] "c" "req-1".
Definition demo_runtime (k : AdapterKind) : DemoRuntime :=
  start_system_actors k (runtime_create demo_node).
Definition demo_watch : WatchRequest := mkWatchRequest (mkActorId demo_node 4) (mkActorId demo_node 5).
Definition envelope_of (t : string) (b : bytes) : WireEnvelope :=
  mkWireEnvelope (mkActorId demo_node 0) "system" t Tell WireHeaders_new b None None.

Lemma ids_unique_witness :
  let '(ids, (r, _)) :=
    any_run Ractor_kind "closed" recorder
      [inr (OpStart SystemActorConfig_default); inl (OpSpawn (Ok ()) "a" Unbounded);
       inr (OpRegisterFactory "Counter" demo_factory);
       inr (OpSpawnRequest demo_request);
       inl (OpRoute (envelope_of SYSTEM_MSG_TYPE_SPAWN (encode_spawn_request demo_request)));
       inl (OpTurn (SpawnWorkerActor 0)); inl (OpTurn (SpawnWorkerActor 0))]
      (runtime_create demo_node : DemoRuntime) [] in
  ids = mkActorId demo_node <$> [1; 2; 3]%N ∧ NoDup ids.
Proof.
  match goal with |- context [any_run ?k ?e ?c ?os ?r ?w] =>
    pose proof (ids_unique (U := nat) (Cb := ()) (Rf := ()) (I := ()) k e c demo_node os w ltac:(vm_compute; reflexivity)) as Hids end.
  destruct (any_run _ _ _ _ _ _) as [ids [r w]] eqn:Hr. destruct Hids as [Hnd _].
  split; [|exact Hnd]. vm_compute in Hr. by simplify_eq.
Defined.

Lemma routing_delivers_witness :
  ∃ a : Native WatchManager WatchManagerMsg WatchManagerReply,
    (route_system_envelope Kameo_kind "closed"
      (envelope_of SYSTEM_MSG_TYPE_WATCH (encode_watch_request demo_watch)) (demo_runtime Kameo_kind)).1
    = RouteDone (Ok AcknowledgedOutcome)
    ∧ worked_off WatchManagerActor_handle a
      = watch (wr_target demo_watch) (wr_watcher demo_watch) WatchManager_new.
Proof.
  destruct (routing_delivers Kameo_kind "closed" (demo_runtime Kameo_kind) _
    (envelope_of SYSTEM_MSG_TYPE_WATCH (encode_watch_request demo_watch))
    eq_refl eq_refl eq_refl eq_refl) as [Hw _].
  destruct (Hw demo_watch) as (a & Hr & Ha);
    [discriminate|discriminate|split; [done|split; [done|vm_compute; discriminate]]|].
  exists a. split; [by rewrite Hr|exact Ha].
Defined.

Lemma routing_refuses_witness :
  refusal Coerce_kind "closed" (demo_runtime Coerce_kind) "Ping" [] "unknown system message type: Ping"
  ∧ ∃ r', route_system_envelope Coerce_kind "closed" (envelope_of SYSTEM_MSG_TYPE_CANCEL
        (encode_cancel_request (mkCancelRequest (mkActorId demo_node 4) None))) (demo_runtime Coerce_kind)
      = (RouteDone (Err (mkRoutingError "CancelRequest missing request_id")), r').
Proof.
  destruct (routing_refuses Coerce_kind "closed" (demo_runtime Coerce_kind) (envelope_of "Ping" [])) as [Hping _].
  split.
  - refine (proj1 (Hping (mkRoutingError "unknown system message type: Ping") (demo_runtime Coerce_kind) _)).
    vm_compute. reflexivity.
  - destruct (routing_refuses Coerce_kind "closed" (demo_runtime Coerce_kind)
      (envelope_of SYSTEM_MSG_TYPE_CANCEL (encode_cancel_request (mkCancelRequest (mkActorId demo_node 4) None))))
      as [_ Hcancel].
    apply Hcancel. eapply refused_started; [vm_compute; reflexivity|].
    eapply refused_no_id; [reflexivity|vm_compute; reflexivity|reflexivity].
Defined.

Lemma routed_spawn_witness :
  let answer (k : AdapterKind) :=
    let r := register_all k [("Counter", demo_factory)]
               (start_system_actors_with_config k SystemActorConfig_default
                  (register_all k [] (runtime_create demo_node : DemoRuntime))) in
    let '(p, r1) := route_system_envelope k "closed"
                      (envelope_of SYSTEM_MSG_TYPE_SPAWN (encode_spawn_request demo_request)) r in
    route_poll k "closed" p (Nat.iter 2 (turn (SpawnWorkerActor 0)) r1) in
  answer Ractor_kind = Ready (Ok (SpawnCompleted "req-1" (mkActorId demo_node 1))) ∧
  answer Kameo_kind = Ready (Ok (SpawnFailedOutcome "req-1"
    (SerializationError_display (SerializationError_new "no actor factory registered for 'Counter'")))).
Proof.
  split;
    match goal with |- context [register_all ?k] =>
      refine (eq_trans (routed_spawn k "closed" SystemActorConfig_default (runtime_create demo_node) []
        [("Counter", demo_factory)] demo_request
        (envelope_of SYSTEM_MSG_TYPE_SPAWN (encode_spawn_request demo_request)) _ _) _) end;
    first [split; discriminate|split; [done|split; [done|vm_compute; discriminate]]|vm_compute; reflexivity].
Defined.

(** An actor that panicked in [on_stop], and one that still runs. *)
Definition demo_stopped : DemoRuntime :=
  settle_stop 0 (Sent (Err "actor panicked in on_stop"))
    (shared_run Ractor_kind "closed" [OpSpawn (Ok ()) "a" Unbounded; OpSpawn (Ok ()) "b" Unbounded]
       (runtime_create demo_node)).2.
Lemma stop_handles_witness :
  let cleaned := cleanup_finished demo_stopped in
  stop_receivers cleaned !! mkActorId demo_node 2 = Some 1 ∧
  (let '(rx, r1) := await_stop (mkActorId demo_node 1) demo_stopped in
   await_stop_poll rx r1 = Some (Err "actor panicked in on_stop")) ∧
  (let '(rx, r1) := await_stop (mkActorId demo_node 1) cleaned in
   await_stop_poll rx (shared_run Ractor_kind "closed" [] r1).2 = Some (Ok ())).
Proof.
  destruct (stop_handles Ractor_kind "closed" demo_stopped) as (_ & _ & Hkeep & Hgone).
  split; [apply Hkeep; split; vm_compute; reflexivity|]. split; [vm_compute; reflexivity|].
  apply (Hgone (mkActorId demo_node 1) 0); vm_compute; reflexivity.
Defined.

Definition demo_subscribed : DemoRuntime :=
  set_cluster_events (mkEmitter 2 {[1%N := ()]}) (runtime_create demo_node).
Lemma peer_events_witness :
  let '(_, (r, log)) :=
    any_run Ractor_kind "closed" recorder
      [inr (OpConnectPeer (mkNodeId "n2") None); inr (OpConnectPeer (mkNodeId "n2") (Some "a:1"));
       inr (OpDisconnectPeer (mkNodeId "n2"))] demo_subscribed [] in
  is_peer_connected (mkNodeId "n2") r = false
  ∧ alternates false (peer_events_of (mkNodeId "n2") log) ∧ peer_events_of (mkNodeId "n2") log = [true; false].
Proof.
  match goal with |- context [any_run ?k ?e _ ?os ?r []] =>
    pose proof (peer_events k e r os () ltac:(vm_compute; reflexivity)) as Hp end.
  destruct (any_run _ _ _ _ _ _) as [ids [r log]] eqn:Hr. destruct (Hp (mkNodeId "n2")) as [Ha Hc].
  assert (peer_events_of (mkNodeId "n2") log = [true; false]) as Hl.
  { vm_compute in Hr. by simplify_eq. }
  split; [by rewrite Hc, Hl|]. split; [exact Ha|exact Hl].
Defined.
End Spec.
