(* ===== verification/Persistence.v ===== *)
(** * Persistence (dactor/src/persistence.rs)

    Event-sourced and durable-state actors over pluggable storage. The storage
    traits are classes over a storage state [S]; [InMemoryStorage] is their
    instance in the crate. The actor traits are classes over the actor's type.
    An operation that can panic (the sequence number is an [i64] and [next] is
    a plain [+ 1]) returns an [option]. Delays slept by a retrying recovery are
    returned in order. *)
From S2P Require Import Prelude Node Message.

#[local] Open Scope string_scope.
#[local] Open Scope list_scope.
#[local] Open Scope Z_scope.

(** ** Data *)
Record PersistenceId := mkPersistenceId { pid_str : string }.

#[export] Instance PersistenceId_eq_dec : EqDecision PersistenceId.
Proof. solve_decision. Defined.

Definition PersistenceId_new (entity_type entity_id : string) : PersistenceId :=
  mkPersistenceId (entity_type +:+ ":" +:+ entity_id).
Definition PersistenceId_display (p : PersistenceId) : string := pid_str p.

(** [i64] numbers, and [+ 1] on them. *)
Abbreviation SequenceId := Z.
Definition seq_next (p : profile) (s : SequenceId) : option SequenceId :=
  if s + 1 <=? i64_max then Some (s + 1)
  else match p with Debug => None | Release => Some (s + 1 - 2 ^ 64) end.

Record JournalEntry := mkJournalEntry {
  je_sequence_id : SequenceId; je_event_type : string; je_payload : bytes
}.
Record SnapshotEntry := mkSnapshotEntry { se_sequence_id : SequenceId; se_payload : bytes }.

Inductive PersistError :=
  | StorageUnavailable (msg : string)
  | SerializationFailed (msg : string)
  | CorruptEntry (sequence_id : SequenceId) (detail : string)
  | NotConfigured.
Definition PersistError_display (e : PersistError) : string :=
  match e with
  | StorageUnavailable m => "storage unavailable: " +:+ m
  | SerializationFailed m => "serialization failed: " +:+ m
  | CorruptEntry s d => "corrupt entry at SequenceId(" +:+ pretty s +:+ "): " +:+ d
  | NotConfigured => "no storage provider configured"
  end.

Inductive RecoveryFailurePolicy :=
  | RecoveryStop
  | RecoveryRetry (max_attempts : option N) (initial_delay : N)
  | SkipAndStart.
Inductive PersistFailurePolicy :=
  | PersistStop
  | ReturnError
  | PersistRetry (max_attempts : option N) (initial_delay : N).
Record SnapshotConfig := mkSnapshotConfig {
  every_n_events : option N; snap_interval : option N; retention_count : option N;
  delete_events_on_snapshot : bool
}.
Record SaveConfig := mkSaveConfig { every_n_messages : option N; save_interval : option N }.

(** ** Storage traits *)
Class JournalStorage (S : Type) := {
  write_event : PersistenceId → SequenceId → string → bytes → S → result PersistError () * S;
  write_event_batch : PersistenceId → list (SequenceId * string * bytes) → S →
    result PersistError () * S;
  read_events : PersistenceId → SequenceId → S → result PersistError (list JournalEntry) * S;
  read_highest_sequence : PersistenceId → S → result PersistError (option SequenceId) * S;
  delete_events_to : PersistenceId → SequenceId → S → result PersistError () * S
}.
Class SnapshotStorage (S : Type) := {
  save_snapshot : PersistenceId → SequenceId → bytes → S → result PersistError () * S;
  load_latest_snapshot : PersistenceId → S → result PersistError (option SnapshotEntry) * S;
  delete_snapshots_before : PersistenceId → SequenceId → S → result PersistError () * S
}.
Class StateStorage (S : Type) := {
  save_state : PersistenceId → bytes → S → result PersistError () * S;
  load_state : PersistenceId → S → result PersistError (option bytes) * S;
  delete_state : PersistenceId → S → result PersistError () * S
}.

(** ** InMemoryStorage *)
Record InMemoryStorage := mkInMemoryStorage {
  journals : gmap string (list JournalEntry);
  snapshots : gmap string (list SnapshotEntry);
  states : gmap string bytes
}.
Definition InMemoryStorage_new : InMemoryStorage := mkInMemoryStorage ∅ ∅ ∅.
Definition with_journals (f : gmap string (list JournalEntry) → gmap string (list JournalEntry))
    (s : InMemoryStorage) : InMemoryStorage :=
  mkInMemoryStorage (f (journals s)) (snapshots s) (states s).
Definition with_snapshots (f : gmap string (list SnapshotEntry) → gmap string (list SnapshotEntry))
    (s : InMemoryStorage) : InMemoryStorage :=
  mkInMemoryStorage (journals s) (f (snapshots s)) (states s).
Definition with_states (f : gmap string bytes → gmap string bytes) (s : InMemoryStorage) :
    InMemoryStorage :=
  mkInMemoryStorage (journals s) (snapshots s) (f (states s)).

(** [map.entry(k).or_default()] pushed to. *)
Definition push_default {A} (k : string) (l : list A) (m : gmap string (list A)) :
    gmap string (list A) :=
  <[k := default [] (m !! k) ++ l]> m.
(** [if let Some(entries) = map.get_mut(k) { entries.retain(p) }]. *)
Definition retain_at {A} (k : string) (p : A → bool) (m : gmap string (list A)) :
    gmap string (list A) :=
  match m !! k with Some l => <[k := retain p l]> m | None => m end.

Definition batch_entry (e : SequenceId * string * bytes) : JournalEntry :=
  mkJournalEntry e.1.1 e.1.2 e.2.

Definition mem_write_event (pid : PersistenceId) (seq : SequenceId) (t : string) (b : bytes)
    (s : InMemoryStorage) : result PersistError () * InMemoryStorage :=
  (Ok (), with_journals (push_default (pid_str pid) [mkJournalEntry seq t b]) s).
Definition mem_write_event_batch (pid : PersistenceId) (l : list (SequenceId * string * bytes))
    (s : InMemoryStorage) : result PersistError () * InMemoryStorage :=
  (Ok (), with_journals (push_default (pid_str pid) (batch_entry <$> l)) s).
Definition mem_read_events (pid : PersistenceId) (from : SequenceId) (s : InMemoryStorage) :
    result PersistError (list JournalEntry) * InMemoryStorage :=
  (Ok (default [] (retain (λ e, from <=? je_sequence_id e) <$> journals s !! pid_str pid)), s).
Definition mem_read_highest_sequence (pid : PersistenceId) (s : InMemoryStorage) :
    result PersistError (option SequenceId) * InMemoryStorage :=
  (Ok (l ← journals s !! pid_str pid; je_sequence_id <$> last l), s).
Definition mem_delete_events_to (pid : PersistenceId) (to : SequenceId) (s : InMemoryStorage) :
    result PersistError () * InMemoryStorage :=
  (Ok (), with_journals (retain_at (pid_str pid) (λ e, to <? je_sequence_id e)) s).
Definition mem_save_snapshot (pid : PersistenceId) (seq : SequenceId) (b : bytes)
    (s : InMemoryStorage) : result PersistError () * InMemoryStorage :=
  (Ok (), with_snapshots (push_default (pid_str pid) [mkSnapshotEntry seq b]) s).
Definition mem_load_latest_snapshot (pid : PersistenceId) (s : InMemoryStorage) :
    result PersistError (option SnapshotEntry) * InMemoryStorage :=
  (Ok (l ← snapshots s !! pid_str pid; last l), s).
Definition mem_delete_snapshots_before (pid : PersistenceId) (seq : SequenceId)
    (s : InMemoryStorage) : result PersistError () * InMemoryStorage :=
  (Ok (), with_snapshots (retain_at (pid_str pid) (λ e, seq <=? se_sequence_id e)) s).
Definition mem_save_state (pid : PersistenceId) (b : bytes) (s : InMemoryStorage) :
    result PersistError () * InMemoryStorage :=
  (Ok (), with_states <[pid_str pid := b]> s).
Definition mem_load_state (pid : PersistenceId) (s : InMemoryStorage) :
    result PersistError (option bytes) * InMemoryStorage :=
  (Ok (states s !! pid_str pid), s).
Definition mem_delete_state (pid : PersistenceId) (s : InMemoryStorage) :
    result PersistError () * InMemoryStorage :=
  (Ok (), with_states (delete (pid_str pid)) s).

#[export] Instance mem_journal : JournalStorage InMemoryStorage :=
  Build_JournalStorage _ mem_write_event mem_write_event_batch mem_read_events
    mem_read_highest_sequence mem_delete_events_to.
#[export] Instance mem_snapshot : SnapshotStorage InMemoryStorage :=
  Build_SnapshotStorage _ mem_save_snapshot mem_load_latest_snapshot mem_delete_snapshots_before.
#[export] Instance mem_state : StateStorage InMemoryStorage :=
  Build_StateStorage _ mem_save_state mem_load_state mem_delete_state.

(** ** Actor traits *)
Class PersistentActor (A : Type) := {
  persistence_id : A → PersistenceId;
  pre_recovery : A → A;
  post_recovery : A → A;
  recovery_failure_policy : A → RecoveryFailurePolicy;
  persist_failure_policy : A → PersistFailurePolicy
}.
(** A failing [restore_snapshot] may have changed the actor. *)
Class EventSourced (A Ev : Type) `{PersistentActor A} := {
  event_type : string;
  apply : A → Ev → A;
  deserialize_event : A → bytes → result PersistError Ev;
  serialize_event : A → Ev → result PersistError bytes;
  restore_snapshot : A → bytes → result PersistError () * A;
  snapshot_payload : A → result PersistError bytes;
  snapshot_config : A → option SnapshotConfig;
  last_sequence_id : A → SequenceId;
  set_last_sequence_id : A → SequenceId → A
}.
Class DurableState (A : Type) `{PersistentActor A} := {
  serialize_state : A → result PersistError bytes;
  restore_state : A → bytes → result PersistError () * A;
  save_config : A → option SaveConfig
}.
(** The provided methods of the traits. *)
Definition default_recovery_failure_policy : RecoveryFailurePolicy := RecoveryStop.
Definition default_persist_failure_policy : PersistFailurePolicy := PersistStop.

(** ** Retrying with a doubling delay, shared by both recoveries
    [A'] is the state threaded: actor and storage. The first error is the one
    reported. *)
Definition backoff (delay : N) : N :=
  from_millis (N.min (saturating_mul64 (wrap64 (delay / 1000000)) 2) 30000).
Section retry.
Context {W : Type} (attempt : W → option (result PersistError () * W)).

Fixpoint retry_loop (k : nat) (e : PersistError) (delay : N) (w : W) :
    option (result PersistError () * W * list N) :=
  match k with
  | O => Some (Err e, w, [])
  | S k =>
      '(r, w) ← attempt w;
      match r with
      | Ok _ => Some (Ok (), w, [delay])
      | Err _ =>
          '(r, w, slept) ← retry_loop k e (backoff delay) w;
          Some (r, w, delay :: slept)
      end
  end.
Definition recover_with (policy : RecoveryFailurePolicy) (skip : W → W) (w : W) :
    option (result PersistError () * W * list N) :=
  '(r, w) ← attempt w;
  match r with
  | Ok _ => Some (Ok (), w, [])
  | Err e =>
      match policy with
      | RecoveryStop => Some (Err e, w, [])
      | RecoveryRetry max_attempts initial_delay =>
          let attempts := default 3%N max_attempts in
          retry_loop (N.to_nat attempts - 1) e initial_delay w
      | SkipAndStart => Some (Ok (), skip w, [])
      end
  end.
End retry.

(** ** Event sourcing *)
Section event_sourced.
Context {A Ev S : Type} `{EventSourced A Ev} `{JournalStorage S} `{SnapshotStorage S}.
Context (p : profile).

Definition persist (event : Ev) (a : A) (s : S) :
    option (result PersistError SequenceId * A * S) :=
  next_seq ← seq_next p (last_sequence_id a);
  match serialize_event a event with
  | Err e => Some (Err e, a, s)
  | Ok payload =>
      match write_event (persistence_id a) next_seq event_type payload s with
      | (Err e, s) => Some (Err e, a, s)
      | (Ok _, s) =>
          let a := apply a event in
          Some (Ok next_seq, set_last_sequence_id a next_seq, s)
      end
  end.

(** The numbering loop of [persist_batch]. *)
Fixpoint number_batch (a : A) (seq : SequenceId) (events : list Ev) :
    option (result PersistError (SequenceId * list (SequenceId * string * bytes))) :=
  match events with
  | [] => Some (Ok (seq, []))
  | event :: events =>
      seq ← seq_next p seq;
      match serialize_event a event with
      | Err e => Some (Err e)
      | Ok payload =>
          r ← number_batch a seq events;
          Some (match r with
                | Ok (last, batch) => Ok (last, (seq, event_type, payload) :: batch)
                | Err e => Err e
                end)
      end
  end.
Definition persist_batch (events : list Ev) (a : A) (s : S) :
    option (result PersistError SequenceId * A * S) :=
  match events with
  | [] => Some (Ok (last_sequence_id a), a, s)
  | _ =>
      let pid := persistence_id a in
      r ← number_batch a (last_sequence_id a) events;
      match r with
      | Err e => Some (Err e, a, s)
      | Ok (seq, batch) =>
          match write_event_batch pid batch s with
          | (Err e, s) => Some (Err e, a, s)
          | (Ok _, s) =>
              let a := foldl apply a events in
              Some (Ok seq, set_last_sequence_id a seq, s)
          end
      end
  end.

Definition snapshot (a : A) (s : S) : result PersistError () * S :=
  match snapshot_payload a with
  | Err e => (Err e, s)
  | Ok payload => save_snapshot (persistence_id a) (last_sequence_id a) payload s
  end.

(** [entries.iter().map(deserialize).collect::<Result<Vec<_>, _>>()]. *)
Fixpoint deserialize_all (a : A) (entries : list JournalEntry) :
    result PersistError (list (SequenceId * Ev)) :=
  match entries with
  | [] => Ok []
  | entry :: entries =>
      event ← deserialize_event a (je_payload entry);
      rest ← deserialize_all a entries;
      Ok ((je_sequence_id entry, event) :: rest)
  end.
Definition apply_entry (a : A) (e : SequenceId * Ev) : A :=
  set_last_sequence_id (apply a e.2) e.1.
(** [actor.restore_snapshot(payload)?; actor.set_last_sequence_id(seq)], if
    there is a snapshot. *)
Definition load_snapshot (snap : option SnapshotEntry) (a : A) : result PersistError () * A :=
  match snap with
  | None => (Ok (), a)
  | Some snap =>
      match restore_snapshot a (se_payload snap) with
      | (Err e, a) => (Err e, a)
      | (Ok _, a) => (Ok (), set_last_sequence_id a (se_sequence_id snap))
      end
  end.
Definition recover_event_sourced_inner (w : A * S) : option (result PersistError () * (A * S)) :=
  let '(a, s) := w in
  let a := pre_recovery a in
  let pid := persistence_id a in
  match load_latest_snapshot pid s with
  | (Err e, s) => Some (Err e, (a, s))
  | (Ok snap, s) =>
      match load_snapshot snap a with
      | (Err e, a) => Some (Err e, (a, s))
      | (Ok _, a) =>
          start ← seq_next p (last_sequence_id a);
          match read_events pid start s with
          | (Err e, s) => Some (Err e, (a, s))
          | (Ok entries, s) =>
              match deserialize_all a entries with
              | Err e => Some (Err e, (a, s))
              | Ok deserialized =>
                  let a := foldl apply_entry a deserialized in
                  Some (Ok (), (post_recovery a, s))
              end
          end
      end
  end.
Definition recover_event_sourced (a : A) (s : S) :
    option (result PersistError () * (A * S) * list N) :=
  recover_with recover_event_sourced_inner (recovery_failure_policy a)
    (λ w, (post_recovery w.1, w.2)) (a, s).
End event_sourced.

(** ** Durable state *)
Section durable_state.
Context {A S : Type} `{DurableState A} `{StateStorage S}.

Definition durable_save_state (a : A) (s : S) : result PersistError () * S :=
  match serialize_state a with
  | Err e => (Err e, s)
  | Ok payload => save_state (persistence_id a) payload s
  end.
Definition recover_durable_state_inner (w : A * S) : option (result PersistError () * (A * S)) :=
  let '(a, s) := w in
  let a := pre_recovery a in
  let pid := persistence_id a in
  Some (match load_state pid s with
        | (Err e, s) => (Err e, (a, s))
        | (Ok None, s) => (Ok (), (post_recovery a, s))
        | (Ok (Some payload), s) =>
            match restore_state a payload with
            | (Err e, a) => (Err e, (a, s))
            | (Ok _, a) => (Ok (), (post_recovery a, s))
            end
        end).
Definition recover_durable_state (a : A) (s : S) :
    option (result PersistError () * (A * S) * list N) :=
  recover_with recover_durable_state_inner (recovery_failure_policy a)
    (λ w, (post_recovery w.1, w.2)) (a, s).
End durable_state.

(** ** What a storage promises its actors
    [journal_of] and [snapshots_of] are the entries it holds, oldest first. A
    write is stored or refused as a whole, and concerns one id only. *)
Class StorageView (S : Type) := {
  journal_of : S → PersistenceId → list JournalEntry;
  snapshots_of : S → PersistenceId → list SnapshotEntry
}.
Section views.
Context {S : Type} `{StorageView S}.

(** [s'] is [s] with the journal of [pid] changed by [f], its snapshots by [g]. *)
Definition changed (pid : PersistenceId) (f : list JournalEntry → list JournalEntry)
    (g : list SnapshotEntry → list SnapshotEntry) (s s' : S) : Prop :=
  ∀ q, journal_of s' q = (if decide (q = pid) then f (journal_of s q) else journal_of s q) ∧
       snapshots_of s' q = (if decide (q = pid) then g (snapshots_of s q) else snapshots_of s q).
(** The effect of a write that may be refused. *)
Definition written (pid : PersistenceId) (f : list JournalEntry → list JournalEntry)
    (g : list SnapshotEntry → list SnapshotEntry) (s : S)
    (r : result PersistError () * S) : Prop :=
  match r.1 with Ok _ => changed pid f g s r.2 | Err _ => changed pid id id s r.2 end.
End views.

Class StorageLaws (S : Type) `{JournalStorage S, SnapshotStorage S, StorageView S} := {
  write_event_law pid seq t b s :
    written pid (λ l, l ++ [mkJournalEntry seq t b]) id s (write_event pid seq t b s);
  write_event_batch_law pid l s :
    written pid (λ j, j ++ (batch_entry <$> l)) id s (write_event_batch pid l s);
  delete_events_law pid to s :
    written pid (retain (λ e, to <? je_sequence_id e)) id s (delete_events_to pid to s);
  save_snapshot_law pid seq b s :
    written pid id (λ l, l ++ [mkSnapshotEntry seq b]) s (save_snapshot pid seq b s);
  read_events_law pid from s : ∃ s',
    read_events pid from s =
      (Ok (retain (λ e, from <=? je_sequence_id e) (journal_of s pid)), s') ∧
    changed pid id id s s';
  load_snapshot_law pid s : ∃ s',
    load_latest_snapshot pid s = (Ok (last (snapshots_of s pid)), s') ∧ changed pid id id s s'
}.

Lemma changed_refl {S} `{StorageView S} pid s : changed pid id id s s.
Proof. intros q. by case_decide. Qed.

(** *** InMemoryStorage keeps the promise. *)
#[export] Instance mem_view : StorageView InMemoryStorage := {|
  journal_of s pid := default [] (journals s !! pid_str pid);
  snapshots_of s pid := default [] (snapshots s !! pid_str pid)
|}.

Lemma push_default_lookup {A} k k' l (m : gmap string (list A)) :
  default [] (push_default k l m !! k') =
    if decide (k' = k) then default [] (m !! k') ++ l else default [] (m !! k').
Proof.
  unfold push_default. case_decide as Hk; subst.
  - by rewrite lookup_insert_eq.
  - by rewrite lookup_insert_ne.
Qed.
Lemma retain_at_lookup {A} k k' p (m : gmap string (list A)) :
  default [] (retain_at k p m !! k') =
    if decide (k' = k) then retain p (default [] (m !! k')) else default [] (m !! k').
Proof.
  unfold retain_at. case_decide as Hk; subst.
  - destruct (m !! k) eqn:E; simpl; [by rewrite lookup_insert_eq | by rewrite E].
  - destruct (m !! k) eqn:E; [by rewrite lookup_insert_ne | done].
Qed.
Lemma pid_decide {B} (q pid : PersistenceId) (x y : B) :
  (if decide (pid_str q = pid_str pid) then x else y) = (if decide (q = pid) then x else y).
Proof. destruct q, pid. repeat case_decide; simplify_eq/=; done || congruence. Qed.

#[export] Instance mem_laws : StorageLaws InMemoryStorage.
Proof.
  split; intros.
  1-4: unfold written, changed; simpl; intros q;
    rewrite ?push_default_lookup, ?retain_at_lookup, ?pid_decide; by repeat case_decide.
  - exists s. split; [|apply changed_refl]. cbn. unfold mem_read_events.
    by destruct (journals s !! pid_str pid).
  - exists s. split; [|apply changed_refl]. cbn. unfold mem_load_latest_snapshot.
    by destruct (snapshots s !! pid_str pid).
Qed.

(** ** What an actor promises
    [state] is what the events determine; the hooks and the bookkeeping leave
    it alone, and a snapshot restores it. *)
Class EventSourcedLaws (A Ev St : Type) `{EventSourced A Ev} := {
  state : A → St;
  apply_st : St → Ev → St;
  state_apply a e : state (apply a e) = apply_st (state a) e;
  state_set a n : state (set_last_sequence_id a n) = state a;
  state_pre a : state (pre_recovery a) = state a;
  state_post a : state (post_recovery a) = state a;
  seq_set a n : last_sequence_id (set_last_sequence_id a n) = n;
  seq_pre a : last_sequence_id (pre_recovery a) = last_sequence_id a;
  seq_post a : last_sequence_id (post_recovery a) = last_sequence_id a;
  pid_apply a e : persistence_id (apply a e) = persistence_id a;
  pid_set a n : persistence_id (set_last_sequence_id a n) = persistence_id a;
  pid_pre a : persistence_id (pre_recovery a) = persistence_id a;
  event_roundtrip a a' e b : serialize_event a e = Ok b → deserialize_event a' b = Ok e;
  snapshot_roundtrip a a' b : snapshot_payload a = Ok b →
    ∃ a2, restore_snapshot a' b = (Ok (), a2) ∧ state a2 = state a
}.

(** ** The life of an event-sourced actor
    What its runtime does between two recoveries. [CCompact] deletes the events
    the latest snapshot covers ([delete_events_on_snapshot]). Failed commands
    are reported to the caller and the actor goes on. *)
Inductive command (Ev : Type) :=
  | CPersist (e : Ev)
  | CBatch (es : list Ev)
  | CSnapshot
  | CCompact.
Arguments CPersist {Ev} e.
Arguments CBatch {Ev} es.
Arguments CSnapshot {Ev}.
Arguments CCompact {Ev}.

Definition command_events {Ev} (c : command Ev) : nat :=
  match c with CPersist _ => 1 | CBatch es => length es | _ => 0 end%nat.

Fixpoint total_events {Ev} (cs : list (command Ev)) : nat :=
  match cs with [] => 0 | c :: cs => command_events c + total_events cs end%nat.

Section life.
Context {A Ev S : Type} `{EventSourced A Ev} `{JournalStorage S} `{SnapshotStorage S}.
Context (p : profile).

Definition exec (c : command Ev) (a : A) (s : S) : option (A * S) :=
  match c with
  | CPersist e => '(_, a, s) ← persist p e a s; Some (a, s)
  | CBatch es => '(_, a, s) ← persist_batch p es a s; Some (a, s)
  | CSnapshot => Some (a, (snapshot a s).2)
  | CCompact =>
      match load_latest_snapshot (persistence_id a) s with
      | (Ok (Some snap), s) =>
          Some (a, (delete_events_to (persistence_id a) (se_sequence_id snap) s).2)
      | (_, s) => Some (a, s)
      end
  end.
Fixpoint run (cs : list (command Ev)) (a : A) (s : S) : option (A * S) :=
  match cs with
  | [] => Some (a, s)
  | c :: cs => '(a, s) ← exec c a s; run cs a s
  end.
End life.

(** ** Invariant of the life *)
Section invariant.
Context {A Ev St S : Type} `{EventSourcedLaws A Ev St} `{StorageLaws S}.
Context (p : profile) (pid : PersistenceId) (base : Z) (st0 : St).
Implicit Types (a : A) (s : S) (es : list Ev).

(** [l] stores the events [es], numbered from [n + 1]. *)
Inductive encodes : Z → list JournalEntry → list Ev → Prop :=
  | encodes_nil n : encodes n [] []
  | encodes_cons n j l e es :
      je_sequence_id j = n + 1 → (∀ a, deserialize_event a (je_payload j) = Ok e) →
      encodes (n + 1) l es → encodes n (j :: l) (e :: es).

(** The actor has persisted [es], and its latest snapshot covers the first
    [k] of them. *)
Record Inv (es : list Ev) (k : nat) (a : A) (s : S) : Prop := mkInv {
  inv_state : state a = foldl apply_st st0 es;
  inv_seq : last_sequence_id a = base + Z.of_nat (length es);
  inv_pid : persistence_id a = pid;
  inv_k : (k <= length es)%nat;
  inv_le : Forall (λ e, je_sequence_id e <= base + Z.of_nat (length es)) (journal_of s pid);
  inv_tail : encodes (base + Z.of_nat k)
    (retain (λ e, base + Z.of_nat k + 1 <=? je_sequence_id e) (journal_of s pid)) (drop k es);
  inv_snap :
    match last (snapshots_of s pid) with
    | None => k = 0%nat
    | Some snap =>
        se_sequence_id snap = base + Z.of_nat k ∧
        ∀ a', ∃ a2, restore_snapshot a' (se_payload snap) = (Ok (), a2) ∧
                    state a2 = foldl apply_st st0 (take k es)
    end
}.

Lemma encodes_app n l es l' es' :
  encodes n l es → encodes (n + Z.of_nat (length es)) l' es' → encodes n (l ++ l') (es ++ es').
Proof.
  induction 1 as [n|n j l e es ??? IH]; simpl; intros Hl'.
  - by replace (n + Z.of_nat 0) with n in Hl' by lia.
  - constructor; [done..|]. apply IH.
    by replace (n + 1 + Z.of_nat (length es)) with (n + Z.of_nat (Datatypes.S (length es))) by lia.
Qed.
Lemma encodes_range n l es :
  encodes n l es → Forall (λ j, n < je_sequence_id j <= n + Z.of_nat (length es)) l.
Proof.
  induction 1 as [n|n j l e es Hj ? ? IH]; constructor; simpl; [lia|].
  eapply Forall_impl; [exact IH|]. simpl. lia.
Qed.

Lemma changed_journal f g s s' :
  changed pid f g s s' → journal_of s' pid = f (journal_of s pid).
Proof. intros Hc. destruct (Hc pid) as [Hj _]. by rewrite decide_True in Hj. Qed.
Lemma changed_snapshots f g s s' :
  changed pid f g s s' → snapshots_of s' pid = g (snapshots_of s pid).
Proof. intros Hc. destruct (Hc pid) as [_ Hj]. by rewrite decide_True in Hj. Qed.

Lemma Inv_same es k a s s' : changed pid id id s s' → Inv es k a s → Inv es k a s'.
Proof.
  intros Hc []. split; rewrite ?(changed_journal _ _ _ _ Hc), ?(changed_snapshots _ _ _ _ Hc); done.
Qed.

Lemma Inv_append es es' new k a a' s s' :
  Inv es k a s → encodes (base + Z.of_nat (length es)) new es' →
  changed pid (λ l, l ++ new) id s s' →
  state a' = foldl apply_st (state a) es' → persistence_id a' = pid →
  last_sequence_id a' = base + Z.of_nat (length (es ++ es')) →
  Inv (es ++ es') k a' s'.
Proof.
  intros [Hst Hseq Hpid Hk Hle Htail Hsnap] Hnew Hc Hst' Hpid' Hseq'.
  pose proof (encodes_range _ _ _ Hnew) as Hr.
  split; rewrite ?(changed_journal _ _ _ _ Hc), ?(changed_snapshots _ _ _ _ Hc); try done.
  - by rewrite Hst', Hst, foldl_app.
  - rewrite length_app. lia.
  - rewrite length_app. apply Forall_app. split; eapply Forall_impl; eauto; simpl; lia.
  - rewrite retain_app, (retain_all _ new), drop_app_le by
      (done || (eapply Forall_impl; [exact Hr|]; simpl; intros; apply Z.leb_le; lia)).
    apply encodes_app; [done|]. rewrite length_drop.
    by replace (base + Z.of_nat k + Z.of_nat (length es - k)) with (base + Z.of_nat (length es)) by lia.
  - destruct (last _); [|done]. by rewrite take_app_le.
Qed.

Lemma seq_next_small n : n < i64_max → seq_next p n = Some (n + 1).
Proof. intros Hn. unfold seq_next. by rewrite (proj2 (Z.leb_le _ _)) by lia. Qed.

Lemma number_batch_spec a n es :
  n + Z.of_nat (length es) <= i64_max →
  ∃ r, number_batch p a n es = Some r ∧
    match r with
    | Ok (m, b) => m = n + Z.of_nat (length es) ∧ encodes n (batch_entry <$> b) es
    | Err _ => True
    end.
Proof.
  revert n. induction es as [|e es IH]; simpl length; intros n Hn.
  { eexists. split; [done|]. split; [simpl; lia | constructor]. }
  cbn [number_batch]. rewrite seq_next_small by lia. cbn [mbind option_bind].
  destruct (serialize_event a e) as [b|err] eqn:Hb; [|by eexists].
  destruct (IH (n + 1)) as (r & -> & Hr); [lia|]. cbn [mbind option_bind].
  eexists. split; [done|]. destruct r as [[m bs]|err]; [|done]. destruct Hr as [-> Hr].
  split; [lia|]. constructor; [done | | done].
  intros a'. simpl. by eapply event_roundtrip.
Qed.

Lemma foldl_apply a es :
  state (foldl apply a es) = foldl apply_st (state a) es ∧
  persistence_id (foldl apply a es) = persistence_id a.
Proof.
  revert a. induction es as [|e es IH]; intros a; simpl; [done|].
  destruct (IH (apply a e)) as [-> ->]. by rewrite state_apply, pid_apply.
Qed.

(** A command that ran: the events it stored come after those stored before. *)
Definition extends (c : command Ev) (es : list Ev) (w : option (A * S)) : Prop :=
  ∃ a' s' es' k', w = Some (a', s') ∧ (length es' <= command_events c)%nat ∧
    Inv (es ++ es') k' a' s'.

Lemma extends_same c es k a s : Inv es k a s → extends c es (Some (a, s)).
Proof. intros HI. exists a, s, [], k. rewrite app_nil_r. split_and!; [done| simpl; lia |done]. Qed.

Lemma exec_persist e es k a s :
  Inv es k a s → base + Z.of_nat (length es) < i64_max →
  extends (CPersist e) es (exec p (CPersist e) a s).
Proof.
  intros HI Hlt. destruct (HI) as [Hst Hseq Hpid _ _ _ _].
  simpl. unfold persist. rewrite Hseq, Hpid, seq_next_small by done. simpl.
  destruct (serialize_event a e) as [b|err] eqn:Hb; simpl; [|by eapply extends_same].
  pose proof (write_event_law pid (base + Z.of_nat (length es) + 1) event_type b s) as Hw.
  destruct (write_event _ _ _ _ s) as [[u|err] s']; unfold written in Hw; simpl in *;
    [|by eapply extends_same, Inv_same].
  eexists _, _, [e], k. split_and!; [done | done |].
  eapply (Inv_append _ [e] _ _ _ _ _ _ HI); [| exact Hw |..].
  - constructor; [done | | constructor]. intros a'. by eapply event_roundtrip.
  - by rewrite state_set, state_apply.
  - by rewrite pid_set, pid_apply.
  - rewrite seq_set, length_app. simpl. lia.
Qed.

Lemma exec_batch new es k a s :
  Inv es k a s → base + Z.of_nat (length es + length new) <= i64_max →
  extends (CBatch new) es (exec p (CBatch new) a s).
Proof.
  intros HI Hlt. destruct (HI) as [Hst Hseq Hpid _ _ _ _].
  simpl. unfold persist_batch. destruct new as [|e new]; [by eapply extends_same|].
  set (evs := e :: new) in *. rewrite Hseq, Hpid.
  destruct (number_batch_spec a (base + Z.of_nat (length es)) evs) as (r & -> & Hr); [lia|].
  cbn [mbind option_bind]. destruct r as [[m b]|err]; [|by eapply extends_same].
  destruct Hr as [-> Hr]. pose proof (write_event_batch_law pid b s) as Hw.
  destruct (write_event_batch _ _ s) as [[u|err] s']; unfold written in Hw; simpl in Hw;
    [|by eapply extends_same, Inv_same].
  destruct (foldl_apply a evs) as [Hfst Hfpid].
  eexists _, _, evs, k. split_and!; [done | done |].
  eapply (Inv_append _ evs _ _ _ _ _ _ HI); [exact Hr | exact Hw |..].
  - by rewrite state_set.
  - by rewrite pid_set, Hfpid.
  - rewrite seq_set, length_app. lia.
Qed.

Lemma exec_snapshot es k a s : Inv es k a s → extends CSnapshot es (exec p CSnapshot a s).
Proof.
  intros HI. destruct (HI) as [Hst Hseq Hpid Hk Hle _ _].
  simpl. unfold snapshot. destruct (snapshot_payload a) as [b|err] eqn:Hb;
    [|by eapply extends_same].
  rewrite Hpid, Hseq. pose proof (save_snapshot_law pid (base + Z.of_nat (length es)) b s) as Hw.
  destruct (save_snapshot _ _ _ s) as [[u|err] s']; unfold written in Hw; simpl in *;
    [|by eapply extends_same, Inv_same].
  exists a, s', [], (length es). rewrite app_nil_r. split_and!; [done|simpl; lia|].
  split; rewrite ?(changed_journal _ _ _ _ Hw), ?(changed_snapshots _ _ _ _ Hw); try done.
  - rewrite retain_none, drop_ge by
      (done || (eapply Forall_impl; [exact Hle|]; simpl; intros; apply Z.leb_gt; lia)).
    constructor.
  - rewrite last_app. simpl. split; [done|]. rewrite firstn_all, <-Hst. intros a'.
    by apply snapshot_roundtrip.
Qed.

Lemma exec_compact es k a s : Inv es k a s → extends CCompact es (exec p CCompact a s).
Proof.
  intros HI. destruct (HI) as [_ _ Hpid Hk Hle Htail Hsnap]. simpl. rewrite Hpid.
  destruct (load_snapshot_law pid s) as (s' & -> & Hc).
  pose proof (Inv_same _ _ _ _ _ Hc HI) as HI'.
  destruct (last (snapshots_of s pid)) as [snap|] eqn:Hl; [|by eapply extends_same].
  destruct Hsnap as [Hs _].
  pose proof (delete_events_law pid (se_sequence_id snap) s') as Hw.
  destruct (delete_events_to _ _ s') as [[u|err] s'']; unfold written in Hw; simpl in *;
    [|by eapply extends_same, Inv_same].
  exists a, s'', [], k. rewrite app_nil_r. split_and!; [done|simpl; lia|].
  clear HI. destruct HI' as [Hst Hseq _ _ Hle' Htail' Hsnap'].
  split; rewrite ?(changed_journal _ _ _ _ Hw), ?(changed_snapshots _ _ _ _ Hw); try done.
  - by apply Forall_retain.
  - rewrite retain_retain; [done|]. intros x Hx. apply Z.leb_le in Hx. apply Z.ltb_lt. lia.
Qed.

Lemma exec_Inv c es k a s :
  Inv es k a s → base + Z.of_nat (length es + command_events c) < i64_max →
  extends c es (exec p c a s).
Proof.
  destruct c; simpl; intros.
  - eapply exec_persist; [done | lia].
  - eapply exec_batch; [done | lia].
  - by eapply exec_snapshot.
  - by eapply exec_compact.
Qed.

Lemma run_Inv cs es k a s :
  Inv es k a s → base + Z.of_nat (length es + total_events cs) < i64_max →
  ∃ a' s' es' k', run p cs a s = Some (a', s') ∧
    (length es' <= length es + total_events cs)%nat ∧ Inv es' k' a' s'.
Proof.
  revert es k a s. induction cs as [|c cs IH]; simpl; intros es k a s HI Hlt.
  { exists a, s, es, k. split_and!; [done|lia|done]. }
  destruct (exec_Inv c es k a s) as (a1 & s1 & es1 & k1 & -> & Hlen & HI1); [done|lia|].
  simpl. destruct (IH (es ++ es1) k1 a1 s1) as (a' & s' & es' & k' & -> & ? & ?);
    rewrite ?length_app in *; [done | lia |].
  exists a', s', es', k'. split_and!; [done | lia | done].
Qed.

(** *** Recovery from a store that holds the life *)
Lemma deserialize_encodes a n l es :
  encodes n l es → last_sequence_id a = n →
  ∃ des, deserialize_all a l = Ok des ∧
    ∀ b, last_sequence_id b = n →
      state (foldl apply_entry b des) = foldl apply_st (state b) es ∧
      last_sequence_id (foldl apply_entry b des) = n + Z.of_nat (length es).
Proof.
  intros He _. induction He as [n|n j l e es Hj Hd He (des & Hdes & IH)].
  { exists []. split; [done|]. intros b Hb. simpl. split; [done|lia]. }
  exists ((je_sequence_id j, e) :: des). simpl. rewrite Hd. simpl. rewrite Hdes.
  split; [done|]. intros b Hb.
  destruct (IH (apply_entry b (je_sequence_id j, e))) as [-> ->].
  { unfold apply_entry. by rewrite seq_set. }
  unfold apply_entry. simpl. rewrite state_set, state_apply. split; [done|lia].
Qed.

Lemma recover_Inv es k a s b :
  Inv es k a s → base + Z.of_nat (length es) < i64_max →
  persistence_id b = pid → last_sequence_id b = base → state b = st0 →
  ∃ b' s', recover_event_sourced_inner p (b, s) = Some (Ok (), (b', s')) ∧
    state b' = state a ∧ last_sequence_id b' = last_sequence_id a.
Proof.
  intros [Hst Hseq Hpid Hk Hle Htail Hsnap] Hlt Hb Hbseq Hbst.
  unfold recover_event_sourced_inner. rewrite pid_pre, Hb.
  destruct (load_snapshot_law pid s) as (s1 & -> & Hc1).
  assert (∃ b1, load_snapshot (last (snapshots_of s pid)) (pre_recovery b) = (Ok (), b1) ∧
    last_sequence_id b1 = base + Z.of_nat k ∧ state b1 = foldl apply_st st0 (take k es))
    as (b1 & -> & Hb1 & Hb1st).
  { destruct (last _) as [snap|]; simpl.
    - destruct Hsnap as [Hs Hr]. destruct (Hr (pre_recovery b)) as (a2 & -> & Ha2).
      eexists. split; [done|]. rewrite seq_set, state_set. done.
    - subst k. eexists. split; [done|]. rewrite seq_pre, state_pre, Hbseq, Hbst.
      split; [simpl; lia | done]. }
  rewrite Hb1, seq_next_small by lia. simpl.
  destruct (read_events_law pid (base + Z.of_nat k + 1) s1) as (s2 & -> & _).
  rewrite (changed_journal _ _ _ _ Hc1). unfold id.
  destruct (deserialize_encodes b1 _ _ _ Htail Hb1) as (des & -> & Hdes).
  destruct (Hdes b1 Hb1) as [Hfst Hfseq].
  eexists _, _. split; [done|]. rewrite state_post, seq_post, Hfst, Hfseq, Hb1st, Hst, Hseq.
  rewrite <-foldl_app, take_drop. split; [done|]. rewrite length_drop. lia.
Qed.
End invariant.

(** ** Retrying *)
Section retry_lemmas.
Context {W : Type} (attempt : W → option (result PersistError () * W)).

(** [w] is brought to [w'] by attempts that fail with the errors [es]. *)
Inductive failing : list PersistError → W → W → Prop :=
  | failing_nil w : failing [] w w
  | failing_cons e es w w1 w' :
      attempt w = Some (Err e, w1) → failing es w1 w' → failing (e :: es) w w'.

(** The delays slept before the second, third, ... attempt. *)
Fixpoint delays (n : nat) (d : N) : list N :=
  match n with O => [] | S n => d :: delays n (backoff d) end.

Lemma retry_loop_fails es k e d w w' :
  failing es w w' → length es = k → retry_loop attempt k e d w = Some (Err e, w', delays k d).
Proof.
  intros Hf. revert k d. induction Hf as [w|e' es w w1 w' Ha Hf IH]; intros k d <-; simpl; [done|].
  rewrite Ha. simpl. by rewrite (IH _ _ eq_refl).
Qed.
Lemma retry_loop_succeeds es k e d w w' w'' :
  failing es w w' → (length es < k)%nat → attempt w' = Some (Ok (), w'') →
  retry_loop attempt k e d w = Some (Ok (), w'', delays (S (length es)) d).
Proof.
  intros Hf. revert k d. induction Hf as [w|e' es w w1 w' Ha Hf IH]; intros k d Hk Hok;
    (destruct k as [|k]; [simpl in Hk; lia|]); simpl.
  - by rewrite Hok.
  - rewrite Ha. simpl. by rewrite IH by (done || simpl in Hk; lia).
Qed.
End retry_lemmas.

Lemma backoff_bound d : (backoff d <= from_secs 30)%N.
Proof. unfold backoff, from_millis, from_secs. lia. Qed.
Lemma delays_bound n d : Forall (λ x, x <= from_secs 30)%N (tail (delays n d)).
Proof.
  destruct n as [|n]; simpl; [constructor|]. revert d.
  induction n as [|n IH]; intros d; simpl; constructor; [apply backoff_bound | apply IH].
Qed.

(** ** An account that persists deposits *)
Module Account.

Record Account := mkAccount { acc_seq : Z; balance : N }.
Definition tally (n : N) : bytes := replicate (N.to_nat n) Byte.x01.
Definition untally (b : bytes) : result PersistError N :=
  if forallb (Byte.eqb Byte.x01) b then Ok (N.of_nat (length b))
  else Err (SerializationFailed "not a tally").
Lemma untally_tally n : untally (tally n) = Ok n.
Proof.
  assert (∀ k, forallb (Byte.eqb Byte.x01) (replicate k Byte.x01) = true) as Hk by (intros k; by induction k).
  unfold untally, tally. by rewrite Hk, length_replicate, N2Nat.id.
Qed.

#[export] Instance Account_persistent : PersistentActor Account := {|
  persistence_id _ := PersistenceId_new "BankAccount" "acct-123";
  pre_recovery a := a; post_recovery a := a;
  recovery_failure_policy _ := RecoveryRetry None 1000000;
  persist_failure_policy _ := ReturnError
|}.
#[export] Instance Account_event_sourced : EventSourced Account N := {|
  event_type := "Deposit";
  apply a e := mkAccount (acc_seq a) (balance a + e);
  deserialize_event _ := untally;
  serialize_event _ e := Ok (tally e);
  restore_snapshot a b :=
    match untally b with
    | Ok n => (Ok (), mkAccount (acc_seq a) n)
    | Err e => (Err e, a)
    end;
  snapshot_payload a := Ok (tally (balance a));
  snapshot_config _ := None;
  last_sequence_id := acc_seq;
  set_last_sequence_id a n := mkAccount n (balance a)
|}.
#[export] Instance Account_laws : EventSourcedLaws Account N N.
Proof.
  refine (Build_EventSourcedLaws _ _ _ _ _ balance N.add _ _ _ _ _ _ _ _ _ _ _ _); try done.
  - intros ? ? e b [= <-]. apply untally_tally.
  - intros a a' b [= <-]. simpl. rewrite untally_tally. by eexists.
Defined.

Definition fresh : Account := mkAccount 0 0.
Definition life : list (command N) :=
  [CPersist 5; CBatch [1; 2]; CSnapshot; CPersist 7; CCompact; CPersist 10]%N.

End Account.

(** ** Properties *)
Module Spec.
Section spec.
Context {A Ev St S : Type} `{EventSourcedLaws A Ev St} `{StorageLaws S}.

(** C5. Recovery rebuilds the state: let an actor start on an empty journal and
    persist events, one at a time or in batches, take snapshots and delete the
    events they cover, in any order, and let the storage refuse any of the
    writes. Then nothing panics while the sequence numbers fit [i64], and a
    fresh actor that recovers from that storage, in one attempt and without
    sleeping, gets exactly the state and the sequence number of the one that
    lived, so the next event it persists is numbered consecutively. *)
Theorem recovery_rebuilds (p : profile) (cs : list (command Ev)) (a : A) (s : S)
    (Hj : journal_of s (persistence_id a) = []) (Hs : snapshots_of s (persistence_id a) = [])
    (Hfit : last_sequence_id a + Z.of_nat (total_events cs) < i64_max) :
  ∃ a' s', run p cs a s = Some (a', s') ∧
    ∀ b : A, persistence_id b = persistence_id a → last_sequence_id b = last_sequence_id a →
      state b = state a →
      ∃ b' s'', recover_event_sourced p b s' = Some (Ok (), (b', s''), []) ∧
        state b' = state a' ∧ last_sequence_id b' = last_sequence_id a'.
Proof.
  assert (Inv (persistence_id a) (last_sequence_id a) (state a) [] 0 a s) as HI.
  { split; rewrite ?Hj, ?Hs; simpl; try done; [lia | constructor]. }
  destruct (run_Inv p _ _ _ cs _ _ _ _ HI) as (a' & s' & es & k & Hrun & Hlen & HI'); [done|].
  exists a', s'. split; [done|]. intros b Hb Hbseq Hbst. simpl in Hlen.
  destruct (recover_Inv p _ _ _ es k a' s' b HI') as (b' & s'' & Hrec & ? & ?); try done; [lia|].
  exists b', s''. unfold recover_event_sourced, recover_with. by rewrite Hrec.
Qed.
End spec.

Import Account.
Lemma recovery_rebuilds_witness :
  ∃ a' s', run Debug life fresh InMemoryStorage_new = Some (a', s') ∧
    ∃ b' s'', recover_event_sourced Debug fresh s' = Some (Ok (), (b', s''), []) ∧
      balance b' = 25%N ∧ acc_seq b' = 5.
Proof.
  destruct (recovery_rebuilds Debug life fresh InMemoryStorage_new)
    as (a' & s' & Hrun & Hrec); [reflexivity..|].
  exists a', s'. split; [exact Hrun|].
  destruct (Hrec fresh eq_refl eq_refl eq_refl) as (b' & s'' & Hb & Hst & Hseq).
  exists b', s''. split; [exact Hb|].
  vm_compute in Hrun. injection Hrun as <- <-. split; [exact Hst | exact Hseq].
Defined.

(** Replay is all or nothing: whatever the storage and the actor do, a
    recovery attempt that fails has applied no event. The actor is as
    [pre_recovery] left it, or as restoring the loaded snapshot left it. *)
Theorem replay_all_or_nothing {A Ev S} `{EventSourced A Ev} `{JournalStorage S}
    `{SnapshotStorage S} (p : profile) (a a' : A) (s s' : S) e :
  recover_event_sourced_inner p (a, s) = Some (Err e, (a', s')) →
  ∃ snap, a' = (load_snapshot snap (pre_recovery a)).2 ∧
    (snap = None ∨
     ∃ s1, load_latest_snapshot (persistence_id (pre_recovery a)) s = (Ok snap, s1)).
Proof.
  unfold recover_event_sourced_inner.
  destruct (load_latest_snapshot _ s) as [[snap|err] s1] eqn:Hl;
    [|intros [= _ <- _]; exists None; split; [done | by left]].
  destruct (load_snapshot snap (pre_recovery a)) as [r a1] eqn:Ha. intros Hrec.
  assert (a' = a1) as ->.
  { destruct r; [|by simplify_eq]. destruct (seq_next _ _); [|done]. simpl in Hrec.
    destruct (read_events _ _ s1) as [[l|] s2]; [|by simplify_eq].
    destruct (deserialize_all a1 l); by simplify_eq. }
  exists snap. rewrite Ha. split; [done | right; by exists s1].
Qed.

Definition corrupt : InMemoryStorage :=
  mkInMemoryStorage
    {["BankAccount:acct-123" := [mkJournalEntry 3 "Deposit" [Byte.x01]; mkJournalEntry 4 "Deposit" [Byte.x00]]]}
    {["BankAccount:acct-123" := [mkSnapshotEntry 2 (tally 9)]]} ∅.
Lemma replay_all_or_nothing_witness :
  recover_event_sourced_inner Debug (fresh, corrupt) =
    Some (Err (SerializationFailed "not a tally"), (mkAccount 2 9, corrupt)) ∧
  ∃ snap, mkAccount 2 9 = (load_snapshot snap (pre_recovery fresh)).2 ∧
    (snap = None ∨
     ∃ s1, load_latest_snapshot (persistence_id (pre_recovery fresh)) corrupt = (Ok snap, s1)).
Proof.
  assert (recover_event_sourced_inner Debug (fresh, corrupt) =
    Some (Err (SerializationFailed "not a tally"), (mkAccount 2 9, corrupt))) as Hrec
    by (vm_compute; reflexivity).
  split; [exact Hrec | exact (replay_all_or_nothing Debug _ _ _ _ _ Hrec)].
Defined.

(** The [Retry] policy, exactly: there are [max(attempts, 1)] attempts, 3 when
    the limit is [None]; recovery stops at the first that succeeds and
    otherwise reports the first error, whatever the later ones were. It sleeps
    the initial delay and then delays that double in whole milliseconds and
    never exceed 30 seconds. *)
Theorem retry_policy {W} (attempt : W → option (result PersistError () * W))
    (max_attempts : option N) (d : N) (skip : W → W) (e : PersistError) (es : list PersistError)
    (w w' : W) (Hf : failing attempt (e :: es) w w') :
  let attempts := Nat.max 1 (N.to_nat (default 3%N max_attempts)) in
  let r := recover_with attempt (RecoveryRetry max_attempts d) skip w in
  (length (e :: es) = attempts → r = Some (Err e, w', delays (attempts - 1) d)) ∧
  (∀ w'', (length (e :: es) < attempts)%nat → attempt w' = Some (Ok (), w'') →
    r = Some (Ok (), w'', delays (length (e :: es)) d)) ∧
  Forall (λ x, x <= from_secs 30)%N (tail (delays (attempts - 1) d)).
Proof.
  inversion Hf as [|? ? ? w1 ? Ha Hf']; subst. intros attempts r.
  unfold r, recover_with. rewrite Ha. cbn [mbind option_bind].
  replace (N.to_nat (default 3%N max_attempts) - 1)%nat with (attempts - 1)%nat
    by (unfold attempts; lia).
  split_and!; [| |apply delays_bound].
  - intros <-. simpl. rewrite Nat.sub_0_r. by eapply retry_loop_fails.
  - intros w'' Hlt Hok. eapply retry_loop_succeeds; [done| |done]. simpl in Hlt. lia.
Qed.

(** The storage is down for two attempts; the world counts them. *)
Definition flaky (w : nat) : option (result PersistError () * nat) :=
  Some (if decide (w < 2)%nat then Err (StorageUnavailable "down") else Ok (), S w).
Lemma retry_policy_witness :
  recover_with flaky (RecoveryRetry (Some 3%N) 1500000) id 0%nat =
    Some (Ok (), 3%nat, [1500000; 2000000]%N) ∧
  recover_with flaky (RecoveryRetry (Some 2%N) 1500000) id 0%nat =
    Some (Err (StorageUnavailable "down"), 2%nat, [1500000]%N).
Proof.
  assert (failing flaky [StorageUnavailable "down"; StorageUnavailable "down"] 0 2)%nat as Hf
    by (repeat econstructor).
  destruct (retry_policy flaky (Some 3%N) 1500000 id _ _ _ _ Hf) as (_ & Hok & _).
  destruct (retry_policy flaky (Some 2%N) 1500000 id _ _ _ _ Hf) as (Herr & _ & _).
  split; [rewrite (Hok 3%nat) | rewrite Herr]; vm_compute; reflexivity || lia.
Defined.

End Spec.
