(* ===== verification/Transport.v ===== *)
(** * Transports (dactor/src/transport.rs, dactor/src/batched_transport.rs)

    [Transport] is the interface of message delivery between nodes: an
    implementation acts on a world [W]. [InMemoryTransport] routes through
    channels, whose sending ends are handles [H] into the world, shared by the
    transports that cloned them; [TransportRegistry] picks a transport by node,
    and [BatchedTransportSender] packs tells for one node into one envelope. *)
From S2P Require Import Prelude Node Message Version TypeRegistry Mailbox SystemActors Stream Proto.

#[local] Open Scope string_scope.
#[local] Open Scope list_scope.
#[local] Open Scope nat_scope.

Record TransportError := mkTransportError { te_message : string }.

#[export] Instance TransportError_eq_dec : EqDecision TransportError.
Proof. solve_decision. Defined.

Definition TransportError_display (e : TransportError) : string :=
  "transport error: " +:+ te_message e.

(** The part of the trait the senders of this crate call. *)
Class Transport (T W : Type) := {
  transport_send : T → NodeId → WireEnvelope → W → result TransportError () * W
}.

(** ** InMemoryTransport *)
(** The channels of tokio: [chan_new] is [mpsc::channel], [chan_send] a completed
    [send(..).await] and [oneshot_send] the reply channel, [false] when the
    receiver is gone. *)
Class Channels (H R W : Type) := {
  chan_new : nat → W → H * W;
  chan_send : H → WireEnvelope → W → bool * W;
  oneshot_new : W → R * W;
  oneshot_send : R → WireEnvelope → W → bool * W
}.

Record InMemoryTransport (H R : Type) := mkInMemoryTransport {
  routes : gmap NodeId H;
  pending_replies : gmap Uuid R;
  local_node : NodeId;
  connected : gset NodeId;
  handshake_info : gmap NodeId HandshakeRequest
}.
Arguments mkInMemoryTransport {H R}.
Arguments routes {H R}.
Arguments pending_replies {H R}.
Arguments local_node {H R}.
Arguments connected {H R}.
Arguments handshake_info {H R}.

Section in_memory.
Context {H R W : Type} `{Channels H R W} (uuid_to_string : Uuid → string).

Definition InMemoryTransport_new (n : NodeId) : InMemoryTransport H R :=
  mkInMemoryTransport ∅ ∅ n ∅ ∅.
Definition with_pending (f : gmap Uuid R → gmap Uuid R) (t : InMemoryTransport H R) :
    InMemoryTransport H R :=
  mkInMemoryTransport (routes t) (f (pending_replies t)) (local_node t) (connected t)
    (handshake_info t).
Definition with_connected (f : gset NodeId → gset NodeId) (t : InMemoryTransport H R) :
    InMemoryTransport H R :=
  mkInMemoryTransport (routes t) (pending_replies t) (local_node t) (f (connected t))
    (handshake_info t).

Definition register_node (n : NodeId) (t : InMemoryTransport H R) (w : W) :
    H * InMemoryTransport H R * W :=
  let '(h, w) := chan_new 256 w in
  (h, mkInMemoryTransport (<[n := h]> (routes t)) (pending_replies t) (local_node t) (connected t)
        (handshake_info t), w).
(** Each side gets the other's routes and handshake info, as they were. *)
Definition link (self other : InMemoryTransport H R) :
    InMemoryTransport H R * InMemoryTransport H R :=
  (mkInMemoryTransport (insert_all (map_to_list (routes other)) (routes self))
     (pending_replies self) (local_node self) ({[local_node other]} ∪ connected self)
     (insert_all (map_to_list (handshake_info other)) (handshake_info self)),
   mkInMemoryTransport (insert_all (map_to_list (routes self)) (routes other))
     (pending_replies other) (local_node other) ({[local_node self]} ∪ connected other)
     (insert_all (map_to_list (handshake_info self)) (handshake_info other))).
Definition set_handshake_info (r : HandshakeRequest) (t : InMemoryTransport H R) :
    InMemoryTransport H R :=
  mkInMemoryTransport (routes t) (pending_replies t) (local_node t) (connected t)
    (<[hs_node_id r := r]> (handshake_info t)).
Definition complete_request (id : Uuid) (reply : WireEnvelope) (t : InMemoryTransport H R) (w : W) :
    result TransportError () * InMemoryTransport H R * W :=
  match pending_replies t !! id with
  | None => (Err (mkTransportError ("no pending request for " +:+ uuid_to_string id)), t, w)
  | Some tx =>
      let t := with_pending (delete id) t in
      let '(ok, w) := oneshot_send tx reply w in
      (if ok then Ok () else Err (mkTransportError "reply receiver dropped"), t, w)
  end.
Definition in_memory_send (t : InMemoryTransport H R) (target_node : NodeId) (e : WireEnvelope)
    (w : W) : result TransportError () * W :=
  match routes t !! target_node with
  | None => (Err (mkTransportError ("no route to " +:+ NodeId_display target_node)), w)
  | Some sender =>
      let '(ok, w) := chan_send sender e w in
      (if ok then Ok ()
       else Err (mkTransportError ("channel closed for " +:+ NodeId_display target_node)), w)
  end.
#[export] Instance in_memory_transport : Transport (InMemoryTransport H R) W :=
  Build_Transport _ _ in_memory_send.
(** [send_request] up to the point where it waits, on the reply channel that
    [Ok] carries; an error ends the call. *)
Definition send_request_start (target_node : NodeId) (e : WireEnvelope) (t : InMemoryTransport H R)
    (w : W) : result TransportError R * InMemoryTransport H R * W :=
  match request_id e with
  | None => (Err (mkTransportError "send_request requires a request_id"), t, w)
  | Some id =>
      let '(rx, w) := oneshot_new w in
      let t := with_pending <[id := rx]> t in
      match in_memory_send t target_node e w with
      | (Err err, w) => (Err err, with_pending (delete id) t, w)
      | (Ok _, w) => (Ok rx, t, w)
      end
  end.
(** The wait: the value sent on the channel, or [None] when its sender is gone. *)
Definition send_request_finish (reply : option WireEnvelope) : result TransportError WireEnvelope :=
  ok_or reply (mkTransportError "reply sender dropped").
Definition is_reachable (n : NodeId) (t : InMemoryTransport H R) : bool :=
  bool_decide (n ∈ connected t).
Definition connect (n : NodeId) (t : InMemoryTransport H R) :
    result TransportError () * InMemoryTransport H R :=
  match routes t !! n with
  | Some _ => (Ok (), with_connected (union {[n]}) t)
  | None => (Err (mkTransportError ("no route to " +:+ NodeId_display n)), t)
  end.
Definition disconnect (n : NodeId) (t : InMemoryTransport H R) :
    result TransportError () * InMemoryTransport H R :=
  (Ok (), with_connected (λ s, s ∖ {[n]}) t).
Definition handshake (n : NodeId) (request : HandshakeRequest) (t : InMemoryTransport H R) :
    result TransportError HandshakeResponse :=
  match handshake_info t !! n with
  | None => Err (mkTransportError ("no handshake info registered for " +:+ NodeId_display n))
  | Some remote_info => Ok (validate_handshake remote_info request)
  end.
End in_memory.

(** ** TransportRegistry *)
Section registry.
Context {T W : Type} `{Transport T W}.

Record TransportRegistry := mkTransportRegistry { transports : gmap NodeId T }.
Definition TransportRegistry_new : TransportRegistry := mkTransportRegistry ∅.
Definition TransportRegistry_register (n : NodeId) (t : T) (r : TransportRegistry) :
    TransportRegistry :=
  mkTransportRegistry (<[n := t]> (transports r)).
Definition TransportRegistry_unregister (n : NodeId) (r : TransportRegistry) : TransportRegistry :=
  mkTransportRegistry (delete n (transports r)).
Definition TransportRegistry_get (n : NodeId) (r : TransportRegistry) : option T :=
  transports r !! n.
Definition TransportRegistry_send (r : TransportRegistry) (target_node : NodeId) (e : WireEnvelope)
    (w : W) : result TransportError () * W :=
  match TransportRegistry_get target_node r with
  | None => (Err (mkTransportError ("no transport for " +:+ NodeId_display target_node)), w)
  | Some t => transport_send t target_node e w
  end.
End registry.

(** ** Batching (dactor/src/batched_transport.rs) *)
Record WireEnvelopeBatch := mkBatch { envelopes : list WireEnvelope }.
Definition batch_len (b : WireEnvelopeBatch) : nat := length (envelopes b).
Definition batch_is_empty (b : WireEnvelopeBatch) : bool :=
  match envelopes b with [] => true | _ => false end.
Definition total_body_bytes (b : WireEnvelopeBatch) : nat :=
  sum_list ((λ e, length (body e)) <$> envelopes b).
Definition BATCH_MESSAGE_TYPE : string := "dactor::system::Batch".
Definition is_batch_envelope (e : WireEnvelope) : bool :=
  bool_decide (message_type e = BATCH_MESSAGE_TYPE).
Definition SendMode_debug (m : SendMode) : string :=
  match m with
  | Tell => "Tell" | Ask => "Ask" | Expand => "Expand" | Reduce => "Reduce"
  | Transform => "Transform"
  end.

Section batched.
Context {T W : Type} `{Transport T W}.
(** [serde_json::to_vec] and [from_slice] on batches. *)
Context (to_vec : WireEnvelopeBatch → result string bytes)
  (from_slice : bytes → result string WireEnvelopeBatch).

Record BatchedTransportSender := mkBatchedSender {
  bs_transport : T;
  bs_config : BatchConfig;
  buffers : gmap NodeId (list WireEnvelope)
}.
Definition BatchedTransportSender_new (t : T) (c : BatchConfig) : BatchedTransportSender :=
  mkBatchedSender t c ∅.
Definition with_buffers (f : gmap NodeId (list WireEnvelope) → gmap NodeId (list WireEnvelope))
    (b : BatchedTransportSender) : BatchedTransportSender :=
  mkBatchedSender (bs_transport b) (bs_config b) (f (buffers b)).

Definition batch_wrapper (target_node : NodeId) (payload : bytes) : WireEnvelope :=
  mkWireEnvelope (mkActorId target_node 0) "" BATCH_MESSAGE_TYPE Tell WireHeaders_new payload None
    None.
Definition send_batch (b : BatchedTransportSender) (target_node : NodeId) (l : list WireEnvelope)
    (w : W) : result TransportError () * W :=
  match to_vec (mkBatch l) with
  | Err e => (Err (mkTransportError ("batch serialization failed: " +:+ e)), w)
  | Ok payload => transport_send (bs_transport b) target_node (batch_wrapper target_node payload) w
  end.
Definition batched_send (e : WireEnvelope) (b : BatchedTransportSender) (w : W) :
    result TransportError () * BatchedTransportSender * W :=
  if decide (send_mode e ≠ Tell) then
    (Err (mkTransportError ("BatchedTransportSender only accepts Tell envelopes, got "
       +:+ SendMode_debug (send_mode e))), b, w)
  else
    let target_node := node (target e) in
    let buffer := default [] (buffers b !! target_node) ++ [e] in
    if (max_items (bs_config b) <=? length buffer)%nat then
      let b := with_buffers <[target_node := []]> b in
      let '(r, w) := send_batch b target_node buffer w in (r, b, w)
    else (Ok (), with_buffers <[target_node := buffer]> b, w).
Definition flush_node (n : NodeId) (b : BatchedTransportSender) (w : W) :
    result TransportError () * BatchedTransportSender * W :=
  let batch := default [] (buffers b !! n) in
  let b := with_buffers (delete n) b in
  match batch with
  | [] => (Ok (), b, w)
  | _ => let '(r, w) := send_batch b n batch w in (r, b, w)
  end.
(** The loop of [flush_all] over the drained buffers. *)
Fixpoint flush_batches (b : BatchedTransportSender) (all : list (NodeId * list WireEnvelope))
    (first_error : option TransportError) (w : W) : option TransportError * W :=
  match all with
  | [] => (first_error, w)
  | (n, batch) :: all =>
      match batch with
      | [] => flush_batches b all first_error w
      | _ =>
          match send_batch b n batch w with
          | (Ok _, w) => flush_batches b all first_error w
          | (Err e, w) =>
              flush_batches b all (match first_error with None => Some e | Some _ => first_error end) w
          end
      end
  end.
Definition flush_all (b : BatchedTransportSender) (w : W) :
    result TransportError () * BatchedTransportSender * W :=
  let all_batches := map_to_list (buffers b) in
  let b := with_buffers (const ∅) b in
  let '(first_error, w) := flush_batches b all_batches None w in
  (match first_error with Some e => Err e | None => Ok () end, b, w).
Definition bs_buffered_count (b : BatchedTransportSender) : nat :=
  sum_list (length <$> (map_to_list (buffers b)).*2).
Definition buffered_nodes (b : BatchedTransportSender) : nat := size (buffers b).
Definition unpack_batch (payload : bytes) : result TransportError WireEnvelopeBatch :=
  map_err (λ e, mkTransportError ("batch deserialization failed: " +:+ e)) (from_slice payload).
End batched.
Arguments BatchedTransportSender T : clear implicits.

(** ** What a transport was given
    [tlog] is every envelope handed to the transport, with its node, whatever
    the transport answered. *)
Class TransportLog (T W : Type) `{Transport T W} := {
  tlog : W → list (NodeId * WireEnvelope);
  tlog_send t n e w : tlog (transport_send t n e w).2 = tlog w ++ [(n, e)]
}.

Inductive batch_op :=
  | BSend (e : WireEnvelope)
  | BFlushNode (n : NodeId)
  | BFlushAll.

Section batched_lemmas.
Context {T W : Type} `{TransportLog T W}.
Context (to_vec : WireEnvelopeBatch → result string bytes)
  (from_slice : bytes → result string WireEnvelopeBatch).
Implicit Types (b : BatchedTransportSender T) (w : W).

Definition batch_step (o : batch_op) (b : BatchedTransportSender T) (w : W) :
    result TransportError () * BatchedTransportSender T * W :=
  match o with
  | BSend e => batched_send to_vec e b w
  | BFlushNode n => flush_node to_vec n b w
  | BFlushAll => flush_all to_vec b w
  end.
Fixpoint batch_run (ops : list batch_op) (b : BatchedTransportSender T) (w : W) :
    BatchedTransportSender T * W :=
  match ops with
  | [] => (b, w)
  | o :: ops => let '(_, b, w) := batch_step o b w in batch_run ops b w
  end.

(** The tells for [n] that were accepted, in order. *)
Definition accepted (n : NodeId) (o : batch_op) : list WireEnvelope :=
  match o with
  | BSend e => if decide (send_mode e = Tell ∧ node (target e) = n) then [e] else []
  | _ => []
  end.
Definition accepted_all (n : NodeId) (ops : list batch_op) : list WireEnvelope :=
  concat (accepted n <$> ops).

Definition buffered (n : NodeId) (b : BatchedTransportSender T) : list WireEnvelope :=
  default [] (buffers b !! n).
(** What the receiver at [n] unpacks from what was sent to it. *)
Definition unpacked (n : NodeId) (p : NodeId * WireEnvelope) : list WireEnvelope :=
  if decide (p.1 = n) then
    match unpack_batch from_slice (body p.2) with Ok l => envelopes l | Err _ => [] end
  else [].
Definition delivered (n : NodeId) (w : W) : list WireEnvelope := concat (unpacked n <$> tlog w).

(** A well-formed batch on the wire. *)
Definition batch_wf (p : NodeId * WireEnvelope) : Prop :=
  is_batch_envelope p.2 = true ∧ send_mode p.2 = Tell ∧ node (target p.2) = p.1 ∧
  unpacked p.1 p ≠ [].

Context (serde_roundtrip : ∀ l, ∃ x, to_vec l = Ok x ∧ from_slice x = Ok l).

(** [w'] is [w] with the batches [l] handed over, one by one. *)
Definition hands (l : NodeId → list WireEnvelope) (w w' : W) : Prop :=
  (∀ n, delivered n w' = delivered n w ++ l n) ∧
  (Forall batch_wf (tlog w) → Forall batch_wf (tlog w')).

Lemma hands_nil w : hands (const []) w w.
Proof. split; [|done]. intros n. by rewrite app_nil_r. Qed.

Lemma send_batch_hands b n l w :
  l ≠ [] → hands (λ m, if decide (m = n) then l else []) w (send_batch to_vec b n l w).2.
Proof.
  intros Hl. destruct (serde_roundtrip (mkBatch l)) as (x & Hx & Hx').
  unfold send_batch. rewrite Hx.
  assert (∀ m, unpacked m (n, batch_wrapper n x) = if decide (m = n) then l else []) as Hu.
  { intros m. unfold unpacked, unpack_batch. simpl. rewrite Hx'. simpl.
    by repeat case_decide; subst. }
  split.
  - intros m. unfold delivered. rewrite tlog_send, fmap_app, concat_app. simpl.
    by rewrite app_nil_r, Hu.
  - intros Hw. rewrite tlog_send. apply Forall_app. split; [done|]. constructor; [|constructor].
    unfold batch_wf. rewrite Hu. simpl. by rewrite decide_True.
Qed.

(** *** The drained buffers, as seen from one node *)
Definition batches_for (l : list (NodeId * list WireEnvelope)) (n : NodeId) : list WireEnvelope :=
  concat ((λ p, if decide (n = p.1) then p.2 else []) <$> l).
Lemma batches_for_cons m x l n :
  batches_for ((m, x) :: l) n = (if decide (n = m) then x else []) ++ batches_for l n.
Proof. done. Qed.
Lemma batches_for_notin l n : n ∉ l.*1 → batches_for l n = [].
Proof.
  induction l as [|[m x] l IH]; [done|]. rewrite batches_for_cons. simpl.
  intros [? ?]%not_elem_of_cons. rewrite decide_False by done. by apply IH.
Qed.
Lemma batches_for_in l n x : NoDup l.*1 → (n, x) ∈ l → batches_for l n = x.
Proof.
  induction l as [|[m y] l IH]; [by intros _ ?%elem_of_nil|]. rewrite batches_for_cons. simpl.
  intros [Hm Hnd]%NoDup_cons [Heq|Hin]%elem_of_cons.
  - injection Heq as -> ->. rewrite decide_True, batches_for_notin by done. apply app_nil_r.
  - rewrite decide_False; [by apply IH|]. intros ->. destruct Hm.
    apply list_elem_of_fmap. by exists (m, x).
Qed.
Lemma batches_for_map (m : gmap NodeId (list WireEnvelope)) n :
  batches_for (map_to_list m) n = default [] (m !! n).
Proof.
  destruct (m !! n) as [x|] eqn:E; simpl.
  - apply batches_for_in; [apply NoDup_fst_map_to_list | by apply elem_of_map_to_list].
  - apply batches_for_notin. intros ([k x] & -> & Hin)%list_elem_of_fmap.
    apply elem_of_map_to_list in Hin. simpl in *. congruence.
Qed.

Lemma flush_batches_hands b all e w : hands (batches_for all) w (flush_batches to_vec b all e w).2.
Proof.
  revert e w. induction all as [|[m l] all IH]; intros e w; simpl; [apply hands_nil|].
  destruct l as [|x l].
  { destruct (IH e w) as [Hd Hwf]. split; [|done]. intros n. rewrite Hd.
    unfold batches_for. simpl. by case_decide. }
  pose proof (send_batch_hands b m (x :: l) w ltac:(done)) as [Hd Hwf].
  destruct (send_batch _ b m (x :: l) w) as [r w1]. simpl in Hd, Hwf.
  assert (∀ e', hands (batches_for ((m, x :: l) :: all)) w (flush_batches to_vec b all e' w1).2)
    as Hgoal.
  { intros e'. destruct (IH e' w1) as [Hd' Hwf']. split; [|by auto].
    intros n. rewrite Hd', Hd, <-app_assoc. done. }
  destruct r; apply Hgoal.
Qed.

(** *** One step *)
Definition bounded_buffers (b : BatchedTransportSender T) : Prop :=
  ∀ n, length (buffered n b) < 1 `max` max_items (bs_config b).

(** The effect of a step that accepts [acc n] for each node [n]. *)
Definition step_ok (acc : NodeId → list WireEnvelope) (b : BatchedTransportSender T) (w : W)
    (res : result TransportError () * BatchedTransportSender T * W) : Prop :=
  let '(_, b', w') := res in
  (∀ n, delivered n w' ++ buffered n b' = delivered n w ++ buffered n b ++ acc n) ∧
  (Forall batch_wf (tlog w) → Forall batch_wf (tlog w')) ∧
  bs_config b' = bs_config b ∧ (bounded_buffers b → bounded_buffers b').

(** Setting the buffer of [m] to [l]. *)
Lemma buffered_insert n m l b :
  buffered n (with_buffers <[m := l]> b) = if decide (m = n) then l else buffered n b.
Proof.
  unfold buffered, with_buffers. simpl.
  by destruct (decide (m = n)) as [<-|?]; [rewrite lookup_insert_eq | rewrite lookup_insert_ne].
Qed.
Lemma buffered_delete n m b :
  buffered n (with_buffers (delete m) b) = if decide (m = n) then [] else buffered n b.
Proof.
  unfold buffered, with_buffers. simpl.
  by destruct (decide (m = n)) as [<-|?]; [rewrite lookup_delete_eq | rewrite lookup_delete_ne].
Qed.
Lemma bounded_insert m l b :
  length l < 1 `max` max_items (bs_config b) → bounded_buffers b →
  bounded_buffers (with_buffers <[m := l]> b).
Proof. intros Hl Hb n. rewrite buffered_insert. case_decide; [done | apply Hb]. Qed.

Lemma batched_send_ok e b w :
  step_ok (λ n, accepted n (BSend e)) b w (batched_send to_vec e b w).
Proof.
  unfold batched_send, accepted, step_ok. case_decide as Hm.
  { split_and!; [|done..]. intros n. rewrite decide_False by tauto. by rewrite app_nil_r. }
  assert (send_mode e = Tell) as Htell by (by destruct (send_mode e); try by destruct Hm).
  set (m := node (target e)). fold (buffered m b).
  destruct (Nat.leb_spec (max_items (bs_config b)) (length (buffered m b ++ [e]))) as [Hle|Hgt].
  - pose proof (send_batch_hands (with_buffers <[m := []]> b) m (buffered m b ++ [e]) w
      ltac:(by intros [_ ?]%app_nil)) as [Hd Hwf].
    destruct (send_batch _ _ m _ w) as [r w1]. simpl in Hd, Hwf.
    split_and!; [|done|done | intros; apply bounded_insert; simpl; lia || done].
    intros n. rewrite Hd, buffered_insert. destruct (decide (m = n)) as [<-|Hne].
    + rewrite !decide_True by done. by rewrite app_nil_r.
    + rewrite !decide_False by naive_solver. by rewrite !app_nil_r.
  - split_and!; [|done|done | intros; by apply bounded_insert; [lia|]].
    intros n. rewrite buffered_insert. destruct (decide (m = n)) as [<-|Hne].
    + by rewrite decide_True.
    + rewrite decide_False by naive_solver. by rewrite app_nil_r.
Qed.
Lemma flush_node_ok m b w : step_ok (const []) b w (flush_node to_vec m b w).
Proof.
  unfold flush_node, step_ok. fold (buffered m b).
  assert (bounded_buffers b → bounded_buffers (with_buffers (delete m) b)) as Hbb.
  { intros Hb n. rewrite buffered_delete. case_decide; [simpl; lia | apply Hb]. }
  destruct (buffered m b) as [|x l] eqn:Hl.
  - split_and!; [|done..]. intros n. unfold const. rewrite app_nil_r, buffered_delete.
    case_decide; [|done]. by subst; rewrite Hl.
  - pose proof (send_batch_hands (with_buffers (delete m) b) m (x :: l) w ltac:(done)) as [Hd Hwf].
    destruct (send_batch _ _ m _ w) as [r w1]. simpl in Hd, Hwf. split_and!; [|done..].
    intros n. unfold const. rewrite Hd, app_nil_r, buffered_delete.
    destruct (decide (n = m)) as [->|Hne].
    + by rewrite decide_True, Hl, app_nil_r.
    + by rewrite decide_False, app_nil_r.
Qed.
Lemma flush_all_ok b w : step_ok (const []) b w (flush_all to_vec b w).
Proof.
  unfold flush_all, step_ok. pose proof (flush_batches_hands (with_buffers (const ∅) b)
    (map_to_list (buffers b)) None w) as [Hd Hwf].
  destruct (flush_batches _ _ _ _ _) as [e w1]. simpl in Hd, Hwf. split_and!; [|done|done|].
  - intros n. unfold const. by rewrite Hd, batches_for_map, !app_nil_r.
  - intros _ n. unfold buffered, with_buffers, const. simpl. rewrite lookup_empty. simpl. lia.
Qed.
Lemma flush_all_buffers b w n : buffered n (flush_all to_vec b w).1.2 = [].
Proof.
  unfold flush_all. destruct (flush_batches _ _ _ _ _). unfold buffered, with_buffers, const. simpl.
  by rewrite lookup_empty.
Qed.
Lemma batch_step_ok o b w : step_ok (λ n, accepted n o) b w (batch_step o b w).
Proof. destruct o; [apply batched_send_ok | apply flush_node_ok | apply flush_all_ok]. Qed.

Lemma batch_run_ok ops b w :
  let '(b', w') := batch_run ops b w in
  (∀ n, delivered n w' ++ buffered n b' = delivered n w ++ buffered n b ++ accepted_all n ops) ∧
  (Forall batch_wf (tlog w) → Forall batch_wf (tlog w')) ∧
  bs_config b' = bs_config b ∧ (bounded_buffers b → bounded_buffers b').
Proof.
  revert b w. induction ops as [|o ops IH]; intros b w; simpl.
  { split_and!; [|done..]. intros n. by rewrite app_nil_r. }
  pose proof (batch_step_ok o b w) as Hs. destruct (batch_step o b w) as [[r b1] w1].
  destruct Hs as (Hd & Hwf & Hc & Hb). specialize (IH b1 w1).
  destruct (batch_run ops b1 w1) as [b2 w2]. destruct IH as (Hd2 & Hwf2 & Hc2 & Hb2).
  split_and!; [|auto|congruence|auto].
  intros n. rewrite Hd2, app_assoc, Hd, <-!app_assoc. done.
Qed.
End batched_lemmas.

(** ** Properties *)
Module Spec.
Section spec.
Context {T W : Type} `{TransportLog T W}.
Context (to_vec : WireEnvelopeBatch → result string bytes)
  (from_slice : bytes → result string WireEnvelopeBatch).
Context (serde_roundtrip : ∀ l, ∃ x, to_vec l = Ok x ∧ from_slice x = Ok l).

(** C15. Batching is transparent: over any sequence of sends and flushes, what the
    receiving node unpacks from the batches handed to the transport, followed
    by what is still buffered for it, is exactly the sequence of tells accepted
    for that node, in order; a flush leaves nothing buffered. Every batch on
    the wire is marked as one, addressed to its node and not empty, and a
    buffer never reaches [max_items] (or one, if that is zero). *)
Theorem batched_delivery (ops : list batch_op) (t : T) (cfg : BatchConfig) (w : W)
    (Hlog : tlog w = []) :
  let '(b, w') := batch_run to_vec ops (BatchedTransportSender_new t cfg) w in
  (∀ n, delivered from_slice n w' ++ buffered n b = accepted_all n ops) ∧
  (∀ n, delivered from_slice n (flush_all to_vec b w').2 = accepted_all n ops) ∧
  Forall (batch_wf from_slice) (tlog w') ∧
  (∀ n, length (buffered n b) < 1 `max` max_items cfg).
Proof.
  pose proof (batch_run_ok to_vec from_slice serde_roundtrip ops (BatchedTransportSender_new t cfg) w)
    as Hrun.
  destruct (batch_run _ ops _ w) as [b w']. destruct Hrun as (Hd & Hwf & Hc & Hb).
  assert (∀ n, delivered from_slice n w' ++ buffered n b = accepted_all n ops) as Hdel.
  { intros n. rewrite Hd. unfold delivered. by rewrite Hlog. }
  split_and!; [done| | |].
  - intros n. pose proof (flush_all_ok to_vec from_slice serde_roundtrip b w') as Hf.
    pose proof (flush_all_buffers to_vec b w' n) as Hn.
    destruct (flush_all to_vec b w') as [[r b2] w2]. destruct Hf as (Hf & _). simpl in Hn |- *.
    rewrite <-Hdel, <-(app_nil_r (delivered _ n w2)), <-Hn, Hf. unfold const. by rewrite app_nil_r.
  - apply Hwf. by rewrite Hlog.
  - assert (bounded_buffers (BatchedTransportSender_new t cfg)) as Hb0.
    { intros m. unfold buffered. simpl. rewrite lookup_empty. simpl. lia. }
    intros n. specialize (Hb Hb0 n). by rewrite Hc in Hb.
Qed.
End spec.

(** A transport that records, and cannot reach the node [down]; batches are
    serialized by the codec of a countable type. *)
Definition record_send (_ : ()) (n : NodeId) (e : WireEnvelope) (w : list (NodeId * WireEnvelope)) :
    result TransportError () * list (NodeId * WireEnvelope) :=
  (if decide (n = mkNodeId "down") then Err (mkTransportError "unreachable") else Ok (),
   w ++ [(n, e)]).
#[local] Instance recorder : Transport () (list (NodeId * WireEnvelope)) :=
  Build_Transport _ _ record_send.
#[local] Instance recorder_log : TransportLog () (list (NodeId * WireEnvelope)).
Proof. refine (Build_TransportLog _ _ _ id _). done. Defined.

Import CountableCodec.
#[local] Instance SendMode_countable : Countable SendMode.
Proof.
  by refine (inj_countable' send_mode_to_proto
    (λ z, match send_mode_from_proto z with Ok m => m | Err _ => Tell end) _); intros [].
Defined.
#[local] Instance WireEnvelope_countable : Countable WireEnvelope.
Proof.
  by refine (inj_countable'
    (λ e, (target e, target_name e, message_type e, send_mode e, entries (headers e), body e,
           request_id e, version e))
    (λ p, mkWireEnvelope p.1.1.1.1.1.1.1 p.1.1.1.1.1.1.2 p.1.1.1.1.1.2 p.1.1.1.1.2
            (mkWireHeaders p.1.1.1.2) p.1.1.2 p.1.2 p.2) _); intros [? ? ? ? [] ? ? ?].
Defined.
Definition demo_to_vec (b : WireEnvelopeBatch) : result string bytes :=
  Ok (bits_of (countable.encode (envelopes b))).
Definition demo_from_slice (x : bytes) : result string WireEnvelopeBatch :=
  mkBatch <$> ok_or (countable.decode (of_bits x)) "malformed".
Lemma demo_serde l : ∃ x, demo_to_vec l = Ok x ∧ demo_from_slice x = Ok l.
Proof.
  destruct l as [l]. eexists. split; [done|]. unfold demo_from_slice.
  by rewrite of_bits_of, countable.decode_encode.
Qed.

Definition tell_to (n : string) (i : N) : WireEnvelope :=
  mkWireEnvelope (mkActorId (mkNodeId n) i) "a" "M" Tell WireHeaders_new [] None None.
Definition demo_ops : list batch_op :=
  [BSend (tell_to "up" 1); BSend (tell_to "down" 2); BSend (tell_to "up" 3); BSend (tell_to "up" 4);
   BFlushNode (mkNodeId "down"); BSend (tell_to "down" 5)].

Lemma batched_delivery_witness :
  let '(b, w) := batch_run demo_to_vec demo_ops (BatchedTransportSender_new () (mkBatchConfig 2 5)) []
    in
  length w = 2 ∧ delivered demo_from_slice (mkNodeId "up") w = [tell_to "up" 1; tell_to "up" 3] ∧
  buffered (mkNodeId "up") b = [tell_to "up" 4] ∧
  delivered demo_from_slice (mkNodeId "up") w ++ buffered (mkNodeId "up") b =
    accepted_all (mkNodeId "up") demo_ops.
Proof.
  pose proof (batched_delivery demo_to_vec demo_from_slice demo_serde demo_ops ()
    (mkBatchConfig 2 5) [] eq_refl) as Hd.
  destruct (batch_run _ demo_ops _ _) as [b w] eqn:Hrun. destruct Hd as (Hd & _).
  vm_compute in Hrun. injection Hrun as <- <-.
  split_and!; [vm_compute; reflexivity..|]. apply Hd.
Defined.

End Spec.
