(* ===== verification/RemoteRef.v ===== *)
(** * Remote actor references (dactor/src/remote_ref.rs)

    [RemoteActorRef]: the outbound pipeline, [tell] and [ask] with the tasks
    they spawn, the builder, and [ActorRefEnvelope]. A message type is a value
    of [M] with its [TypeId] and its name; replies are collected in [R]. The
    methods of the transport are tasks of their own. *)
From S2P Require Import Prelude Node Message Interceptor Actor TypeRegistry Transport Task.
From Stdlib Require Import Ascii Strings.Byte.

#[local] Open Scope string_scope.
#[local] Open Scope list_scope.
#[local] Open Scope nat_scope.

(** The async methods of the [Transport] trait this file calls. *)
Class AsyncTransport (T W : Type) := {
  async_send : T → NodeId → WireEnvelope → Task () W (result TransportError ());
  async_request : T → NodeId → WireEnvelope → Task () W (result TransportError WireEnvelope)
}.
(** What the tasks need of the world: timers, the reply channels, fresh request
    ids, the order in which [tokio::select!] polls its branches, and the log. *)
Class RemoteWorld (W R : Type) := {
  rw_timer : N → W → W;
  rw_oneshot : W → N * W;
  rw_reply : N → result RuntimeError R → W → W;
  rw_uuid : W → Uuid * W;
  token_first : W → bool;
  rw_log_error : TransportError → W → W
}.

(** [select! { r = fut => Some(r), _ = token.cancelled() => None }] without
    [biased]: at every poll either branch may go first. *)
Fixpoint select_random {L W X} (token_goes_first : W → bool) (token : W → bool) (t : Task L W X) :
    Task L W (option X) :=
  match t with
  | Await f => Await (λ l w,
      if token_goes_first w && token w then (l, w, Ready None)
      else match f l w with
           | (l, w, Ready x) => (l, w, Ready (Some x))
           | (l, w, Panicked) => (l, w, Panicked)
           | (l, w, Pending k) =>
               if token w then (l, w, Ready None)
               else (l, w, Pending (select_random token_goes_first token k))
           end)
  end.

Section remote.
Context {T W M R Item : Type} `{AsyncTransport T W} `{RemoteWorld W R}.
(** [TypeId::of::<M>()] and [type_name::<M>()] of a message, and the type of
    its reply. [duration_debug] is the [{:?}] of a duration. *)
Context (type_id msg_type_name reply_type : M → string) (duration_debug : N → string).

(** ** The reference *)
Definition SerializeFn := M → result SerializationError (string * bytes).
Definition DeserializeReplyFn := bytes → result SerializationError (AnyBox R).
Record AskEntry := mkAskEntry { serialize : SerializeFn; deserialize_reply : DeserializeReplyFn }.

Record RemoteActorRef := mkRemoteActorRef {
  rr_id : ActorId;
  rr_name : string;
  rr_transport : T;
  tell_serializers : gmap string SerializeFn;
  ask_entries : gmap string AskEntry;
  rr_interceptors : list (OutboundInterceptor W M Item R)
}.

Inductive PipelineResult := PipelineContinue | PipelineDelay (d : N) | PipelineDropped.

Definition target_node (r : RemoteActorRef) : NodeId := node (rr_id r).

Definition remote_context (r : RemoteActorRef) (message_type : string) (mode : SendMode) :
    OutboundContext :=
  mkOutboundContext (rr_id r) (rr_name r) message_type mode true.
(** The [for] over [on_send]; [headers] is the [&mut Headers]. *)
Fixpoint pipeline_loop (ctx : OutboundContext) (message : M)
    (ics : list (OutboundInterceptor W M Item R)) (delay : option N) (headers : Headers) (w : W) :
    result ActorSendError PipelineResult * Headers * W :=
  match ics with
  | [] =>
      (Ok (match delay with Some d => PipelineDelay d | None => PipelineContinue end), headers, w)
  | interceptor :: rest =>
      let '(disp, headers, w) := on_send interceptor ctx headers message w in
      match disp with
      | Continue => pipeline_loop ctx message rest delay headers w
      | Reject reason =>
          (Err (mkActorSendError ("rejected by outbound interceptor '" +:+ out_name interceptor
                                  +:+ "': " +:+ reason)), headers, w)
      | Drop => (Ok PipelineDropped, headers, w)
      | Delay d =>
          pipeline_loop ctx message rest
            (Some (match delay with
                   | Some existing => if (d <? existing)%N then existing else d
                   | None => d
                   end)) headers w
      | Retry retry_after =>
          (Err (mkActorSendError ("retry after " +:+ duration_debug retry_after
                                  +:+ " (from outbound interceptor '" +:+ out_name interceptor
                                  +:+ "')")), headers, w)
      end
  end.
Definition run_outbound_pipeline (r : RemoteActorRef) (mode : SendMode) (headers : Headers)
    (message : M) (w : W) : result ActorSendError PipelineResult * Headers * W :=
  match rr_interceptors r with
  | [] => (Ok PipelineContinue, headers, w)
  | ics => pipeline_loop (remote_context r (msg_type_name message) mode) message ics None headers w
  end.

(** [is_alive] assumes it; [stop] only logs. *)
Definition remote_is_alive (r : RemoteActorRef) : bool := true.
Definition remote_stop (r : RemoteActorRef) (w : W) : W := w.

Definition remote_envelope (r : RemoteActorRef) (mode : SendMode) (headers : Headers)
    (body : string * bytes) (request_id : option Uuid) : WireEnvelope :=
  mkWireEnvelope (rr_id r) (rr_name r) body.1 mode (to_wire headers) body.2 request_id None.
Definition not_registered (what : string) (r : RemoteActorRef) (msg : M) : ActorSendError :=
  mkActorSendError (what +:+ " '" +:+ msg_type_name msg +:+ "' not registered for remote send to "
                    +:+ ActorId_display (rr_id r)).
Definition serialized (f : SerializeFn) (msg : M) : result ActorSendError (string * bytes) :=
  map_err (λ e, mkActorSendError ("serialization failed: " +:+ ser_message e)) (f msg).
Definition delay_of (p : PipelineResult) : option N :=
  match p with PipelineDelay d => Some d | _ => None end.

Definition sleep_if (delay : option N) : Task () W () :=
  match delay with
  | Some d => _ ← sync (λ l w, (l, rw_timer d w, ())); yield_now
  | None => mret ()
  end.

(** ** tell: the result, and the task it spawns *)
Definition tell_task (r : RemoteActorRef) (delay : option N) (envelope : WireEnvelope) :
    Task () W () :=
  _ ← sleep_if delay;
  res ← async_send (rr_transport r) (target_node r) envelope;
  sync (λ l w, (l, match res with Err e => rw_log_error e w | Ok _ => w end, ())).
Definition remote_tell (r : RemoteActorRef) (msg : M) (w : W) :
    result ActorSendError () * option (Task () W ()) * W :=
  let '(pipeline_result, headers, w) := run_outbound_pipeline r Tell Headers_new msg w in
  match pipeline_result with
  | Err e => (Err e, None, w)
  | Ok PipelineDropped => (Ok (), None, w)
  | Ok pipeline_result =>
      match tell_serializers r !! type_id msg with
      | None => (Err (not_registered "message type" r msg), None, w)
      | Some serializer =>
          match serialized serializer msg with
          | Err e => (Err e, None, w)
          | Ok body =>
              (Ok (), Some (tell_task r (delay_of pipeline_result)
                              (remote_envelope r Tell headers body None)), w)
          end
      end
  end.

(** ** ask: the reply channel, and the task it spawns *)
Definition notify_interceptors (r : RemoteActorRef) (msg : M) (request_headers : Headers)
    (outcome : Outcome R) (w : W) : W :=
  match rr_interceptors r with
  | [] => w
  | ics =>
      foldl (λ w i, on_reply i (remote_context r (msg_type_name msg) Ask) request_headers outcome w)
        w ics
  end.
Definition ask_failed (r : RemoteActorRef) (msg : M) (request_headers : Headers) (tx : N)
    (error_msg : string) (w : W) : W :=
  let w := notify_interceptors r msg request_headers (HandlerError (ActorError_internal error_msg)) w in
  rw_reply tx (Err (RSend (mkActorSendError error_msg))) w.
(** What is done with the answer of the transport. *)
Definition finish_ask (r : RemoteActorRef) (msg : M) (request_headers : Headers)
    (deserialize_reply : DeserializeReplyFn) (tx : N) (res : result TransportError WireEnvelope)
    (w : W) : W :=
  match res with
  | Ok reply_envelope =>
      match deserialize_reply (body reply_envelope) with
      | Ok any_reply =>
          match downcast (reply_type msg) any_reply with
          | Some reply =>
              let w := notify_interceptors r msg request_headers (AskSuccess reply) w in
              rw_reply tx (Ok reply) w
          | None => rw_reply tx (Err (RSend (mkActorSendError "reply type mismatch"))) w
          end
      | Err e =>
          ask_failed r msg request_headers tx ("reply deserialization failed: " +:+ ser_message e) w
      end
  | Err e => ask_failed r msg request_headers tx ("remote ask failed: " +:+ TransportError_display e) w
  end.
Definition ask_task (r : RemoteActorRef) (msg : M) (request_headers : Headers)
    (deserialize_reply : DeserializeReplyFn) (cancel : option (CancelToken W)) (delay : option N)
    (envelope : WireEnvelope) (tx : N) : Task () W () :=
  _ ← sleep_if delay;
  let request := async_request (rr_transport r) (target_node r) envelope in
  res ← match cancel with
        | Some cancel_token => select_random token_first cancel_token request
        | None => x ← request; mret (Some x)
        end;
  sync (λ l w, (l, match res with
                   | None => rw_reply tx (Err RCancelled) w
                   | Some res => finish_ask r msg request_headers deserialize_reply tx res w
                   end, ())).
(** The channel of the reply comes with the task. *)
Definition remote_ask (r : RemoteActorRef) (msg : M) (cancel : option (CancelToken W)) (w : W) :
    result ActorSendError (N * Task () W ()) * W :=
  let '(pipeline_result, headers, w) := run_outbound_pipeline r Ask Headers_new msg w in
  match pipeline_result with
  | Err e => (Err e, w)
  | Ok PipelineDropped => (Err (mkActorSendError "message dropped by outbound interceptor"), w)
  | Ok pipeline_result =>
      match ask_entries r !! type_id msg with
      | None => (Err (not_registered "ask message type" r msg), w)
      | Some entry =>
          match serialized (serialize entry) msg with
          | Err e => (Err e, w)
          | Ok body =>
              let '(request_id, w) := rw_uuid w in
              let '(tx, w) := rw_oneshot w in
              (Ok (tx, ask_task r msg headers (deserialize_reply entry) cancel
                         (delay_of pipeline_result)
                         (remote_envelope r Ask headers body (Some request_id)) tx), w)
          end
      end
  end.

(** ** Streams are not implemented *)
Definition remote_expand {X} (r : RemoteActorRef) : result ActorSendError X :=
  Err (mkActorSendError "remote stream not yet implemented — requires streaming transport support").
Definition remote_reduce {X} (r : RemoteActorRef) : result ActorSendError X :=
  Err (mkActorSendError "remote feed not yet implemented — requires streaming transport support").
Definition remote_transform {X} (r : RemoteActorRef) : result ActorSendError X :=
  Err (mkActorSendError "remote transform not yet implemented — requires streaming transport support").

(** ** The builder: the reference under construction *)
Definition RemoteActorRefBuilder := RemoteActorRef.
Definition Builder_new (id : ActorId) (name : string) (transport : T) : RemoteActorRefBuilder :=
  mkRemoteActorRef id name transport ∅ ∅ [].
Definition Builder_add_outbound_interceptor (interceptor : OutboundInterceptor W M Item R)
    (b : RemoteActorRefBuilder) : RemoteActorRefBuilder :=
  mkRemoteActorRef (rr_id b) (rr_name b) (rr_transport b) (tell_serializers b) (ask_entries b)
    (rr_interceptors b ++ [interceptor]).
Definition named (type_name : string) (ser : M → result SerializationError bytes) : SerializeFn :=
  λ m, b ← ser m; Ok (type_name, b).
Definition register_tell_with (ty type_name : string) (ser : M → result SerializationError bytes)
    (b : RemoteActorRefBuilder) : RemoteActorRefBuilder :=
  mkRemoteActorRef (rr_id b) (rr_name b) (rr_transport b)
    (<[ty := named type_name ser]> (tell_serializers b)) (ask_entries b) (rr_interceptors b).
Definition register_ask_with (ty type_name : string) (ser : M → result SerializationError bytes)
    (deser : DeserializeReplyFn) (b : RemoteActorRefBuilder) : RemoteActorRefBuilder :=
  mkRemoteActorRef (rr_id b) (rr_name b) (rr_transport b) (tell_serializers b)
    (<[ty := mkAskEntry (named type_name ser) deser]> (ask_entries b)) (rr_interceptors b).

(** With serde, for the message type with id [ty]: [to_vec] and [from_slice] are
    [serde_json] on the message and on its reply. *)
Definition json_serialize (ty who : string) (to_vec : M → result string bytes) :
    M → result SerializationError bytes :=
  λ m, if decide (type_id m = ty)
       then map_err (λ e, SerializationError_new ("json serialize: " +:+ e)) (to_vec m)
       else Err (SerializationError_new ("type downcast failed in " +:+ who +:+ " serializer")).
Definition register_tell (ty type_name : string) (to_vec : M → result string bytes) :
    RemoteActorRefBuilder → RemoteActorRefBuilder :=
  register_tell_with ty type_name (json_serialize ty "tell" to_vec).
Definition register_ask (ty type_name reply_ty : string) (to_vec : M → result string bytes)
    (from_slice : bytes → result string R) : RemoteActorRefBuilder → RemoteActorRefBuilder :=
  register_ask_with ty type_name (json_serialize ty "ask" to_vec) (λ b,
    reply ← map_err (λ e, SerializationError_new ("json deserialize reply: " +:+ e)) (from_slice b);
    Ok (mkAny reply_ty reply)).
Definition Builder_build (b : RemoteActorRefBuilder) : RemoteActorRef := b.

(** ** ActorRefEnvelope *)
Record ActorRefEnvelope := mkActorRefEnvelope {
  re_actor_id : ActorId; re_actor_name : string; re_actor_type : string
}.
Record ActorRefTypeMismatch := mkTypeMismatch { expected : string; actual : string }.
Definition ActorRefTypeMismatch_display (e : ActorRefTypeMismatch) : string :=
  "ActorRef type mismatch: expected '" +:+ expected e +:+ "', got '" +:+ actual e +:+ "'".
(** [A] is the type name of the actor. *)
Definition ActorRefEnvelope_from_ref (A : string) (r : RemoteActorRef) : ActorRefEnvelope :=
  mkActorRefEnvelope (rr_id r) (rr_name r) A.
Definition into_builder_unchecked (transport : T) (e : ActorRefEnvelope) : RemoteActorRefBuilder :=
  Builder_new (re_actor_id e) (re_actor_name e) transport.
Definition try_into_builder (A : string) (transport : T) (e : ActorRefEnvelope) :
    result ActorRefTypeMismatch RemoteActorRefBuilder :=
  if decide (re_actor_type e = A) then Ok (into_builder_unchecked transport e)
  else Err (mkTypeMismatch A (re_actor_type e)).
Definition is_type (A : string) (e : ActorRefEnvelope) : bool := bool_decide (re_actor_type e = A).

(** [&s[..128]]: [None] is the panic when byte 128 continues a character. *)
Definition is_continuation_byte (c : ascii) : bool :=
  ((128 <=? N_of_ascii c) && (N_of_ascii c <? 192))%N.
Definition truncate_128 (s : string) : option string :=
  if (128 <? String.length s)
  then match String.get 128 s with
       | Some c => if is_continuation_byte c then None else Some (String.substring 0 128 s)
       | None => None
       end
  else Some s.
Definition ActorRefEnvelope_display (e : ActorRefEnvelope) : option string :=
  name ← truncate_128 (re_actor_name e);
  atype ← truncate_128 (re_actor_type e);
  Some ("ActorRef(" +:+ ActorId_display (re_actor_id e) +:+ ", name=" +:+ name +:+ ", type="
        +:+ atype +:+ ")").
End remote.
Arguments RemoteActorRef : clear implicits.
Arguments AskEntry : clear implicits.

(** ** Lemmas *)
Section pipeline_lemmas.
Context {W M R Item : Type}.
Abbreviation Interceptor := (OutboundInterceptor W M Item R).
Context (duration_debug : N → string) (ctx : OutboundContext) (msg : M).

(** Hooks that let the message pass: the delays they ask for, and what they
    make of the headers. *)
Inductive passes : list Interceptor → Headers → W → list N → Headers → W → Prop :=
  | passes_nil h w : passes [] h w [] h w
  | passes_continue i ics h w h1 w1 ds h2 w2 :
      on_send i ctx h msg w = (Continue, h1, w1) →
      passes ics h1 w1 ds h2 w2 → passes (i :: ics) h w ds h2 w2
  | passes_delay i ics h w d h1 w1 ds h2 w2 :
      on_send i ctx h msg w = (Delay d, h1, w1) →
      passes ics h1 w1 ds h2 w2 → passes (i :: ics) h w (d :: ds) h2 w2.

(** The largest delay, if any was asked for. *)
Definition largest (acc : option N) (ds : list N) : option N :=
  foldl (λ acc d, Some (match acc with Some e => N.max e d | None => d end)) acc ds.
Definition delayed (o : option N) : PipelineResult :=
  match o with Some d => PipelineDelay d | None => PipelineContinue end.

(** How a hook stops the message. *)
Definition stopped (i : Interceptor) (disp : Disposition) : option (result ActorSendError PipelineResult) :=
  match disp with
  | Reject reason => Some (Err (mkActorSendError
      ("rejected by outbound interceptor '" +:+ out_name i +:+ "': " +:+ reason)))
  | Retry d => Some (Err (mkActorSendError
      ("retry after " +:+ duration_debug d +:+ " (from outbound interceptor '" +:+ out_name i +:+ "')")))
  | Drop => Some (Ok PipelineDropped)
  | _ => None
  end.

Lemma pipeline_cases ics delay h w :
  let '(res, h', w') := pipeline_loop duration_debug ctx msg ics delay h w in
  (∃ ds, passes ics h w ds h' w' ∧ res = Ok (delayed (largest delay ds))) ∨
  (∃ pre i post ds h1 w1 disp, ics = pre ++ i :: post ∧ passes pre h w ds h1 w1
     ∧ on_send i ctx h1 msg w1 = (disp, h', w') ∧ stopped i disp = Some res).
Proof.
  revert delay h w. induction ics as [|i ics IH]; intros delay h w; cbn [pipeline_loop].
  { left. exists []. split; [constructor|]. by destruct delay. }
  destruct (on_send i ctx h msg w) as [[disp h1] w1] eqn:Hi.
  destruct disp as [|d| |reason|d];
    try (right; exists [], i, ics, [], h, w; eexists; split_and!; [done|constructor|exact Hi|done]).
  - specialize (IH delay h1 w1). destruct (pipeline_loop _ _ _ ics delay h1 w1) as [[res h'] w'].
    destruct IH as [(ds & Hp & ->)|(pre & j & post & ds & h2 & w2 & disp & -> & Hp & ?)].
    + left. exists ds. split; [by econstructor|done].
    + right. exists (i :: pre), j, post, ds, h2, w2, disp. split; [done|]. split; [by econstructor|done].
  - set (delay' := Some _). specialize (IH delay' h1 w1).
    destruct (pipeline_loop _ _ _ ics delay' h1 w1) as [[res h'] w'].
    destruct IH as [(ds & Hp & ->)|(pre & j & post & ds & h2 & w2 & disp & -> & Hp & ?)].
    + left. exists (d :: ds). split; [by econstructor|]. unfold largest. simpl. do 3 f_equal.
      unfold delay'. destruct delay as [e|]; [|done]. f_equal. destruct (N.ltb_spec d e); lia.
    + right. exists (i :: pre), j, post, (d :: ds), h2, w2, disp. split; [done|]. split; [by econstructor|done].
Qed.
Lemma pipeline_passes ics h w ds h' w' delay :
  passes ics h w ds h' w' →
  pipeline_loop duration_debug ctx msg ics delay h w = (Ok (delayed (largest delay ds)), h', w').
Proof.
  intros Hp. revert delay. induction Hp as [h w|i ics h w h1 w1 ds h2 w2 Hi Hp IH|i ics h w d h1 w1 ds h2 w2 Hi Hp IH];
    intros delay; cbn [pipeline_loop]; [by destruct delay|rewrite Hi; apply IH|].
  rewrite Hi, IH. unfold largest. simpl. do 5 f_equal.
  destruct delay as [e|]; [|done]. f_equal. destruct (N.ltb_spec d e); lia.
Qed.
Lemma largest_max acc ds :
  match largest acc ds with
  | Some d => (acc = Some d ∨ d ∈ ds) ∧ (∀ e, e ∈ ds → (e <= d)%N) ∧ (∀ e, acc = Some e → (e <= d)%N)
  | None => acc = None ∧ ds = []
  end.
Proof.
  revert acc. induction ds as [|d ds IH]; intros acc; [destruct acc; set_solver|].
  change (largest acc (d :: ds)) with (largest (Some (match acc with Some e => N.max e d | None => d end)) ds).
  specialize (IH (Some (match acc with Some e => N.max e d | None => d end))).
  destruct (largest _ ds) as [m|]; [|by destruct IH]. destruct IH as (Hin & Hle & Hacc).
  specialize (Hacc _ eq_refl). split_and!.
  - destruct Hin as [[= <-]|?]; [|right; by right]. destruct acc as [e|]; [|right; by left].
    destruct (N.max_spec e d) as [[_ ->]|[_ ->]]; [right; by left|by left].
  - intros e [->|?]%elem_of_cons; [destruct acc; lia|auto].
  - intros e ->. lia.
Qed.
End pipeline_lemmas.

Section task_lemmas.
Context {T W M R Item : Type} `{AsyncTransport T W} `{RemoteWorld W R}.
Abbreviation Remote := (RemoteActorRef T W M R Item).
Implicit Types r : Remote.
Context (type_id msg_type_name reply_type : M → string) (duration_debug : N → string).

Lemma run_pipeline_loop r mode h msg w :
  run_outbound_pipeline msg_type_name duration_debug r mode h msg w
  = pipeline_loop duration_debug (remote_context r (msg_type_name msg) mode) msg
      (rr_interceptors r) None h w.
Proof. unfold run_outbound_pipeline. by destruct (rr_interceptors r). Qed.
Lemma delay_of_delayed o : delay_of (delayed o) = o.
Proof. by destruct o. Qed.

(** The pause before a request. *)
Definition paused (env : nat → W → W) (delay : option N) (n : nat) (w : W) : nat * W :=
  match delay with Some d => (S n, env n (rw_timer d w)) | None => (n, w) end.
Lemma run_sleep env delay n l w :
  run env n (sleep_if delay) l w
  = mkRan (paused env delay n w).1 l (paused env delay n w).2 (Some ()).
Proof. destruct delay; [|done]. unfold sleep_if. by rewrite run_bind. Qed.

Lemma run_tell env delay r e n w :
  let '(n1, w1) := paused env delay n w in
  let sent := run env n1 (async_send (rr_transport r) (node (rr_id r)) e) () w1 in
  run env n (tell_task r delay e) () w
  = mkRan (tick sent) (loc sent)
      (match out sent with Some (Err e) => rw_log_error e (world sent) | _ => world sent end)
      (const () <$> out sent).
Proof.
  destruct (paused env delay n w) as [n1 w1] eqn:Hp. unfold tell_task.
  rewrite run_bind, run_sleep, Hp. unfold run_then. simpl. rewrite run_bind. unfold run_then.
  destruct (run env n1 (async_send _ _ _) () w1) as [m l w2 [res|]]; simpl; [|done].
  by destruct res.
Qed.

Lemma hoare_select_random {L X} P I (Q : X → L → W → Prop) first token t :
  (∀ l w, P l w → I l w) → hoare P I Q t →
  hoare P I (λ o l w, match o with Some x => Q x l w | None => I l w ∧ token w = true end)
    (select_random first token t).
Proof.
  intros HPI. assert (∀ t, keeps I Q t → keeps I
    (λ o l w, match o with Some x => Q x l w | None => I l w ∧ token w = true end)
    (select_random first token t)) as Hkeeps.
  { clear t. intros t. induction t as [f IH] using Task_poll_ind. simpl. intros Hk l w HI.
    destruct (first w && token w) eqn:Hf; [apply andb_true_iff in Hf as [_ ?]; done|].
    specialize (Hk l w HI). destruct (f l w) as [[l1 w1] [x| |k]] eqn:Hfl; [done..|].
    destruct Hk as [? Hk]. destruct (token w1) eqn:Ht; [done|]. split; [done|]. by eapply IH. }
  intros Ht l w HP. specialize (Ht l w HP). destruct t as [f]. simpl in *.
  destruct (first w && token w) eqn:Hf; [apply andb_true_iff in Hf as [_ ?]; auto|].
  destruct (f l w) as [[l1 w1] [x| |k]]; [done..|]. destruct Ht as [? Hk].
  destruct (token w1) eqn:Htk; auto.
Qed.
End task_lemmas.

(** What a caller and the interceptors see of an ask. *)
Inductive AskEvent (R : Type) :=
  | Replied (tx : N) (answer : result RuntimeError R)
  | Noted (outcome : Outcome R).
Arguments Replied {R}.
Arguments Noted {R}.

Section ask_events.
Context {T W M R Item : Type} (reply_type : M → string).
Abbreviation Remote := (RemoteActorRef T W M R Item).

(** Everyone is told, then the caller. *)
Definition announced (r : Remote) (outcome : Outcome R) (tx : N) (a : result RuntimeError R) :
    list (AskEvent R) :=
  ((λ _, Noted outcome) <$> rr_interceptors r) ++ [Replied tx a].
Definition failure (r : Remote) (tx : N) (text : string) : list (AskEvent R) :=
  announced r (HandlerError (ActorError_internal text)) tx (Err (RSend (mkActorSendError text))).
(** How an ask ends, by the answer of the transport; [None] is the token. *)
Definition ask_ending (r : Remote) (msg : M) (deser : DeserializeReplyFn (R := R)) (tx : N)
    (res : option (result TransportError WireEnvelope)) : list (AskEvent R) :=
  match res with
  | None => [Replied tx (Err RCancelled)]
  | Some (Err e) => failure r tx ("remote ask failed: " +:+ TransportError_display e)
  | Some (Ok reply_envelope) =>
      match deser (body reply_envelope) with
      | Err e => failure r tx ("reply deserialization failed: " +:+ ser_message e)
      | Ok any_reply =>
          if decide (any_type any_reply = reply_type msg)
          then announced r (AskSuccess (any_value any_reply)) tx (Ok (any_value any_reply))
          else [Replied tx (Err (RSend (mkActorSendError "reply type mismatch")))]
      end
  end.
End ask_events.

(** ** Properties *)
Module Spec.
Section spec.
Context {T W M R Item : Type} `{AsyncTransport T W} `{RemoteWorld W R}.
Abbreviation Remote := (RemoteActorRef T W M R Item).
Context (type_id msg_type_name reply_type : M → string) (duration_debug : N → string).

(** [RemoteActorRef::tell] on every branch. When every interceptor lets the
    message pass, it is serialised and one task is spawned, with the headers as
    the interceptors left them: the task sleeps for the largest delay any of them
    asked for, sends exactly that envelope to the node of the target and logs the
    transport's error. A missing serialiser and a serialisation error go back to
    the caller and nothing is spawned; so do a rejection and a retry, with the
    name of the first interceptor that stopped the message; a drop is silent. *)
Theorem remote_tell_spec (r : Remote) msg w :
  let ctx := remote_context r (msg_type_name msg) Tell in
  let '(res, task, w') := remote_tell type_id msg_type_name duration_debug r msg w in
  (∃ ds h, passes ctx msg (rr_interceptors r) Headers_new w ds h w' ∧
     match tell_serializers r !! type_id msg with
     | None => res = Err (not_registered msg_type_name "message type" r msg) ∧ task = None
     | Some ser =>
         match ser msg with
         | Err e => res = Err (mkActorSendError ("serialization failed: " +:+ ser_message e)) ∧ task = None
         | Ok body => res = Ok () ∧ ∃ t, task = Some t ∧ ∀ env n w0,
             let '(n1, w1) := paused env (largest None ds) n w0 in
             let sent := run env n1 (async_send (rr_transport r) (node (rr_id r))
                                       (remote_envelope r Tell h body None)) () w1 in
             run env n t () w0
             = mkRan (tick sent) (loc sent)
                 (match out sent with Some (Err e) => rw_log_error e (world sent) | _ => world sent end)
                 (const () <$> out sent)
         end
     end) ∨
  (∃ pre i post ds h1 w1 disp h', rr_interceptors r = pre ++ i :: post
     ∧ passes ctx msg pre Headers_new w ds h1 w1 ∧ on_send i ctx h1 msg w1 = (disp, h', w')
     ∧ task = None
     ∧ match stopped duration_debug i disp with
       | Some (Err e) => res = Err e
       | Some (Ok _) => res = Ok ()
       | None => False
       end).
Proof.
  intros ctx. unfold remote_tell. rewrite run_pipeline_loop. fold ctx.
  pose proof (pipeline_cases duration_debug ctx msg (rr_interceptors r) None Headers_new w) as Hc.
  destruct (pipeline_loop _ _ _ _ _ _ _) as [[pr h] w'].
  destruct Hc as [(ds & Hp & ->)|(pre & i & post & ds & h1 & w1 & disp & Hics & Hp & Hi & Hs)].
  - destruct (tell_serializers r !! type_id msg) as [ser|] eqn:Hser;
      [unfold serialized; destruct (ser msg) as [b|e] eqn:Hb|];
      destruct (largest None ds) as [d|] eqn:Hl; cbn [delayed map_err]; left; exists ds, h;
      (split; [done|]); try done;
      (split; [done|]); eexists; (split; [done|]); intros env n w0; rewrite Hl; apply (run_tell (R := R)).
  - destruct disp as [|d| |reason|d]; simpl in Hs; simplify_eq; right;
      exists pre, i, post, ds, h1, w1; eexists; exists h; by split_and!.
Qed.

(** *** Asking *)
Context (trace : W → list (AskEvent R)) (env : nat → W → W) (P : result TransportError WireEnvelope → Prop).
(** The events are what the reply channel and the hooks are told, and nothing
    else; the transport answers with [P]. *)
Record asking (r : Remote) : Prop := {
  ask_timer d w : trace (rw_timer d w) = trace w;
  ask_reply tx a w : trace (rw_reply tx a w) = trace w ++ [Replied tx a];
  ask_hook i ctx h o w : i ∈ rr_interceptors r → trace (on_reply i ctx h o w) = trace w ++ [Noted o];
  ask_env n w : trace (env n w) = trace w;
  ask_request n e a :
    keeps (λ _ w, trace w = a) (λ res _ w, trace w = a ∧ P res) (async_request (rr_transport r) n e)
}.

Lemma notify_trace r msg h outcome w :
  asking r →
  trace (notify_interceptors msg_type_name r msg h outcome w)
  = trace w ++ ((λ _, Noted outcome) <$> rr_interceptors r).
Proof.
  intros Ha. pose proof (ask_hook r Ha) as Hook. unfold notify_interceptors.
  assert (∀ ics w, (∀ i, i ∈ ics → i ∈ rr_interceptors r) →
    trace (foldl (λ w i, on_reply i (remote_context r (msg_type_name msg) Ask) h outcome w) w ics)
    = trace w ++ ((λ _, Noted outcome) <$> ics)) as Hf.
  { induction ics as [|i ics IH]; intros w0 Hin; simpl; [by rewrite app_nil_r|].
    rewrite IH by (intros; apply Hin; by right). rewrite Hook by (apply Hin; by left).
    by rewrite <-app_assoc. }
  destruct (rr_interceptors r) as [|i ics] eqn:Hics; [by rewrite app_nil_r|]. by apply Hf.
Qed.
Lemma finish_trace r msg h deser tx res w :
  asking r →
  trace (finish_ask msg_type_name reply_type r msg h deser tx res w)
  = trace w ++ ask_ending reply_type r msg deser tx (Some res).
Proof.
  intros Ha. unfold finish_ask, ask_ending, failure, announced, ask_failed.
  destruct res as [e|e]; [destruct (deser (body e)) as [any|se]|];
    rewrite ?(ask_reply r Ha), ?(notify_trace r) by done; try by rewrite <-app_assoc.
  unfold downcast. case_decide; rewrite ?(ask_reply r Ha), ?(notify_trace r) by done;
    by rewrite <-?app_assoc.
Qed.

(** C17. [RemoteActorRef::ask] answers once: whatever the other tasks do, the task
    of an ask sends exactly one answer on the caller's channel, unless the
    transport itself panics. It is the reply, or an error with its text, or
    [Cancelled], and the last only if the caller passed a token and it was set when
    the answer was sent. Each
    interceptor hears of the outcome exactly once and before the caller, of a
    success and of every failure but two: a reply of the wrong type, and a
    cancellation. *)
Theorem ask_answers_once (r : Remote) msg h deser cancel delay e tx n w :
  asking r →
  let end_ := run env n (ask_task msg_type_name reply_type r msg h deser cancel delay e tx) () w in
  match out end_ with
  | None => trace (world end_) = trace w
  | Some _ => ∃ res, trace (world end_) = trace w ++ ask_ending reply_type r msg deser tx res
      ∧ match res with
        | Some res => P res
        | None => ∃ token w', cancel = Some token ∧ token w' = true
            ∧ world end_ = rw_reply tx (Err RCancelled) w'
        end
  end.
Proof.
  intros Ha end_.
  set (before := λ (_ : ()) w', trace w' = trace w).
  set (after := λ (_ : ()) (_ : ()) w', ∃ res, trace w' = trace w ++ ask_ending reply_type r msg deser tx res
        ∧ match res with
          | Some res => P res
          | None => ∃ token w1, cancel = Some token ∧ token w1 = true ∧ w' = rw_reply tx (Err RCancelled) w1
          end).
  enough (hoare before before after (ask_task msg_type_name reply_type r msg h deser cancel delay e tx)) as Hh.
  { pose proof (run_hoare env before before after n _ () w
      (λ n l w' (H' : before l w'), eq_trans (ask_env r Ha n w') H') Hh eq_refl) as Hr.
    unfold end_. simpl in Hr. by destruct (out _). }
  unfold ask_task. apply (hoare_bind _ _ (λ _, before)).
  { destruct delay as [d|]; [|by apply hoare_ret].
    apply (hoare_bind _ _ (λ _, before)); [|intros []; by apply hoare_yield].
    apply hoare_sync. intros l w'. unfold before. by rewrite (ask_timer r Ha). }
  intros []. apply (hoare_bind _ _ (λ res _ w', trace w' = trace w
    ∧ match res with Some res => P res | None => ∃ token, cancel = Some token ∧ token w' = true end)).
  - pose proof (proj2 (hoare_keeps _ _ _) (ask_request r Ha (target_node r) e (trace w))) as Hreq.
    destruct cancel as [token|].
    + eapply hoare_mono; [|intros o l w'|by eapply (hoare_select_random before before)]; [done|].
      simpl. destruct o; [done|]. intros [Hb Ht]. split; [exact Hb|by exists token].
    + eapply hoare_bind; [exact Hreq|]. intros res. apply hoare_ret. auto.
  - intros res. apply hoare_sync. intros l w' [Ht Hres]. exists res. destruct res as [res|].
    + split; [by rewrite finish_trace, Ht|done].
    + split; [by rewrite (ask_reply r Ha), Ht|]. destruct Hres as (token & -> & Hset). by exists token, w'.
Qed.

(** C19. A remote tell arrives as it was sent: through a reference built with a
    registered message type, a message that the interceptors let pass and that
    serde can encode is put in an envelope for the target, with the headers the
    interceptors left, from which any registry that knows the type reads back
    the same message. *)
Theorem remote_tell_arrives ty name (to_vec : M → result string bytes)
    (from_slice : bytes → result string M) registry (b : Remote) msg bs ds h w w' :
  (∀ m bs, to_vec m = Ok bs → from_slice bs = Ok m) → knows name from_slice registry →
  type_id msg = ty → to_vec msg = Ok bs →
  passes (remote_context b (msg_type_name msg) Tell) msg (rr_interceptors b) Headers_new w ds h w' →
  let r := Builder_build (register_tell type_id ty name to_vec b) in
  ∃ e, remote_tell type_id msg_type_name duration_debug r msg w
       = (Ok (), Some (tell_task r (largest None ds) e), w')
    ∧ receive_envelope_body e registry = Ok (mkAny name msg)
    ∧ target e = rr_id b ∧ target_name e = rr_name b ∧ send_mode e = Tell ∧ headers e = to_wire h.
Proof.
  intros Hserde Hk Hty Hv Hp r. exists (remote_envelope r Tell h (name, bs) None).
  split; [|split_and!; try done].
  - unfold remote_tell. rewrite run_pipeline_loop.
    pose proof (pipeline_passes duration_debug _ _ _ _ _ _ _ _ None Hp) as Hpl.
    change (pipeline_loop duration_debug (remote_context r (msg_type_name msg) Tell) msg
              (rr_interceptors r) None Headers_new w)
      with (pipeline_loop duration_debug (remote_context b (msg_type_name msg) Tell) msg
              (rr_interceptors b) None Headers_new w).
    rewrite Hpl. unfold r. cbn [Builder_build register_tell register_tell_with tell_serializers].
    rewrite Hty, lookup_insert_eq. unfold serialized, named, json_serialize.
    rewrite decide_True by done. rewrite Hv. by destruct (largest None ds).
  - unfold receive_envelope_body. rewrite (knows_deserialize name from_slice registry) by done.
    simpl. by rewrite (Hserde _ _ Hv).
Qed.
End spec.

(** *** An ask on a concrete node *)
Record DemoWorld := mkDemoWorld { dw_trace : list (AskEvent N); dw_timers : list N }.
Definition demo_write (e : AskEvent N) (w : DemoWorld) : DemoWorld :=
  mkDemoWorld (dw_trace w ++ [e]) (dw_timers w).
#[local] Instance demo_remote_world : RemoteWorld DemoWorld N := {|
  rw_timer d w := mkDemoWorld (dw_trace w) (dw_timers w ++ [d]);
  rw_oneshot w := (7%N, w);
  rw_reply tx a w := demo_write (Replied tx a) w;
  rw_uuid w := (5%N, w);
  token_first _ := false;
  rw_log_error _ w := w |}.
(** The peer answers every request with its body after a while. *)
#[local] Instance demo_transport : AsyncTransport () DemoWorld := {|
  async_send _ _ _ := mret (Ok ());
  async_request _ n e := _ ← yield_now; mret (Ok e) |}.

Definition demo_to_vec (m : N) : result string bytes :=
  match Byte.of_N m with Some b => Ok [b] | None => Err "too big" end.
Definition demo_from_slice (b : bytes) : result string N :=
  match b with [x] => Ok (Byte.to_N x) | _ => Err "eof" end.
Definition demo_hook (d : N) : OutboundInterceptor DemoWorld N () N :=
  mkOutbound "hook" (λ _ h _ w, (Delay d, h, w)) (λ _ _ o w, demo_write (Noted o) w)
    (λ _ _ _ _ w, (Continue, w)).
Definition demo_target : ActorId := mkActorId (mkNodeId "n2") 4.
Definition demo_builder : RemoteActorRef () DemoWorld N N () :=
  Builder_add_outbound_interceptor (demo_hook 9)
    (Builder_add_outbound_interceptor (demo_hook 3) (Builder_new demo_target "counter" ())).
Definition demo_env (_ : nat) (w : DemoWorld) : DemoWorld := w.

Lemma ask_answers_once_witness :
  let r := register_ask (λ _, "Get") "Get" "Get" "u64" demo_to_vec demo_from_slice demo_builder in
  let task := ask_task (λ _, "Get") (λ _, "u64") r 6%N Headers_new
    (λ b, reply ← map_err SerializationError_new (demo_from_slice b); Ok (mkAny "u64" reply)) None (Some 9%N)
    (mkWireEnvelope demo_target "counter" "Get" Ask WireHeaders_new [x06] (Some 5%N) None) 7%N in
  let end_ := run demo_env 0 task () (mkDemoWorld [] []) in
  dw_trace (world end_) = [Noted (AskSuccess 6%N); Noted (AskSuccess 6%N); Replied 7%N (Ok 6%N)]
  ∧ ∃ res, dw_trace (world end_) = [] ++ ask_ending (λ _, "u64") r 6%N
      (λ b, reply ← map_err SerializationError_new (demo_from_slice b); Ok (mkAny "u64" reply)) 7%N res
      ∧ res ≠ None.
Proof.
  intros r task end_. split; [vm_compute; reflexivity|].
  assert (asking dw_trace demo_env (λ _, True) r) as Ha.
  { split; try done.
    intros i ctx h o w Hi. repeat (apply elem_of_cons in Hi as [->|Hi]; [done|]).
    by apply elem_of_nil in Hi. }
  destruct (ask_answers_once (λ _, "Get") (λ _, "u64") dw_trace demo_env (λ _, True) r 6%N Headers_new
    (λ b, reply ← map_err SerializationError_new (demo_from_slice b); Ok (mkAny "u64" reply)) None (Some 9%N)
    (mkWireEnvelope demo_target "counter" "Get" Ask WireHeaders_new [x06] (Some 5%N) None) 7%N 0
    (mkDemoWorld [] []) Ha) as (res & Ht & Hres).
  exists res. split; [exact Ht|]. destruct res; [done|]. by destruct Hres as (token & w1 & ? & _).
Defined.

Lemma remote_tell_arrives_witness :
  ∃ e, receive_envelope_body e (register_type "Inc" demo_from_slice TypeRegistry_new) = Ok (mkAny "Inc" 6%N)
    ∧ target e = demo_target ∧ send_mode e = Tell.
Proof.
  destruct (remote_tell_arrives (λ _, "Inc") (λ _, "Inc") (λ _, "?") "Inc" "Inc" demo_to_vec demo_from_slice
    (register_type "Inc" demo_from_slice TypeRegistry_new) demo_builder 6%N [x06] [3%N; 9%N]
    Headers_new (mkDemoWorld [] []) (mkDemoWorld [] [])) as (e & _ & Hr & Ht & _ & Hs & _).
  - intros m bs. unfold demo_to_vec. destruct (Byte.of_N m) as [x|] eqn:Hx; [|done].
    intros [= <-]. simpl. f_equal. by apply Byte.to_of_N.
  - constructor.
  - reflexivity.
  - reflexivity.
  - repeat (eapply passes_delay; [reflexivity|]). constructor.
  - exists e. split_and!; [exact Hr|exact Ht|exact Hs].
Defined.
End Spec.
