(* ===== verification/Float64.v ===== *)
(** * Double-precision floats

    Rust's [f64] as the Standard Library's IEEE 754 specification with 53 bits
    of precision and exponents below 1024: conversion from [u64], [+], [*], [/],
    [>], [ceil() as usize] and [Duration::as_secs_f64], each with rounding to
    nearest even. The lemmas say what rounding a positive number does. *)
From Stdlib Require Import Floats.SpecFloat.
From S2P Require Import Prelude.

#[local] Open Scope Z_scope.

(** ** Operations *)
Abbreviation f64 := spec_float.
Definition f64_of_u64 (n : N) : f64 := binary_normalize 53 1024 (Z.of_N n) 0 false.
Definition f64_add : f64 → f64 → f64 := SFadd 53 1024.
Definition f64_mul : f64 → f64 → f64 := SFmul 53 1024.
Definition f64_div : f64 → f64 → f64 := SFdiv 53 1024.
Definition f64_zero : f64 := S754_zero false.
(** [x > y]. *)
Definition f64_gtb (x y : f64) : bool := SFltb y x.
(** [x.ceil() as usize]: the cast saturates, and makes 0 of NaN. *)
Definition ceil_as_usize (x : f64) : N :=
  match x with
  | S754_finite false m e =>
      N.min u64_max (Z.to_N (if 0 <=? e then Z.shiftl (Zpos m) e else - (- Zpos m / 2 ^ (- e))))
  | S754_infinity false => u64_max
  | _ => 0%N
  end.
(** [Duration::as_secs_f64]: [secs as f64 + nanos as f64 / 1e9]. *)
Definition as_secs_f64 (d : N) : f64 :=
  f64_add (f64_of_u64 (d / 1000000000))
    (f64_div (f64_of_u64 (d mod 1000000000)) (f64_of_u64 1000000000)).

(** ** Rounding *)
Lemma digits2_log2 p : Zpos (digits2_pos p) = Z.log2 (Zpos p) + 1.
Proof.
  induction p as [p IH|p IH|]; cbn [digits2_pos]; [| |done]; rewrite Pos2Z.inj_succ, IH.
  - change (Zpos p~1) with (2 * Zpos p + 1). rewrite Z.log2_succ_double; lia.
  - change (Zpos p~0) with (2 * Zpos p). rewrite Z.log2_double; lia.
Qed.

(** A record of [P] after [k] shifts to the right: the quotient, and where the
    remainder is. *)
Definition shifted (P k : Z) (mrs : shr_record) : Prop :=
  0 <= shr_m mrs ∧ ∃ r, P = shr_m mrs * 2 ^ k + r ∧ 0 <= r < 2 ^ k ∧
    match shr_r mrs, shr_s mrs with
    | false, false => r = 0
    | false, true => 0 < r ∧ 2 * r < 2 ^ k
    | true, false => 2 * r = 2 ^ k
    | true, true => 2 ^ k < 2 * r
    end.

Lemma shifted_0 P : 0 <= P → shifted P 0 (Build_shr_record P false false).
Proof. intros ?. split; [done|]. exists 0. cbn [shr_m shr_r shr_s]. lia. Qed.
Lemma shifted_1 P k mrs : 0 <= k → shifted P k mrs → shifted P (k + 1) (shr_1 mrs).
Proof.
  intros Hk (Hm & r & HP & Hr & Hloc). destruct mrs as [m b s]. cbn [shr_m shr_r shr_s] in *.
  assert (2 ^ (k + 1) = 2 * 2 ^ k) as Hpow by (rewrite Z.pow_add_r by lia; lia).
  assert (∃ m' c, m = 2 * m' + Z.b2z c ∧ 0 <= m'
    ∧ shr_1 (Build_shr_record m b s) = Build_shr_record m' c (b || s)) as (m' & c & -> & Hm' & ->).
  { destruct m as [|[p|p|]|]; [exists 0, false|exists (Zpos p), true|exists (Zpos p), false|exists 0, true|lia];
      cbn; split_and!; done || lia. }
  split; [done|]. exists (Z.b2z c * 2 ^ k + r). cbn [shr_m shr_r shr_s]. rewrite Hpow.
  destruct c; cbn [Z.b2z] in *; (split; [rewrite HP; ring|]); (split; [lia|]);
    destruct b, s; cbn [orb]; lia.
Qed.
Lemma shifted_iter P k n mrs :
  0 <= k → shifted P k mrs → shifted P (k + Zpos n) (SpecFloat.iter_pos shr_1 n mrs).
Proof.
  revert k mrs. induction n as [n IH|n IH|]; intros k mrs Hk Hs; cbn [SpecFloat.iter_pos].
  - replace (k + Zpos n~1) with (k + 1 + Zpos n + Zpos n) by lia.
    do 2 (apply IH; [lia|]). by apply shifted_1.
  - replace (k + Zpos n~0) with (k + Zpos n + Zpos n) by lia. do 2 (apply IH; [lia|]). done.
  - by apply shifted_1.
Qed.

(** To nearest: at most half a unit away. *)
Lemma rounded_near P k mrs :
  shifted P k mrs →
  let q := round_nearest_even (shr_m mrs) (loc_of_shr_record mrs) in
  0 <= q ∧ 2 * Z.abs (q * 2 ^ k - P) <= 2 ^ k.
Proof.
  intros (Hm & r & -> & Hr & Hloc). destruct mrs as [m b s]. cbn [shr_m shr_r shr_s] in *.
  destruct b, s; cbn [loc_of_shr_record round_nearest_even]; [|destruct (Z.even m)|..]; split; lia.
Qed.

(** Rounding a positive number of at least 53 bits, away from the ends of the
    range of exponents: [q] units of the last place, as a float. *)
Lemma round_aux_near (P : positive) e :
  let k := Z.log2 (Zpos P) - 52 in
  0 <= k → -1000 <= e → Z.log2 (Zpos P) + e <= 900 →
  ∃ q m j, binary_round_aux 53 1024 false (Zpos P) e loc_Exact = S754_finite false m (e + k + j)
    ∧ 0 <= j <= 1 ∧ (j = 0 ∨ q = 2 ^ 53) ∧ Zpos m * 2 ^ j = q ∧ 2 * Z.abs (q * 2 ^ k - Zpos P) <= 2 ^ k.
Proof.
  intros k Hk He Hmax. unfold binary_round_aux, shr_fexp at 1. cbn [Zdigits2 shr_record_of_loc].
  rewrite digits2_log2. unfold fexp at 1, emin at 1.
  replace (Z.max _ _ - e) with k by lia.
  assert (∃ mrs, shr (Build_shr_record (Zpos P) false false) e k = (mrs, e + k) ∧ shifted (Zpos P) k mrs)
    as (mrs & -> & Hs).
  { assert (shifted (Zpos P) 0 (Build_shr_record (Zpos P) false false)) as H0 by (apply shifted_0; lia).
    destruct k as [|n|]; [|eexists; split; [done|by apply (shifted_iter _ 0)]|lia].
    eexists. split; [|exact H0]. cbn. f_equal. lia. }
  destruct (rounded_near _ _ _ Hs) as [Hq Hnear]. set (q := round_nearest_even _ _) in *. clearbody q.
  assert (2 ^ 52 <= q <= 2 ^ 53) as Hbits.
  { pose proof (Z.log2_spec (Zpos P) ltac:(lia)) as [Hlo Hhi].
    replace (Z.log2 (Zpos P)) with (52 + k) in Hlo by lia.
    replace (Z.succ (Z.log2 (Zpos P))) with (53 + k) in Hhi by lia.
    rewrite Z.pow_add_r in Hlo, Hhi by lia. assert (0 < 2 ^ k) by (apply Z.pow_pos_nonneg; lia).
    assert (q * 2 ^ k < (2 ^ 53 + 1) * 2 ^ k) by lia. assert ((2 ^ 52 - 1) * 2 ^ k < q * 2 ^ k) by lia. nia. }
  destruct (decide (q = 2 ^ 53)) as [->|Hne].
  - exists (2 ^ 53), (2 ^ 52)%positive, 1. unfold shr_fexp. 
    replace (Zdigits2 (2 ^ 53)) with 54 by reflexivity. unfold fexp, emin.
    replace (Z.max _ _ - (e + k)) with 1 by lia. cbn [shr shr_record_of_loc SpecFloat.iter_pos].
    change (shr_1 _) with (Build_shr_record (2 ^ 52) false false). cbn [shr_m].
    change (2 ^ 52) with (Zpos (2 ^ 52)%positive). cbn iota.
    rewrite (proj2 (Z.leb_le _ _)) by lia. split_and!; [done|done|done|by right|reflexivity|exact Hnear].
  - destruct q as [|m|]; [lia| |lia]. exists (Zpos m), m, 0. unfold shr_fexp. cbn [Zdigits2].
    rewrite digits2_log2. assert (Z.log2 (Zpos m) = 52) as -> by (apply Z.log2_unique; lia).
    unfold fexp, emin. replace (Z.max _ _ - (e + k)) with 0 by lia.
    cbn [shr shr_record_of_loc shr_m]. rewrite (proj2 (Z.leb_le _ _)) by lia.
    rewrite Z.add_0_r. split_and!; [done|done|done|by left|lia|exact Hnear].
Qed.

(** An integer below [2^53] is exact, with its leading bit at position 52. *)
Lemma iter_xO m n : Zpos (Pos.iter xO m n) = Zpos m * 2 ^ Zpos n.
Proof.
  induction n as [|n IH] using Pos.peano_ind; [simpl; lia|].
  rewrite Pos.iter_succ, Pos2Z.inj_succ, Z.pow_succ_r by lia. lia.
Qed.
Lemma f64_of_u64_small n :
  (0 < n)%N → (n < 2 ^ 53)%N →
  let s := 52 - Z.log2 (Z.of_N n) in
  ∃ m, f64_of_u64 n = S754_finite false m (- s) ∧ Zpos m = Z.of_N n * 2 ^ s.
Proof.
  intros Hpos Hlt s. destruct n as [|p]; [lia|]. cbn [Z.of_N] in *.
  assert (0 <= Z.log2 (Zpos p) <= 52) as Hlog.
  { split; [apply Z.log2_nonneg|]. apply Z.lt_succ_r, Z.log2_lt_pow2; lia. }
  unfold f64_of_u64. cbn [binary_normalize Z.of_N]. unfold binary_round, shl_align.
  rewrite digits2_log2. unfold fexp at 1 2, emin at 1 2.
  replace (Z.max _ _) with (- s) by lia.
  assert (∃ m, (match - s - 0 with Zneg d => (Pos.iter xO p d, - s) | _ => (p, 0) end) = (m, - s)
    ∧ Zpos m = Zpos p * 2 ^ s) as (m & -> & Hm).
  { destruct s as [|d|] eqn:Hs; [|eexists; split; [done|by rewrite iter_xO]|lia].
    exists p. split; [done|]. lia. }
  exists m. split; [|done].
  assert (Z.log2 (Zpos m) = 52) as Hm52.
  { rewrite Hm, Z.log2_mul_pow2 by lia. lia. }
  destruct (round_aux_near m (- s)) as (q & m' & j & -> & Hj & Hj' & Hq & Hnear); [lia..|].
  rewrite Hm52 in *. replace (52 - 52) with 0 in * by lia. change (2 ^ 0) with 1 in Hnear.
  assert (q = Zpos m) as -> by lia. clear Hnear.
  destruct Hj' as [->|Hj']; [|rewrite Hj' in Hm52; discriminate Hm52].
  rewrite Z.pow_0_r, Z.mul_1_r in Hq. injection Hq as ->. f_equal. lia.
Qed.

(** ** Rounding up *)
Lemma ceil_between m t R :
  0 < t → 0 <= R <= Z.of_N u64_max → (R - 1) * 2 ^ t < Zpos m <= R * 2 ^ t →
  ceil_as_usize (S754_finite false m (- t)) = Z.to_N R.
Proof.
  intros Ht HR Hm. cbn [ceil_as_usize]. rewrite (proj2 (Z.leb_gt _ _)) by lia.
  rewrite Z.opp_involutive.
  rewrite <-(Z.div_unique_pos (- Zpos m) (2 ^ t) (- R) (R * 2 ^ t - Zpos m)) by lia.
  rewrite Z.opp_involutive. lia.
Qed.

(** The ceiling of an [n] times a float just below [99/100]. *)
Definition lit_0_99 : f64 := f64_div (f64_of_u64 99) (f64_of_u64 100).
Lemma lit_0_99_eq : lit_0_99 = S754_finite false 8917127262193582 (-53).
Proof. vm_compute. reflexivity. Qed.

(** [n as f64 * 0.99], rounded up, is [n * 99 / 100] rounded up: the two
    roundings on the way and the one of the literal do not show. *)
Lemma ceil_percentile n :
  (0 < n)%N → (n < 2 ^ 47)%N →
  ceil_as_usize (f64_mul (f64_of_u64 n) lit_0_99) = ((n * 99 + 99) / 100)%N.
Proof.
  intros Hpos Hlt. destruct (f64_of_u64_small n Hpos) as (M & -> & HM); [lia|].
  set (d := Z.log2 (Z.of_N n)) in *. rewrite lit_0_99_eq. cbn [f64_mul SFmul xorb].
  assert (0 <= d <= 46) as Hd.
  { split; [apply Z.log2_nonneg|]. apply Z.lt_succ_r, Z.log2_lt_pow2; lia. }
  assert (2 ^ 52 <= Zpos M < 2 ^ 53) as HMb.
  { pose proof (Z.log2_spec (Z.of_N n) ltac:(lia)) as [Hlo Hhi]. fold d in Hlo, Hhi. rewrite HM.
    replace (2 ^ 52) with (2 ^ d * 2 ^ (52 - d)) by (rewrite <-Z.pow_add_r by lia; f_equal; lia).
    replace (2 ^ 53) with (2 ^ Z.succ d * 2 ^ (52 - d)) by (rewrite <-Z.pow_add_r by lia; f_equal; lia).
    assert (0 < 2 ^ (52 - d)) by (apply Z.pow_pos_nonneg; lia). nia. }
  set (P := (M * 8917127262193582)%positive).
  assert (Zpos P = Zpos M * 8917127262193582) as HP by (unfold P; lia).
  assert (104 <= Z.log2 (Zpos P) <= 105) as HPl.
  { split; [apply Z.log2_le_pow2; lia|]. apply Z.lt_succ_r, Z.log2_lt_pow2; lia. }
  destruct (round_aux_near P (- (52 - d) + -53)) as (q & m & j & -> & Hj & _ & Hq & Hnear); [lia..|].
  set (k := Z.log2 (Zpos P) - 52) in *. set (s := 52 - d) in *.
  replace (- s + -53 + k + j) with (- (s + 53 - k - j)) by lia. set (t := s + 53 - k - j) in *.
  rewrite (ceil_between m t ((Z.of_N n * 99 + 99) / 100)).
  { rewrite <-(N2Z.id ((n * 99 + 99) / 100)). f_equal. rewrite N2Z.inj_div. f_equal; lia. }
  { lia. }
  { split; [apply Z.div_pos; lia|]. etrans; [apply Z.div_le_upper_bound; [lia|]|reflexivity].
    unfold u64_max. lia. }
  set (R := (Z.of_N n * 99 + 99) / 100).
  assert (Z.of_N n * 99 <= 100 * R <= Z.of_N n * 99 + 99) as HR.
  { unfold R. pose proof (Z.div_mod (Z.of_N n * 99 + 99) 100 ltac:(lia)).
    pose proof (Z.mod_pos_bound (Z.of_N n * 99 + 99) 100 ltac:(lia)). lia. }
  assert (0 < 2 ^ t ∧ 0 < 2 ^ j ∧ 0 < 2 ^ k) as (Ht & HJ & Hk) by (split_and!; apply Z.pow_pos_nonneg; lia).
  assert (2 ^ t * 2 ^ j * 2 ^ k = 2 ^ s * 2 ^ 53) as Hscale.
  { rewrite <-!Z.pow_add_r by lia. f_equal. lia. }
  assert (2 ^ 6 <= 2 ^ s) as Hs by (apply Z.pow_le_mono_r; lia).
  assert (2 ^ k <= 2 ^ 53) as Hk53 by (apply Z.pow_le_mono_r; lia).
  set (X := 2 ^ t) in *. set (J := 2 ^ j) in *. set (K := 2 ^ k) in *. set (S := 2 ^ s) in *.
  clearbody X J K S R. rewrite HP, <-Hq, HM in Hnear. clear -HR Ht HJ Hk Hscale Hs Hk53 Hnear HM HMb.
  split.
  - apply Z.nle_gt. intros Hle.
    assert (Zpos m * J * K <= (R - 1) * (X * J * K)) by nia. rewrite Hscale in *. nia.
  - apply Z.nlt_ge. intros Hlt. assert (Zpos m >= R * X + 1) by lia.
    assert (Zpos m * J * K >= R * (X * J * K) + J * K) by nia. rewrite Hscale in *. nia.
Qed.
