(* ===== verification/Metrics.v ===== *)
(** * Metrics (dactor/src/metrics.rs)

    Per-actor counters with windowed buckets, and the registry that shares the
    handles. The two clock readings of a recording are arguments: [now] is
    taken by [current_bucket], [now'] right after by [evict_expired]. A handle
    is reached through an [Arc], so the registry keeps handle identities and
    the handles live in a store. A [+= 1], a [- 1] or a [sum] that leaves its type
    panics with overflow checks and wraps without: [None] is the panic. A query
    reads the clock several times: [clock k] is the [k]-th reading. Rates and
    the rank of the percentile are computed on [f64] (Float64.v). *)
From S2P Require Import Prelude Node Message Float64.

#[local] Open Scope string_scope.
#[local] Open Scope list_scope.
#[local] Open Scope N_scope.

(** ** Buckets *)
Record MetricsBucket := mkBucket {
  timestamp : N;
  bk_message_count : N;
  bk_error_count : N;
  latencies : list N;
  message_counts_by_type : gmap string N
}.
Definition MetricsBucket_new (t : N) : MetricsBucket := mkBucket t 0 0 [] ∅.

(** [while let Some(front) = buckets.front() { if now - front > window { pop } else { break } }] *)
Definition evict_expired (now window : N) (bs : list MetricsBucket) : list MetricsBucket :=
  drop_while (λ b, window <? duration_since now (timestamp b)) bs.
Definition need_new (now bucket_duration : N) (bs : list MetricsBucket) : bool :=
  match last bs with
  | Some b => bucket_duration <=? duration_since now (timestamp b)
  | None => true
  end.
(** The buckets before the current one, and the current one. *)
Definition current_bucket (now now' bucket_duration window : N) (bs : list MetricsBucket) :
    list MetricsBucket * MetricsBucket :=
  let bs := evict_expired now' window bs in
  match last bs with
  | Some b =>
      if need_new now bucket_duration bs then (bs, MetricsBucket_new now)
      else (removelast bs, b)
  | None => (bs, MetricsBucket_new now)
  end.
Definition active_buckets (now window : N) (bs : list MetricsBucket) : list MetricsBucket :=
  retain (λ b, duration_since now (timestamp b) <=? window) bs.
(** [iter().sum()] on [u64]. *)
Definition sum64 (p : profile) (l : list N) : option N :=
  foldl (λ acc x, a ← acc; add64 p a x) (Some 0) l.
Definition windowed_message_count (p : profile) (now window : N) (bs : list MetricsBucket) :
    option N := sum64 p (bk_message_count <$> active_buckets now window bs).
Definition windowed_error_count (p : profile) (now window : N) (bs : list MetricsBucket) :
    option N := sum64 p (bk_error_count <$> active_buckets now window bs).

(** ** ActorMetricsHandle *)
Record ActorMetricsHandle := mkHandle {
  message_count : N;
  error_count : N;
  buckets : list MetricsBucket;
  window : N;
  bucket_duration : N
}.
Definition ActorMetricsHandle_new (window bucket_duration : N) : ActorMetricsHandle :=
  mkHandle 0 0 [] window bucket_duration.

Section handle.
Context (p : profile).
Implicit Types (h : ActorMetricsHandle).

(** [let bucket = inner.current_bucket(..); <change bucket>]. *)
Definition in_current (now now' : N) (f : MetricsBucket → option MetricsBucket)
    (h : ActorMetricsHandle) : option ActorMetricsHandle :=
  let '(bs, b) := current_bucket now now' (bucket_duration h) (window h) (buckets h) in
  b ← f b;
  Some (mkHandle (message_count h) (error_count h) (bs ++ [b]) (window h) (bucket_duration h)).

Definition count_message (message_type : string) (b : MetricsBucket) : option MetricsBucket :=
  n ← add64 p (bk_message_count b) 1;
  k ← add64 p (default 0 (message_counts_by_type b !! message_type)) 1;
  Some (mkBucket (timestamp b) n (bk_error_count b) (latencies b)
    (<[message_type := k]> (message_counts_by_type b))).
Definition record_message (now now' : N) (message_type : string) (h : ActorMetricsHandle) :
    option ActorMetricsHandle :=
  in_current now now' (count_message message_type)
    (mkHandle (wrapping_add64 (message_count h) 1) (error_count h) (buckets h) (window h)
      (bucket_duration h)).

Definition count_error (b : MetricsBucket) : option MetricsBucket :=
  n ← add64 p (bk_error_count b) 1;
  Some (mkBucket (timestamp b) (bk_message_count b) n (latencies b) (message_counts_by_type b)).
Definition record_error (now now' : N) (h : ActorMetricsHandle) : option ActorMetricsHandle :=
  in_current now now' count_error
    (mkHandle (message_count h) (wrapping_add64 (error_count h) 1) (buckets h) (window h)
      (bucket_duration h)).

Definition push_latency (latency : N) (b : MetricsBucket) : option MetricsBucket :=
  Some (mkBucket (timestamp b) (bk_message_count b) (bk_error_count b) (latencies b ++ [latency])
    (message_counts_by_type b)).
Definition record_latency (now now' latency : N) (h : ActorMetricsHandle) :
    option ActorMetricsHandle :=
  in_current now now' (push_latency latency) h.

(** *** MetricsInterceptor: [elapsed] is [runtime_headers.timestamp.elapsed()]. *)
Definition metrics_on_receive (now now' : N) (message_type : string) (h : ActorMetricsHandle) :
    option ActorMetricsHandle := record_message now now' message_type h.
Definition metrics_on_complete (now now' now2 now2' elapsed : N) (handler_error : bool)
    (h : ActorMetricsHandle) : option ActorMetricsHandle :=
  h ← record_latency now now' elapsed h;
  if handler_error then record_error now2 now2' h else Some h.

(** ** Snapshot
    Durations are [u64] seconds and a fraction: their sum panics beyond
    [duration_max]. *)
Definition duration_max : N := 2 ^ 64 * 1000000000 - 1.
Definition sum_durations (l : list N) : option N :=
  let total := foldr N.add 0 l in if total <=? duration_max then Some total else None.
(** [Duration / u32], which panics on zero. *)
Definition avg_of (l : list N) : option (option N) :=
  match l with
  | [] => Some None
  | _ =>
      total ← sum_durations l;
      if len_u32 l =? 0 then None else Some (Some (total / len_u32 l))
  end.
Definition max_of (l : list N) : option N :=
  match l with [] => None | x :: l => Some (foldl N.max x l) end.
Fixpoint insert_sorted (x : N) (l : list N) : list N :=
  match l with
  | [] => [x]
  | y :: l' => if x <=? y then x :: l else y :: insert_sorted x l'
  end.
Definition sort_durations (l : list N) : list N := foldr insert_sorted [] l.
(** [(n as f64 * 0.99).ceil() as usize - 1]. *)
Definition p99_index (n : N) : option N :=
  let rank := ceil_as_usize (f64_mul (f64_of_u64 n) lit_0_99) in
  if rank =? 0 then match p with Debug => None | Release => Some u64_max end
  else Some (rank - 1).
Definition p99_of (l : list N) : option (option N) :=
  match l with
  | [] => Some None
  | _ =>
      idx ← p99_index (len_N l);
      Some (sort_durations l !! N.to_nat (idx `min` (len_N l - 1)))
  end.
(** Adding the counts of one bucket into the merged map. *)
Fixpoint merge_counts (l : list (string * N)) (m : gmap string N) : option (gmap string N) :=
  match l with
  | [] => Some m
  | (k, v) :: l => n ← add64 p (default 0 (m !! k)) v; merge_counts l (<[k := n]> m)
  end.
Fixpoint merge_types (bs : list MetricsBucket) (m : gmap string N) : option (gmap string N) :=
  match bs with
  | [] => Some m
  | b :: bs => m ← merge_counts (map_to_list (message_counts_by_type b)) m; merge_types bs m
  end.
(** [if secs > 0.0 { count as f64 / secs } else { 0.0 }]. *)
Definition rate_of (count : N) (secs : f64) : f64 :=
  if f64_gtb secs f64_zero then f64_div (f64_of_u64 count) secs else f64_zero.
Record ActorMetricsSnapshot := mkSnapshot {
  s_message_count : N;
  s_error_count : N;
  s_message_rate : f64;
  s_error_rate : f64;
  s_message_counts_by_type : gmap string N;
  s_avg_latency : option N;
  s_max_latency : option N;
  s_p99_latency : option N
}.
Definition handle_snapshot (clock : nat → N) (h : ActorMetricsHandle) : option ActorMetricsSnapshot :=
  let secs := as_secs_f64 (window h) in
  wm ← windowed_message_count p (clock 0%nat) (window h) (buckets h);
  we ← windowed_error_count p (clock 1%nat) (window h) (buckets h);
  by_type ← merge_types (active_buckets (clock 2%nat) (window h) (buckets h)) ∅;
  let lat := concat (latencies <$> active_buckets (clock 3%nat) (window h) (buckets h)) in
  avg ← avg_of lat;
  p99 ← p99_of lat;
  Some (mkSnapshot (message_count h) (error_count h) (rate_of wm secs) (rate_of we secs) by_type
    avg (max_of lat) p99).
End handle.

(** ** MetricsRegistry
    The allocated handles are a list, a handle's identity its position. *)
Abbreviation HandleStore := (list ActorMetricsHandle).
Record MetricsRegistry := mkMetricsRegistry {
  handles : gmap ActorId nat;
  reg_window : N;
  reg_bucket_duration : N;
  wire_dropped : N;
  wire_rejected : N;
  wire_delayed : N
}.
Definition MetricsRegistry_new (window bucket_duration : N) : MetricsRegistry :=
  mkMetricsRegistry ∅ window bucket_duration 0 0 0.
Definition MetricsRegistry_default : MetricsRegistry :=
  MetricsRegistry_new (from_secs 60) (from_secs 1).
Definition with_handles (f : gmap ActorId nat → gmap ActorId nat) (r : MetricsRegistry) :
    MetricsRegistry :=
  mkMetricsRegistry (f (handles r)) (reg_window r) (reg_bucket_duration r) (wire_dropped r)
    (wire_rejected r) (wire_delayed r).
Definition create_handle (r : MetricsRegistry) (s : HandleStore) : nat * HandleStore :=
  (length s, s ++ [ActorMetricsHandle_new (reg_window r) (reg_bucket_duration r)]).
Definition register_handle (id : ActorId) (h : nat) (r : MetricsRegistry) : MetricsRegistry :=
  with_handles <[id := h]> r.
Definition metrics_register (id : ActorId) (r : MetricsRegistry) (s : HandleStore) :
    nat * MetricsRegistry * HandleStore :=
  let '(h, s) := create_handle r s in (h, with_handles <[id := h]> r, s).
Definition metrics_unregister (id : ActorId) (r : MetricsRegistry) : MetricsRegistry :=
  with_handles (delete id) r.
Definition metrics_get (id : ActorId) (r : MetricsRegistry) : option nat := handles r !! id.
Definition metrics_actor_count (r : MetricsRegistry) : nat := size (handles r).
(** The handles behind [handles.values()]. *)
Definition handle_values (r : MetricsRegistry) (s : HandleStore) : list ActorMetricsHandle :=
  omap (λ p : ActorId * nat, s !! p.2) (map_to_list (handles r)).
(** Each snapshot reads the clock four times. *)
Fixpoint snapshot_all (p : profile) (clock : nat → N) (hs : list (ActorId * ActorMetricsHandle)) :
    option (list (ActorId * ActorMetricsSnapshot)) :=
  match hs with
  | [] => Some []
  | (id, h) :: hs =>
      sn ← handle_snapshot p clock h;
      rest ← snapshot_all p (λ k, clock (4 + k)%nat) hs;
      Some ((id, sn) :: rest)
  end.
Definition metrics_all (p : profile) (clock : nat → N) (r : MetricsRegistry) (s : HandleStore) :
    option (list (ActorId * ActorMetricsSnapshot)) :=
  snapshot_all p clock (omap (λ q : ActorId * nat, h ← s !! q.2; Some (q.1, h)) (map_to_list (handles r))).
Definition total_messages (p : profile) (r : MetricsRegistry) (s : HandleStore) : option N :=
  sum64 p (message_count <$> handle_values r s).
Definition total_errors (p : profile) (r : MetricsRegistry) (s : HandleStore) : option N :=
  sum64 p (error_count <$> handle_values r s).
Record RuntimeMetrics := mkRuntimeMetrics {
  rm_actor_count : nat;
  rm_total_messages : N;
  rm_total_errors : N;
  rm_message_rate : f64;
  rm_error_rate : f64;
  rm_window : N;
  rm_wire_dropped : N;
  rm_wire_rejected : N;
  rm_wire_delayed : N
}.
(** [for h in handles.values() { .. }], which reads the clock twice for each. *)
Fixpoint windowed_sums (p : profile) (clock : nat → N) (hs : list ActorMetricsHandle)
    (windowed_messages windowed_errors : N) : option (N * N) :=
  match hs with
  | [] => Some (windowed_messages, windowed_errors)
  | h :: hs =>
      n ← windowed_message_count p (clock 0%nat) (window h) (buckets h);
      windowed_messages ← add64 p windowed_messages n;
      n ← windowed_error_count p (clock 1%nat) (window h) (buckets h);
      windowed_errors ← add64 p windowed_errors n;
      windowed_sums p (λ k, clock (2 + k)%nat) hs windowed_messages windowed_errors
  end.
Definition runtime_metrics (p : profile) (clock : nat → N) (r : MetricsRegistry) (s : HandleStore) :
    option RuntimeMetrics :=
  let hs := handle_values r s in
  tm ← sum64 p (message_count <$> hs);
  te ← sum64 p (error_count <$> hs);
  '(wm, we) ← windowed_sums p clock hs 0 0;
  let secs := as_secs_f64 (reg_window r) in
  Some (mkRuntimeMetrics (metrics_actor_count r) tm te (rate_of wm secs) (rate_of we secs)
    (reg_window r) (wire_dropped r) (wire_rejected r) (wire_delayed r)).
Definition record_wire_dropped (r : MetricsRegistry) : MetricsRegistry :=
  mkMetricsRegistry (handles r) (reg_window r) (reg_bucket_duration r)
    (wrapping_add64 (wire_dropped r) 1) (wire_rejected r) (wire_delayed r).
Definition record_wire_rejected (r : MetricsRegistry) : MetricsRegistry :=
  mkMetricsRegistry (handles r) (reg_window r) (reg_bucket_duration r) (wire_dropped r)
    (wrapping_add64 (wire_rejected r) 1) (wire_delayed r).
Definition record_wire_delayed (r : MetricsRegistry) : MetricsRegistry :=
  mkMetricsRegistry (handles r) (reg_window r) (reg_bucket_duration r) (wire_dropped r)
    (wire_rejected r) (wrapping_add64 (wire_delayed r) 1).

(** ** Recording over time *)
Inductive metric := MMessage (message_type : string) | MError | MLatency (latency : N).
(** A recording and its two clock readings. *)
Record event := mkEvent { ev_now : N; ev_now' : N; ev_metric : metric }.

Definition record_event (p : profile) (e : event) (h : ActorMetricsHandle) :
    option ActorMetricsHandle :=
  match ev_metric e with
  | MMessage t => record_message p (ev_now e) (ev_now' e) t h
  | MError => record_error p (ev_now e) (ev_now' e) h
  | MLatency l => record_latency (ev_now e) (ev_now' e) l h
  end.
Fixpoint record_events (p : profile) (es : list event) (h : ActorMetricsHandle) :
    option ActorMetricsHandle :=
  match es with
  | [] => Some h
  | e :: es => h ← record_event p e h; record_events p es h
  end.
(** The clock does not go back: from [t] it reads the events' times, in order. *)
Fixpoint in_order (t : N) (es : list event) : Prop :=
  match es with
  | [] => True
  | e :: es => t <= ev_now e /\ ev_now e <= ev_now' e /\ in_order (ev_now' e) es
  end.
Definition last_time (t : N) (es : list event) : N := foldl (λ _ e, ev_now' e) t es.
Definition message_times (es : list event) : list N :=
  omap (λ e, match ev_metric e with MMessage _ => Some (ev_now e) | _ => None end) es.

Definition latency_list (es : list event) : list N :=
  omap (λ e, match ev_metric e with MLatency l => Some l | _ => None end) es.

(** ** Invariant
    Every recorded message is in the bucket that was current when it arrived,
    at most one bucket length after the bucket's timestamp, or in a bucket that
    has been evicted. *)
Section invariant.
Context (wd bd : N).

(** [b] holds the messages that arrived at [g]. *)
Definition holds (T : N) (b : MetricsBucket) (g : list N) : Prop :=
  bk_message_count b = len_N g ∧ timestamp b <= T ∧
  Forall (λ t, timestamp b <= t ∧ t <= timestamp b + (bd - 1)) g.
(** A message that arrived at [t] was in a bucket that is out of the window at [T]. *)
Definition evicted (T t : N) : Prop := ∃ b, b <= t ∧ t <= b + (bd - 1) ∧ wd < T - b.

Inductive WInv (T : N) (ms : list N) (bs : list MetricsBucket) : Prop :=
  mkWInv (gone : list N) (groups : list (list N)) :
    ms = gone ++ concat groups → Forall (evicted T) gone → Forall2 (holds T) bs groups →
    WInv T ms bs.

Lemma holds_later T T' b g : T <= T' → holds T b g → holds T' b g.
Proof. intros ? (? & ? & ?). split_and!; [done|lia|done]. Qed.
Lemma WInv_later T T' ms bs : T <= T' → WInv T ms bs → WInv T' ms bs.
Proof.
  intros HT [gone gs -> He Hh]. exists gone gs; [done| |].
  - eapply Forall_impl; [exact He|]. intros t (b & ? & ? & ?). exists b. split_and!; [done..|lia].
  - eapply Forall2_impl; [exact Hh|]. intros b g. by apply holds_later.
Qed.

Lemma WInv_evict T ms bs : WInv T ms bs → WInv T ms (evict_expired T wd bs).
Proof.
  intros [gone gs -> He Hh]. unfold evict_expired.
  destruct (drop_while_suffix (λ b, wd <? duration_since T (timestamp b)) bs) as (k & Hk & Hexp).
  set (bs' := drop_while _ bs) in *. rewrite Hk in Hh.
  apply Forall2_app_inv_l in Hh as (gk & g' & Hhk & Hh' & ->).
  exists (gone ++ concat gk) g'; [by rewrite concat_app, app_assoc| |done].
  apply Forall_app. split; [done|]. clear Hk Hh' He.
  induction Hhk as [|b g k gk (_ & _ & Hg) _ IH]; [constructor|].
  apply Forall_cons_1 in Hexp as [Hb Hexp]. simpl. apply Forall_app. split; [|by apply IH].
  eapply Forall_impl; [exact Hg|]. simpl. intros t [? ?]. bN. unfold duration_since in Hb.
  by exists (timestamp b).
Qed.

(** The current bucket can take a message that arrives [now]. *)
Lemma WInv_current T ms bs now now' :
  WInv T ms bs → T <= now → now <= now' →
  let '(bs', b) := current_bucket now now' bd wd bs in
  WInv now' ms (bs' ++ [b]) ∧ timestamp b <= now ∧ now <= timestamp b + (bd - 1).
Proof.
  intros HI ? ?. apply (WInv_later _ now) in HI; [|done].
  assert (Forall (λ b, timestamp b <= now) bs) as Hts.
  { destruct HI as [gone gs _ _ Hh]. eapply Forall2_Forall_l; [exact Hh|].
    apply Forall_true. by intros g b (_ & ? & _). }
  apply (WInv_later _ now'), WInv_evict in HI; [|done].
  assert (Forall (λ b, timestamp b <= now) (evict_expired now' wd bs)) as Hts'.
  { destruct (drop_while_suffix (λ b, wd <? duration_since now' (timestamp b)) bs)
      as (k & Hk & _).
    rewrite Hk in Hts. by apply Forall_app in Hts as [_ ?]. }
  unfold current_bucket. set (es := evict_expired now' wd bs) in *.
  assert (WInv now' ms (es ++ [MetricsBucket_new now])) as Hnew.
  { destruct HI as [gone gs -> He Hh]. exists gone (gs ++ [[]]); [|done|].
    - rewrite concat_app. simpl. by rewrite !app_nil_r.
    - apply Forall2_app; [done|]. repeat constructor. simpl. lia. }
  clearbody es. destruct es as [|b es' _] using rev_ind; [simpl; split; [done|simpl; lia]|].
  rewrite last_snoc. unfold need_new. rewrite last_snoc.
  destruct (N.leb_spec bd (duration_since now (timestamp b))) as [|Hlt];
    [split; [done | simpl; lia]|].
  rewrite removelast_last. split; [done|]. apply Forall_app in Hts' as [_ Hb].
  apply Forall_cons_1 in Hb as [Hb _]. unfold duration_since in Hlt. lia.
Qed.

(** Changing the last bucket's other fields, or counting one message in it. *)
Lemma WInv_touch T ms bs b b' :
  timestamp b' = timestamp b → bk_message_count b' = bk_message_count b →
  WInv T ms (bs ++ [b]) → WInv T ms (bs ++ [b']).
Proof.
  intros Ht Hc [gone gs -> He Hh]. exists gone gs; [done..|].
  apply Forall2_app_inv_l in Hh as (g1 & g2 & Hh1 & Hh2 & ->).
  apply Forall2_app; [done|]. inversion Hh2 as [|? g ? ? Hg Hnil]; subst.
  inversion Hnil; subst. constructor; [|constructor]. unfold holds. by rewrite Ht, Hc.
Qed.
Lemma WInv_count T ms bs b b' now :
  timestamp b' = timestamp b → bk_message_count b' = bk_message_count b + 1 →
  timestamp b <= now → now <= timestamp b + (bd - 1) →
  WInv T ms (bs ++ [b]) → WInv T (ms ++ [now]) (bs ++ [b']).
Proof.
  intros Ht Hc ? ? [gone gs -> He Hh].
  apply Forall2_app_inv_l in Hh as (g1 & g2 & Hh1 & Hh2 & ->).
  inversion Hh2 as [|? g ? ? (Hn & ? & Hg) Hnil]; subst. inversion Hnil; subst.
  exists gone (g1 ++ [g ++ [now]]); [|done|].
  - rewrite !concat_app. simpl. by rewrite !app_nil_r, <-!app_assoc.
  - apply Forall2_app; [done|]. constructor; [|constructor]. unfold holds. rewrite Ht, Hc, Hn.
    split_and!; [unfold len_N; rewrite length_app; simpl; lia | done |].
    apply Forall_app. split; [done|]. by repeat constructor.
Qed.

(** *** Counting the active ones *)
(** What the query counts is between the messages surely in the window and
    those possibly in it. *)
Definition surely (now t : N) : bool := now - t + (bd - 1) <=? wd.
Definition possibly (now t : N) : bool := now - t <=? wd.
Definition total (l : list N) : N := foldr N.add 0 l.

Lemma retain_len_app f (l l' : list N) :
  len_N (retain f (l ++ l')) = len_N (retain f l) + len_N (retain f l').
Proof. unfold len_N. rewrite retain_app, length_app. lia. Qed.

Lemma active_count now T bs gs :
  T <= now → Forall2 (holds T) bs gs →
  len_N (retain (surely now) (concat gs)) <=
    total (bk_message_count <$> active_buckets now wd bs) ∧
  total (bk_message_count <$> active_buckets now wd bs) <=
    len_N (retain (possibly now) (concat gs)).
Proof.
  intros HT. induction 1 as [|b g bs gs (Hn & Hb & Hg) _ [IH1 IH2]]; [done|].
  cbn [concat]. rewrite !retain_len_app. unfold active_buckets in *. cbn [retain].
  destruct (N.leb_spec (duration_since now (timestamp b)) wd) as [Hact|Hact];
    unfold duration_since in Hact.
  - rewrite (retain_all (possibly now) g)
      by (eapply Forall_impl; [exact Hg|]; simpl; intros t ?; apply N.leb_le; lia).
    pose proof (retain_length (surely now) g). cbn [fmap list_fmap total foldr].
    unfold total, len_N in *. rewrite Hn. unfold len_N. lia.
  - rewrite (retain_none (surely now) g)
      by (eapply Forall_impl; [exact Hg|]; simpl; intros t ?; apply N.leb_gt; lia).
    unfold len_N in *. simpl. lia.
Qed.
Lemma WInv_query T ms bs now :
  WInv T ms bs → T <= now →
  len_N (retain (surely now) ms) <= total (bk_message_count <$> active_buckets now wd bs) ∧
  total (bk_message_count <$> active_buckets now wd bs) <= len_N (retain (possibly now) ms).
Proof.
  intros [gone gs -> He Hh] HT. destruct (active_count now T bs gs HT Hh) as [H1 H2].
  rewrite !retain_len_app, (retain_none (surely now) gone); [unfold len_N in *; simpl; lia|].
  eapply Forall_impl; [exact He|]. intros t (b & ? & ? & ?). apply N.leb_gt. lia.
Qed.
End invariant.

(** ** Nothing overflows while fewer than [2^64] recordings are made *)
Section bounds.
Context (p : profile) (wd bd : N).

Definition bucket_small (k : N) (b : MetricsBucket) : Prop :=
  bk_message_count b <= k ∧ bk_error_count b <= k ∧
  map_Forall (λ _ v, v <= bk_message_count b) (message_counts_by_type b).

Lemma add64_small x y : x + y <= u64_max → add64 p x y = Some (x + y).
Proof. apply checked64_small. Qed.

Lemma sum64_small l : total l <= u64_max → sum64 p l = Some (total l).
Proof.
  unfold sum64. enough (∀ a, a + total l <= u64_max →
    foldl (λ acc x, a ← acc; add64 p a x) (Some a) l = Some (a + total l)) as Hs
    by (intros H; by rewrite Hs).
  induction l as [|x l IH]; intros a Ha; cbn [total foldr foldl] in *.
  - f_equal. lia.
  - unfold total in *. cbn [mbind option_bind]. rewrite add64_small by lia.
    rewrite IH by lia. f_equal. lia.
Qed.

(** The buckets before the change of the current one are some of those at the
    end, with a new one at most. *)
Lemma current_parts now now' bs :
  let '(bs', b) := current_bucket now now' bd wd bs in
  ∃ es, es `suffix_of` bs ∧ (bs' ++ [b] = es ∨ bs' = es ∧ b = MetricsBucket_new now).
Proof.
  destruct (drop_while_suffix (λ b, wd <? duration_since now' (timestamp b)) bs) as (l & Hl & _).
  assert (evict_expired now' wd bs `suffix_of` bs) as Hs by (by exists l).
  unfold current_bucket. set (es := evict_expired now' wd bs) in *. clearbody es.
  destruct es as [|b es' _] using rev_ind; [exists []; auto|]. rewrite last_snoc, removelast_last.
  destruct (need_new _ _ _); eexists; eauto.
Qed.
Lemma total_app l l' : total (l ++ l') = total l + total l'.
Proof. unfold total. induction l as [|x l IH]; simpl; lia. Qed.
Lemma total_suffix l l' : l `suffix_of` l' → total l <= total l'.
Proof. intros [k ->]. rewrite total_app. lia. Qed.
Lemma fmap_suffix {A B} (f : A → B) l l' : l `suffix_of` l' → f <$> l `suffix_of` f <$> l'.
Proof. intros [k ->]. rewrite fmap_app. by eexists. Qed.
Lemma concat_suffix {A} (l l' : list (list A)) : l `suffix_of` l' → concat l `suffix_of` concat l'.
Proof. intros [k ->]. rewrite concat_app. by eexists. Qed.

Lemma current_small k now now' bs :
  Forall (bucket_small k) bs →
  let '(bs', b) := current_bucket now now' bd wd bs in
  Forall (bucket_small k) bs' ∧ bucket_small k b.
Proof.
  intros Hbs. assert (bucket_small k (MetricsBucket_new now)) as Hnew.
  { unfold bucket_small. split_and!; simpl; [lia..|]. apply map_Forall_empty. }
  assert (Forall (bucket_small k) (evict_expired now' wd bs)) as He.
  { destruct (drop_while_suffix (λ b, wd <? duration_since now' (timestamp b)) bs) as (l & Hl & _).
    rewrite Hl in Hbs. by apply Forall_app in Hbs as [_ ?]. }
  unfold current_bucket. set (es := evict_expired now' wd bs) in *. clearbody es.
  destruct es as [|b es' _] using rev_ind; [done|]. rewrite last_snoc, removelast_last.
  apply Forall_app in He as [? Hb]. apply Forall_cons_1 in Hb as [Hb _].
  destruct (need_new _ _ _); [|done].
  split; [|done]. apply Forall_app. split; [done|by apply Forall_singleton].
Qed.

(** A change of the current bucket that goes through. *)
Definition good_change (now : N) (msgs lats : list N) (f : MetricsBucket → option MetricsBucket) : Prop :=
  ∀ k b, bucket_small k b → k < u64_max → ∃ b', f b = Some b' ∧ bucket_small (k + 1) b' ∧
    timestamp b' = timestamp b ∧ latencies b' = latencies b ++ lats ∧
    bk_error_count b' <= bk_error_count b + 1 ∧
    match msgs with
    | [] => bk_message_count b' = bk_message_count b
    | _ => msgs = [now] ∧ bk_message_count b' = bk_message_count b + 1
    end.

Lemma count_message_good now t : good_change now [now] [] (count_message p t).
Proof.
  intros k b (Hm & He & Ht) Hk. unfold count_message.
  assert (default 0 (message_counts_by_type b !! t) <= bk_message_count b) as Hd.
  { destruct (_ !! t) as [v|] eqn:E; simpl; [by eapply Ht | lia]. }
  rewrite !add64_small by lia. eexists. split; [done|]. unfold bucket_small.
  split_and!; simpl; [lia..| |done|by rewrite app_nil_r|lia|done|done].
  apply map_Forall_insert_2; [lia|]. eapply map_Forall_impl; [exact Ht|]. simpl. lia.
Qed.
Lemma count_error_good now : good_change now [] [] (count_error p).
Proof.
  intros k b (Hm & He & Ht) Hk. unfold count_error. rewrite add64_small by lia.
  eexists. split; [done|]. unfold bucket_small.
  by split_and!; simpl; [lia..|done|done|rewrite app_nil_r|lia|done].
Qed.
Lemma push_latency_good now l : good_change now [] [l] (push_latency l).
Proof.
  intros k b (Hm & He & Ht) Hk. eexists. split; [done|]. unfold bucket_small.
  by split_and!; simpl; [lia..|done|done|done|lia|done].
Qed.

(** The state after the messages [ms] and the latencies [ls] among [k]
    recordings, at time [T]. *)
Record HInv (T : N) (ms ls : list N) (k : N) (h : ActorMetricsHandle) : Prop := mkHInv {
  hinv_window : window h = wd;
  hinv_bucket : bucket_duration h = bd;
  hinv_count : message_count h = len_N ms;
  hinv_le : len_N ms <= k;
  hinv_buckets : WInv wd bd T ms (buckets h);
  hinv_small : Forall (bucket_small k) (buckets h);
  hinv_latencies : concat (latencies <$> buckets h) `suffix_of` ls;
  hinv_errors : total (bk_error_count <$> buckets h) <= k
}.

Lemma in_current_ok now now' f msgs lats T ms ls k h mc ec :
  HInv T ms ls k h → T <= now → now <= now' → k < u64_max → good_change now msgs lats f →
  mc = len_N (ms ++ msgs) →
  ∃ h', in_current now now' f (mkHandle mc ec (buckets h) (window h) (bucket_duration h)) = Some h' ∧
    HInv now' (ms ++ msgs) (ls ++ lats) (k + 1) h'.
Proof.
  intros [Hw Hb Hc Hle HI Hs Hl He] ? ? Hk Hf ->. unfold in_current. simpl. rewrite Hw, Hb.
  pose proof (WInv_current wd bd T ms _ now now' HI ltac:(done) ltac:(done)) as Hcur.
  pose proof (current_small k now now' _ Hs) as Hsm. pose proof (current_parts now now' (buckets h)) as Hparts.
  destruct (current_bucket now now' bd wd (buckets h)) as [bs b].
  destruct Hcur as (HI' & ? & ?), Hsm as [Hsbs Hsb], Hparts as (es & Hes & Hparts).
  destruct (Hf k b Hsb Hk) as (b' & -> & Hsb' & Ht & Hlat & Herr & Hmsgs). simpl.
  assert (concat (latencies <$> bs ++ [b]) `suffix_of` ls ∧ total (bk_error_count <$> bs ++ [b]) <= k)
    as [Hl' He'].
  { pose proof (concat_suffix _ _ (fmap_suffix latencies _ _ Hes)) as Hl1.
    pose proof (total_suffix _ _ (fmap_suffix bk_error_count _ _ Hes)) as He1.
    destruct Hparts as [->|[-> ->]]; [split; [by etrans|lia]|].
    rewrite !fmap_app, concat_app, total_app. cbn. rewrite app_nil_r. split; [by etrans|lia]. }
  rewrite fmap_app, concat_app in Hl'. rewrite fmap_app, total_app in He'. cbn in Hl', He'. rewrite app_nil_r in Hl'.
  eexists. split; [done|]. split; simpl; [done..| | | | |].
  - destruct msgs as [|m msgs]; [rewrite app_nil_r; lia|]. destruct Hmsgs as [-> _].
    unfold len_N in *. rewrite length_app. simpl. lia.
  - destruct msgs as [|m msgs].
    + rewrite app_nil_r. by eapply WInv_touch.
    + destruct Hmsgs as [-> Hn]. by eapply WInv_count.
  - apply Forall_app. split; [|by apply Forall_singleton].
    eapply Forall_impl; [exact Hsbs|]. intros x (? & ? & Hm). unfold bucket_small. by split_and!; [lia..|].
  - rewrite fmap_app, concat_app. cbn. rewrite app_nil_r, Hlat, app_assoc.
    destruct Hl' as [z ->]. exists z. by rewrite <-!app_assoc.
  - rewrite fmap_app, total_app. cbn. lia.
Qed.

Lemma record_event_ok e T ms ls k h :
  HInv T ms ls k h → T <= ev_now e → ev_now e <= ev_now' e → k < u64_max →
  ∃ h', record_event p e h = Some h'
    ∧ HInv (ev_now' e) (ms ++ message_times [e]) (ls ++ latency_list [e]) (k + 1) h'.
Proof.
  intros HI ? ? Hk. destruct (HI) as [_ _ Hc Hle _ _ _ _]. destruct e as [now now' [t| |l]]; simpl in *.
  - unfold record_event, record_message. simpl.
    eapply in_current_ok; try done; [apply count_message_good|].
    rewrite Hc. unfold wrapping_add64, len_N in *. rewrite wrap64_small, length_app; simpl; [lia|].
    unfold u64_max in Hk. lia.
  - unfold record_event, record_error. simpl.
    eapply in_current_ok; try done; [apply count_error_good|]. by rewrite app_nil_r.
  - unfold record_event, record_latency. simpl. destruct h as [mc ec bs w b]. simpl in *.
    eapply (in_current_ok now now' (push_latency l) [] [l] T ms ls k (mkHandle mc ec bs w b) mc ec);
      try done; [apply push_latency_good|]. by rewrite app_nil_r.
Qed.

Lemma message_times_cons e es : message_times (e :: es) = message_times [e] ++ message_times es.
Proof. unfold message_times. simpl. by destruct (ev_metric e). Qed.
Lemma latency_list_cons e es : latency_list (e :: es) = latency_list [e] ++ latency_list es.
Proof. unfold latency_list. simpl. by destruct (ev_metric e). Qed.

Lemma record_events_ok es T ms ls k h :
  HInv T ms ls k h → in_order T es → k + len_N es <= u64_max →
  ∃ h', record_events p es h = Some h' ∧
    HInv (last_time T es) (ms ++ message_times es) (ls ++ latency_list es) (k + len_N es) h'.
Proof.
  revert T ms ls k h. induction es as [|e es IH]; intros T ms ls k h HI Ho Hk; cbn [record_events].
  { exists h. cbn. rewrite !app_nil_r. unfold len_N in *. simpl. by rewrite N.add_0_r. }
  destruct Ho as (? & ? & Ho). unfold len_N in Hk. simpl in Hk.
  destruct (record_event_ok e T ms ls k h) as (h1 & -> & HI1); [done..|lia|]. cbn [mbind option_bind].
  destruct (IH _ _ _ _ _ HI1 Ho) as (h' & -> & HI'); [unfold len_N; lia|].
  exists h'. split; [done|].
  rewrite message_times_cons, latency_list_cons, !app_assoc.
  replace (k + len_N (e :: es)) with (k + 1 + len_N es) by (unfold len_N; simpl; lia).
  done.
Qed.
Lemma HInv_new t : HInv t [] [] 0 (ActorMetricsHandle_new wd bd).
Proof.
  split; [done..|simpl; unfold len_N; simpl; lia| |constructor|by exists []|simpl; lia]. by exists [] [].
Qed.
End bounds.

(** ** Properties *)
Module Spec.

(** Windowed counts are accurate to one bucket: for any recordings, in the
    order of the clock and fewer than 2^64, nothing panics, the all-time
    counter is the number of messages, and at any later instant the windowed
    count lies between the number of messages younger than the window by a
    bucket length and the number of messages no older than the window.
    Eviction never loses a message of the window. *)
Theorem window_accuracy (p : profile) (wd bd t : N) (es : list event)
    (Hord : in_order t es) (Hlen : len_N es <= u64_max) :
  ∃ h, record_events p es (ActorMetricsHandle_new wd bd) = Some h ∧
    message_count h = len_N (message_times es) ∧
    ∀ now, last_time t es <= now →
      ∃ n, windowed_message_count p now (window h) (buckets h) = Some n ∧
        len_N (retain (surely wd bd now) (message_times es)) <= n ∧
        n <= len_N (retain (possibly wd now) (message_times es)).
Proof.
  destruct (record_events_ok p wd bd es t [] [] 0 _ (HInv_new wd bd t) Hord Hlen) as (h & Hh & HI).
  destruct HI as [Hw Hb Hc Hle HW _ _ _]. exists h. split; [done|]. split; [done|].
  intros now Hnow. destruct (WInv_query wd bd _ _ _ now HW Hnow) as [Hlo Hhi].
  exists (total (bk_message_count <$> active_buckets now wd (buckets h))).
  split; [|done]. unfold windowed_message_count. rewrite Hw. apply sum64_small.
  etrans; [exact Hhi|]. etrans; [|exact Hlen]. etrans; [|exact Hle].
  pose proof (retain_length (possibly wd now) ([] ++ message_times es)). unfold len_N. lia.
Qed.

Definition demo_events : list event :=
  [mkEvent 10 10 (MMessage "A"); mkEvent 14 14 MError; mkEvent 17 17 (MMessage "B");
   mkEvent 18 19 (MLatency 3); mkEvent 115 115 (MMessage "A")].
Lemma window_accuracy_witness :
  ∃ h, record_events Debug demo_events (ActorMetricsHandle_new 100 10) = Some h ∧
    message_count h = 3 ∧
    windowed_message_count Debug 115 (window h) (buckets h) = Some 1 ∧
    len_N (retain (possibly 100 115) (message_times demo_events)) = 2 ∧
    ∃ n, windowed_message_count Debug 115 (window h) (buckets h) = Some n ∧
      len_N (retain (surely 100 10 115) (message_times demo_events)) <= n ∧ n <= 2.
Proof.
  destruct (window_accuracy Debug 100 10 0 demo_events) as (h & Hh & Hc & Hq).
  - vm_compute. repeat split; discriminate.
  - vm_compute. discriminate.
  - exists h. split; [exact Hh|]. split; [exact Hc|].
    destruct (Hq 115) as (n & Hn & Hlo & Hhi); [vm_compute; discriminate|].
    vm_compute in Hh. injection Hh as <-. split_and!; [vm_compute; reflexivity..|].
    exists n. split_and!; [exact Hn | exact Hlo | exact Hhi].
Defined.

End Spec.
