(* ===== verification/Snapshot.v ===== *)
(** * Snapshots of the metrics

    What [ActorMetricsHandle::snapshot] (Metrics.v) says of the recordings: the
    rates, the counts by type, and the average, the maximum and the 99th
    percentile of the latencies, with no panic on the way. *)
From Stdlib Require Import Sorting.Sorted Floats.SpecFloat.
From S2P Require Import Prelude Node Message Float64 Metrics.

#[local] Open Scope string_scope.
#[local] Open Scope list_scope.
#[local] Open Scope N_scope.

(** ** The latencies in order *)
Lemma insert_sorted_perm x l : insert_sorted x l ≡ₚ x :: l.
Proof.
  induction l as [|y l IH]; simpl; [done|]. destruct (x <=? y); [done|]. rewrite IH. constructor.
Qed.
Lemma insert_sorted_sorted x l : StronglySorted N.le l → StronglySorted N.le (insert_sorted x l).
Proof.
  induction 1 as [|y l Hl IH Hy]; simpl; [by repeat constructor|].
  destruct (N.leb_spec x y) as [Hxy|Hxy].
  - constructor; [by constructor|]. constructor; [done|]. eapply Forall_impl; [exact Hy|]. simpl. lia.
  - constructor; [done|]. rewrite insert_sorted_perm. constructor; [lia|done].
Qed.
Lemma sort_durations_perm l : sort_durations l ≡ₚ l.
Proof. induction l as [|x l IH]; simpl; [done|]. by rewrite insert_sorted_perm, IH. Qed.
Lemma sort_durations_sorted l : StronglySorted N.le (sort_durations l).
Proof. induction l; [constructor|by apply insert_sorted_sorted]. Qed.

(** How many are at most [x]. *)
Definition at_most (x : N) (l : list N) : N := len_N (retain (λ y, y <=? x) l).
Lemma at_most_perm x l l' : l ≡ₚ l' → at_most x l = at_most x l'.
Proof.
  unfold at_most, len_N. induction 1 as [|y l l' _ IH|y z l|]; simpl; [done|..|congruence].
  - destruct (y <=? x); simpl; lia.
  - by destruct (y <=? x), (z <=? x).
Qed.
Lemma at_most_app x l l' : at_most x (l ++ l') = at_most x l + at_most x l'.
Proof. unfold at_most, len_N. rewrite retain_app, length_app. lia. Qed.

(** The element at position [i] in order has more than [i] elements up to it, and
    at most [i] up to anything smaller. *)
Lemma sorted_rank l i x :
  StronglySorted N.le l → l !! i = Some x →
  N.of_nat i < at_most x l ∧ ∀ y, y < x → at_most y l <= N.of_nat i.
Proof.
  intros Hs Hx. assert (∃ l1 l2, l = l1 ++ x :: l2 ∧ length l1 = i) as (l1 & l2 & -> & <-).
  { exists (take i l), (drop (S i) l). rewrite take_drop_middle by done. split; [done|].
    pose proof (lookup_lt_Some _ _ _ Hx). rewrite length_take. lia. }
  clear Hx.
  assert (Forall (λ y, y <= x) l1 ∧ Forall (λ y, x <= y) l2) as [H1 H2].
  { induction l1 as [|y l1 IH]; simpl in Hs; apply StronglySorted_inv in Hs as [Hs Hall]; [done|].
    destruct (IH Hs). split; [|done]. constructor; [|done]. apply Forall_app in Hall as [_ Hall].
    by apply Forall_cons_1 in Hall as [? _]. }
  split.
  - rewrite at_most_app. unfold at_most, len_N. rewrite (retain_all _ l1); [simpl|].
    + rewrite N.leb_refl. simpl. lia.
    + eapply Forall_impl; [exact H1|]. intros y. apply N.leb_le.
  - intros y Hy. rewrite at_most_app. unfold at_most, len_N. rewrite (retain_none _ (x :: l2)).
    + pose proof (retain_length (λ z, z <=? y) l1). simpl. lia.
    + constructor; [by apply N.leb_gt|]. eapply Forall_impl; [exact H2|]. simpl. intros z ?. apply N.leb_gt. lia.
Qed.

Lemma div_between a b : 0 < b → a < (a / b + 1) * b ∧ a / b * b <= a.
Proof.
  intros Hb. pose proof (N.div_mod a b ltac:(lia)) as Hdiv. pose proof (N.mod_lt a b ltac:(lia)) as Hmod.
  generalize dependent (a mod b). generalize dependent (a / b). intros q r -> Hr. split; lia.
Qed.

(** ** What is said of the latencies *)
(** The average is rounded down to a nanosecond; the percentile is the smallest
    latency that at least 99 of 100 do not exceed. *)
Definition summarises (l : list N) (avg mx p99 : N) : Prop :=
  (avg * len_N l <= total l ∧ total l < (avg + 1) * len_N l)
  ∧ (mx ∈ l ∧ Forall (λ x, x <= mx) l)
  ∧ p99 ∈ l ∧ 99 * len_N l <= 100 * at_most p99 l ∧ ∀ y, y < p99 → 100 * at_most y l < 99 * len_N l.

Lemma max_of_spec l : l ≠ [] → ∃ mx, max_of l = Some mx ∧ mx ∈ l ∧ Forall (λ x, x <= mx) l.
Proof.
  destruct l as [|x l]; [done|]. intros _. eexists. split; [done|]. revert x.
  induction l as [|y l IH]; intros x; simpl; [split; [set_solver|by repeat constructor]|].
  destruct (IH (N.max x y)) as [Hin Hall]. split.
  - apply elem_of_cons in Hin as [->|Hin]; [|set_solver]. destruct (N.max_spec x y) as [[_ ->]|[_ ->]]; set_solver.
  - apply Forall_cons_1 in Hall as [? Hall]. constructor; [lia|]. constructor; [lia|done].
Qed.
Lemma avg_of_spec l :
  l ≠ [] → len_N l < 2 ^ 32 → total l <= duration_max →
  ∃ avg, avg_of l = Some (Some avg) ∧ avg * len_N l <= total l ∧ total l < (avg + 1) * len_N l.
Proof.
  intros Hne Hlen Htot. destruct l as [|x l]; [done|]. set (l0 := x :: l) in *.
  assert (len_u32 l0 = len_N l0) as Hu by (by apply wrap32_small).
  assert (0 < len_N l0) as Hpos by (unfold l0, len_N; simpl; lia). clearbody l0.
  assert (avg_of l0 = (total ← sum_durations l0;
    if len_u32 l0 =? 0 then None else Some (Some (total / len_u32 l0)))) as ->.
  { destruct l0; [done|reflexivity]. }
  unfold sum_durations. fold (total l0). rewrite (proj2 (N.leb_le _ _)) by done. cbn [mbind option_bind].
  rewrite Hu. rewrite (proj2 (N.eqb_neq _ _)) by lia. eexists. split; [done|].
  by destruct (div_between (total l0) (len_N l0) Hpos).
Qed.
Lemma p99_of_spec p l :
  l ≠ [] → len_N l < 2 ^ 47 →
  ∃ x, p99_of p l = Some (Some x) ∧ x ∈ l ∧ 99 * len_N l <= 100 * at_most x l
    ∧ ∀ y, y < x → 100 * at_most y l < 99 * len_N l.
Proof.
  intros Hne Hlen. assert (0 < len_N l) as Hpos by (destruct l; [done|unfold len_N; simpl; lia]).
  assert (p99_of p l = (idx ← p99_index p (len_N l);
    Some (sort_durations l !! N.to_nat (idx `min` (len_N l - 1))))) as -> by (by destruct l).
  unfold p99_index. rewrite ceil_percentile by done. set (r := (len_N l * 99 + 99) / 100).
  assert (99 * len_N l <= 100 * r <= 99 * len_N l + 99) as Hr.
  { unfold r. destruct (div_between (len_N l * 99 + 99) 100); lia. }
  clearbody r. rewrite (proj2 (N.eqb_neq _ _)) by lia. cbn [mbind option_bind].
  replace ((r - 1) `min` (len_N l - 1)) with (r - 1) by lia.
  destruct (lookup_lt_is_Some_2 (sort_durations l) (N.to_nat (r - 1))) as [x Hx].
  { rewrite sort_durations_perm. unfold len_N in *. lia. }
  rewrite Hx. exists x. split; [done|].
  destruct (sorted_rank _ _ _ (sort_durations_sorted l) Hx) as [Hle Hlt].
  rewrite (at_most_perm x _ _ (sort_durations_perm l)) in Hle. split_and!.
  - rewrite <-sort_durations_perm. by eapply list_elem_of_lookup_2.
  - lia.
  - intros y Hy. specialize (Hlt y Hy). rewrite (at_most_perm y _ _ (sort_durations_perm l)) in Hlt. lia.
Qed.

(** ** Counts by type *)
Definition count_of (t : string) (m : gmap string N) : N := default 0 (m !! t).
Lemma merge_counts_spec p l m B :
  NoDup l.*1 → (∀ k v, (k, v) ∈ l → count_of k m + v <= B) → B <= u64_max →
  ∃ m', merge_counts p l m = Some m'
    ∧ (∀ k v, (k, v) ∈ l → count_of k m' = count_of k m + v)
    ∧ ∀ k, k ∉ l.*1 → count_of k m' = count_of k m.
Proof.
  intros Hnd Hb HB. revert m Hb. induction l as [|[k v] l IH]; intros m Hb; cbn [merge_counts].
  { exists m. split_and!; [done|set_solver|done]. }
  apply NoDup_cons in Hnd as [Hk Hnd]. pose proof (Hb k v ltac:(set_solver)) as Hkv. unfold count_of in Hkv.
  rewrite add64_small by lia. cbn [mbind option_bind].
  assert (∀ k' n, k' ≠ k → count_of k' (<[k:=n]> m) = count_of k' m) as Hother.
  { intros k' n Hne. unfold count_of. by rewrite lookup_insert_ne. }
  assert (∀ k' v', (k', v') ∈ l → k' ≠ k) as Hfresh.
  { intros k' v' Hin ->. apply Hk. apply list_elem_of_fmap. by exists (k, v'). }
  destruct (IH Hnd (<[k:=default 0 (m !! k) + v]> m)) as (m' & -> & Hin & Hout).
  { intros k' v' Hin. rewrite Hother by (by eapply Hfresh). apply Hb. set_solver. }
  exists m'. split; [done|]. split.
  - intros k' v' [[= -> ->]|Hin']%elem_of_cons.
    + rewrite Hout by done. unfold count_of. by rewrite lookup_insert_eq.
    + rewrite (Hin _ _ Hin'), Hother; [done|]. by eapply Hfresh.
  - intros k' Hk'. cbn in Hk'. rewrite Hout by set_solver. apply Hother. set_solver.
Qed.
(** The merge of the buckets' maps adds, type by type. *)
Lemma merge_types_spec p bs m :
  Forall (λ b, map_Forall (λ _ v, v <= bk_message_count b) (message_counts_by_type b)) bs →
  (∀ k, count_of k m + total (bk_message_count <$> bs) <= u64_max) →
  ∃ m', merge_types p bs m = Some m'
    ∧ ∀ k, count_of k m' = count_of k m + total ((λ b, count_of k (message_counts_by_type b)) <$> bs).
Proof.
  revert m. induction bs as [|b bs IH]; intros m Hall Hb; cbn [merge_types].
  { exists m. split; [done|]. intros k. cbn. lia. }
  apply Forall_cons_1 in Hall as [Ht Hall].
  assert (∀ k v, (k, v) ∈ map_to_list (message_counts_by_type b) → v <= bk_message_count b) as Hv.
  { intros k v Hkv%elem_of_map_to_list. by eapply Ht. }
  destruct (merge_counts_spec p (map_to_list (message_counts_by_type b)) m u64_max) as (m1 & -> & Hin & Hout).
  { apply NoDup_fst_map_to_list. }
  { intros k v Hkv. specialize (Hb k). cbn in Hb. specialize (Hv k v Hkv). unfold total in Hb. lia. }
  { done. }
  assert (∀ k, count_of k m1 = count_of k m + count_of k (message_counts_by_type b)) as Hm1.
  { intros k. destruct (message_counts_by_type b !! k) as [v|] eqn:Hk.
    - rewrite (Hin k v) by (by apply elem_of_map_to_list). unfold count_of at 3. by rewrite Hk.
    - rewrite Hout. { unfold count_of at 3. rewrite Hk. simpl. lia. }
      intros ([k' v] & -> & Hkv%elem_of_map_to_list)%list_elem_of_fmap. simpl in *. congruence. }
  cbn [mbind option_bind]. destruct (IH m1 Hall) as (m' & -> & Hm').
  { intros k. rewrite Hm1. specialize (Hb k). cbn [fmap list_fmap total foldr] in Hb.
    assert (count_of k (message_counts_by_type b) <= bk_message_count b); [|unfold total in *; lia].
    unfold count_of. destruct (_ !! k) as [v|] eqn:Hk; simpl; [by eapply Ht|lia]. }
  exists m'. split; [done|]. intros k. rewrite Hm', Hm1. cbn [fmap list_fmap total foldr]. unfold total. lia.
Qed.

(** ** The buckets in the window *)
Lemma retain_len_le {A} (f : A → bool) l : len_N (retain f l) <= len_N l.
Proof. pose proof (retain_length f l). unfold len_N. lia. Qed.
Lemma total_sublist l l' : l `sublist_of` l' → total l <= total l'.
Proof. unfold total. induction 1; cbn [foldr] in *; lia. Qed.
Lemma concat_sublist {A B} (f : A → list B) l l' :
  l `sublist_of` l' → concat (f <$> l) `sublist_of` concat (f <$> l').
Proof.
  induction 1 as [|x l l' _ IH|x l l' _ IH]; cbn; [done|by apply sublist_app|].
  by apply sublist_inserts_l.
Qed.
Lemma active_total (f : MetricsBucket → N) now wd bs :
  total (f <$> active_buckets now wd bs) <= total (f <$> bs).
Proof. apply total_sublist. unfold active_buckets. by apply fmap_sublist, retain_sublist. Qed.

Lemma latency_list_length es : (length (latency_list es) <= length es)%nat.
Proof.
  unfold latency_list. induction es as [|e es IH]; [done|]. cbn [omap list_omap length].
  destruct (ev_metric e); cbn [length]; unfold omap, list_omap in *; lia.
Qed.

(** The three figures of the latencies. *)
Lemma latency_figures p lat :
  len_N lat < 2 ^ 32 → total lat <= duration_max →
  ∃ avg p99, avg_of lat = Some avg ∧ p99_of p lat = Some p99
    ∧ match lat with
      | [] => avg = None ∧ max_of lat = None ∧ p99 = None
      | _ => ∃ a m x, avg = Some a ∧ max_of lat = Some m ∧ p99 = Some x ∧ summarises lat a m x
      end.
Proof.
  intros Hlen Htot. destruct (decide (lat = [])) as [->|Hne]; [by exists None, None|].
  destruct (avg_of_spec lat Hne Hlen Htot) as (a & Ha & ?), (max_of_spec lat Hne) as (m & Hm & ?).
  destruct (p99_of_spec p lat Hne) as (x & Hx & ?); [lia|]. exists (Some a), (Some x).
  split_and!; [done..|]. destruct lat; [done|]. exists a, m, x. by split_and!.
Qed.

(** ** What is in the buckets
    Every recording is, with what it recorded, in the bucket that was current when
    it was made, or that bucket has been evicted. *)
Definition errors_in (es : list event) : N :=
  len_N (retain (λ e, match ev_metric e with MError => true | _ => false end) es).
Definition messages_of (k : string) (es : list event) : N :=
  len_N (retain (λ e, match ev_metric e with MMessage k' => bool_decide (k' = k) | _ => false end) es).

Lemma errors_app es es' : errors_in (es ++ es') = errors_in es + errors_in es'.
Proof. unfold errors_in, len_N. rewrite retain_app, length_app. lia. Qed.
Lemma messages_of_app k es es' : messages_of k (es ++ es') = messages_of k es + messages_of k es'.
Proof. unfold messages_of, len_N. rewrite retain_app, length_app. lia. Qed.
Lemma message_times_app es es' : message_times (es ++ es') = message_times es ++ message_times es'.
Proof. apply omap_app. Qed.
Lemma latency_list_app es es' : latency_list (es ++ es') = latency_list es ++ latency_list es'.
Proof. apply omap_app. Qed.

(** The records of a bucket, or of several together. *)
Record holds_all (es : list event) (messages errors : N) (lats : list N) (types : string → N) : Prop := {
  ha_messages : messages = len_N (message_times es);
  ha_errors : errors = errors_in es;
  ha_latencies : lats = latency_list es;
  ha_types k : types k = messages_of k es
}.
Definition bucket_holds (es : list event) (b : MetricsBucket) : Prop :=
  holds_all es (bk_message_count b) (bk_error_count b) (latencies b) (λ k, count_of k (message_counts_by_type b)).
Definition buckets_hold (es : list event) (bs : list MetricsBucket) : Prop :=
  holds_all es (total (bk_message_count <$> bs)) (total (bk_error_count <$> bs)) (concat (latencies <$> bs))
    (λ k, total ((λ b, count_of k (message_counts_by_type b)) <$> bs)).
Lemma buckets_hold_cons es es' b bs :
  bucket_holds es b → buckets_hold es' bs → buckets_hold (es ++ es') (b :: bs).
Proof.
  intros [Hm He Hl Ht] [Hm' He' Hl' Ht']. split; cbn [fmap list_fmap total foldr concat].
  - rewrite message_times_app. unfold total, len_N in *. rewrite length_app, Hm, Hm'. lia.
  - rewrite errors_app. unfold total in *. by rewrite He, He'.
  - by rewrite latency_list_app, Hl, Hl'.
  - intros k. rewrite messages_of_app. specialize (Ht' k). unfold total in *. by rewrite (Ht k), Ht'.
Qed.

Section filing.
Context (p : profile) (wd bd : N).

Definition filed (T : N) (b : MetricsBucket) (g : list event) : Prop :=
  timestamp b <= T ∧ Forall (λ e, timestamp b <= ev_now e ∧ ev_now e <= timestamp b + (bd - 1)) g
  ∧ bucket_holds g b.
Definition Filing (T : N) (es : list event) (bs : list MetricsBucket) : Prop :=
  ∃ gone groups, es = gone ++ concat groups ∧ Forall (λ e, evicted wd bd T (ev_now e)) gone
    ∧ Forall2 (filed T) bs groups.

Lemma Filing_later T T' es bs : T <= T' → Filing T es bs → Filing T' es bs.
Proof.
  intros HT (gone & gs & -> & He & Hh). exists gone, gs. split_and!; [done|..].
  - eapply Forall_impl; [exact He|]. intros e (b & ? & ? & ?). exists b. split_and!; [done..|lia].
  - eapply Forall2_impl; [exact Hh|]. intros b g (? & ? & ?). split_and!; [lia|done..].
Qed.
Lemma Filing_evict T es bs : Filing T es bs → Filing T es (evict_expired T wd bs).
Proof.
  intros (gone & gs & -> & He & Hh). unfold evict_expired.
  destruct (drop_while_suffix (λ b, wd <? duration_since T (timestamp b)) bs) as (k & Hk & Hexp).
  set (bs' := drop_while _ bs) in *. rewrite Hk in Hh.
  apply Forall2_app_inv_l in Hh as (gk & g' & Hhk & Hh' & ->).
  exists (gone ++ concat gk), g'. split_and!; [by rewrite concat_app, app_assoc| |done].
  apply Forall_app. split; [done|]. clear Hk Hh' He.
  induction Hhk as [|b g k gk (_ & Hg & _) _ IH]; [constructor|].
  apply Forall_cons_1 in Hexp as [Hb Hexp]. simpl. apply Forall_app. split; [|by apply IH].
  eapply Forall_impl; [exact Hg|]. simpl. intros e [? ?]. bN. unfold duration_since in Hb.
  by exists (timestamp b).
Qed.
Lemma Filing_current T es bs now now' :
  Filing T es bs → T <= now → now <= now' →
  let '(bs1, b) := current_bucket now now' bd wd bs in
  Filing now' es (bs1 ++ [b]) ∧ timestamp b <= now ∧ now <= timestamp b + (bd - 1).
Proof.
  intros HI ? ?. apply (Filing_later _ now) in HI; [|done].
  assert (Forall (λ b, timestamp b <= now) bs) as Hts.
  { destruct HI as (gone & gs & _ & _ & Hh). eapply Forall2_Forall_l; [exact Hh|].
    apply Forall_true. by intros g b (? & _). }
  apply (Filing_later _ now'), Filing_evict in HI; [|done].
  assert (Forall (λ b, timestamp b <= now) (evict_expired now' wd bs)) as Hts'.
  { destruct (drop_while_suffix (λ b, wd <? duration_since now' (timestamp b)) bs) as (k & Hk & _).
    rewrite Hk in Hts. by apply Forall_app in Hts as [_ ?]. }
  unfold current_bucket. set (ev := evict_expired now' wd bs) in *.
  assert (Filing now' es (ev ++ [MetricsBucket_new now])) as Hnew.
  { destruct HI as (gone & gs & -> & Hg & Hh). exists gone, (gs ++ [[]]). split_and!; [|done|].
    - rewrite concat_app. cbn. by rewrite !app_nil_r.
    - apply Forall2_app; [done|]. constructor; [|constructor]. split_and!; [done|constructor|by split]. }
  clearbody ev. destruct ev as [|b ev' _] using rev_ind; [simpl; split; [done|simpl; lia]|].
  rewrite last_snoc. unfold need_new. rewrite last_snoc.
  destruct (N.leb_spec bd (duration_since now (timestamp b))) as [|Hlt]; [split; [done|simpl; lia]|].
  rewrite removelast_last. split; [done|]. apply Forall_app in Hts' as [_ Hb].
  apply Forall_cons_1 in Hb as [Hb _]. unfold duration_since in Hlt. lia.
Qed.

(** What a recording does to its bucket. *)
Definition files (e : event) (f : MetricsBucket → option MetricsBucket) : Prop :=
  ∀ g b b', f b = Some b' → bucket_holds g b → len_N g < u64_max →
    timestamp b' = timestamp b ∧ bucket_holds (g ++ [e]) b'.
Lemma add64_Some x y z : add64 p x y = Some z → x + y <= u64_max → z = x + y.
Proof. unfold add64. intros Hz Hle. rewrite checked64_small in Hz by done. by injection Hz. Qed.
Lemma message_times_len es : len_N (message_times es) <= len_N es.
Proof.
  unfold message_times, len_N. induction es as [|e es IH]; [done|]. cbn [omap list_omap length].
  destruct (ev_metric e); cbn [length]; unfold omap, list_omap in *; lia.
Qed.
Lemma count_message_files now now' k :
  files (mkEvent now now' (MMessage k)) (count_message p k).
Proof.
  intros g b b' Hf [Hm He Hl Ht] Hlen. unfold count_message in Hf.
  pose proof (message_times_len g). pose proof (retain_len_le (λ e, match ev_metric e with
    MMessage k' => bool_decide (k' = k) | _ => false end) g) as Hk. fold (messages_of k g) in Hk.
  destruct (add64 p (bk_message_count b) 1) as [n|] eqn:Hn; [|done].
  apply add64_Some in Hn; [|lia]. cbn in Hf.
  pose proof (Ht k) as Htk. unfold count_of in Htk at 1.
  destruct (add64 p (default 0 (message_counts_by_type b !! k)) 1) as [c|] eqn:Hc; [|done].
  apply add64_Some in Hc; [|lia]. cbn in Hf. injection Hf as <-. split; [done|]. split; cbn.
  - rewrite message_times_app. unfold len_N in *. rewrite length_app. cbn. lia.
  - rewrite errors_app, He. change (errors_in [_]) with 0. lia.
  - rewrite latency_list_app. cbn. by rewrite app_nil_r.
  - intros k'. rewrite messages_of_app. unfold messages_of at 2, count_of, len_N. cbn. destruct (decide (k = k')) as [<-|Hne].
    + rewrite lookup_insert_eq, bool_decide_eq_true_2 by done. cbn. lia.
    + rewrite lookup_insert_ne, bool_decide_eq_false_2 by done. cbn. fold (count_of k' (message_counts_by_type b)).
      rewrite (Ht k'). lia.
Qed.
Lemma count_error_files now now' : files (mkEvent now now' MError) (count_error p).
Proof.
  intros g b b' Hf [Hm He Hl Ht] Hlen. unfold count_error in Hf.
  pose proof (retain_len_le (λ e, match ev_metric e with MError => true | _ => false end) g) as Hk.
  fold (errors_in g) in Hk.
  destruct (add64 p (bk_error_count b) 1) as [n|] eqn:Hn; [|done].
  apply add64_Some in Hn; [|lia]. cbn in Hf. injection Hf as <-. split; [done|]. split; cbn.
  - rewrite message_times_app. cbn. by rewrite app_nil_r.
  - rewrite errors_app, Hn, He. change (errors_in [_]) with 1. lia.
  - rewrite latency_list_app. cbn. by rewrite app_nil_r.
  - intros k. rewrite messages_of_app, Ht. change (messages_of k [_]) with 0. lia.
Qed.
Lemma push_latency_files now now' l : files (mkEvent now now' (MLatency l)) (push_latency l).
Proof.
  intros g b b' [= <-] [Hm He Hl Ht] _. split; [done|]. split; cbn.
  - rewrite message_times_app. cbn. by rewrite app_nil_r.
  - rewrite errors_app, He. change (errors_in [_]) with 0. lia.
  - by rewrite latency_list_app, Hl.
  - intros k. rewrite messages_of_app, Ht. change (messages_of k [_]) with 0. lia.
Qed.

Lemma in_current_files T es h mc ec e f h' :
  window h = wd → bucket_duration h = bd → Filing T es (buckets h) →
  T <= ev_now e → ev_now e <= ev_now' e → len_N es < u64_max → files e f →
  in_current (ev_now e) (ev_now' e) f (mkHandle mc ec (buckets h) (window h) (bucket_duration h)) = Some h' →
  window h' = wd ∧ bucket_duration h' = bd ∧ Filing (ev_now' e) (es ++ [e]) (buckets h').
Proof.
  intros Hw Hb HI ? ? Hlen Hf. unfold in_current. cbn. rewrite Hw, Hb.
  pose proof (Filing_current T es _ (ev_now e) (ev_now' e) HI ltac:(done) ltac:(done)) as Hcur.
  destruct (current_bucket _ _ _ _ _) as [bs b]. destruct Hcur as ((gone & gs & Hes & Hg & Hh) & Hts1 & Hts2).
  destruct (f b) as [b'|] eqn:Hfb; [|done]. cbn. intros [= <-]. cbn. split; [done|]. split; [done|].
  apply Forall2_app_inv_l in Hh as (g1 & g2 & Hh1 & Hh2 & ->).
  inversion Hh2 as [|? g ? ? (Hts & Hin & Hold) Hnil]; subst. inversion Hnil; subst.
  destruct (Hf g b b' Hfb Hold) as [Hts' Hb'].
  { unfold len_N in *. rewrite concat_app, !length_app in Hlen. cbn in Hlen. rewrite app_nil_r in Hlen. lia. }
  exists gone, (g1 ++ [g ++ [e]]). split_and!; [|done|].
  - rewrite !concat_app. cbn. by rewrite !app_nil_r, <-!app_assoc.
  - apply Forall2_app; [done|]. constructor; [|constructor]. unfold filed. rewrite Hts'. split_and!; [done| |done].
    apply Forall_app. split; [done|]. by repeat constructor.
Qed.
Lemma record_event_files T es h e h' :
  window h = wd → bucket_duration h = bd → Filing T es (buckets h) →
  T <= ev_now e → ev_now e <= ev_now' e → len_N es < u64_max → record_event p e h = Some h' →
  window h' = wd ∧ bucket_duration h' = bd ∧ Filing (ev_now' e) (es ++ [e]) (buckets h').
Proof.
  intros ? ? ? ? ? ? Hr. destruct e as [now now' [k| |l]].
  - exact (in_current_files T es h _ _ _ _ h' ltac:(done) ltac:(done) ltac:(done) ltac:(done) ltac:(done)
      ltac:(done) (count_message_files now now' k) Hr).
  - exact (in_current_files T es h _ _ _ _ h' ltac:(done) ltac:(done) ltac:(done) ltac:(done) ltac:(done)
      ltac:(done) (count_error_files now now') Hr).
  - unfold record_event, record_latency in Hr. destruct h as [mc ec bs w d].
    exact (in_current_files T es (mkHandle mc ec bs w d) mc ec _ _ h' ltac:(done) ltac:(done) ltac:(done)
      ltac:(done) ltac:(done) ltac:(done) (push_latency_files now now' l) Hr).
Qed.
Lemma record_events_files es T before h h' :
  window h = wd → bucket_duration h = bd → Filing T before (buckets h) → in_order T es →
  len_N before + len_N es <= u64_max → record_events p es h = Some h' →
  Filing (last_time T es) (before ++ es) (buckets h').
Proof.
  revert T before h. induction es as [|e es IH]; intros T before h Hw Hb HI Ho Hlen; cbn [record_events].
  { intros [= <-]. by rewrite app_nil_r. }
  destruct Ho as (? & ? & Ho). destruct (record_event p e h) as [h1|] eqn:He; [|done]. cbn [mbind option_bind].
  unfold len_N in *. cbn [length] in Hlen.
  destruct (record_event_files T before h e h1) as (Hw1 & Hb1 & HI1); try done; [unfold len_N; lia|].
  intros Hr. replace (before ++ e :: es) with ((before ++ [e]) ++ es) by by rewrite <-app_assoc.
  apply (IH _ _ h1); try done. rewrite length_app. cbn. lia.
Qed.

(** What a query sees: all that is surely in the window, nothing that is surely
    outside. *)
Lemma Filing_query T es bs now :
  Filing T es bs → T <= now →
  ∃ kept, retain (λ e, surely wd bd now (ev_now e)) es `sublist_of` kept
    ∧ kept `sublist_of` retain (λ e, possibly wd now (ev_now e)) es
    ∧ buckets_hold kept (active_buckets now wd bs).
Proof.
  intros (gone & gs & -> & Hgone & Hh) HT.
  assert (retain (λ e, surely wd bd now (ev_now e)) gone = []) as Hno.
  { apply retain_none. eapply Forall_impl; [exact Hgone|]. intros e (b & ? & ? & ?). apply N.leb_gt. lia. }
  rewrite !retain_app, Hno. cbn [app].
  assert (∃ kept, retain (λ e, surely wd bd now (ev_now e)) (concat gs) `sublist_of` kept
    ∧ kept `sublist_of` retain (λ e, possibly wd now (ev_now e)) (concat gs)
    ∧ buckets_hold kept (active_buckets now wd bs)) as (kept & Hs & Hp & Hb).
  { clear Hgone Hno. induction Hh as [|b g bs gs (Hts & Hg & Hb) _ (kept & Hs & Hp & Hall)].
    { exists []. split_and!; [done..|by split]. }
    cbn [concat]. rewrite !retain_app. unfold active_buckets in *. cbn [retain].
    destruct (N.leb_spec (duration_since now (timestamp b)) wd) as [Hact|Hact]; unfold duration_since in Hact.
    - exists (g ++ kept). split_and!.
      + apply sublist_app; [apply retain_sublist|done].
      + rewrite (retain_all _ g); [by apply sublist_app|].
        eapply Forall_impl; [exact Hg|]. simpl. intros e ?. apply N.leb_le. lia.
      + by apply buckets_hold_cons.
    - exists kept. split_and!; [|by apply sublist_inserts_l|done].
      rewrite (retain_none _ g); [done|]. eapply Forall_impl; [exact Hg|]. simpl. intros e ?. apply N.leb_gt. lia. }
  exists kept. split_and!; [done|by apply sublist_inserts_l|done].
Qed.
End filing.

(** ** The property *)
Module Spec.

(** C40. A snapshot says what was recorded. For fewer than 2^32 recordings in the
    order of the clock, whose latencies add up to a [Duration], nothing panics;
    the message count is the number of messages, the message rate the quotient
    of a count that is accurate to one bucket length by the window; the counts
    by type add up bucket by bucket; and of the latencies in the window the
    average is rounded down, the maximum is the largest and the 99th percentile
    is the smallest latency that at least 99 of 100 do not exceed, exactly,
    although its rank is computed on [f64]. And what the active buckets have at a
    reading of the clock is what some of the recordings recorded, in order: their
    number of messages and of errors, their latencies, and their number of
    messages of each type. All the recordings that are surely in the window are
    among them, and none that is surely outside of it. *)
Theorem snapshot_summary (p : profile) (wd bd t : N) (es : list event) (clock : nat → N) :
  in_order t es → len_N es < 2 ^ 32 → total (latency_list es) <= duration_max →
  (∀ k, last_time t es <= clock k) →
  ∃ h sn, record_events p es (ActorMetricsHandle_new wd bd) = Some h
    ∧ handle_snapshot p clock h = Some sn
    ∧ s_message_count sn = len_N (message_times es)
    ∧ (∃ n, s_message_rate sn = rate_of n (as_secs_f64 wd)
        ∧ len_N (retain (surely wd bd (clock 0%nat)) (message_times es)) <= n
        ∧ n <= len_N (retain (possibly wd (clock 0%nat)) (message_times es)))
    ∧ s_error_rate sn = rate_of (total (bk_error_count <$> active_buckets (clock 1%nat) wd (buckets h)))
        (as_secs_f64 wd)
    ∧ (∀ k, count_of k (s_message_counts_by_type sn)
        = total ((λ b, count_of k (message_counts_by_type b)) <$> active_buckets (clock 2%nat) wd (buckets h)))
    ∧ let lat := concat (latencies <$> active_buckets (clock 3%nat) wd (buckets h)) in
      lat `sublist_of` latency_list es
      ∧ match lat with
        | [] => s_avg_latency sn = None ∧ s_max_latency sn = None ∧ s_p99_latency sn = None
        | _ => ∃ avg mx p99, s_avg_latency sn = Some avg ∧ s_max_latency sn = Some mx
            ∧ s_p99_latency sn = Some p99 ∧ summarises lat avg mx p99
        end
      ∧ ∀ k, ∃ kept, retain (λ e, surely wd bd (clock k) (ev_now e)) es `sublist_of` kept
          ∧ kept `sublist_of` retain (λ e, possibly wd (clock k) (ev_now e)) es
          ∧ buckets_hold kept (active_buckets (clock k) wd (buckets h)).
Proof.
  intros Hord Hlen Htot Hclock.
  destruct (record_events_ok p wd bd es t [] [] 0 _ (HInv_new wd bd t) Hord) as (h & Hh & HI);
    [unfold u64_max; lia|].
  assert (Filing wd bd (last_time t es) es (buckets h)) as Hfiled.
  { apply (record_events_files p wd bd es t [] (ActorMetricsHandle_new wd bd) h); try done.
    - by exists [], [].
    - unfold len_N, u64_max in *. cbn. lia. }
  destruct HI as [Hw _ Hc Hle HW Hs Hl He]. cbn [app] in *. exists h.
  destruct (WInv_query wd bd _ _ _ (clock 0%nat) HW (Hclock 0%nat)) as [Hlo Hhi].
  destruct (WInv_query wd bd _ _ _ (clock 2%nat) HW (Hclock 2%nat)) as [_ Hhi2].
  pose proof (retain_len_le (possibly wd (clock 0%nat)) (message_times es)).
  pose proof (retain_len_le (possibly wd (clock 2%nat)) (message_times es)).
  pose proof (active_total bk_error_count (clock 1%nat) wd (buckets h)).
  destruct (merge_types_spec p (active_buckets (clock 2%nat) wd (buckets h)) ∅) as (by_type & Hby & Hcounts).
  { apply Forall_retain. eapply Forall_impl; [exact Hs|]. by intros b (_ & _ & ?). }
  { intros k. unfold count_of. rewrite lookup_empty. cbn [default]. unfold u64_max. lia. }
  set (lat := concat (latencies <$> active_buckets (clock 3%nat) wd (buckets h))).
  assert (lat `sublist_of` latency_list es) as Hsub.
  { etrans; [apply concat_sublist, retain_sublist|]. destruct Hl as [z ->]. by apply sublist_inserts_l. }
  destruct (latency_figures p lat) as (avg & p99 & Havg & Hp99 & Hfig).
  { pose proof (sublist_length _ _ Hsub). pose proof (latency_list_length es). unfold len_N in *. lia. }
  { etrans; [by apply total_sublist|done]. }
  unfold handle_snapshot, windowed_message_count, windowed_error_count. rewrite Hw.
  rewrite !sum64_small by (unfold u64_max; lia). cbn [mbind option_bind]. rewrite Hby. cbn [mbind option_bind].
  fold lat. rewrite Havg. cbn [mbind option_bind]. rewrite Hp99. cbn [mbind option_bind].
  eexists. split; [done|]. split; [done|]. cbn. split; [done|]. split_and!; [by eexists|done| |done| |].
  - intros k. rewrite Hcounts. unfold count_of at 1. by rewrite lookup_empty.
  - destruct lat; [done|]. destruct Hfig as (a & m & x & -> & ? & -> & ?). by exists a, m, x.
  - intros k. by apply Filing_query with (T := last_time t es).
Qed.

Definition demo_events : list event :=
  [mkEvent 10 10 (MMessage "A"); mkEvent 14 14 (MLatency 7); mkEvent 17 17 (MMessage "B");
   mkEvent 18 19 (MLatency 3); mkEvent 55 55 (MMessage "A"); mkEvent 56 56 (MLatency 4)].
Lemma snapshot_summary_witness :
  ∃ h sn, record_events Debug demo_events (ActorMetricsHandle_new (from_secs 2) 10) = Some h
    ∧ handle_snapshot Debug (λ _, 60) h = Some sn
    ∧ s_message_count sn = 3
    ∧ s_message_rate sn = S754_finite false 6755399441055744 (-52)
    ∧ (s_avg_latency sn, s_max_latency sn, s_p99_latency sn) = (Some 4, Some 7, Some 7)
    ∧ count_of "A" (s_message_counts_by_type sn) = 2.
Proof.
  destruct (snapshot_summary Debug (from_secs 2) 10 0 demo_events (λ _, 60)) as (h & sn & Hh & Hsn & Hc & _).
  - vm_compute. repeat split; discriminate.
  - vm_compute. reflexivity.
  - vm_compute. discriminate.
  - intros _. vm_compute. discriminate.
  - exists h, sn. split; [exact Hh|]. split; [exact Hsn|]. split; [exact Hc|].
    vm_compute in Hh. injection Hh as <-. vm_compute in Hsn. injection Hsn as <-.
    split_and!; vm_compute; reflexivity.
Defined.
End Spec.
