(* ===== verification/TestRuntime.v ===== *)
(** * The reference runtime (dactor/src/test_support/test_runtime.rs)

    The struct [TestRuntime], below the actor references of AdapterRef.v, and
    what the task of an actor (ActorLoop.v) does to it. What the runtime shares
    with its actors' tasks behind an [Arc] is [Shared]; the world of a task is
    [Shared] together with everything else. *)
From S2P Require Import Prelude Node Message Mailbox Task Interceptor Actor Dispatch DeadLetter.
From S2P Require Import RuntimeSupport Supervision ActorLoop Lifecycle AdapterRef Group NativeActors Metrics.

#[local] Open Scope string_scope.
#[local] Open Scope list_scope.
#[local] Open Scope nat_scope.

Section runtime.
Context {W M T R Ib Rf : Type}.

(** ** References and tasks
    The mailbox is the capacity and the strategy it was made with; the [alive]
    flag is the position of the atomic. *)
Record TestActorRef := mkTestActorRef {
  ta_data : ActorRefData (W := W) (M := M) (T := T) (R := R);
  ta_mailbox : MailboxConfig;
  ta_alive : nat
}.
Definition ta_id (a : TestActorRef) : ActorId := rf_id (ta_data a).
Definition ta_name (a : TestActorRef) : string := rf_name (ta_data a).

(** The inbound interceptors of an actor: [MetricsOf] is the
    [MetricsInterceptor] over a handle. *)
Inductive TaskInterceptor := UserInterceptor (i : Ib) | MetricsOf (handle : nat).

(** What [tokio::spawn] is given, besides the actor itself. *)
Record SpawnedTask := mkSpawnedTask {
  tk_ref : TestActorRef;
  tk_interceptors : list TaskInterceptor;
  tk_dead_letters : option (DeadLetterHandler W);
  tk_stop : nat
}.

(** ** The runtime *)
Record Shared := mkShared {
  sh_watchers : WatcherMap Rf;
  sh_registry : ActorRegistry (U := TestActorRef);
  sh_stop_receivers : gmap ActorId nat;
  sh_stop_channels : StopChannels;
  sh_alive : list bool
}.
Definition set_sh_watchers x (s : Shared) : Shared :=
  mkShared x (sh_registry s) (sh_stop_receivers s) (sh_stop_channels s) (sh_alive s).
Definition set_sh_registry x (s : Shared) : Shared :=
  mkShared (sh_watchers s) x (sh_stop_receivers s) (sh_stop_channels s) (sh_alive s).
Definition set_sh_stop_receivers x (s : Shared) : Shared :=
  mkShared (sh_watchers s) (sh_registry s) x (sh_stop_channels s) (sh_alive s).
Definition set_sh_stop_channels x (s : Shared) : Shared :=
  mkShared (sh_watchers s) (sh_registry s) (sh_stop_receivers s) x (sh_alive s).
Definition set_sh_alive x (s : Shared) : Shared :=
  mkShared (sh_watchers s) (sh_registry s) (sh_stop_receivers s) (sh_stop_channels s) x.

(** [tr_handles] are the metrics handles allocated so far. *)
Record TestRuntime := mkTestRuntime {
  tr_node_id : NodeId;
  tr_next_local : N;
  tr_outbound : list (OutboundInterceptor W M T R);
  tr_drop_observer : option (DropObserver W);
  tr_dead_letters : option (DeadLetterHandler W);
  tr_metrics : option MetricsRegistry;
  tr_handles : HandleStore;
  tr_shared : Shared
}.
Definition with_shared (f : Shared → Shared) (r : TestRuntime) : TestRuntime :=
  mkTestRuntime (tr_node_id r) (tr_next_local r) (tr_outbound r)
    (tr_drop_observer r) (tr_dead_letters r) (tr_metrics r) (tr_handles r) (f (tr_shared r)).

Definition TestRuntime_with_node_id (node_id : NodeId) : TestRuntime :=
  mkTestRuntime node_id 1 [] None None None [] (mkShared ∅ Registry_new ∅ [] []).
Definition TestRuntime_new : TestRuntime := TestRuntime_with_node_id (mkNodeId "test-node").
Definition enable_metrics (r : TestRuntime) : TestRuntime :=
  mkTestRuntime (tr_node_id r) (tr_next_local r) (tr_outbound r)
    (tr_drop_observer r) (tr_dead_letters r) (Some MetricsRegistry_default) (tr_handles r)
    (tr_shared r).
(** [Arc::get_mut(..).expect(..)]: [None] is the panic. [shared] tells whether a
    reference that a spawn made, and that shares the list, still exists. *)
Definition TestRuntime_add_outbound_interceptor (shared : bool)
    (interceptor : OutboundInterceptor W M T R) (r : TestRuntime) : option TestRuntime :=
  if shared then None
  else Some (mkTestRuntime (tr_node_id r) (tr_next_local r) (tr_outbound r ++ [interceptor])
         (tr_drop_observer r) (tr_dead_letters r) (tr_metrics r) (tr_handles r) (tr_shared r)).
Definition TestRuntime_set_drop_observer (observer : DropObserver W) (r : TestRuntime) : TestRuntime :=
  mkTestRuntime (tr_node_id r) (tr_next_local r) (tr_outbound r)
    (Some observer) (tr_dead_letters r) (tr_metrics r) (tr_handles r) (tr_shared r).
Definition TestRuntime_set_dead_letter_handler (handler : DeadLetterHandler W) (r : TestRuntime) :
    TestRuntime :=
  mkTestRuntime (tr_node_id r) (tr_next_local r) (tr_outbound r)
    (tr_drop_observer r) (Some handler) (tr_metrics r) (tr_handles r) (tr_shared r).

(** ** Spawning *)
(** With metrics enabled, their interceptor comes first. *)
Definition metrics_first (actor_id : ActorId) (interceptors : list Ib) (r : TestRuntime) :
    list TaskInterceptor * TestRuntime :=
  match tr_metrics r with
  | Some registry =>
      let '(handle, registry, handles) := metrics_register actor_id registry (tr_handles r) in
      (MetricsOf handle :: (UserInterceptor <$> interceptors),
       mkTestRuntime (tr_node_id r) (tr_next_local r) (tr_outbound r)
         (tr_drop_observer r) (tr_dead_letters r) (Some registry) handles (tr_shared r))
  | None => (UserInterceptor <$> interceptors, r)
  end.
Definition mailbox_panics (mailbox : MailboxConfig) : bool :=
  match mailbox with Bounded capacity _ => bool_decide (capacity = 0) | Unbounded => false end.
(** The end of [spawn_internal]: the reference is registered under its name. *)
Definition publish (A name : string) (actor_ref : TestActorRef) (s : Shared) : Shared :=
  set_sh_registry (Registry_register A name actor_ref (sh_registry s)) s.
(** [A] is the type name of the reference. [None] is the panic of
    [mpsc::channel(0)]. *)
Definition TestRuntime_spawn_internal (A name : string) (interceptors : list Ib)
    (mailbox : MailboxConfig) (r : TestRuntime) : option SpawnedTask * TestRuntime :=
  let '(actor_id, next) := assign_id (tr_node_id r) (tr_next_local r) in
  let r := mkTestRuntime (tr_node_id r) next (tr_outbound r)
             (tr_drop_observer r) (tr_dead_letters r) (tr_metrics r) (tr_handles r) (tr_shared r) in
  let '(combined, r) := metrics_first actor_id interceptors r in
  if mailbox_panics mailbox then (None, r)
  else
    let s := tr_shared r in
    let stop := length (sh_stop_channels s) in
    let actor_ref := mkTestActorRef
      (mkActorRefData actor_id name (tr_outbound r) (tr_drop_observer r) (tr_dead_letters r))
      mailbox (length (sh_alive s)) in
    let s := mkShared (sh_watchers s) (sh_registry s) (<[actor_id := stop]> (sh_stop_receivers s))
               (sh_stop_channels s ++ [Waiting]) (sh_alive s ++ [true]) in
    (Some (mkSpawnedTask actor_ref combined (tr_dead_letters r) stop),
     mkTestRuntime (tr_node_id r) (tr_next_local r) (tr_outbound r) (tr_drop_observer r)
       (tr_dead_letters r) (tr_metrics r) (tr_handles r) (publish A name actor_ref s)).
(** [spawn] and [spawn_with_deps]; [spawn_with_options] passes its options on. *)
Definition TestRuntime_spawn (A name : string) (r : TestRuntime) : option SpawnedTask * TestRuntime :=
  TestRuntime_spawn_internal A name [] Unbounded r.
Definition TestRuntime_spawn_with_options (A name : string) (interceptors : list Ib)
    (mailbox : MailboxConfig) (r : TestRuntime) : option SpawnedTask * TestRuntime :=
  TestRuntime_spawn_internal A name interceptors mailbox r.

(** ** Watching and stop handles *)
Definition TestRuntime_watch (watcher : ActorId) (notify : Rf) (target_id : ActorId) :
    TestRuntime → TestRuntime :=
  with_shared (λ s, set_sh_watchers (add_watcher watcher notify target_id (sh_watchers s)) s).
Definition TestRuntime_unwatch (watcher target_id : ActorId) : TestRuntime → TestRuntime :=
  with_shared (λ s, set_sh_watchers (drop_watcher watcher target_id (sh_watchers s)) s).

Definition TestRuntime_await_stop (actor_id : ActorId) (r : TestRuntime) : option nat * TestRuntime :=
  (sh_stop_receivers (tr_shared r) !! actor_id,
   with_shared (λ s, set_sh_stop_receivers (delete actor_id (sh_stop_receivers s)) s) r).
Definition TestRuntime_await_stop_poll (rx : option nat) (r : TestRuntime) : option (result string ()) :=
  match rx with
  | Some stop => poll_stop "stop notifier dropped" (sh_stop_channels (tr_shared r)) stop
  | None => Some (Ok ())
  end.
Definition TestRuntime_await_all (r : TestRuntime) : list nat * TestRuntime :=
  ((map_to_list (sh_stop_receivers (tr_shared r))).*2, with_shared (set_sh_stop_receivers ∅) r).
Definition TestRuntime_await_all_poll (receivers : list nat) (r : TestRuntime) :
    option (result string ()) :=
  poll_all receivers None (sh_stop_channels (tr_shared r)).
Definition TestRuntime_cleanup_finished : TestRuntime → TestRuntime :=
  with_shared (λ s,
    set_sh_stop_receivers (keep_pending (sh_stop_channels s) (sh_stop_receivers s)) s).
Definition TestRuntime_active_handle_count (r : TestRuntime) : nat :=
  size (sh_stop_receivers (tr_shared r)).

(** ** What an actor's task does to what it shares *)
Definition mark_dead (t : SpawnedTask) (s : Shared) : Shared :=
  set_sh_alive (<[ta_alive (tk_ref t) := false]> (sh_alive s)) s.
Definition send_stop (t : SpawnedTask) (res : result string ()) (s : Shared) : Shared :=
  set_sh_stop_channels (settle (tk_stop t) (Sent res) (sh_stop_channels s)) s.
(** A task that panics drops its notifier. *)
Definition drop_stop (t : SpawnedTask) (s : Shared) : Shared :=
  set_sh_stop_channels (settle (tk_stop t) SenderDropped (sh_stop_channels s)) s.
Definition unregister_name (t : SpawnedTask) (s : Shared) : Shared :=
  set_sh_registry (unregister (ta_name (tk_ref t)) (sh_registry s)).2 s.
(** The end of the task, after [on_stop]: the watchers to tell, and what it
    leaves. *)
Definition end_task (t : SpawnedTask) (res : result string ()) (s : Shared) :
    list (WatchEntry Rf) * Shared :=
  let id := ta_id (tk_ref t) in
  let '(entries, m) := remove_watchers TestRuntime_stop_policy id (sh_watchers s) in
  (entries, unregister_name t (send_stop t res (set_sh_watchers m s))).
End runtime.
Arguments TestActorRef : clear implicits.
Arguments SpawnedTask : clear implicits.
Arguments Shared : clear implicits.
Arguments TestRuntime : clear implicits.

(** ** Runs
    The runtime together with every actor it spawned, in the order of spawning,
    with the type name of its reference and what has become of its task. *)
Inductive Fate := Running | Ended (res : result string ()) | Crashed.

Section runs.
Context {W M T R Ib Rf : Type}.
Abbreviation Runtime := (TestRuntime W M T R Rf).
Abbreviation Tasks := (list (string * SpawnedTask W M T R Ib * Fate)).
Implicit Types (r : Runtime) (s : Shared W M T R Rf) (t : SpawnedTask W M T R Ib) (ts : Tasks).

(** No actor that has not ended has the name. *)
Definition name_is_free (name : string) ts : Prop :=
  ∀ i A t fate, ts !! i = Some (A, t, fate) → ta_name (tk_ref t) = name → ∃ res, fate = Ended res.

(** The methods of the runtime, and the ends of its actors' tasks: a task ends
    after its loop, or crashes in [create] or [on_start]. *)
Inductive rt_step : Runtime * Tasks → Runtime * Tasks → Prop :=
  | step_spawn A name (ics : list Ib) mailbox t r r' ts :
      name_is_free name ts →
      TestRuntime_spawn_internal A name ics mailbox r = (Some t, r') →
      rt_step (r, ts) (r', ts ++ [(A, t, Running)])
  | step_spawn_panics A name (ics : list Ib) mailbox r r' ts :
      TestRuntime_spawn_internal A name ics mailbox r = (None, r') → rt_step (r, ts) (r', ts)
  | step_stop i A t r ts fate :
      ts !! i = Some (A, t, fate) → rt_step (r, ts) (with_shared (mark_dead t) r, ts)
  | step_end i A t res r ts :
      ts !! i = Some (A, t, Running) →
      rt_step (r, ts) (with_shared (λ s, (end_task t res (mark_dead t s)).2) r,
                       <[i := (A, t, Ended res)]> ts)
  | step_crash i A t r ts :
      ts !! i = Some (A, t, Running) →
      rt_step (r, ts) (with_shared (drop_stop t) r, <[i := (A, t, Crashed)]> ts)
  | step_watch watcher n target r ts :
      rt_step (r, ts) (TestRuntime_watch watcher n target r, ts)
  | step_unwatch watcher target r ts :
      rt_step (r, ts) (TestRuntime_unwatch watcher target r, ts)
  | step_await_stop id r ts : rt_step (r, ts) ((TestRuntime_await_stop id r).2, ts)
  | step_await_all r ts : rt_step (r, ts) ((TestRuntime_await_all r).2, ts)
  | step_cleanup r ts : rt_step (r, ts) (TestRuntime_cleanup_finished r, ts)
  | step_metrics r ts : rt_step (r, ts) (enable_metrics r, ts).

(** What the stop channel of an actor says about it, and its flag. *)
Definition fate_channel (f : Fate) : oneshot (result string ()) :=
  match f with Running => Waiting | Ended res => Sent res | Crashed => SenderDropped end.

(** *** The invariant *)
Definition entry_of (e : string * SpawnedTask W M T R Ib * Fate) : string * Entry :=
  (ta_name (tk_ref e.1.2), mkEntry e.1.1 (tk_ref e.1.2)).
Record tracked r ts : Prop := {
  (* each actor has its own channel and its own flag *)
  tracked_index i A t f : ts !! i = Some (A, t, f) → tk_stop t = i ∧ ta_alive (tk_ref t) = i;
  tracked_channels : sh_stop_channels (tr_shared r) = (λ e, fate_channel e.2) <$> ts;
  tracked_alive : length (sh_alive (tr_shared r)) = length ts;
  tracked_dead i A t res : ts !! i = Some (A, t, Ended res) → sh_alive (tr_shared r) !! i = Some false;
  (* ids are fresh *)
  tracked_ids : NoDup ((λ e, ta_id (tk_ref e.1.2)) <$> ts);
  tracked_local i A t f : ts !! i = Some (A, t, f) →
    node (ta_id (tk_ref t)) = tr_node_id r ∧ (1 <= local (ta_id (tk_ref t)) < tr_next_local r)%N;
  tracked_next : (1 <= tr_next_local r)%N;
  (* a receiver is the one of the actor it is stored for *)
  tracked_receivers id stop : sh_stop_receivers (tr_shared r) !! id = Some stop →
    ∃ A t f, ts !! stop = Some (A, t, f) ∧ ta_id (tk_ref t) = id;
  (* the registry has the actors that have not ended, under their names *)
  tracked_registry name e : reg_entries (sh_registry (tr_shared r)) !! name = Some e ↔
    ∃ i A t f, ts !! i = Some (A, t, f) ∧ (∀ res, f ≠ Ended res) ∧ entry_of (A, t, f) = (name, e)
}.

Lemma metrics_first_same id (ics : list Ib) r :
  let r' := (metrics_first id ics r).2 in
  tr_node_id r' = tr_node_id r ∧ tr_next_local r' = tr_next_local r ∧ tr_shared r' = tr_shared r.
Proof. unfold metrics_first. destruct (tr_metrics r); [|done]. by destruct (metrics_register _ _ _) as [[??]?]. Qed.

(** What a spawn does to what the invariant looks at. *)
Lemma spawn_effect A name (ics : list Ib) mailbox r :
  let '(res, r') := TestRuntime_spawn_internal A name ics mailbox r in
  let s := tr_shared r in
  let id := mkActorId (tr_node_id r) (tr_next_local r) in
  tr_node_id r' = tr_node_id r ∧ tr_next_local r' = wrapping_add64 (tr_next_local r) 1
  ∧ match res with
    | None => tr_shared r' = s
    | Some t => ta_id (tk_ref t) = id ∧ ta_name (tk_ref t) = name
        ∧ tk_stop t = length (sh_stop_channels s) ∧ ta_alive (tk_ref t) = length (sh_alive s)
        ∧ tr_shared r' = mkShared (sh_watchers s) (Registry_register A name (tk_ref t) (sh_registry s))
            (<[id := tk_stop t]> (sh_stop_receivers s)) (sh_stop_channels s ++ [Waiting])
            (sh_alive s ++ [true])
    end.
Proof.
  unfold TestRuntime_spawn_internal, assign_id.
  match goal with |- context [metrics_first ?id ics ?r0] =>
    pose proof (metrics_first_same id ics r0) as Hm; destruct (metrics_first id ics r0) as [c r1] end.
  simpl in Hm. destruct Hm as (Hn & Hl & Hs), (mailbox_panics mailbox); simpl; split_and!; try done;
    by rewrite ?Hs.
Qed.

Lemma tracked_new n : tracked (TestRuntime_with_node_id n) [].
Proof.
  split; try done; simpl; [constructor|].
  intros name e. split; [by rewrite lookup_empty|]. intros (i & A & t & f & Hi & _). done.
Qed.

(** Steps that leave the actors as they are. *)
Lemma tracked_same r ts f :
  let s := tr_shared r in
  sh_registry (f s) = sh_registry s → sh_stop_channels (f s) = sh_stop_channels s →
  length (sh_alive (f s)) = length (sh_alive s) →
  (∀ i, sh_alive s !! i = Some false → sh_alive (f s) !! i = Some false) →
  sh_stop_receivers (f s) ⊆ sh_stop_receivers s →
  tracked r ts → tracked (with_shared f r) ts.
Proof.
  cbn zeta. intros Hr Hc Hl Hd Hs [Hi Hch Ha Hdead Hids Hloc Hnext Hrx Hreg]. split; simpl; try done.
  - by rewrite Hc.
  - by rewrite Hl.
  - intros i A t res Ht. by eapply Hd, Hdead.
  - intros id stop Hid. apply Hrx. by eapply lookup_weaken.
  - by rewrite Hr.
Qed.
Lemma mark_dead_alive t s i :
  sh_alive s !! i = Some false → sh_alive (mark_dead t s) !! i = Some false.
Proof.
  simpl. intros Hi. destruct (decide (i = ta_alive (tk_ref t))) as [->|Hne].
  - apply list_lookup_insert_eq. by eapply lookup_lt_Some.
  - by rewrite list_lookup_insert_ne.
Qed.

(** The fate of one actor changes. *)
Lemma set_fate_lookup ts i A t f f' j e :
  ts !! i = Some (A, t, f) →
  (<[i := (A, t, f')]> ts) !! j = Some e ↔
  (j = i ∧ e = (A, t, f')) ∨ (j ≠ i ∧ ts !! j = Some e).
Proof.
  intros Hi. destruct (decide (j = i)) as [->|Hne].
  - rewrite list_lookup_insert_eq by (by eapply lookup_lt_Some). naive_solver.
  - rewrite list_lookup_insert_ne by done. naive_solver.
Qed.
Lemma fmap_insert_same {X Y} (g : X → Y) (l : list X) i x y :
  l !! i = Some x → g y = g x → g <$> <[i := y]> l = g <$> l.
Proof.
  intros Hi Hg. rewrite list_fmap_insert, Hg. apply list_insert_id. by rewrite list_lookup_fmap, Hi.
Qed.
Lemma tracked_fate r ts i A t f' sf :
  tracked r ts → ts !! i = Some (A, t, Running) →
  let s := tr_shared r in
  sh_stop_channels (sf s) = settle (tk_stop t) (fate_channel f') (sh_stop_channels s) →
  length (sh_alive (sf s)) = length (sh_alive s) →
  (∀ i, sh_alive s !! i = Some false → sh_alive (sf s) !! i = Some false) →
  (∀ res, f' = Ended res → sh_alive (sf s) !! i = Some false) →
  sh_stop_receivers (sf s) = sh_stop_receivers s →
  (∀ name e, reg_entries (sh_registry (sf s)) !! name = Some e ↔
     ∃ j A' t' f, (<[i := (A, t, f')]> ts) !! j = Some (A', t', f) ∧ (∀ res, f ≠ Ended res)
       ∧ entry_of (A', t', f) = (name, e)) →
  tracked (with_shared sf r) (<[i := (A, t, f')]> ts).
Proof.
  cbn zeta. intros [Hi Hch Ha Hdead Hids Hloc Hnext Hrx Hreg] Ht Hc Hl Hd Hd' Hs Hr.
  pose proof (Hi _ _ _ _ Ht) as [Hstop Hal].
  assert (∀ j A' t' f, (<[i := (A, t, f')]> ts) !! j = Some (A', t', f) →
            ∃ f0, ts !! j = Some (A', t', f0)) as Hold.
  { intros j A' t' f [[-> ?]|[_ Hj]]%(set_fate_lookup _ _ _ _ _ _ _ _ Ht); [|by exists f].
    simplify_eq. by exists Running. }
  split; simpl; try done.
  - intros j A' t' f [f0 Hj]%Hold. by eapply Hi.
  - rewrite Hc, Hch, list_fmap_insert. unfold settle. rewrite list_lookup_fmap, Hstop, Ht. done.
  - by rewrite Hl, length_insert.
  - intros j A' t' res Hj. rewrite (set_fate_lookup _ _ _ _ _ _ _ _ Ht) in Hj.
    destruct Hj as [[-> ?]|[_ Hj]]; [simplify_eq; by eapply Hd'|by eapply Hd, Hdead].
  - by rewrite (fmap_insert_same _ _ _ _ _ Ht).
  - intros j A' t' f [f0 Hj]%Hold. by eapply Hloc.
  - intros id stop Hid. rewrite Hs in Hid. destruct (Hrx _ _ Hid) as (A' & t' & f & Hst & Hid').
    destruct (decide (stop = i)) as [->|Hne].
    + exists A, t, f'. simplify_eq. split; [|done]. by apply list_lookup_insert_eq, (lookup_lt_Some _ _ _ Ht).
    + exists A', t', f. by rewrite list_lookup_insert_ne.
Qed.

Lemma tracked_crash r ts i A t :
  tracked r ts → ts !! i = Some (A, t, Running) →
  tracked (with_shared (drop_stop t) r) (<[i := (A, t, Crashed)]> ts).
Proof.
  intros Hw Ht. apply tracked_fate; try done. intros name e. simpl. rewrite (tracked_registry _ _ Hw).
  split.
  - intros (j & A' & t' & f & Hj & Hf & He). destruct (decide (j = i)) as [->|Hne].
    + exists i, A, t, Crashed. simplify_eq. rewrite list_lookup_insert_eq by (by eapply lookup_lt_Some).
      by rewrite <-He.
    + exists j, A', t', f. by rewrite list_lookup_insert_ne.
  - intros (j & A' & t' & f & [[-> ?]|[_ Hj]]%(set_fate_lookup _ _ _ _ _ _ _ _ Ht) & Hf & He).
    + simplify_eq. by exists i, A, t, Running.
    + by exists j, A', t', f.
Qed.

Lemma tracked_end r ts i A t res :
  tracked r ts → ts !! i = Some (A, t, Running) →
  (* the actor's name is its own among those that have not ended *)
  (∀ j A' t' f, ts !! j = Some (A', t', f) → (∀ res, f ≠ Ended res) →
     ta_name (tk_ref t') = ta_name (tk_ref t) → j = i) →
  tracked (with_shared (λ s, (end_task t res (mark_dead t s)).2) r) (<[i := (A, t, Ended res)]> ts).
Proof.
  intros Hw Ht Hname. pose proof (tracked_index _ _ Hw _ _ _ _ Ht) as [Hstop Hal].
  apply tracked_fate; try done.
  - simpl. by rewrite length_insert.
  - intros j. apply mark_dead_alive.
  - intros _ _. simpl. rewrite Hal. apply list_lookup_insert_eq. rewrite (tracked_alive _ _ Hw).
    by eapply lookup_lt_Some.
  - intros name e. simpl. destruct (decide (name = ta_name (tk_ref t))) as [->|Hne].
    + rewrite lookup_delete_eq. split; [done|].
      intros (j & A' & t' & f & [[-> ?]|[Hj Hjt]]%(set_fate_lookup _ _ _ _ _ _ _ _ Ht) & Hf & He).
      * simplify_eq. by destruct (Hf res).
      * destruct Hj. unfold entry_of in He. simpl in He. eapply Hname; [done..|congruence].
    + rewrite lookup_delete_ne by done. rewrite (tracked_registry _ _ Hw). split.
      * intros (j & A' & t' & f & Hj & Hf & He). exists j, A', t', f. split; [|done].
        rewrite list_lookup_insert_ne; [done|]. intros ->.
        unfold entry_of in He. by simplify_eq/=.
      * intros (j & A' & t' & f & [[-> ?]|[Hj Hjt]]%(set_fate_lookup _ _ _ _ _ _ _ _ Ht) & Hf & He).
        -- simplify_eq. by destruct (Hf res).
        -- by exists j, A', t', f.
Qed.

(** Under the discipline of [rt_step] the names of the actors that have not
    ended are distinct. *)
Definition distinct_names ts : Prop :=
  ∀ i j A A' t t' f f', ts !! i = Some (A, t, f) → ts !! j = Some (A', t', f') →
    (∀ res, f ≠ Ended res) → (∀ res, f' ≠ Ended res) →
    ta_name (tk_ref t) = ta_name (tk_ref t') → i = j.

Lemma distinct_fate ts i A t f' :
  distinct_names ts → ts !! i = Some (A, t, Running) → distinct_names (<[i := (A, t, f')]> ts).
Proof.
  intros Hd Ht.
  assert (∀ j A' t' f, (<[i := (A, t, f')]> ts) !! j = Some (A', t', f) → (∀ res, f ≠ Ended res) →
            ∃ f0, ts !! j = Some (A', t', f0) ∧ ∀ res, f0 ≠ Ended res) as Hold.
  { intros j A' t' f [[-> ?]|[_ Hj]]%(set_fate_lookup _ _ _ _ _ _ _ _ Ht) Hf; [|by exists f].
    simplify_eq. by exists Running. }
  intros j k A1 A2 t1 t2 f1 f2 Hj Hk Hf1 Hf2 Hn.
  destruct (Hold _ _ _ _ Hj Hf1) as (? & ? & ?), (Hold _ _ _ _ Hk Hf2) as (? & ? & ?). by eapply Hd.
Qed.

Lemma tracked_spawn A name (ics : list Ib) mailbox t r r' ts :
  tracked r ts → distinct_names ts → name_is_free name ts → (tr_next_local r + 1 < 2 ^ 64)%N →
  TestRuntime_spawn_internal A name ics mailbox r = (Some t, r') →
  tracked r' (ts ++ [(A, t, Running)]) ∧ distinct_names (ts ++ [(A, t, Running)]).
Proof.
  intros [Hi Hch Ha Hdead Hids Hloc Hnext Hrx Hreg] Hdn Hfree Hsmall Hsp.
  pose proof (spawn_effect A name ics mailbox r) as He. rewrite Hsp in He. cbn zeta in He.
  destruct He as (Hn & Hl & Hid & Hname & Hstop & Hal & Hs).
  unfold wrapping_add64, wrap64 in Hl. rewrite N.mod_small in Hl by done.
  rewrite Hch, length_fmap in Hstop. rewrite Ha in Hal.
  assert (∀ j A' t' f, (ts ++ [(A, t, Running)]) !! j = Some (A', t', f) →
            ts !! j = Some (A', t', f) ∨ j = length ts ∧ A' = A ∧ t' = t ∧ f = Running) as Hnew.
  { intros j A' t' f [?|[Hj [? ?]%list_lookup_singleton_Some]]%lookup_app_Some;
      [by left|right].
    simplify_eq. split; [lia|done]. }
  assert (∀ j A' t' f, ts !! j = Some (A', t', f) → (∀ res, f ≠ Ended res) →
            ta_name (tk_ref t') ≠ name) as Hfresh.
  { intros j A' t' f Hj Hf Heq. destruct (Hfree _ _ _ _ Hj Heq) as [res ->]. by eapply Hf. }
  split; [split; simpl|].
  - intros j A' t' f [Hj|(-> & -> & -> & ->)]%Hnew; [by eapply Hi|done].
  - by rewrite Hs, Hch, fmap_app.
  - rewrite Hs. simpl. rewrite !length_app. simpl. lia.
  - intros j A' t' res [Hj|(-> & _ & _ & [=])]%Hnew. rewrite Hs. simpl. apply lookup_app_l_Some. by eapply Hdead.
  - rewrite fmap_app, NoDup_app. split_and!; [done| |apply NoDup_singleton]. simpl.
    intros x ([[A' t'] f] & -> & [j Hj]%list_elem_of_lookup)%list_elem_of_fmap Hin%list_elem_of_singleton.
    apply Hloc in Hj as [_ Hj]. simpl in Hin. rewrite Hin, Hid in Hj. simpl in Hj. lia.
  - intros j A' t' f [Hj|(-> & -> & -> & ->)]%Hnew.
    + apply Hloc in Hj as [-> ?]. split; [done|lia].
    + rewrite Hid, Hn. simpl. split; [done|lia].
  - lia.
  - rewrite Hs. simpl. intros id stop. rewrite lookup_insert_Some. intros [[<- <-]|[Hne Hst]].
    + exists A, t, Running. rewrite Hstop. split; [|done]. by apply list_lookup_middle.
    + destruct (Hrx _ _ Hst) as (A' & t' & f & Hj & Hid'). exists A', t', f. split; [|done].
      by apply lookup_app_l_Some.
  - intros nm e. rewrite Hs. simpl. rewrite lookup_insert_Some, Hreg. split.
    + intros [[<- <-]|[Hne (j & A' & t' & f & Hj & Hf & He)]].
      * exists (length ts), A, t, Running. split_and!; [by apply list_lookup_middle|done|].
        unfold entry_of. simpl. by rewrite Hname.
      * exists j, A', t', f. split_and!; [by apply lookup_app_l_Some|done..].
    + intros (j & A' & t' & f & [Hj|(-> & -> & -> & ->)]%Hnew & Hf & He).
      * right. split; [|by exists j, A', t', f]. intros <-. unfold entry_of in He. simplify_eq/=.
        by eapply Hfresh.
      * left. unfold entry_of in He. by simplify_eq/=.
  - intros j k A1 A2 t1 t2 f1 f2 [Hj|(-> & -> & -> & ->)]%Hnew [Hk|(-> & -> & -> & ->)]%Hnew Hf1 Hf2 Heq;
      [by eapply Hdn|..|done].
    + destruct (Hfresh _ _ _ _ Hj Hf1). congruence.
    + destruct (Hfresh _ _ _ _ Hk Hf2). congruence.
Qed.

Lemma tracked_ext r r' ts :
  tr_shared r' = tr_shared r → tr_node_id r' = tr_node_id r → (tr_next_local r <= tr_next_local r')%N →
  tracked r ts → tracked r' ts.
Proof.
  intros Hs Hn Hl [Hi Hch Ha Hdead Hids Hloc Hnext Hrx Hreg].
  split; rewrite ?Hs; try done; [|lia]. intros i A t f Hj. rewrite Hn.
  destruct (Hloc _ _ _ _ Hj). split; [done|lia].
Qed.

Lemma rt_step_tracked r ts r' ts' :
  rt_step (r, ts) (r', ts') → tracked r ts → distinct_names ts → (tr_next_local r + 1 < 2 ^ 64)%N →
  tracked r' ts' ∧ distinct_names ts' ∧ (tr_next_local r' <= tr_next_local r + 1)%N.
Proof.
  intros Hst Hw Hd Hsmall. inversion Hst; subst; simpl;
    try (split_and!; [apply tracked_same; done|done|lia]).
  1,2: match goal with H : TestRuntime_spawn_internal ?A ?name ?ics ?mailbox ?r = _ |- _ =>
      rename H into Hsp; pose proof (spawn_effect A name ics mailbox r) as He end;
    rewrite Hsp in He; destruct He as (Hn & Hl & He); unfold wrapping_add64, wrap64 in Hl;
    rewrite N.mod_small in Hl by done.
  - edestruct tracked_spawn as [? ?]; [done..|]. split_and!; [done..|lia].
  - split_and!; [|done|lia]. eapply tracked_ext; [done..| |done]. lia.
  - split_and!; [|done|lia]. apply tracked_same; [done..|simpl; by rewrite length_insert| |done|done].
    intros j. apply mark_dead_alive.
  - split_and!; [|by apply distinct_fate|lia]. apply tracked_end; [done..|].
    intros j A' t' f Hj Hf Hn. by eapply Hd.
  - split_and!; [by apply tracked_crash|by apply distinct_fate|lia].
  - split_and!; [|done|lia]. apply tracked_same; [done..|apply delete_subseteq|done].
  - split_and!; [|done|lia]. apply tracked_same; [done..|apply map_empty_subseteq|done].
  - split_and!; [|done|lia]. apply tracked_same; [done..|apply map_filter_subseteq|done].
  - split_and!; [|done|lia]. by apply (tracked_ext r).
Qed.

Lemma rt_steps_tracked k r ts r' ts' :
  nsteps rt_step k (r, ts) (r', ts') → tracked r ts → distinct_names ts →
  (tr_next_local r + N.of_nat k < 2 ^ 64)%N → tracked r' ts'.
Proof.
  revert r ts. induction k as [|k IH]; intros r ts Hst Hw Hd Hk; inversion Hst as [|? ? [r1 ts1]]; subst; [done|].
  destruct (rt_step_tracked r ts r1 ts1) as (? & ? & ?); [done..|lia|].
  eapply IH; [done..|]. lia.
Qed.
End runs.

(** ** The task of an actor in its runtime
    The world is what the runtime shares and the rest, [V]. *)
Class OutsideWorld (V Rf : Type) := {
  ow_timer : N → V → V;
  ow_notify : Rf → ChildTerminated → V → V
}.
Section task.
Context {W M T R Ib Rf V A M' T' Snd R' : Type} `{OutsideWorld V Rf}.
Abbreviation World := (Shared W M T R Rf * V)%type.
Context `{Actor A World M' T' Snd R'}.

#[export] Instance shared_world : LoopWorld World Rf := {|
  start_timer d w := (w.1, ow_timer d w.2);
  watcher_map w := sh_watchers w.1;
  set_watcher_map m w := (set_sh_watchers m w.1, w.2);
  run_notify n c w := (w.1, ow_notify n c w.2)
|}.
Definition on_shared (f : Shared W M T R Rf → Shared W M T R Rf) (w : World) : World := (f w.1, w.2).

Context (ics : list (InboundInterceptor World (option M') T' R'
  (Task ((A * ActorContext World) * option (option (DispatchResult World R'))) World ()))).
Context (dead_letters : option (DeadLetterHandler World)).

Definition actor_task (t : SpawnedTask W M T R Ib)
    (mailbox : StreamReceiver (option (RuntimeHeaders * Dispatch World M' T' Snd R'))) :
    Task ((A * ActorContext World) * option string) World () :=
  TestRuntime_task ics dead_letters (on_shared (mark_dead t)) (on_shared (unregister_name t))
    (λ res, on_shared (send_stop t res)) mailbox.
Definition tell_watchers (entries : list (WatchEntry Rf)) (notification : ChildTerminated) (v : V) : V :=
  foldl (λ v e, ow_notify (notify e) notification v) v entries.
Lemma notify_all_shared entries c (w : World) :
  notify_all entries c w = (w.1, tell_watchers entries c w.2).
Proof.
  unfold notify_all, tell_watchers. revert w.
  induction entries as [|e es IH]; intros w; [by destruct w|]. simpl. by rewrite IH.
Qed.
End task.

(** ** The properties *)
Module Spec.
Section spec.
Context {W M T R Ib Rf : Type}.

(** C9. The reference runtime keeps track of its actors, over any run of its
    methods and its actors' tasks in which no actor is spawned under the name of
    one that has not ended: ids are unique; the stop handle stored for an id
    gives the outcome of that actor's task, and none while it runs; the flag of
    an actor that ended is down; a name looks up an actor exactly when that
    actor has the name and the type asked for and has not ended. *)
Theorem runtime_tracks_actors (n : NodeId) k (r : TestRuntime W M T R Rf)
    (ts : list (string * SpawnedTask W M T R Ib * Fate)) :
  nsteps rt_step k (TestRuntime_with_node_id n, []) (r, ts) → (N.of_nat k < 2 ^ 64 - 1)%N →
  NoDup ((λ e, ta_id (tk_ref e.1.2)) <$> ts) ∧
  (∀ id stop, (TestRuntime_await_stop id r).1 = Some stop →
     ∃ A t f, ts !! stop = Some (A, t, f) ∧ ta_id (tk_ref t) = id
       ∧ TestRuntime_await_stop_poll (Some stop) r
         = match f with
           | Running => None
           | Ended res => Some res
           | Crashed => Some (Err "stop notifier dropped")
           end) ∧
  (∀ i A t res, ts !! i = Some (A, t, Ended res) →
     sh_alive (tr_shared r) !! ta_alive (tk_ref t) = Some false) ∧
  (∀ A name ref, lookup_ref A name (sh_registry (tr_shared r)) = Some ref ↔
     ∃ i t f, ts !! i = Some (A, t, f) ∧ (∀ res, f ≠ Ended res)
       ∧ ta_name (tk_ref t) = name ∧ tk_ref t = ref).
Proof.
  intros Hst Hk.
  assert (tracked r ts) as [Hi Hch _ Hdead Hids _ _ Hrx Hreg].
  { eapply rt_steps_tracked; [done|apply tracked_new|by intros ?|simpl; lia]. }
  split_and!; [done|..].
  - intros id stop Hid. destruct (Hrx _ _ Hid) as (A & t & f & Hf & Ht). exists A, t, f.
    split_and!; [done..|]. simpl. unfold poll_stop. rewrite Hch, list_lookup_fmap, Hf. by destruct f.
  - intros i A t res Ht. destruct (Hi _ _ _ _ Ht) as [_ ->]. by eapply Hdead.
  - intros A name ref. unfold lookup_ref. split.
    + destruct (reg_entries _ !! name) as [e|] eqn:He; [|done]. cbn.
      apply Hreg in He as (i & A' & t & f & Ht & Hf & Heq). unfold entry_of in Heq. simplify_eq/=.
      case_decide; [|done]. intros [= <-]. subst. by exists i, t, f.
    + intros (i & t & f & Ht & Hf & <- & <-).
      rewrite (proj2 (Hreg (ta_name (tk_ref t)) (mkEntry A (tk_ref t)))); [|by exists i, A, t, f].
      cbn. by rewrite decide_True.
Qed.
End spec.

Section task_spec.
Context {W M T R Ib Rf V A M' T' Snd R' : Type} `{OutsideWorld V Rf}.
Abbreviation World := (Shared W M T R Rf * V)%type.
Context `{Actor A World M' T' Snd R'}.
Context (ics : list (InboundInterceptor World (option M') T' R'
  (Task ((A * ActorContext World) * option (option (DispatchResult World R'))) World ()))).
Context (dead_letters : option (DeadLetterHandler World)) (env : nat → World → World).

(** C8. From the loop to the runtime: the task of an actor runs [on_start] and
    the loop; then the actor's flag goes down, [on_stop] runs, every watcher is
    told once, in order, and is gone from the map, the stop handle, if nothing was
    sent to it yet, gets the outcome, and the name is free. Nothing else of the
    runtime changes. A panic in [on_start] or out of the loop leaves all of this
    undone. *)
Theorem task_ends_actor (t : SpawnedTask W M T R Ib) mailbox n l w :
  let id := ta_id (tk_ref t) in
  let name := ta_name (tk_ref t) in
  let a := run env n on_start l.1 w in
  let b := run env (tick a) (TestRuntime_loop ics dead_letters mailbox) (loc a, l.2) (world a) in
  let r := run env n (actor_task ics dead_letters t mailbox) l w in
  match out a, out b with
  | None, _ => r = mkRan (tick a) (loc a, l.2) (world a) None
  | Some _, None => r = b
  | Some _, Some _ =>
      ctx_actor_id (loc b).1.2 = id → ctx_actor_name (loc b).1.2 = name →
      let s := (world b).1 in
      let down := mkShared (sh_watchers s) (sh_registry s) (sh_stop_receivers s) (sh_stop_channels s)
                    (<[ta_alive (tk_ref t) := false]> (sh_alive s)) in
      let c := run env (tick b) on_stop (loc b).1.1 (down, (world b).2) in
      let res := if decide (out c = None) then Err on_stop_panic else Ok () in
      let before := (world c).1 in
      let after := (world r).1 in
      out r = Some ()
      ∧ (world r).2 = foldl (λ v e, ow_notify (notify e) (mkChildTerminated id name (loc b).2) v)
                        (world c).2 (default [] (sh_watchers before !! id))
      ∧ sh_watchers after = delete id (sh_watchers before)
      ∧ (∀ i, sh_stop_channels after !! i
           = if decide (i = tk_stop t)
             then (λ ch, match ch with Waiting => Sent res | ch => ch end) <$> sh_stop_channels before !! i
             else sh_stop_channels before !! i)
      ∧ reg_entries (sh_registry after) = delete name (reg_entries (sh_registry before))
      ∧ sh_alive after = sh_alive before ∧ sh_stop_receivers after = sh_stop_receivers before
  end.
Proof.
  cbn zeta. set (a := run env n on_start l.1 w).
  set (b := run env _ (TestRuntime_loop ics dead_letters mailbox) _ _).
  remember (run env n (actor_task ics dead_letters t mailbox) l w) as r eqn:Hr.
  unfold actor_task, TestRuntime_task, start in Hr. rewrite run_bind, run_on_fst in Hr. cbn zeta in Hr.
  fold a in Hr. unfold run_then in Hr at 1. cbn [out tick loc world] in Hr.
  destruct (out a); [|done]. rewrite run_bind in Hr. fold b in Hr. unfold run_then in Hr at 1.
  destruct (out b) eqn:Hb; [|rewrite Hr, <-Hb; by destruct b]. intros Hid Hname.
  rewrite run_bind, run_sync in Hr. unfold run_then in Hr. cbn [out tick loc world] in Hr.
  rewrite run_bind, run_post_stop in Hr. cbn zeta in Hr. rewrite Hid, Hname in Hr.
  unfold on_shared, mark_dead, set_sh_alive in Hr.
  set (c := run env (tick b) on_stop _ _) in *. change (watcher_map (world c)) with (sh_watchers (world c).1) in Hr.
  unfold remove_watchers in Hr. cbn [cleans_watcher TestRuntime_stop_policy] in Hr.
  unfold run_then in Hr. cbn [out tick loc world] in Hr.
  rewrite run_sync, notify_all_shared in Hr. subst r. split_and!; try done. intros i. apply settle_lookup.
Qed.
End task_spec.

(** *** A concrete runtime *)
Abbreviation DemoShared := (Shared () () () () ()).
Abbreviation DemoRuntime := (TestRuntime () () () () ()).
Abbreviation DemoTasks := (list (string * SpawnedTask () () () () () * Fate)).
Definition demo_node : NodeId := mkNodeId "n1".
Definition demo_spawn (name : string) (r : DemoRuntime) : SpawnedTask () () () () () :=
  default (mkSpawnedTask (mkTestActorRef (mkActorRefData (mkActorId demo_node 0) "" [] None None)
                            Unbounded 0) [] None 0)
    (TestRuntime_spawn (Ib := ()) "Counter" name r).1.
Definition demo_0 : DemoRuntime := TestRuntime_with_node_id demo_node.
Definition demo_1 : DemoRuntime := (TestRuntime_spawn (Ib := ()) "Counter" "a" demo_0).2.
Definition demo_2 : DemoRuntime :=
  with_shared (λ s, (end_task (demo_spawn "a" demo_0) (Ok ()) (mark_dead (demo_spawn "a" demo_0) s)).2) demo_1.
Definition demo_3 : DemoRuntime := (TestRuntime_spawn (Ib := ()) "Counter" "a" demo_2).2.
Definition demo_tasks : DemoTasks :=
  [("Counter", demo_spawn "a" demo_0, Ended (Ok ())); ("Counter", demo_spawn "a" demo_2, Running)].

Lemma runtime_tracks_actors_witness :
  lookup_ref "Counter" "a" (sh_registry (tr_shared demo_3)) = Some (tk_ref (demo_spawn "a" demo_2))
  ∧ NoDup ((λ e, ta_id (tk_ref e.1.2)) <$> demo_tasks).
Proof.
  destruct (runtime_tracks_actors demo_node 3 demo_3 demo_tasks) as (Hnd & _ & _ & Hreg);
    [|vm_compute; reflexivity|].
  - apply (nsteps_l _ _ _ (demo_1, [("Counter", demo_spawn "a" demo_0, Running)])).
    { apply (step_spawn "Counter" "a" [] Unbounded (demo_spawn "a" demo_0) demo_0 demo_1 []); [by intros ?|done]. }
    apply (nsteps_l _ _ _ (demo_2, [("Counter", demo_spawn "a" demo_0, Ended (Ok ()))])).
    { apply (step_end 0 "Counter" (demo_spawn "a" demo_0) (Ok ()) demo_1
        [("Counter", demo_spawn "a" demo_0, Running)]). done. }
    apply nsteps_once.
    apply (step_spawn "Counter" "a" [] Unbounded (demo_spawn "a" demo_2) demo_2 demo_3
      [("Counter", demo_spawn "a" demo_0, Ended (Ok ()))]); [|done].
    intros [|i] A t fate Hi Hn; simplify_eq/=. by exists (Ok ()).
  - split; [|exact Hnd]. apply Hreg. exists 1, (demo_spawn "a" demo_2), Running. by split_and!.
Defined.

(** Names are freed by name: when the first of two actors of the same name ends,
    the second is still running, and no longer registered. *)
Lemma name_clash :
  let r := (TestRuntime_spawn (Ib := ()) "Counter" "a" demo_1).2 in
  let second := demo_spawn "a" demo_1 in
  let first := demo_spawn "a" demo_0 in
  let s := (end_task first (Ok ()) (mark_dead first (tr_shared r))).2 in
  lookup_ref "Counter" "a" (sh_registry (tr_shared r)) = Some (tk_ref second)
  ∧ sh_alive s !! ta_alive (tk_ref second) = Some true
  ∧ lookup_ref "Counter" "a" (sh_registry s) = None.
Proof. vm_compute. done. Qed.

(** An actor whose [on_stop] panics, watched by one that only listens. *)
Abbreviation DemoWorld := (DemoShared * list ChildTerminated)%type.
#[local] Instance demo_outside : OutsideWorld (list ChildTerminated) () :=
  {| ow_timer _ v := v; ow_notify _ c v := (v ++ [c])%list |}.
#[local] Instance demo_actor : Actor nat DemoWorld () () () () := {|
  type_name _ := "Msg"; item_type_name := "Item";
  on_start := mret (); on_stop := panic_now; on_error := default_on_error;
  handle _ := mret (); handle_expand _ _ := mret (); handle_reduce _ := mret ();
  handle_transform _ _ := mret (); on_transform_complete _ := mret ()
|}.
Lemma task_ends_actor_witness :
  let t := demo_spawn "a" demo_0 in
  let watched := tr_shared (TestRuntime_watch (mkActorId demo_node 9) () (ta_id (tk_ref t)) demo_1) in
  let r := run (λ _ w, w) 0 (actor_task [] None t [Some None])
             (spawned (ta_id (tk_ref t)) "a" 0) (watched, []) in
  out r = Some ()
  ∧ (world r).2 = [mkChildTerminated (ta_id (tk_ref t)) "a" None]
  ∧ lookup_ref "Counter" "a" (sh_registry (world r).1) = None
  ∧ sh_stop_channels (world r).1 !! tk_stop t = Some (Sent (Err on_stop_panic)).
Proof.
  intros t watched.
  pose proof (task_ends_actor [] None (λ _ w, w) t [Some None] 0
    (spawned (ta_id (tk_ref t)) "a" 0) (watched, [])) as Hend.
  cbn zeta. hnf in Hend. destruct (Hend eq_refl eq_refl) as (Hout & Hheard & _ & Hchan & Hname & _). clear Hend.
  split; [exact Hout|]. split; [exact Hheard|].
  split; [|exact (Hchan (tk_stop t))]. unfold lookup_ref. rewrite Hname. reflexivity.
Defined.
End Spec.
