(* ===== verification/Conformance.v ===== *)
(** * The conformance suite (dactor/src/test_support/conformance.rs)

    The suite's actors, and its tests as programs of Client.v. The tests of the
    counters, of the lifecycle and of the error recovery are run against actors
    of the reference runtime, on every schedule; those of the streams are in
    ConformanceStreams.v.

    A test is given an actor that was spawned with its arguments: a reference
    without interceptors and an unbounded mailbox, as [spawned_plain] says of
    TestRuntime.v. [test_concurrent_asks] has several callers at once and is
    [concurrent_asks_pass]. *)
From Stdlib Require Import Sorting.Sorted.
From S2P Require Import Prelude Node Message Channel Mailbox Interceptor Task Actor Dispatch Stream.
From S2P Require Import RuntimeSupport Supervision DeadLetter ActorLoop AdapterRef Session Client.
From S2P Require Import Lifecycle NativeActors TestRuntime.

#[local] Open Scope string_scope.
#[local] Open Scope list_scope.
#[local] Open Scope nat_scope.

(** A synchronous handler: the new state and the reply, or a panic. *)
Definition handler_of {A W R} (f : A → option (A * R)) : HTask A W R :=
  Await (λ l w, match f l.1 with
                | Some (a, r) => ((a, l.2), w, Ready r)
                | None => (l, w, Panicked)
                end).

(** ** ConformanceCounter *)
Inductive ConformanceMsg := Increment (n : N) | GetCount.
Inductive ConformanceReply := Incremented | Count (n : N).

Section counter.
Context {W Snd : Type} (p : profile).

Definition ConformanceCounter_handle (m : ConformanceMsg) (count : N) : option (N * ConformanceReply) :=
  match m with
  | Increment n => count ← add64 p count n; Some (count, Incremented)
  | GetCount => Some (count, Count count)
  end.
Definition ConformanceCounter : Actor N W ConformanceMsg () Snd ConformanceReply := {|
  type_name m := match m with Increment _ => "Increment" | GetCount => "GetCount" end;
  item_type_name := "";
  on_start := mret (); on_stop := mret (); on_error := default_on_error;
  handle m := handler_of (ConformanceCounter_handle m);
  handle_expand _ _ := mret (); handle_reduce _ := mret Incremented;
  handle_transform _ _ := mret (); on_transform_complete _ := mret ()
|}.
End counter.

(** ** ConformanceMultiHandler *)
Inductive MultiMsg := AddValue (n : Z) | MulValue (n : Z).

Section multi.
Context {W Snd : Type} (p : profile).

(** The plain [*] on [i64]. *)
Definition mul_i64 (x y : Z) : option Z :=
  if ((i64_min <=? x * y) && (x * y <=? i64_max))%Z then Some (x * y)%Z
  else match p with Debug => None | Release => Some (as_i64 (x * y)) end.
Definition ConformanceMultiHandler_handle (m : MultiMsg) (value : Z) : option (Z * Z) :=
  match m with
  | AddValue n => value ← add_i64 p value n; Some (value, value)
  | MulValue n => value ← mul_i64 value n; Some (value, value)
  end.
Definition ConformanceMultiHandler : Actor Z W MultiMsg () Snd Z := {|
  type_name m := match m with AddValue _ => "AddValue" | MulValue _ => "MulValue" end;
  item_type_name := "";
  on_start := mret (); on_stop := mret (); on_error := default_on_error;
  handle m := handler_of (ConformanceMultiHandler_handle m);
  handle_expand _ _ := mret (); handle_reduce _ := mret 0%Z;
  handle_transform _ _ := mret (); on_transform_complete _ := mret ()
|}.
End multi.

(** ** Actors that share an [Arc] with the test *)
Class SharedWorld (W R V : Type) `{SessionWorld W R V} := {
  put_shared : V → W → W;
  put_shared_spec v w : shared (put_shared v w) = v
    ∧ (∀ ch, reply_of ch (put_shared v w) = reply_of ch w)
    ∧ alive_flag (put_shared v w) = alive_flag w
}.

(** *** ConformanceLifecycle: [Arc<Mutex<Vec<String>>>] *)
Section lifecycle.
Context {W Snd : Type} `{SharedWorld W () (list string)}.

Definition log_event {L} (event : string) : Task L W () :=
  sync (λ l w, (l, put_shared (shared w ++ [event]) w, ())).
(** [LifecyclePing] is the only message. *)
Definition ConformanceLifecycle : Actor () W () () Snd () := {|
  type_name _ := "LifecyclePing"; item_type_name := "";
  on_start := log_event "start"; on_stop := log_event "stop"; on_error := default_on_error;
  handle _ := mret ();
  handle_expand _ _ := mret (); handle_reduce _ := mret ();
  handle_transform _ _ := mret (); on_transform_complete _ := mret ()
|}.
End lifecycle.

(** *** ConformanceResumeActor: [Arc<AtomicU64>] *)
Inductive ResumeMsg := PanicMsg | CountMsg.

Section resume.
Context {W Snd : Type} `{SharedWorld W () N}.

Definition ConformanceResumeActor : Actor () W ResumeMsg () Snd () := {|
  type_name m := match m with PanicMsg => "PanicMsg" | CountMsg => "CountMsg" end;
  item_type_name := "";
  on_start := mret (); on_stop := mret ();
  on_error _ a w := (ResumeAction, a, w);
  handle m :=
    match m with
    | PanicMsg => panic_now
    | CountMsg => sync (λ l w, (l, put_shared (wrapping_add64 (shared w) 1) w, ()))
    end;
  handle_expand _ _ := mret (); handle_reduce _ := mret ();
  handle_transform _ _ := mret (); on_transform_complete _ := mret ()
|}.
End resume.

(** ** The tests *)
Section tests.
Abbreviation CounterTest := (Client ConformanceMsg ConformanceReply ()).
Abbreviation count_is n r := (match r with Count c => (c =? n)%N | Incremented => false end).

Definition get_count_is (n : N) (k : CounterTest) : CounterTest :=
  ask_await GetCount (λ r, assert_then (count_is n r) k).
Definition expect_dead : CounterTest := CAlive (λ alive, Done (negb alive)).

Definition test_tell_and_ask : CounterTest :=
  tell_unwrap (Increment 5) (tell_unwrap (Increment 3) (CSleep (λ _,
    get_count_is 8 (CStop (CSleep (λ _, expect_dead)))))).
Definition test_message_ordering : CounterTest :=
  repeat_prog 100 (tell_unwrap (Increment 1)) (CSleep (λ _, get_count_is 100 (Done true))).
Definition test_ask_reply : CounterTest := get_count_is 42 (Done true).
Definition test_stop : CounterTest :=
  CAlive (λ alive, assert_then alive (CStop (CSleep (λ _, expect_dead)))).
Definition test_cancel_ask : CounterTest :=
  CAsk GetCount true (λ r, unwrap r (λ i, CAwait i (λ a,
    Done (match a with Err RCancelled => true | _ => false end)))).
(** The running total in [expected_sum]. *)
Fixpoint ask_and_check (n : nat) (i expected_sum : N) : CounterTest :=
  match n with
  | 0 => Done true
  | S n =>
      let expected_sum := (expected_sum + i)%N in
      ask_await (Increment i) (λ _, get_count_is expected_sum (ask_and_check n (i + 1) expected_sum))
  end.
Definition test_message_ordering_under_load : CounterTest := ask_and_check 100 1 0.
(** [for _ in 0..50 { if !actor.is_alive() { break; } sleep(20ms) }]. *)
Fixpoint poll_stopped (n : nat) (k : CounterTest) : CounterTest :=
  match n with
  | 0 => k
  | S n => CAlive (λ alive, if alive then CSleep (λ _, poll_stopped n k) else k)
  end.
Definition stop_and_poll (k : CounterTest) : CounterTest :=
  CStop (poll_stopped 50 (CAlive (λ alive, assert_then (negb alive) k))).
Definition test_tell_after_stop : CounterTest :=
  stop_and_poll (CTell (Increment 1) (λ r, Done (is_err r))).
Definition test_ask_after_stop : CounterTest :=
  stop_and_poll (CAsk GetCount false (λ r, Done (is_err r))).
Definition test_rapid_stop_and_send : CounterTest :=
  repeat_prog 5 (tell_unwrap (Increment 1)) (get_count_is 5 (stop_and_poll
    (CTell (Increment 1) (λ r, assert_then (is_err r)
       (CAsk GetCount false (λ r, Done (is_err r))))))).

Definition test_multiple_handlers : Client MultiMsg Z () :=
  ask_await (AddValue 5) (λ v, assert_then (v =? 15)%Z (ask_await (MulValue 3) (λ v,
    assert_then (v =? 45)%Z (ask_await (AddValue 5) (λ v, Done (v =? 50)%Z))))).

Definition test_lifecycle_ordering : Client () () (list string) :=
  CSleep (λ _, tell_unwrap () (CSleep (λ _, CStop (CSleep (λ entries,
    Done match position (String.eqb "start") entries, position (String.eqb "stop") entries with
         | Some start_idx, Some stop_idx => start_idx <? stop_idx
         | _, _ => false
         end))))).

Definition test_on_error_resume : Client ResumeMsg () N :=
  tell_unwrap PanicMsg (tell_unwrap CountMsg (CSleep (λ count,
    assert_then (count =? 1)%N (CAlive Done)))).
End tests.

(** What each of the ten tasks of [test_concurrent_asks] checks of its replies. *)
Fixpoint never_backwards (prev : N) (counts : list N) : bool :=
  match counts with
  | [] => true
  | count :: counts => (prev <=? count)%N && never_backwards count counts
  end.

(** The tests of the counter that the reference runtime is run against, with the
    count it is spawned with. *)
Definition counter_suite : list (N * Client ConformanceMsg ConformanceReply ()) :=
  [(0%N, test_tell_and_ask); (0%N, test_message_ordering); (42%N, test_ask_reply);
   (0%N, test_stop); (0%N, test_cancel_ask); (0%N, test_message_ordering_under_load)].

(** *** Tests of the spawn *)
Section spawn_tests.
Context {W M T R Ib Rf : Type}.
Abbreviation Runtime := (TestRuntime W M T R Rf).
Abbreviation spawn_ := (TestRuntime_spawn (Ib := Ib)).

(** [A] is the type name of the reference. *)
Definition test_unique_ids (A : string) (r : Runtime) : bool :=
  match spawn_ A "a" r with
  | (Some a1, r) =>
      match spawn_ A "b" r with
      | (Some a2, _) => negb (bool_decide (ta_id (tk_ref a1) = ta_id (tk_ref a2)))
      | (None, _) => false
      end
  | (None, _) => false
  end.
Definition test_actor_name (A : string) (r : Runtime) : bool :=
  match spawn_ A "my-counter" r with
  | (Some actor, _) => bool_decide (ta_name (tk_ref actor) = "my-counter")
  | (None, _) => false
  end.

Lemma spawned_plain A name node :
  ∃ t r, spawn_ A name (TestRuntime_with_node_id node : Runtime) = (Some t, r)
    ∧ rf_interceptors (ta_data (tk_ref t)) = [] ∧ rf_dead_letter_handler (ta_data (tk_ref t)) = None
    ∧ ta_mailbox (tk_ref t) = Unbounded.
Proof. by do 2 eexists. Qed.
Lemma spawn_tests_pass A (r : Runtime) :
  (tr_next_local r + 1 < 2 ^ 64)%N → test_unique_ids A r = true ∧ test_actor_name A r = true.
Proof.
  intros Hsmall. unfold test_unique_ids, test_actor_name.
  assert (∀ name (r : Runtime), ∃ t r', spawn_ A name r = (Some t, r')) as Hsome.
  { intros name r1. unfold TestRuntime_spawn, TestRuntime_spawn_internal.
    destruct (assign_id _ _). destruct (metrics_first _ _ _). by do 2 eexists. }
  destruct (Hsome "a" r) as (t1 & r1 & H1), (Hsome "b" r1) as (t2 & r2 & H2),
    (Hsome "my-counter" r) as (t3 & r3 & H3). rewrite H1, H2, H3.
  pose proof (spawn_effect A "a" ([] : list Ib) Unbounded r) as E1.
  pose proof (spawn_effect A "b" ([] : list Ib) Unbounded r1) as E2.
  pose proof (spawn_effect A "my-counter" ([] : list Ib) Unbounded r) as E3.
  unfold TestRuntime_spawn in H1, H2, H3. rewrite H1 in E1. rewrite H2 in E2. rewrite H3 in E3.
  destruct E1 as (Hn1 & Hl1 & Hid1 & _), E2 as (_ & _ & Hid2 & _), E3 as (_ & _ & _ & Hname & _).
  split; [|by apply bool_decide_eq_true_2]. apply negb_true_iff, bool_decide_eq_false_2.
  rewrite Hid1, Hid2, Hl1. unfold wrapping_add64. rewrite wrap64_small by done. intros [= _ ?]. lia.
Qed.
End spawn_tests.

(** ** The actors as sequential objects *)
Definition plain_behaviour {A M R} (f : M → A → option (A * R)) : Behaviour A M R () := {|
  step m st := match f m st.1 with
               | Some (a, r) => ((a, st.2), Some r)
               | None => (st, None)
               end;
  resume st := (false, st); start_hook st := st; stop_hook st := st.2
|}.
Definition Counter_behaviour (p : profile) := plain_behaviour (ConformanceCounter_handle p).
Definition Multi_behaviour (p : profile) := plain_behaviour (ConformanceMultiHandler_handle p).
Definition Lifecycle_behaviour : Behaviour () () () (list string) := {|
  step _ st := (st, Some ()); resume st := (false, st);
  start_hook st := (st.1, st.2 ++ ["start"]); stop_hook st := st.2 ++ ["stop"]
|}.
Definition Resume_behaviour : Behaviour () ResumeMsg () N := {|
  step m st := match m with
               | PanicMsg => (st, None)
               | CountMsg => ((st.1, wrapping_add64 st.2 1), Some ())
               end;
  resume st := (true, st); start_hook st := st; stop_hook st := st.2
|}.

Lemma handler_of_settles {A M W R V} `{SessionWorld W R V} (f : M → A → option (A * R)) m a v c :
  settles keeps_world
    (moves v (λ o l v', match f m a with
                        | Some (a, r) => ((a, v), Some r)
                        | None => ((a, v), None)
                        end = ((l.1, v'), o))) (handler_of (f m)) (a, c).
Proof. intros w. cbn. destruct (f m a) as [[a' r]|]; intros <-; by split. Qed.

Section implementations.
Context {W Snd : Type}.

Lemma counter_implements p `{SessionWorld W ConformanceReply ()} :
  implements (H := ConformanceCounter (W := W) (Snd := Snd) p) (Counter_behaviour p).
Proof.
  split.
  - intros m a v c. apply handler_of_settles.
  - intros a w. cbn. by destruct (shared w).
  - intros a v c w <-. by split.
  - intros a v w <-. by split.
Qed.
Lemma multi_implements p `{SessionWorld W Z ()} :
  implements (H := ConformanceMultiHandler (W := W) (Snd := Snd) p) (Multi_behaviour p).
Proof.
  split.
  - intros m a v c. apply handler_of_settles.
  - intros a w. cbn. by destruct (shared w).
  - intros a v c w <-. by split.
  - intros a v w <-. by split.
Qed.
Lemma lifecycle_implements `{SharedWorld W () (list string)} :
  implements (H := ConformanceLifecycle (W := W) (Snd := Snd)) Lifecycle_behaviour.
Proof.
  split.
  - intros m a v c w <-. by split.
  - intros a w. cbn. by destruct a.
  - intros a v c w <-. cbn. destruct (put_shared_spec (shared w ++ ["start"]) w) as (-> & Hr & Hf).
    split; [done|]. split; [by intros ch o; rewrite Hr|done].
  - intros a v w <-. cbn. destruct (put_shared_spec (shared w ++ ["stop"]) w) as (-> & Hr & Hf).
    split; [done|]. split; [by intros ch o; rewrite Hr|done].
Qed.
Lemma resume_implements `{SharedWorld W () N} :
  implements (H := ConformanceResumeActor (W := W) (Snd := Snd)) Resume_behaviour.
Proof.
  split.
  - intros [] a v c w <-; [by split|]. cbn.
    destruct (put_shared_spec (wrapping_add64 (shared w) 1) w) as (-> & Hr & Hf).
    split; [done|]. split; [by intros ch o; rewrite Hr|done].
  - intros a w. by split.
  - intros a v c w <-. by split.
  - intros a v w <-. by split.
Qed.
End implementations.

(** What the object answers decides each test, by computation. *)
Lemma counter_suite_expected p t :
  t ∈ counter_suite →
  expect_prog (Counter_behaviour p) (object_start (Counter_behaviour p) t.1 ()) t.2 [] = true.
Proof.
  assert (forallb (λ t, expect_prog (Counter_behaviour p) (object_start (Counter_behaviour p) t.1 ()) t.2 [])
    counter_suite = true) as Hall by (destruct p; vm_compute; reflexivity).
  rewrite forallb_forall in Hall. intros Ht. by apply Hall, list_elem_of_In.
Qed.

(** ** The counter's replies *)
(** What the operations of a log add up to. *)
Definition increment_of (e : Entry ConformanceMsg) : N :=
  match e with ETell (Increment n) | EAsk (Increment n) _ false => n | _ => 0 end.
Definition increments (log : list (Entry ConformanceMsg)) : N := foldr (λ e s, increment_of e + s)%N 0%N log.

Section counts.
Context (p : profile).
Abbreviation counter := (Counter_behaviour p).

(** [c] is [c0] and [n] more: exactly so where an overflow is a panic, modulo 2^64
    in a release build. *)
Definition counted (c0 n c : N) : Prop := c = wrap64 (c0 + n) ∧ (p = Debug → c = (c0 + n)%N).
Lemma counted_add c0 m n c c' : counted c0 m c → counted c n c' → counted c0 (m + n) c'.
Proof.
  intros [-> Hc] [-> Hc']. split; [|intros Hp; rewrite Hc', Hc by done; lia].
  unfold wrap64. rewrite N.Div0.add_mod_idemp_l. f_equal. lia.
Qed.
Lemma counter_serves1 st e st' : (st.1 < 2 ^ 64)%N →
  (serve1 counter (Alive st) e).1 = Alive st' → counted st.1 (increment_of e) st'.1.
Proof.
  intros Hlt.
  assert (counted st.1 0 st.1) as H0 by (split; rewrite N.add_0_r; [by rewrite wrap64_small|done]).
  assert (∀ m s, (serve_message counter m st).1 = Alive s →
    counted st.1 (match m with Increment n => n | GetCount => 0 end)%N s.1) as Hm.
  { intros [n|] s; unfold serve_message; cbn; [|by intros [= <-]].
    destruct (add64 p st.1 n) as [c|] eqn:Hc; cbn; [|done]. intros [= <-].
    exact (checked64_Some _ _ _ Hc). }
  destruct e as [m|m ch []|]; cbn [serve1].
  - intros Hs%Hm. by destruct m.
  - intros [= <-]. by destruct m.
  - destruct (serve_message counter m st) as [s r] eqn:Hs. cbn. intros ->.
    specialize (Hm m st'). rewrite Hs in Hm. specialize (Hm eq_refl). by destruct m.
  - done.
Qed.
Lemma counter_serves log st st' : (st.1 < 2 ^ 64)%N →
  (serve counter (Alive st) log).1 = Alive st' → counted st.1 (increments log) st'.1.
Proof.
  revert st. induction log as [|e log IH]; intros st Hlt; cbn [serve].
  { intros [= <-]. simpl. split; rewrite N.add_0_r; [by rewrite wrap64_small|done]. }
  pose proof (counter_serves1 st e) as H1.
  destruct (serve1 counter (Alive st) e) as [[s1|v] a]; cbn [fst] in H1.
  - specialize (H1 s1 Hlt eq_refl). assert (s1.1 < 2 ^ 64)%N as Hlt1 by (destruct H1 as [-> _]; apply wrap64_lt).
    specialize (IH s1 Hlt1). destruct (serve _ (Alive s1) log). intros Hs.
    exact (counted_add _ _ _ _ _ H1 (IH Hs)).
  - pose proof (serve_dead counter v log) as Hd.
    destruct (serve _ (Dead v) log). simpl in *. by rewrite Hd.
Qed.
Lemma counter_answer log a0 i ch c n : (a0 < 2 ^ 64)%N →
  log !! i = Some (EAsk GetCount ch c) → object_sees counter a0 () log i = Sent (Ok (Count n)) →
  counted a0 (increments (take i log)) n.
Proof.
  intros Hlt Hi. unfold object_sees. rewrite (serve_answer _ _ _ _ _ Hi). unfold object_start.
  pose proof (λ st, counter_serves (take i log) (a0, ()) st Hlt) as Hs. cbn [fst start_hook Counter_behaviour plain_behaviour] in *.
  destruct (serve _ _ (take i log)).1 as [st|v]; [|done].
  specialize (Hs st eq_refl). destruct c; cbn; [done|]. intros [= <-]. exact Hs.
Qed.
End counts.
Lemma increments_app log log' : increments (log ++ log') = (increments log + increments log')%N.
Proof. induction log as [|e log IH]; simpl; [done|]. unfold increments in *. lia. Qed.

Lemma increments_take log i j : i ≤ j → (increments (take i log) <= increments (take j log))%N.
Proof.
  intros Hij. rewrite <-(take_drop i (take j log)), increments_app, take_take, Nat.min_l by lia. lia.
Qed.

(** ** Programs and runs *)
Section runs.
Context {A W M T Snd R Rf Rx Str C U V : Type} `{Actor A W M T Snd R} `{LoopWorld W Rf}.
Abbreviation D := (Dispatch W M T Snd R).
Context `{RefWorld W D R Snd Rx Str T} `{SenderLaws (option D) C} `{Receiver (option D) C}.
Context `{!ReceiverLaws (option D) C} `{UnboundedLaws (option D) U}.
Context `{SessionWorld W R V} `{!SessionLaws W D R V Snd Rx Str T Rf}.
Context (ref : ActorRefData (W := W) (M := M) (T := T) (R := R)).
Abbreviation RunOf := (Run (A := A) (W := W) (M := M) (C := C) (U := U)).
Abbreviation passes_ := (passes (Rx := Rx) (Str := Str) ref).

Lemma passes_next x y : passes_ x → conf_step (Rx := Rx) (Str := Str) ref x y → passes_ y.
Proof.
  intros [r|x' Hgo Hall] Hs; [|by apply Hall]. inversion Hs as [|? ? ? ? ? _ Hc]; subst; [constructor|].
  inversion Hc.
Qed.
Lemma passes_client (r : RunOf) c r' c' :
  passes_ (r, c) → client_step (Rx := Rx) (Str := Str) ref r c r' c' → passes_ (r', c').
Proof.
  intros Hp Hc. eapply passes_next; [exact Hp|]. apply (conf_client _ _ _ (sy_world (rn_sys r))); [done|].
  by destruct r as [[]].
Qed.
Lemma failed_not_passes (r : RunOf) : ¬ passes_ (r, Done false).
Proof.
  intros Hp. remember (r, Done false) as x eqn:Hx. revert r Hx.
  induction Hp as [r'|x [y Hy] _ IH]; intros r Hx; [done|subst x].
  inversion Hy as [? ? r' Ht|? ? ? ? ? _ Hc]; subst; [by eapply (IH _ Hy)|inversion Hc].
Qed.
End runs.

(** ** The properties *)
Module Spec.
Section sessions.
Context {W Snd Rf Rx Str C U : Type} `{LoopWorld W Rf} (p : profile).
#[local] Instance counter_inst : Actor N W ConformanceMsg () Snd ConformanceReply := ConformanceCounter p.
Abbreviation D := (Dispatch W ConformanceMsg () Snd ConformanceReply).
Context `{RefWorld W D ConformanceReply Snd Rx Str ()} `{SenderLaws (option D) C} `{Receiver (option D) C}.
Context `{!ReceiverLaws (option D) C} `{UnboundedLaws (option D) U}.
Context `{SessionWorld W ConformanceReply ()} `{!SessionLaws W D ConformanceReply () Snd Rx Str () Rf}.
Context (ref : ActorRefData (W := W) (M := ConformanceMsg) (T := ()) (R := ConformanceReply)).
Context (Hics : rf_interceptors ref = []) (Hdead : rf_dead_letter_handler ref = None).
Implicit Types (r : Run (A := N) (W := W) (M := ConformanceMsg) (C := C) (U := U)).

(** The tests of the counter that the reference runtime is run against pass on
    every schedule. *)
Theorem counter_tests_pass t w u l :
  t ∈ counter_suite → spawned_with t.1 () w u l → is_bounded u = false →
  passes (Rx := Rx) (Str := Str) ref (session_start w u l, t.2).
Proof.
  intros Ht Hsp Hu. apply (expected_passes (Counter_behaviour p) t.1 ()); [apply counter_implements|done..|].
  by apply counter_suite_expected.
Qed.

Abbreviation stopped r := (after_stop (T := ()) (Snd := Snd) r).
(** C26. In any session with an unbounded mailbox: [stop()] enters the mailbox while
    it is open, and from then on, whatever follows, the reference says that the
    actor is not alive. But the mailbox is closed only once the task of the actor
    has ended, and until then it takes every [tell] and every [ask]. Nothing that
    enters it behind the stop is ever answered: the caller of such an [ask] waits,
    and when the actor has come to rest it sees its channel dropped. *)
Theorem stopped_but_open a0 w u l r :
  spawned_with a0 () w u l →
  rtc (session_step (Rx := Rx) (Str := Str) ref) (session_start w u l) r →
  is_bounded (sy_box (rn_sys r)) = false →
  let log := rn_log r in
  (box_closed (sy_box (rn_sys r)) = false →
     rn_log (stopped r) = log ++ [EStop]
     ∧ session_is_alive (M := ConformanceMsg) (T := ()) (Snd := Snd) (rn_sys (stopped r)) = false
     ∧ (∀ m, (after_tell ref m r).1 = Ok () ∧ rn_log (after_tell ref m r).2 = log ++ [ETell m])
     ∧ ∀ m cancel cancelled, ∃ ch,
         (after_ask (Rx := Rx) (Str := Str) ref m cancel cancelled r).1 = Ok ch
         ∧ rn_log (after_ask (Rx := Rx) (Str := Str) ref m cancel cancelled r).2
           = log ++ [EAsk m ch cancelled])
  ∧ (box_closed (sy_box (rn_sys r)) = true → ∃ l', sy_act (rn_sys r) = Over l')
  ∧ ∀ k, log !! k = Some EStop →
      session_is_alive (M := ConformanceMsg) (T := ()) (Snd := Snd) (rn_sys r) = false
      ∧ ∀ i m ch c, k < i → log !! i = Some (EAsk m ch c) →
          (caller_sees r i ch = Waiting ∨ caller_sees r i ch = SenderDropped)
          ∧ (at_rest r → caller_sees r i ch = SenderDropped).
Proof.
  intros Hsp Hr Hkind log.
  pose proof (inv_reachable (Counter_behaviour p) (counter_implements p) a0 () ref Hics Hdead w u l r Hsp Hr) as HI.
  split_and!.
  - intros Hopen. destruct (open_stop r Hkind Hopen) as [Hs Ha]. split; [exact Hs|]. split; [exact Ha|].
    split; [intros m; by apply open_tell|intros m cancel cancelled; by apply open_ask].
  - by apply (closed_over (Counter_behaviour p) a0 ()).
  - intros k Hk. split; [by eapply (stop_not_alive (Counter_behaviour p) a0 ())|]. intros i m ch c Hki Hi.
    by eapply (behind_stop (Counter_behaviour p) a0 ()).
Qed.

Lemma counter_reply a0 w u l r i ch c n :
  (a0 < 2 ^ 64)%N → spawned_with a0 () w u l →
  rtc (session_step (Rx := Rx) (Str := Str) ref) (session_start w u l) r →
  rn_log r !! i = Some (EAsk GetCount ch c) → caller_sees r i ch = Sent (Ok (Count n)) →
  counted p a0 (increments (take i (rn_log r))) n.
Proof.
  intros Hlt Hsp Hr Hi Hs.
  pose proof (inv_reachable (Counter_behaviour p) (counter_implements p) a0 () ref Hics Hdead w u l r Hsp Hr) as HI.
  destruct (conf_rest_view _ _ _ _ _ _ _ _ HI Hi) as [Hw|Hw]; rewrite Hw in Hs; [done|].
  by eapply counter_answer.
Qed.
(** The count before a position, where it has not wrapped. *)
Abbreviation fits a0 r i := (p = Debug ∨ a0 + increments (take i (rn_log r)) < 2 ^ 64)%N.
Lemma counted_fits a0 n c : counted p a0 n c → (p = Debug ∨ a0 + n < 2 ^ 64)%N → c = (a0 + n)%N.
Proof. intros [Hw Hd] [Hp|Hlt]; [by apply Hd|]. by rewrite Hw, wrap64_small. Qed.

(** C25. A reply to [GetCount] is, modulo 2^64, the count the actor was spawned with
    plus the increments that entered the mailbox before it, in any session. In a
    build with overflow checks it is exactly that, since an increment that
    overflows panics; in a release build it is as long as the sum is below 2^64.
    And there the replies of any caller, or of several, never go back. *)
Theorem counter_replies a0 w u l r i ch c n :
  (a0 < 2 ^ 64)%N → spawned_with a0 () w u l →
  rtc (session_step (Rx := Rx) (Str := Str) ref) (session_start w u l) r →
  rn_log r !! i = Some (EAsk GetCount ch c) → caller_sees r i ch = Sent (Ok (Count n)) →
  n = wrap64 (a0 + increments (take i (rn_log r)))
  ∧ ((p = Debug ∨ a0 + increments (take i (rn_log r)) < 2 ^ 64)%N →
       n = (a0 + increments (take i (rn_log r)))%N)
  ∧ ∀ j ch' c' n', i < j → rn_log r !! j = Some (EAsk GetCount ch' c') →
      caller_sees r j ch' = Sent (Ok (Count n')) →
      (p = Debug ∨ a0 + increments (take j (rn_log r)) < 2 ^ 64)%N → (n <= n')%N.
Proof.
  intros Hlt Hsp Hr Hi Hs. pose proof (counter_reply _ _ _ _ _ _ _ _ _ Hlt Hsp Hr Hi Hs) as Hn.
  split; [apply Hn|]. split; [by apply counted_fits|].
  intros j ch' c' n' Hij Hj Hs' Hfits. pose proof (increments_take (rn_log r) i j ltac:(lia)).
  pose proof (counter_reply _ _ _ _ _ _ _ _ _ Hlt Hsp Hr Hj Hs') as Hn'.
  rewrite (counted_fits _ _ _ Hn'), (counted_fits _ _ _ Hn); [lia|destruct Hfits; [by left|right; lia]|done].
Qed.

(** [test_concurrent_asks]: the replies to the asks of one caller, in the order
    in which they entered the mailbox, never go back, whoever else asks or tells. *)
Theorem concurrent_asks_pass a0 w u l r positions replies :
  (a0 < 2 ^ 64)%N → spawned_with a0 () w u l →
  rtc (session_step (Rx := Rx) (Str := Str) ref) (session_start w u l) r →
  (p = Debug ∨ a0 + increments (rn_log r) < 2 ^ 64)%N →
  StronglySorted lt positions →
  Forall2 (λ i n, ∃ ch c, rn_log r !! i = Some (EAsk GetCount ch c)
    ∧ caller_sees r i ch = Sent (Ok (Count n))) positions replies →
  never_backwards 0 replies = true.
Proof.
  intros Hlt Hsp Hr Hfits Hsorted Hall.
  assert (∀ i, fits a0 r i) as Hfit.
  { intros i. destruct Hfits as [?|Hf]; [by left|right].
    rewrite <-(take_drop i (rn_log r)), increments_app in Hf. lia. }
  assert (∀ prev, Forall (λ i, prev <= a0 + increments (take i (rn_log r)))%N positions →
    never_backwards prev replies = true) as Hgen; [|apply Hgen, Forall_true; lia].
  induction Hall as [|i n positions replies (ch & c & Hi & Hs) _ IH]; intros prev Hprev; [done|].
  apply StronglySorted_inv in Hsorted as [Hsorted Hlts]. apply Forall_cons_1 in Hprev as [Hprev _].
  cbn [never_backwards]. pose proof (counter_reply _ _ _ _ _ _ _ _ _ Hlt Hsp Hr Hi Hs) as Hn.
  rewrite (counted_fits _ _ _ Hn (Hfit i)), (proj2 (N.leb_le _ _)) by done. apply IH; [done|].
  eapply Forall_impl; [exact Hlts|].
  simpl. intros j Hij. apply N.add_le_mono_l, increments_take. lia.
Qed.
End sessions.

(** The other actors' tests pass likewise. *)
Section other_sessions.
Context {W Snd Rf Rx Str C U M R V A : Type} `{LoopWorld W Rf}.
Abbreviation D := (Dispatch W M () Snd R).
Context `{RefWorld W D R Snd Rx Str ()} `{SenderLaws (option D) C} `{Receiver (option D) C}.
Context `{!ReceiverLaws (option D) C} `{UnboundedLaws (option D) U}.
Context `{SessionWorld W R V} `{!SessionLaws W D R V Snd Rx Str () Rf}.
Context (ref : ActorRefData (W := W) (M := M) (T := ()) (R := R)).
Context (Hics : rf_interceptors ref = []) (Hdead : rf_dead_letter_handler ref = None).

Lemma test_passes (actor : Actor A W M () Snd R) (b : Behaviour A M R V) a v t w u l :
  implements b → expect_prog b (object_start b a v) t [] = true → spawned_with a v w u l → is_bounded u = false →
  passes (Rx := Rx) (Str := Str) ref (session_start w u l, t).
Proof. intros Hb He Hsp Hu. by apply (expected_passes b a v). Qed.
End other_sessions.

Section tests_pass.
Context {W Snd Rf Rx Str C U : Type} `{LoopWorld W Rf}.

Theorem multiple_handlers_passes p `{RefWorld W (Dispatch W MultiMsg () Snd Z) Z Snd Rx Str ()}
    `{SenderLaws (option (Dispatch W MultiMsg () Snd Z)) C}
    `{Receiver (option (Dispatch W MultiMsg () Snd Z)) C} `{!ReceiverLaws (option (Dispatch W MultiMsg () Snd Z)) C} `{UnboundedLaws (option (Dispatch W MultiMsg () Snd Z)) U}
    `{SessionWorld W Z ()} `{!SessionLaws W (Dispatch W MultiMsg () Snd Z) Z () Snd Rx Str () Rf} ref w u l :
  rf_interceptors ref = [] → rf_dead_letter_handler ref = None → spawned_with 10%Z () w u l → is_bounded u = false →
  passes (H := ConformanceMultiHandler (W := W) (Snd := Snd) p) (C := C) (U := U) (Rx := Rx) (Str := Str)
    ref (session_start (H := ConformanceMultiHandler (W := W) (Snd := Snd) p) w u l, test_multiple_handlers).
Proof.
  intros Hics Hdead. apply test_passes with (b := Multi_behaviour p); [done|done|apply multi_implements|].
  destruct p; vm_compute; reflexivity.
Qed.

Theorem lifecycle_ordering_passes `{RefWorld W (Dispatch W () () Snd ()) () Snd Rx Str ()}
    `{SenderLaws (option (Dispatch W () () Snd ())) C}
    `{Receiver (option (Dispatch W () () Snd ())) C} `{!ReceiverLaws (option (Dispatch W () () Snd ())) C} `{UnboundedLaws (option (Dispatch W () () Snd ())) U}
    `{SharedWorld W () (list string)}
    `{!SessionLaws W (Dispatch W () () Snd ()) () (list string) Snd Rx Str () Rf} ref w u l :
  rf_interceptors ref = [] → rf_dead_letter_handler ref = None → spawned_with () [] w u l → is_bounded u = false →
  passes (H := ConformanceLifecycle (W := W) (Snd := Snd)) (C := C) (U := U) (Rx := Rx) (Str := Str)
    ref (session_start (H := ConformanceLifecycle (W := W) (Snd := Snd)) w u l, test_lifecycle_ordering).
Proof.
  intros Hics Hdead. apply test_passes with (b := Lifecycle_behaviour); [done|done|apply lifecycle_implements|].
  vm_compute. reflexivity.
Qed.

Theorem on_error_resume_passes `{RefWorld W (Dispatch W ResumeMsg () Snd ()) () Snd Rx Str ()}
    `{SenderLaws (option (Dispatch W ResumeMsg () Snd ())) C}
    `{Receiver (option (Dispatch W ResumeMsg () Snd ())) C} `{!ReceiverLaws (option (Dispatch W ResumeMsg () Snd ())) C} `{UnboundedLaws (option (Dispatch W ResumeMsg () Snd ())) U} `{SharedWorld W () N}
    `{!SessionLaws W (Dispatch W ResumeMsg () Snd ()) () N Snd Rx Str () Rf} ref w u l :
  rf_interceptors ref = [] → rf_dead_letter_handler ref = None → spawned_with () 0%N w u l → is_bounded u = false →
  passes (H := ConformanceResumeActor (W := W) (Snd := Snd)) (C := C) (U := U) (Rx := Rx) (Str := Str)
    ref (session_start (H := ConformanceResumeActor (W := W) (Snd := Snd)) w u l, test_on_error_resume).
Proof.
  intros Hics Hdead. apply test_passes with (b := Resume_behaviour); [done|done|apply resume_implements|].
  vm_compute. reflexivity.
Qed.
End tests_pass.


(** *** Witnesses *)
Import Demo.
Abbreviation CounterWorld := (World ConformanceReply ()).
Abbreviation CounterEnvelope := (Dispatch CounterWorld ConformanceMsg () () ConformanceReply).
#[local] Instance counter_debug : Actor N CounterWorld ConformanceMsg () () ConformanceReply :=
  ConformanceCounter Debug.
Lemma counter_tests_pass_witness :
  (0%N, test_tell_and_ask) ∈ counter_suite
  ∧ passes (Rx := ()) (Str := ()) ref
      (begin 0%N (), test_tell_and_ask).
Proof.
  assert ((0%N, test_tell_and_ask) ∈ counter_suite) as Ht by (unfold counter_suite; constructor).
  split; [exact Ht|].
  exact (counter_tests_pass Debug ref eq_refl eq_refl (0%N, test_tell_and_ask) _ _ _ Ht
    (demo_spawned 0%N ()) eq_refl).
Defined.

(** Increments from two callers, with the actor's turns between. *)
Definition sample : list (event ConformanceMsg) :=
  [PTurn; PTell (Increment 5); PAsk GetCount false; PTurn; PTell (Increment 3); PTurn; PTurn; PTurn;
   PAsk GetCount false] ++ replicate 8 PTurn.
Lemma counter_replies_witness :
  let r := play sample (begin 2%N ()) in
  (caller_sees r 1 0, caller_sees r 3 1) = (Sent (Ok (Count 7)), Sent (Ok (Count 10)))
  ∧ (7 <= 10)%N.
Proof.
  assert (let r := play sample (begin 2%N ()) in
    (caller_sees r 1 0, caller_sees r 3 1) = (Sent (Ok (Count 7)), Sent (Ok (Count 10)))
    ∧ (rn_log r !! 1, rn_log r !! 3) = (Some (EAsk GetCount 0 false), Some (EAsk GetCount 1 false)))
    as [Hs Hl] by (vm_compute; split; reflexivity).
  pose proof (play_steps sample (begin 2%N ())) as Hr. cbn zeta.
  revert Hs Hl Hr. generalize (play sample (begin 2%N ())). intros r Hs Hl Hr.
  split; [exact Hs|]. injection Hs as Hs1 Hs3. injection Hl as Hl1 Hl3.
  exact (proj2 (proj2 (counter_replies Debug ref eq_refl eq_refl 2%N _ _ _ r 1 0%N false 7%N ltac:(lia)
    (demo_spawned 2%N ()) Hr Hl1 Hs1)) 3 1%N false 10%N ltac:(lia) Hl3 Hs3 (or_introl eq_refl)).
Defined.

(** A tell and an ask behind the stop: taken, and the ask is dropped unanswered. *)
Lemma stopped_but_open_witness :
  let r := play [PTurn; PStop; PAsk GetCount false] (begin 2%N ()) in
  let r' := play ([PTurn; PStop; PAsk GetCount false] ++ replicate 3 PTurn) (begin 2%N ()) in
  (box_closed (sy_box (rn_sys r)) = false ∧ ∀ m, (after_tell ref m r).1 = Ok ())
  ∧ session_is_alive (M := ConformanceMsg) (T := ()) (Snd := ()) (rn_sys r) = false
  ∧ rn_log r' = [EStop; EAsk GetCount 0%N false] ∧ caller_sees r' 1 0%N = SenderDropped.
Proof.
  set (start := [PTurn; PStop; PAsk GetCount false]). cbn zeta.
  assert (is_bounded (sy_box (rn_sys (play start (begin 2%N ())))) = false
    ∧ box_closed (sy_box (rn_sys (play start (begin 2%N ())))) = false
    ∧ rn_log (play start (begin 2%N ())) !! 0 = Some EStop)
    as (Hkind & Hopen & Hstop) by (vm_compute; split_and!; reflexivity).
  assert (is_bounded (sy_box (rn_sys (play (start ++ replicate 3 PTurn) (begin 2%N ())))) = false
    ∧ rn_log (play (start ++ replicate 3 PTurn) (begin 2%N ())) = [EStop; EAsk GetCount 0%N false]
    ∧ at_rest (play (start ++ replicate 3 PTurn) (begin 2%N ())))
    as (Hkind' & Hlog' & Hrest') by (vm_compute; split_and!; reflexivity).
  pose proof (play_steps start (begin 2%N ())) as Hr.
  pose proof (play_steps (start ++ replicate 3 PTurn) (begin 2%N ())) as Hr'.
  revert Hkind Hopen Hstop Hr. generalize (play start (begin 2%N ())). intros r Hkind Hopen Hstop Hr.
  revert Hkind' Hlog' Hrest' Hr'. generalize (play (start ++ replicate 3 PTurn) (begin 2%N ())).
  intros r' Hkind' Hlog' Hrest' Hr'.
  destruct (stopped_but_open Debug ref eq_refl eq_refl 2%N _ _ _ r (demo_spawned 2%N ()) Hr Hkind)
    as (Htake & _ & Hdead).
  destruct (stopped_but_open Debug ref eq_refl eq_refl 2%N _ _ _ r' (demo_spawned 2%N ()) Hr' Hkind')
    as (_ & _ & Hdead').
  split; [split; [exact Hopen|apply Htake, Hopen]|]. split; [exact (proj1 (Hdead 0 Hstop))|].
  split; [exact Hlog'|]. rewrite Hlog' in Hdead'.
  exact (proj2 (proj2 (Hdead' 0 eq_refl) 1 GetCount 0%N false ltac:(lia) eq_refl) Hrest').
Defined.
End Spec.
