(* ===== verification/ConformanceStreams.v ===== *)
(** * The stream tests of the conformance suite
    (dactor/src/test_support/conformance.rs)

    The streaming actors and the tests of [expand], [reduce] and [transform].
    A test runs the pieces of a call one after the other: what the tasks that
    the reference spawns put into the channels (AdapterRef.v, RuntimeSupport.v),
    the handler on what arrives (Dispatch.v), and what the caller collects. The
    tasks run side by side: a [Schedule] says how often each waits for the
    others, and the tests pass on every fair one. *)
From S2P Require Import Prelude Node Message Channel Mailbox Interceptor Task Actor Dispatch Stream.
From S2P Require Import RuntimeSupport AdapterRef.

#[local] Open Scope string_scope.
#[local] Open Scope list_scope.
#[local] Open Scope nat_scope.

(** ** Streams
    A stream's sending end, as the handler uses it: [stream_send] is a send that
    completes, [false] when the consumer is gone; [stream_items] are the items
    sent. A send that waits for room is polled [waits] times before. *)
Class StreamWorld (W Snd T : Type) := {
  stream_send : Snd → T → W → bool * W;
  stream_items : Snd → W → list T
}.
Class StreamWorldLaws (W Snd T : Type) `{StreamWorld W Snd T} := {
  stream_sent s x w w' : stream_send s x w = (true, w') → stream_items s w' = stream_items s w ++ [x];
  stream_lost s x w w' : stream_send s x w = (false, w') → stream_items s w' = stream_items s w
}.

Section sends.
Context {A W Snd T : Type} `{StreamWorld W Snd T}.
Context (waits : nat → nat).

Fixpoint send_await (n : nat) (s : Snd) (x : T) : HTask A W bool :=
  match n with
  | 0 => sync (λ l w, let '(ok, w) := stream_send s x w in (l, w, ok))
  | S n => Await (λ l w, (l, w, Pending (send_await n s x)))
  end.
(** [for x in items { if sender.send(x).await.is_err() { break; } }]; the [i]-th
    send waits [waits i] times. *)
Fixpoint send_each (i : nat) (s : Snd) (items : list T) : HTask A W () :=
  match items with
  | [] => mret ()
  | x :: items =>
      ok ← send_await (waits i) s x;
      if (ok : bool) then send_each (S i) s items else mret ()
  end.
End sends.

(** *** ConformanceStreamer *)
Section streamer.
Context {W Snd : Type} `{StreamWorld W Snd N} (waits : nat → nat).
(** [StreamNumbers { count }] is its count. *)
Definition ConformanceStreamer : Actor () W N N Snd () := {|
  type_name _ := "StreamNumbers"; item_type_name := "";
  on_start := mret (); on_stop := mret (); on_error := default_on_error;
  handle _ := mret ();
  handle_expand count sender :=
    send_each waits 0 sender (N.of_nat <$> seq 0 (N.to_nat count));
  handle_reduce _ := mret (); handle_transform _ _ := mret (); on_transform_complete _ := mret ()
|}.
End streamer.

(** *** ConformanceAggregator *)
Section aggregator.
Context {A W Snd : Type} (p : profile).
(** [while let Some(v) = rx.recv().await { sum += v; }]. *)
Fixpoint sum_items (rx : StreamReceiver Z) (sum : Z) : HTask A W Z :=
  match rx with
  | [] => mret sum
  | None :: rx => Await (λ l w, (l, w, Pending (sum_items rx sum)))
  | Some v :: rx =>
      match add_i64 p sum v with Some sum => sum_items rx sum | None => panic_now end
  end.
End aggregator.
Definition ConformanceAggregator {W Snd} (p : profile) : Actor () W () Z Snd Z := {|
  type_name _ := ""; item_type_name := "i64";
  on_start := mret (); on_stop := mret (); on_error := default_on_error;
  handle _ := mret 0%Z; handle_expand _ _ := mret ();
  handle_reduce rx := sum_items p rx 0%Z;
  handle_transform _ _ := mret (); on_transform_complete _ := mret ()
|}.

(** *** ConformanceDoubler *)
Section doubler.
Context {W Snd : Type} `{StreamWorld W Snd Z} (p : profile) (waits : Z → nat).
Definition i32_min : Z := - 2 ^ 31.
Definition i32_max : Z := 2 ^ 31 - 1.
(** [item * 2] on [i32]. *)
Definition double_i32 (item : Z) : option Z :=
  if ((i32_min <=? item * 2) && (item * 2 <=? i32_max))%Z then Some (item * 2)%Z
  else match p with
       | Debug => None
       | Release => Some ((item * 2 + 2 ^ 31) mod 2 ^ 32 - 2 ^ 31)%Z
       end.
Definition ConformanceDoubler : Actor () W () Z Snd () := {|
  type_name _ := ""; item_type_name := "i32";
  on_start := mret (); on_stop := mret (); on_error := default_on_error;
  handle _ := mret (); handle_expand _ _ := mret (); handle_reduce _ := mret ();
  handle_transform item sender :=
    match double_i32 item with
    | Some x => _ ← send_await (waits item) sender x; mret ()
    | None => panic_now
    end;
  on_transform_complete _ := mret ()
|}.
End doubler.

(** The items a receiver will yield. *)
Definition arrivals {T} (rx : StreamReceiver T) : list T := omap id rx.

(** ** What a call on a stream comes to *)
Section pipes.
Context {A W M T Snd R Bt Ch : Type} `{Actor A W M T Snd R} `{StreamWorld W Snd T}.
Context `{Sender (list T) Bt, Sender T Ch}.
Context (ref : ActorRefData (W := W) (M := M) (T := T) (R := R)).

(** What the other tasks do between the handler's polls, in how many polls items
    arrive at the actor, the deadline checks of the batching task between its
    pushes; and the actor, the channels and the worlds before. *)
Record Schedule := mkSchedule {
  sc_env : nat → W → W;
  sc_polls : list T → StreamReceiver T;
  sc_ops : list T → list (writer_op T);
  sc_sender : Snd;
  sc_batches : Bt;
  sc_items : Ch;
  sc_intercepted : Ch;
  sc_output : Ch;
  sc_reply : ReplyTx W R;
  sc_local : A * ActorContext W;
  sc_world : W
}.

Definition handled_by_actor (σ : Schedule) (d : Dispatch W M T Snd R) :=
  run (sc_env σ) 0 (dispatch d) (sc_local σ) (sc_world σ).
(** What the caller's stream yields of the items a handler emitted. *)
Definition collected (σ : Schedule) (message_type : string) (mode : SendMode) (buffer : nat)
    (batch : option BatchConfig) (emitted : list T) : list T :=
  sent (dr_chan (run_stream_reply ref (mkStreamReply () buffer batch message_type mode) emitted
    (sc_ops σ emitted) (sc_batches σ) (sc_output σ) (sc_world σ))).
(** What the task of a [reduce] puts into the actor's channel. *)
Definition fed (σ : Schedule) (batch : option BatchConfig) (input : list T) : list T :=
  let p := outbound_pipeline ref in
  match batch with
  | None => sent (dr_chan (spawn_reduce_drain input (sc_items σ) None p item_type_name (sc_world σ)))
  | Some cfg =>
      let feed ops := spawn_reduce_batched_drain input (sc_items σ) (sc_intercepted σ) (sc_batches σ)
                        cfg None p item_type_name ops (sc_world σ) in
      sent (feed (sc_ops σ (sent (dr_chan (feed []).1.1)))).2
  end.

Definition expanded (σ : Schedule) (msg : M) (buffer : nat) (batch : option BatchConfig) : list T :=
  collected σ (type_name msg) Expand buffer batch
    (stream_items (sc_sender σ) (world (handled_by_actor σ (ExpandDispatch msg (sc_sender σ) None)))).
Definition reduced (σ : Schedule) (input : list T) (batch : option BatchConfig) : option R :=
  out (handled_by_actor σ (ReduceDispatch (sc_polls σ (fed σ batch input)) (sc_reply σ) None)) ≫= reply.
Definition transformed (σ : Schedule) (input : list T) (buffer : nat) (batch : option BatchConfig) :
    list T :=
  let items := sent (dr_chan (spawn_transform_drain input (sc_items σ) None (outbound_pipeline ref)
                 item_type_name (sc_world σ))) in
  collected σ item_type_name Transform buffer batch
    (stream_items (sc_sender σ)
       (world (handled_by_actor σ (TransformDispatch (sc_polls σ items) (sc_sender σ) None)))).

(** The channels are new and stay open for [room] sends, which is enough for
    the suite's streams of at most 20 items; nothing else is sent on the
    handler's channel; items arrive and are pushed once and in order. *)
Record fair (room : nat) (σ : Schedule) : Prop := mkFair {
  fair_room : 20 ≤ room;
  fair_env n w : stream_items (sc_sender σ) (sc_env σ n w) = stream_items (sc_sender σ) w;
  fair_open x w : (stream_send (sc_sender σ) x w).1 = true;
  fair_start : stream_items (sc_sender σ) (sc_world σ) = [];
  fair_polls l : arrivals (sc_polls σ l) = l;
  fair_pushed l : pushed (sc_ops σ l) = l;
  fair_checks l : length l ≤ 20 → length (sc_ops σ l) < room;
  fair_new : sent (sc_batches σ) = [] ∧ sent (sc_items σ) = [] ∧ sent (sc_intercepted σ) = []
    ∧ sent (sc_output σ) = [];
  fair_batches : never_closes (sc_batches σ) room;
  fair_items : never_closes (sc_items σ) room;
  fair_intercepted : never_closes (sc_intercepted σ) room;
  fair_output : never_closes (sc_output σ) room
}.
End pipes.
Arguments Schedule : clear implicits.

(** ** The tests *)
Abbreviation delivers l l' := (bool_decide (l = l')).
Abbreviation ms_50 := (from_millis 50).

Section streamer_tests.
Context {W Snd Bt Ch : Type} `{StreamWorld W Snd N} `{Sender (list N) Bt, Sender N Ch} (waits : nat → nat).
Context (ref : ActorRefData (W := W) (M := N) (T := N) (R := ())).
#[local] Instance streamer_inst : Actor () W N N Snd () := ConformanceStreamer waits.
Context (σ : Schedule () W N Snd () Bt Ch).

Definition test_stream_items : bool := delivers (expanded ref σ 5%N 16 None) [0; 1; 2; 3; 4]%N.
Definition test_stream_empty : bool := delivers (expanded ref σ 0%N 16 None) [].
Definition test_batched_stream : bool :=
  delivers (expanded ref σ 7%N 16 (Some (BatchConfig_new 3 ms_50))) [0; 1; 2; 3; 4; 5; 6]%N.
Definition test_stream_with_none_batch : bool :=
  delivers (expanded ref σ 6%N 16 None) [0; 1; 2; 3; 4; 5]%N.
Definition test_stream_slow_consumer : bool :=
  delivers (expanded ref σ 20%N 2 None) (N.of_nat <$> seq 0 20).
End streamer_tests.

Section aggregator_tests.
Context {W Snd Bt Ch : Type} `{Sender (list Z) Bt, Sender Z Ch} (p : profile).
Context (ref : ActorRefData (W := W) (M := ()) (T := Z) (R := Z)).
#[local] Instance aggregator_inst : Actor () W () Z Snd Z := ConformanceAggregator p.
Context (σ : Schedule () W Z Snd Z Bt Ch).

Definition test_feed_sum : bool := delivers (reduced ref σ [10; 20; 30]%Z None) (Some 60%Z).
Definition test_batched_feed : bool :=
  delivers (reduced ref σ [1; 2; 3; 4; 5]%Z (Some (BatchConfig_new 3 ms_50))) (Some 15%Z).
Definition test_feed_with_none_batch : bool :=
  delivers (reduced ref σ [5; 10; 15; 20]%Z None) (Some 50%Z).
End aggregator_tests.

Section doubler_tests.
Context {W Snd Bt Ch : Type} `{StreamWorld W Snd Z} `{Sender (list Z) Bt, Sender Z Ch}.
Context (p : profile) (waits : Z → nat).
Context (ref : ActorRefData (W := W) (M := ()) (T := Z) (R := ())).
#[local] Instance doubler_inst : Actor () W () Z Snd () := ConformanceDoubler p waits.
Context (σ : Schedule () W Z Snd () Bt Ch).

Definition test_transform_doubler : bool :=
  delivers (transformed ref σ [1; 2; 3; 4; 5]%Z 8 None) [2; 4; 6; 8; 10]%Z.
Definition test_transform_empty : bool := delivers (transformed ref σ [] 8 None) [].
Definition test_transform_batched : bool :=
  delivers (transformed ref σ [1; 2; 3; 4; 5]%Z 8 (Some (BatchConfig_new 2 ms_50))) [2; 4; 6; 8; 10]%Z.
Definition test_transform_with_none_batch : bool :=
  delivers (transformed ref σ [10; 20; 30]%Z 8 None) [20; 40; 60]%Z.
End doubler_tests.

(** ** Lemmas about the handlers *)
Section stream_lemmas.
Context {A W Snd T : Type} `{StreamWorldLaws W Snd T} (env : nat → W → W) (s : Snd).
Context (Henv : ∀ n w, stream_items s (env n w) = stream_items s w).

Lemma run_send_await k x n (l : A * ActorContext W) w :
  ∃ ok, out (run env n (send_await k s x) l w) = Some ok ∧ loc (run env n (send_await k s x) l w) = l
    ∧ stream_items s (world (run env n (send_await k s x) l w))
      = stream_items s w ++ (if (ok : bool) then [x] else []).
Proof.
  revert n w. induction k as [|k IH]; intros n w; cbn [send_await].
  - rewrite run_sync. destruct (stream_send s x w) as [[] w'] eqn:Hs; cbn [out loc world].
    + exists true. by rewrite (stream_sent _ _ _ _ Hs).
    + exists false. by rewrite (stream_lost _ _ _ _ Hs), app_nil_r.
  - cbn [run]. destruct (IH (S n) (env n w)) as (ok & ? & ? & Hi). exists ok.
    by rewrite Hi, Henv.
Qed.

(** The items arrive in order, up to the consumer's end. *)
Lemma run_send_each waits i items n (l : A * ActorContext W) w :
  out (run env n (send_each waits i s items) l w) = Some ()
  ∧ ∃ items', items' `prefix_of` items
    ∧ stream_items s (world (run env n (send_each waits i s items) l w)) = stream_items s w ++ items'
    ∧ ((∀ x w, (stream_send s x w).1 = true) → items' = items).
Proof.
  revert i n l w. induction items as [|x items IH]; intros i n l w; cbn [send_each].
  { split; [done|]. exists []. cbn. by rewrite app_nil_r. }
  rewrite run_bind. destruct (run_send_await (waits i) x n l w) as (ok & Ho & Hl & Hi). unfold run_then.
  rewrite Ho. destruct ok.
  - destruct (IH (S i) (tick (run env n (send_await (waits i) s x) l w))
      (loc (run env n (send_await (waits i) s x) l w)) (world (run env n (send_await (waits i) s x) l w)))
      as (Hout & items' & Hp & Hit & Hall). split; [exact Hout|]. exists (x :: items'). split_and!.
    + by apply prefix_cons.
    + by rewrite Hit, Hi, <-app_assoc.
    + intros Hok. by rewrite Hall.
  - rewrite run_mret. split; [done|]. exists []. cbn [world]. split_and!; [by apply prefix_nil|exact Hi|].
    intros Hok. exfalso. clear -Ho Hok. revert n w Ho. induction (waits i) as [|k IHk]; intros n w; cbn [send_await].
    + rewrite run_sync. specialize (Hok x w). destruct (stream_send s x w) as [o w']. cbn in *. congruence.
    + cbn [run]. apply IHk.
Qed.
End stream_lemmas.

Section hookless.
Context {W M T R : Type}.
Lemma stateless_without_hooks (p : OutboundPipeline W M T R) mt mode :
  interceptors p = [] → stateless p mt mode (λ _ _, continued).
Proof. intros Hp seq item w. by rewrite Hp. Qed.
Lemma passed_continued seq (items : list T) : passed (λ _ _, continued) seq items = items.
Proof.
  unfold passed. revert seq. induction items as [|x items IH]; intros seq; [done|]. cbn. by rewrite <-(IH (seq + 1)%N) at 2.
Qed.
End hookless.

Section handler_runs.
Context {W Snd : Type} (env : nat → W → W) (p : profile).

Definition sums_fit (sum : Z) (items : list Z) : Prop :=
  ∀ k, (i64_min <= sum + foldr Z.add 0 (take k items) <= i64_max)%Z.

Lemma run_sum_items rx sum n (l : () * ActorContext W) w :
  sums_fit sum (arrivals rx) →
  out (run env n (sum_items p rx sum) l w) = Some (sum + foldr Z.add 0 (arrivals rx))%Z
  ∧ loc (run env n (sum_items p rx sum) l w) = l.
Proof.
  revert sum n w. induction rx as [|[v|] rx IH]; intros sum n w Hfit; cbn [sum_items].
  - rewrite run_mret. cbn. by rewrite Z.add_0_r.
  - change (arrivals (Some v :: rx)) with (v :: arrivals rx) in *.
    pose proof (Hfit 1) as H1. cbn [firstn foldr] in H1. rewrite take_0 in H1. cbn [foldr] in H1. rewrite add_i64_small by lia.
    destruct (IH (sum + v)%Z n w) as [Ho Hl].
    + intros k. specialize (Hfit (S k)). cbn [firstn foldr] in Hfit. lia.
    + split; [|exact Hl]. rewrite Ho. cbn [foldr]. f_equal. lia.
  - cbn [run]. by apply IH.
Qed.

Context `{StreamWorldLaws W Snd Z} (waits : Z → nat) (s : Snd).
Context (Henv : ∀ n w, stream_items s (env n w) = stream_items s w).
Context (Hopen : ∀ x w, (stream_send s x w).1 = true).
#[local] Existing Instance ConformanceDoubler.

Lemma double_i32_small x : (i32_min <= x * 2 <= i32_max)%Z → double_i32 p x = Some (x * 2)%Z.
Proof. intros [Hl Hu]. unfold double_i32. by apply Z.leb_le in Hl as ->, Hu as ->. Qed.

Lemma run_send_open k x n (l : () * ActorContext W) w :
  out (run env n (send_await k s x) l w) = Some true
  ∧ loc (run env n (send_await k s x) l w) = l
  ∧ stream_items s (world (run env n (send_await k s x) l w)) = stream_items s w ++ [x].
Proof.
  revert n w. induction k as [|k IH]; intros n w; cbn [send_await].
  - rewrite run_sync. specialize (Hopen x w). destruct (stream_send s x w) as [o w'] eqn:Hs.
    cbn in Hopen. subst o. cbn [out loc world]. by rewrite (stream_sent _ _ _ _ Hs).
  - cbn [run]. destruct (IH (S n) (env n w)) as (? & ? & Hi). split_and!; try done. by rewrite Hi, Henv.
Qed.

Lemma run_doubler rx n (l : () * ActorContext W) w :
  Forall (λ x, i32_min <= x * 2 <= i32_max)%Z (arrivals rx) →
  let r := run env n (transform_loop (H := ConformanceDoubler p waits) rx s None) l w in
  out r = Some false ∧ loc r = l
  ∧ stream_items s (world r) = stream_items s w ++ ((λ x, x * 2)%Z <$> arrivals rx).
Proof.
  revert n l w. induction rx as [|[x|] rx IH]; intros n l w Hall; cbn [transform_loop]; cbn zeta.
  - rewrite run_mret. cbn. by rewrite app_nil_r.
  - apply Forall_cons in Hall as [Hx Hall].
    destruct (run_send_open (waits x) (x * 2)%Z n l w) as (Ho & Hl & Hi).
    set (r1 := run env n (send_await (waits x) s (x * 2)%Z) l w) in *.
    match goal with |- context [run env n ?t l w] =>
      assert (run env n t l w = run env (tick r1) (transform_loop (H := ConformanceDoubler p waits) rx s None)
        l (world r1)) as -> end.
    { rewrite run_bind, run_sync. unfold run_then at 1. cbn [out tick loc world handle_transform ConformanceDoubler].
      rewrite run_bind, double_i32_small by done. rewrite run_bind. fold r1. unfold run_then at 2.
      rewrite Ho, run_mret. unfold run_then. cbn [out tick loc world]. by rewrite Hl. }
    destruct (IH (tick r1) l (world r1) Hall) as (? & ? & Hit). split_and!; try done.
    by rewrite Hit, Hi, <-app_assoc.
  - cbn [run]. destruct (IH (S n) l (env n w) Hall) as (? & ? & Hit). split_and!; try done.
    by rewrite Hit, Henv.
Qed.
End handler_runs.

Section pipe_lemmas.
Context {A W M T Snd R Bt Ch : Type} `{Actor A W M T Snd R} `{StreamWorldLaws W Snd T}.
Context `{SenderLaws (list T) Bt, SenderLaws T Ch}.
Context (ref : ActorRefData (W := W) (M := M) (T := T) (R := R)) (Hics : rf_interceptors ref = []).
Context (room : nat) (σ : Schedule A W T Snd R Bt Ch) (Hfair : fair room σ).

Definition batch_ok (batch : option BatchConfig) : Prop := ∀ cfg, batch = Some cfg → 0 < max_items cfg.

Lemma ref_stateless mt mode : stateless (outbound_pipeline ref) mt mode (λ _ _, continued).
Proof. by apply stateless_without_hooks. Qed.
(** The batching task never fails. *)
Lemma writes_ok cfg l :
  length l ≤ 20 →
  let ops := sc_ops σ l in
  (writer_run ops (BatchWriter_new (sc_batches σ) cfg)).1 = Ok ()
  ∧ (flush (writer_run ops (BatchWriter_new (sc_batches σ) cfg)).2).1 = Ok ().
Proof.
  intros Hl ops. destruct Hfair. destruct (writer_run_open ops (BatchWriter_new (sc_batches σ) cfg) 1) as [Hr Hc].
  { eapply never_closes_le; [|exact fair_batches0]. specialize (fair_checks0 l Hl). fold ops in fair_checks0. lia. }
  split; [exact Hr|]. by apply (flush_open _ 0).
Qed.

Lemma collected_all mt mode buffer batch emitted :
  length emitted ≤ 20 → batch_ok batch → collected ref σ mt mode buffer batch emitted = emitted.
Proof.
  intros Hl Hb. set (cfg := default BatchConfig_default batch).
  assert (0 < max_items cfg) as Hcfg by (destruct batch; [by apply Hb|cbn; lia]).
  destruct (writes_ok cfg emitted Hl) as [Hr Hf]. pose proof Hfair as [].
  destruct fair_new0 as (? & _ & _ & Hout).
  destruct (stream_reply_same ref () buffer cfg mt mode emitted (sc_ops σ emitted) (sc_batches σ)
    (sc_output σ) (λ _ _, continued) (sc_world σ)) as [Hsame Hplain]; try done.
  { apply ref_stateless. }
  { eapply never_closes_le; [|exact fair_output0]. lia. }
  rewrite passed_continued, Hout in Hplain. unfold collected.
  destruct batch; cbn in cfg; subst cfg; [by rewrite Hsame|done].
Qed.
Lemma drained_all mt m1 m2 ctx input (c : Ch) :
  length input ≤ 20 → never_closes c room → sent c = [] →
  sent (dr_chan (drain (outbound_pipeline ref) mt m1 m2 ctx None 0 input c (sc_world σ) [])) = input.
Proof.
  intros Hl Hc Hs. set (r := drain _ _ _ _ _ _ _ _ _ _ _).
  destruct (drain_stateless (outbound_pipeline ref) mt m1 m2 ctx (λ _ _, continued) 0
    input c (sc_world σ) [] r (ref_stateless _ _)) as [Hd _]; [|done|].
  { eapply never_closes_le; [|exact Hc]. destruct Hfair. lia. }
  by rewrite Hd, Hs, passed_continued.
Qed.
Lemma fed_all batch input :
  length input ≤ 20 → batch_ok batch → fed ref σ batch input = input.
Proof.
  intros Hl Hb. pose proof Hfair as []. destruct fair_new0 as (Hnb & Hni & Hnm & _). unfold fed.
  destruct batch as [cfg|]; [|by apply drained_all].
  assert (sent (dr_chan (spawn_reduce_batched_drain input (sc_items σ) (sc_intercepted σ) (sc_batches σ)
    cfg None (outbound_pipeline ref) item_type_name [] (sc_world σ)).1.1) = input) as Hstage.
  { unfold spawn_reduce_batched_drain. destruct (writer_run [] _) as [? ?], (flush _). by apply drained_all. }
  rewrite Hstage. destruct (writes_ok cfg input Hl) as [Hr Hf].
  destruct (spawn_reduce_batched_drain input (sc_items σ) (sc_intercepted σ) (sc_batches σ)
    cfg None (outbound_pipeline ref) item_type_name (sc_ops σ input) (sc_world σ)) as [[stage1 writer] out] eqn:Hrun.
  assert (sent (dr_chan stage1) = input) as Hs1.
  { unfold spawn_reduce_batched_drain in Hrun. destruct (writer_run (sc_ops σ input) _) as [? w1], (flush w1).
    injection Hrun as <- _ _. by apply drained_all. }
  destruct (batched_feed (outbound_pipeline ref) item_type_name input (sc_items σ) (sc_intercepted σ)
    (sc_batches σ) cfg None (sc_ops σ input) (sc_world σ) stage1 writer out) as (_ & _ & Hall); try done.
  { by apply Hb. }
  { by rewrite fair_pushed0. }
  cbn [snd]. rewrite Hall; [done| |done|done]. eapply never_closes_le; [|exact fair_items0]. lia.
Qed.
End pipe_lemmas.

(** ** What the handlers do in a call *)
Section handler_calls.
Context {W Snd : Type} (env : nat → W → W).

(** The streamer emits [0..count] in order, however often its sends wait for room,
    and stops where the consumer goes. *)
Lemma streamer_emits `{StreamWorldLaws W Snd N} waits (s : Snd) count cancel n l w :
  (∀ n w, stream_items s (env n w) = stream_items s w) →
  let r := run env n (dispatch (H := ConformanceStreamer waits) (ExpandDispatch count s cancel)) l w in
  out r = Some DispatchResult_tell
  ∧ ∃ items, items `prefix_of` (N.of_nat <$> seq 0 (N.to_nat count))
      ∧ stream_items s (world r) = stream_items s w ++ items
      ∧ ((∀ x w, (stream_send s x w).1 = true) → items = N.of_nat <$> seq 0 (N.to_nat count)).
Proof.
  intros Henv. cbn zeta. cbn [dispatch]. unfold_envelope. cbn [handle_expand ConformanceStreamer]. rewrite run_bind.
  destruct (run_send_each env s Henv waits 0 (N.of_nat <$> seq 0 (N.to_nat count)) n l w) as [Ho Hi].
  unfold run_then. rewrite Ho, run_mret. cbn [out world]. split; [done|exact Hi].
Qed.

(** The reply is the sum of the
    items, in however many polls they arrive. *)
Lemma aggregator_sums p rx (tx : ReplyTx W Z) cancel n l w :
  sums_fit 0 (arrivals rx) →
  let r := run env n (dispatch (H := ConformanceAggregator (Snd := Snd) p) (ReduceDispatch rx tx cancel)) l w in
  reply <$> out r = Some (Some (foldr Z.add 0%Z (arrivals rx))) ∧ loc r = l.
Proof.
  intros Hfit. cbn zeta. cbn [dispatch]. unfold_envelope. cbn [handle_reduce ConformanceAggregator]. rewrite run_bind.
  destruct (run_sum_items env p rx 0 n l w Hfit) as [Ho Hl]. unfold run_then. rewrite Ho, run_mret.
  cbn [out loc]. by rewrite Hl.
Qed.

(** Every item is doubled, in
    order. *)
Lemma doubler_doubles `{StreamWorldLaws W Snd Z} p waits rx (s : Snd) n l w :
  (∀ n w, stream_items s (env n w) = stream_items s w) → (∀ x w, (stream_send s x w).1 = true) →
  Forall (λ x, i32_min <= x * 2 <= i32_max)%Z (arrivals rx) →
  let r := run env n (dispatch (H := ConformanceDoubler p waits) (TransformDispatch rx s None)) l w in
  out r = Some DispatchResult_tell
  ∧ stream_items s (world r) = stream_items s w ++ ((λ x, x * 2)%Z <$> arrivals rx).
Proof.
  intros Henv Hopen Hall. cbn zeta. cbn [dispatch]. unfold_envelope. cbn [on_transform_complete ConformanceDoubler].
  rewrite run_bind. destruct (run_doubler env p waits s Henv Hopen rx n l w Hall) as (Ho & _ & Hi).
  unfold run_then. rewrite Ho. rewrite run_bind, run_mret. unfold run_then. cbn [out tick loc world].
  rewrite run_mret. cbn [out world]. by split.
Qed.
End handler_calls.

Section calls.
Context {W Snd Bt Ch : Type}.

(** Small summands. *)
Lemma small_sums l : Forall (λ x, 0 <= x <= 100)%Z l → length l ≤ 20 → sums_fit 0 l.
Proof.
  intros Hall Hl k. assert (0 <= foldr Z.add 0 (take k l) <= 100 * Z.of_nat (length l))%Z; [|unfold i64_min, i64_max; lia].
  clear Hl. revert k. induction Hall as [|x l Hx _ IH]; intros [|k]; cbn [firstn foldr length]; [lia..|].
  specialize (IH k). lia.
Qed.

Lemma expands `{StreamWorldLaws W Snd N} `{SenderLaws (list N) Bt, SenderLaws N Ch}
    waits ref room (σ : Schedule () W N Snd () Bt Ch) count buffer batch :
  rf_interceptors ref = [] → fair room σ → (count <= 20)%N → batch_ok batch →
  expanded (H := ConformanceStreamer waits) ref σ count buffer batch = N.of_nat <$> seq 0 (N.to_nat count).
Proof.
  intros Hics Hfair Hc Hb. pose proof Hfair as []. unfold expanded, handled_by_actor.
  destruct (streamer_emits (sc_env σ) waits (sc_sender σ) count None 0 (sc_local σ) (sc_world σ) fair_env0)
    as (_ & items & _ & Hi & Hall).
  rewrite Hi, fair_start0, (Hall fair_open0). cbn [app].
  eapply collected_all; try done. rewrite length_fmap, length_seq. lia.
Qed.
Lemma reduces `{StreamWorld W Snd Z} `{SenderLaws (list Z) Bt, SenderLaws Z Ch}
    p ref room (σ : Schedule () W Z Snd Z Bt Ch) input batch :
  rf_interceptors ref = [] → fair room σ → length input ≤ 20 → batch_ok batch → sums_fit 0 input →
  reduced (H := ConformanceAggregator p) ref σ input batch = Some (foldr Z.add 0%Z input).
Proof.
  intros Hics Hfair Hl Hb Hfit. pose proof Hfair as []. unfold reduced, handled_by_actor.
  rewrite (fed_all (H := ConformanceAggregator p) ref Hics room σ Hfair) by done.
  destruct (aggregator_sums (Snd := Snd) (sc_env σ) p (sc_polls σ input) (sc_reply σ) None 0 (sc_local σ) (sc_world σ))
    as [Hr _]; [by rewrite fair_polls0|].
  rewrite fair_polls0 in Hr. by destruct (out _) as [res|]; [injection Hr as Hr|].
Qed.
Lemma transforms `{StreamWorldLaws W Snd Z} `{SenderLaws (list Z) Bt, SenderLaws Z Ch}
    p waits ref room (σ : Schedule () W Z Snd () Bt Ch) input buffer batch :
  rf_interceptors ref = [] → fair room σ → length input ≤ 20 → batch_ok batch →
  Forall (λ x, i32_min <= x * 2 <= i32_max)%Z input →
  transformed (H := ConformanceDoubler p waits) ref σ input buffer batch = (λ x, x * 2)%Z <$> input.
Proof.
  intros Hics Hfair Hl Hb Hall. pose proof Hfair as []. destruct fair_new0 as (_ & Hni & _).
  unfold transformed, handled_by_actor, spawn_transform_drain.
  rewrite (drained_all ref Hics room σ Hfair) by done.
  destruct (doubler_doubles (sc_env σ) p waits (sc_polls σ input) (sc_sender σ) 0 (sc_local σ) (sc_world σ))
    as [_ Hi]; [done|done|by rewrite fair_polls0|].
  rewrite Hi, fair_start0, fair_polls0. cbn [app].
  eapply collected_all; try done. by rewrite length_fmap.
Qed.
End calls.

(** ** The properties *)
Module Spec.

(** The stream tests of the suite pass on every fair schedule: what the
    caller of [expand] collects are the streamer's items in order, batched or
    not; a [reduce] answers with the sum of its input, batched or not; and
    [transform] doubles every item, in order, batched or not. *)
Theorem stream_tests_pass {W SndN SndZ BtN ChN BtZ ChZ : Type}
    `{StreamWorldLaws W SndN N, StreamWorldLaws W SndZ Z}
    `{SenderLaws (list N) BtN, SenderLaws N ChN, SenderLaws (list Z) BtZ, SenderLaws Z ChZ}
    (p : profile) waitsN waitsZ refN refA refD room
    (σN : Schedule () W N SndN () BtN ChN) (σA : Schedule () W Z SndZ Z BtZ ChZ)
    (σD : Schedule () W Z SndZ () BtZ ChZ) :
  rf_interceptors refN = [] → rf_interceptors refA = [] → rf_interceptors refD = [] →
  fair room σN → fair room σA → fair room σD →
  (test_stream_items waitsN refN σN && test_stream_empty waitsN refN σN
   && test_batched_stream waitsN refN σN && test_stream_with_none_batch waitsN refN σN
   && test_stream_slow_consumer waitsN refN σN
   && test_feed_sum p refA σA && test_batched_feed p refA σA && test_feed_with_none_batch p refA σA
   && test_transform_doubler p waitsZ refD σD && test_transform_empty p waitsZ refD σD
   && test_transform_batched p waitsZ refD σD && test_transform_with_none_batch p waitsZ refD σD) = true.
Proof.
  intros HN HA HD FN FA FD.
  rewrite !andb_true_iff. split_and!; apply bool_decide_eq_true_2.
  1-5: rewrite (expands waitsN refN room σN _ _ _ HN FN); [vm_compute; reflexivity|vm_compute; done|].
  6-8: rewrite (reduces p refA room σA _ _ HA FA);
    [vm_compute; reflexivity|simpl; lia| |by apply small_sums; [repeat constructor|simpl; lia]].
  9-12: rewrite (transforms p waitsZ refD room σD _ _ _ HD FD);
    [vm_compute; reflexivity|simpl; lia| |by repeat constructor].
  all: by intros cfg [= <-]; cbn; lia.
Qed.

(** One world for all: the items on the three handlers' channels. Every second
    poll finds nothing, and every push comes after a look at the deadline. *)
Definition Items : Type := list N * list Z.
#[local] Instance items_n : StreamWorld Items () N := {|
  stream_send _ x w := (true, (w.1 ++ [x], w.2)); stream_items _ w := w.1
|}.
#[local] Instance items_n_laws : StreamWorldLaws Items () N.
Proof. by split; intros s x w w' [= <-]. Qed.
#[local] Instance items_z : StreamWorld Items () Z := {|
  stream_send _ x w := (true, (w.1, w.2 ++ [x])); stream_items _ w := w.2
|}.
#[local] Instance items_z_laws : StreamWorldLaws Items () Z.
Proof. by split; intros s x w w' [= <-]. Qed.

Definition demo_chan {T} : TestChan T := mkTestChan [] 0 100 100.
Definition demo_schedule {T R} : Schedule () Items T () R (TestChan (list T)) (TestChan T) := {|
  sc_env _ w := w;
  sc_polls l := concat ((λ x, [None; Some x]) <$> l);
  sc_ops l := concat ((λ x, [WCheck 0; WPush 0 x]) <$> l);
  sc_sender := (); sc_batches := demo_chan; sc_items := demo_chan; sc_intercepted := demo_chan;
  sc_output := demo_chan; sc_reply _ w := w;
  sc_local := ((), ActorContext_new (mkActorId (mkNodeId "n") 1) "a"); sc_world := ([], [])
|}.
Lemma demo_chan_open {T} : never_closes (demo_chan (T := T)) 60.
Proof.
  intros xs Hxs. unfold demo_chan. assert (length xs < 100) as Hlt by lia. clear Hxs. revert Hlt.
  generalize 100 at 1 3 as n. generalize ([] : list T) as l. induction xs as [|x xs IH]; intros l n Hn; simpl in *.
  - apply Nat.eqb_neq. lia.
  - destruct n as [|n]; [lia|]. apply IH. lia.
Qed.
Lemma demo_fair {T R} `{StreamWorld Items () T} :
  (∀ x w, (stream_send () x w).1 = true) → stream_items () ([], []) = [] →
  fair 60 (demo_schedule (T := T) (R := R)).
Proof.
  intros Hopen Hempty. split; try done; try apply demo_chan_open.
  - lia.
  - intros l. unfold arrivals. cbn. induction l as [|x l IH]; [done|]. cbn in *. by rewrite IH.
  - intros l. unfold pushed. cbn. induction l as [|x l IH]; [done|]. cbn in *. by rewrite IH.
  - intros l Hl. cbn. assert (length (concat ((λ x, [WCheck 0; WPush 0 x]) <$> l)) = 2 * length l) as ->; [|lia].
    clear Hl. induction l as [|x l IH]; [done|]. cbn in *. lia.
Qed.
Definition demo_ref {M T R} : ActorRefData (W := Items) (M := M) (T := T) (R := R) :=
  mkActorRefData (mkActorId (mkNodeId "n") 1) "a" [] None None.
Lemma stream_tests_pass_witness :
  fair 60 (demo_schedule (T := N) (R := ())) ∧ fair 60 (demo_schedule (T := Z) (R := Z))
  ∧ test_batched_stream (λ _, 0) demo_ref (demo_schedule (T := N) (R := ())) = true.
Proof.
  assert (fair 60 (demo_schedule (T := N) (R := ()))) as FN by (apply demo_fair; done).
  assert (fair 60 (demo_schedule (T := Z) (R := Z))) as FA by (apply demo_fair; done).
  assert (fair 60 (demo_schedule (T := Z) (R := ()))) as FD by (apply demo_fair; done).
  split; [exact FN|]. split; [exact FA|].
  pose proof (stream_tests_pass Debug (λ _, 0) (λ _, 0) demo_ref demo_ref demo_ref 60 demo_schedule
    demo_schedule demo_schedule eq_refl eq_refl eq_refl FN FA FD) as Hall.
  rewrite !andb_true_iff in Hall. apply Hall.
Defined.
End Spec.
