(* ===== verification/Clock.v ===== *)
(** * Clocks (dactor/src/clock.rs, dactor/src/test_support/test_clock.rs)

    The trait [Clock], the clock of the system, and the clock that tests advance
    by hand. Instants and durations are nanoseconds, [unix_ms] milliseconds; the
    casts between [u128], [u64] and [i64] wrap as [as] does. *)
From S2P Require Import Prelude.

#[local] Open Scope list_scope.
#[local] Open Scope Z_scope.

(** What a clock promises: both readings can panic, [None]. *)
Class Clock (C : Type) := {
  clock_now : C → option N;
  clock_unix_ms : C → option Z
}.

(** ** The clock of the system
    Its two readings: the monotonic one, and the time since the epoch, which is
    negative on a machine whose clock is set before it. *)
Record SystemClock := mkSystemClock { monotonic : N; since_epoch : Z }.
(** [duration_since(UNIX_EPOCH).unwrap_or_default().as_millis() as i64] *)
Definition unix_ms_of (since_epoch : Z) : Z := as_i64 (Z.max 0 since_epoch / 1000000).
#[export] Instance system_clock : Clock SystemClock := {|
  clock_now c := Some (monotonic c);
  clock_unix_ms c := Some (unix_ms_of (since_epoch c))
|}.

(** ** The test clock
    Clones share the counter, which is the explicit state. *)
Record TestClock := mkTestClock { start_instant : N; elapsed_ms : Z; base_unix_ms : Z }.
Definition TestClock_new (real : SystemClock) : TestClock :=
  mkTestClock (monotonic real) 0 (unix_ms_of (since_epoch real)).
Definition with_base_unix_ms (real : SystemClock) (base : Z) : TestClock :=
  mkTestClock (monotonic real) 0 base.
(** [fetch_add] wraps, and the milliseconds of the duration are cast. *)
Definition advance (duration : N) (c : TestClock) : TestClock :=
  mkTestClock (start_instant c) (as_i64 (elapsed_ms c + as_i64 (Z.of_N (duration / 1000000))))
    (base_unix_ms c).
Definition as_u64 (z : Z) : N := Z.to_N (z mod 2 ^ 64).
Definition elapsed (c : TestClock) : N := from_millis (as_u64 (elapsed_ms c)).

(** [Instant + Duration] panics beyond the largest instant, whose seconds are an
    [i64]. *)
Definition instant_max : N := (2 ^ 63 - 1) * 1000000000 + 999999999.
Definition TestClock_now (c : TestClock) : option N :=
  let t := (start_instant c + elapsed c)%N in if (t <=? instant_max)%N then Some t else None.
Definition TestClock_unix_ms (p : profile) (c : TestClock) : option Z :=
  add_i64 p (base_unix_ms c) (elapsed_ms c).
Definition test_clock (p : profile) : Clock TestClock := {|
  clock_now := TestClock_now;
  clock_unix_ms := TestClock_unix_ms p
|}.

(** ** Lemmas *)
Lemma as_u64_small z : 0 <= z < 2 ^ 64 → as_u64 z = Z.to_N z.
Proof. intros Hz. unfold as_u64. by rewrite Z.mod_small. Qed.

(** The whole milliseconds of a run of advances. *)
Definition total_ms (ds : list N) : Z := Z.of_N (foldr (λ d n, d / 1000000 + n)%N 0%N ds).
Definition advance_all (ds : list N) (c : TestClock) : TestClock := foldl (λ c d, advance d c) c ds.
Lemma advance_all_spec ds c :
  0 <= elapsed_ms c → elapsed_ms c + total_ms ds <= i64_max →
  advance_all ds c = mkTestClock (start_instant c) (elapsed_ms c + total_ms ds) (base_unix_ms c).
Proof.
  unfold advance_all, total_ms. revert c. induction ds as [|d ds IH]; intros c H0 Hmax; cbn [foldl foldr] in *.
  { rewrite Z.add_0_r. by destruct c. }
  assert (elapsed_ms (advance d c) = elapsed_ms c + Z.of_N (d / 1000000)) as He.
  { unfold advance. simpl. generalize dependent (d / 1000000)%N. intros q Hmax.
    rewrite (as_i64_small (Z.of_N q)) by (unfold i64_min; lia).
    apply as_i64_small. unfold i64_min. lia. }
  generalize dependent (d / 1000000)%N. intros q Hmax He.
  rewrite IH by (rewrite He; lia). rewrite He. simpl. f_equal. lia.
Qed.

(** ** The properties *)
Module Spec.

(** The two readings of a test clock advance together, over any run of advances
    whose whole milliseconds stay in range: the elapsed time and the instant have
    moved by exactly their sum, and so has the Unix time, with nothing panicking
    in any build. *)
Theorem readings_agree (p : profile) c ds :
  elapsed_ms c = 0 → total_ms ds <= i64_max →
  (start_instant c + from_millis (Z.to_N (total_ms ds)) <= instant_max)%N →
  i64_min <= base_unix_ms c <= i64_max → base_unix_ms c + total_ms ds <= i64_max →
  elapsed (advance_all ds c) = from_millis (Z.to_N (total_ms ds)) ∧
  TestClock_now (advance_all ds c) = Some (start_instant c + from_millis (Z.to_N (total_ms ds)))%N ∧
  TestClock_unix_ms p (advance_all ds c) = Some (base_unix_ms c + total_ms ds).
Proof.
  intros H0 Hms Hnow Hbase Hunix.
  assert (0 <= total_ms ds) by (unfold total_ms; lia).
  rewrite advance_all_spec, H0 by lia. unfold TestClock_now, elapsed, TestClock_unix_ms.
  cbn [elapsed_ms start_instant base_unix_ms]. rewrite Z.add_0_l.
  rewrite as_u64_small by (unfold i64_max in Hms; lia). split_and!; [done| |].
  - by apply N.leb_le in Hnow as ->.
  - apply add_i64_small. lia.
Qed.
Lemma readings_agree_witness :
  let c := advance_all [1500000; 2000000000]%N (with_base_unix_ms (mkSystemClock 7 0) 1000) in
  TestClock_now c = Some 2001000007%N ∧ TestClock_unix_ms Debug c = Some 3001.
Proof.
  destruct (readings_agree Debug (with_base_unix_ms (mkSystemClock 7 0) 1000) [1500000; 2000000000]%N)
    as (_ & Hn & Hu); [done..|]. split; [exact Hn|exact Hu].
Defined.

(** An advance of less than a millisecond is lost, however often it is made. *)
Lemma small_advances_lost d n c :
  (d < 1000000)%N → elapsed_ms c = 0 → elapsed (advance_all (replicate n d) c) = 0%N.
Proof.
  intros Hd H0. assert (total_ms (replicate n d) = 0) as Ht.
  { unfold total_ms. induction n as [|n IH]; [done|]. cbn [replicate foldr].
    rewrite N.div_small by done. done. }
  rewrite advance_all_spec, H0, Ht by (rewrite ?H0, ?Ht; done). done.
Qed.
End Spec.
