(* ===== verification/Timer.v ===== *)
(** * Timers (dactor/src/timer.rs)

    [send_after] and [send_interval]: the tasks they spawn. A [tell] to the
    actor succeeds or fails as the world says. *)
From S2P Require Import Prelude Task.

#[local] Open Scope list_scope.
#[local] Open Scope nat_scope.

(** What the tasks need of the world: [sleep] and [interval] register a timer;
    the message factory and the reference of the actor. *)
Class TimerWorld (W M : Type) := {
  tw_timer : N → W → W;
  tw_make : W → M * W;
  tw_tell : M → W → bool * W
}.

Section timer.
Context {W M : Type} `{TimerWorld W M}.

(** The result of the [tell] is dropped. *)
Definition send_after (msg : M) (delay : N) : Task () W () :=
  _ ← sync (λ l w, (l, tw_timer delay w, ()));
  _ ← yield_now;
  sync (λ l w, (l, (tw_tell msg w).2, ())).

(** [ticks] is what the polls of [interval_timer.tick()] yield, one for each
    turn of the loop: a tick that is ready, or none yet. The result tells whether
    the loop was left; it goes on where [ticks] ends. *)
Fixpoint interval_loop (cancel : W → bool) (ticks : list bool) : Task () W bool :=
  match ticks with
  | [] => mret false
  | true :: ticks => Await (λ l w,
      if cancel w then (l, w, Ready true)
      else let '(m, w) := tw_make w in
           let '(ok, w) := tw_tell m w in
           if (ok : bool) then poll_task (interval_loop cancel ticks) l w else (l, w, Ready true))
  | false :: ticks => Await (λ l w,
      if cancel w then (l, w, Ready true) else (l, w, Pending (interval_loop cancel ticks)))
  end.
(** [tokio::time::interval] panics on an interval of zero. *)
Definition send_interval (interval : N) (cancel : W → bool) (ticks : list bool) : Task () W bool :=
  if (interval =? 0)%N then panic_now
  else _ ← sync (λ l w, (l, tw_timer interval w, ())); interval_loop cancel ticks.

(** *** cancel_after (dactor/src/actor.rs)
    A [CancellationToken] is its view, [is_cancelled], and its [cancel()]. The
    token, the task that is spawned, and the world in which it is. *)
Definition cancel_after (new_token : W → (W → bool) * (W → W) * W) (duration : N) (w : W) :
    (W → bool) * Task () W () * W :=
  let '(token, cancel, w) := new_token w in
  (token,
   (_ ← sync (λ l w, (l, tw_timer duration w, ()));
    _ ← yield_now;
    sync (λ l w, (l, cancel w, ()))), w).

(** ** Lemmas *)
(** A delayed message is sent once, after its timer. *)
Lemma run_send_after msg delay env n w :
  run env n (send_after msg delay) () w
  = mkRan (S n) () (tw_tell msg (env n (tw_timer delay w))).2 (Some ()).
Proof. done. Qed.
(** The token is set at the end of the sleep, and by nothing before. *)
Lemma cancel_after_sets new_token duration token cancel w w1 env n :
  new_token w = (token, cancel, w1) →
  token w1 = false → (∀ w, token (cancel w) = true) →
  (∀ d w, token (tw_timer d w) = token w) → (∀ n w, token (env n w) = token w) →
  let '(token', task, w2) := cancel_after new_token duration w in
  token' w2 = false
  ∧ token' (env n (tw_timer duration w2)) = false
  ∧ out (run env n task () w2) = Some ()
  ∧ token' (world (run env n task () w2)) = true.
Proof.
  intros Hnew Hunset Hset Htimer Henv. unfold cancel_after. rewrite Hnew. cbn.
  by rewrite Henv, Htimer, Hunset, Hset.
Qed.
Lemma run_send_interval interval cancel ticks env n w :
  run env n (send_interval interval cancel ticks) () w
  = if (interval =? 0)%N then mkRan n () w None
    else run env n (interval_loop cancel ticks) () (tw_timer interval w).
Proof.
  unfold send_interval. destruct (interval =? 0)%N; [done|]. by rewrite run_bind, run_sync.
Qed.
End timer.

(** ** What is seen of the loop
    A log kept beside the world: the messages made, with whether the token was
    set as the turn began, the sends with their outcome, and the waits for the
    next tick, with whether the token was set as the task went to sleep. *)
Section observed.
Context {W M : Type} `{TimerWorld W M} (cancel : W → bool).

Inductive TimerEvent :=
  | Made (token_set : bool) (m : M)
  | Sent (m : M) (ok : bool)
  | Waited (token_set : bool).

#[local] Instance observed : TimerWorld (W * list TimerEvent) M := {|
  tw_timer d w := (tw_timer d w.1, w.2);
  tw_make w := let '(m, w1) := tw_make w.1 in (m, (w1, w.2 ++ [Made (cancel w.1) m]));
  tw_tell m w := let '(ok, w1) := tw_tell m w.1 in (ok, (w1, w.2 ++ [Sent m ok]))
|}.
Definition run_observed (env : nat → W → W) (n : nat) (ticks : list bool) (w : W) :=
  run (λ n w, (env n w.1, w.2 ++ [Waited (cancel w.1)])) n
    (interval_loop (λ w, cancel w.1) ticks) () (w, []).

(** A whole turn: a tick whose message was sent, or a wait. *)
Definition turn (step : option M) : list TimerEvent :=
  match step with Some m => [Made false m; Sent m true] | None => [Waited false] end.
Definition ticked (step : option M) : bool := bool_decide (is_Some step).

Definition logged (log : list TimerEvent) (ticks : list bool)
    (r : @ran () (W * list TimerEvent) bool) : Prop :=
  ∃ steps rest, ticks = map ticked steps ++ rest ∧
    match out r with
    | None => False
    | Some false => rest = [] ∧ (world r).2 = log ++ flat_map turn steps
    | Some true =>
        (cancel (world r).1 = true ∧ rest ≠ [] ∧ (world r).2 = log ++ flat_map turn steps)
        ∨ ∃ m rest', rest = true :: rest'
            ∧ (world r).2 = log ++ flat_map turn steps ++ [Made false m; Sent m false]
    end.
Lemma logged_turn step log ticks r :
  logged (log ++ turn step) ticks r → logged log (ticked step :: ticks) r.
Proof.
  intros (steps & rest & -> & Hr). exists (step :: steps), rest. split; [done|].
  destruct (out r) as [[]|]; [..|done].
  - destruct Hr as [(? & ? & ->)|(m & rest' & -> & ->)]; [left|right; exists m, rest'];
      by (cbn [flat_map]; rewrite <-?app_assoc).
  - destruct Hr as [? ->]. by (cbn [flat_map]; rewrite <-?app_assoc).
Qed.
Lemma interval_log env ticks n w log :
  logged log ticks (run (λ n w, (env n w.1, w.2 ++ [Waited (cancel w.1)])) n
    (interval_loop (λ w, cancel w.1) ticks) () (w, log)).
Proof.
  revert n w log. induction ticks as [|b ticks IH]; intros n w log.
  { exists [], []. cbn. by rewrite app_nil_r. }
  destruct (cancel w) eqn:Hc.
  { exists [], (b :: ticks). split; [done|]. destruct b; simpl; rewrite Hc; cbn; left; by rewrite app_nil_r. }
  destruct b; simpl; rewrite Hc.
  - destruct (tw_make w) as [m w1] eqn:Hm. simpl. destruct (tw_tell m w1) as [[] w2] eqn:Ht; simpl.
    + apply (logged_turn (Some m)). rewrite <-app_assoc.
      specialize (IH n w2 (log ++ [Made false m; Sent m true])). by rewrite run_poll in IH.
    + exists [], (true :: ticks). split; [done|]. right. exists m, ticks. by rewrite <-?app_assoc.
  - apply (logged_turn None). cbn [fst snd]. rewrite Hc. exact (IH (S n) (env n w) _).
Qed.
End observed.

Module Spec.
Section spec.
Context {W M : Type} `{TimerWorld W M}.

(** C28. A periodic timer looks at its token before every tick and sends one
    message, freshly made, for each tick, whatever the other tasks do, until it
    sees the token set or a send fails. In the log of a run every turn, be it a
    tick with its message or a wait for the next one, began with the token unset;
    the loop ends at the first turn that begins with the token set, and then
    makes and sends nothing more, or at the first send that fails, which is the
    last; otherwise it takes all its turns. *)
Theorem interval_sends (cancel : W → bool) env n ticks w :
  let r := run_observed cancel env n ticks w in
  ∃ (steps : list (option M)) rest, ticks = map ticked steps ++ rest ∧
    match out r with
    | None => False
    | Some false => rest = [] ∧ (world r).2 = flat_map turn steps
    | Some true =>
        (cancel (world r).1 = true ∧ rest ≠ [] ∧ (world r).2 = flat_map turn steps)
        ∨ ∃ m rest', rest = true :: rest'
            ∧ (world r).2 = flat_map turn steps ++ [Made false m; Sent m false]
    end.
Proof. exact (interval_log cancel env ticks n w []). Qed.
End spec.

(** Messages are numbered; three fit; the token is set at the fourth step of the
    others. *)
#[local] Instance demo_timer : TimerWorld (nat * nat) nat := {|
  tw_timer _ w := w;
  tw_make w := (w.1, (S w.1, w.2));
  tw_tell m w := (m <? 3, w)
|}.
Abbreviation demo_run := (λ ticks,
  run_observed (λ w : nat * nat, 4 <=? w.2) (λ _ w, (w.1, S w.2)) 0 ticks (0, 0)).
Example interval_refused :
  let r := demo_run [true; false; true; true; true; true] in
  out r = Some true
  ∧ (world r).2 = flat_map turn [Some 0; None; Some 1; Some 2] ++ [Made false 3; Sent 3 false].
Proof. vm_compute. done. Qed.
Example interval_cancelled :
  let r := demo_run [true; false; false; false; false; true; true] in
  out r = Some true ∧ (world r).2 = flat_map turn [Some 0; None; None; None; None].
Proof. vm_compute. done. Qed.
End Spec.
