(* ===== verification/AzureDiscovery.v ===== *)
(** * Azure discovery (dactor-discover-azure/src/lib.rs)

    The two discoveries, down to the HTTP requests they make. The HTTP client,
    the JSON parser and the server are library and environment: a request gives
    a response or an error, a body parses or not. A listing follows the links of
    its pages for as long as the server gives another one; the fuel is the
    number of pages the model looks at. *)
From S2P Require Import Prelude Cluster.

#[local] Open Scope string_scope.
#[local] Open Scope list_scope.
#[local] Open Scope nat_scope.

(** ** Errors *)
Inductive AzureDiscoveryError :=
  | ImdsError (e : string) | ArmApiError (e : string) | HttpError (e : string)
  | ParseError (e : string) | AzureConfig (e : string).
Definition AzureDiscoveryError_display (e : AzureDiscoveryError) : string :=
  match e with
  | ImdsError e => "IMDS error: " +:+ e
  | ArmApiError e => "ARM API error: " +:+ e
  | HttpError e => "HTTP error: " +:+ e
  | ParseError e => "parse error: " +:+ e
  | AzureConfig e => "configuration error: " +:+ e
  end.

(** ** What the servers answer *)
Record ImdsCompute := mkImdsCompute {
  imds_subscription_id : string;
  imds_resource_group_name : string;
  imds_vmss_name : option string
}.
Record ArmListResponse (X : Type) := mkArmListResponse { value : list X; next_link : option string }.
Arguments mkArmListResponse {X}.
Arguments value {X}.
Arguments next_link {X}.
Record ArmNetworkInterface := mkArmNetworkInterface { nic_private_ips : list (option string) }.
(** A response of the client: its status, and its text when it can be read. *)
Record HttpResponse (B : Type) := mkHttpResponse {
  is_success : bool; status_text : string; resp_text : result string string; resp_body : B
}.
Arguments mkHttpResponse {B}.
Arguments is_success {B}.
Arguments status_text {B}.
Arguments resp_text {B}.
Arguments resp_body {B}.

(** [serde_json::Value], by the accessors the code uses. *)
Class JsonValue (J : Type) := {
  json_tag : string → J → option J;       (* .get(tags), as an object, .get(key) *)
  json_pointer : string → J → option J;
  json_as_str : J → option string
}.
(** The client's [get] with the parts of a request the code sets, and
    [resp.json()] at each type. *)
Record HttpRequest := mkHttpRequest {
  url : string; headers : list (string * string); query : list (string * string);
  bearer_auth : option string
}.
Class HttpWorld (W B J : Type) := {
  http_get : HttpRequest → W → result string (HttpResponse B) * W;
  parse_imds : B → result string ImdsCompute;
  parse_token : B → result string string;
  parse_nics : B → result string (ArmListResponse ArmNetworkInterface);
  parse_vms : B → result string (ArmListResponse J);
  parse_nic : B → result string ArmNetworkInterface
}.

Section azure.
Context {W B J : Type} `{JsonValue J} `{HttpWorld W B J}.

Definition IMDS_BASE : string := "http://169.254.169.254".
Definition IMDS_API_VERSION : string := "2021-02-01".
Definition ARM_API_VERSION_NIC : string := "2023-09-01".
Definition ARM_API_VERSION_VM : string := "2023-09-01".
Definition imds_instance_url : string :=
  IMDS_BASE +:+ "/metadata/instance?api-version=" +:+ IMDS_API_VERSION.

(** [if !resp.status().is_success() { return Err(..) }; resp.json().map_err(..)];
    [refused] makes the error of the status and the text. *)
Definition checked_json {X} (refused : string → string → AzureDiscoveryError) (what : string)
    (parse : B → result string X) (resp : HttpResponse B) : result AzureDiscoveryError X :=
  if is_success resp
  then map_err (λ e, ParseError (what +:+ ": " +:+ e)) (parse (resp_body resp))
  else Err (refused (status_text resp) (match resp_text resp with Ok body => body | Err _ => "" end)).
Definition failed_with (what status body : string) : string :=
  what +:+ " (" +:+ status +:+ "): " +:+ body.
(** A request, [?] on the client's error, and what is made of the response. *)
Definition get_json {X} (request : HttpRequest)
    (check : HttpResponse B → result AzureDiscoveryError X) (w : W) :
    result AzureDiscoveryError X * W :=
  let '(resp, w) := http_get request w in
  (match resp with Err e => Err (HttpError e) | Ok resp => check resp end, w).

Definition query_imds : W → result AzureDiscoveryError ImdsCompute * W :=
  get_json (mkHttpRequest (IMDS_BASE +:+ "/metadata/instance") [("Metadata", "true")]
              [("api-version", IMDS_API_VERSION)] None)
    (checked_json (λ status body, ImdsError ("IMDS returned " +:+ status +:+ ": " +:+ body))
       "IMDS response" parse_imds).
Definition acquire_managed_identity_token : W → result AzureDiscoveryError string * W :=
  get_json (mkHttpRequest "http://169.254.169.254/metadata/identity/oauth2/token"
              [("Metadata", "true")]
              [("api-version", "2019-08-01"); ("resource", "https://management.azure.com/")] None)
    (checked_json (λ status body, ImdsError (failed_with "token request failed" status body))
       "token response" parse_token).
(** A GET of the ARM API. *)
Definition arm_get {X} (what parse_what url token : string) (parse : B → result string X) :
    W → result AzureDiscoveryError X * W :=
  get_json (mkHttpRequest url [] [] (Some token))
    (checked_json (λ status body, ArmApiError (failed_with what status body)) parse_what parse).
Definition current_subscription_id (w : W) : option string * W :=
  let '(r, w) := query_imds w in
  (match r with Ok c => Some (imds_subscription_id c) | Err _ => None end, w).
Definition current_resource_group (w : W) : option string * W :=
  let '(r, w) := query_imds w in
  (match r with Ok c => Some (imds_resource_group_name c) | Err _ => None end, w).

(** ** Paging
    [while let Some(page_url) = next_url.take() { .. next_url = page.next_link }].
    [None] is that there are more pages than the fuel. *)
Section pages.
Context {X : Type} (list_page : string → W → result AzureDiscoveryError (ArmListResponse X) * W)
  (take : list X → W → list string * W).
Fixpoint follow_pages (fuel : nat) (next_url : option string) (addresses : list string) (w : W) :
    option (result AzureDiscoveryError (list string)) * W :=
  match next_url, fuel with
  | None, _ => (Some (Ok addresses), w)
  | Some _, 0 => (None, w)
  | Some page_url, S fuel =>
      match list_page page_url w with
      | (Err e, w) => (Some (Err e), w)
      | (Ok page, w) =>
          let '(found, w) := take (value page) w in
          follow_pages fuel (next_link page) (addresses ++ found) w
      end
  end.
End pages.

(** ** Scale sets *)
Record VmssDiscoveryConfig := mkVmssConfig {
  vmss_port : N; use_imds : bool; vmss_subscription_id : option string;
  vmss_resource_group : option string; vmss_name : option string
}.
Definition VmssDiscoveryConfig_default : VmssDiscoveryConfig := mkVmssConfig 9000 true None None None.
Definition set_vmss_port (x : N) (c : VmssDiscoveryConfig) : VmssDiscoveryConfig :=
  mkVmssConfig x (use_imds c) (vmss_subscription_id c) (vmss_resource_group c) (vmss_name c).
Definition set_use_imds (x : bool) (c : VmssDiscoveryConfig) : VmssDiscoveryConfig :=
  mkVmssConfig (vmss_port c) x (vmss_subscription_id c) (vmss_resource_group c) (vmss_name c).
Definition set_vmss_subscription_id (x : string) (c : VmssDiscoveryConfig) : VmssDiscoveryConfig :=
  mkVmssConfig (vmss_port c) (use_imds c) (Some x) (vmss_resource_group c) (vmss_name c).
Definition set_vmss_resource_group (x : string) (c : VmssDiscoveryConfig) : VmssDiscoveryConfig :=
  mkVmssConfig (vmss_port c) (use_imds c) (vmss_subscription_id c) (Some x) (vmss_name c).
Definition set_vmss_name (x : string) (c : VmssDiscoveryConfig) : VmssDiscoveryConfig :=
  mkVmssConfig (vmss_port c) (use_imds c) (vmss_subscription_id c) (vmss_resource_group c) (Some x).

Definition vmss_missing : string :=
  "use_imds is false but subscription_id, resource_group, or vmss_name is missing".
Definition resolve_vmss_info (c : VmssDiscoveryConfig) (w : W) :
    result AzureDiscoveryError (string * string * string) * W :=
  match vmss_subscription_id c, vmss_resource_group c, vmss_name c with
  | Some sub, Some rg, Some vmss => (Ok (sub, rg, vmss), w)
  | sub, rg, vmss =>
      if use_imds c then
        let '(imds, w) := query_imds w in
        (imds ← imds;
         match (match vmss with Some v => Some v | None => imds_vmss_name imds end) with
         | Some vmss => Ok (default (imds_subscription_id imds) sub,
                            default (imds_resource_group_name imds) rg, vmss)
         | None => Err (ImdsError "current VM is not part of a VMSS")
         end, w)
      else (Err (AzureConfig vmss_missing), w)
  end.
Definition vmss_url (sub rg vmss : string) : string :=
  "https://management.azure.com/subscriptions/" +:+ sub +:+ "/resourceGroups/" +:+ rg
  +:+ "/providers/Microsoft.Compute/virtualMachineScaleSets/" +:+ vmss
  +:+ "/networkInterfaces?api-version=" +:+ ARM_API_VERSION_NIC.
(** Every private address of every interface of a page. *)
Definition nic_addresses (port : N) (nics : list ArmNetworkInterface) (w : W) : list string * W :=
  (nics ≫= λ nic, omap (fmap (host_port port)) (nic_private_ips nic), w).
Definition discover_instances (fuel : nat) (c : VmssDiscoveryConfig) (w : W) :
    option (result AzureDiscoveryError (list string)) * W :=
  match resolve_vmss_info c w with
  | (Err e, w) => (Some (Err e), w)
  | (Ok (sub, rg, vmss), w) =>
      match acquire_managed_identity_token w with
      | (Err e, w) => (Some (Err e), w)
      | (Ok token, w) =>
          follow_pages
            (λ url, arm_get "list NICs failed" "NIC list" url token parse_nics)
            (nic_addresses (vmss_port c)) fuel (Some (vmss_url sub rg vmss)) [] w
      end
  end.

(** ** Tags *)
Record AzureTagConfig := mkAzureTagConfig {
  az_tag_key : string; az_tag_value : string; az_port : N;
  az_subscription_id : option string; az_resource_group : option string
}.
Definition AzureTagConfig_default : AzureTagConfig := mkAzureTagConfig "" "" 9000 None None.
Definition set_az_tag_key (x : string) (c : AzureTagConfig) : AzureTagConfig :=
  mkAzureTagConfig x (az_tag_value c) (az_port c) (az_subscription_id c) (az_resource_group c).
Definition set_az_tag_value (x : string) (c : AzureTagConfig) : AzureTagConfig :=
  mkAzureTagConfig (az_tag_key c) x (az_port c) (az_subscription_id c) (az_resource_group c).
Definition set_az_port (x : N) (c : AzureTagConfig) : AzureTagConfig :=
  mkAzureTagConfig (az_tag_key c) (az_tag_value c) x (az_subscription_id c) (az_resource_group c).
Definition set_az_subscription_id (x : string) (c : AzureTagConfig) : AzureTagConfig :=
  mkAzureTagConfig (az_tag_key c) (az_tag_value c) (az_port c) (Some x) (az_resource_group c).
Definition set_az_resource_group (x : string) (c : AzureTagConfig) : AzureTagConfig :=
  mkAzureTagConfig (az_tag_key c) (az_tag_value c) (az_port c) (az_subscription_id c) (Some x).

Definition resolve_subscription (c : AzureTagConfig) (w : W) : result AzureDiscoveryError string * W :=
  match az_subscription_id c with
  | Some sub => (Ok sub, w)
  | None => let '(imds, w) := query_imds w in (imds_subscription_id <$> imds, w)
  end.
Definition tag_url (sub : string) (rg : option string) : string :=
  "https://management.azure.com/subscriptions/" +:+ sub
  +:+ match rg with Some rg => "/resourceGroups/" +:+ rg | None => "" end
  +:+ "/providers/Microsoft.Compute/virtualMachines?api-version=" +:+ ARM_API_VERSION_VM.
(** The first address of an interface. *)
Definition fetch_nic_private_ip (nic_id token : string) (w : W) : result AzureDiscoveryError string * W :=
  let '(nic, w) :=
    arm_get "get NIC failed" "NIC details"
      ("https://management.azure.com" +:+ nic_id +:+ "?api-version=" +:+ ARM_API_VERSION_NIC) token
      parse_nic w in
  (nic ← nic;
   match head (nic_private_ips nic) with
   | Some (Some ip) => Ok ip
   | _ => Err (ArmApiError "NIC has no private IP configuration")
   end, w).
Definition vm_matches (c : AzureTagConfig) (vm : J) : bool :=
  match json_tag (az_tag_key c) vm ≫= json_as_str with
  | Some v => bool_decide (v = az_tag_value c)
  | None => false
  end.
Definition vm_nic_id (vm : J) : option string :=
  json_pointer "/properties/networkProfile/networkInterfaces/0/id" vm ≫= json_as_str.
(** The [for] over the machines of a page; a lookup that fails is skipped. *)
Fixpoint vm_addresses (c : AzureTagConfig) (token : string) (vms : list J) (w : W) : list string * W :=
  match vms with
  | [] => ([], w)
  | vm :: vms =>
      match (if vm_matches c vm then vm_nic_id vm else None) with
      | Some nic_id =>
          let '(ip, w) := fetch_nic_private_ip nic_id token w in
          let '(rest, w) := vm_addresses c token vms w in
          (match ip with Ok ip => host_port (az_port c) ip :: rest | Err _ => rest end, w)
      | None => vm_addresses c token vms w
      end
  end.
Definition discover_by_tag (fuel : nat) (c : AzureTagConfig) (w : W) :
    option (result AzureDiscoveryError (list string)) * W :=
  if decide (az_tag_key c = "") then (Some (Err (AzureConfig "tag_key must not be empty")), w)
  else
    match resolve_subscription c w with
    | (Err e, w) => (Some (Err e), w)
    | (Ok sub, w) =>
        match acquire_managed_identity_token w with
        | (Err e, w) => (Some (Err e), w)
        | (Ok token, w) =>
            follow_pages
              (λ url, arm_get "list VMs failed" "VM list" url token parse_vms)
              (vm_addresses c token) fuel (Some (tag_url sub (az_resource_group c))) [] w
        end
    end.

(** ** As cluster discoveries *)
Definition Vmss_discover (fuel : nat) (c : VmssDiscoveryConfig) (w : W) :
    option (result DiscoveryError (list DiscoveredPeer)) * W :=
  let '(r, w) := discover_instances fuel c w in (discovered AzureDiscoveryError_display <$> r, w).
Definition AzureTag_discover (fuel : nat) (c : AzureTagConfig) (w : W) :
    option (result DiscoveryError (list DiscoveredPeer)) * W :=
  let '(r, w) := discover_by_tag fuel c w in (discovered AzureDiscoveryError_display <$> r, w).
End azure.

(** ** Paging
    What a server that is asked for the pages from [url] on serves: the addresses
    of each page, and whether the listing ends or a request fails. *)
Section served.
Context {W X : Type} (list_page : string → W → result AzureDiscoveryError (ArmListResponse X) * W)
  (take : list X → W → list string * W).

Inductive served : string → W → list (list string) → option AzureDiscoveryError → W → Prop :=
  | served_error url w e w1 : list_page url w = (Err e, w1) → served url w [] (Some e) w1
  | served_last url w page w1 found w2 :
      list_page url w = (Ok page, w1) → take (value page) w1 = (found, w2) → next_link page = None →
      served url w [found] None w2
  | served_more url w page w1 found w2 url' pages e w3 :
      list_page url w = (Ok page, w1) → take (value page) w1 = (found, w2) →
      next_link page = Some url' → served url' w2 pages e w3 →
      served url w (found :: pages) e w3.

(** The requests of a listing. *)
Definition requests (pages : list (list string)) (e : option AzureDiscoveryError) : nat :=
  length pages + match e with Some _ => 1 | None => 0 end.
Definition listed (addresses : list string) (pages : list (list string))
    (e : option AzureDiscoveryError) : result AzureDiscoveryError (list string) :=
  match e with Some e => Err e | None => Ok (addresses ++ concat pages) end.

Lemma served_followed url w pages e w' fuel addresses :
  served url w pages e w' → requests pages e ≤ fuel →
  follow_pages list_page take fuel (Some url) addresses w = (Some (listed addresses pages e), w').
Proof.
  intros Hs. revert fuel addresses.
  induction Hs as [url w e w1 Hp|url w page w1 found w2 Hp Ht Hn
    |url w page w1 found w2 url' pages e w3 Hp Ht Hn Hs IH]; intros [|fuel] addresses Hf;
    unfold requests in Hf; simpl in Hf; try lia; simpl; rewrite Hp; [done|..]; rewrite Ht, Hn.
  - by destruct fuel; simpl; rewrite app_nil_r.
  - rewrite IH by (unfold requests; lia). unfold listed. destruct e; [done|]. simpl. by rewrite <-app_assoc.
Qed.
Lemma followed_served url w fuel addresses res w' :
  follow_pages list_page take fuel (Some url) addresses w = (Some res, w') →
  ∃ pages e, served url w pages e w' ∧ requests pages e ≤ fuel ∧ res = listed addresses pages e.
Proof.
  revert url w addresses. induction fuel as [|fuel IH]; intros url w addresses; simpl; [done|].
  destruct (list_page url w) as [[page|e] w1] eqn:Hp.
  - destruct (take (value page) w1) as [found w2] eqn:Ht. destruct (next_link page) as [url'|] eqn:Hn.
    + intros (pages & e & Hs & Hf & ->)%IH. exists (found :: pages), e.
      split_and!; [by eapply served_more|unfold requests in *; simpl; lia|].
      unfold listed. destruct e; [done|]. simpl. by rewrite <-app_assoc.
    + intros Hr. exists [found], None. destruct fuel; simplify_eq/=; (split_and!;
        [by eapply served_last|unfold requests; simpl; lia|by rewrite app_nil_r]).
  - intros [= <- <-]. exists [], (Some e). split_and!; [by constructor|unfold requests; simpl; lia|done].
Qed.
End served.

(** ** The properties *)
Module Spec.
Section spec.
Context {W B J : Type} `{JsonValue J} `{HttpWorld W B J}.

(** C30. A listing is followed to its end. Once the configuration and the token
    are there, a discovery gives, in order, the addresses of every page the
    server serves, however many there are, or the error of the first request
    that fails, and no addresses; it comes to an end exactly when the server
    does. A configuration that cannot be completed is an error before any
    request is made. *)
Theorem discovers_every_page :
  (∀ c sub rg vmss token (w w1 w2 w' : W) fuel res,
     resolve_vmss_info c w = (Ok (sub, rg, vmss), w1) →
     acquire_managed_identity_token w1 = (Ok token, w2) →
     discover_instances fuel c w = (Some res, w') ↔
     ∃ pages e,
       served (λ url, arm_get "list NICs failed" "NIC list" url token parse_nics)
         (nic_addresses (vmss_port c)) (vmss_url sub rg vmss) w2 pages e w'
       ∧ requests pages e ≤ fuel ∧ res = listed [] pages e) ∧
  (∀ c sub token (w w1 w2 w' : W) fuel res,
     az_tag_key c ≠ "" → resolve_subscription c w = (Ok sub, w1) →
     acquire_managed_identity_token w1 = (Ok token, w2) →
     discover_by_tag fuel c w = (Some res, w') ↔
     ∃ pages e,
       served (λ url, arm_get "list VMs failed" "VM list" url token parse_vms)
         (vm_addresses c token) (tag_url sub (az_resource_group c)) w2 pages e w'
       ∧ requests pages e ≤ fuel ∧ res = listed [] pages e) ∧
  (∀ c (w : W) fuel, use_imds c = false →
     vmss_subscription_id c = None ∨ vmss_resource_group c = None ∨ vmss_name c = None →
     discover_instances fuel c w = (Some (Err (AzureConfig vmss_missing)), w)).
Proof.
  split_and!.
  - intros c sub rg vmss token w w1 w2 w' fuel res Hr Ht. unfold discover_instances. rewrite Hr, Ht.
    split; [apply followed_served|]. intros (pages & e & Hs & Hf & ->). by apply served_followed.
  - intros c sub token w w1 w2 w' fuel res Hk Hr Ht. unfold discover_by_tag.
    rewrite decide_False by done. rewrite Hr, Ht.
    split; [apply followed_served|]. intros (pages & e & Hs & Hf & ->). by apply served_followed.
  - intros c w fuel Hu Hm. unfold discover_instances, resolve_vmss_info. rewrite Hu.
    destruct (vmss_subscription_id c), (vmss_resource_group c), (vmss_name c);
      try done; by destruct Hm as [|[]].
Qed.
End spec.

(** A server with two pages; the body of a response is the url. *)
#[local] Instance demo_json : JsonValue () :=
  {| json_tag _ _ := None; json_pointer _ _ := None; json_as_str _ := None |}.
#[local] Instance demo_http : HttpWorld nat string () := {|
  http_get request w := (Ok (mkHttpResponse true "200 OK" (Ok "") (url request)), S w);
  parse_imds _ := Err "no";
  parse_token _ := Ok "token";
  parse_nics body :=
    Ok (if decide (body = "page2")
        then mkArmListResponse [mkArmNetworkInterface [None; Some "10.0.0.3"]] None
        else mkArmListResponse
               [mkArmNetworkInterface [Some "10.0.0.1"]; mkArmNetworkInterface [Some "10.0.0.2"]]
               (Some "page2"));
  parse_vms _ := Err "no";
  parse_nic _ := Err "no"
|}.
Definition demo_config : VmssDiscoveryConfig :=
  set_vmss_subscription_id "s" (set_vmss_resource_group "g" (set_vmss_name "v" VmssDiscoveryConfig_default)).
Lemma discovers_every_page_witness :
  discover_instances 2 demo_config 0
  = (Some (Ok ["10.0.0.1:9000"; "10.0.0.2:9000"; "10.0.0.3:9000"]), 3).
Proof.
  destruct discovers_every_page as [Hall _].
  eapply (proj2 (Hall demo_config "s" "g" "v" "token" 0 0 1 3 2 _ eq_refl eq_refl)).
  exists [["10.0.0.1:9000"; "10.0.0.2:9000"]; ["10.0.0.3:9000"]], None. split_and!; [|apply le_n|reflexivity].
  eapply served_more; [reflexivity|vm_compute; reflexivity|reflexivity|].
  eapply served_last; [reflexivity|vm_compute; reflexivity|reflexivity].
Defined.
End Spec.
