(* ===== verification/CloudDiscovery.v ===== *)
(** * AWS and Kubernetes discovery (dactor-discover-aws/src/lib.rs,
    dactor-discover-k8s/src/lib.rs)

    Instances of an Auto Scaling group or with a tag, running pods, and the
    addresses of a headless service. What the SDKs return is data of the
    libraries, by the parts the code reads; the calls are the environment. *)
From S2P Require Import Prelude Cluster.
From Stdlib Require Import Ascii.

#[local] Open Scope string_scope.
#[local] Open Scope list_scope.
#[local] Open Scope nat_scope.

(** ** AWS *)
Inductive AwsDiscoveryError :=
  | AutoScaling (e : string) | Ec2 (e : string) | NoInstances | AwsConfig (e : string).
Definition AwsDiscoveryError_display (e : AwsDiscoveryError) : string :=
  match e with
  | AutoScaling e => "Auto Scaling API error: " +:+ e
  | Ec2 e => "EC2 API error: " +:+ e
  | NoInstances => "no instances found"
  | AwsConfig e => "configuration error: " +:+ e
  end.

Record AsgDiscoveryConfig := mkAsgConfig {
  asg_name : string; asg_port : N; asg_region : option string; asg_use_public_ip : bool
}.
Definition AsgDiscoveryConfig_default : AsgDiscoveryConfig := mkAsgConfig "" 9000 None false.
Definition set_asg_name (x : string) (c : AsgDiscoveryConfig) : AsgDiscoveryConfig :=
  mkAsgConfig x (asg_port c) (asg_region c) (asg_use_public_ip c).
Definition set_asg_port (x : N) (c : AsgDiscoveryConfig) : AsgDiscoveryConfig :=
  mkAsgConfig (asg_name c) x (asg_region c) (asg_use_public_ip c).
Definition set_asg_region (x : string) (c : AsgDiscoveryConfig) : AsgDiscoveryConfig :=
  mkAsgConfig (asg_name c) (asg_port c) (Some x) (asg_use_public_ip c).
Definition set_asg_use_public_ip (x : bool) (c : AsgDiscoveryConfig) : AsgDiscoveryConfig :=
  mkAsgConfig (asg_name c) (asg_port c) (asg_region c) x.

Record Ec2TagConfig := mkEc2TagConfig {
  ec2_tag_key : string; ec2_tag_value : string; ec2_port : N; ec2_region : option string;
  ec2_use_public_ip : bool
}.
Definition Ec2TagConfig_default : Ec2TagConfig := mkEc2TagConfig "" "" 9000 None false.
Definition set_ec2_tag_key (x : string) (c : Ec2TagConfig) : Ec2TagConfig :=
  mkEc2TagConfig x (ec2_tag_value c) (ec2_port c) (ec2_region c) (ec2_use_public_ip c).
Definition set_ec2_tag_value (x : string) (c : Ec2TagConfig) : Ec2TagConfig :=
  mkEc2TagConfig (ec2_tag_key c) x (ec2_port c) (ec2_region c) (ec2_use_public_ip c).
Definition set_ec2_port (x : N) (c : Ec2TagConfig) : Ec2TagConfig :=
  mkEc2TagConfig (ec2_tag_key c) (ec2_tag_value c) x (ec2_region c) (ec2_use_public_ip c).
Definition set_ec2_region (x : string) (c : Ec2TagConfig) : Ec2TagConfig :=
  mkEc2TagConfig (ec2_tag_key c) (ec2_tag_value c) (ec2_port c) (Some x) (ec2_use_public_ip c).
Definition set_ec2_use_public_ip (x : bool) (c : Ec2TagConfig) : Ec2TagConfig :=
  mkEc2TagConfig (ec2_tag_key c) (ec2_tag_value c) (ec2_port c) (ec2_region c) x.

Record AsgInstance := mkAsgInstance {
  lifecycle_state : option string; health_status : option string; instance_id : option string
}.
Record Ec2Instance := mkEc2Instance {
  private_ip_address : option string; public_ip_address : option string
}.
(** The calls, in the region asked for or the default one: the groups of a
    name, and the reservations of ids or filters. *)
Class AwsWorld (W : Type) := {
  describe_auto_scaling_groups : option string → string → W → result string (list (list AsgInstance)) * W;
  describe_instances_by_id : option string → list string → W → result string (list (list Ec2Instance)) * W;
  describe_instances_by_filters :
    option string → list (string * string) → W → result string (list (list Ec2Instance)) * W
}.

Section aws.
Context {W : Type} `{AwsWorld W}.

Definition in_service (i : AsgInstance) : bool :=
  match lifecycle_state i with Some s => bool_decide (s = "InService") | None => false end
  && match health_status i with Some h => bool_decide (h = "Healthy") | None => false end.
(** The two [for]s over reservations and instances. *)
Definition instance_addresses (use_public_ip : bool) (port : N)
    (reservations : list (list Ec2Instance)) : list string :=
  reservations ≫= λ instances,
    omap (λ i, host_port port <$>
            (if use_public_ip then public_ip_address i else private_ip_address i)) instances.

Definition Asg_discover_async (c : AsgDiscoveryConfig) (w : W) :
    result AwsDiscoveryError (list string) * W :=
  if decide (asg_name c = "") then (Err (AwsConfig "asg_name must not be empty"), w)
  else
    match describe_auto_scaling_groups (asg_region c) (asg_name c) w with
    | (Err e, w) => (Err (AutoScaling e), w)
    | (Ok [], w) => (Err NoInstances, w)
    | (Ok (asg :: _), w) =>
        match omap instance_id (retain in_service asg) with
        | [] => (Err NoInstances, w)
        | instance_ids =>
            match describe_instances_by_id (asg_region c) instance_ids w with
            | (Err e, w) => (Err (Ec2 e), w)
            | (Ok reservations, w) =>
                (Ok (instance_addresses (asg_use_public_ip c) (asg_port c) reservations), w)
            end
        end
    end.
Definition Ec2_discover_async (c : Ec2TagConfig) (w : W) : result AwsDiscoveryError (list string) * W :=
  if decide (ec2_tag_key c = "") then (Err (AwsConfig "tag_key must not be empty"), w)
  else
    match describe_instances_by_filters (ec2_region c)
            [("tag:" +:+ ec2_tag_key c, ec2_tag_value c); ("instance-state-name", "running")] w with
    | (Err e, w) => (Err (Ec2 e), w)
    | (Ok reservations, w) =>
        match instance_addresses (ec2_use_public_ip c) (ec2_port c) reservations with
        | [] => (Err NoInstances, w)
        | addresses => (Ok addresses, w)
        end
    end.
Definition Asg_discover (c : AsgDiscoveryConfig) (w : W) :
    result DiscoveryError (list DiscoveredPeer) * W :=
  let '(r, w) := Asg_discover_async c w in (discovered AwsDiscoveryError_display r, w).
Definition Ec2_discover (c : Ec2TagConfig) (w : W) : result DiscoveryError (list DiscoveredPeer) * W :=
  let '(r, w) := Ec2_discover_async c w in (discovered AwsDiscoveryError_display r, w).
#[export] Instance Asg_discovery : ClusterDiscovery AsgDiscoveryConfig W := {| discover := Asg_discover |}.
#[export] Instance Ec2_discovery : ClusterDiscovery Ec2TagConfig W := {| discover := Ec2_discover |}.
End aws.

(** [env] is the process environment. *)
Definition current_region (env : string → option string) : option string :=
  match env "AWS_REGION" with Some r => Some r | None => env "AWS_DEFAULT_REGION" end.

(** ** Kubernetes *)
Inductive K8sDiscoveryError := KubeError (e : string) | NoPodIp (name : string) | K8sIo (e : string).
Definition K8sDiscoveryError_display (e : K8sDiscoveryError) : string :=
  match e with
  | KubeError e => "Kubernetes API error: " +:+ e
  | NoPodIp name => "Pod '" +:+ name +:+ "' has no IP assigned"
  | K8sIo e => "I/O error: " +:+ e
  end.

Record K8sDiscoveryConfig := mkK8sConfig {
  namespace : string; label_selector : string; k8s_port : N; port_name : option string
}.
(** [current] is [current_namespace()]. *)
Definition K8sDiscoveryConfig_default (current : option string) : K8sDiscoveryConfig :=
  mkK8sConfig (default "default" current) "" 9000 None.
Definition set_namespace (x : string) (c : K8sDiscoveryConfig) : K8sDiscoveryConfig :=
  mkK8sConfig x (label_selector c) (k8s_port c) (port_name c).
Definition set_label_selector (x : string) (c : K8sDiscoveryConfig) : K8sDiscoveryConfig :=
  mkK8sConfig (namespace c) x (k8s_port c) (port_name c).
Definition set_k8s_port (x : N) (c : K8sDiscoveryConfig) : K8sDiscoveryConfig :=
  mkK8sConfig (namespace c) (label_selector c) x (port_name c).
Definition set_port_name (x : string) (c : K8sDiscoveryConfig) : K8sDiscoveryConfig :=
  mkK8sConfig (namespace c) (label_selector c) (k8s_port c) (Some x).

Record ContainerPort := mkContainerPort { cp_name : option string; container_port : Z }.
Record PodStatus := mkPodStatus { phase : option string; pod_ip : option string }.
Record Pod := mkPod {
  pod_containers : option (list (option (list ContainerPort)));   (* spec, containers, ports *)
  pod_status : option PodStatus
}.
Class KubeWorld (W : Type) := {
  (* the client and the listing, with their error *)
  list_pods : string → string → W → result string (list Pod) * W;
  (* the blocking lookup: the task's error, the resolver's, the addresses *)
  to_socket_addrs : string → W → result string (result string (list string)) * W
}.

(** The first port of the name decides; a number that is no [u16] gives none. *)
Definition u16_try_from (z : Z) : option N :=
  if bool_decide (0 <= z < 2 ^ 16)%Z then Some (Z.to_N z) else None.
Fixpoint port_in (name : string) (ports : list ContainerPort) : option (option N) :=
  match ports with
  | [] => None
  | p :: ports =>
      if decide (cp_name p = Some name) then Some (u16_try_from (container_port p))
      else port_in name ports
  end.
Fixpoint port_in_containers (name : string) (containers : list (option (list ContainerPort))) : option N :=
  match containers with
  | [] => None
  | ports :: containers =>
      match ports ≫= port_in name with
      | Some r => r
      | None => port_in_containers name containers
      end
  end.
Definition resolve_port (c : K8sDiscoveryConfig) (pod : Pod) : option N :=
  name ← port_name c; containers ← pod_containers pod; port_in_containers name containers.

Section k8s.
Context {W : Type} `{KubeWorld W}.

(** The body of the [for] over the pods. *)
Definition pod_address (c : K8sDiscoveryConfig) (pod : Pod) : option string :=
  if decide ((pod_status pod ≫= phase) = Some "Running") then
    ip ← pod_status pod ≫= pod_ip;
    Some (host_port (default (k8s_port c) (resolve_port c pod)) ip)
  else None.
Definition K8s_discover_async (c : K8sDiscoveryConfig) (w : W) :
    result K8sDiscoveryError (list string) * W :=
  match list_pods (namespace c) (label_selector c) w with
  | (Err e, w) => (Err (KubeError e), w)
  | (Ok items, w) => (Ok (omap (pod_address c) items), w)
  end.
Definition K8s_discover (c : K8sDiscoveryConfig) (w : W) :
    result DiscoveryError (list DiscoveredPeer) * W :=
  let '(r, w) := K8s_discover_async c w in (discovered K8sDiscoveryError_display r, w).
#[export] Instance K8s_discovery : ClusterDiscovery K8sDiscoveryConfig W := {| discover := K8s_discover |}.

Record HeadlessServiceDiscovery := mkHeadless {
  service_name : string; hs_namespace : string; hs_port : N; cluster_domain : string
}.
Definition Headless_new (service ns : string) (port : N) : HeadlessServiceDiscovery :=
  mkHeadless service ns port "cluster.local".
Definition with_cluster_domain (domain : string) (s : HeadlessServiceDiscovery) : HeadlessServiceDiscovery :=
  mkHeadless (service_name s) (hs_namespace s) (hs_port s) domain.
Definition dns_name (s : HeadlessServiceDiscovery) : string :=
  service_name s +:+ "." +:+ hs_namespace s +:+ ".svc." +:+ cluster_domain s.
Definition Headless_discover (s : HeadlessServiceDiscovery) (w : W) :
    result DiscoveryError (list DiscoveredPeer) * W :=
  match to_socket_addrs (dns_name s +:+ ":" +:+ pretty (hs_port s)) w with
  | (Err e, w) => (Err (mkDiscoveryError ("DNS lookup task failed: " +:+ e)), w)
  | (Ok (Err e), w) =>
      (Err (mkDiscoveryError ("DNS resolution failed for " +:+ dns_name s +:+ ": " +:+ e)), w)
  | (Ok (Ok addrs), w) => (Ok (from_address <$> addrs), w)
  end.
#[export] Instance Headless_discovery : ClusterDiscovery HeadlessServiceDiscovery W :=
  {| discover := Headless_discover |}.
End k8s.

(** [read_to_string] of the service account's file, trimmed. *)
Definition current_namespace (trim : string → string) (file : option string) : option string :=
  trim <$> file.
Definition current_pod_ip (env : string → option string) : option string :=
  match env "DACTOR_POD_IP" with Some ip => Some ip | None => env "POD_IP" end.

(** ** Lemmas *)
Fixpoint first_named (name : string) (ports : list ContainerPort) : option ContainerPort :=
  match ports with
  | [] => None
  | p :: ports => if decide (cp_name p = Some name) then Some p else first_named name ports
  end.
Lemma port_in_first name ports :
  port_in name ports = (λ p, u16_try_from (container_port p)) <$> first_named name ports.
Proof. induction ports as [|p ports IH]; simpl; [done|]. by case_decide. Qed.
Lemma first_named_app name ports ports' :
  first_named name (ports ++ ports')
  = match first_named name ports with Some p => Some p | None => first_named name ports' end.
Proof. induction ports as [|p ports IH]; simpl; [done|]. by case_decide. Qed.
Lemma port_in_containers_first name containers :
  port_in_containers name containers
  = first_named name (concat (default [] <$> containers)) ≫= λ p, u16_try_from (container_port p).
Proof.
  induction containers as [|[ports|] containers IH]; cbn [port_in_containers fmap list_fmap concat mbind option_bind];
    [done| |exact IH].
  rewrite port_in_first, first_named_app. cbn. by destruct (first_named name ports).
Qed.
Lemma elem_of_instance_addresses use_public port rs a :
  a ∈ instance_addresses use_public port rs ↔
  ∃ i, i ∈ concat rs
    ∧ host_port port <$> (if use_public then public_ip_address i else private_ip_address i) = Some a.
Proof.
  unfold instance_addresses. rewrite list_elem_of_bind. setoid_rewrite list_elem_of_omap.
  setoid_rewrite elem_of_concat. naive_solver.
Qed.

(** ** The properties *)
Module Spec.

(** What a discovery that succeeds found. Auto Scaling: EC2 was asked about
    exactly the in-service and healthy instances of the first group of the name,
    of which there is at least one, and the addresses are those of the instances
    it described. Tags: the same for the running instances with the tag, and
    there is at least one address. Kubernetes: one address for each running pod
    with an IP, in order, with the number of the first port of the configured
    name in any container if it fits a port, and the configured port otherwise. *)
Theorem discovery_finds {W W'} `{AwsWorld W} `{KubeWorld W'} :
  (∀ c (w w' : W) addrs, Asg_discover_async c w = (Ok addrs, w') →
     ∃ asg rest ids rs w1,
       describe_auto_scaling_groups (asg_region c) (asg_name c) w = (Ok (asg :: rest), w1)
       ∧ ids ≠ []
       ∧ (∀ id, id ∈ ids ↔ ∃ i, i ∈ asg ∧ lifecycle_state i = Some "InService"
            ∧ health_status i = Some "Healthy" ∧ instance_id i = Some id)
       ∧ describe_instances_by_id (asg_region c) ids w1 = (Ok rs, w')
       ∧ ∀ a, a ∈ addrs ↔ ∃ i, i ∈ concat rs
           ∧ host_port (asg_port c) <$>
               (if asg_use_public_ip c then public_ip_address i else private_ip_address i) = Some a) ∧
  (∀ c (w w' : W) addrs, Ec2_discover_async c w = (Ok addrs, w') →
     addrs ≠ [] ∧ ∃ rs,
       describe_instances_by_filters (ec2_region c)
         [("tag:" +:+ ec2_tag_key c, ec2_tag_value c); ("instance-state-name", "running")] w = (Ok rs, w')
       ∧ ∀ a, a ∈ addrs ↔ ∃ i, i ∈ concat rs
           ∧ host_port (ec2_port c) <$>
               (if ec2_use_public_ip c then public_ip_address i else private_ip_address i) = Some a) ∧
  (∀ c (w w' : W') addrs, K8s_discover_async c w = (Ok addrs, w') →
     ∃ pods, list_pods (namespace c) (label_selector c) w = (Ok pods, w') ∧
     addrs = omap (λ pod,
       status ← pod_status pod; ip ← pod_ip status;
       let named := (name ← port_name c; containers ← pod_containers pod;
                     p ← first_named name (concat (default [] <$> containers));
                     u16_try_from (container_port p)) in
       if decide (phase status = Some "Running") then Some (host_port (default (k8s_port c) named) ip)
       else None) pods).
Proof.
  split_and!.
  - intros c w w' addrs. unfold Asg_discover_async. case_decide; [done|].
    destruct (describe_auto_scaling_groups _ _ _) as [[[|asg rest]|e] w1]; [done| |done].
    destruct (omap instance_id (retain in_service asg)) as [|id0 ids0] eqn:Hids; [done|].
    destruct (describe_instances_by_id _ _ _) as [[rs|e] w2] eqn:Hd; [|done]. intros [= <- <-].
    exists asg, rest, (id0 :: ids0), rs, w1. split_and!; [done..| |done|].
    + intros id. rewrite <-Hids, list_elem_of_omap. setoid_rewrite elem_of_retain.
      unfold in_service. split.
      * intros (i & [Hi Hs] & Hid). exists i. apply andb_true_iff in Hs as [Hl Hh].
        destruct (lifecycle_state i), (health_status i); try done.
        apply bool_decide_eq_true_1 in Hl, Hh. by subst.
      * intros (i & Hi & Hl & Hh & Hid). exists i. by rewrite Hl, Hh.
    + intros a. apply elem_of_instance_addresses.
  - intros c w w' addrs. unfold Ec2_discover_async. case_decide; [done|].
    destruct (describe_instances_by_filters _ _ _) as [[rs|e] w1]; [|done].
    destruct (instance_addresses _ _ rs) as [|a0 as0] eqn:Ha; [done|]. intros [= <- <-].
    split; [done|]. exists rs. split; [done|]. intros a. rewrite <-Ha. apply elem_of_instance_addresses.
  - intros c w w' addrs. unfold K8s_discover_async.
    destruct (list_pods _ _ _) as [[pods|e] w1]; [|done]. intros [= <- <-]. exists pods. split; [done|].
    apply list_omap_ext, Forall_Forall2_diag, Forall_forall. intros pod _. unfold pod_address.
    destruct (pod_status pod) as [status|]; cbn; [|done]. unfold resolve_port.
    destruct (pod_ip status) as [ip|]; cbn; [|by case_decide]. case_decide; [|done].
    do 3 f_equal. destruct (port_name c) as [nm|]; [cbn|done].
    destruct (pod_containers pod) as [cs|]; [cbn|done]. apply port_in_containers_first.
Qed.

(** One group, one healthy instance of two; two pods, one of which runs. *)
#[local] Instance demo_aws : AwsWorld () := {|
  describe_auto_scaling_groups _ _ w :=
    (Ok [[mkAsgInstance (Some "InService") (Some "Healthy") (Some "i-1");
          mkAsgInstance (Some "InService") (Some "Unhealthy") (Some "i-2")]], w);
  describe_instances_by_id _ ids w :=
    (Ok [(λ id, mkEc2Instance (Some ("10.0.0." +:+ id)) None) <$> ids], w);
  describe_instances_by_filters _ _ w := (Ok [[mkEc2Instance (Some "10.0.0.9") None]], w)
|}.
Definition demo_pod (state : string) (port : Z) : Pod :=
  mkPod (Some [None; Some [mkContainerPort (Some "grpc") port]]) (Some (mkPodStatus (Some state) (Some "10.1.0.1"))).
#[local] Instance demo_kube : KubeWorld () := {|
  list_pods _ _ w := (Ok [demo_pod "Running" 70000; demo_pod "Pending" 8080; demo_pod "Running" 8080], w);
  to_socket_addrs _ w := (Err "none", w)
|}.
Lemma discovery_finds_witness :
  (∃ asg rest ids rs w1,
     describe_auto_scaling_groups None "g" () = (Ok (asg :: rest), w1) ∧ ids ≠ []
     ∧ (∀ id, id ∈ ids ↔ ∃ i, i ∈ asg ∧ lifecycle_state i = Some "InService"
          ∧ health_status i = Some "Healthy" ∧ instance_id i = Some id)
     ∧ describe_instances_by_id None ids w1 = (Ok rs, ()) ∧ "10.0.0.i-1:9000" ∈ ["10.0.0.i-1:9000"])
  ∧ K8s_discover_async (set_port_name "grpc" (K8sDiscoveryConfig_default None)) ()
    = (Ok ["10.1.0.1:9000"; "10.1.0.1:8080"], ()).
Proof.
  destruct (discovery_finds (W := ()) (W' := ())) as (Hasg & _ & _).
  split; [|vm_compute; reflexivity].
  destruct (Hasg (set_asg_name "g" AsgDiscoveryConfig_default) () () ["10.0.0.i-1:9000"]
    ltac:(vm_compute; reflexivity)) as (asg & rest & ids & rs & w1 & H1 & H2 & H3 & H4 & _).
  exists asg, rest, ids, rs, w1. split_and!; [exact H1|exact H2|exact H3|exact H4|by left].
Defined.
End Spec.
