(* ===== verification/Mock.v ===== *)
(** * The mock cluster (dactor-mock/src: network.rs, node.rs, cluster.rs)

    Simulated nodes, each with a reference runtime and its system actors, and
    the network between them. Looking up a node that is not there is a panic:
    [None]. *)
From Stdlib Require Import String.
From stdpp Require Import sorting.
From S2P Require Import Prelude Node Version TypeRegistry SystemActors Lifecycle Cluster NativeActors TestRuntime.

#[local] Open Scope string_scope.
#[local] Open Scope list_scope.
#[local] Open Scope nat_scope.

(** ** MockNetwork *)
Record MockNetwork := mkMockNetwork {
  partitions : list (NodeId * NodeId); delivered : N; dropped : N
}.
Definition MockNetwork_new : MockNetwork := mkMockNetwork [] 0 0.
Definition same_link (a b : NodeId) (p : NodeId * NodeId) : bool :=
  bool_decide (p = (a, b)) || bool_decide (p = (b, a)).
Definition partition (a b : NodeId) (n : MockNetwork) : MockNetwork :=
  mkMockNetwork (partitions n ++ [(a, b)]) (delivered n) (dropped n).
Definition remove_partition (a b : NodeId) (n : MockNetwork) : MockNetwork :=
  mkMockNetwork (retain (λ p, negb (same_link a b p)) (partitions n)) (delivered n) (dropped n).
Definition is_partitioned (a b : NodeId) (n : MockNetwork) : bool :=
  existsb (same_link a b) (partitions n).
Definition can_deliver (src dst : NodeId) (n : MockNetwork) : bool :=
  if decide (src = dst) then true else negb (is_partitioned src dst n).
(** [+= 1] on a [u64]: [None] is the overflow. *)
Definition record_delivered (p : profile) (n : MockNetwork) : option MockNetwork :=
  d ← add64 p (delivered n) 1; Some (mkMockNetwork (partitions n) d (dropped n)).
Definition record_dropped (p : profile) (n : MockNetwork) : option MockNetwork :=
  d ← add64 p (dropped n) 1; Some (mkMockNetwork (partitions n) (delivered n) d).

Section mock.
Context {U W M T R Rf : Type}.

(** ** MockNode *)
Record MockNode := mkMockNode {
  mn_node_id : NodeId;
  mn_runtime : TestRuntime W M T R Rf;
  mn_spawn_manager : SpawnManager U;
  mn_watch_manager : WatchManager;
  mn_cancel_manager : CancelManager;
  mn_node_directory : NodeDirectory
}.
Definition MockNode_new (node_id : NodeId) : MockNode :=
  mkMockNode node_id (TestRuntime_with_node_id node_id) (SpawnManager_new TypeRegistry_new)
    WatchManager_new CancelManager_new NodeDirectory_new.
Definition set_mn_runtime x (n : MockNode) : MockNode :=
  mkMockNode (mn_node_id n) x (mn_spawn_manager n) (mn_watch_manager n) (mn_cancel_manager n)
    (mn_node_directory n).
Definition set_mn_watch_manager x (n : MockNode) : MockNode :=
  mkMockNode (mn_node_id n) (mn_runtime n) (mn_spawn_manager n) x (mn_cancel_manager n)
    (mn_node_directory n).
Definition set_mn_cancel_manager x (n : MockNode) : MockNode :=
  mkMockNode (mn_node_id n) (mn_runtime n) (mn_spawn_manager n) (mn_watch_manager n) x
    (mn_node_directory n).
Definition set_mn_node_directory x (n : MockNode) : MockNode :=
  mkMockNode (mn_node_id n) (mn_runtime n) (mn_spawn_manager n) (mn_watch_manager n)
    (mn_cancel_manager n) x.
Definition MockNode_register_factory (type_name : string) (factory : FactoryFn (U := U))
    (n : MockNode) : MockNode :=
  let m := mn_spawn_manager n in
  mkMockNode (mn_node_id n) (mn_runtime n)
    (mkSpawnManager (register_factory type_name factory (sm_registry m)) (spawned m))
    (mn_watch_manager n) (mn_cancel_manager n) (mn_node_directory n).
Definition MockNode_connect_peer (peer : NodeId) (n : MockNode) : MockNode :=
  set_mn_node_directory (set_status peer Connected (add_peer peer None (mn_node_directory n))) n.
Definition MockNode_disconnect_peer (peer : NodeId) (n : MockNode) : MockNode :=
  set_mn_node_directory (set_status peer Disconnected (mn_node_directory n)) n.

(** ** MockCluster *)
Record MockCluster := mkMockCluster { mc_nodes : gmap NodeId MockNode; mc_network : MockNetwork }.
Definition set_mc_nodes x (c : MockCluster) : MockCluster := mkMockCluster x (mc_network c).

Definition meet (ids : list NodeId) (id : NodeId) : MockNode :=
  foldl (λ n peer, if decide (peer = id) then n else MockNode_connect_peer peer n) (MockNode_new id) ids.
Definition MockCluster_new (node_ids : list string) : MockCluster :=
  let ids := mkNodeId <$> node_ids in
  mkMockCluster (foldl (λ nodes id, <[id := meet ids id]> nodes) ∅ ids) MockNetwork_new.
Definition mc_node (id : string) (c : MockCluster) : option MockNode := mc_nodes c !! mkNodeId id.
(** [node_mut] and a change through it. *)
Definition node_mut {X} (id : string) (f : MockNode → X * MockNode) (c : MockCluster) :
    option (X * MockCluster) :=
  n ← mc_nodes c !! mkNodeId id;
  let '(x, n) := f n in Some (x, set_mc_nodes (<[mkNodeId id := n]> (mc_nodes c)) c).
Definition mc_node_count (c : MockCluster) : nat := size (mc_nodes c).
Definition mc_node_ids (c : MockCluster) : list NodeId := (map_to_list (mc_nodes c)).*1.

Definition crash_node (id : string) (c : MockCluster) : MockCluster :=
  let crashed := mkNodeId id in
  set_mc_nodes (MockNode_disconnect_peer crashed <$> delete crashed (mc_nodes c)) c.
Definition restart_node (id : string) (c : MockCluster) : MockCluster :=
  let node_id := mkNodeId id in
  let new_node := foldl (λ n peer, MockNode_connect_peer peer n) (MockNode_new node_id) (mc_node_ids c) in
  set_mc_nodes (<[node_id := new_node]> (MockNode_connect_peer node_id <$> mc_nodes c)) c.
Definition freeze_node (id : string) (c : MockCluster) : option MockNode * MockCluster :=
  (mc_nodes c !! mkNodeId id, set_mc_nodes (delete (mkNodeId id) (mc_nodes c)) c).
Definition unfreeze_node (n : MockNode) (c : MockCluster) : MockCluster :=
  set_mc_nodes (<[mn_node_id n := n]> (mc_nodes c)) c.

(** The rest goes to one node. *)
Definition mc_watch (watcher_node : string) (watcher : ActorId) (notify : Rf) (target : ActorId) :
    MockCluster → option (() * MockCluster) :=
  node_mut watcher_node (λ n,
    ((), set_mn_runtime (TestRuntime_watch watcher notify target (mn_runtime n)) n)).
Definition mc_unwatch (node_id : string) (watcher target : ActorId) :
    MockCluster → option (() * MockCluster) :=
  node_mut node_id (λ n, ((), set_mn_runtime (TestRuntime_unwatch watcher target (mn_runtime n)) n)).
Definition mc_remote_watch (target_node : string) (target watcher : ActorId) :
    MockCluster → option (() * MockCluster) :=
  node_mut target_node (λ n, ((), set_mn_watch_manager (watch target watcher (mn_watch_manager n)) n)).
Definition mc_remote_unwatch (target_node : string) (target watcher : ActorId) :
    MockCluster → option (() * MockCluster) :=
  node_mut target_node (λ n, ((), set_mn_watch_manager (unwatch target watcher (mn_watch_manager n)) n)).
Definition mc_notify_terminated (node_id : string) (terminated : ActorId) :
    MockCluster → option (list WatchNotification * MockCluster) :=
  node_mut node_id (λ n,
    let '(out, m) := on_terminated terminated (mn_watch_manager n) in (out, set_mn_watch_manager m n)).
Definition mc_register_cancel (node_id request_id : string) (token : N) :
    MockCluster → option (() * MockCluster) :=
  node_mut node_id (λ n,
    ((), set_mn_cancel_manager (cancel_register request_id token (mn_cancel_manager n)) n)).
Definition mc_cancel_request (node_id request_id : string) :
    MockCluster → option ((CancelResponse * option N) * MockCluster) :=
  node_mut node_id (λ n,
    let '(r, m) := cancel request_id (mn_cancel_manager n) in (r, set_mn_cancel_manager m n)).

(** ** The state of the cluster
    The outer [option] is the function's, the inner one the panics of the
    version parser. *)
Definition mock_peer : option PeerVersionInfo :=
  match from_str DACTOR_WIRE_VERSION with
  | Ok v => Some (mkPeerVersionInfo v None "mock")
  | Err _ => None
  end.
Definition mc_state_for (local_node : string) (c : MockCluster) : option (option ClusterState) :=
  let local := mkNodeId local_node in
  match mc_nodes c !! local with
  | None => None
  | Some _ =>
      Some (state ← ClusterState_new local (mc_node_ids c);
            foldl (λ s node_id,
                s ← s;
                if decide (node_id = local) then Some s
                else info ← mock_peer;
                     Some (mkClusterState (Cluster.local_node s) (nodes s) (is_leader s)
                             (cs_wire_version s) (cs_app_version s)
                             (<[node_id := info]> (peer_versions s))))
              (Some state) (nodes state))
  end.
(** From the node with the smallest id. *)
Definition id_le (a b : NodeId) : Prop := String.leb (node_str a) (node_str b) = true.
#[export] Instance id_le_dec : RelDecision id_le.
Proof. intros a b. unfold id_le. apply _. Defined.
Definition mc_state (c : MockCluster) : option (option ClusterState) :=
  match merge_sort id_le (mc_node_ids c) with
  | [] => None
  | first :: _ => mc_state_for (node_str first) c
  end.
End mock.
Arguments MockNode : clear implicits.
Arguments MockCluster : clear implicits.

(** ** Lemmas *)
Section lemmas.
Context {U W M T R Rf : Type}.
Abbreviation Nd := (MockNode U W M T R Rf).
Abbreviation Cl := (MockCluster U W M T R Rf).
Implicit Types (n : Nd) (c : Cl).

Lemma connect_connected peer n b :
  is_connected b (mn_node_directory (MockNode_connect_peer peer n))
  = bool_decide (b = peer) || is_connected b (mn_node_directory n).
Proof.
  unfold MockNode_connect_peer, is_connected, set_status, add_peer. simpl.
  rewrite lookup_insert_eq. simpl. destruct (decide (b = peer)) as [->|Hne].
  - by rewrite lookup_insert_eq, bool_decide_eq_true_2.
  - by rewrite !lookup_insert_ne, bool_decide_eq_false_2 by done.
Qed.
Lemma disconnect_connected peer n b :
  is_connected b (mn_node_directory (MockNode_disconnect_peer peer n))
  = negb (bool_decide (b = peer)) && is_connected b (mn_node_directory n).
Proof. apply disconnected_after. Qed.
Lemma connect_all_connected (skip : NodeId → Prop) `{∀ p, Decision (skip p)} ids n b :
  is_connected b (mn_node_directory
    (foldl (λ n peer, if decide (skip peer) then n else MockNode_connect_peer peer n) n ids))
  = bool_decide (b ∈ ids ∧ ¬ skip b) || is_connected b (mn_node_directory n).
Proof.
  revert n. induction ids as [|peer ids IH]; intros n; cbn [foldl].
  { rewrite bool_decide_eq_false_2; [done|]. intros [?%elem_of_nil _]. done. }
  rewrite IH. destruct (decide (skip peer)) as [Hs|Hs].
  - f_equal. apply bool_decide_ext. rewrite elem_of_cons. naive_solver.
  - rewrite connect_connected, orb_assoc. f_equal.
    rewrite <-bool_decide_or. apply bool_decide_ext. rewrite elem_of_cons. naive_solver.
Qed.

(** What the rest of the operations leaves alone. *)
Definition directories c : gmap NodeId (NodeId * NodeDirectory) :=
  (λ n, (mn_node_id n, mn_node_directory n)) <$> mc_nodes c.
Lemma node_mut_directories {X} id (f : Nd → X * Nd) c x c' :
  (∀ n, mn_node_id (f n).2 = mn_node_id n ∧ mn_node_directory (f n).2 = mn_node_directory n) →
  node_mut id f c = Some (x, c') → directories c' = directories c.
Proof.
  intros Hf. unfold node_mut. destruct (mc_nodes c !! mkNodeId id) as [n|] eqn:Hn; simpl; [|done].
  specialize (Hf n). destruct (f n) as [x' n']. destruct Hf as [Hi Hd]. simpl in *.
  intros [= <- <-]. unfold directories. simpl. rewrite fmap_insert, Hi, Hd.
  apply insert_id. by rewrite lookup_fmap, Hn.
Qed.

(** Each node knows the others, and the others only. *)
Definition acquainted (ds : gmap NodeId (NodeId * NodeDirectory)) : Prop :=
  ∀ a id d, ds !! a = Some (id, d) → id = a ∧
    ∀ b, b ≠ a → is_connected b d = bool_decide (is_Some (ds !! b)).
Lemma acquainted_nodes c :
  acquainted (directories c) ↔
  ∀ a n, mc_nodes c !! a = Some n → mn_node_id n = a ∧
    ∀ b, b ≠ a → is_connected b (mn_node_directory n) = bool_decide (is_Some (mc_nodes c !! b)).
Proof.
  unfold acquainted, directories. split.
  - intros Ha a n Hn. destruct (Ha a (mn_node_id n) (mn_node_directory n)) as [? Hb];
      [by rewrite lookup_fmap, Hn|]. split; [done|]. intros b Hne. rewrite Hb by done.
    apply bool_decide_ext. by rewrite lookup_fmap, fmap_is_Some.
  - intros Ha a id d. rewrite lookup_fmap. intros (n & Hn & Hp)%fmap_Some. simplify_eq.
    destruct (Ha a n Hn) as [? Hb]. split; [done|]. intros b Hne. rewrite Hb by done.
    apply bool_decide_ext. by rewrite lookup_fmap, fmap_is_Some.
Qed.

Lemma fold_insert_lookup (f : NodeId → Nd) ids (m : gmap NodeId Nd) a :
  foldl (λ nodes id, <[id := f id]> nodes) m ids !! a
  = if decide (a ∈ ids) then Some (f a) else m !! a.
Proof.
  revert m. induction ids as [|id ids IH]; intros m; cbn [foldl]; [by rewrite decide_False by set_solver|].
  rewrite IH. destruct (decide (a ∈ ids)) as [|Hn]; [by rewrite decide_True by set_solver|].
  destruct (decide (a = id)) as [->|Hne].
  - by rewrite lookup_insert_eq, decide_True by set_solver.
  - by rewrite lookup_insert_ne, decide_False by set_solver.
Qed.
Lemma meet_id ids id : mn_node_id (meet ids id : Nd) = id.
Proof.
  unfold meet. assert (∀ n, mn_node_id n = id → mn_node_id (foldl (λ n peer,
    if decide (peer = id) then n else MockNode_connect_peer peer n) n ids : Nd) = id) as Hf; [|by apply Hf].
  induction ids as [|p ids IH]; intros n Hn; simpl; [done|]. apply IH. by case_decide.
Qed.
Lemma acquainted_new ids : acquainted (directories (MockCluster_new ids : Cl)).
Proof.
  apply acquainted_nodes. intros a n. unfold MockCluster_new. simpl. rewrite fold_insert_lookup.
  case_decide as Ha; [|by rewrite lookup_empty]. intros [= <-]. split; [apply meet_id|].
  intros b Hne. unfold meet. rewrite (connect_all_connected (λ p, p = a)). simpl.
  rewrite orb_false_r. apply bool_decide_ext. rewrite fold_insert_lookup. case_decide; [naive_solver|].
  rewrite lookup_empty. split; [tauto|by intros [? ?]].
Qed.
Lemma elem_of_node_ids c b : b ∈ mc_node_ids c ↔ is_Some (mc_nodes c !! b).
Proof.
  unfold mc_node_ids. rewrite list_elem_of_fmap. split.
  - intros ([k n] & -> & Hkn%elem_of_map_to_list). by exists n.
  - intros [n Hn]. exists (b, n). split; [done|]. by apply elem_of_map_to_list.
Qed.
Lemma acquainted_crash id c : acquainted (directories c) → acquainted (directories (crash_node id c)).
Proof.
  rewrite !acquainted_nodes. intros Ha a n. simpl.
  rewrite lookup_fmap. intros (n0 & [Hne Hn]%lookup_delete_Some & ->)%fmap_Some.
  destruct (Ha a n0 Hn) as [Hid Hb]. split; [done|]. intros b Hba.
  rewrite disconnect_connected, Hb by done. destruct (decide (b = mkNodeId id)) as [->|Hbi].
  - rewrite bool_decide_eq_true_2 by done. symmetry. apply bool_decide_eq_false_2.
    rewrite lookup_fmap, lookup_delete_eq. by intros [? ?].
  - rewrite (bool_decide_eq_false_2 (b = _)) by done. apply bool_decide_ext.
    by rewrite lookup_fmap, lookup_delete_ne, fmap_is_Some.
Qed.
Lemma connect_peers_connected ids n b :
  is_connected b (mn_node_directory (foldl (λ n peer, MockNode_connect_peer peer n) n ids))
  = bool_decide (b ∈ ids) || is_connected b (mn_node_directory n).
Proof.
  pose proof (connect_all_connected (λ _, False) ids n b) as Hc. simpl in Hc. rewrite Hc. f_equal.
  apply bool_decide_ext. tauto.
Qed.
Lemma connect_peers_id ids n :
  mn_node_id (foldl (λ n peer, MockNode_connect_peer peer n) n ids) = mn_node_id n.
Proof. revert n. induction ids as [|p ids IH]; intros n; simpl; [done|]. by rewrite IH. Qed.
Lemma acquainted_restart id c :
  acquainted (directories c) → acquainted (directories (restart_node id c)).
Proof.
  rewrite !acquainted_nodes. intros Ha a n. simpl.
  rewrite lookup_insert_Some, lookup_fmap. intros [[<- <-]|[Hne (n0 & Hn & ->)%fmap_Some]].
  - rewrite connect_peers_id. split; [done|]. intros b Hb.
    rewrite connect_peers_connected. simpl. rewrite orb_false_r. apply bool_decide_ext.
    by rewrite elem_of_node_ids, lookup_insert_ne, lookup_fmap, fmap_is_Some.
  - destruct (Ha a n0 Hn) as [Hid Hb]. split; [done|]. intros b Hba.
    rewrite connect_connected, Hb by done. destruct (decide (b = mkNodeId id)) as [->|Hbi].
    + rewrite bool_decide_eq_true_2 by done. symmetry. apply bool_decide_eq_true_2.
      by rewrite lookup_insert_eq.
    + rewrite (bool_decide_eq_false_2 (b = _)) by done. apply bool_decide_ext.
      by rewrite lookup_insert_ne, lookup_fmap, fmap_is_Some.
Qed.

(** *** Runs *)
Inductive mock_step : Cl → Cl → Prop :=
  | mock_crash id c : mock_step c (crash_node id c)
  | mock_restart id c : mock_step c (restart_node id c)
  | mock_watch w watcher (notify : Rf) target x c c' :
      mc_watch w watcher notify target c = Some (x, c') → mock_step c c'
  | mock_unwatch w watcher target x c c' :
      mc_unwatch w watcher target c = Some (x, c') → mock_step c c'
  | mock_remote_watch w target watcher x c c' :
      mc_remote_watch w target watcher c = Some (x, c') → mock_step c c'
  | mock_remote_unwatch w target watcher x c c' :
      mc_remote_unwatch w target watcher c = Some (x, c') → mock_step c c'
  | mock_notify w id x c c' : mc_notify_terminated w id c = Some (x, c') → mock_step c c'
  | mock_register w id tk x c c' : mc_register_cancel w id tk c = Some (x, c') → mock_step c c'
  | mock_cancel w id x c c' : mc_cancel_request w id c = Some (x, c') → mock_step c c'
  | mock_network net c : mock_step c (mkMockCluster (mc_nodes c) net).
Lemma mock_step_acquainted c c' :
  mock_step c c' → acquainted (directories c) → acquainted (directories c').
Proof.
  intros Hs Ha.
  destruct Hs as [id c|id c|w wa n ta x c c' Hs|w wa ta x c c' Hs|w ta wa x c c' Hs|w ta wa x c c' Hs
    |w id x c c' Hs|w id tk x c c' Hs|w id x c c' Hs|net c];
    [by apply acquainted_crash|by apply acquainted_restart|..|done];
    apply node_mut_directories in Hs as ->; try done; intros n0; simpl.
  unfold cancel. by destruct (tokens (mn_cancel_manager n0) !! id).
Qed.

(** The peers of [mc_state_for]. *)
Definition add_mock_peer (local : NodeId) (s : option ClusterState) (node_id : NodeId) :
    option ClusterState :=
  s ← s;
  if decide (node_id = local) then Some s
  else info ← mock_peer;
       Some (mkClusterState (Cluster.local_node s) (nodes s) (is_leader s)
               (cs_wire_version s) (cs_app_version s) (<[node_id := info]> (peer_versions s))).
Lemma add_mock_peers local ids s :
  ∃ s', foldl (add_mock_peer local) (Some s) ids = Some s'
    ∧ Cluster.local_node s' = Cluster.local_node s ∧ nodes s' = nodes s
    ∧ ∀ b, is_Some (peer_versions s' !! b) ↔ (b ∈ ids ∧ b ≠ local) ∨ is_Some (peer_versions s !! b).
Proof.
  revert s. induction ids as [|id ids IH]; intros s; cbn [foldl].
  { exists s. split_and!; [done..|]. intros b. rewrite elem_of_nil. tauto. }
  unfold add_mock_peer at 2. cbn [mbind option_bind]. case_decide as Hid.
  - destruct (IH s) as (s' & -> & ? & ? & Hb). exists s'. split_and!; [done..|]. intros b.
    rewrite Hb, elem_of_cons. naive_solver.
  - assert (∃ i, mock_peer = Some i) as [i ->] by (eexists; vm_compute; reflexivity).
    cbn [mbind option_bind].
    match goal with |- context [foldl _ (Some ?s1) _] => destruct (IH s1) as (s' & -> & ? & ? & Hb) end.
    exists s'. split_and!; [done..|]. intros b. rewrite Hb, elem_of_cons. simpl.
    destruct (decide (b = id)) as [->|Hne].
    + rewrite lookup_insert_eq. split; [intros _; by left; split; [left|]|intros _; by right].
    + rewrite lookup_insert_ne by done. naive_solver.
Qed.
End lemmas.

(** ** The properties *)
Module Spec.
Section spec.
Context {U W M T R Rf : Type}.

(** C29. In a mock cluster, after any run of crashes, restarts and the other
    operations (but freezing, which tells nobody), every node's directory says of every other node whether it is
    there; and the cluster state of a node lists exactly the nodes that are
    there, each once, with the version of every other one. *)
Theorem mock_membership ids (c : MockCluster U W M T R Rf) :
  rtc mock_step (MockCluster_new ids) c →
  (∀ a n, mc_nodes c !! a = Some n → mn_node_id n = a ∧
     ∀ b, b ≠ a → is_connected b (mn_node_directory n) = bool_decide (is_Some (mc_nodes c !! b))) ∧
  (∀ a, match mc_state_for a c with
        | None => mc_nodes c !! mkNodeId a = None
        | Some s => ∃ s', s = Some s' ∧ Cluster.local_node s' = mkNodeId a ∧ NoDup (nodes s')
            ∧ (∀ b, b ∈ nodes s' ↔ is_Some (mc_nodes c !! b))
            ∧ ∀ b, is_Some (peer_version b s') ↔ is_Some (mc_nodes c !! b) ∧ b ≠ mkNodeId a
        end).
Proof.
  intros Hs. split.
  - apply acquainted_nodes.
    refine (rtc_ind_r (λ c, acquainted (directories c)) _ (acquainted_new ids) _ c Hs).
    intros c1 c2 _ Hstep Ha. by eapply mock_step_acquainted.
  - intros a. unfold mc_state_for. destruct (mc_nodes c !! mkNodeId a) as [n|] eqn:Hn; [|done].
    assert (∃ v, ClusterState_new (mkNodeId a) (mc_node_ids c)
              = Some (mkClusterState (mkNodeId a) (mc_node_ids c) false v None ∅)) as [v ->]
      by (eexists; vm_compute; reflexivity).
    cbn [mbind option_bind nodes].
    destruct (add_mock_peers (mkNodeId a) (mc_node_ids c)
      (mkClusterState (mkNodeId a) (mc_node_ids c) false v None ∅)) as (s' & Hs' & Hl & Hns & Hb).
    exists s'. unfold add_mock_peer in Hs'. simpl in Hl, Hns. split_and!; [exact Hs'|done|..].
    + rewrite Hns. apply NoDup_fst_map_to_list.
    + intros b. rewrite Hns. apply elem_of_node_ids.
    + intros b. unfold peer_version. rewrite Hb, elem_of_node_ids. simpl. rewrite lookup_empty.
      split; [intros [?|[? ?]]; done|by left].
Qed.
End spec.

(** One of three nodes crashes, another is restarted while it is up. *)
Abbreviation DemoCluster := (MockCluster () () () () () ()).
Definition demo_cluster : DemoCluster :=
  restart_node "a" (crash_node "b" (MockCluster_new ["a"; "b"; "c"])).
Lemma mock_membership_witness :
  (∀ a n, mc_nodes demo_cluster !! a = Some n → mn_node_id n = a ∧
     ∀ b, b ≠ a → is_connected b (mn_node_directory n) = bool_decide (is_Some (mc_nodes demo_cluster !! b)))
  ∧ (λ n, is_connected (mkNodeId "b") (mn_node_directory n)) <$> mc_node "c" demo_cluster = Some false
  ∧ (λ n, is_connected (mkNodeId "a") (mn_node_directory n)) <$> mc_node "c" demo_cluster = Some true.
Proof.
  split; [|split; vm_compute; reflexivity].
  apply (mock_membership ["a"; "b"; "c"] demo_cluster).
  eapply rtc_l; [apply (mock_crash "b")|]. eapply rtc_l; [apply (mock_restart "a")|]. apply rtc_refl.
Defined.
(** A node that is restarted while it is up becomes a peer of its own. *)
Lemma restarted_is_own_peer :
  (λ n, is_connected (mkNodeId "a") (mn_node_directory n)) <$> mc_node "a" demo_cluster = Some true.
Proof. vm_compute. done. Qed.

(** *** The network *)
Inductive NetOp := Partition (a b : NodeId) | Heal (a b : NodeId).
Definition net_step (n : MockNetwork) (o : NetOp) : MockNetwork :=
  match o with Partition a b => partition a b n | Heal a b => remove_partition a b n end.
(** What the last operation on the link said. *)
Definition link_step (a b : NodeId) (cut : bool) (o : NetOp) : bool :=
  match o with
  | Partition x y => if same_link a b (x, y) then true else cut
  | Heal x y => if same_link a b (x, y) then false else cut
  end.
Lemma same_link_sym a b p : same_link a b p = same_link b a p.
Proof. unfold same_link. apply orb_comm. Qed.
Lemma same_link_pair a b x y p : same_link a b (x, y) = true → same_link x y p = same_link a b p.
Proof.
  unfold same_link. rewrite orb_true_iff, !bool_decide_eq_true. intros [[= -> ->]|[= -> ->]]; [done|].
  apply orb_comm.
Qed.
Lemma is_partitioned_step a b n o :
  is_partitioned a b (net_step n o) = link_step a b (is_partitioned a b n) o.
Proof.
  unfold is_partitioned. destruct o as [x y|x y]; simpl.
  - rewrite existsb_app. simpl. rewrite orb_false_r. destruct (same_link a b (x, y)); [apply orb_true_r|apply orb_false_r].
  - destruct (same_link a b (x, y)) eqn:Hl.
    + induction (partitions n) as [|p ps IH]; simpl; [done|]. rewrite (same_link_pair _ _ _ _ p Hl).
      destruct (same_link a b p) eqn:Hp; simpl; [done|]. by rewrite Hp.
    + induction (partitions n) as [|p ps IH]; simpl; [done|].
      destruct (same_link x y p) eqn:Hp; simpl; rewrite IH; [|done].
      destruct (same_link a b p) eqn:Ha; [|done]. exfalso.
      destruct p as [u v]. rewrite <-(same_link_pair _ _ _ _ (x, y) Ha) in Hl.
      rewrite (same_link_pair _ _ _ _ (x, y) Hp) in Hl. unfold same_link in Hl.
      rewrite bool_decide_eq_true_2 in Hl; done.
Qed.

(** Messages pass between two nodes unless the last operation on the link, in
    either direction, was to cut it; a node always reaches itself. *)
Theorem network_follows_last os a b :
  can_deliver a b (foldl net_step MockNetwork_new os)
  = bool_decide (a = b) || negb (foldl (link_step a b) false os).
Proof.
  assert (∀ n, is_partitioned a b (foldl net_step n os)
               = foldl (link_step a b) (is_partitioned a b n) os) as Hf.
  { induction os as [|o os IH]; intros n; simpl; [done|]. by rewrite IH, is_partitioned_step. }
  unfold can_deliver. case_decide; [by rewrite bool_decide_eq_true_2|].
  by rewrite bool_decide_eq_false_2, Hf.
Qed.
End Spec.
