(* ===== verification/TestNode.v ===== *)
(** * The test harness: nodes (dactor-test-harness/src: fault.rs, events.rs,
    handler.rs, node.rs; proto/test_node.proto)

    The control service of a test node, with its fault injector and its events,
    and the client's end of an event stream. A remote procedure is a request
    indexed by the type of its answer; the service turns a request into an
    answer or a gRPC status. The actors are behind [CommandHandler]. *)
From S2P Require Import Prelude Message.

#[local] Open Scope string_scope.
#[local] Open Scope list_scope.
#[local] Open Scope nat_scope.

(** ** FaultInjector *)
Record FaultEntry := mkFaultEntry {
  fault_type : string; fault_target : string; fault_duration_ms : N; fault_count : N
}.
Record FaultInjector := mkFaultInjector { faults : gmap string FaultEntry }.
Definition FaultInjector_new : FaultInjector := mkFaultInjector ∅.
Definition fault_key (type target : string) : string := type +:+ ":" +:+ target.
Definition add_fault (type target : string) (duration_ms count : N) (f : FaultInjector) : FaultInjector :=
  mkFaultInjector (<[fault_key type target := mkFaultEntry type target duration_ms count]> (faults f)).
Definition clear_all (f : FaultInjector) : FaultInjector := mkFaultInjector ∅.
Definition has_fault (type target : string) (f : FaultInjector) : bool :=
  bool_decide (is_Some (faults f !! fault_key type target)).
Definition active_faults (f : FaultInjector) : list string := (map_to_list (faults f)).*1.

(** ** The service's messages *)
Record NodeEvent := mkNodeEvent { event_type : string; event_detail : string; timestamp_ms : N }.
Record PingResponse := mkPingResponse { ping_echo : string; ping_node_id : string; ping_uptime_ms : N }.
Record NodeInfoResponse := mkNodeInfoResponse {
  info_node_id : string; info_uptime_ms : N; info_adapter : string; info_actor_count : N
}.
Record SpawnActorResponse := mkSpawnActorResponse {
  spawn_success : bool; spawn_actor_id : string; spawn_error : string
}.
Record AskActorResponse := mkAskActorResponse {
  ask_success : bool; ask_payload : bytes; ask_error : string
}.
(** [TellActorResponse], [StopActorResponse] and [WatchActorResponse] have the
    same fields. *)
Record AckResponse := mkAckResponse { ack_success : bool; ack_error : string }.
Inductive Status := Unimplemented (message : string) | OtherStatus (message : string).

(** The remote procedures, but for the subscription, with the fields of their
    requests. *)
Inductive NodeRequest : Type → Type :=
  | PingRequest (echo : string) : NodeRequest PingResponse
  | GetNodeInfo : NodeRequest NodeInfoResponse
  | ShutdownRequest (graceful : bool) (timeout_ms : N) : NodeRequest ()
  | FaultRequest (type target : string) (duration_ms count : N) (detail : string) : NodeRequest ()
  | ClearFaults : NodeRequest ()
  | CustomRequest (command_type : string) (payload : bytes) : NodeRequest bytes
  | SpawnActorRequest (actor_type actor_name : string) (args : bytes) : NodeRequest SpawnActorResponse
  | TellActorRequest (actor_name message_type : string) (payload : bytes) : NodeRequest AckResponse
  | AskActorRequest (actor_name message_type : string) (payload : bytes) (timeout_ms : N) :
      NodeRequest AskActorResponse
  | StopActorRequest (actor_name : string) : NodeRequest AckResponse
  | WatchActorRequest (watcher_name target_name : string) : NodeRequest AckResponse.

(** ** CommandHandler *)
Class CommandHandler (H W : Type) := {
  adapter_name : H → string;
  h_spawn_actor : string → string → bytes → H → W → result string string * W;
  h_tell_actor : string → string → bytes → H → W → result string () * W;
  h_ask_actor : string → string → bytes → N → H → W → result string bytes * W;
  h_stop_actor : string → H → W → result string () * W;
  h_watch_actor : string → string → H → W → result string () * W;
  h_actor_count : H → W → N
}.
(** The defaults of the trait. *)
Definition default_watch_actor {H W} (watcher target : string) (h : H) (w : W) : result string () * W :=
  (Err "watch not supported", w).
Definition default_actor_count {H W} (h : H) (w : W) : N := 0.

(** ** TestNode
    Of the environment: the time since the start of the node in nanoseconds, the
    event channel, and the notification that stops the server. *)
Class NodeWorld (W : Type) := {
  nw_elapsed : W → N;
  nw_send_event : NodeEvent → W → W;
  nw_notify_shutdown : W → W
}.
(** The scalars of a [json!] object. *)
Inductive JsonField := JBool (b : bool) | JNum (n : N) | JStr (s : string).

Record TestNodeConfig := mkTestNodeConfig { tn_node_id : string; control_port : N }.
Definition TestNodeConfig_from_args (node_id : string) (port : N) : TestNodeConfig :=
  mkTestNodeConfig node_id port.

Section node.
Context {H W : Type} `{CommandHandler H W} `{NodeWorld W}.
(** [json!({..}).to_string()] *)
Context (json : list (string * JsonField) → string).

Record TestNode := mkTestNode {
  tn_config : TestNodeConfig;
  fault_injector : FaultInjector;
  shutdown_flag : bool;
  tn_actor_count : N;
  tn_handler : option H
}.
Definition TestNode_new (config : TestNodeConfig) : TestNode :=
  mkTestNode config FaultInjector_new false 0 None.
Definition with_handler (config : TestNodeConfig) (handler : H) : TestNode :=
  mkTestNode config FaultInjector_new false 0 (Some handler).
Definition set_fault_injector x (n : TestNode) : TestNode :=
  mkTestNode (tn_config n) x (shutdown_flag n) (tn_actor_count n) (tn_handler n).

(** [elapsed().as_millis() as u64] *)
Definition uptime_ms (w : W) : N := wrap64 (nw_elapsed w / 1000000).
Definition emit_event (type detail : string) (w : W) : W :=
  nw_send_event (mkNodeEvent type detail (uptime_ms w)) w.

Definition node_ping (echo : string) (n : TestNode) (w : W) : result Status PingResponse * TestNode * W :=
  (Ok (mkPingResponse echo (tn_node_id (tn_config n)) (uptime_ms w)), n, w).
Definition node_info (n : TestNode) (w : W) : result Status NodeInfoResponse * TestNode * W :=
  let count := match tn_handler n with Some h => h_actor_count h w | None => tn_actor_count n end in
  let adapter := match tn_handler n with Some h => adapter_name h | None => "none" end in
  (Ok (mkNodeInfoResponse (tn_node_id (tn_config n)) (uptime_ms w) adapter count), n, w).
Definition node_shutdown (graceful : bool) (timeout_ms : N) (n : TestNode) (w : W) :
    result Status () * TestNode * W :=
  let n := mkTestNode (tn_config n) (fault_injector n) true (tn_actor_count n) (tn_handler n) in
  let w := emit_event "node_shutdown" (json [("graceful", JBool graceful); ("timeout_ms", JNum timeout_ms)]) w in
  (Ok (), n, nw_notify_shutdown w).
Definition inject_fault (type target : string) (duration_ms count : N) (n : TestNode) (w : W) :
    result Status () * TestNode * W :=
  let n := set_fault_injector (add_fault type target duration_ms count (fault_injector n)) n in
  (Ok (), n, emit_event "fault_injected" (json [("fault_type", JStr type); ("target", JStr target)]) w).
Definition clear_faults (n : TestNode) (w : W) : result Status () * TestNode * W :=
  (Ok (), set_fault_injector (clear_all (fault_injector n)) n, emit_event "faults_cleared" "{}" w).
Definition custom_command (command_type : string) (n : TestNode) (w : W) :
    result Status bytes * TestNode * W :=
  (Err (Unimplemented ("custom command '" +:+ command_type +:+ "' not registered")), n, w).

(** [ok_or_else(|| Status::unimplemented(..))?], and the rest of a procedure. *)
Definition no_handler : Status := Unimplemented "no command handler registered".
Definition handled {X} (f : H → W → X * W) (n : TestNode) (w : W) : result Status X * TestNode * W :=
  match tn_handler n with
  | None => (Err no_handler, n, w)
  | Some h => let '(x, w) := f h w in (Ok x, n, w)
  end.
(** The response to a result, and the event of a success. *)
Definition ack (r : result string ()) : AckResponse :=
  match r with Ok _ => mkAckResponse true "" | Err e => mkAckResponse false e end.
Definition ack_event (type : string) (detail : list (string * JsonField)) (r : result string () * W) :
    AckResponse * W :=
  (ack r.1, match r.1 with Ok _ => emit_event type (json detail) r.2 | Err _ => r.2 end).

Definition node_spawn_actor (actor_type actor_name : string) (args : bytes) :
    TestNode → W → result Status SpawnActorResponse * TestNode * W :=
  handled (λ h w,
    match h_spawn_actor actor_type actor_name args h w with
    | (Ok actor_id, w) =>
        (mkSpawnActorResponse true actor_id "",
         emit_event "actor_spawned"
           (json [("actor_type", JStr actor_type); ("actor_name", JStr actor_name);
                  ("actor_id", JStr actor_id)]) w)
    | (Err e, w) => (mkSpawnActorResponse false "" e, w)
    end).
Definition partition_error : string := "partition: message delivery blocked".
Definition node_tell_actor (actor_name message_type : string) (payload : bytes) (n : TestNode) (w : W) :
    result Status AckResponse * TestNode * W :=
  handled (λ h w,
    if has_fault "partition" actor_name (fault_injector n) then (mkAckResponse false partition_error, w)
    else let '(r, w) := h_tell_actor actor_name message_type payload h w in (ack r, w)) n w.
Definition node_ask_actor (actor_name message_type : string) (payload : bytes) (timeout_ms : N)
    (n : TestNode) (w : W) : result Status AskActorResponse * TestNode * W :=
  handled (λ h w,
    if has_fault "partition" actor_name (fault_injector n)
    then (mkAskActorResponse false [] partition_error, w)
    else match h_ask_actor actor_name message_type payload timeout_ms h w with
         | (Ok payload, w) => (mkAskActorResponse true payload "", w)
         | (Err e, w) => (mkAskActorResponse false [] e, w)
         end) n w.
Definition node_stop_actor (actor_name : string) : TestNode → W → result Status AckResponse * TestNode * W :=
  handled (λ h w,
    ack_event "actor_stopped" [("actor_name", JStr actor_name)] (h_stop_actor actor_name h w)).
Definition node_watch_actor (watcher_name target_name : string) :
    TestNode → W → result Status AckResponse * TestNode * W :=
  handled (λ h w,
    ack_event "actor_watch_registered" [("watcher", JStr watcher_name); ("target", JStr target_name)]
      (h_watch_actor watcher_name target_name h w)).

(** The service. *)
Definition serve {X} (r : NodeRequest X) : TestNode → W → result Status X * TestNode * W :=
  match r in NodeRequest X return TestNode → W → result Status X * TestNode * W with
  | PingRequest echo => node_ping echo
  | GetNodeInfo => node_info
  | ShutdownRequest graceful timeout_ms => node_shutdown graceful timeout_ms
  | FaultRequest type target duration_ms count _ => inject_fault type target duration_ms count
  | ClearFaults => clear_faults
  | CustomRequest command_type _ => custom_command command_type
  | SpawnActorRequest actor_type actor_name args => node_spawn_actor actor_type actor_name args
  | TellActorRequest actor_name message_type payload => node_tell_actor actor_name message_type payload
  | AskActorRequest actor_name message_type payload timeout_ms =>
      node_ask_actor actor_name message_type payload timeout_ms
  | StopActorRequest actor_name => node_stop_actor actor_name
  | WatchActorRequest watcher_name target_name => node_watch_actor watcher_name target_name
  end.
End node.
Arguments TestNode : clear implicits.

(** The subscription: [items] is what the subscriber's end of the broadcast
    channel yields, [None] where it lagged behind. *)
Definition subscribe_events (event_types : list string) (items : list (option NodeEvent)) : list NodeEvent :=
  retain (λ e, bool_decide (event_types = []) || bool_decide (event_type e ∈ event_types)) (omap id items).

(** ** EventStream
    What the stream will yield: how long the next message takes from now on, and
    the message, [None] for its end or an error. Past the end of the list nothing
    comes. *)
Abbreviation Incoming := (list (N * option NodeEvent)).
(** [timeout(t, inner.message())] looks at the message first. The result has what
    is still to come and the time that has passed. *)
Definition next_event (timeout : N) (inner : Incoming) : option NodeEvent * Incoming * N :=
  match inner with
  | (wait, item) :: rest =>
      if (wait <=? timeout)%N then (item, rest, wait)
      else (None, ((wait - timeout)%N, item) :: rest, timeout)
  | [] => (None, [], timeout)
  end.
(** The [loop] of [expect]; [remaining] is the time to the deadline. *)
Fixpoint expect_loop (predicate : NodeEvent → bool) (remaining : N) (inner : Incoming) :
    option NodeEvent * Incoming :=
  if (remaining =? 0)%N then (None, inner)
  else match inner with
       | [] => (None, [])
       | (wait, item) :: rest =>
           if (wait <=? remaining)%N then
             match item with
             | Some event =>
                 if predicate event then (Some event, rest)
                 else expect_loop predicate (remaining - wait) rest
             | None => (None, rest)
             end
           else (None, ((wait - remaining)%N, item) :: rest)
       end.
Definition expect (predicate : NodeEvent → bool) (timeout : N) (inner : Incoming) :
    option NodeEvent * Incoming := expect_loop predicate timeout inner.

(** ** Lemmas *)
(** A turn of [expect] is a call of [next_event]. *)
Lemma expect_loop_step predicate remaining inner :
  expect_loop predicate remaining inner
  = if (remaining =? 0)%N then (None, inner)
    else match next_event remaining inner with
         | (Some event, rest, passed) =>
             if predicate event then (Some event, rest)
             else expect_loop predicate (remaining - passed) rest
         | (None, rest, _) => (None, rest)
         end.
Proof.
  destruct inner as [|[wait item] rest]; simpl; [done|].
  destruct (remaining =? 0)%N; [done|]. destruct (wait <=? remaining)%N; [|done]. by destruct item.
Qed.

Definition waits (inner : Incoming) : N := foldr (λ x n, x.1 + n)%N 0%N inner.
Definition uninteresting (predicate : NodeEvent → bool) (x : N * option NodeEvent) : Prop :=
  ∃ e, x.2 = Some e ∧ predicate e = false.
Lemma expect_loop_found predicate remaining inner e rest :
  expect_loop predicate remaining inner = (Some e, rest) ↔
  ∃ pre wait, inner = pre ++ (wait, Some e) :: rest ∧ Forall (uninteresting predicate) pre
    ∧ predicate e = true ∧ (waits pre < remaining)%N ∧ (waits pre + wait <= remaining)%N.
Proof.
  revert remaining. induction inner as [|[wait item] inner IH]; intros remaining; cbn [expect_loop].
  { split; [by destruct (remaining =? 0)%N|]. by intros ([] & ? & ? & _). }
  destruct (remaining =? 0)%N eqn:Hr; [apply N.eqb_eq in Hr as ->|apply N.eqb_neq in Hr].
  { split; [done|]. intros (pre & ? & _ & _ & _ & ? & _). lia. }
  destruct (wait <=? remaining)%N eqn:Hw; [apply N.leb_le in Hw|apply N.leb_gt in Hw].
  - split.
    + destruct item as [ev|]; [|done]. destruct (predicate ev) eqn:Hp.
      * intros [= <- <-]. exists [], wait. simpl. split_and!; [done..|lia|lia].
      * intros (pre & wait' & -> & Hpre & ? & ? & ?)%IH. exists ((wait, Some ev) :: pre), wait'.
        simpl. split_and!; [done| |done|lia|lia]. constructor; [by exists ev|done].
    + intros ([|[wait0 item0] pre] & wait' & Heq & Hpre & Hp & H1 & H2); simplify_eq/=; [by rewrite Hp|].
      apply Forall_cons in Hpre as [(ev & Hi & Hev) Hpre]. simpl in *. subst item0. rewrite Hev. apply IH.
      exists pre, wait'. split_and!; [done..|lia|lia].
  - split; [done|].
    intros ([|[wait0 item0] pre] & wait' & Heq & _ & _ & H1 & H2); simplify_eq/=; lia.
Qed.

Section node_lemmas.
Context {H W : Type} `{CommandHandler H W} `{NodeWorld W} (json : list (string * JsonField) → string).
Implicit Types (n : TestNode H) (w : W).

(** Requests in the order the service handles them. *)
Abbreviation Request := (sigT NodeRequest).
Fixpoint serve_all (rs : list Request) n w : TestNode H * W :=
  match rs with
  | [] => (n, w)
  | existT _ r :: rs => let '(_, n, w) := serve json r n w in serve_all rs n w
  end.
(** Whether a fault is in force after a request. *)
Definition fault_after (key : string) (cut : bool) (r : Request) : bool :=
  match projT2 r with
  | FaultRequest type target _ _ _ => cut || bool_decide (fault_key type target = key)
  | ClearFaults => false
  | _ => cut
  end.
Lemma handled_node {X} (f : H → W → X * W) n w : (handled f n w).1.2 = n.
Proof. unfold handled. destruct (tn_handler n); [|done]. by destruct (f _ w). Qed.
Lemma serve_faults {X} (r : NodeRequest X) n w :
  let n' := (serve json r n w).1.2 in
  tn_handler n' = tn_handler n ∧
  ∀ key, bool_decide (is_Some (faults (fault_injector n') !! key))
         = fault_after key (bool_decide (is_Some (faults (fault_injector n) !! key))) (existT X r).
Proof.
  destruct r; unfold fault_after; cbn -[handled]; unfold node_spawn_actor, node_tell_actor,
    node_ask_actor, node_stop_actor, node_watch_actor; rewrite ?handled_node; split; try done; intros key.
  - rewrite <-bool_decide_or. apply bool_decide_ext. rewrite lookup_insert_is_Some'. naive_solver.
Qed.
Lemma serve_all_faults rs n w :
  let n' := (serve_all rs n w).1 in
  tn_handler n' = tn_handler n ∧
  ∀ key, bool_decide (is_Some (faults (fault_injector n') !! key))
         = foldl (fault_after key) (bool_decide (is_Some (faults (fault_injector n) !! key))) rs.
Proof.
  revert n w. induction rs as [|[X r] rs IH]; intros n w; cbn [serve_all foldl]; [done|].
  pose proof (serve_faults r n w) as [Hh Hf]. destruct (serve json r n w) as [[x n1] w1]. simpl in Hh, Hf.
  destruct (IH n1 w1) as [Hh' Hf']. split; [by rewrite Hh'|]. intros key. by rewrite Hf', Hf.
Qed.
End node_lemmas.

(** ** The properties *)
Module Spec.
Section spec.
Context {H W : Type} `{CommandHandler H W} `{NodeWorld W} (json : list (string * JsonField) → string).

(** What a test node does with the messages for an actor, after any sequence of
    requests to a fresh node: without a handler they are refused; with one, they
    are blocked, and nothing happens, exactly when a fault with the key of a
    partition of that actor was injected since the faults were last cleared; any
    other message goes to the handler, whose result is the answer. *)
Theorem partition_blocks config (handler : option H) rs (w0 : W) name type payload timeout_ms :
  let '(n, w) := serve_all json rs (mkTestNode config FaultInjector_new false 0 handler) w0 in
  let cut := foldl (fault_after (fault_key "partition" name)) false rs in
  match handler with
  | None =>
      serve json (TellActorRequest name type payload) n w = (Err no_handler, n, w)
      ∧ serve json (AskActorRequest name type payload timeout_ms) n w = (Err no_handler, n, w)
  | Some h =>
      serve json (TellActorRequest name type payload) n w
      = (if cut then (Ok (mkAckResponse false partition_error), n, w)
         else let '(r, w) := h_tell_actor name type payload h w in (Ok (ack r), n, w))
      ∧ serve json (AskActorRequest name type payload timeout_ms) n w
      = (if cut then (Ok (mkAskActorResponse false [] partition_error), n, w)
         else let '(r, w) := h_ask_actor name type payload timeout_ms h w in
              (Ok (match r with
                   | Ok reply => mkAskActorResponse true reply ""
                   | Err e => mkAskActorResponse false [] e
                   end), n, w))
  end.
Proof.
  pose proof (serve_all_faults json rs (mkTestNode config FaultInjector_new false 0 handler) w0) as [Hh Hf].
  destruct (serve_all json rs _ w0) as [n w]. simpl in Hh, Hf.
  specialize (Hf (fault_key "partition" name)). rewrite lookup_empty, (bool_decide_eq_false_2 (is_Some None)) in Hf
    by (by intros [? ?]).
  simpl. unfold node_tell_actor, node_ask_actor, handled, has_fault. rewrite Hh, Hf.
  destruct handler as [h|]; [|done]. split; destruct (foldl _ _ rs); try done.
  - by destruct (h_tell_actor name type payload h w).
  - by destruct (h_ask_actor name type payload timeout_ms h w) as [[]].
Qed.

(** Waiting for an event: [expect] gives an event exactly when it is the first
    that satisfies the predicate, the events before it all came before the
    deadline, and it came by the deadline; whatever comes after it is still to be
    read. *)
Theorem expect_finds predicate timeout inner e rest :
  expect predicate timeout inner = (Some e, rest) ↔
  ∃ pre wait, inner = pre ++ (wait, Some e) :: rest ∧ Forall (uninteresting predicate) pre
    ∧ predicate e = true ∧ (waits pre < timeout)%N ∧ (waits pre + wait <= timeout)%N.
Proof. apply expect_loop_found. Qed.
End spec.

(** Two faults with one key: the separator may be in the names. *)
Lemma fault_keys_collide : fault_key "partition" "a:b" = fault_key "partition:a" "b".
Proof. done. Qed.
End Spec.
