(* ===== verification/TestCluster.v ===== *)
(** * The test harness: clusters (dactor-test-harness/src/cluster.rs)

    The client's side: node processes, their launch and their end, and the
    procedures called on them. Processes and gRPC clients are the environment. *)
From S2P Require Import Prelude Message TestNode.

#[local] Open Scope string_scope.
#[local] Open Scope list_scope.
#[local] Open Scope nat_scope.

(** [P] are processes, [C] connected clients. *)
Class Processes (P C W : Type) := {
  (* binary, arguments, node id, port *)
  launch : string → list string → string → N → W → result string P * W;
  kill : P → W → W;
  reap : P → W → W;
  connect : string → W → option C * W;
  pause : N → W → W;
  rpc {X} : NodeRequest X → C → W → result Status X * W;
  rpc_subscribe : list string → C → W → result Status Incoming * W
}.
(** [live] are the children that run and have not been forced to exit,
    [unreaped] those that have not been waited for. A child may exit by itself at
    any time. Waiting for a live child blocks, so nothing is known after it. *)
Class ProcessLaws (P C W : Type) `{Processes P C W} (live unreaped : W → P → Prop) := {
  live_unreaped w p : live w p → unreaped w p;
  launch_law binary args id port w :
    match launch binary args id port w with
    | (Ok p, w') =>
        ¬ unreaped w p ∧ (∀ q, unreaped w' q ↔ q = p ∨ unreaped w q) ∧ ∀ q, live w' q → q = p ∨ live w q
    | (Err _, w') => (∀ q, unreaped w' q ↔ unreaped w q) ∧ ∀ q, live w' q → live w q
    end;
  kill_law p w q : (unreaped (kill p w) q ↔ unreaped w q) ∧ (live (kill p w) q → q ≠ p ∧ live w q);
  reap_law p w q :
    ¬ live w p → (unreaped (reap p w) q ↔ q ≠ p ∧ unreaped w q) ∧ (live (reap p w) q → live w q);
  connect_law addr w q :
    (unreaped (connect addr w).2 q ↔ unreaped w q) ∧ (live (connect addr w).2 q → live w q);
  pause_law d w q : (unreaped (pause d w) q ↔ unreaped w q) ∧ (live (pause d w) q → live w q)
}.

Section cluster.
Context {P C W : Type} `{Processes P C W}.

Record TestNodeHandle := mkTestNodeHandle {
  th_process : P; th_node_id : string; th_control_port : N; th_client : option C
}.
Record TestCluster := mkTestCluster { tc_nodes : gmap string TestNodeHandle }.

(** ** Calls
    The errors are boxed: a text, or the status of the call. *)
Inductive CallError := CallText (text : string) | CallStatus (s : Status).
Definition with_client {X} (node_id : string) (f : C → W → result Status X * W)
    (c : TestCluster) (w : W) : result CallError X * W :=
  match tc_nodes c !! node_id with
  | None => (Err (CallText "node not found"), w)
  | Some handle =>
      match th_client handle with
      | None => (Err (CallText "not connected"), w)
      | Some client => let '(r, w) := f client w in (map_err CallStatus r, w)
      end
  end.
Definition call {X} (node_id : string) (r : NodeRequest X) : TestCluster → W → result CallError X * W :=
  with_client node_id (rpc r).

Definition TestCluster_ping (node_id echo : string) := call node_id (PingRequest echo).
Definition TestCluster_get_node_info (node_id : string) := call node_id GetNodeInfo.
Definition TestCluster_inject_fault (node_id type target : string) (duration_ms count : N) :=
  call node_id (FaultRequest type target duration_ms count "").
Definition TestCluster_clear_faults (node_id : string) := call node_id ClearFaults.
Definition TestCluster_subscribe_events (node_id : string) (event_types : list string) :=
  with_client node_id (rpc_subscribe event_types).
Definition TestCluster_custom (node_id command_type : string) (payload : bytes) :=
  call node_id (CustomRequest command_type payload).
Definition TestCluster_spawn_actor (node_id actor_type actor_name : string) (args : bytes) :=
  call node_id (SpawnActorRequest actor_type actor_name args).
Definition TestCluster_tell_actor (node_id actor_name message_type : string) (payload : bytes) :=
  call node_id (TellActorRequest actor_name message_type payload).
Definition TestCluster_ask_actor_with_timeout (node_id actor_name message_type : string)
    (payload : bytes) (timeout_ms : N) :=
  call node_id (AskActorRequest actor_name message_type payload timeout_ms).
Definition TestCluster_ask_actor (node_id actor_name message_type : string) (payload : bytes) :=
  TestCluster_ask_actor_with_timeout node_id actor_name message_type payload 0.
Definition TestCluster_stop_actor (node_id actor_name : string) :=
  call node_id (StopActorRequest actor_name).
Definition TestCluster_watch_actor (node_id watcher_name target_name : string) :=
  call node_id (WatchActorRequest watcher_name target_name).

(** ** The end of nodes
    [let _ = process.kill(); let _ = process.wait();] *)
Definition end_process (h : TestNodeHandle) (w : W) : W := reap (th_process h) (kill (th_process h) w).
Definition shutdown_node (node_id : string) (c : TestCluster) (w : W) : W :=
  match tc_nodes c !! node_id with
  | None => w
  | Some handle =>
      let w := match th_client handle with
               | Some client => (rpc (ShutdownRequest true 5000) client w).2
               | None => w
               end in
      end_process handle w
  end.
Definition TestCluster_shutdown (c : TestCluster) (w : W) : W :=
  foldl (λ w node_id, shutdown_node node_id c w) w (map_to_list (tc_nodes c)).*1.
Definition end_all (nodes : gmap string TestNodeHandle) (w : W) : W :=
  foldl (λ w e, end_process e.2 w) w (map_to_list nodes).
Definition TestCluster_drop (c : TestCluster) : W → W := end_all (tc_nodes c).

(** ** The launch *)
Record NodeSpec := mkNodeSpec {
  ns_node_id : string; ns_binary : string; ns_args : list string; ns_port : N
}.
Definition builder : list NodeSpec := [].
Definition builder_node (node_id binary : string) (args : list string) (port : N)
    (b : list NodeSpec) : list NodeSpec :=
  b ++ [mkNodeSpec node_id binary args port].

Definition connect_attempts : nat := 50.
Fixpoint connect_retry (attempts : nat) (addr : string) (w : W) : option C * W :=
  match attempts with
  | 0 => (None, w)
  | S attempts =>
      match connect addr (pause (from_millis 100) w) with
      | (Some c, w) => (Some c, w)
      | (None, w) => connect_retry attempts addr w
      end
  end.
Definition node_addr (port : N) : string := "http://127.0.0.1:" +:+ pretty port.
Definition launch_failed (s : NodeSpec) (e : string) : string :=
  "Failed to launch test node '" +:+ ns_node_id s +:+ "' (" +:+ ns_binary s +:+ "): " +:+ e.
Definition connect_failed (s : NodeSpec) : string :=
  "Failed to connect to test node '" +:+ ns_node_id s +:+ "' at " +:+ node_addr (ns_port s)
  +:+ " after 5s of retries".
(** The [for] of [build]; an error is a panic with its message. *)
Fixpoint build_loop (specs : list NodeSpec) (nodes : gmap string TestNodeHandle) (w : W) :
    result string TestCluster * W :=
  match specs with
  | [] => (Ok (mkTestCluster nodes), w)
  | s :: specs =>
      match launch (ns_binary s) (ns_args s) (ns_node_id s) (ns_port s) w with
      | (Err e, w) => (Err (launch_failed s e), end_all nodes w)
      | (Ok process, w) =>
          match connect_retry connect_attempts (node_addr (ns_port s)) w with
          | (None, w) => (Err (connect_failed s), end_all nodes (reap process (kill process w)))
          | (client, w) =>
              build_loop specs
                (<[ns_node_id s := mkTestNodeHandle process (ns_node_id s) (ns_port s) client]> nodes) w
          end
      end
  end.
Definition build (specs : list NodeSpec) : W → result string TestCluster * W := build_loop specs ∅.
End cluster.
Arguments TestNodeHandle : clear implicits.
Arguments TestCluster : clear implicits.

(** ** Lemmas *)
Section lemmas.
Context {P C W : Type} `{Processes P C W} (live unreaped : W → P → Prop)
  `{!ProcessLaws P C W live unreaped}.
Abbreviation Handles := (gmap string (TestNodeHandle P C)).
Implicit Types (w : W) (nodes : Handles).

(** The processes of a cluster. *)
Definition owned nodes (q : P) : Prop := ∃ id h, nodes !! id = Some h ∧ th_process h = q.

Lemma kill_reap_law p w q :
  (unreaped (reap p (kill p w)) q ↔ q ≠ p ∧ unreaped w q)
  ∧ (live (reap p (kill p w)) q → q ≠ p ∧ live w q).
Proof.
  destruct (kill_law p w q) as [Hu Hl].
  destruct (reap_law p (kill p w) q) as [Hu' Hl']; [by intros [? _]%kill_law|].
  split; [by rewrite Hu', Hu|auto].
Qed.
Lemma end_all_law nodes w q :
  (unreaped (end_all nodes w) q ↔ ¬ owned nodes q ∧ unreaped w q)
  ∧ (live (end_all nodes w) q → ¬ owned nodes q ∧ live w q).
Proof.
  unfold end_all. set (end_one := λ w (e : string * TestNodeHandle P C), end_process e.2 w).
  assert (∀ l w, (unreaped (foldl end_one w l) q ↔ (∀ e, e ∈ l → th_process e.2 ≠ q) ∧ unreaped w q)
    ∧ (live (foldl end_one w l) q → (∀ e, e ∈ l → th_process e.2 ≠ q) ∧ live w q)) as Hl.
  { clear w. intros l. induction l as [|e l IH]; intros w; simpl.
    { pose proof (not_elem_of_nil (A:=string * TestNodeHandle P C)). naive_solver. }
    destruct (IH (end_one w e)) as [IHu IHl].
    destruct (kill_reap_law (th_process e.2) w q) as [Hu Hl].
    change (end_one w e) with (end_process e.2 w) in *. unfold end_process in *.
    setoid_rewrite elem_of_cons. naive_solver. }
  assert ((∀ e, e ∈ map_to_list nodes → th_process e.2 ≠ q) ↔ ¬ owned nodes q) as Ho.
  { unfold owned. split.
    - intros Hn (id & h & Hh & Hq). apply (Hn (id, h)); [by apply elem_of_map_to_list|done].
    - intros Hn [id h] Hh%elem_of_map_to_list Hq. apply Hn. by exists id, h. }
  rewrite <- Ho. apply Hl.
Qed.
Lemma connect_retry_law n addr w q :
  (unreaped (connect_retry n addr w).2 q ↔ unreaped w q) ∧ (live (connect_retry n addr w).2 q → live w q).
Proof.
  revert w. induction n as [|n IH]; intros w; simpl; [done|].
  pose proof (pause_law (from_millis 100) w q) as Hp.
  pose proof (connect_law addr (pause (from_millis 100) w) q) as Hc.
  destruct (connect addr _) as [[c|] w']; simpl in *; [|specialize (IH w')]; intuition.
Qed.
Lemma owned_insert nodes id (h : TestNodeHandle P C) q :
  nodes !! id = None → owned (<[id := h]> nodes) q ↔ q = th_process h ∨ owned nodes q.
Proof.
  intros Hid. unfold owned. setoid_rewrite lookup_insert_Some. split.
  - intros (id' & h' & [[<- <-]|[? ?]] & <-); [by left|right; eauto].
  - intros [->|(id' & h' & Hh & <-)]; [by exists id, h; auto|].
    exists id', h'. split; [|done]. right. split; [congruence|done].
Qed.

(** What [build_loop] has started and not ended is what it holds. *)
Lemma build_loop_law specs nodes w (base alive : P → Prop) :
  NoDup (ns_node_id <$> specs) → (∀ s, s ∈ specs → nodes !! ns_node_id s = None) →
  (∀ q, unreaped w q ↔ owned nodes q ∨ base q) → (∀ q, owned nodes q → ¬ base q) →
  (∀ q, live w q → owned nodes q ∨ alive q) →
  match build_loop specs nodes w with
  | (Ok c, w') =>
      (∀ q, unreaped w' q ↔ owned (tc_nodes c) q ∨ base q)
      ∧ (∀ q, owned (tc_nodes c) q → ¬ base q)
      ∧ (∀ q, live w' q → owned (tc_nodes c) q ∨ alive q)
      ∧ (∀ id, is_Some (tc_nodes c !! id) ↔ is_Some (nodes !! id) ∨ id ∈ ns_node_id <$> specs)
  | (Err _, w') => (∀ q, unreaped w' q ↔ base q) ∧ ∀ q, live w' q → alive q
  end.
Proof.
  revert nodes w. induction specs as [|s specs IH]; intros nodes w Hnd Hfresh Hw Hb Ha; cbn [build_loop].
  { split_and!; [done..|]. intros id. rewrite fmap_nil, elem_of_nil. tauto. }
  apply NoDup_cons in Hnd as [Hs Hnd].
  pose proof (launch_law (ns_binary s) (ns_args s) (ns_node_id s) (ns_port s) w) as Hl.
  destruct (launch _ _ _ _ w) as [[p|e] w1].
  - destruct Hl as (Hp & Hl & Hv). rewrite Hw in Hp.
    pose proof (connect_retry_law connect_attempts (node_addr (ns_port s)) w1) as Hc.
    destruct (connect_retry _ _ w1) as [[c|] w2]; simpl in Hc.
    + set (h := mkTestNodeHandle _ _ _ _) in *.
      assert (nodes !! ns_node_id s = None) as Hid by (apply Hfresh; by left).
      specialize (IH (<[ns_node_id s := h]> nodes) w2 Hnd). ospecialize* IH.
      * intros s' Hs'. rewrite lookup_insert_ne; [apply Hfresh; by right|].
        intros Heq. apply Hs. rewrite Heq. by apply list_elem_of_fmap_2.
      * intros q. rewrite (proj1 (Hc q)), Hl, Hw, owned_insert by done. tauto.
      * intros q. rewrite owned_insert by done. intros [->|?]; [tauto|by apply Hb].
      * intros q Hq%Hc%Hv. rewrite owned_insert by done. destruct Hq as [?|?%Ha]; tauto.
      * destruct (build_loop specs _ w2) as [[c'|e] w']; [|exact IH]. destruct IH as (Hu & Hd & Hq & Hi).
        split_and!; [done..|]. intros id. rewrite Hi, lookup_insert_is_Some'. set_solver.
    + split; intros q.
      * rewrite (proj1 (end_all_law nodes _ q)), (proj1 (kill_reap_law p w2 q)), (proj1 (Hc q)), Hl, Hw.
        specialize (Hb q). split; [tauto|]. intros Hq. split_and!; [tauto|intros ->; tauto|tauto].
      * intros [Ho [Hne Hq%Hc%Hv]%kill_reap_law]%end_all_law. destruct Hq as [?|?%Ha]; tauto.
  - destruct Hl as [Hl Hv]. split; intros q.
    + rewrite (proj1 (end_all_law nodes _ q)), Hl, Hw. specialize (Hb q). tauto.
    + intros [Ho Hq%Hv%Ha]%end_all_law. tauto.
Qed.
End lemmas.

(** ** The properties *)
Module Spec.
Section spec.
Context {P C W : Type} `{Processes P C W} (live unreaped : W → P → Prop)
  `{!ProcessLaws P C W live unreaped}.

(** C24. No process is left behind. Launching nodes with distinct ids gives a cluster
    of exactly these nodes that holds every process that was started, or it
    panics and everything it had started has been killed and waited for: none of
    it is live or unreaped. Dropping a cluster ends every process it holds in
    the same way. Waiting counts only for a process that was killed before, since
    waiting for a live one blocks. *)
Theorem no_process_left specs (w : W) :
  NoDup (ns_node_id <$> specs) →
  match build specs w with
  | (Ok c, w') =>
      (∀ id, is_Some (tc_nodes c !! id) ↔ id ∈ ns_node_id <$> specs)
      ∧ (∀ q, unreaped w' q ↔ owned (tc_nodes c) q ∨ unreaped w q)
      ∧ (∀ q, unreaped (TestCluster_drop c w') q ↔ unreaped w q)
      ∧ (∀ q, live (TestCluster_drop c w') q → live w q)
  | (Err _, w') => (∀ q, unreaped w' q ↔ unreaped w q) ∧ (∀ q, live w' q → live w q)
  end.
Proof.
  intros Hnd. unfold build.
  assert (∀ q, ¬ owned (∅ : gmap string (TestNodeHandle P C)) q) as Hnone
    by (intros q (id & h & Hh & _); by rewrite lookup_empty in Hh).
  pose proof (build_loop_law live unreaped specs ∅ w (unreaped w) (live w) Hnd) as Hb. ospecialize* Hb.
  - intros s _. apply lookup_empty.
  - intros q. split; [by right|]. intros [?%Hnone|]; done.
  - intros q ?%Hnone. done.
  - by right.
  - destruct (build_loop specs ∅ w) as [[c|e] w']; [|done]. destruct Hb as (Hu & Hd & Hl & Hi).
    unfold TestCluster_drop. split_and!; [|done|..].
    + intros id. rewrite Hi, lookup_empty. split; [by intros [[? ?]|]|by right].
    + intros q. rewrite (proj1 (end_all_law live unreaped _ _ q)), Hu. specialize (Hd q). tauto.
    + intros q [? [?|?]%Hl]%(end_all_law live unreaped); tauto.
Qed.
End spec.

(** Processes are numbers; the binary "bad" cannot be launched, and nobody
    listens on port 9. Waiting for a running process never comes back: it leaves
    everything as it is. *)
Record DemoWorld := mkDemoWorld { dw_running : gset nat; dw_children : gset nat; dw_next : nat }.
#[local] Instance demo_processes : Processes nat () DemoWorld := {|
  launch binary _ _ _ w :=
    if decide (binary = "bad") then (Err "no such file", w)
    else (Ok (dw_next w),
      mkDemoWorld ({[dw_next w]} ∪ dw_running w) ({[dw_next w]} ∪ dw_children w) (S (dw_next w)));
  kill p w := mkDemoWorld (dw_running w ∖ {[p]}) (dw_children w) (dw_next w);
  reap p w :=
    if decide (p ∈ dw_running w) then w
    else mkDemoWorld (dw_running w) (dw_children w ∖ {[p]}) (dw_next w);
  connect addr w := (if decide (addr = node_addr 9) then None else Some (), w);
  pause _ w := w;
  rpc _ _ _ w := (Err (OtherStatus "closed"), w);
  rpc_subscribe _ _ w := (Err (OtherStatus "closed"), w)
|}.
(** Numbers from the counter on are not in use. *)
Definition demo_unreaped (w : DemoWorld) (p : nat) : Prop := p ∈ dw_children w ∧ p < dw_next w.
Definition demo_live (w : DemoWorld) (p : nat) : Prop := p ∈ dw_running w ∧ demo_unreaped w p.
#[local] Instance demo_process_laws : ProcessLaws nat () DemoWorld demo_live demo_unreaped.
Proof.
  unfold demo_live, demo_unreaped. split; simpl; try set_solver.
  - intros binary args id port w. case_decide; [done|]. simpl. split_and!; [lia|..]; intros q;
      rewrite ?elem_of_union, ?elem_of_singleton; [|destruct (decide (q = dw_next w)); naive_solver lia].
    split; [|naive_solver lia].
    intros [[->|?] Hq]; [by left|]. destruct (decide (q = dw_next w)); [by left|right; split; [done|lia]].
  - intros p w q Hp. case_decide; simpl; [|set_solver]. destruct (decide (q = p)); naive_solver.
Qed.
Abbreviation demo_start := (mkDemoWorld ∅ ∅ 0).
Abbreviation demo_specs := [mkNodeSpec "a" "node" [] 1; mkNodeSpec "b" "node" [] 9].
Lemma no_process_left_witness :
  (∀ q, ¬ demo_unreaped (build demo_specs demo_start).2 q)
  ∧ dw_next (build demo_specs demo_start).2 = 2
  ∧ (build demo_specs demo_start).1
    = Err "Failed to connect to test node 'b' at http://127.0.0.1:9 after 5s of retries".
Proof.
  assert ((build demo_specs demo_start).1
    = Err "Failed to connect to test node 'b' at http://127.0.0.1:9 after 5s of retries") as Herr
    by (vm_compute; reflexivity).
  split; [|split; [vm_compute; reflexivity|exact Herr]].
  pose proof (no_process_left demo_live demo_unreaped demo_specs demo_start) as Hall.
  destruct (build _ _) as [r w']. simpl in Herr. subst r.
  destruct Hall as [Hu _]; [vm_compute; repeat constructor; set_solver|].
  intros q Hq%Hu. destruct Hq as [Hq _]. set_solver.
Defined.
(** Two nodes with the same id: the process of the first is in no handle. *)
Lemma duplicate_id_leaks :
  match build [mkNodeSpec "a" "node" [] 1; mkNodeSpec "a" "node" [] 2] demo_start with
  | (Ok c, w) => demo_live (TestCluster_drop c w) 0
  | (Err _, _) => False
  end.
Proof. vm_compute. split_and!; [done..|]. lia. Qed.
End Spec.
