(* ===== verification/CommandHandler.v ===== *)
(** * The test nodes' commands (src/bin/test_node_ractor.rs of dactor-ractor,
    test_node_kameo.rs of dactor-kameo, test_node_coerce.rs of dactor-coerce)

    The counter actor of the test nodes, and the handler that spawns, tells, asks
    and stops counters by name. The three binaries differ in the runtime only:
    the runtime and its references are the interface [CounterRuntime]. *)
From S2P Require Import Prelude Node Message Supervision Task Actor TestNode.

#[local] Open Scope string_scope.
#[local] Open Scope list_scope.
#[local] Open Scope nat_scope.

(** ** The counter actor *)
Inductive CounterMsg :=
  | Increment (amount : Z) | SetCount (value : Z) | SlowIncrement (amount : Z)
  | GetCount | Echo (payload : bytes) | SlowEcho (payload : bytes)
  | Terminated (c : ChildTerminated).
Inductive CounterReply := ReplyUnit | ReplyCount (count : Z) | ReplyBytes (payload : bytes).

Section counter.
Context {W : Type} (p : profile) (sleep : N → W → W) (type_names : CounterMsg → string).
Abbreviation HT X := (Task (Z * ActorContext W) W X).

(** [self.count += amount] *)
Definition counter_add (amount : Z) : HT CounterReply :=
  Await (λ l w, match add_i64 p l.1 amount with
                | Some count => ((count, l.2), w, Ready ReplyUnit)
                | None => (l, w, Panicked)
                end).
Definition counter_set (value : Z) : HT CounterReply := sync (λ l w, ((value, l.2), w, ReplyUnit)).
Definition counter_sleep (d : N) : HT () := _ ← sync (λ l w, (l, sleep d w, ())); yield_now.
Definition counter_handle (msg : CounterMsg) : HT CounterReply :=
  match msg with
  | Increment amount => counter_add amount
  | SetCount value => counter_set value
  | SlowIncrement amount => _ ← counter_sleep (from_millis 500); counter_add amount
  | GetCount => sync (λ l w, (l, w, ReplyCount l.1))
  | Echo payload => mret (ReplyBytes payload)
  | SlowEcho payload => _ ← counter_sleep (from_secs 2); mret (ReplyBytes payload)
  | Terminated _ => counter_set (-999)
  end.
#[export] Instance counter_actor : Actor Z W CounterMsg () () CounterReply := {|
  type_name := type_names; item_type_name := "";
  on_start := mret (); on_stop := mret (); on_error := default_on_error;
  handle := counter_handle;
  handle_expand _ _ := mret (); handle_reduce _ := mret ReplyUnit;
  handle_transform _ _ := mret (); on_transform_complete _ := mret ()
|}.
End counter.

(** ** The runtime behind the handler
    [Rep] is an [AskReply]. *)
Class CounterRuntime (R Rep W : Type) := {
  (* spawn::<CounterActor>, with the text of its error *)
  cr_spawn : string → Z → W → result string R * W;
  cr_id : R → ActorId;
  cr_tell : CounterMsg → R → W → result ActorSendError () * W;
  cr_ask : CounterMsg → R → W → result ActorSendError Rep * W;
  (* the reply, or None when the timeout elapses before it *)
  cr_await : option N → Rep → W → option (result RuntimeError CounterReply) * W;
  cr_stop : R → W → W;
  cr_is_alive : R → W → bool;
  cr_sleep : N → W → W
}.
(** [serde_json]: [i64]s, the state object, and values by field. *)
Class CounterJson (V : Type) := {
  i64_from_slice : bytes → result string Z;
  i64_to_vec : Z → result string bytes;
  state_to_vec : Z → string → result string bytes;
  value_from_slice : bytes → result string V;
  value_str : string → V → option string;
  value_i64 : string → V → option Z
}.

Section handler.
Context {R Rep W V : Type} `{CounterRuntime R Rep W} `{CounterJson V}.
Context (duration_debug : N → string).

Record HandlerState := mkHandlerState {
  ch_actors : gmap string R; ch_watches : list (string * string); ch_live_count : N
}.
Abbreviation St := (HandlerState * W)%type.
Definition HandlerState_new : HandlerState := mkHandlerState ∅ [] 0.
(** [fetch_add] and [fetch_sub] on an [AtomicU32]. *)
Definition incr_live (s : HandlerState) : HandlerState :=
  mkHandlerState (ch_actors s) (ch_watches s) (wrap32 (ch_live_count s + 1)).
Definition decr_live (s : HandlerState) : HandlerState :=
  mkHandlerState (ch_actors s) (ch_watches s) (wrap32 (ch_live_count s + (2 ^ 32 - 1))).
Definition set_actors x (s : HandlerState) : HandlerState :=
  mkHandlerState x (ch_watches s) (ch_live_count s).

Definition actor_text (what name rest : string) : string := what +:+ " '" +:+ name +:+ "' " +:+ rest.
Definition find_actor (what name : string) (s : HandlerState) : result string R :=
  ok_or (ch_actors s !! name) (actor_text what name "not found").

Definition ch_spawn_actor (actor_type actor_name : string) (args : bytes) (st : St) : result string string * St :=
  let '(s, w) := st in
  if negb (bool_decide (actor_type = "counter")) then (Err ("unknown actor type: " +:+ actor_type), st)
  else
    match (if decide (args = []) then Ok 0%Z else map_err (String.append "bad args: ") (i64_from_slice args)) with
    | Err e => (Err e, st)
    | Ok initial =>
        match cr_spawn actor_name initial w with
        | (Err e, w) => (Err ("spawn failed: " +:+ e), (s, w))
        | (Ok actor_ref, w) =>
            match ch_actors s !! actor_name with
            | Some _ => (Err (actor_text "actor" actor_name "already exists"), (s, w))
            | None =>
                (Ok (ActorId_display (cr_id actor_ref)),
                 (incr_live (set_actors (<[actor_name := actor_ref]> (ch_actors s)) s), w))
            end
        end
    end.

(** The body of an arm: the payload, then the [tell]. *)
Definition bad_payload {X} : result string X → result string X := map_err (String.append "bad payload: ").
Definition tell_decoded (failed : string) (msg : result string CounterMsg) (actor_ref : R) (st : St) :
    result string () * St :=
  match msg with
  | Err e => (Err e, st)
  | Ok msg =>
      let '(r, w) := cr_tell msg actor_ref st.2 in
      (map_err (λ e, failed +:+ ": " +:+ ActorSendError_display e) r, (st.1, w))
  end.
Definition forward_increment (payload : bytes) (st : St) : result string () * St :=
  match (fwd ← bad_payload (value_from_slice payload);
         target ← ok_or (value_str "target" fwd) "missing target";
         amount ← ok_or (value_i64 "amount" fwd) "missing amount";
         target_ref ← find_actor "forward target" target st.1;
         Ok (amount, target_ref)) with
  | Err e => (Err e, st)
  | Ok (amount, target_ref) => tell_decoded "forward failed" (Ok (Increment amount)) target_ref st
  end.
Definition ch_tell_actor (actor_name message_type : string) (payload : bytes) (st : St) : result string () * St :=
  match find_actor "actor" actor_name st.1 with
  | Err e => (Err e, st)
  | Ok actor_ref =>
      if decide (message_type = "increment") then
        tell_decoded "tell failed"
          (Increment <$> (if decide (payload = []) then Ok 1%Z else bad_payload (i64_from_slice payload)))
          actor_ref st
      else if decide (message_type = "set_count") then
        tell_decoded "tell failed" (SetCount <$> bad_payload (i64_from_slice payload)) actor_ref st
      else if decide (message_type = "slow_increment") then
        tell_decoded "tell failed" (SlowIncrement <$> bad_payload (i64_from_slice payload)) actor_ref st
      else if decide (message_type = "forward_increment") then forward_increment payload st
      else (Err ("unknown message type: " +:+ message_type), st)
  end.

(** What is asked, and how the reply becomes bytes. A reply of another type than
    the message's is impossible in the code. *)
Definition serialized_reply (r : result string bytes) : result string bytes :=
  map_err (String.append "serialize failed: ") r.
Definition ask_message (actor_name message_type : string) (payload : bytes) :
    option (CounterMsg * (CounterReply → result string bytes)) :=
  let count f r := match r with ReplyCount n => serialized_reply (f n) | _ => Err "reply type" end in
  let echo r := match r with ReplyBytes b => Ok b | _ => Err "reply type" end in
  if decide (message_type = "get_count") then Some (GetCount, count i64_to_vec)
  else if decide (message_type = "get_state") then Some (GetCount, count (λ n, state_to_vec n actor_name))
  else if decide (message_type = "echo") then Some (Echo payload, echo)
  else if decide (message_type = "slow_echo") then Some (SlowEcho payload, echo)
  else None.
(** [ask_fut] suspends only while it waits for the reply, which is where the
    timeout can elapse. *)
Definition ch_ask_actor (actor_name message_type : string) (payload : bytes) (timeout_ms : N) (st : St) :
    result string bytes * St :=
  match find_actor "actor" actor_name st.1, ask_message actor_name message_type payload with
  | Err e, _ => (Err e, st)
  | Ok _, None => (Err ("unknown message type: " +:+ message_type), st)
  | Ok actor_ref, Some (msg, to_bytes) =>
      match cr_ask msg actor_ref st.2 with
      | (Err e, w) => (Err ("ask failed: " +:+ ActorSendError_display e), (st.1, w))
      | (Ok reply, w) =>
          let timeout := if (0 <? timeout_ms)%N then Some (from_millis timeout_ms) else None in
          match cr_await timeout reply w with
          | (None, w) => (Err "ask timed out", (st.1, w))
          | (Some (Err e), w) => (Err ("reply failed: " +:+ RuntimeError_display duration_debug e), (st.1, w))
          | (Some (Ok r), w) => (to_bytes r, (st.1, w))
          end
      end
  end.

(** Stopping: 100 looks at the actor, 10 ms apart. *)
Definition watcher_refs (actor_name : string) (s : HandlerState) : list R :=
  omap (λ e, ch_actors s !! e.1) (retain (λ e, bool_decide (e.2 = actor_name)) (ch_watches s)).
Definition terminated (actor_name : string) : CounterMsg :=
  Terminated (mkChildTerminated (mkActorId (mkNodeId "local") 0) actor_name None).
Definition notify_watchers (actor_name : string) (s : HandlerState) (w : W) : W :=
  foldl (λ w r, (cr_tell (terminated actor_name) r w).2) w (watcher_refs actor_name s).
Fixpoint stop_loop (polls : nat) (actor_name : string) (actor_ref : R) (st : St) : result string () * St :=
  let '(s, w) := st in
  match polls with
  | 0 => (Err (actor_text "actor" actor_name "did not terminate within 1s"), (decr_live s, w))
  | S polls =>
      if cr_is_alive actor_ref w then stop_loop polls actor_name actor_ref (s, cr_sleep (from_millis 10) w)
      else let s := decr_live s in (Ok (), (s, notify_watchers actor_name s w))
  end.
Definition stop_polls : nat := 100.
Definition ch_stop_actor (actor_name : string) (st : St) : result string () * St :=
  match find_actor "actor" actor_name st.1 with
  | Err e => (Err e, st)
  | Ok actor_ref =>
      stop_loop stop_polls actor_name actor_ref
        (set_actors (delete actor_name (ch_actors st.1)) st.1, cr_stop actor_ref st.2)
  end.

Definition ch_watch_actor (watcher_name target_name : string) (st : St) : result string () * St :=
  match find_actor "watcher" watcher_name st.1, find_actor "target" target_name st.1 with
  | Err e, _ | Ok _, Err e => (Err e, st)
  | Ok _, Ok _ =>
      let s := st.1 in
      if decide ((watcher_name, target_name) ∈ ch_watches s) then (Ok (), st)
      else (Ok (), (mkHandlerState (ch_actors s) (ch_watches s ++ [(watcher_name, target_name)])
                      (ch_live_count s), st.2))
  end.

(** The three handlers: [H] is the name of the adapter. *)
#[export] Instance command_handler : CommandHandler string St := {|
  adapter_name h := h;
  h_spawn_actor ty name args _ st := ch_spawn_actor ty name args st;
  h_tell_actor name ty payload _ st := ch_tell_actor name ty payload st;
  h_ask_actor name ty payload timeout_ms _ st := ch_ask_actor name ty payload timeout_ms st;
  h_stop_actor name _ st := ch_stop_actor name st;
  h_watch_actor watcher target _ st := ch_watch_actor watcher target st;
  h_actor_count _ st := ch_live_count st.1
|}.
End handler.
Arguments HandlerState : clear implicits.
Definition Ractor_handler : string := "ractor".
Definition Kameo_handler : string := "kameo".
Definition Coerce_handler : string := "coerce".

(** ** The binaries' copies *)
Section copies.
Context {R Rep W V : Type} `{CounterRuntime R Rep W} `{CounterJson V}.
Definition Kameo_ch_spawn_actor := ch_spawn_actor (R := R) (Rep := Rep) (W := W) (V := V).
Definition Kameo_ch_tell_actor := ch_tell_actor (R := R) (Rep := Rep) (W := W) (V := V).
Definition Kameo_ch_ask_actor := ch_ask_actor (R := R) (Rep := Rep) (W := W) (V := V).
Definition Kameo_ch_stop_actor := ch_stop_actor (R := R) (Rep := Rep) (W := W).
Definition Kameo_ch_watch_actor := ch_watch_actor (R := R) (W := W).
Definition Kameo_counter_handle (p : profile) (sleep : N → W → W) := counter_handle p sleep.
Definition Coerce_ch_spawn_actor := ch_spawn_actor (R := R) (Rep := Rep) (W := W) (V := V).
Definition Coerce_ch_tell_actor := ch_tell_actor (R := R) (Rep := Rep) (W := W) (V := V).
Definition Coerce_ch_ask_actor := ch_ask_actor (R := R) (Rep := Rep) (W := W) (V := V).
Definition Coerce_ch_stop_actor := ch_stop_actor (R := R) (Rep := Rep) (W := W).
Definition Coerce_ch_watch_actor := ch_watch_actor (R := R) (W := W).
Definition Coerce_counter_handle (p : profile) (sleep : N → W → W) := counter_handle p sleep.
End copies.

(** ** Lemmas *)
Section lemmas.
Context {R Rep W V : Type} `{CounterRuntime R Rep W} `{CounterJson V} (duration_debug : N → string).
Abbreviation St := (HandlerState R * W)%type.
Implicit Types (s : HandlerState R) (st : St).

(** The live count is the number of actors, and no watch is registered twice. *)
Definition counted s : Prop :=
  ch_live_count s = wrap32 (N.of_nat (size (ch_actors s))) ∧ NoDup (ch_watches s).
Lemma counted_new : counted HandlerState_new.
Proof. split; [done|constructor]. Qed.
Lemma counted_insert s name (r : R) :
  ch_actors s !! name = None → counted s → counted (incr_live (set_actors (<[name := r]> (ch_actors s)) s)).
Proof.
  intros Hn [Hl Hw]. split; [|done]. simpl. rewrite Hl, map_size_insert_None by done.
  unfold wrap32. rewrite N.Div0.add_mod_idemp_l. f_equal. lia.
Qed.
Lemma counted_delete s name (r : R) :
  ch_actors s !! name = Some r → counted s → counted (decr_live (set_actors (delete name (ch_actors s)) s)).
Proof.
  intros Hn [Hl Hw]. split; [|done]. simpl.
  pose proof (map_size_delete_Some name (ch_actors s) (ltac:(by exists r))) as Hs.
  pose proof (map_size_ne_0_lookup_2 (ch_actors s) name (ltac:(by exists r))).
  rewrite Hl, Hs. unfold wrap32. rewrite N.Div0.add_mod_idemp_l.
  replace (N.of_nat (size (ch_actors s)) + (2 ^ 32 - 1))%N
    with (N.of_nat (pred (size (ch_actors s))) + 1 * 2 ^ 32)%N by lia.
  by rewrite N.Div0.mod_add.
Qed.

Definition sleeps (k : nat) (w : W) : W := Nat.iter k (cr_sleep (from_millis 10)) w.
Lemma sleeps_S k w : sleeps k (cr_sleep (from_millis 10) w) = sleeps (S k) w.
Proof. unfold sleeps. by rewrite Nat.iter_succ_r. Qed.
Lemma stop_loop_cases polls name (r : R) s w :
  (∃ k, k < polls ∧ (∀ j, j < k → cr_is_alive r (sleeps j w) = true)
     ∧ cr_is_alive r (sleeps k w) = false
     ∧ stop_loop polls name r (s, w)
       = (Ok (), (decr_live s, notify_watchers name (decr_live s) (sleeps k w))))
  ∨ ((∀ j, j < polls → cr_is_alive r (sleeps j w) = true)
     ∧ stop_loop polls name r (s, w)
       = (Err (actor_text "actor" name "did not terminate within 1s"), (decr_live s, sleeps polls w))).
Proof.
  revert w. induction polls as [|polls IH]; intros w; simpl; [right; split; [lia|done]|].
  destruct (cr_is_alive r w) eqn:Ha.
  - destruct (IH (cr_sleep (from_millis 10) w)) as [(k & Hk & Hj & Hd & ->)|[Hj ->]]; [left|right].
    + exists (S k). rewrite sleeps_S in *. split_and!; [lia| |done|done].
      intros [|j] ?; [done|]. rewrite <-sleeps_S. apply Hj. lia.
    + split; [|by rewrite sleeps_S]. intros [|j] ?; [done|]. rewrite <-sleeps_S. apply Hj. lia.
  - left. exists 0. split_and!; [lia|lia|done|done].
Qed.
Lemma stop_loop_state polls name (r : R) st : (stop_loop polls name r st).2.1 = decr_live st.1.
Proof. destruct st as [s w]. by destruct (stop_loop_cases polls name r s w) as [(? & _ & _ & _ & ->)|[_ ->]]. Qed.

Lemma tell_decoded_state failed msg (r : R) st : (tell_decoded failed msg r st).2.1 = st.1.
Proof. unfold tell_decoded. destruct msg; [|done]. by destruct (cr_tell _ r st.2). Qed.
Lemma ch_tell_actor_state name ty payload st : (ch_tell_actor name ty payload st).2.1 = st.1.
Proof.
  unfold ch_tell_actor, forward_increment. repeat case_match; by rewrite ?tell_decoded_state.
Qed.
Lemma ch_ask_actor_state name ty payload t st :
  (ch_ask_actor duration_debug name ty payload t st).2.1 = st.1.
Proof. unfold ch_ask_actor. by repeat case_match. Qed.
Lemma counted_spawn ty name args st : counted st.1 → counted (ch_spawn_actor ty name args st).2.1.
Proof.
  destruct st as [s w]. intros Hs. unfold ch_spawn_actor. destruct (negb _); [done|].
  destruct (if decide _ then _ else _) as [initial|]; [|done].
  destruct (cr_spawn name initial w) as [[r|] w']; [|done].
  destruct (ch_actors s !! name) eqn:Hn; [done|]. by apply counted_insert.
Qed.
Lemma counted_stop name st : counted st.1 → counted (ch_stop_actor name st).2.1.
Proof.
  intros Hs. unfold ch_stop_actor, find_actor, ok_or. destruct (ch_actors st.1 !! name) as [r|] eqn:Hr; [|done].
  rewrite stop_loop_state. by eapply counted_delete.
Qed.
Lemma counted_watch watcher target st : counted st.1 → counted (ch_watch_actor watcher target st).2.1.
Proof.
  intros [Hl Hw]. unfold ch_watch_actor. repeat case_match; [done| |done..]. split; [done|]. simpl.
  apply NoDup_app. split_and!; [done| |apply NoDup_singleton]. by intros x Hx ->%list_elem_of_singleton.
Qed.

Context `{NodeWorld W}.
#[export] Instance handler_world : NodeWorld St := {|
  nw_elapsed st := nw_elapsed st.2;
  nw_send_event e st := (st.1, nw_send_event e st.2);
  nw_notify_shutdown st := (st.1, nw_notify_shutdown st.2)
|}.
#[local] Instance node_handler : CommandHandler string St := command_handler duration_debug.
Lemma serve_counted json {X} (r : NodeRequest X) (n : TestNode string) st :
  counted st.1 → counted (serve json r n st).2.1.
Proof.
  intros Hs. destruct r as [| | | | | |ty name args|name ty payload|name ty payload t|name|watcher target];
    try done; cbn [serve]; unfold node_spawn_actor, node_tell_actor, node_ask_actor, node_stop_actor,
      node_watch_actor, handled; destruct (tn_handler n); try done; cbn.
  - pose proof (counted_spawn ty name args st Hs). by destruct (ch_spawn_actor _ _ _ st) as [[] []].
  - destruct (has_fault _ _ _); [done|]. pose proof (ch_tell_actor_state name ty payload st) as Ht.
    destruct (ch_tell_actor _ _ _ st). cbn in *. by rewrite Ht.
  - destruct (has_fault _ _ _); [done|]. pose proof (ch_ask_actor_state name ty payload t st) as Ht.
    destruct (ch_ask_actor _ _ _ _ _ st) as [[] ?]; cbn in *; by rewrite Ht.
  - pose proof (counted_stop name st Hs). by destruct (ch_stop_actor name st) as [[] []].
  - pose proof (counted_watch watcher target st Hs). by destruct (ch_watch_actor watcher target st) as [[] []].
Qed.
Lemma serve_all_counted json rs (n : TestNode string) st :
  counted st.1 → counted (serve_all json rs n st).2.1.
Proof.
  revert n st. induction rs as [|[X r] rs IH]; intros n st Hs; cbn [serve_all]; [done|].
  pose proof (serve_counted json r n st Hs). destruct (serve json r n st) as [[x n1] st1]. by apply IH.
Qed.
End lemmas.

(** ** The properties *)
Module Spec.
Section spec.
Context {R Rep W V : Type} `{CounterRuntime R Rep W} `{CounterJson V} `{NodeWorld W}.
Context (duration_debug : N → string) (json : list (string * JsonField) → string).
Abbreviation St := (HandlerState R * W)%type.
#[local] Instance spec_handler : CommandHandler string St := command_handler duration_debug.

(** The node and its handler together: after any sequence of requests to a node
    that starts with no actors, the node reports the number of actors its handler
    holds, whatever failed on the way, and no watch is registered twice. *)
Theorem node_counts_actors config adapter rs (w0 : W) :
  let '(n, (s, w)) := serve_all json rs (with_handler config adapter) (HandlerState_new, w0) in
  (serve json GetNodeInfo n (s, w)).1.1
  = Ok (mkNodeInfoResponse (tn_node_id (tn_config n)) (uptime_ms w) adapter
          (wrap32 (N.of_nat (size (ch_actors s)))))
  ∧ NoDup (ch_watches s).
Proof.
  pose proof (serve_all_counted duration_debug json rs (with_handler config adapter)
    (HandlerState_new, w0) counted_new) as Hc.
  pose proof (serve_all_faults json rs (with_handler config adapter) (HandlerState_new, w0)) as [Hh _].
  destruct (serve_all json rs _ _) as [n [s w]]. destruct Hc as [Hl Hw]. simpl in *.
  split; [|done]. unfold node_info. rewrite Hh. simpl. by rewrite Hl.
Qed.

(** Stopping an actor: it leaves the table at once, and the count goes down by
    one; if it is dead at one of the 100 looks, the first of which is made at
    once, its watchers that are still there are told, each once for its watch and
    in the order of the watches; otherwise nobody is told, and the caller gets an
    error. *)
Theorem stop_outcome name (r : R) (s : HandlerState R) (w : W) :
  ch_actors s !! name = Some r →
  let s' := decr_live (set_actors (delete name (ch_actors s)) s) in
  let w0 := cr_stop r w in
  (∃ k, k < 100 ∧ (∀ j, j < k → cr_is_alive r (sleeps j w0) = true)
     ∧ cr_is_alive r (sleeps k w0) = false
     ∧ ch_stop_actor name (s, w) = (Ok (), (s', notify_watchers name s' (sleeps k w0))))
  ∨ ((∀ j, j < 100 → cr_is_alive r (sleeps j w0) = true)
     ∧ ch_stop_actor name (s, w)
       = (Err (actor_text "actor" name "did not terminate within 1s"), (s', sleeps 100 w0))).
Proof.
  intros Hr. unfold ch_stop_actor, find_actor, ok_or. cbn [fst snd]. rewrite Hr.
  apply (stop_loop_cases stop_polls).
Qed.
End spec.

(** References are numbers, and the world lists what was told to whom; a counter
    is dead once it was asked to stop and some time has passed. *)
Record DemoWorld := mkDemoWorld {
  dw_next : nat; dw_told : list (nat * CounterMsg); dw_stopped : list nat; dw_naps : nat
}.
#[local] Instance demo_runtime : CounterRuntime nat () DemoWorld := {|
  cr_spawn _ _ w := (Ok (dw_next w), mkDemoWorld (S (dw_next w)) (dw_told w) (dw_stopped w) (dw_naps w));
  cr_id r := mkActorId (mkNodeId "n") (N.of_nat r);
  cr_tell m r w := (Ok (), mkDemoWorld (dw_next w) (dw_told w ++ [(r, m)]) (dw_stopped w) (dw_naps w));
  cr_ask _ _ w := (Ok (), w);
  cr_await _ _ w := (Some (Ok (ReplyCount 0)), w);
  cr_stop r w := mkDemoWorld (dw_next w) (dw_told w) (r :: dw_stopped w) (dw_naps w);
  cr_is_alive r w := negb (bool_decide (r ∈ dw_stopped w)) || (dw_naps w <? 2);
  cr_sleep _ w := mkDemoWorld (dw_next w) (dw_told w) (dw_stopped w) (S (dw_naps w))
|}.
#[local] Instance demo_json : CounterJson () := {|
  i64_from_slice _ := Ok 5%Z; i64_to_vec _ := Ok []; state_to_vec _ _ := Ok [];
  value_from_slice _ := Err "no"; value_str _ _ := None; value_i64 _ _ := None
|}.
Definition demo_state : HandlerState nat := mkHandlerState {["a" := 0; "b" := 1]} [("b", "a")] 2.
Lemma stop_outcome_witness :
  (ch_stop_actor "a" (demo_state, mkDemoWorld 2 [] [] 0)).1 = Ok ()
  ∧ dw_told (ch_stop_actor "a" (demo_state, mkDemoWorld 2 [] [] 0)).2.2 = [(1, terminated "a")].
Proof.
  destruct (stop_outcome "a" 0 demo_state (mkDemoWorld 2 [] [] 0) eq_refl)
    as [(k & _ & Hj & Hk & ->)|[Hj _]].
  - destruct k as [|[|[|k]]]; [by vm_compute in Hk..|by vm_compute|].
    specialize (Hj 2 ltac:(lia)). by vm_compute in Hj.
  - specialize (Hj 2 ltac:(lia)). by vm_compute in Hj.
Defined.
(** A name that is taken: the second actor has been spawned by then, and nothing
    holds it. *)
Lemma duplicate_name_orphan :
  let '(r, (s, w)) := ch_spawn_actor "counter" "a" [] (demo_state, mkDemoWorld 2 [] [] 0) in
  r = Err "actor 'a' already exists" ∧ s = demo_state ∧ dw_next w = 3.
Proof. vm_compute. done. Qed.
End Spec.
