(* ===== verification/TaskQueue.v ===== *)
(** * The task queue (dactor/examples/task_queue.rs)

    A system of actors put together: a dispatcher, a round-robin pool of workers
    with bounded mailboxes, a collector of dead tasks and an actor that counts.
    Every actor takes its turns when it wants, a worker sleeps inside its
    handler, and the timer ticks in between; a run is any interleaving.

    A handler runs on the mailboxes of the others ([Mailboxes]), which it reaches
    through references that have no hooks and no dead-letter handler, as the
    example's runtime makes them: a [tell] is [MailboxSender::send]. A handler
    that panics has not told anybody anything yet; the worker goes on, the others
    end ([on_error]), and their mailboxes close. The stops at the end of [main]
    are not part of a run, nor is what is printed. *)
From S2P Require Import Prelude Node Message Channel Mailbox Interceptor Task Actor Dispatch Stream.
From S2P Require Import AdapterRef ActorRef Pool.

#[local] Open Scope string_scope.
#[local] Open Scope list_scope.
#[local] Open Scope nat_scope.

(** ** Messages *)
Inductive TaskPriority := High | Normal | Low.

Record SubmitTask := mkSubmitTask {
  st_id : string; st_payload : string; st_priority : TaskPriority; st_max_retries : N
}.
Record ProcessTask := mkProcessTask {
  pt_id : string; pt_payload : string; pt_attempt : N; pt_max_retries : N
}.
Record TaskCompleted := mkTaskCompleted { tc_id : string; tc_result : string }.
Record TaskFailed := mkTaskFailed {
  tf_id : string; tf_payload : string; tf_error : string; tf_attempt : N; tf_max_retries : N
}.
Record DeadTask := mkDeadTask {
  dead_id : string; dead_payload : string; dead_error : string; dead_attempts : N
}.
Inductive MetricEvent := Submitted | Completed | Retried | DeadLettered.
Record MetricsSnapshot := mkTaskSnapshot {
  submitted : N; completed : N; retried : N; dead_lettered : N
}.

(** What each actor can be told; [SetPool] hands over the pool. *)
Inductive DispatcherMsg :=
  | MSetPool (p : PoolRef nat)
  | MSubmit (t : SubmitTask)
  | MCompleted (t : TaskCompleted)
  | MFailed (t : TaskFailed).
Inductive MetricsMsg := RecordMetric (e : MetricEvent) | GetMetrics | PrintMetrics.
Inductive CollectorMsg := MDead (t : DeadTask) | GetDeadCount.

(** ** The work *)
(** [str::strip_prefix]. *)
Definition strip_prefix (pre s : string) : option string :=
  if starts_with pre s
  then Some (String.substring (String.length pre) (String.length s - String.length pre) s) else None.

Definition simulate_task (payload : string) (attempt : N) : result string string :=
  match strip_prefix "easy:" payload with
  | Some task => Ok ("processed-" +:+ task)
  | None =>
      match strip_prefix "hard:" payload with
      | Some task =>
          if (attempt <=? 1)%N then Err "transient error" else Ok ("recovered-" +:+ task)
      | None =>
          if starts_with "impossible:" payload then Err "permanent failure"
          else Ok ("done-" +:+ payload)
      end
  end.

(** ** The mailboxes
    [C] and [U] are the channels of tokio. *)
Section queue.
Context {C U : Type → Type}.
Context `{HS : ∀ X, Sender (option X) (C X)} `{HR : ∀ X, Receiver (option X) (C X)}.
Context `{HU : ∀ X, UnboundedChannel (option X) (U X)}.
Context (p : profile).
Abbreviation Box X := (MailboxSender (C := C X) (U := U X)).

(** With the cells of the atomics and the log that the workers' interceptors
    share. *)
Record Mailboxes := mkMailboxes {
  cells : gmap N N;
  dispatcher_box : Box DispatcherMsg;
  worker_boxes : list (Box ProcessTask);
  collector_box : Box CollectorMsg;
  metrics_box : Box MetricsMsg;
  interceptor_log : list string
}.
Definition set_dispatcher_box (b : Box DispatcherMsg) (w : Mailboxes) : Mailboxes :=
  mkMailboxes (cells w) b (worker_boxes w) (collector_box w) (metrics_box w) (interceptor_log w).
Definition set_worker_boxes (bs : list (Box ProcessTask)) (w : Mailboxes) : Mailboxes :=
  mkMailboxes (cells w) (dispatcher_box w) bs (collector_box w) (metrics_box w) (interceptor_log w).
Definition set_collector_box (b : Box CollectorMsg) (w : Mailboxes) : Mailboxes :=
  mkMailboxes (cells w) (dispatcher_box w) (worker_boxes w) b (metrics_box w) (interceptor_log w).
Definition set_metrics_box (b : Box MetricsMsg) (w : Mailboxes) : Mailboxes :=
  mkMailboxes (cells w) (dispatcher_box w) (worker_boxes w) (collector_box w) b (interceptor_log w).
Definition push_log (entry : string) (w : Mailboxes) : Mailboxes :=
  mkMailboxes (cells w) (dispatcher_box w) (worker_boxes w) (collector_box w) (metrics_box w)
    (interceptor_log w ++ [entry]).

#[export] Instance Mailboxes_atomics : Atomics Mailboxes.
Proof.
  refine (Build_Atomics _ (λ a w, default 0%N (cells w !! a))
    (λ a v w, mkMailboxes (<[a := v]> (cells w)) (dispatcher_box w) (worker_boxes w) (collector_box w)
                (metrics_box w) (interceptor_log w)) _).
  intros. simpl. by rewrite lookup_insert_eq.
Defined.

(** [TestActorRef::tell]. *)
Definition box_tell {X} (m : X) (b : Box X) : result ActorSendError () * Box X :=
  MailboxSender_send unbounded_send (Some m) b.
Definition tell_dispatcher (m : DispatcherMsg) : RT Mailboxes (result ActorSendError ()) := λ w,
  let '(r, b) := box_tell m (dispatcher_box w) in Some (r, set_dispatcher_box b w).
Definition tell_collector (m : CollectorMsg) : RT Mailboxes (result ActorSendError ()) := λ w,
  let '(r, b) := box_tell m (collector_box w) in Some (r, set_collector_box b w).
Definition tell_metrics (m : MetricsMsg) : RT Mailboxes (result ActorSendError ()) := λ w,
  let '(r, b) := box_tell m (metrics_box w) in Some (r, set_metrics_box b w).
Definition tell_worker (m : ProcessTask) (i : nat) : RT Mailboxes (result ActorSendError ()) := λ w,
  match worker_boxes w !! i with
  | Some b => let '(r, b) := box_tell m b in Some (r, set_worker_boxes (<[i := b]> (worker_boxes w)) w)
  | None => None
  end.

(** A worker's reference is its number. The pool does nothing with its workers
    but tell them. *)
#[export] Instance Worker_ref : ActorRef nat Mailboxes ProcessTask () () := {|
  ar_id i := mkActorId (mkNodeId "test-node") (N.of_nat i);
  ar_name i := "worker-" +:+ pretty i;
  ar_is_alive _ := panic; ar_pending _ := panic; ar_stop _ := panic;
  ar_tell := tell_worker;
  ar_ask _ _ _ := panic; ar_expand _ _ _ _ _ := panic;
  ar_reduce _ _ _ _ _ := panic; ar_transform _ _ _ _ _ := panic
|}.

(** ** MetricsActor *)
Definition MetricsActor_create : MetricsSnapshot := mkTaskSnapshot 0 0 0 0.
Definition MetricsActor_record (e : MetricEvent) (m : MetricsSnapshot) : option MetricsSnapshot :=
  match e with
  | Submitted => n ← add64 p (submitted m) 1;
      Some (mkTaskSnapshot n (completed m) (retried m) (dead_lettered m))
  | Completed => n ← add64 p (completed m) 1;
      Some (mkTaskSnapshot (submitted m) n (retried m) (dead_lettered m))
  | Retried => n ← add64 p (retried m) 1;
      Some (mkTaskSnapshot (submitted m) (completed m) n (dead_lettered m))
  | DeadLettered => n ← add64 p (dead_lettered m) 1;
      Some (mkTaskSnapshot (submitted m) (completed m) (retried m) n)
  end.
(** What is printed as in-flight. *)
Definition MetricsActor_in_flight (m : MetricsSnapshot) : option N :=
  total ← add64 p (completed m) (dead_lettered m); Some (submitted m - total)%N.
Definition MetricsActor_handle (msg : MetricsMsg) (m : MetricsSnapshot) :
    option (MetricsSnapshot * option MetricsSnapshot) :=
  match msg with
  | RecordMetric e => m ← MetricsActor_record e m; Some (m, None)
  | GetMetrics => Some (m, Some m)
  | PrintMetrics => _ ← MetricsActor_in_flight m; Some (m, None)
  end.

(** ** DeadLetterCollector *)
Definition collected_entry (t : DeadTask) : string * string * N :=
  (dead_id t, dead_error t, dead_attempts t).
Definition Collector_handle (msg : CollectorMsg) (c : list (string * string * N)) :
    list (string * string * N) * option nat :=
  match msg with
  | MDead t => (c ++ [collected_entry t], None)
  | GetDeadCount => (c, Some (length c))
  end.

(** ** Dispatcher *)
Record Dispatcher := mkDispatcher { pool : option (PoolRef nat) }.

Definition first_attempt (t : SubmitTask) : ProcessTask :=
  mkProcessTask (st_id t) (st_payload t) 1 (st_max_retries t).
Definition retry_with (t : TaskFailed) (attempt : N) : ProcessTask :=
  mkProcessTask (tf_id t) (tf_payload t) attempt (tf_max_retries t).
Definition dead_task (t : TaskFailed) : DeadTask :=
  mkDeadTask (tf_id t) (tf_payload t) (tf_error t) (tf_attempt t).

(** [if let Some(pool) = &self.pool { let _ = pool.tell(..); }]. *)
Definition to_pool (d : Dispatcher) (t : ProcessTask) : RT Mailboxes () :=
  match pool d with
  | Some pool => _ ← PoolRef_tell t pool; mret ()
  | None => mret ()
  end.
Definition Dispatcher_handle (msg : DispatcherMsg) (d : Dispatcher) : RT Mailboxes Dispatcher :=
  match msg with
  | MSetPool pool => mret (mkDispatcher (Some pool))
  | MSubmit t =>
      _ ← tell_metrics (RecordMetric Submitted);
      _ ← to_pool d (first_attempt t); mret d
  | MCompleted t => _ ← tell_metrics (RecordMetric Completed); mret d
  | MFailed t =>
      attempts ← unwrap (add32 p (tf_max_retries t) 1);
      if (tf_attempt t <? attempts)%N then
        next ← unwrap (add32 p (tf_attempt t) 1);
        _ ← tell_metrics (RecordMetric Retried);
        _ ← to_pool d (retry_with t next); mret d
      else
        _ ← tell_metrics (RecordMetric DeadLettered);
        _ ← tell_collector (MDead (dead_task t)); mret d
  end.

(** ** Worker
    [working] is the message whose handler is in its sleep. *)
Record Worker := mkWorker { worker_id : nat; processed : N; working : option ProcessTask }.

(** [WorkerLoggingInterceptor]: the entries of [on_receive] and [on_complete]. *)
Definition worker_name (w : Worker) : string := "worker-" +:+ pretty (worker_id w).
Definition received_entry (w : Worker) : string :=
  "[" +:+ worker_name w +:+ "] ← task_queue::ProcessTask".
Definition completed_entry (w : Worker) (ok : bool) : string :=
  "[" +:+ worker_name w +:+ "] → task_queue::ProcessTask (" +:+ (if ok then "ok" else "err") +:+ ")".

(** The handler up to its sleep: it prints [max_retries + 1]. *)
Definition Worker_take (t : ProcessTask) (wk : Worker) (w : Mailboxes) : Worker * Mailboxes :=
  let w := push_log (received_entry wk) w in
  match add32 p (pt_max_retries t) 1 with
  | Some _ => (mkWorker (worker_id wk) (processed wk) (Some t), w)
  | None => (wk, push_log (completed_entry wk false) w)
  end.
(** And from its sleep on. *)
Definition Worker_finish (t : ProcessTask) (wk : Worker) : RT Mailboxes N :=
  match simulate_task (pt_payload t) (pt_attempt t) with
  | Ok result =>
      n ← unwrap (add32 p (processed wk) 1);
      _ ← tell_dispatcher (MCompleted (mkTaskCompleted (pt_id t) result)); mret n
  | Err error =>
      _ ← tell_dispatcher (MFailed (mkTaskFailed (pt_id t) (pt_payload t) error (pt_attempt t)
            (pt_max_retries t)));
      mret (processed wk)
  end.

(** ** The system
    [main] has still to submit these tasks, and the timer to tick that often
    before its token is set. An actor that has ended is [None], and so is a
    [main] that has panicked. [lost] are the tasks that were handed on and did
    not reach a worker's mailbox. *)
Record Queue := mkQueue {
  boxes : Mailboxes;
  main : option (list SubmitTask);
  ticks : nat;
  dispatcher : option Dispatcher;
  workers : list Worker;
  collector : option (list (string * string * N));
  metrics : option MetricsSnapshot;
  lost : list ProcessTask
}.

(** What [main] and the timer do. *)
Definition main_step (s : Queue) : option Queue :=
  match main s with
  | Some (t :: rest) =>
      '(r, w) ← tell_dispatcher (MSubmit t) (boxes s);
      Some (mkQueue w (match r with Ok _ => Some rest | Err _ => None end) (ticks s) (dispatcher s)
              (workers s) (collector s) (metrics s) (lost s))
  | _ => None
  end.
Definition tick_step (s : Queue) : option Queue :=
  match ticks s with
  | S n =>
      '(r, w) ← tell_metrics PrintMetrics (boxes s);
      Some (mkQueue w (main s) (match r with Ok _ => n | Err _ => 0 end) (dispatcher s) (workers s)
              (collector s) (metrics s) (lost s))
  | 0 => None
  end.

(** The task a message makes the dispatcher hand on, and whether it arrived. *)
Definition handed_on (msg : DispatcherMsg) : option ProcessTask :=
  match msg with
  | MSubmit t => Some (first_attempt t)
  | MFailed t =>
      if (tf_attempt t <? tf_max_retries t + 1)%N then Some (retry_with t (tf_attempt t + 1)) else None
  | _ => None
  end.
Definition in_workers (w : Mailboxes) : nat :=
  sum_list_with (λ b, length (box_waiting b)) (worker_boxes w).
Definition lost_in (msg : DispatcherMsg) (w w' : Mailboxes) : list ProcessTask :=
  match handed_on msg with
  | Some t => if in_workers w' =? in_workers w then [t] else []
  | None => []
  end.

Definition dispatcher_step (s : Queue) : option Queue :=
  d ← dispatcher s;
  let '(x, b) := MailboxReceiver_recv (dispatcher_box (boxes s)) in
  match x with
  | Some (Some msg) =>
      let w := set_dispatcher_box b (boxes s) in
      Some match Dispatcher_handle msg d w with
           | Some (d, w') =>
               mkQueue w' (main s) (ticks s) (Some d) (workers s) (collector s) (metrics s)
                 (lost s ++ lost_in msg w w')
           | None =>
               mkQueue (set_dispatcher_box (receiver_dropped b) w) (main s) (ticks s) None (workers s)
                 (collector s) (metrics s) (lost s)
           end
  | _ => None
  end.
Definition collector_step (s : Queue) : option Queue :=
  c ← collector s;
  let '(x, b) := MailboxReceiver_recv (collector_box (boxes s)) in
  match x with
  | Some (Some msg) =>
      Some (mkQueue (set_collector_box b (boxes s)) (main s) (ticks s) (dispatcher s) (workers s)
              (Some (Collector_handle msg c).1) (metrics s) (lost s))
  | _ => None
  end.
Definition metrics_step (s : Queue) : option Queue :=
  m ← metrics s;
  let '(x, b) := MailboxReceiver_recv (metrics_box (boxes s)) in
  match x with
  | Some (Some msg) =>
      let w := set_metrics_box b (boxes s) in
      Some match MetricsActor_handle msg m with
           | Some (m, _) =>
               mkQueue w (main s) (ticks s) (dispatcher s) (workers s) (collector s) (Some m) (lost s)
           | None =>
               mkQueue (set_metrics_box (receiver_dropped b) w) (main s) (ticks s) (dispatcher s)
                 (workers s) (collector s) None (lost s)
           end
  | _ => None
  end.

Definition with_worker (i : nat) (wk : Worker) (w : Mailboxes) (s : Queue) : Queue :=
  mkQueue w (main s) (ticks s) (dispatcher s) (<[i := wk]> (workers s)) (collector s) (metrics s) (lost s).
Definition take_step (i : nat) (s : Queue) : option Queue :=
  wk ← workers s !! i;
  b ← worker_boxes (boxes s) !! i;
  match working wk, MailboxReceiver_recv b with
  | None, (Some (Some t), b) =>
      let '(wk, w) := Worker_take t wk (set_worker_boxes (<[i := b]> (worker_boxes (boxes s))) (boxes s)) in
      Some (with_worker i wk w s)
  | _, _ => None
  end.
Definition finish_step (i : nat) (s : Queue) : option Queue :=
  wk ← workers s !! i;
  t ← working wk;
  Some match Worker_finish t wk (boxes s) with
       | Some (n, w) =>
           with_worker i (mkWorker (worker_id wk) n None) (push_log (completed_entry wk true) w) s
       | None =>
           with_worker i (mkWorker (worker_id wk) (processed wk) None)
             (push_log (completed_entry wk false) (boxes s)) s
       end.

Inductive Event := EMain | ETick | EDispatcher | ECollector | EMetrics | ETake (i : nat) | EFinish (i : nat).
Definition queue_step (e : Event) : Queue → option Queue :=
  match e with
  | EMain => main_step
  | ETick => tick_step
  | EDispatcher => dispatcher_step
  | ECollector => collector_step
  | EMetrics => metrics_step
  | ETake i => take_step i
  | EFinish i => finish_step i
  end.
Fixpoint queue_run (es : list Event) (s : Queue) : option Queue :=
  match es with [] => Some s | e :: es => s ← queue_step e s; queue_run es s end.

(** [main] up to its loop: the workers are spawned, the dispatcher gets the pool
    ([NEXT_POOL_ID] is the cell 0, the pool's counter the cell 1). *)
Definition queue_start (w : Mailboxes) (ts : list SubmitTask) (ticks : nat) : option Queue :=
  '(pool, w) ← PoolRef_new 0 1 (seq 0 (length (worker_boxes w))) RoundRobin w;
  '(r, w) ← tell_dispatcher (MSetPool pool) w;
  match r with
  | Ok _ =>
      Some (mkQueue w (Some ts) ticks (Some (mkDispatcher None))
        (imap (λ i _, mkWorker i 0 None) (worker_boxes w)) (Some []) (Some MetricsActor_create) [])
  | Err _ => None
  end.
End queue.

(** The tasks of the example. *)
Definition tasks : list SubmitTask := [
  mkSubmitTask "task-01" "easy:send-email" High 2;
  mkSubmitTask "task-02" "easy:resize-image" Normal 2;
  mkSubmitTask "task-03" "easy:generate-report" Low 2;
  mkSubmitTask "task-04" "easy:send-notification" Normal 2;
  mkSubmitTask "task-05" "easy:update-cache" High 2;
  mkSubmitTask "task-06" "easy:sync-data" Normal 2;
  mkSubmitTask "task-07" "easy:log-analytics" Low 2;
  mkSubmitTask "task-08" "easy:compress-file" Normal 2;
  mkSubmitTask "task-09" "easy:validate-input" High 2;
  mkSubmitTask "task-10" "easy:render-template" Normal 2;
  mkSubmitTask "task-11" "hard:process-payment" High 3;
  mkSubmitTask "task-12" "hard:upload-file" Normal 3;
  mkSubmitTask "task-13" "hard:call-api" Normal 3;
  mkSubmitTask "task-14" "hard:index-document" Low 3;
  mkSubmitTask "task-15" "hard:transform-data" High 3;
  mkSubmitTask "task-16" "impossible:bad-endpoint" Normal 2;
  mkSubmitTask "task-17" "impossible:corrupt-data" High 2;
  mkSubmitTask "task-18" "impossible:missing-resource" Normal 1;
  mkSubmitTask "task-19" "impossible:auth-expired" Low 2;
  mkSubmitTask "task-20" "impossible:quota-exceeded" Normal 1].

(** ** What becomes of a task
    The retries it takes, and how it ends: done, or dead with its last error. *)
Inductive Fate := Done (retries : nat) | Died (retries : nat) (error : string) (attempts : N).
Fixpoint fate_from (n : nat) (payload : string) (attempt : N) (retries : nat) : Fate :=
  match simulate_task payload attempt with
  | Ok _ => Done retries
  | Err error =>
      match n with
      | S n => fate_from n payload (attempt + 1) (S retries)
      | 0 => Died retries error attempt
      end
  end.
Definition fate (t : SubmitTask) : Fate := fate_from (N.to_nat (st_max_retries t)) (st_payload t) 1 0.
Definition fate_retries (f : Fate) : nat := match f with Done n | Died n _ _ => n end.
Definition is_done (t : SubmitTask) : bool := match fate t with Done _ => true | _ => false end.
Definition dead_entry (t : SubmitTask) : option (string * string * N) :=
  match fate t with Died _ error attempts => Some (st_id t, error, attempts) | _ => None end.
(** The report when all is done. *)
Definition report (ts : list SubmitTask) : MetricsSnapshot :=
  mkTaskSnapshot (len_N ts) (len_N (retain is_done ts))
    (N.of_nat (sum_list_with (λ t, fate_retries (fate t)) ts))
    (len_N (omap dead_entry ts)).

(** ** Weights
    What a task, or a message on its way, will still cause: [tick] for every
    step, [counted] for every count of the metrics, [letter] for every entry of
    the collector. The total over all places is the measure of the proofs: a step
    takes [tick] of it, whatever the weights. *)
Section weights.
Context (tick : nat) (counted : MetricEvent → nat) (letter : string * string * N → nat).

Definition w_metric (e : MetricEvent) : nat := tick + counted e.
Definition w_metrics_msg (m : MetricsMsg) : nat :=
  match m with RecordMetric e => w_metric e | _ => tick end.
Definition w_dead (t : DeadTask) : nat := tick + letter (collected_entry t).
Definition w_collector_msg (m : CollectorMsg) : nat :=
  match m with MDead t => w_dead t | GetDeadCount => tick end.
Definition w_completed : nat := tick + w_metric Completed.
(** [n] attempts are left behind this one. *)
Fixpoint w_attempts (n : nat) (t : ProcessTask) : nat :=
  tick + tick +
  match simulate_task (pt_payload t) (pt_attempt t) with
  | Ok _ => w_completed
  | Err error =>
      tick +
      match n with
      | S n => w_metric Retried
          + w_attempts n (mkProcessTask (pt_id t) (pt_payload t) (pt_attempt t + 1) (pt_max_retries t))
      | 0 => w_metric DeadLettered + w_dead (mkDeadTask (pt_id t) (pt_payload t) error (pt_attempt t))
      end
  end.
Definition w_process (t : ProcessTask) : nat :=
  w_attempts (N.to_nat (pt_max_retries t + 1 - pt_attempt t)) t.
Definition w_failed (t : TaskFailed) : nat :=
  tick + if (tf_attempt t <? tf_max_retries t + 1)%N
         then w_metric Retried + w_process (retry_with t (tf_attempt t + 1))
         else w_metric DeadLettered + w_dead (dead_task t).
Definition w_working (t : ProcessTask) : nat :=
  tick + match simulate_task (pt_payload t) (pt_attempt t) with
         | Ok _ => w_completed
         | Err error => w_failed (mkTaskFailed (pt_id t) (pt_payload t) error (pt_attempt t) (pt_max_retries t))
         end.
Definition w_submit (t : SubmitTask) : nat := tick + w_metric Submitted + w_process (first_attempt t).
Definition w_dispatcher_msg (m : DispatcherMsg) : nat :=
  match m with
  | MSetPool _ => tick
  | MSubmit t => w_submit t
  | MCompleted _ => w_completed
  | MFailed t => w_failed t
  end.
Definition w_main (t : SubmitTask) : nat := tick + w_submit t.
Definition w_counts (m : MetricsSnapshot) : nat :=
  N.to_nat (submitted m) * counted Submitted + N.to_nat (completed m) * counted Completed
  + N.to_nat (retried m) * counted Retried + N.to_nat (dead_lettered m) * counted DeadLettered.

Lemma w_process_working t :
  (pt_attempt t <= pt_max_retries t + 1)%N → w_process t = tick + w_working t.
Proof.
  intros Ht. unfold w_process, w_working, w_failed.
  destruct (N.to_nat (pt_max_retries t + 1 - pt_attempt t)) as [|n] eqn:Hn; cbn [w_attempts tf_attempt tf_max_retries];
    destruct (simulate_task _ _) as [r|error]; try lia.
  - assert ((pt_attempt t <? pt_max_retries t + 1)%N = false) as -> by (apply N.ltb_ge; lia).
    unfold dead_task. cbn [tf_id tf_payload tf_error tf_attempt]. lia.
  - assert ((pt_attempt t <? pt_max_retries t + 1)%N = true) as -> by (apply N.ltb_lt; lia).
    unfold w_process, retry_with. cbn [pt_max_retries pt_attempt tf_id tf_payload tf_max_retries].
    replace (N.to_nat (pt_max_retries t + 1 - (pt_attempt t + 1))) with n by lia. lia.
Qed.
Lemma w_counts_record p e m m' :
  MetricsActor_record p e m = Some m' →
  (submitted m < u32_max)%N → (completed m < u32_max)%N → (retried m < u32_max)%N →
  (dead_lettered m < u32_max)%N → w_counts m' = counted e + w_counts m.
Proof.
  unfold MetricsActor_record, add64, u32_max. intros Hr ????.
  destruct e; rewrite checked64_small in Hr by (unfold u64_max; lia); injection Hr as <-;
    unfold w_counts; cbn [submitted completed retried dead_lettered]; rewrite N2Nat.inj_add; lia.
Qed.
End weights.

(** ** Mailboxes that stay open *)
Section boxes.
Context {C U : Type → Type}.
Context `{HS : ∀ X, Sender (option X) (C X)} `{HR : ∀ X, Receiver (option X) (C X)}.
Context `{HU : ∀ X, UnboundedChannel (option X) (U X)}.
Context `{HSL : ∀ X, SenderLaws (option X) (C X)} `{HRL : ∀ X, ReceiverLaws (option X) (C X)}.
Context `{HUL : ∀ X, UnboundedLaws (option X) (U X)}.
Abbreviation Box X := (MailboxSender (C := C X) (U := U X)).

Definition holds {X} (P : X → Prop) (x : option X) : Prop := ∃ m, x = Some m ∧ P m.
(** Open, with good messages only. *)
Definition open_box {X} (P : X → Prop) (b : Box X) : Prop :=
  box_closed b = false ∧ Forall (holds P) (box_waiting b).
Definition weigh {X} (f : X → nat) (x : option X) : nat := match x with Some m => f m | None => 0 end.
Definition w_box {X} (f : X → nat) (b : Box X) : nat := sum_list_with (weigh f) (box_waiting b).

Lemma open_box_snoc {X} (P : X → Prop) m (b b' : Box X) :
  open_box P b → P m → box_waiting b' = box_waiting b ++ [Some m] → box_closed b' = false →
  open_box P b' ∧ ∀ f, w_box f b' = f m + w_box f b.
Proof.
  intros [_ Hall] Hm Hw Hc. split.
  - split; [done|]. rewrite Hw. apply Forall_app. split; [done|]. constructor; [by exists m|done].
  - intros f. unfold w_box. rewrite Hw, sum_list_with_app. simpl. lia.
Qed.
Lemma box_tell_unbounded {X} (P : X → Prop) m (b : Box X) :
  open_box P b → is_bounded b = false → P m →
  ∃ b', box_tell m b = (Ok (), b') ∧ open_box P b' ∧ is_bounded b' = false
    ∧ ∀ f, w_box f b' = f m + w_box f b.
Proof.
  intros Hb Hk Hm. pose proof (MailboxSender_send_cases (Some m) b) as Hs. unfold box_tell.
  destruct (MailboxSender_send _ _ b) as [r b']. pose proof Hb as [Hc _]. rewrite Hc in Hs.
  destruct Hs as [(-> & Hw & Hc' & Hk')|(_ & o & Hfull & _)].
  - exists b'. split; [done|]. destruct (open_box_snoc P m b b' Hb Hm Hw Hc') as [??].
    split_and!; [done|congruence|done].
  - apply full_bounded in Hfull. congruence.
Qed.
(** Into any mailbox: it arrives, or nothing happens. *)
Lemma box_tell_any {X} (P : X → Prop) m (b : Box X) :
  open_box P b → P m →
  let '(_, b') := box_tell m b in
  open_box P b'
  ∧ ((length (box_waiting b') = S (length (box_waiting b)) ∧ ∀ f, w_box f b' = f m + w_box f b)
     ∨ b' = b ∧ ∃ o, full_mailbox b o).
Proof.
  intros Hb Hm. pose proof (MailboxSender_send_cases (Some m) b) as Hs. unfold box_tell.
  destruct (MailboxSender_send _ _ b) as [r b']. pose proof Hb as [Hc _]. rewrite Hc in Hs.
  destruct Hs as [(-> & Hw & Hc' & Hk')|(-> & o & Hfull & _)]; [|split; [done|right; eauto]].
  destruct (open_box_snoc P m b b' Hb Hm Hw Hc') as [??]. split; [done|]. left.
  split; [|done]. rewrite Hw, length_app. simpl. lia.
Qed.
Lemma box_recv {X} (P : X → Prop) (b b' : Box X) x :
  open_box P b → MailboxReceiver_recv b = (Some x, b') →
  ∃ m, x = Some m ∧ P m ∧ open_box P b' ∧ is_bounded b' = is_bounded b
    ∧ length (box_waiting b) = S (length (box_waiting b')) ∧ ∀ f, w_box f b = f m + w_box f b'.
Proof.
  intros [Hc Hall] Hr. pose proof (MailboxReceiver_recv_waiting b) as Hw.
  unfold w_box. destruct (box_waiting b) as [|y q] eqn:Hb; [by rewrite Hr in Hw|].
  destruct Hw as (b1 & Hr' & Hq & Hc' & Hk). rewrite Hr in Hr'. injection Hr' as -> <-.
  apply Forall_cons in Hall as [(m & -> & Hm) Hall]. exists m. rewrite Hq.
  split_and!; try done. split; [congruence|by rewrite Hq].
Qed.
Lemma box_recv_empty {X} (b b' : Box X) :
  MailboxReceiver_recv b = (None, b') → box_waiting b = [].
Proof.
  intros Hr. pose proof (MailboxReceiver_recv_waiting b) as Hw.
  destruct (box_waiting b) as [|y q]; [done|]. destruct Hw as (? & Hr' & _). congruence.
Qed.
End boxes.

(** ** The invariant *)
Section system.
Context {C U : Type → Type}.
Context `{HS : ∀ X, Sender (option X) (C X)} `{HR : ∀ X, Receiver (option X) (C X)}.
Context `{HU : ∀ X, UnboundedChannel (option X) (U X)}.
Context `{HSL : ∀ X, SenderLaws (option X) (C X)} `{HRL : ∀ X, ReceiverLaws (option X) (C X)}.
Context `{HUL : ∀ X, UnboundedLaws (option X) (U X)}.
Context (p : profile) (n : nat).
Abbreviation Boxes := (Mailboxes (C := C) (U := U)).
Abbreviation System := (Queue (C := C) (U := U)).
Implicit Types (w : Boxes) (s : System).

Definition attempts_ok (attempt max_retries : N) : Prop :=
  (attempt <= max_retries + 1)%N ∧ (max_retries < u32_max)%N.
Definition wf_process (t : ProcessTask) : Prop := attempts_ok (pt_attempt t) (pt_max_retries t).
Definition wf_submit (t : SubmitTask) : Prop := (st_max_retries t < u32_max)%N.
Definition good_pool (q : PoolRef nat) : Prop :=
  Pool.workers q ≠ [] ∧ routing q = RoundRobin ∧ Forall (λ i, i < n) (Pool.workers q).
Definition wf_dispatcher_msg (m : DispatcherMsg) : Prop :=
  match m with
  | MSetPool q => good_pool q
  | MSubmit t => wf_submit t
  | MCompleted _ => True
  | MFailed t => attempts_ok (tf_attempt t) (tf_max_retries t)
  end.
Definition unbounded_open {X} (P : X → Prop) (b : MailboxSender (C := C X) (U := U X)) : Prop :=
  open_box P b ∧ is_bounded b = false.

(** The mailboxes of [n] workers and the other actors, all alive. *)
Record boxes_wf w : Prop := {
  bw_length : length (worker_boxes w) = n;
  bw_dispatcher : unbounded_open wf_dispatcher_msg (dispatcher_box w);
  bw_workers : Forall (open_box wf_process) (worker_boxes w);
  bw_collector : unbounded_open (λ _, True) (collector_box w);
  bw_metrics : unbounded_open (λ _, True) (metrics_box w)
}.
Section total.
Context (tick : nat) (counted : MetricEvent → nat) (letter : string * string * N → nat).
Definition w_boxes w : nat :=
  w_box (w_dispatcher_msg tick counted letter) (dispatcher_box w)
  + sum_list_with (w_box (w_process tick counted letter)) (worker_boxes w)
  + w_box (w_collector_msg tick letter) (collector_box w) + w_box (w_metrics_msg tick counted) (metrics_box w).
Definition w_worker (wk : Worker) : nat := from_option (w_working tick counted letter) 0 (working wk).
Definition total s : nat :=
  from_option (sum_list_with (w_main tick counted letter)) 0 (main s) + ticks s * (tick + tick)
  + w_boxes (boxes s) + sum_list_with w_worker (workers s)
  + from_option (sum_list_with letter) 0 (collector s) + from_option (w_counts counted) 0 (metrics s)
  + sum_list_with (w_process tick counted letter) (lost s).
End total.

(** A world in which a message of the given weight has been sent. *)
Definition sent_to (weight : nat → (MetricEvent → nat) → (string * string * N → nat) → nat) w w' : Prop :=
  boxes_wf w' ∧ in_workers w' = in_workers w
  ∧ is_bounded <$> worker_boxes w' = is_bounded <$> worker_boxes w
  ∧ ∀ tick counted letter, w_boxes tick counted letter w' = weight tick counted letter + w_boxes tick counted letter w.

Lemma tell_dispatcher_ok m w : boxes_wf w → wf_dispatcher_msg m →
  ∃ w', tell_dispatcher m w = Some (Ok (), w')
    ∧ box_waiting (dispatcher_box w') = box_waiting (dispatcher_box w) ++ [Some m]
    ∧ sent_to (λ t c l, w_dispatcher_msg t c l m) w w'.
Proof.
  intros [Hn [Hd Hk] Hw Hc Hm] Hwf.
  pose proof (MailboxSender_send_cases (Some m) (dispatcher_box w)) as Hs. pose proof Hd as [Hopen _].
  rewrite Hopen in Hs. unfold tell_dispatcher, box_tell.
  destruct (MailboxSender_send _ _ (dispatcher_box w)) as [r b'].
  destruct Hs as [(-> & Hq & Hc' & Hk')|(_ & o & Hfull & _)]; [|apply full_bounded in Hfull; congruence].
  destruct (open_box_snoc _ m _ b' Hd Hwf Hq Hc') as [Hb Hf].
  eexists. split; [done|]. split; [done|]. split_and!; [|done|done|].
  - split; try done. split; [done|simpl; congruence].
  - intros. unfold w_boxes. cbn [dispatcher_box worker_boxes collector_box metrics_box set_dispatcher_box].
    rewrite Hf. lia.
Qed.
Lemma tell_collector_ok m w : boxes_wf w →
  ∃ w', tell_collector m w = Some (Ok (), w') ∧ dispatcher_box w' = dispatcher_box w
    ∧ sent_to (λ t c l, w_collector_msg t l m) w w'.
Proof.
  intros [Hn Hd Hw [Hc Hk] Hm]. destruct (box_tell_unbounded _ m _ Hc Hk I) as (b' & Ht & Hb & Hk' & Hf).
  unfold tell_collector. rewrite Ht. eexists. split; [done|]. split; [done|]. split_and!; [by split|done|done|].
  - intros. unfold w_boxes. cbn [dispatcher_box worker_boxes collector_box metrics_box set_collector_box].
    rewrite Hf. lia.
Qed.
Lemma tell_metrics_ok m w : boxes_wf w →
  ∃ w', tell_metrics m w = Some (Ok (), w') ∧ dispatcher_box w' = dispatcher_box w
    ∧ sent_to (λ t c l, w_metrics_msg t c m) w w'.
Proof.
  intros [Hn Hd Hw Hc [Hm Hk]]. destruct (box_tell_unbounded _ m _ Hm Hk I) as (b' & Ht & Hb & Hk' & Hf).
  unfold tell_metrics. rewrite Ht. eexists. split; [done|]. split; [done|]. split_and!; [by split|done|done|].
  - intros. unfold w_boxes. cbn [dispatcher_box worker_boxes collector_box metrics_box set_metrics_box].
    rewrite Hf. lia.
Qed.

(** The pool's tell: one worker gets the task, or none because its mailbox is
    full. *)
Definition passed_on (d : Dispatcher) (t : ProcessTask) w w' : Prop :=
  boxes_wf w' ∧ box_waiting (dispatcher_box w') = box_waiting (dispatcher_box w)
  ∧ is_bounded <$> worker_boxes w' = is_bounded <$> worker_boxes w
  ∧ ((in_workers w' = S (in_workers w)
      ∧ ∀ tick counted letter, w_boxes tick counted letter w'
          = w_process tick counted letter t + w_boxes tick counted letter w)
     ∨ (in_workers w' = in_workers w
        ∧ (pool d = None ∨ ∃ b, b ∈ worker_boxes w ∧ is_bounded b = true)
        ∧ ∀ tick counted letter, w_boxes tick counted letter w' = w_boxes tick counted letter w)).
Lemma tell_worker_ok t i w d :
  boxes_wf w → i < n → wf_process t →
  ∃ r w', tell_worker t i w = Some (r, w') ∧ passed_on d t w w'.
Proof.
  intros [Hn Hd Hw Hc Hm] Hi Ht. unfold tell_worker.
  destruct (lookup_lt_is_Some_2 (worker_boxes w) i) as [b Hb]; [lia|]. rewrite Hb.
  pose proof (Forall_lookup_1 _ _ _ _ Hw Hb) as Hbox. pose proof (box_tell_any _ t b Hbox Ht) as Hs.
  pose proof (MailboxSender_send_cases (Some t) b) as Hcase. unfold box_tell in *.
  destruct (MailboxSender_send _ _ b) as [r b']. destruct Hs as [Hb' Hs].
  assert (is_bounded b' = is_bounded b) as Hkind.
  { destruct (box_closed b); [by destruct Hcase as [_ ->]|].
    by destruct Hcase as [(_ & _ & _ & ?)|[-> _]]. }
  eexists r, _. split; [done|]. split_and!.
  - split; try done; cbn; [by rewrite length_insert|by apply Forall_insert].
  - done.
  - cbn. rewrite list_fmap_insert, Hkind. by rewrite list_insert_id by (by rewrite list_lookup_fmap, Hb).
  - unfold in_workers, w_boxes. cbn [dispatcher_box worker_boxes collector_box metrics_box set_worker_boxes].
    pose proof (sum_list_with_insert (λ b, length (box_waiting b)) _ _ _ b' Hb) as Hlen.
    destruct Hs as [[Hl Hf]|[-> (o & Hfull)]]; [left|right].
    + split; [lia|]. intros tick counted letter.
      pose proof (sum_list_with_insert (w_box (w_process tick counted letter)) _ _ _ b' Hb) as Hsum.
      rewrite Hf in Hsum. lia.
    + rewrite list_insert_id by done. split_and!; [done| |done]. right. exists b.
      split; [by eapply list_elem_of_lookup_2|by eapply full_bounded].
Qed.
Lemma to_pool_ok d t w :
  boxes_wf w → (∀ q, pool d = Some q → good_pool q) → wf_process t →
  ∃ w', to_pool d t w = Some ((), w') ∧ passed_on d t w w'.
Proof.
  intros Hwf Hq Ht. unfold to_pool. destruct (pool d) as [q|] eqn:Hp.
  2: { exists w. split; [done|]. split_and!; try done. right. auto. }
  destruct (Hq q eq_refl) as (Hne & Hr & Hall).
  unfold PoolRef_tell, select_worker. rewrite Hr. unfold round_robin_index, fetch_add.
  unfold mbind, RT_bind. cbn [mret RT_ret].
  destruct (lookup_mod (Pool.workers q) (atomic_load (counter q) w) Hne) as (i & Hi & Hin).
  rewrite Forall_forall in Hall. rewrite Hi. cbn [unwrap mret RT_ret].
  set (w1 := atomic_store _ _ w). assert (boxes_wf w1) as Hwf1 by (by destruct Hwf; split).
  destruct (tell_worker_ok t i w1 d Hwf1 (Hall i Hin) Ht) as (r & w' & He & Hp').
  cbn [ar_tell Worker_ref]. rewrite He. exists w'. split; [done|]. exact Hp'.
Qed.

Definition good_dispatcher (d : Dispatcher) : Prop := ∀ q, pool d = Some q → good_pool q.
Definition has_pool (d : Dispatcher) : Prop := pool d ≠ None.
Definition workers_unbounded w : Prop := Forall (λ b, is_bounded b = false) (worker_boxes w).

(** What was handed on is in a worker's mailbox or among the lost. *)
Lemma handed_ok d m t w w1 w' :
  in_workers w1 = in_workers w → handed_on m = Some t → passed_on d t w1 w' →
  (∀ tick counted letter,
     w_boxes tick counted letter w' + sum_list_with (w_process tick counted letter) (lost_in m w w')
     = w_process tick counted letter t + w_boxes tick counted letter w1)
  ∧ (workers_unbounded w1 → has_pool d → lost_in m w w' = []).
Proof.
  intros Hsame Hm (_ & _ & _ & Hcase). unfold lost_in. rewrite Hm, <-Hsame.
  destruct Hcase as [[-> Hf]|(-> & Hwhy & Hf)].
  - rewrite (proj2 (Nat.eqb_neq _ _)) by lia. split; [|done]. intros. simpl. rewrite Hf. lia.
  - rewrite Nat.eqb_refl. split; [intros; simpl; rewrite Hf; lia|]. intros Hu Hd.
    destruct Hwhy as [?|(b & Hb & Hk)]; [by destruct Hd|]. unfold workers_unbounded in Hu.
    rewrite Forall_forall in Hu. rewrite (Hu b Hb) in Hk. done.
Qed.
Lemma kinds_unbounded w w' :
  is_bounded <$> worker_boxes w' = is_bounded <$> worker_boxes w → workers_unbounded w → workers_unbounded w'.
Proof.
  intros Hk. unfold workers_unbounded.
  change (λ b, is_bounded b = false) with ((λ k, k = false) ∘ is_bounded (C := C ProcessTask) (U := U ProcessTask)).
  rewrite <-!Forall_fmap. by rewrite Hk.
Qed.

Definition handled_ok (m : DispatcherMsg) (d d' : Dispatcher) w w' : Prop :=
  boxes_wf w' ∧ good_dispatcher d'
  ∧ box_waiting (dispatcher_box w') = box_waiting (dispatcher_box w)
  ∧ is_bounded <$> worker_boxes w' = is_bounded <$> worker_boxes w
  ∧ (has_pool d ∨ (∃ q, m = MSetPool q) → has_pool d')
  ∧ (workers_unbounded w → has_pool d → lost_in m w w' = [])
  ∧ ∀ tick counted letter,
      w_dispatcher_msg tick counted letter m + w_boxes tick counted letter w
      = tick + w_boxes tick counted letter w'
        + sum_list_with (w_process tick counted letter) (lost_in m w w').

(** A count, and then a task for the pool. *)
Lemma count_and_pass e d m t w :
  boxes_wf w → good_dispatcher d → wf_process t → handed_on m = Some t →
  (∀ tick counted letter, w_dispatcher_msg tick counted letter m
     = tick + w_metric tick counted e + w_process tick counted letter t) →
  ∃ w', (_ ← tell_metrics (RecordMetric e); _ ← to_pool d t; mret d) w = Some (d, w')
    ∧ handled_ok m d d w w'.
Proof.
  intros Hw Hd Ht Hm Hwt. destruct (tell_metrics_ok (RecordMetric e) w Hw) as (w1 & He1 & Hsame & Hw1 & Hin & Hk & Hf).
  destruct (to_pool_ok d t w1 Hw1 Hd Ht) as (w' & He2 & Hp). exists w'.
  rewrite (RT_bind_Some _ _ _ _ _ He1), (RT_bind_Some _ _ _ _ _ He2). split; [done|].
  destruct (handed_ok d m t w w1 w' Hin Hm Hp) as [Hlaw Hlost]. destruct Hp as (Hw' & Hq' & Hk' & _).
  split_and!; [done|done|by rewrite Hq', Hsame|congruence|intros [?|[q ->]]; [done|discriminate Hm]| |].
  - intros Hu. apply Hlost. by apply (kinds_unbounded w).
  - intros. rewrite Hwt. specialize (Hlaw tick counted letter). specialize (Hf tick counted letter). simpl in Hf. lia.
Qed.

Lemma Dispatcher_handle_ok m d w :
  boxes_wf w → good_dispatcher d → wf_dispatcher_msg m →
  ∃ d' w', Dispatcher_handle p m d w = Some (d', w') ∧ handled_ok m d d' w w'.
Proof.
  intros Hw Hd Hm. destruct m as [q|t|t|t]; cbn [Dispatcher_handle].
  - eexists _, w. split; [done|]. split_and!; try done. by intros q' [= <-].
  - exists d. apply (count_and_pass Submitted); try done. unfold wf_submit in Hm. split; simpl; [lia|done].
  - destruct (tell_metrics_ok (RecordMetric Completed) w Hw) as (w1 & He1 & Hsame & Hw1 & Hin & Hk & Hf).
    exists d, w1. rewrite (RT_bind_Some _ _ _ _ _ He1). split; [done|].
    split_and!; [done|done|by rewrite Hsame|done|intros [?|[q ?]]; done|done|].
    intros. specialize (Hf tick counted letter). cbn [w_dispatcher_msg w_metrics_msg] in *.
    unfold w_completed, lost_in. cbn [handed_on sum_list_with]. lia.
  - destruct Hm as [Hle Hmax]. unfold u32_max in Hmax. unfold add32.
    rewrite (checked32_small p (tf_max_retries t + 1)) by (unfold u32_max; lia).
    cbn [unwrap]. rewrite RT_bind_ret.
    destruct (tf_attempt t <? tf_max_retries t + 1)%N eqn:Hlt; bN.
    + rewrite checked32_small by (unfold u32_max; lia). cbn [unwrap]. rewrite RT_bind_ret. exists d.
      apply (count_and_pass Retried); [done|done| | |].
      * split; simpl; [lia|unfold u32_max; lia].
      * cbn [handed_on]. by rewrite (proj2 (N.ltb_lt _ _)).
      * intros. cbn [w_dispatcher_msg]. unfold w_failed. by rewrite (proj2 (N.ltb_lt _ _)), Nat.add_assoc by done.
    + destruct (tell_metrics_ok (RecordMetric DeadLettered) w Hw) as (w1 & He1 & Hsame1 & Hw1 & Hin1 & Hk1 & Hf1).
      destruct (tell_collector_ok (MDead (dead_task t)) w1 Hw1) as (w2 & He2 & Hsame2 & Hw2 & Hin2 & Hk2 & Hf2).
      exists d, w2. rewrite (RT_bind_Some _ _ _ _ _ He1), (RT_bind_Some _ _ _ _ _ He2). split; [done|].
      assert ((tf_attempt t <? tf_max_retries t + 1)%N = false) as Hge by by apply N.ltb_ge.
      assert (lost_in (MFailed t) w w2 = []) as Hnone by (unfold lost_in; cbn [handed_on]; by rewrite Hge).
      split_and!; [done|done|by rewrite Hsame2, Hsame1|congruence|intros [?|[q ?]]; done|done|].
      intros. rewrite Hnone. specialize (Hf1 tick counted letter). specialize (Hf2 tick counted letter).
      cbn [w_dispatcher_msg w_metrics_msg w_collector_msg] in *. unfold w_failed. rewrite Hge. simpl. lia.
Qed.

Record queue_wf s : Prop := {
  qw_boxes : boxes_wf (boxes s);
  qw_main : ∃ ts, main s = Some ts ∧ Forall wf_submit ts;
  qw_dispatcher : ∃ d, dispatcher s = Some d ∧ good_dispatcher d
    ∧ (has_pool d ∨ ∃ q rest, box_waiting (dispatcher_box (boxes s)) = Some (MSetPool q) :: rest);
  qw_collector : is_Some (collector s);
  qw_metrics : is_Some (metrics s);
  qw_working : Forall (λ wk, ∀ t, working wk = Some t → wf_process t) (workers s);
  qw_workers : length (workers s) = n
}.
(** The counters grow by one at most. *)
Definition counters s : list N :=
  (processed <$> workers s)
  ++ match metrics s with
     | Some m => [submitted m; completed m; retried m; dead_lettered m]
     | None => []
     end.
Definition grow_by_one : list N → list N → Prop := Forall2 (λ c c', (c' <= c + 1)%N).
Definition small_counters s : Prop := Forall (λ c, (c < u32_max)%N) (counters s).

Definition good_step s s' : Prop :=
  queue_wf s' ∧ grow_by_one (counters s) (counters s')
  ∧ (workers_unbounded (boxes s) → workers_unbounded (boxes s') ∧ lost s' = lost s)
  ∧ ∀ tick counted letter, total tick counted letter s = tick + total tick counted letter s'.

Lemma grow_same l : grow_by_one l l.
Proof. unfold grow_by_one. induction l; constructor; [lia|done]. Qed.
Hint Resolve grow_same : core.

Lemma main_ok s s' : queue_wf s → main_step s = Some s' → good_step s s'.
Proof.
  intros [Hb (ts & Hm & Hts) (d & Hd & Hgd & Hready) Hc Hme Hwk Hlen] Hstep. unfold main_step in Hstep.
  rewrite Hm in Hstep. destruct ts as [|t ts]; [done|]. apply Forall_cons in Hts as [Ht Hts].
  destruct (tell_dispatcher_ok (MSubmit t) _ Hb Ht) as (w' & He & Hq & Hw' & Hin & Hk & Hf).
  rewrite He in Hstep. injection Hstep as <-. split_and!.
  - split; try done; cbn [boxes main dispatcher]; [by exists ts|]. exists d. split_and!; try done.
    destruct Hready as [?|(q' & rest & Hr)]; [by left|right]. rewrite Hq, Hr. by eexists q', (rest ++ _).
  - apply grow_same.
  - cbn. split; [by eapply kinds_unbounded|done].
  - intros. unfold total. cbn [main boxes ticks workers collector metrics lost]. rewrite Hm, Hf.
    cbn [from_option sum_list_with w_dispatcher_msg]. unfold w_main. lia.
Qed.
Lemma tick_ok s s' : queue_wf s → tick_step s = Some s' → good_step s s'.
Proof.
  intros [Hb Hm (d & Hd & Hgd & Hready) Hc Hme Hwk Hlen] Hstep. unfold tick_step in Hstep.
  destruct (ticks s) as [|k] eqn:Hk; [done|].
  destruct (tell_metrics_ok PrintMetrics _ Hb) as (w' & He & Hsame & Hw' & Hin & Hkd & Hf).
  rewrite He in Hstep. injection Hstep as <-. split_and!.
  - split; try done; cbn [boxes dispatcher]. exists d. by rewrite Hsame.
  - apply grow_same.
  - cbn. split; [by eapply kinds_unbounded|done].
  - intros. unfold total. cbn [main boxes ticks workers collector metrics lost]. rewrite Hk, Hf.
    cbn [w_metrics_msg]. lia.
Qed.
Lemma collector_ok s s' : queue_wf s → collector_step s = Some s' → good_step s s'.
Proof.
  intros [Hb Hm (d & Hd & Hgd & Hready) [c Hc] Hme Hwk Hlen] Hstep. unfold collector_step in Hstep.
  rewrite Hc in Hstep. cbn in Hstep. destruct (MailboxReceiver_recv _) as [[x|] b'] eqn:Hr; [|done].
  destruct Hb as [Hn Hdb Hwb [Hcb Hck] Hmb].
  destruct (box_recv _ _ _ _ Hcb Hr) as (m & -> & _ & Hb' & Hk' & _ & Hf). injection Hstep as <-. split_and!.
  - split; try done; cbn [boxes collector]; [|by eexists]. split; try done. split; [done|cbn; congruence].
  - apply grow_same.
  - done.
  - intros. unfold total, w_boxes. cbn [main boxes ticks workers collector metrics lost
      dispatcher_box worker_boxes collector_box metrics_box set_collector_box]. rewrite Hc, Hf.
    cbn [from_option]. destruct m as [t|]; cbn [Collector_handle fst w_collector_msg]; [|lia].
    unfold w_dead. rewrite sum_list_with_app. cbn [sum_list_with]. lia.
Qed.
Lemma metrics_ok s s' : queue_wf s → small_counters s → metrics_step p s = Some s' → good_step s s'.
Proof.
  intros [Hb Hm (d & Hd & Hgd & Hready) Hc [m Hme] Hwk Hlen] Hsmall Hstep. unfold metrics_step in Hstep.
  rewrite Hme in Hstep. cbn in Hstep. destruct (MailboxReceiver_recv _) as [[x|] b'] eqn:Hr; [|done].
  destruct Hb as [Hn Hdb Hwb Hcb [Hmb Hmk]].
  destruct (box_recv _ _ _ _ Hmb Hr) as (msg & -> & _ & Hb' & Hk' & _ & Hf).
  unfold small_counters, counters in Hsmall. rewrite Hme, Forall_app in Hsmall. destruct Hsmall as [_ Hsmall].
  repeat (apply Forall_cons in Hsmall as [? Hsmall]).
  assert (∃ m' r, MetricsActor_handle p msg m = Some (m', r)
    ∧ (∀ tick counted, w_metrics_msg tick counted msg + w_counts counted m = tick + w_counts counted m')
    ∧ grow_by_one [submitted m; completed m; retried m; dead_lettered m]
        [submitted m'; completed m'; retried m'; dead_lettered m']) as (m' & r & Hh & Hlaw & Hgrow).
  { destruct msg as [e| |]; cbn [MetricsActor_handle].
    - assert (∃ m', MetricsActor_record p e m = Some m' ∧ grow_by_one [submitted m; completed m; retried m; dead_lettered m]
        [submitted m'; completed m'; retried m'; dead_lettered m']) as (m' & Hrec & Hg).
      { unfold MetricsActor_record, add64, u32_max in *.
        destruct e; rewrite checked64_small by (unfold u64_max; lia); (eexists; split; [done|]);
          repeat constructor; cbn; lia. }
      rewrite Hrec. exists m', None. split_and!; [done| |done]. intros.
      pose proof (w_counts_record counted _ _ _ _ Hrec). cbn [w_metrics_msg]. unfold w_metric. lia.
    - exists m, (Some m). split_and!; [done| |apply grow_same]. intros. cbn. lia.
    - unfold MetricsActor_in_flight, add64, u32_max in *. rewrite checked64_small by (unfold u64_max; lia).
      exists m, None. split_and!; [done| |apply grow_same]. intros. cbn. lia. }
  rewrite Hh in Hstep. injection Hstep as <-. split_and!.
  - split; try done; cbn [boxes metrics]; [|by eexists]. split; try done. split; [done|cbn; congruence].
  - unfold counters. cbn [workers metrics]. rewrite Hme. apply Forall2_app; [apply grow_same|exact Hgrow].
  - done.
  - intros. unfold total, w_boxes. cbn [main boxes ticks workers collector metrics lost
      dispatcher_box worker_boxes collector_box metrics_box set_metrics_box]. rewrite Hme, Hf.
    cbn [from_option]. specialize (Hlaw tick counted). lia.
Qed.

Lemma dispatcher_ok s s' : queue_wf s → dispatcher_step p s = Some s' → good_step s s'.
Proof.
  intros [Hb Hm (d & Hd & Hgd & Hready) Hc Hme Hwk Hlen] Hstep. unfold dispatcher_step in Hstep.
  rewrite Hd in Hstep. cbn in Hstep. destruct (MailboxReceiver_recv _) as [[x|] b'] eqn:Hr; [|done].
  destruct Hb as [Hn [Hdb Hdk] Hwb Hcb Hmb].
  pose proof (MailboxReceiver_recv_waiting (dispatcher_box (boxes s))) as Hwait. rewrite Hr in Hwait.
  destruct (box_recv _ _ _ _ Hdb Hr) as (msg & -> & Hmsg & Hb' & Hk' & Hl & Hf).
  assert (boxes_wf (set_dispatcher_box b' (boxes s))) as Hwf by (split; try done; split; [done|cbn; congruence]).
  destruct (Dispatcher_handle_ok msg d _ Hwf Hgd Hmsg) as (d' & w' & He & Hw' & Hgd' & Hq & Hk & Hp & Hlost & Hlaw).
  rewrite He in Hstep. injection Hstep as <-. split_and!.
  - split; try done; cbn [boxes dispatcher]. exists d'. split_and!; try done. left. apply Hp.
    destruct Hready as [?|(q & rest & Hrest)]; [by left|right]. rewrite Hrest in Hwait.
    destruct Hwait as (b1 & [= -> _] & _). by exists q.
  - apply grow_same.
  - cbn [boxes lost]. intros Hu. split; [by apply (kinds_unbounded (set_dispatcher_box b' (boxes s)))|].
    destruct (decide (has_pool d)) as [Hpd|Hpd].
    + rewrite Hlost by done. by rewrite app_nil_r.
    + destruct Hready as [?|(q & rest & Hrest)]; [done|]. rewrite Hrest in Hwait.
      destruct Hwait as (b1 & [= -> _] & _). by rewrite app_nil_r.
  - intros. specialize (Hlaw tick counted letter). unfold total.
    cbn [main boxes ticks workers collector metrics lost]. rewrite sum_list_with_app.
    assert (w_boxes tick counted letter (boxes s) = w_dispatcher_msg tick counted letter msg
      + w_boxes tick counted letter (set_dispatcher_box b' (boxes s))) as ->; [|lia].
    unfold w_boxes. cbn [dispatcher_box worker_boxes collector_box metrics_box set_dispatcher_box]. rewrite Hf. lia.
Qed.

Lemma take_ok i s s' : queue_wf s → take_step p i s = Some s' → good_step s s'.
Proof.
  intros [Hb Hm Hd Hc Hme Hwk Hlen] Hstep. unfold take_step in Hstep.
  destruct (workers s !! i) as [wk|] eqn:Hi; [|done]. cbn in Hstep.
  destruct (worker_boxes (boxes s) !! i) as [b|] eqn:Hbi; [|done]. cbn in Hstep.
  destruct (working wk) eqn:Hidle; [done|]. destruct (MailboxReceiver_recv b) as [[x|] b'] eqn:Hr; [|done].
  destruct Hb as [Hn Hdb Hwb Hcb Hmb]. pose proof (Forall_lookup_1 _ _ _ _ Hwb Hbi) as Hbox.
  destruct (box_recv _ _ _ _ Hbox Hr) as (t & -> & Ht & Hb' & Hk' & _ & Hf).
  unfold Worker_take, add32 in Hstep. pose proof Ht as [Hle Hmax]. unfold u32_max in Hmax.
  rewrite checked32_small in Hstep by (unfold u32_max; lia). cbn in Hstep. injection Hstep as <-. split_and!.
  - split; try done; cbn.
    + split; try done; cbn; [by rewrite length_insert|by apply Forall_insert].
    + apply Forall_insert; [done|]. intros t' [= <-]. done.
    + by rewrite length_insert.
  - unfold counters. cbn [workers metrics with_worker]. rewrite list_fmap_insert, list_insert_id; [apply grow_same|].
    by rewrite list_lookup_fmap, Hi.
  - cbn. unfold workers_unbounded. cbn. intros Hu. split; [|done]. apply Forall_insert; [done|].
    rewrite Hk'. by apply (Forall_lookup_1 _ _ _ _ Hu Hbi).
  - intros. unfold total, w_boxes. cbn [main boxes ticks workers collector metrics lost with_worker push_log
      dispatcher_box worker_boxes collector_box metrics_box set_worker_boxes].
    pose proof (sum_list_with_insert (w_box (w_process tick counted letter)) _ _ _ b' Hbi) as H1.
    pose proof (sum_list_with_insert (w_worker tick counted letter) _ _ _
      (mkWorker (worker_id wk) (processed wk) (Some t)) Hi) as H2.
    rewrite Hf, w_process_working in H1 by done. unfold w_worker in H2 at 2 4. rewrite Hidle in H2. simpl in H2. lia.
Qed.

Lemma Worker_finish_ok t wk w :
  boxes_wf w → wf_process t → (processed wk < u32_max)%N →
  ∃ k w', Worker_finish p t wk w = Some (k, w') ∧ (k <= processed wk + 1)%N ∧ boxes_wf w'
    ∧ (∃ q, box_waiting (dispatcher_box w') = box_waiting (dispatcher_box w) ++ q)
    ∧ is_bounded <$> worker_boxes w' = is_bounded <$> worker_boxes w
    ∧ ∀ tick counted letter, w_working tick counted letter t + w_boxes tick counted letter w
        = tick + w_boxes tick counted letter w'.
Proof.
  intros Hw Ht Hp. unfold Worker_finish, w_working, add32, u32_max in *.
  destruct (simulate_task (pt_payload t) (pt_attempt t)) as [result|error].
  - rewrite checked32_small by (unfold u32_max; lia). cbn [unwrap]. rewrite RT_bind_ret.
    destruct (tell_dispatcher_ok (MCompleted (mkTaskCompleted (pt_id t) result)) w Hw I)
      as (w' & He & Hq & Hw' & _ & Hk & Hf).
    rewrite (RT_bind_Some _ _ _ _ _ He). do 2 eexists. split_and!; [done|lia|done|by eexists|done|].
    intros. rewrite Hf. cbn [w_dispatcher_msg]. lia.
  - destruct (tell_dispatcher_ok (MFailed (mkTaskFailed (pt_id t) (pt_payload t) error (pt_attempt t) (pt_max_retries t)))
      w Hw Ht) as (w' & He & Hq & Hw' & _ & Hk & Hf).
    rewrite (RT_bind_Some _ _ _ _ _ He). do 2 eexists. split_and!; [done|lia|done|by eexists|done|].
    intros. rewrite Hf. cbn [w_dispatcher_msg]. lia.
Qed.
Lemma finish_ok i s s' : queue_wf s → small_counters s → finish_step p i s = Some s' → good_step s s'.
Proof.
  intros [Hb Hm (d & Hd & Hgd & Hready) Hc Hme Hwk Hlen] Hsmall Hstep. unfold finish_step in Hstep.
  destruct (workers s !! i) as [wk|] eqn:Hi; [|done]. cbn in Hstep.
  destruct (working wk) as [t|] eqn:Hbusy; [|done]. cbn in Hstep.
  assert (wf_process t) as Ht by by apply (Forall_lookup_1 _ _ _ _ Hwk Hi).
  assert (processed wk < u32_max)%N as Hpr.
  { unfold small_counters, counters in Hsmall. rewrite Forall_app in Hsmall. destruct Hsmall as [Hs _].
    apply (Forall_lookup_1 _ _ i _ Hs). by rewrite list_lookup_fmap, Hi. }
  destruct (Worker_finish_ok t wk _ Hb Ht Hpr) as (k & w' & He & Hgrow & Hw' & (q & Hq) & Hk & Hf).
  rewrite He in Hstep. injection Hstep as <-. split_and!.
  - split; try done; cbn.
    + by destruct Hw'; split.
    + exists d. split_and!; try done. destruct Hready as [?|(q' & rest & Hrest)]; [by left|right].
      rewrite Hq, Hrest. by exists q', (rest ++ q).
    + by apply Forall_insert.
    + by rewrite length_insert.
  - unfold counters. cbn [workers metrics with_worker]. apply Forall2_app; [|apply grow_same].
    rewrite list_fmap_insert. rewrite <-(list_insert_id (processed <$> workers s) i (processed wk)) at 1
      by by rewrite list_lookup_fmap, Hi.
    apply Forall2_insert; [apply grow_same|exact Hgrow].
  - cbn [boxes lost with_worker]. split; [by apply (kinds_unbounded (boxes s))|done].
  - intros. specialize (Hf tick counted letter). unfold total. cbn [main boxes ticks workers collector metrics lost with_worker].
    pose proof (sum_list_with_insert (w_worker tick counted letter) _ _ _ (mkWorker (worker_id wk) k None) Hi) as H2.
    unfold w_worker in H2 at 2 4. rewrite Hbusy in H2. simpl in H2.
    assert (w_boxes tick counted letter (push_log (completed_entry wk true) w') = w_boxes tick counted letter w') as -> by done.
    lia.
Qed.

Lemma queue_step_ok e s s' :
  queue_wf s → small_counters s → queue_step p e s = Some s' → good_step s s'.
Proof.
  intros Hwf Hsm. destruct e; cbn [queue_step].
  - by apply main_ok.
  - by apply tick_ok.
  - by apply dispatcher_ok.
  - by apply collector_ok.
  - by apply metrics_ok.
  - by apply take_ok.
  - by apply finish_ok.
Qed.

(** ** Runs *)
Abbreviation nothing := (λ _, 0).
Definition steps_left s : nat := total 1 nothing nothing s.
(** No counter can leave its width within [bound] steps. *)
Definition within (bound : nat) s : Prop :=
  Forall (λ c, N.to_nat c + steps_left s <= bound) (counters s).

Lemma within_small bound s : (N.of_nat bound < u32_max)%N → within bound s → small_counters s.
Proof.
  intros Hb Hw. unfold within, small_counters in *. eapply Forall_impl; [exact Hw|]. simpl. intros c Hc. lia.
Qed.
Lemma within_step bound s s' :
  grow_by_one (counters s) (counters s') → steps_left s = 1 + steps_left s' →
  within bound s → within bound s'.
Proof.
  intros Hg Hl Hw. unfold within in *. eapply Forall2_Forall_r; [exact Hg|].
  eapply Forall_impl; [exact Hw|]. simpl. intros c Hc c' Hc'. lia.
Qed.

Lemma queue_run_ok bound es s s' :
  (N.of_nat bound < u32_max)%N → queue_wf s → within bound s → queue_run p es s = Some s' →
  queue_wf s' ∧ (workers_unbounded (boxes s) → lost s' = lost s)
  ∧ ∀ tick counted letter, total tick counted letter s = length es * tick + total tick counted letter s'.
Proof.
  intros Hb. revert s. induction es as [|e es IH]; intros s Hwf Hin; cbn [queue_run].
  { intros [= <-]. by split_and!. }
  destruct (queue_step p e s) as [s1|] eqn:He; [|done]. cbn. intros Hrun.
  destruct (queue_step_ok e s s1 Hwf (within_small _ _ Hb Hin) He) as (Hwf1 & Hg & Hu & Hlaw).
  destruct (IH s1 Hwf1 (within_step _ _ _ Hg (Hlaw 1 nothing nothing) Hin) Hrun) as (Hwf' & Hu' & Hlaw').
  split_and!; [done| |].
  - intros [Hk Hl]%Hu. by rewrite Hu'.
  - intros. rewrite Hlaw, Hlaw'. simpl. lia.
Qed.

(** *** The start *)
Definition fresh w : Prop :=
  boxes_wf w ∧ box_waiting (dispatcher_box w) = [] ∧ box_waiting (collector_box w) = []
  ∧ box_waiting (metrics_box w) = [] ∧ Forall (λ b, box_waiting b = []) (worker_boxes w).

Lemma fresh_weighs w tick counted letter : fresh w → w_boxes tick counted letter w = 0.
Proof.
  intros (_ & Hd & Hc & Hm & Hw). unfold w_boxes, w_box at 1 3 4. rewrite Hd, Hc, Hm. simpl.
  induction Hw as [|b bs Hb _ IH]; [done|]. simpl in *. unfold w_box at 1. rewrite Hb. simpl. lia.
Qed.
Lemma idle_workers {X} (l : list X) k tick counted letter :
  Forall (λ wk, ∀ t, working wk = Some t → wf_process t) (imap (λ i _, mkWorker (k + i) 0 None) l)
  ∧ sum_list_with (w_worker tick counted letter) (imap (λ i _, mkWorker (k + i) 0 None) l) = 0
  ∧ Forall (λ c, c = 0%N) (processed <$> imap (λ i _, mkWorker (k + i) 0 None) l).
Proof.
  revert k. induction l as [|x l IH]; intros k; [by split_and!|]. cbn [imap].
  destruct (IH (S k)) as (H1 & H2 & H3).
  assert (imap ((λ i _, mkWorker (k + i) 0 None) ∘ S) l = imap (λ i _, mkWorker (S k + i) 0 None) l) as ->.
  { apply imap_ext. intros i y _. cbn. f_equal. lia. }
  split_and!; [by constructor|done|by constructor].
Qed.

Lemma queue_start_ok w ts k :
  fresh w → n ≠ 0 → Forall wf_submit ts →
  ∃ s, queue_start w ts k = Some s ∧ queue_wf s ∧ Forall (λ c, c = 0%N) (counters s) ∧ lost s = []
    ∧ is_bounded <$> worker_boxes (boxes s) = is_bounded <$> worker_boxes w
    ∧ ∀ tick counted letter, total tick counted letter s
        = tick + sum_list_with (w_main tick counted letter) ts + k * (tick + tick).
Proof.
  intros Hf Hn Hts. pose proof Hf as (Hwf & Hd & _). pose proof (bw_length _ Hwf) as Hlen.
  assert (Forall (λ i, i < n) (seq 0 n)) as Hseq by (apply Forall_forall; intros i Hi%elem_of_seq; lia).
  unfold queue_start, PoolRef_new. rewrite Hlen. destruct (seq 0 n) as [|i0 rest] eqn:Hs.
  { apply (f_equal length) in Hs. by rewrite length_seq in Hs. }
  unfold fetch_add, mbind, RT_bind, mret, RT_ret. cbn [option_bind].
  match goal with |- context [tell_dispatcher (MSetPool ?q) ?w1] => set (pool0 := q); set (w1' := w1) end.
  assert (fresh w1') as Hf1 by (destruct Hf as ([] & ? & ? & ? & ?); by split_and!).
  assert (good_pool pool0) as Hq by by split_and!.
  destruct (tell_dispatcher_ok (MSetPool pool0) w1' (proj1 Hf1) Hq) as (w2 & He & Hq2 & Hw2 & _ & Hk & Hlaw).
  rewrite He. cbn [option_bind].
  assert (length (worker_boxes w2) = n) as Hn2 by apply Hw2.
  eexists. split; [done|]. split_and!.
  - split; cbn; try done; [by exists ts| |apply (idle_workers _ 0 0 nothing nothing)|by rewrite length_imap].
    exists (mkDispatcher None). split_and!; try done. right. rewrite Hq2.
    change (dispatcher_box w1') with (dispatcher_box w). rewrite Hd. by eexists _, [].
  - unfold counters. cbn [workers metrics]. apply Forall_app. split; [|by repeat constructor].
    apply (idle_workers _ 0 0 nothing nothing).
  - done.
  - exact Hk.
  - intros. unfold total. cbn [main boxes ticks workers collector metrics lost from_option].
    rewrite Hlaw, (fresh_weighs w1' _ _ _ Hf1).
    destruct (idle_workers (worker_boxes w2) 0 tick counted letter) as (_ & Hw0 & _). cbn [Nat.add] in Hw0.
    rewrite Hw0. simpl. unfold w_counts. simpl. lia.
Qed.

(** *** Tasks that are lost *)
(** The dispatcher is about to hand [t] on, and the mailbox of the worker whose
    turn it is does not take it. *)
Definition meets_full s (t : ProcessTask) : Prop :=
  ∃ d q msg b i bx, dispatcher s = Some d ∧ pool d = Some q
    ∧ MailboxReceiver_recv (dispatcher_box (boxes s)) = (Some (Some msg), b) ∧ handed_on msg = Some t
    ∧ Pool.workers q !! N.to_nat (atomic_load (counter q) (boxes s) mod len_N (Pool.workers q)) = Some i
    ∧ worker_boxes (boxes s) !! i = Some bx ∧ (box_tell t bx).2 = bx.

Lemma to_pool_full d q t w i b :
  pool d = Some q → routing q = RoundRobin →
  Pool.workers q !! N.to_nat (atomic_load (counter q) w mod len_N (Pool.workers q)) = Some i →
  worker_boxes w !! i = Some b → (box_tell t b).2 = b →
  ∃ w', to_pool d t w = Some ((), w') ∧ worker_boxes w' = worker_boxes w.
Proof.
  intros Hd Hr Hi Hb Hfull. unfold to_pool. rewrite Hd. unfold PoolRef_tell, select_worker. rewrite Hr.
  unfold round_robin_index, fetch_add, mbind, RT_bind. cbn [mret RT_ret]. rewrite Hi. cbn [unwrap mret RT_ret].
  cbn [ar_tell Worker_ref]. unfold tell_worker. set (w1 := atomic_store _ _ w).
  change (worker_boxes w1) with (worker_boxes w). rewrite Hb.
  destruct (box_tell t b) as [r b']. simpl in Hfull. subst b'.
  eexists. split; [done|]. cbn. by rewrite list_insert_id.
Qed.
Lemma hand_on_full msg d q t w i b :
  wf_dispatcher_msg msg → handed_on msg = Some t → pool d = Some q → routing q = RoundRobin →
  Pool.workers q !! N.to_nat (atomic_load (counter q) w mod len_N (Pool.workers q)) = Some i →
  worker_boxes w !! i = Some b → (box_tell t b).2 = b →
  ∃ w', Dispatcher_handle p msg d w = Some (d, w') ∧ worker_boxes w' = worker_boxes w.
Proof.
  intros Hwf Hm Hd Hr Hi Hb Hfull.
  assert (∀ e, ∃ w', (_ ← tell_metrics (RecordMetric e); _ ← to_pool d t; mret d) w = Some (d, w')
    ∧ worker_boxes w' = worker_boxes w) as Hgo.
  { intros e. unfold tell_metrics, mbind, RT_bind. destruct (box_tell (RecordMetric e) _) as [r mb].
    destruct (to_pool_full d q t (set_metrics_box mb w) i b Hd Hr Hi Hb Hfull) as (w' & He & Hw').
    exists w'. by rewrite He. }
  destruct msg as [q'|t1|t1|t1]; try done; cbn [Dispatcher_handle].
  - injection Hm as <-. apply Hgo.
  - destruct Hwf as [Hle Hmax]. unfold u32_max in Hmax. unfold add32. cbn [handed_on] in Hm.
    destruct (tf_attempt t1 <? tf_max_retries t1 + 1)%N eqn:Hlt; [|done]. injection Hm as <-.
    rewrite (checked32_small p (tf_max_retries t1 + 1)) by (unfold u32_max; lia).
    cbn [unwrap]. rewrite RT_bind_ret, Hlt. bN.
    rewrite checked32_small by (unfold u32_max; lia). cbn [unwrap]. rewrite RT_bind_ret. apply Hgo.
Qed.
Lemma meets_full_step s t : queue_wf s → meets_full s t →
  ∃ s', dispatcher_step p s = Some s' ∧ worker_boxes (boxes s') = worker_boxes (boxes s)
    ∧ workers s' = workers s ∧ main s' = main s ∧ collector s' = collector s
    ∧ lost s' = lost s ++ [t].
Proof.
  intros Hwf (d & q & msg & b & i & bx & Hd & Hq & Hr & Hm & Hi & Hb & Hfull).
  destruct Hwf as [[_ [[Hdb Hall] _] _ _ _] _ (d' & Hd' & Hgd & _) _ _ _ _]. rewrite Hd in Hd'. injection Hd' as <-.
  destruct (box_recv _ _ _ _ (conj Hdb Hall) Hr) as (m & [= <-] & Hmsg & _).
  destruct (Hgd q Hq) as (_ & Hrr & _).
  destruct (hand_on_full msg d q t (set_dispatcher_box b (boxes s)) i bx Hmsg Hm Hq Hrr Hi Hb Hfull)
    as (w' & He & Hw').
  unfold dispatcher_step. rewrite Hd. cbn. rewrite Hr, He. eexists. split; [done|]. split_and!; try done. cbn.
  unfold lost_in, in_workers. by rewrite Hm, Hw', Nat.eqb_refl.
Qed.
(** What is lost stays so. *)
Lemma queue_step_lost e s s' : queue_step p e s = Some s' → ∃ more, lost s' = lost s ++ more.
Proof.
  assert (∃ more, lost s = lost s ++ more) as Hsame by (exists []; by rewrite app_nil_r).
  destruct e; cbn [queue_step];
    [unfold main_step|unfold tick_step|unfold dispatcher_step|unfold collector_step|unfold metrics_step
    |unfold take_step|unfold finish_step]; intros Hs; repeat (case_match || simplify_option_eq); simplify_eq/=;
    try done; try (by eexists); by exists (lost_in d0 (set_dispatcher_box m (boxes s)) m0).
Qed.
Lemma queue_run_lost es s s' : queue_run p es s = Some s' → ∃ more, lost s' = lost s ++ more.
Proof.
  revert s. induction es as [|e es IH]; intros s; cbn [queue_run].
  { intros [= <-]. exists []. by rewrite app_nil_r. }
  destruct (queue_step p e s) as [s1|] eqn:He; [|done]. intros (more' & Hmore')%IH.
  destruct (queue_step_lost e s s1 He) as [more Hmore]. exists (more ++ more').
  by rewrite Hmore', Hmore, app_assoc.
Qed.
Lemma queue_run_app es es' s : queue_run p (es ++ es') s = s1 ← queue_run p es s; queue_run p es' s1.
Proof.
  revert s. induction es as [|e es IH]; intros s; [done|]. cbn [queue_run app].
  by destruct (queue_step p e s) as [s1|]; [apply IH|].
Qed.

(** *** The end *)
Definition queue_rest s : Prop := ∀ e, queue_step p e s = None.

Lemma recv_none {X} (P : X → Prop) (b : MailboxSender (C := C X) (U := U X)) :
  open_box P b → (∀ m b', MailboxReceiver_recv b ≠ (Some (Some m), b')) → ∀ f, w_box f b = 0.
Proof.
  intros Hb Hno f. destruct (MailboxReceiver_recv b) as [[x|] b'] eqn:Hr.
  - destruct (box_recv P _ _ _ Hb Hr) as (m & -> & _). by destruct (Hno m b').
  - unfold w_box. by rewrite (box_recv_empty _ _ Hr).
Qed.
Lemma rest_boxes s tick counted letter :
  queue_wf s → queue_rest s →
  w_boxes tick counted letter (boxes s) = 0 ∧ sum_list_with (w_worker tick counted letter) (workers s) = 0.
Proof.
  intros [[Hn [Hd _] Hw [Hc _] [Hm _]] Hmain (d & Hdis & _) [c Hcol] [m Hmet] Hwk Hlen] Hrest.
  assert (Forall (λ wk, working wk = None) (workers s)) as Hidle.
  { apply Forall_lookup_2. intros i wk Hi. pose proof (Hrest (EFinish i)) as He. cbn in He. unfold finish_step in He.
    rewrite Hi in He. cbn in He. by destruct (working wk). }
  split.
  - unfold w_boxes. rewrite (recv_none _ _ Hd), (recv_none _ _ Hc), (recv_none _ _ Hm).
    + assert (Forall (λ b, w_box (w_process tick counted letter) b = 0) (worker_boxes (boxes s))) as Hz.
      { apply Forall_lookup_2. intros i b Hi. apply (recv_none wf_process); [by apply (Forall_lookup_1 _ _ _ _ Hw Hi)|].
        intros t b' Hr. destruct (lookup_lt_is_Some_2 (workers s) i) as [wk Hwki];
          [apply lookup_lt_Some in Hi; lia|].
        pose proof (Hrest (ETake i)) as He. cbn in He. unfold take_step in He. rewrite Hwki, Hi in He. cbn in He.
        rewrite (Forall_lookup_1 _ _ _ _ Hidle Hwki), Hr in He. by destruct (Worker_take _ _ _ _). }
      clear -Hz. induction Hz as [|b bs Hb _ IH]; simpl in *; lia.
    + intros x b' Hr. pose proof (Hrest EMetrics) as He. cbn in He. unfold metrics_step in He.
      rewrite Hmet in He. cbn in He. by rewrite Hr in He.
    + intros x b' Hr. pose proof (Hrest ECollector) as He. cbn in He. unfold collector_step in He.
      rewrite Hcol in He. cbn in He. by rewrite Hr in He.
    + intros x b' Hr. pose proof (Hrest EDispatcher) as He. cbn in He. unfold dispatcher_step in He.
      rewrite Hdis in He. cbn in He. by rewrite Hr in He.
  - clear -Hidle. induction Hidle as [|wk wks Hk _ IH]; [done|]. simpl. unfold w_worker at 1. rewrite Hk. exact IH.
Qed.
Lemma rest_total s :
  queue_wf s → queue_rest s → ∃ m c, metrics s = Some m ∧ collector s = Some c
    ∧ main s = Some [] ∧ ∀ tick counted letter, total tick counted letter s
        = sum_list_with letter c + w_counts counted m + sum_list_with (w_process tick counted letter) (lost s).
Proof.
  intros Hwf Hrest. pose proof Hwf as [Hb (ts & Hmain & Hts) _ [c Hc] [m Hm] _ _]. exists m, c.
  split; [done|]. split; [done|].
  assert (ts = []) as ->.
  { destruct ts as [|t ts]; [done|]. apply Forall_cons in Hts as [Ht _].
    destruct (tell_dispatcher_ok (MSubmit t) _ Hb Ht) as (w' & He & _).
    pose proof (Hrest EMain) as Hs. cbn in Hs. unfold main_step in Hs. rewrite Hmain, He in Hs. done. }
  assert (ticks s = 0) as Hk.
  { destruct (ticks s) as [|k] eqn:Hk; [done|]. destruct (tell_metrics_ok PrintMetrics _ Hb) as (w' & He & _).
    pose proof (Hrest ETick) as Hs. cbn in Hs. unfold tick_step in Hs. rewrite Hk, He in Hs. done. }
  split; [done|]. intros. destruct (rest_boxes s tick counted letter Hwf Hrest) as [Hz Hw].
  unfold total. rewrite Hmain, Hk, Hz, Hw, Hm, Hc. simpl. lia.
Qed.
End system.

(** ** What becomes of the tasks, by weight *)
Section fates.
Context (counted : MetricEvent → nat) (letter : string * string * N → nat).

Lemma attempts_fate k t r :
  w_attempts 0 counted letter k t + r * counted Retried
  = fate_retries (fate_from k (pt_payload t) (pt_attempt t) r) * counted Retried
    + match fate_from k (pt_payload t) (pt_attempt t) r with
      | Done _ => counted Completed
      | Died _ error attempts => counted DeadLettered + letter (pt_id t, error, attempts)
      end.
Proof.
  revert t r. induction k as [|k IH]; intros t r; cbn [w_attempts fate_from];
    destruct (simulate_task (pt_payload t) (pt_attempt t)) as [res|error];
    unfold w_completed, w_metric, w_dead, collected_entry; cbn [fate_retries dead_id dead_error dead_attempts]; try lia.
  specialize (IH (mkProcessTask (pt_id t) (pt_payload t) (pt_attempt t + 1) (pt_max_retries t)) (S r)).
  cbn [pt_id pt_payload pt_attempt pt_max_retries] in IH. simpl in IH |- *. lia.
Qed.
Lemma main_fate ts :
  sum_list_with (w_main 0 counted letter) ts
  = w_counts counted (report ts) + sum_list_with letter (omap dead_entry ts).
Proof.
  unfold w_counts, report, len_N. cbn [submitted completed retried dead_lettered].
  rewrite !Nat2N.id. induction ts as [|t ts IH]; [done|].
  cbn [sum_list_with length retain omap list_omap]. rewrite IH. unfold w_main, w_submit, w_process, first_attempt, w_metric.
  cbn [pt_max_retries pt_attempt Nat.add].
  replace (st_max_retries t + 1 - 1)%N with (st_max_retries t) by lia.
  pose proof (attempts_fate (N.to_nat (st_max_retries t)) (mkProcessTask (st_id t) (st_payload t) 1 (st_max_retries t)) 0) as Hf.
  cbn [pt_payload pt_attempt pt_id] in Hf. fold (fate t) in Hf. unfold is_done, dead_entry.
  destruct (fate t) as [k|k error attempts]; cbn [fate_retries length sum_list_with] in *; lia.
Qed.
End fates.


(** Every task ends once. *)
Definition endings (e : MetricEvent) : nat :=
  match e with Completed | DeadLettered => 1 | _ => 0 end.
Lemma process_ends t : w_process 0 endings (λ _, 0) t = 1.
Proof.
  unfold w_process. pose proof (attempts_fate endings (λ _, 0)
    (N.to_nat (pt_max_retries t + 1 - pt_attempt t)) t 0) as Hf.
  destruct (fate_from _ _ _ _); simpl in Hf; lia.
Qed.
Lemma lost_end l : sum_list_with (w_process 0 endings (λ _, 0)) l = length l.
Proof. induction l as [|t l IH]; [done|]. cbn [length sum_list_with]. by rewrite process_ends, IH. Qed.
Lemma main_ends ts : sum_list_with (w_main 0 endings (λ _, 0)) ts = length ts.
Proof.
  induction ts as [|t ts IH]; [done|]. cbn [length sum_list_with]. rewrite IH. unfold w_main, w_submit.
  by rewrite process_ends.
Qed.
Definition submissions (e : MetricEvent) : nat := match e with Submitted => 1 | _ => 0 end.
Definition deaths (e : MetricEvent) : nat := match e with DeadLettered => 1 | _ => 0 end.
Lemma process_submits t : w_process 0 submissions (λ _, 0) t = 0.
Proof.
  unfold w_process. pose proof (attempts_fate submissions (λ _, 0)
    (N.to_nat (pt_max_retries t + 1 - pt_attempt t)) t 0) as Hf.
  destruct (fate_from _ _ _ _); simpl in Hf; lia.
Qed.
(** A dead task is counted, and has an entry, once. *)
Lemma process_letters t :
  w_process 0 (λ _, 0) (λ _, 1) t = w_process 0 deaths (λ _, 0) t.
Proof.
  unfold w_process. set (k := N.to_nat _).
  pose proof (attempts_fate (λ _, 0) (λ _, 1) k t 0) as H1.
  pose proof (attempts_fate deaths (λ _, 0) k t 0) as H2.
  destruct (fate_from _ _ _ _); simpl in H1, H2; lia.
Qed.
Lemma no_letters (l : list (string * string * N)) : sum_list_with (λ _, 0) l = 0.
Proof. by induction l. Qed.

Lemma main_steps ts : length ts ≤ sum_list_with (w_main 1 (λ _, 0) (λ _, 0)) ts.
Proof. induction ts as [|t ts IH]; [done|]. cbn [length sum_list_with]. unfold w_main at 1. lia. Qed.
(** What the metrics and the collector have when all the weight is with them and
    with the lost. *)
Lemma rest_counts ts l m c :
  (∀ counted letter, w_counts counted (report ts) + sum_list_with letter (omap dead_entry ts)
     = sum_list_with letter c + w_counts counted m + sum_list_with (w_process 0 counted letter) l) →
  submitted m = len_N ts ∧ dead_lettered m = len_N c
  ∧ (completed m + dead_lettered m + len_N l = len_N ts)%N.
Proof.
  intros Hall.
  pose proof (Hall submissions (λ _, 0)) as H1. pose proof (Hall deaths (λ _, 0)) as H2.
  pose proof (Hall (λ _, 0) (λ _, 1)) as H3. pose proof (Hall endings (λ _, 0)) as H4.
  rewrite <-main_fate, main_ends, no_letters, lost_end in H4. rewrite !no_letters in H1, H2.
  assert (∀ {X} (l : list X), sum_list_with (λ _, 1) l = length l) as Hones
    by (intros X l'; induction l' as [|x l' IH]; simpl; lia).
  rewrite !Hones in H3.
  assert (sum_list_with (w_process 0 submissions (λ _, 0)) l = 0) as Hl1
    by (clear; induction l as [|t l IH]; [done|]; cbn [sum_list_with]; by rewrite (process_submits t), IH).
  assert (sum_list_with (w_process 0 (λ _, 0) (λ _, 1)) l
    = sum_list_with (w_process 0 deaths (λ _, 0)) l) as Hl2
    by (clear; induction l as [|t l IH]; [done|]; cbn [sum_list_with]; by rewrite (process_letters t), IH).
  rewrite Hl1 in H1. rewrite Hl2 in H3. unfold w_counts, report, len_N in *.
  cbn [submitted completed retried dead_lettered submissions deaths endings] in *. lia.
Qed.

(** ** A world to run it in *)
Module Demo.
Abbreviation Boxes := (Mailboxes (C := BoundedQueue ∘ option) (U := TestQueue ∘ option)).
(** The mailboxes that the runtime makes: three workers of ten messages each. *)
Definition example_boxes : Boxes :=
  mkMailboxes ∅ (MUnbounded (mkTestQueue [] true))
    (replicate 3 (MBounded (mkBoundedQueue [] [] 10 true) RejectWithError))
    (MUnbounded (mkTestQueue [] true)) (MUnbounded (mkTestQueue [] true)) [].
Lemma example_fresh : fresh 3 example_boxes.
Proof. split_and!; try done; [split; try done; repeat constructor|by repeat constructor]. Qed.

(** Whatever can go on goes on, the first of [es] first. *)
Fixpoint drain (fuel : nat) (es : list Event) (s : Queue) : list Event :=
  match fuel with
  | 0 => []
  | S fuel =>
      match list_find (λ e, is_Some (queue_step Debug e s)) es with
      | Some (_, e) => e :: match queue_step Debug e s with Some s => drain fuel es s | None => [] end
      | None => []
      end
  end.
Definition everybody : list Event :=
  [EMain; EDispatcher; ECollector; EMetrics; ETick] ++ concat ((λ i, [ETake i; EFinish i]) <$> seq 0 3).
Lemma rest_everybody (s : Queue (C := BoundedQueue ∘ option) (U := TestQueue ∘ option)) :
  length (workers s) = 3 → forallb (λ e, bool_decide (queue_step Debug e s = None)) everybody = true →
  queue_rest Debug s.
Proof.
  rewrite forallb_forall. intros Hlen Hall.
  assert (∀ e, In e everybody → queue_step Debug e s = None) as Hstep
    by (intros e He; by apply Hall, bool_decide_eq_true in He).
  assert (∀ i, 3 ≤ i → workers s !! i = None) as Hno by (intros i Hi; apply lookup_ge_None_2; lia).
  intros e. destruct e as [| | | | |i|i]; try (apply Hstep; vm_compute; tauto).
  - destruct i as [|[|[|i]]]; [apply Hstep; vm_compute; tauto..|]. cbn. unfold take_step. by rewrite Hno by lia.
  - destruct i as [|[|[|i]]]; [apply Hstep; vm_compute; tauto..|]. cbn. unfold finish_step. by rewrite Hno by lia.
Qed.
(** Worker 0 sleeps while the others work off what they have got. *)
Definition serve (i : nat) : list Event := [ETake i; EFinish i; EDispatcher].
Definition submit (k : nat) : list Event := concat (replicate k [EMain; EDispatcher]).
Definition stalled : list Event :=
  [EDispatcher] ++ submit 12 ++ concat (replicate 4 (serve 1)) ++ submit 2 ++ concat (replicate 4 (serve 2))
  ++ submit 2 ++ serve 1 ++ submit 2 ++ serve 2 ++ submit 2 ++ serve 1
  ++ serve 2 ++ serve 1 ++ serve 2 ++ serve 1 ++ serve 2 ++ [ETake 1; EFinish 1].
End Demo.

(** ** The properties *)
Module Spec.
Section spec.
Context {C U : Type → Type}.
Context `{HS : ∀ X, Sender (option X) (C X)} `{HR : ∀ X, Receiver (option X) (C X)}.
Context `{HU : ∀ X, UnboundedChannel (option X) (U X)}.
Context `{HSL : ∀ X, SenderLaws (option X) (C X)} `{HRL : ∀ X, ReceiverLaws (option X) (C X)}.
Context `{HUL : ∀ X, UnboundedLaws (option X) (U X)}.


(** C27. A task can be lost without a trace. The dispatcher ignores what the pool's
    [tell] says. In any run in which it hands a task on, be it a first attempt or
    a retry, to the worker whose turn it is, and the mailbox of that worker does
    not take it: the workers and their mailboxes stay as they are, and the task
    is lost. However the run goes on, when nobody has anything left to do the
    metrics count every task as submitted and the collector has the dead ones,
    but as many tasks as were lost have neither completed nor died, and the
    metrics say that they are in flight. *)
Theorem full_worker_loses_task p n (w : Mailboxes (C := C) (U := U)) ts k s0 es s t :
  fresh n w → n ≠ 0 → Forall wf_submit ts → queue_start w ts k = Some s0 →
  (N.of_nat (steps_left s0) < u32_max)%N → queue_run p es s0 = Some s → meets_full s t →
  ∃ s1, queue_step p EDispatcher s = Some s1
    ∧ worker_boxes (boxes s1) = worker_boxes (boxes s) ∧ workers s1 = workers s
    ∧ collector s1 = collector s ∧ lost s1 = lost s ++ [t]
    ∧ ∀ es' s2, queue_run p es' s1 = Some s2 → queue_rest p s2 →
        t ∈ lost s2 ∧ ∃ m c, metrics s2 = Some m ∧ collector s2 = Some c
          ∧ submitted m = len_N ts ∧ dead_lettered m = len_N c
          ∧ (completed m + dead_lettered m + len_N (lost s2) = len_N ts)%N
          ∧ MetricsActor_in_flight p m = Some (len_N (lost s2)).
Proof.
  intros Hfresh Hn Hts Hstart Hbound Hrun Hmeets.
  destruct (queue_start_ok n w ts k Hfresh Hn Hts) as (s0' & Hs0 & Hwf & Hzero & Hlost & Hkinds & Htotal).
  rewrite Hstart in Hs0. injection Hs0 as <-.
  assert (within (steps_left s0) s0) as Hin.
  { unfold within. eapply Forall_impl; [exact Hzero|]. simpl. intros c ->. simpl. lia. }
  destruct (queue_run_ok p n _ es s0 s Hbound Hwf Hin Hrun) as (Hwf' & _ & _).
  destruct (meets_full_step p n s t Hwf' Hmeets) as (s1 & Hs1 & Hboxes & Hworkers & _ & Hcoll & Hl).
  exists s1. split_and!; try done. intros es' s2 Hrun' Hrest.
  assert (queue_run p (es ++ EDispatcher :: es') s0 = Some s2) as Hall.
  { rewrite queue_run_app, Hrun. cbn [mbind option_bind queue_run queue_step]. by rewrite Hs1. }
  split.
  { destruct (queue_run_lost _ _ _ _ Hrun') as [more ->]. rewrite Hl. set_solver. }
  destruct (queue_run_ok p n _ _ s0 s2 Hbound Hwf Hin Hall) as (Hwf2 & _ & Hlaw).
  destruct (rest_total p n s2 Hwf2 Hrest) as (m & c & Hm & Hc & _ & Hend). exists m, c.
  destruct (rest_counts ts (lost s2) m c) as (Hsub & Hdead & Hsum).
  { intros counted letter. rewrite <-main_fate, <-Hend. specialize (Hlaw 0 counted letter). rewrite Htotal in Hlaw. lia. }
  split_and!; try done.
  unfold MetricsActor_in_flight, add64.
  assert (length ts ≤ steps_left s0) as Hsmall.
  { unfold steps_left. rewrite Htotal. pose proof (main_steps ts). lia. }
  unfold len_N in *. rewrite checked64_small by (unfold u32_max, u64_max in *; lia).
  cbn. f_equal. lia.
Qed.
End spec.

Import Demo.

(** With the tasks and the mailboxes of the example: one worker sleeps while the
    others work, ten messages wait for it, and a retry of task-16 is the
    eleventh. *)
Lemma full_worker_loses_task_witness :
  ∃ s0 s s1 s2 t m,
    queue_start example_boxes tasks 0 = Some s0 ∧ queue_run Debug stalled s0 = Some s
    ∧ pt_id t = "task-16" ∧ queue_step Debug EDispatcher s = Some s1
    ∧ queue_run Debug (drain 500 everybody s1) s1 = Some s2 ∧ queue_rest Debug s2
    ∧ lost s2 = [t] ∧ metrics s2 = Some m ∧ MetricsActor_in_flight Debug m = Some 1%N.
Proof.
  assert (∃ s0, queue_start example_boxes tasks 0 = Some s0 ∧ steps_left s0 = 198
    ∧ ∃ s, queue_run Debug stalled s0 = Some s
    ∧ ∃ t, meets_full s t ∧ pt_id t = "task-16"
    ∧ ∃ s1, queue_step Debug EDispatcher s = Some s1
    ∧ ∃ s2, queue_run Debug (drain 500 everybody s1) s1 = Some s2 ∧ length (workers s2) = 3
        ∧ forallb (λ e, bool_decide (queue_step Debug e s2 = None)) everybody = true ∧ lost s2 = [t])
    as (s0 & Hs0 & Hw & s & Hs & t & Hm & Ht & s1 & Hs1 & s2 & Hs2 & Hlen & Hrest & Hl).
  { eexists. split; [vm_compute; reflexivity|]. split; [vm_compute; reflexivity|].
    eexists. split; [vm_compute; reflexivity|].
    eexists. split; [do 6 eexists; split_and!; vm_compute; reflexivity|]. split; [reflexivity|].
    eexists. split; [vm_compute; reflexivity|].
    eexists. split; [vm_compute; reflexivity|]. split; [reflexivity|]. split; vm_compute; reflexivity. }
  apply (rest_everybody s2 Hlen) in Hrest.
  destruct (full_worker_loses_task Debug 3 example_boxes tasks 0 s0 stalled s t example_fresh)
    as (s1' & Hs1' & _ & _ & _ & _ & Hend); [done|by repeat constructor|done|by rewrite Hw|done|done|].
  rewrite Hs1 in Hs1'. injection Hs1' as <-.
  destruct (Hend _ s2 Hs2 Hrest) as (_ & m & c & Hmet & _ & _ & _ & _ & Hfl).
  rewrite Hl in Hfl. by exists s0, s, s1, s2, t, m.
Defined.
End Spec.
