(* ===== verification/Examples.v ===== *)
(** * Smaller examples (dactor/examples)

    The actors of basic_counter.rs, readme_quickstart.rs, error_handling.rs and
    supervision.rs with [main] as a caller's program (Client.v), the bounded
    mailbox of bounded_mailbox.rs, and the two examples of persistence.rs and
    event_sourcing.rs over the storage in memory. A [main] prints what it finds;
    its model takes a predicate on what is printed, or returns it, and the
    theorems say what that is, on every schedule. *)
From Stdlib Require Import Strings.Byte.
From S2P Require Import Prelude Node Message Channel Mailbox Interceptor Task Actor Dispatch.
From S2P Require Import RuntimeSupport Supervision DeadLetter ActorLoop AdapterRef ActorRef Session Client.
From S2P Require Import Lifecycle NativeActors TestRuntime Conformance Persistence.

#[local] Open Scope string_scope.
#[local] Open Scope list_scope.
#[local] Open Scope nat_scope.

(** ** Actors whose handlers never wait
    [f] is the handler of every message; there are no streams, so the handlers of
    streams are never called. *)
Section plain.
Context {A W Snd M R : Type} (name : M → string) (resumes : bool) (f : M → A → option (A * R)).

Definition plain_actor : Actor A W M () Snd R := {|
  type_name := name; item_type_name := "";
  on_start := mret (); on_stop := mret ();
  on_error _ a w := (if resumes then ResumeAction else StopAction, a, w);
  handle m := handler_of (f m);
  handle_expand _ _ := panic_now; handle_reduce _ := panic_now;
  handle_transform _ _ := panic_now; on_transform_complete _ := panic_now
|}.
Definition plain_object {V} : Behaviour A M R V := {|
  step m st := match f m st.1 with
               | Some (a, r) => ((a, st.2), Some r)
               | None => (st, None)
               end;
  resume st := (resumes, st); start_hook st := st; stop_hook st := st.2
|}.
Lemma plain_implements {V} `{SessionWorld W R V} : implements (H := plain_actor) plain_object.
Proof.
  split.
  - intros m a v c. apply handler_of_settles.
  - intros a w. cbn. by destruct resumes.
  - intros a v c w <-. by split.
  - intros a v w <-. by split.
Qed.
End plain.

(** ** Counter (basic_counter.rs, readme_quickstart.rs)
    The example of the README has no [Reset]. *)
Inductive BasicMsg := BIncrement (n : N) | BGetCount | BReset.
Inductive BasicReply := BDone | BCount (n : N).

Definition Basic_handle (p : profile) (m : BasicMsg) (count : N) : option (N * BasicReply) :=
  match m with
  | BIncrement n => count ← add64 p count n; Some (count, BDone)
  | BGetCount => Some (count, BCount count)
  | BReset => Some (0%N, BCount count)
  end.
Definition BasicCounter {W Snd} (p : profile) : Actor N W BasicMsg () Snd BasicReply :=
  plain_actor (λ m, match m with BIncrement _ => "Increment" | BGetCount => "GetCount" | BReset => "Reset" end)
    false (Basic_handle p).

Definition ask_count (m : BasicMsg) (k : N → Client BasicMsg BasicReply ()) : Client BasicMsg BasicReply () :=
  ask_await m (λ r, match r with BCount n => k n | BDone => Client.Done false end).
Definition basic_counter_main (printed : N → N → N → bool → bool) : Client BasicMsg BasicReply () :=
  tell_unwrap (BIncrement 5) (tell_unwrap (BIncrement 3) (tell_unwrap (BIncrement 2) (CSleep (λ _,
    ask_count BGetCount (λ count, ask_count BReset (λ old, ask_count BGetCount (λ count',
      CStop (CSleep (λ _, CAlive (λ alive, Client.Done (printed count old count' alive))))))))))).
Definition readme_quickstart_main (printed : N → bool) : Client BasicMsg BasicReply () :=
  tell_unwrap (BIncrement 5) (tell_unwrap (BIncrement 3) (CSleep (λ _,
    ask_count BGetCount (λ count, Client.Done (printed count))))).

(** ** Validator (error_handling.rs) *)
Inductive ValidatorMsg := Validate (input : string) | Lookup (id : N).
Definition ValidatorReply : Type := result ActorError string.

Definition Validator_validate (input : string) : ValidatorReply :=
  if String.length input =? 0 then
    Err (with_details "field: name" (ActorError_new InvalidArgument "input must not be empty"))
  else if 50 <? String.length input then
    let parse_err := ActorError_new Internal "buffer overflow in parser" in
    Err (with_cause parse_err (ActorError_new InvalidArgument "input too long"))
  else Ok ("ok: " +:+ input).
Definition Validator_lookup (id : N) : ValidatorReply :=
  match id with
  | 1%N => Ok "Alice"
  | 2%N => Ok "Bob"
  | _ => Err (ActorError_new NotFound ("user " +:+ pretty id +:+ " not found"))
  end.
Definition Validator {W Snd} : Actor () W ValidatorMsg () Snd ValidatorReply :=
  plain_actor (λ m, match m with Validate _ => "Validate" | Lookup _ => "Lookup" end) false
    (λ m _, Some ((), match m with Validate s => Validator_validate s | Lookup n => Validator_lookup n end)).

Definition x51 : string := String.concat "" (replicate 51 "x").
Abbreviation ValidatorTest := (Client ValidatorMsg ValidatorReply ()).
Definition expect_error (r : ValidatorReply) (k : ActorError → ValidatorTest) : ValidatorTest :=
  match r with Err e => k e | Ok _ => Client.Done false end.
Definition error_handling_main : ValidatorTest :=
  ask_await (Validate "hello") (λ result, assert_then (is_ok result)
  (ask_await (Validate "") (λ result, expect_error result (λ e,
     assert_then (bool_decide (code e = InvalidArgument))
     (assert_then (bool_decide (details e = Some "field: name"))
  (ask_await (Validate x51) (λ result, expect_error result (λ e,
     assert_then (match cause e with Some _ => true | None => false end)
     (assert_then (bool_decide (code <$> cause e = Some Internal))
  (ask_await (Lookup 99) (λ result, expect_error result (λ e,
     assert_then (bool_decide (code e = NotFound))
  (CAsk (Lookup 1) false (λ r, Client.unwrap r (λ i, CAwait i (λ result,
     match result with
     | Ok inner => assert_then (is_ok inner) (Client.Done true)
     | Err _ => Client.Done true
     end)))))))))))))))).

(** ** Supervision (supervision.rs)
    The worker goes on after a panic; the supervisor shares the list of what it
    has heard with [main]. *)
Inductive SupWorkerMsg := DoWork (task : string) | CrashNow | GetCompleted.
Inductive SupWorkerReply := Worked | CompletedTasks (n : N).

Definition SupWorker_handle (p : profile) (m : SupWorkerMsg) (completed : N) : option (N * SupWorkerReply) :=
  match m with
  | DoWork _ => completed ← add64 p completed 1; Some (completed, Worked)
  | CrashNow => None
  | GetCompleted => Some (completed, CompletedTasks completed)
  end.
Definition SupWorker {W Snd} (p : profile) : Actor N W SupWorkerMsg () Snd SupWorkerReply :=
  plain_actor (λ m, match m with DoWork _ => "DoWork" | CrashNow => "CrashNow" | GetCompleted => "GetCompleted" end)
    true (SupWorker_handle p).

Definition terminated_entry (msg : ChildTerminated) : string :=
  "child '" +:+ child_name msg +:+ "' terminated: " +:+ default "graceful shutdown" (ct_reason msg).
Definition Supervisor {W Snd} `{SharedWorld W () (list string)} : Actor () W ChildTerminated () Snd () := {|
  type_name _ := "ChildTerminated"; item_type_name := "";
  on_start := mret (); on_stop := mret (); on_error := default_on_error;
  handle msg := log_event (terminated_entry msg);
  handle_expand _ _ := panic_now; handle_reduce _ := panic_now;
  handle_transform _ _ := panic_now; on_transform_complete _ := panic_now
|}.
Definition Supervisor_object : Behaviour () ChildTerminated () (list string) := {|
  step msg st := ((st.1, st.2 ++ [terminated_entry msg]), Some ());
  resume st := (false, st); start_hook st := st; stop_hook st := st.2
|}.
Lemma supervisor_implements {W Snd} `{SharedWorld W () (list string)} :
  implements (H := Supervisor (W := W) (Snd := Snd)) Supervisor_object.
Proof.
  split.
  - intros m a v c w <-. cbn. destruct (put_shared_spec (shared w ++ [terminated_entry m]) w) as (-> & Hr & Hf).
    split; [done|]. split; [by intros ch o; rewrite Hr|done].
  - intros a w. cbn. by destruct a.
  - intros a v c w <-. by split.
  - intros a v w <-. by split.
Qed.

(** What [main] does with the worker; the stop makes the runtime tell the
    supervisor of it. *)
Definition supervision_main (printed : N → bool) : Client SupWorkerMsg SupWorkerReply () :=
  tell_unwrap (DoWork "task-A") (tell_unwrap (DoWork "task-B") (CSleep (λ _,
  tell_unwrap CrashNow (CSleep (λ _, tell_unwrap (DoWork "task-C") (CSleep (λ _,
  ask_await GetCompleted (λ r, match r with
    | CompletedTasks completed => CStop (CSleep (λ _, Client.Done (printed completed)))
    | Worked => Client.Done false
    end)))))))).
(** The runtime as a caller of the supervisor, and [main] reading the events. *)
Definition supervisor_hears (notification : ChildTerminated) (printed : list string → bool) :
    Client ChildTerminated () (list string) :=
  CTell notification (λ _, CSleep (λ events, Client.Done (printed events))).

(** ** A slow actor (bounded_mailbox.rs) *)
Definition SlowActor {W Snd} : Actor () W N () Snd () := {|
  type_name _ := "SlowMsg"; item_type_name := "";
  on_start := mret (); on_stop := mret (); on_error := default_on_error;
  handle _ := yield_now;
  handle_expand _ _ := panic_now; handle_reduce _ := panic_now;
  handle_transform _ _ := panic_now; on_transform_complete _ := panic_now
|}.

(** [main]: message 0 is being handled when the others arrive. What the sends
    return, and the messages in the mailbox. *)
Section bounded_mailbox.
Import Session.Demo.
Abbreviation SlowWorld := (World () ()).
Abbreviation SlowDispatch := (Dispatch SlowWorld N () () ()).
#[local] Instance slow_actor : Actor () SlowWorld N () () () := SlowActor.
Abbreviation SlowRun := (Run (A := ()) (W := SlowWorld) (M := N)
  (C := BoundedQueue (option SlowDispatch)) (U := TestQueue (option SlowDispatch))).

Fixpoint tell_each (msgs : list N) (r : SlowRun) : list (result ActorSendError ()) * SlowRun :=
  match msgs with
  | [] => ([], r)
  | m :: msgs =>
      let '(res, r) := after_tell ref m r in
      let '(rest, r) := tell_each msgs r in (res :: rest, r)
  end.
Definition bounded_mailbox_main (overflow : OverflowStrategy) : list (result ActorSendError ()) * list (Entry N) :=
  let actor : SlowRun := begin_with (Bounded 5 overflow) () () in
  let '(first, actor) := tell_each [0%N] actor in
  let actor := play [PTurn; PTurn; PTurn] actor in
  let '(others, actor) := tell_each [1; 2; 3; 4; 5; 99]%N actor in
  (first ++ others, drop (rn_taken actor) (rn_log actor)).
End bounded_mailbox.

(** ** The storages in use (persistence.rs)
    [op.await.unwrap()] and [assert_eq!]. *)
Definition stored {S X} (op : S → result PersistError X * S) : RT S X := λ s,
  match op s with (Ok x, s) => Some (x, s) | (Err _, _) => None end.
Definition asserts {S} (b : bool) : RT S () := if b then mret () else panic.

Record Printed := mkPrinted {
  pr_events : list JournalEntry; pr_highest : Z; pr_recent : nat; pr_latest : SnapshotEntry;
  pr_replay : option (list JournalEntry); pr_state : bytes; pr_updated : bytes;
  pr_remaining : nat; pr_exists : bool
}.
Definition literal (s : string) : bytes := String.list_byte_of_string s.
Definition quoted (s : string) : string :=
  let quote := String (Ascii.ascii_of_nat 34) EmptyString in quote +:+ s +:+ quote.
Definition settings (theme : string) : bytes :=
  literal ("{" +:+ quoted "theme" +:+ ": " +:+ quoted theme +:+ ", " +:+ quoted "lang" +:+ ": "
    +:+ quoted "en" +:+ "}").
Definition persistence_main (p : profile) {S} `{JournalStorage S, SnapshotStorage S, StateStorage S} : RT S Printed :=
  let pid := PersistenceId_new "BankAccount" "acct-42" in
  _ ← stored (write_event pid 1%Z "Deposited" (literal "100"));
  _ ← stored (write_event pid 2%Z "Withdrawn" (literal "30"));
  _ ← stored (write_event pid 3%Z "Deposited" (literal "50"));
  events ← stored (read_events pid 1%Z);
  highest ← stored (read_highest_sequence pid);
  highest ← ActorRef.unwrap highest;
  recent ← stored (read_events pid 2%Z);
  _ ← stored (save_snapshot pid 2%Z (literal "balance=70"));
  _ ← stored (save_snapshot pid 3%Z (literal "balance=120"));
  latest ← stored (load_latest_snapshot pid);
  latest ← ActorRef.unwrap latest;
  snap ← stored (load_latest_snapshot pid);
  replay ← match snap with
           | Some s => next ← ActorRef.unwrap (seq_next p (se_sequence_id s));
               replay ← stored (read_events pid next); mret (Some replay)
           | None => mret None
           end;
  let config_pid := PersistenceId_new "Config" "app-settings" in
  _ ← stored (save_state config_pid (settings "dark"));
  state ← stored (load_state config_pid);
  state ← ActorRef.unwrap state;
  _ ← stored (save_state config_pid (settings "light"));
  updated ← stored (load_state config_pid);
  updated ← ActorRef.unwrap updated;
  _ ← stored (delete_events_to pid 2%Z);
  remaining ← stored (read_events pid 1%Z);
  _ ← stored (delete_state config_pid);
  gone ← stored (load_state config_pid);
  mret (mkPrinted events highest (length recent) latest replay state updated (length remaining)
    match gone with Some _ => true | None => false end).

(** ** A bank account with a journal (event_sourcing.rs)
    [u64], [to_le_bytes] and [from_le_bytes]. *)
Record u64 := mk_u64 { u64_val : N; u64_fits : (u64_val <? 2 ^ 64)%N = true }.
Lemma u64_eq a b : u64_val a = u64_val b → a = b.
Proof. destruct a as [a Ha], b as [b Hb]. cbn. intros ->. f_equal. apply proof_irrel. Qed.
Lemma wrapped_fits n : (wrap64 n <? 2 ^ 64)%N = true.
Proof. apply N.ltb_lt, wrap64_lt. Qed.
(** [as u64]: what a wrapping operation leaves. *)
Definition to_u64 (n : N) : u64 := mk_u64 (wrap64 n) (wrapped_fits n).
Lemma to_u64_val a : to_u64 (u64_val a) = a.
Proof. apply u64_eq. cbn. apply wrap64_small, N.ltb_lt, u64_fits. Qed.

Fixpoint le_bytes (k : nat) (n : N) : bytes :=
  match k with
  | 0 => []
  | S k => default x00 (Byte.of_N (n mod 256)) :: le_bytes k (n / 256)
  end.
Definition to_le_bytes (n : u64) : bytes := le_bytes 8 (u64_val n).
Definition from_le_bytes (b : bytes) : u64 := to_u64 (foldr (λ x n, Byte.to_N x + 256 * n)%N 0%N b).

Lemma le_bytes_val k n :
  foldr (λ x n, Byte.to_N x + 256 * n)%N 0%N (le_bytes k n) = (n mod 256 ^ N.of_nat k)%N.
Proof.
  revert n. induction k as [|k IH]; intros n; [by rewrite N.mod_1_r|]. cbn [le_bytes foldr]. rewrite IH.
  assert (∃ x, Byte.of_N (n mod 256) = Some x) as [x Hx].
  { destruct (Byte.of_N (n mod 256)) eqn:Hx; [by eexists|]. apply Byte.of_N_None_iff in Hx.
    pose proof (N.mod_lt n 256). lia. }
  rewrite Hx. change (default x00 (Some x)) with x. rewrite (Byte.to_of_N _ Hx), Nat2N.inj_succ, N.pow_succ_r by lia.
  rewrite N.Div0.mod_mul_r by lia. done.
Qed.
Lemma from_to_le_bytes n : from_le_bytes (to_le_bytes n) = n.
Proof.
  unfold from_le_bytes, to_le_bytes. rewrite le_bytes_val, N.mod_small, to_u64_val; [done|].
  apply N.ltb_lt, u64_fits.
Qed.
Lemma to_le_bytes_length n : length (to_le_bytes n) = 8.
Proof. done. Qed.

Inductive BankEvent := Deposited (amt : u64) | Withdrawn (amt : u64).
Record BankAccount := mkBankAccount { account_id : string; bank_balance : u64; bank_seq : Z }.
Definition BankAccount_new (account_id : string) : BankAccount := mkBankAccount account_id (to_u64 0) 0.

(** The plain operators, in a release build; [bank_fits] is where overflow checks
    would panic. *)
Definition balance_after (balance : u64) (event : BankEvent) : u64 :=
  match event with
  | Deposited amt => to_u64 (u64_val balance + u64_val amt)
  | Withdrawn amt => to_u64 (u64_val balance + 2 ^ 64 - u64_val amt)
  end.
Definition bank_fits (balance : u64) (event : BankEvent) : bool :=
  match event with
  | Deposited amt => (u64_val balance + u64_val amt <? 2 ^ 64)%N
  | Withdrawn amt => (u64_val amt <=? u64_val balance)%N
  end.
Definition BankAccount_apply (a : BankAccount) (event : BankEvent) : BankAccount :=
  mkBankAccount (account_id a) (balance_after (bank_balance a) event) (bank_seq a).
Definition bank_serialize_event (event : BankEvent) : bytes :=
  match event with
  | Deposited a => literal "D:" ++ to_le_bytes a
  | Withdrawn a => literal "W:" ++ to_le_bytes a
  end.
Definition bank_deserialize_event (payload : bytes) : result PersistError BankEvent :=
  if length payload <? 10 then Err (SerializationFailed "too short")
  else
    let amt := from_le_bytes (take 8 (drop 2 payload)) in
    if bool_decide (take 2 payload = literal "D:") then Ok (Deposited amt)
    else if bool_decide (take 2 payload = literal "W:") then Ok (Withdrawn amt)
    else Err (SerializationFailed "unknown tag").
Definition bank_restore_snapshot (a : BankAccount) (payload : bytes) : result PersistError () * BankAccount :=
  if length payload =? 8
  then (Ok (), mkBankAccount (account_id a) (from_le_bytes payload) (bank_seq a))
  else (Err (SerializationFailed "bad snapshot"), a).

#[export] Instance BankAccount_persistent : PersistentActor BankAccount := {|
  persistence_id a := PersistenceId_new "BankAccount" (account_id a);
  pre_recovery a := a; post_recovery a := a;
  recovery_failure_policy _ := default_recovery_failure_policy;
  persist_failure_policy _ := default_persist_failure_policy
|}.
#[export] Instance BankAccount_event_sourced : EventSourced BankAccount BankEvent := {|
  event_type := "event_sourcing::BankEvent";
  apply := BankAccount_apply;
  deserialize_event _ := bank_deserialize_event;
  serialize_event _ event := Ok (bank_serialize_event event);
  restore_snapshot := bank_restore_snapshot;
  snapshot_payload a := Ok (to_le_bytes (bank_balance a));
  snapshot_config _ := None;
  last_sequence_id := bank_seq;
  set_last_sequence_id a seq := mkBankAccount (account_id a) (bank_balance a) seq
|}.

Lemma bank_event_roundtrip event : bank_deserialize_event (bank_serialize_event event) = Ok event.
Proof.
  destruct event as [a|a]; unfold bank_deserialize_event, bank_serialize_event;
    rewrite length_app, to_le_bytes_length;
    change (drop 2 (_ ++ to_le_bytes a)) with (to_le_bytes a); rewrite (take_ge (to_le_bytes a) 8) by done;
    rewrite from_to_le_bytes; by rewrite take_app_le by done.
Qed.
(** The account keeps what an event-sourced actor promises, so recovery rebuilds
    it (Persistence.v), in release builds. *)
#[export] Instance BankAccount_laws : EventSourcedLaws BankAccount BankEvent u64.
Proof.
  refine (Build_EventSourcedLaws _ _ _ _ _ bank_balance balance_after _ _ _ _ _ _ _ _ _ _ _ _); try done.
  - intros ? ? e b [= <-]. apply bank_event_roundtrip.
  - intros a a' b [= <-]. cbn -[to_le_bytes from_le_bytes]. unfold bank_restore_snapshot.
    rewrite to_le_bytes_length, from_to_le_bytes. by eexists.
Defined.

(** The part of [main] that persists, and the part that asks an account of a
    runtime. *)
Section bank_main.
Context (p : profile) {S : Type} `{JournalStorage S} `{SnapshotStorage S}.

Definition bank_persist (event : BankEvent) (a : BankAccount) : RT S BankAccount := λ s,
  '(r, a', s) ← persist p event a s;
  match r, p with
  | Ok _, Debug => if bank_fits (bank_balance a) event then Some (a', s) else None
  | Ok _, Release => Some (a', s)
  | Err _, _ => None
  end.
Definition bank_recover (a : BankAccount) : RT S BankAccount := λ s,
  '(r, (a, s), _) ← recover_event_sourced p a s;
  match r with Ok _ => Some (a, s) | Err _ => None end.
Definition has_balance (n : N) (a : BankAccount) : bool := (u64_val (bank_balance a) =? n)%N.

Definition event_sourcing_main : RT S () :=
  let account := BankAccount_new "acct-1" in
  account ← bank_persist (Deposited (to_u64 100)) account;
  account ← bank_persist (Deposited (to_u64 50)) account;
  account ← bank_persist (Withdrawn (to_u64 30)) account;
  _ ← asserts (has_balance 120 account);
  _ ← stored (Persistence.snapshot account);
  account ← bank_persist (Deposited (to_u64 80)) account;
  _ ← asserts (has_balance 200 account);
  recovered ← bank_recover (BankAccount_new "acct-1");
  _ ← asserts (has_balance 200 recovered);
  asserts (bank_seq recovered =? 4)%Z.
End bank_main.
(** [GetBalance] is the only message. *)
Definition BankActor {W Snd} : Actor BankAccount W () () Snd u64 :=
  plain_actor (λ _, "GetBalance") false (λ _ a, Some (a, bank_balance a)).
Definition bank_actor_main : Client () u64 () :=
  ask_await () (λ bal, assert_then (u64_val bal =? 0)%N
    (CStop (CSleep (λ _, CAlive (λ alive, assert_then (negb alive) (Client.Done true)))))).

(** ** What the programs find *)
(** The examples on an actor of a runtime, each with what its actor is spawned
    with and the values it prints. *)
Inductive example_of {W Snd : Type} : ∀ A M R : Type, Actor A W M () Snd R → A → Client M R () → Prop :=
  | ex_basic_counter p : example_of _ _ _ (BasicCounter p) 0%N
      (basic_counter_main (λ count old count' alive,
         (count =? 10)%N && (old =? 10)%N && (count' =? 0)%N && negb alive))
  | ex_readme p : example_of _ _ _ (BasicCounter p) 0%N (readme_quickstart_main (λ count, count =? 8)%N)
  | ex_error_handling : example_of _ _ _ Validator () error_handling_main
  | ex_supervision p : example_of _ _ _ (SupWorker p) 0%N (supervision_main (λ completed, completed =? 3)%N)
  | ex_bank : example_of _ _ _ BankActor (BankAccount_new "acct-2") bank_actor_main.
Arguments example_of {W Snd A M R}.

Lemma example_expected {W Snd A M R : Type} (actor : Actor A W M () Snd R) a t :
  example_of actor a t →
  ∃ b : Behaviour A M R (), (∀ HW : SessionWorld W R (), implements (H := actor) b)
    ∧ expect_prog b (object_start b a ()) t [] = true.
Proof.
  intros []; (eexists; split; [intros; apply plain_implements|]);
    try match goal with p : profile |- _ => destruct p end; vm_compute; reflexivity.
Qed.

Module Spec.
Section sessions.
Context {W Snd Rf Rx Str C U M R V A : Type} `{LoopWorld W Rf}.
Abbreviation D := (Dispatch W M () Snd R).
Context `{RefWorld W D R Snd Rx Str ()} `{SenderLaws (option D) C} `{Receiver (option D) C}.
Context `{!ReceiverLaws (option D) C} `{UnboundedLaws (option D) U}.
Context (ref : ActorRefData (W := W) (M := M) (T := ()) (R := R)).
Context (Hics : rf_interceptors ref = []) (Hdead : rf_dead_letter_handler ref = None).

(** The examples pass: on every schedule they reach their end, no [unwrap] or
    [assert] of theirs fails, and they print these values. *)
Theorem examples_pass `{SessionWorld W R ()} `{!SessionLaws W D R () Snd Rx Str () Rf}
    (actor : Actor A W M () Snd R) a t w u l :
  example_of actor a t → spawned_with a () w u l → is_bounded u = false →
  passes (Rx := Rx) (Str := Str) (C := C) (U := U) ref (session_start w u l, t).
Proof.
  intros (b & Hb & He)%example_expected Hsp Hu. by apply (expected_passes b a ()).
Qed.
End sessions.

Import Session.Demo.
#[local] Instance worker_debug : Actor N (World SupWorkerReply ()) SupWorkerMsg () () SupWorkerReply :=
  SupWorker Debug.
Lemma examples_pass_witness :
  passes (Rx := ()) (Str := ()) ref (begin 0%N (), supervision_main (λ completed, completed =? 3)%N).
Proof.
  exact (examples_pass ref eq_refl eq_refl (SupWorker Debug) 0%N _ _ _ _ (ex_supervision Debug)
    (demo_spawned 0%N ()) eq_refl).
Defined.

(** The supervisor records one entry for the worker that was stopped. *)
Theorem supervisor_records {W Snd Rf Rx Str C U} `{LoopWorld W Rf}
    `{RefWorld W (Dispatch W ChildTerminated () Snd ()) () Snd Rx Str ()}
    `{SenderLaws (option (Dispatch W ChildTerminated () Snd ())) C}
    `{Receiver (option (Dispatch W ChildTerminated () Snd ())) C}
    `{!ReceiverLaws (option (Dispatch W ChildTerminated () Snd ())) C}
    `{UnboundedLaws (option (Dispatch W ChildTerminated () Snd ())) U} `{SharedWorld W () (list string)}
    `{!SessionLaws W (Dispatch W ChildTerminated () Snd ()) () (list string) Snd Rx Str () Rf} ref id w u l :
  rf_interceptors ref = [] → rf_dead_letter_handler ref = None →
  spawned_with () [] w u l → is_bounded u = false →
  passes (H := Supervisor (W := W) (Snd := Snd)) (C := C) (U := U) (Rx := Rx) (Str := Str)
    ref (session_start (H := Supervisor (W := W) (Snd := Snd)) w u l,
      supervisor_hears (mkChildTerminated id "worker" None)
        (λ events, bool_decide (events = ["child 'worker' terminated: graceful shutdown"]))).
Proof.
  intros Hics Hdead Hsp Hu. by apply (expected_passes Supervisor_object () []); [apply supervisor_implements|..].
Qed.

(** Five messages fit behind the one that is being handled; the sixth is
    refused, or lost although the sender is told [Ok]. *)
Theorem bounded_mailbox_prints :
  let full := ETell <$> [1; 2; 3; 4; 5]%N in
  bounded_mailbox_main RejectWithError = (replicate 6 (Ok ()) ++ [Err (mkActorSendError "mailbox full")], full)
  ∧ bounded_mailbox_main DropNewest = (replicate 7 (Ok ()), full).
Proof. vm_compute. by split. Qed.

(** Nothing of the storage example fails, and it prints this. *)
Theorem persistence_prints p :
  let entry n t b := mkJournalEntry n t (literal b) in
  fst <$> persistence_main p InMemoryStorage_new
  = Some (mkPrinted [entry 1 "Deposited" "100"; entry 2 "Withdrawn" "30"; entry 3 "Deposited" "50"]%Z
      3 2 (mkSnapshotEntry 3 (literal "balance=120")) (Some []) (settings "dark") (settings "light") 1 false).
Proof. destruct p; vm_compute; reflexivity. Qed.

(** Nor of the event-sourcing example, with overflow checks and without: its
    assertions hold. *)
Theorem event_sourcing_passes p :
  fst <$> event_sourcing_main p InMemoryStorage_new = Some ().
Proof. destruct p; vm_compute; reflexivity. Qed.

(** A withdrawal from an empty account is journalled before it is applied: with
    overflow checks the actor panics and its journal keeps the event; without, the
    balance wraps. *)
Theorem overdraft_is_journalled amt :
  (0 < u64_val amt)%N →
  let fresh := BankAccount_new "acct-1" in
  bank_persist Debug (Withdrawn amt) fresh InMemoryStorage_new = None
  ∧ ∃ a s, persist Debug (Withdrawn amt) fresh InMemoryStorage_new = Some (Ok 1%Z, a, s)
      ∧ (read_events (persistence_id fresh) 1%Z s).1
        = Ok [mkJournalEntry 1 "event_sourcing::BankEvent" (bank_serialize_event (Withdrawn amt))]
      ∧ u64_val (bank_balance a) = (2 ^ 64 - u64_val amt)%N.
Proof.
  intros Hpos. pose proof (proj1 (N.ltb_lt _ _) (u64_fits amt)) as Hlt. split.
  - unfold bank_persist. cbn. by destruct (N.leb_spec (u64_val amt) (wrap64 0)) as [Hle|]; [change (wrap64 0) with 0%N in Hle; lia|].
  - do 2 eexists. split; [reflexivity|]. split; [vm_compute; reflexivity|].
    change (wrap64 (0 + 2 ^ 64 - u64_val amt) = 2 ^ 64 - u64_val amt)%N. rewrite wrap64_small; lia.
Qed.
Lemma overdraft_is_journalled_witness :
  bank_persist Debug (Withdrawn (to_u64 5)) (BankAccount_new "acct-1") InMemoryStorage_new = None.
Proof. exact (proj1 (overdraft_is_journalled (to_u64 5) eq_refl)). Defined.
End Spec.
